(* ===== verification/_CoqProject ===== *)
-Q . S2P
Prelude.v
RustStd.v
Json.v
Frame.v
Net.v
NetShow.v
Forwarding.v
Transports.v
Keys.v
AuthPolicy.v
DynConfig.v
RateLimit.v
Socket.v
Socks5.v
ServerHandler.v
Tunnel.v
ChannelProxy.v
RawFraming.v
SshInterface.v
BoundedBridge.v
Pending.v
Call.v
ServeConfig.v
NapiConfig.v
NapiServer.v
HttpRouter.v
Server.v
System.v
Client.v
LocalForward.v
Relay.v
Pipe.v
ClientSession.v
ChannelManager.v
NapiConnect.v
Cli.v
Interfaces.v
KeyCache.v
Derivation.v
Encryption.v
SecretService.v
SecretActor.v
Redaction.v
