(* ===== verification/Prelude.v ===== *)
(** * alknet: a verification library

    alknet tunnels TCP over SSH.  A client runs a SOCKS5 server and port
    forwards on the local machine and sends each connection through an SSH
    channel; a server authenticates clients by key, certificate or API key,
    checks every destination against a forwarding policy, and dials it, directly
    or through a proxy.  A call protocol (JSON envelopes in length-prefixed
    frames, an operation registry, pending requests) runs over the same
    connections, and a separate service derives keys from a mnemonic, caches
    them and encrypts secrets.  The crates are alknet-core, alknet-secret,
    alknet-napi and alknet, under src/crates.

    ** Conventions

    Rust's [Result] is [result], a computation that may panic is an [outcome]
    ([Ret] or [Panic]), and [?] is [let?].  Strings are their UTF-8 bytes, so
    lengths and slices are Rust's; integers are [Z] with wrap-around and
    truncation written out.  Shared mutable state is passed explicitly.  Code
    outside the repository is an interface with the documented facts the proofs
    use: serde_json ([Json], [JsonLaws], [EnvelopeCodec]), russh's keys
    ([SshKeys], [ClientKeys]), the file system ([FileSystem]), ipnetwork
    ([IpNetworkLib]), SHA-256 ([Sha256]), sockets, TLS, ACME and iroh
    ([Transports]), an SSH channel between two relays ([SshChannel]), the text of
    an HTTP header ([HttpHeaders]) and the derivation and encryption primitives.
    Each has a concrete instance in an example module, on which the witnesses
    evaluate.  Tasks that run concurrently are interleaved by a step relation
    whose steps are the code's critical sections; where progress is claimed, the
    steps of the tasks themselves are told from those of their surroundings.

    ** Files, in dependency order

    - [Prelude]: [result], [outcome], their notations, generic lemmas.
    - [RustStd]: integers, bytes, strings, UTF-8, number parsing and printing.
    - [Json], [Frame]: serde_json's values; call/envelope.rs, call/events.rs and
      call/frame.rs.  The reader, fed a stream in pieces of any size, refines a
      specification on the whole byte string; what is written is read back; a
      frame with bad JSON is skipped.
    - [Net], [NetShow]: [core::net]'s address parser and printer.
    - [Forwarding]: config/forwarding.rs, and the identity and transport types.
      The policy's answer is that of the first rule that applies.
    - [Transports]: transport/*.rs.  The two traits are classes, with an instance
      for each transport; what a connection made over TLS has verified; a peer
      that stalls in its handshake keeps others from being accepted; when the
      ACME worker runs on.
    - [Keys]: auth/keys.rs, error.rs.  What an authorized_keys line means, and
      the lines that make loading panic.
    - [AuthPolicy]: the authentication half of config/dynamic_config.rs, and
      auth/server_auth.rs ([Module ServerAuth]).  When a certificate or an API
      key is accepted, as equivalences; the two implementations agree.
    - [DynConfig]: the rest of config/dynamic_config.rs, credentials/mod.rs,
      config/config_service.rs, auth/identity.rs, auth/auth_protocol.rs,
      http/auth.rs.  [IdentityProvider] is the interface the servers use.
    - [RateLimit]: server/rate_limit.rs.
    - [Socket]: a connected stream and the monad of code that reads and writes
      it; [reader] relates such code to the bytes it takes, however they arrive.
    - [Socks5]: socks5/protocol.rs, socks5/mod.rs.  A CONNECT is served for
      exactly its destination, and nothing else opens a channel.
    - [ServerHandler]: server/handler.rs, server/control_channel.rs.  A request is
      dialled exactly when the policy allows it to the identity logged in; the
      address dialled is the one the policy saw; failures lock out at the limit
      and not before.
    - [Tunnel]: the channel opener of socks5/mod.rs on a session whose peer is
      the handler of [ServerHandler]: from a SOCKS5 request to the dial, the
      policy decides.
    - [ChannelProxy]: server/channel_proxy.rs, and its SOCKS5 handshake against
      the server of [Socks5], end to end.
    - [RawFraming]: interface/config.rs, pairs.rs, session.rs, raw_framing.rs.  A
      session authenticates by its first frame and delivers the rest in order.
    - [SshInterface]: interface/ssh.rs.  Its handler decides as the server's does;
      the control-channel bridge is faithful in both directions.
    - [BoundedBridge]: the same bridge with its queues of 256 and the session
      that uses it.  It refines the unbounded one; the two queues can block each
      other, but only under a session that sends before it receives.
    - [Pending]: call/response.rs, call/pending.rs, with the channels whose
      senders the map and its users share.  At every moment the map, the senders
      and what was received are what the history of calls says.
    - [Call]: call/spec.rs, registry.rs, context.rs, env.rs, services.rs.  A
      handler runs exactly when access control permits; discovery is complete.
    - [ServeConfig]: the configuration half of server/serve.rs, and
      config/static_config.rs.  Only valid listeners reach a server.
    - [NapiConfig], [NapiServer]: alknet-napi's serve.rs: its policies and
      reloads; its handler, which decides as the server's does, the start of its
      servers, and its accept loop with the queue of channels that the
      JavaScript callback is given, in order.
    - [HttpRouter]: http/router.rs.  The router answers every request, and
      without a panic.
    - [Server]: server/stealth.rs and the running half of server/serve.rs:
      routing, accept loop, sessions, shutdown.  The limit per address holds in
      every reachable state; shutdown asks every recorded session to disconnect
      but stops none, and comes to its end unless a session's full queue holds
      it up.
    - [System]: a whole server, with the configuration that its handlers and its
      router share and the reloads of it.  Every dial was allowed by the
      configuration in force at that moment; a reload applies at once to every
      connection; which parts of a configuration are never read.
    - [Client]: client/forward.rs and the options of client/connect.rs.
    - [LocalForward]: [run_local_forwarders] of client/forward.rs, poll by poll.
      A forward ends at its first poll after the spawning loop.
    - [Relay]: the two-way copies of server/channel_proxy.rs and
      client/forward.rs.  A relay ends once both sources have, with everything
      delivered; the server's passes a half-close on, the client's does not.
    - [Pipe]: a connection from the application to the target, through the
      client's relay, the channel and the server's relay.  Bytes stay in order
      whatever fails; if no copy fails it ends once both ends have, with
      everything delivered but what a proxy's handshake takes; a half-close
      travels through it, but not from a local forward.
    - [ClientSession]: auth/client_auth.rs and the session of client/connect.rs:
      what a session has authenticated, [run] with its reconnecting monitor and
      the lock on the handle, what it can wait for, and its end.
    - [ChannelManager]: client/channel_manager.rs, with any number of callers,
      its monitor, its locks and its [Drop].  Forwards survive reconnection; a
      deadlock is reachable; a manager dropped at once leaks its monitor.
    - [NapiConnect]: alknet-napi's connect.rs: its stream, its transports, and
      which of the two servers it can talk to.
    - [Cli]: alknet's main.rs: what its two commands have made sure of when they
      run.
    - [Interfaces]: interface/mod.rs, http.rs, dns.rs, and the accepting half of
      interface/ssh.rs.
    - [KeyCache]: alknet-secret's cache.rs, a refinement of an LRU list.
    - [Derivation]: derivation.rs and ethereum.rs: derivation paths.
    - [Encryption]: mnemonic.rs and encryption.rs.
    - [SecretService]: service.rs and protocol.rs: the handle with its lock and
      the poisoning of it, and how a key is serialised.  A locked service
      answers nothing; caching is invisible within one curve, and mixes the two
      up; what is encrypted is decrypted.
    - [SecretActor]: the actor of service.rs behind its channel, with its clients,
      the tasks that deliver its answers, and other users of the handle.  It is
      linearizable, and gives nothing secret out before an unlock.
    - [Redaction]: what the [Debug] implementations of the types that hold keys
      show, and what they hide.

    ** Fuel

    Recursion is structural wherever the code loops over data.  Where it is not,
    the fuel is a bound that is proved or evidently enough: UTF-8 decoding and
    trimming take the length of the input, each step consuming a byte; printing
    a number takes twenty digits, enough for 64 bits; the loop that reads an HTTP
    response takes one more than the bytes to come ([read_response_fuel] shows
    more changes nothing); nested operation calls take fuel that
    [invoke_terminates] bounds by the depth of nesting.

    ** Not modelled

    The SSH protocol is russh's, the TLS one rustls's, the ACME one
    rustls-acme's, QUIC and hole punching iroh's, HTTP axum's and hyper's: the
    sources call them, and here they are interfaces or events.  The same holds
    of clap's parsing of the command line, of the passing of values between
    Node.js and the bindings, and of irpc's remote transport: the actor's
    clients are the local ones.  Logging, the layout of [Debug] output, getters,
    the durations of sleeps other than the reconnection pauses, the fairness of
    [select!] and, except for the handle's in [ClientSession], of locks, and zeroisation of freed memory are not observable
    in the model.  Tests, test helpers and module declarations have no behaviour
    to model. *)
From stdpp Require Export prelude list gmap strings.

(** ** Fallible and panicking computations

    [result] is Rust's [Result<A, E>]; [outcome] marks a computation that may
    panic (index out of range, [unwrap], a slice off a character boundary). *)
Inductive result (A E : Type) : Type :=
| Ok (a : A)
| Err (e : E).
Arguments Ok {A E} a.
Arguments Err {A E} e.

Inductive outcome (A : Type) : Type :=
| Ret (a : A)
| Panic.
Arguments Ret {A} a.
Arguments Panic {A}.

Definition rbind {A B E} (r : result A E) (k : A → result B E) : result B E :=
  match r with Ok a => k a | Err e => Err e end.

Definition obind {A B} (o : outcome A) (k : A → outcome B) : outcome B :=
  match o with Ret a => k a | Panic => Panic end.

Definition map_err {A E F} (f : E → F) (r : result A E) : result A F :=
  match r with Ok a => Ok a | Err e => Err (f e) end.

Definition ok_or {A E} (o : option A) (e : E) : result A E :=
  match o with Some a => Ok a | None => Err e end.

Definition is_ok {A E} (r : result A E) : bool :=
  match r with Ok _ => true | Err _ => false end.

Definition result_ok {A E} (r : result A E) : option A :=
  match r with Ok a => Some a | Err _ => None end.

(** The [?] operator: [let? x := e in k] returns early with [e]'s error. *)
Declare Scope rust_scope.
Delimit Scope rust_scope with rust.
Notation "'let?' x := e 'in' k" := (rbind e (λ x, k))
  (at level 200, x pattern, e at level 100, k at level 200) : rust_scope.
(** Sequencing through a possible panic. *)
Notation "'let!' x := e 'in' k" := (obind e (λ x, k))
  (at level 200, x pattern, e at level 100, k at level 200) : rust_scope.
Open Scope rust_scope.

#[export] Instance result_eq_dec `{EqDecision A, EqDecision E} : EqDecision (result A E).
Proof. solve_decision. Defined.
#[export] Instance outcome_eq_dec `{EqDecision A} : EqDecision (outcome A).
Proof. solve_decision. Defined.

(** ** Automation *)
Create HintDb alk.

(** Case analysis on every [match] and [if] of the goal, closing what is
    immediate. *)
Ltac crush_match :=
  repeat (case_match; simplify_eq/=; try done).

(** Invert an equation [rbind r k = v] into the two ways it can arise. *)
Lemma rbind_ok {A B E} (r : result A E) (k : A → result B E) b :
  rbind r k = Ok b ↔ ∃ a, r = Ok a ∧ k a = Ok b.
Proof. destruct r; naive_solver. Qed.

Lemma rbind_err {A B E} (r : result A E) (k : A → result B E) e :
  rbind r k = Err e ↔ r = Err e ∨ ∃ a, r = Ok a ∧ k a = Err e.
Proof. destruct r; naive_solver. Qed.

Lemma map_err_ok {A E F} (f : E → F) (r : result A E) a :
  map_err f r = Ok a ↔ r = Ok a.
Proof. destruct r; naive_solver. Qed.

(** ** Lists *)

(** [Iterator::find]. *)
Fixpoint find_first {A} (p : A → bool) (l : list A) : option A :=
  match l with
  | [] => None
  | x :: l' => if p x then Some x else find_first p l'
  end.

Lemma find_first_Some {A} (p : A → bool) l x :
  find_first p l = Some x ↔
  ∃ l1 l2, l = l1 ++ x :: l2 ∧ p x = true ∧ Forall (λ y, p y = false) l1.
Proof.
  induction l as [|y l IH]; simpl.
  { split; [done|]. intros (l1 & l2 & ? & _); destruct l1; simplify_eq. }
  destruct (p y) eqn:Hp.
  - split.
    + intros [= <-]. exists [], l. naive_solver.
    + intros ([|z l1] & l2 & ? & Hx & Hl); simplify_eq/=; [done|].
      apply Forall_cons in Hl as [? _]. congruence.
  - rewrite IH. split.
    + intros (l1 & l2 & -> & ? & ?). exists (y :: l1), l2. naive_solver.
    + intros ([|z l1] & l2 & ? & Hx & Hl); simplify_eq/=; [congruence|].
      apply Forall_cons in Hl as [_ ?]. eauto.
Qed.

Lemma find_first_None {A} (p : A → bool) l :
  find_first p l = None ↔ Forall (λ y, p y = false) l.
Proof.
  induction l as [|y l IH]; simpl; [by split|].
  rewrite Forall_cons. destruct (p y); naive_solver.
Qed.

(** Keep the [Ok] values of a traversal, or stop at the first error: the shape
    of a [for] loop whose body uses [?]. *)
Fixpoint traverse {A B E} (f : A → result B E) (l : list A) : result (list B) E :=
  match l with
  | [] => Ok []
  | x :: l' => let? y := f x in let? ys := traverse f l' in Ok (y :: ys)
  end.

Lemma traverse_ok {A B E} (f : A → result B E) l ys :
  traverse f l = Ok ys ↔ Forall2 (λ x y, f x = Ok y) l ys.
Proof.
  revert ys. induction l as [|x l IH]; intros ys; simpl.
  { split; [intros [= <-]; constructor|]. by inversion 1. }
  rewrite rbind_ok. split.
  - intros (y & Hy & (zs & Hzs & [= <-])%rbind_ok).
    constructor; [done|]. by apply IH.
  - inversion 1 as [|? y ? zs Hy Hzs]; simplify_eq.
    exists y. split; [done|]. apply rbind_ok. exists zs. by rewrite IH.
Qed.

(** Iterate a step function, collecting its outputs: a [while] or repeated
    method call on an object with mutable state. *)
Fixpoint run_steps {S I O} (f : S → I → S * O) (s : S) (is_ : list I) : S * list O :=
  match is_ with
  | [] => (s, [])
  | i :: is' =>
      let '(s1, o) := f s i in
      let '(s2, os) := run_steps f s1 is' in
      (s2, o :: os)
  end.

(** Steps that are matched by runs of a more abstract system keep being so. *)
Section Simulation.
Context {A B : Type} (step1 : A → A → Prop) (step2 : B → B → Prop) (sim : A → B → Prop).
Hypothesis sim_step : ∀ a a' b, step1 a a' → sim a b → ∃ b', rtc step2 b b' ∧ sim a' b'.

Lemma simulation_rtc a a' b : rtc step1 a a' → sim a b → ∃ b', rtc step2 b b' ∧ sim a' b'.
Proof.
  intros Hr. revert b. induction Hr as [a|a1 a2 a3 Hs _ IH]; intros b Hsim; [by exists b|].
  destruct (sim_step _ _ _ Hs Hsim) as (b1 & Hb1 & Hsim1). destruct (IH b1 Hsim1) as (b2 & Hb2 & Hsim2).
  exists b2. split; [by etrans|done].
Qed.
End Simulation.

Lemma run_steps_last {S I O} (f : S → I → S * O) s l i s1 os s2 o :
  run_steps f s l = (s1, os) → f s1 i = (s2, o) → run_steps f s (l ++ [i]) = (s2, os ++ [o]).
Proof.
  revert s os. induction l as [|j l IH]; intros s os; simpl.
  - intros [= -> <-] ->. done.
  - destruct (f s j) as [s' o']. destruct (run_steps f s' l) as [s'' os'] eqn:Hl. intros [= -> <-] Hi.
    by rewrite (IH s' os' Hl Hi).
Qed.

Lemma filter_agree {A} (P Q : A → Prop) `{∀ x, Decision (P x), ∀ x, Decision (Q x)} (l : list A) :
  (∀ x, x ∈ l → P x ↔ Q x) → filter P l = filter Q l.
Proof.
  induction l as [|x l IH]; intros Hiff; [done|].
  rewrite !filter_cons, IH by (intros; apply Hiff; set_solver).
  assert (P x ↔ Q x) by (apply Hiff; set_solver).
  destruct (decide (P x)), (decide (Q x)); naive_solver.
Qed.

Lemma filter_all {A} (P : A → Prop) `{∀ x, Decision (P x)} (l : list A) :
  (∀ x, x ∈ l → P x) → filter P l = l.
Proof.
  induction l as [|x l IH]; intros Hall; [done|].
  rewrite filter_cons_True by (apply Hall; set_solver). rewrite IH; [done|]. set_solver.
Qed.

(** The first element with a property is unique, in whatever way the list is
    split before it. *)
Lemma first_split_unique {A} (P : A → Prop) (l1 l2 m1 m2 : list A) x y :
  l1 ++ x :: l2 = m1 ++ y :: m2 → P x → P y →
  Forall (λ z, ¬ P z) l1 → Forall (λ z, ¬ P z) m1 → y = x.
Proof.
  revert m1. induction l1 as [|z l1 IH]; intros [|w m1] Heq Hx Hy Hl Hm; simplify_eq/=;
    rewrite ?Forall_cons in *; naive_solver.
Qed.
