(* ===== verification/RustStd.v ===== *)
(** * The parts of Rust's language and standard library the sources use

    Strings are their UTF-8 bytes: a Rust [str] is a Stdlib [string] whose
    characters are the bytes of the text, so [len], slicing and prefix tests are
    bytewise as in Rust.  A [u8] is a [Byte.byte]; [u16], [u32], [u64] and
    [usize] are [Z] with the wrap-around written out.  The last part models
    UTF-8 decoding ([String::from_utf8], [String::from_utf8_lossy]). *)
From S2P Require Import Prelude.
From Stdlib Require Import Ascii Strings.Byte.
Open Scope Z_scope.

(** ** Machine integers *)
Definition u16_max : Z := 2 ^ 16 - 1.
Definition u32_max : Z := 2 ^ 32 - 1.
Definition as_u8 (n : Z) : Z := n `mod` 2 ^ 8.
Definition as_u16 (n : Z) : Z := n `mod` 2 ^ 16.
Definition as_u32 (n : Z) : Z := n `mod` 2 ^ 32.

(** [a + b] on [u32]: a build with overflow checks panics where a release build
    wraps. *)
Definition u32_add (overflow_checks : bool) (a b : Z) : outcome Z :=
  if u32_max <? a + b then (if overflow_checks then Panic else Ret (as_u32 (a + b)))
  else Ret (a + b).

(** ** Bytes *)
Definition byte_val (b : byte) : Z := Z.of_N (Byte.to_N b).
Definition byte_of (n : Z) : byte := default x00 (Byte.of_N (Z.to_N (n `mod` 256))).

#[export] Instance byte_eq_dec : EqDecision byte := Byte.byte_eq_dec.

Lemma byte_val_range b : 0 ≤ byte_val b < 256.
Proof. unfold byte_val. pose proof (Byte.to_N_bounded b). lia. Qed.

Lemma byte_val_of n : byte_val (byte_of n) = n `mod` 256.
Proof.
  unfold byte_val, byte_of.
  pose proof (Z.mod_pos_bound n 256 ltac:(lia)).
  destruct (Byte.of_N (Z.to_N (n `mod` 256))) as [b|] eqn:Hb; simpl.
  - apply Byte.to_of_N in Hb. rewrite Hb. lia.
  - apply Byte.of_N_None_iff in Hb. lia.
Qed.

Lemma byte_of_val b : byte_of (byte_val b) = b.
Proof.
  unfold byte_of. rewrite Z.mod_small by apply byte_val_range.
  unfold byte_val. by rewrite N2Z.id, Byte.of_to_N.
Qed.

(** [u32::to_be_bytes] and [u32::from_be_bytes]. *)
Definition u32_to_be_bytes (n : Z) : list byte :=
  [byte_of (n `div` 2 ^ 24); byte_of (n `div` 2 ^ 16); byte_of (n `div` 2 ^ 8); byte_of n].

Definition u32_from_be_bytes (b0 b1 b2 b3 : byte) : Z :=
  byte_val b0 * 2 ^ 24 + byte_val b1 * 2 ^ 16 + byte_val b2 * 2 ^ 8 + byte_val b3.

Definition u16_to_be_bytes (n : Z) : list byte := [byte_of (n `div` 2 ^ 8); byte_of n].
Definition u16_from_be_bytes (b0 b1 : byte) : Z := byte_val b0 * 2 ^ 8 + byte_val b1.

Lemma u32_be_round_trip n :
  u32_from_be_bytes (byte_of (n `div` 2 ^ 24)) (byte_of (n `div` 2 ^ 16))
    (byte_of (n `div` 2 ^ 8)) (byte_of n) = n `mod` 2 ^ 32.
Proof.
  unfold u32_from_be_bytes. rewrite !byte_val_of.
  replace (n `div` 2 ^ 24) with (n `div` 256 `div` 256 `div` 256)
    by (rewrite !Z.div_div by lia; f_equal).
  replace (n `div` 2 ^ 16) with (n `div` 256 `div` 256)
    by (rewrite !Z.div_div by lia; f_equal).
  change (2 ^ 8) with 256. change (2 ^ 16) with 65536.
  change (2 ^ 24) with 16777216. change (2 ^ 32) with 4294967296.
  Z.div_mod_to_equations. lia.
Qed.

Lemma u16_be_round_trip n :
  u16_from_be_bytes (byte_of (n `div` 2 ^ 8)) (byte_of n) = n `mod` 2 ^ 16.
Proof.
  unfold u16_from_be_bytes. rewrite !byte_val_of.
  change (2 ^ 8) with 256. change (2 ^ 16) with 65536.
  Z.div_mod_to_equations. lia.
Qed.

Lemma byte_val_inj a b : byte_val a = byte_val b → a = b.
Proof. intros H. by rewrite <-(byte_of_val a), H, byte_of_val. Qed.

Lemma u16_from_be_bytes_range b0 b1 : 0 ≤ u16_from_be_bytes b0 b1 < 65536.
Proof.
  unfold u16_from_be_bytes. pose proof (byte_val_range b0). pose proof (byte_val_range b1). lia.
Qed.

Lemma u16_to_from b0 b1 : u16_to_be_bytes (u16_from_be_bytes b0 b1) = [b0; b1].
Proof.
  unfold u16_to_be_bytes, u16_from_be_bytes. change (2 ^ 8) with 256.
  pose proof (byte_val_range b0). pose proof (byte_val_range b1).
  repeat f_equal; apply byte_val_inj; rewrite byte_val_of; Z.div_mod_to_equations; lia.
Qed.

Lemma u32_from_be_bytes_range b0 b1 b2 b3 :
  0 ≤ u32_from_be_bytes b0 b1 b2 b3 < 2 ^ 32.
Proof.
  unfold u32_from_be_bytes.
  pose proof (byte_val_range b0). pose proof (byte_val_range b1).
  pose proof (byte_val_range b2). pose proof (byte_val_range b3). lia.
Qed.

(** ** Strings *)
Notation bytes_of := String.list_byte_of_string.
Notation str_of := String.string_of_list_byte.

Lemma bytes_str bs : bytes_of (str_of bs) = bs.
Proof. apply String.list_byte_of_string_of_list_byte. Qed.
Lemma str_bytes s : str_of (bytes_of s) = s.
Proof. apply String.string_of_list_byte_of_string. Qed.

(** [str::starts_with]. *)
Fixpoint starts_with (p s : string) : bool :=
  match p, s with
  | EmptyString, _ => true
  | String a p', String b s' => Ascii.eqb a b && starts_with p' s'
  | _, _ => false
  end.

(** [&s[n..]] on bytes. *)
Fixpoint str_drop (n : nat) (s : string) : string :=
  match n, s with
  | O, _ => s
  | S n', String _ s' => str_drop n' s'
  | _, EmptyString => EmptyString
  end.

Fixpoint str_take (n : nat) (s : string) : string :=
  match n, s with
  | S n', String a s' => String a (str_take n' s')
  | _, _ => EmptyString
  end.

(** [str::strip_prefix]. *)
Definition strip_prefix (p s : string) : option string :=
  if starts_with p s then Some (str_drop (String.length p) s) else None.

(** [str::ends_with]. *)
Definition ends_with (p s : string) : bool :=
  (String.length p <=? String.length s)%nat &&
  String.eqb (str_drop (String.length s - String.length p) s) p.

(** [str::find(c)] for an ASCII character, split at the match:
    [(s[..pos], s[pos+1..])]. *)
Fixpoint split_once (c : ascii) (s : string) : option (string * string) :=
  match s with
  | EmptyString => None
  | String a s' =>
      if Ascii.eqb a c then Some (EmptyString, s')
      else match split_once c s' with
           | Some (l, r) => Some (String a l, r)
           | None => None
           end
  end.

(** [str::rfind(c)], split at the match likewise. *)
Fixpoint rsplit_once (c : ascii) (s : string) : option (string * string) :=
  match s with
  | EmptyString => None
  | String a s' =>
      match rsplit_once c s' with
      | Some (l, r) => Some (String a l, r)
      | None => if Ascii.eqb a c then Some (EmptyString, s') else None
      end
  end.

Definition contains_char (c : ascii) (s : string) : bool :=
  if split_once c s is Some _ then true else false.

(** [str::contains] for a string pattern. *)
Fixpoint contains_str (p s : string) : bool :=
  starts_with p s ||
  match s with EmptyString => false | String _ s' => contains_str p s' end.

(** [str::split(c)] collected: never empty. *)
Fixpoint split_char (c : ascii) (s : string) : list string :=
  match s with
  | EmptyString => [EmptyString]
  | String a s' =>
      if Ascii.eqb a c then EmptyString :: split_char c s'
      else match split_char c s' with
           | x :: xs => String a x :: xs
           | [] => [String a EmptyString]
           end
  end.

(** [str::splitn(n, c)] collected: at most [n] pieces, the last unsplit. *)
Fixpoint splitn (n : nat) (c : ascii) (s : string) : list string :=
  match n with
  | O => []
  | S n' =>
      match n', split_once c s with
      | O, _ => [s]
      | _, Some (l, r) => l :: splitn n' c r
      | _, None => [s]
      end
  end.

(** [str::trim_start_matches(c)] and [str::trim_end_matches(c)]. *)
Fixpoint trim_start_matches (c : ascii) (s : string) : string :=
  match s with
  | String a s' => if Ascii.eqb a c then trim_start_matches c s' else s
  | EmptyString => EmptyString
  end.

Fixpoint trim_end_matches (c : ascii) (s : string) : string :=
  match s with
  | EmptyString => EmptyString
  | String a s' =>
      match trim_end_matches c s' with
      | EmptyString => if Ascii.eqb a c then EmptyString else String a EmptyString
      | t => String a t
      end
  end.

(** [str::is_char_boundary]: the byte at [i] is not a UTF-8 continuation. *)
Definition is_continuation (b : byte) : bool :=
  (128 <=? byte_val b) && (byte_val b <? 192).

Definition is_char_boundary (s : string) (i : nat) : bool :=
  match i with
  | O => true
  | _ => match bytes_of s !! i with
         | Some b => negb (is_continuation b)
         | None => (i =? String.length s)%nat
         end
  end.

(** [&s[..n]]: panics past the end and inside a character. *)
Definition slice_to (s : string) (n : nat) : outcome string :=
  if is_char_boundary s n then Ret (str_take n s) else Panic.

(** *** Whitespace: [str::trim] removes Unicode [White_Space] on both sides.

    The lists are the UTF-8 bytes of the characters of that class: U+0009 to
    U+000D, U+0020, U+0085, U+00A0, U+1680, U+2000 to U+200A, U+2028, U+2029,
    U+202F, U+205F and U+3000. *)
Definition strip_ws (l : list byte) : option (list byte) :=
  match l with
  | (x09 | x0a | x0b | x0c | x0d | x20) :: r => Some r
  | xc2 :: (x85 | xa0) :: r => Some r
  | xe1 :: x9a :: x80 :: r => Some r
  | xe2 :: x80 :: (x80 | x81 | x82 | x83 | x84 | x85 | x86 | x87 | x88 | x89 | x8a
                   | xa8 | xa9 | xaf) :: r => Some r
  | xe2 :: x81 :: x9f :: r => Some r
  | xe3 :: x80 :: x80 :: r => Some r
  | _ => None
  end.

Definition strip_ws_rev (l : list byte) : option (list byte) :=
  match l with
  | (x09 | x0a | x0b | x0c | x0d | x20) :: r => Some r
  | (x85 | xa0) :: xc2 :: r => Some r
  | x80 :: x9a :: xe1 :: r => Some r
  | (x80 | x81 | x82 | x83 | x84 | x85 | x86 | x87 | x88 | x89 | x8a
     | xa8 | xa9 | xaf) :: x80 :: xe2 :: r => Some r
  | x9f :: x81 :: xe2 :: r => Some r
  | x80 :: x80 :: xe3 :: r => Some r
  | _ => None
  end.

Fixpoint strip_while (step : list byte → option (list byte)) (fuel : nat) (l : list byte)
    : list byte :=
  match fuel with
  | O => l
  | S k => match step l with Some r => strip_while step k r | None => l end
  end.

(** Each step removes at least one byte, so the length is fuel enough. *)
Definition trim (s : string) : string :=
  let l := bytes_of s in
  let l := strip_while strip_ws (length l) l in
  str_of (rev (strip_while strip_ws_rev (length l) (rev l))).

(** [str::lines]: split at newlines, drop the empty last piece and one carriage
    return before each newline. *)
Definition newline : ascii := "010".
Definition strip_cr (s : string) : string :=
  if ends_with (String "013" EmptyString) s then str_take (String.length s - 1) s else s.

Fixpoint lines_of (pieces : list string) : list string :=
  match pieces with
  | [] => []
  | [last] => if String.eqb last EmptyString then [] else [last]
  | l :: rest => strip_cr l :: lines_of rest
  end.

Definition lines (s : string) : list string := lines_of (split_char newline s).

(** *** Decimal integers *)
Definition digit_val (a : ascii) : option Z :=
  let n := Z.of_N (N_of_ascii a) in
  if (48 <=? n) && (n <=? 57) then Some (n - 48) else None.

Fixpoint parse_digits (max acc : Z) (s : string) : option Z :=
  match s with
  | EmptyString => Some acc
  | String a s' =>
      match digit_val a with
      | None => None
      | Some d => if max <? acc * 10 + d then None else parse_digits max (acc * 10 + d) s'
      end
  end.

(** [str::parse] at an unsigned type whose largest value is [max]: an optional
    plus sign, then at least one digit. *)
Definition parse_uint (max : Z) (s : string) : option Z :=
  match s with
  | EmptyString => None
  | String a s' =>
      if Ascii.eqb a "+" then
        match s' with EmptyString => None | _ => parse_digits max 0 s' end
      else parse_digits max 0 s
  end.

(** Decimal [Display]; [fuel] digits at most, 20 being enough for a [u64]. *)
Definition digit_char (d : Z) : ascii := ascii_of_N (Z.to_N (48 + d)).

Fixpoint show_digits (fuel : nat) (n : Z) (tail : string) : string :=
  match fuel with
  | O => tail
  | S k => if n <? 10 then String (digit_char n) tail
           else show_digits k (n `div` 10) (String (digit_char (n `mod` 10)) tail)
  end.

Definition show_uint (n : Z) : string := show_digits 20 n EmptyString.

(** *** UTF-8

    [utf8_step] reads one encoded character: [inl (c, rest)] for a well-formed
    one, [inr (bad, rest)] for the maximal ill-formed prefix that
    [Utf8Chunks] reports as one invalid chunk. *)
Definition in_range (lo hi : Z) (b : byte) : bool :=
  (lo <=? byte_val b) && (byte_val b <=? hi).

(** The range of the second byte of a three- or four-byte character. *)
Definition second_ok (b0 b1 : byte) : bool :=
  let v := byte_val b0 in
  if v =? 224 then in_range 160 191 b1
  else if v =? 237 then in_range 128 159 b1
  else if v =? 240 then in_range 144 191 b1
  else if v =? 244 then in_range 128 143 b1
  else is_continuation b1.

(** [utf8_char_width]. *)
Definition utf8_width (b : byte) : Z :=
  let v := byte_val b in
  if v <? 128 then 1
  else if in_range 194 223 b then 2
  else if in_range 224 239 b then 3
  else if in_range 240 244 b then 4
  else 0.

Definition utf8_step (b : byte) (r : list byte)
    : (list byte * list byte) + (list byte * list byte) :=
  if utf8_width b =? 1 then inl ([b], r)
  else if utf8_width b =? 2 then
    match r with
    | b1 :: r1 => if is_continuation b1 then inl ([b; b1], r1) else inr ([b], r)
    | [] => inr ([b], [])
    end
  else if utf8_width b =? 3 then
    match r with
    | b1 :: r1 =>
        if second_ok b b1 then
          match r1 with
          | b2 :: r2 => if is_continuation b2 then inl ([b; b1; b2], r2) else inr ([b; b1], r1)
          | [] => inr ([b; b1], [])
          end
        else inr ([b], r)
    | [] => inr ([b], [])
    end
  else if utf8_width b =? 4 then
    match r with
    | b1 :: r1 =>
        if second_ok b b1 then
          match r1 with
          | b2 :: r2 =>
              if is_continuation b2 then
                match r2 with
                | b3 :: r3 =>
                    if is_continuation b3 then inl ([b; b1; b2; b3], r3)
                    else inr ([b; b1; b2], r2)
                | [] => inr ([b; b1; b2], [])
                end
              else inr ([b; b1], r1)
          | [] => inr ([b; b1], [])
          end
        else inr ([b], r)
    | [] => inr ([b], [])
    end
  else inr ([b], r).

(** U+FFFD. *)
Definition replacement : list byte := [xef; xbf; xbd].

Fixpoint lossy_loop (fuel : nat) (l : list byte) : list byte :=
  match fuel, l with
  | S k, b :: r =>
      match utf8_step b r with
      | inl (c, rest) => c ++ lossy_loop k rest
      | inr (_, rest) => replacement ++ lossy_loop k rest
      end
  | _, _ => []
  end.

Fixpoint utf8_loop (fuel : nat) (l : list byte) : bool :=
  match fuel, l with
  | _, [] => true
  | S k, b :: r =>
      match utf8_step b r with inl (_, rest) => utf8_loop k rest | inr _ => false end
  | O, _ => false
  end.

(** Every step consumes a byte, so the length of the input is fuel enough. *)
Definition from_utf8_lossy (l : list byte) : string := str_of (lossy_loop (length l) l).
Definition utf8_valid (l : list byte) : bool := utf8_loop (length l) l.

(** [Display] of the [Utf8Error] that [String::from_utf8] returns: the index of
    the first ill-formed sequence, and its length unless the input ends inside
    a character. *)
Fixpoint utf8_error_loop (fuel : nat) (index : Z) (l : list byte) : string :=
  match fuel, l with
  | S k, b :: r =>
      match utf8_step b r with
      | inl (c, rest) => utf8_error_loop k (index + Z.of_nat (length c)) rest
      | inr (bad, rest) =>
          if (length rest =? 0)%nat && (Z.of_nat (length bad) <? utf8_width b)
          then "incomplete utf-8 byte sequence from index " +:+ show_uint index
          else "invalid utf-8 sequence of " +:+ show_uint (Z.of_nat (length bad))
                 +:+ " bytes from index " +:+ show_uint index
      end
  | _, _ => EmptyString
  end.

(** [String::from_utf8], the error being its message. *)
Definition from_utf8 (l : list byte) : result string string :=
  if utf8_valid l then Ok (str_of l) else Err (utf8_error_loop (length l) 0 l).

(** ** Lemmas *)
Lemma str_app_nil_r s : s +:+ EmptyString = s.
Proof. induction s; [done|]. change (String a (s +:+ EmptyString) = String a s). by f_equal. Qed.

Lemma str_app_assoc s1 s2 s3 : (s1 +:+ s2) +:+ s3 = s1 +:+ (s2 +:+ s3).
Proof. induction s1; [done|]. change (String a ((s1 +:+ s2) +:+ s3) = String a (s1 +:+ (s2 +:+ s3))). by f_equal. Qed.

Lemma str_length_app s1 s2 : String.length (s1 +:+ s2) = (String.length s1 + String.length s2)%nat.
Proof. induction s1; [done|]. change (S (String.length (s1 +:+ s2)) = S (String.length s1 + String.length s2)). by f_equal. Qed.

Lemma str_app_inj_r a b r : a +:+ r = b +:+ r → a = b.
Proof.
  revert b. induction a as [|x a IH]; intros [|y b] Heq; [done| | |].
  - apply (f_equal String.length) in Heq. rewrite !str_length_app in Heq. simpl in Heq. lia.
  - apply (f_equal String.length) in Heq. rewrite !str_length_app in Heq. simpl in Heq. lia.
  - change (String x (a +:+ r) = String y (b +:+ r)) in Heq. injection Heq as -> Heq.
    by rewrite (IH b Heq).
Qed.

Lemma str_app_inj_l p a b : p +:+ a = p +:+ b → a = b.
Proof.
  induction p as [|x p IH]; intros Heq; [exact Heq|].
  change (String x (p +:+ a) = String x (p +:+ b)) in Heq. injection Heq as Heq. auto.
Qed.

Lemma starts_with_spec p s : starts_with p s = true ↔ ∃ r, s = p +:+ r.
Proof.
  revert s. induction p as [|a p IH]; intros s; simpl.
  { split; [|done]. by exists s. }
  destruct s as [|b s].
  { split; [done|]. by intros [? ?]. }
  rewrite andb_true_iff, IH, Ascii.eqb_eq. split.
  - intros [-> [r ->]]. by exists r.
  - intros [r Hr]. change (String b s = String a (p +:+ r)) in Hr. simplify_eq. eauto.
Qed.

Lemma starts_with_app p r : starts_with p (p +:+ r) = true.
Proof. apply starts_with_spec. eauto. Qed.

Lemma str_drop_app p r : str_drop (String.length p) (p +:+ r) = r.
Proof. induction p; [done|]. exact IHp. Qed.

Lemma str_take_app p r : str_take (String.length p) (p +:+ r) = p.
Proof. induction p; simpl; [by destruct r|]. unfold String.app in *. simpl. by f_equal. Qed.

Lemma strip_prefix_spec p s r : strip_prefix p s = Some r ↔ s = p +:+ r.
Proof.
  unfold strip_prefix. destruct (starts_with p s) eqn:H.
  - apply starts_with_spec in H as [r' ->]. rewrite str_drop_app. split.
    + by intros [= ->].
    + intros Hr. f_equal. apply (f_equal (str_drop (String.length p))) in Hr.
      by rewrite !str_drop_app in Hr.
  - split; [done|]. intros ->. by rewrite starts_with_app in H.
Qed.

Lemma str_drop_split n s : (n ≤ String.length s)%nat → s = str_take n s +:+ str_drop n s.
Proof.
  revert s. induction n as [|n IH]; intros s Hn; [done|].
  destruct s as [|a s]; simpl in *; [lia|].
  change (String a s = String a (str_take n s +:+ str_drop n s)). f_equal. apply IH. lia.
Qed.

Lemma ends_with_spec p s : ends_with p s = true ↔ ∃ r, s = r +:+ p.
Proof.
  unfold ends_with. rewrite andb_true_iff, Nat.leb_le, String.eqb_eq. split.
  - intros [Hle Hd]. exists (str_take (String.length s - String.length p) s).
    rewrite <-Hd at 2. apply str_drop_split. lia.
  - intros [r ->]. rewrite str_length_app. split; [lia|].
    replace (String.length r + String.length p - String.length p)%nat with (String.length r) by lia.
    apply str_drop_app.
Qed.

Lemma split_once_spec c s l r :
  split_once c s = Some (l, r) ↔ s = l +:+ String c r ∧ contains_char c l = false.
Proof.
  revert l r. induction s as [|a s IH]; intros l r; simpl.
  { split; [done|]. by intros [? _]; destruct l. }
  destruct (Ascii.eqb_spec a c) as [->|Hne].
  - split; [by intros [= <- <-]|].
    intros [Hs Hc]. destruct l as [|b l]; [by injection Hs as ->|].
    change (String c s = String b (l +:+ String c r)) in Hs. simplify_eq.
    unfold contains_char in Hc. simpl in Hc. by rewrite Ascii.eqb_refl in Hc.
  - split.
    + destruct (split_once c s) as [[l' r']|] eqn:Hs; [|done]. intros [= <- <-].
      destruct (proj1 (IH l' r') eq_refl) as [-> Hl]. split; [done|].
      unfold contains_char in *. simpl. rewrite (proj2 (Ascii.eqb_neq _ _) Hne).
      by destruct (split_once c l') as [[]|].
    + intros [Hs Hc]. destruct l as [|b l]; [by injection Hs as -> _|].
      change (String a s = String b (l +:+ String c r)) in Hs. simplify_eq.
      unfold contains_char in Hc. simpl in Hc. rewrite (proj2 (Ascii.eqb_neq _ _) Hne) in Hc.
      assert (Hl : contains_char c l = false)
        by (unfold contains_char; by destruct (split_once c l) as [[]|]).
      by rewrite (proj2 (IH l r) (conj eq_refl Hl)).
Qed.

Lemma split_once_inj c p s p' s' :
  contains_char c p = false → contains_char c p' = false →
  p +:+ String c s = p' +:+ String c s' → p = p' ∧ s = s'.
Proof.
  intros Hp Hp' Heq.
  assert (split_once c (p +:+ String c s) = Some (p, s)) as H1 by (by apply split_once_spec).
  assert (split_once c (p +:+ String c s) = Some (p', s')) as H2 by (by apply split_once_spec).
  rewrite H1 in H2. by simplify_eq.
Qed.

(** A string that ends in [s] and has a prefix [p], the two not overlapping. *)
Lemma str_suffix_split p r l s :
  p +:+ r = l +:+ s → (String.length s ≤ String.length r)%nat → ∃ mid, r = mid +:+ s.
Proof.
  revert l. induction p as [|a p IH]; intros l Heq Hlen; [by exists l|].
  destruct l as [|b l].
  - change (String a (p +:+ r) = s) in Heq. subst s. simpl in Hlen.
    rewrite str_length_app in Hlen. lia.
  - change (String a (p +:+ r) = String b (l +:+ s)) in Heq. injection Heq as _ Heq. eauto.
Qed.

Lemma contains_char_cons c a s :
  contains_char c (String a s) = Ascii.eqb a c || contains_char c s.
Proof.
  unfold contains_char. simpl. destruct (Ascii.eqb a c); [done|]. simpl.
  by destruct (split_once c s) as [[]|].
Qed.

Lemma contains_char_app c s1 s2 :
  contains_char c (s1 +:+ s2) = contains_char c s1 || contains_char c s2.
Proof.
  induction s1 as [|a s1 IH]; [done|].
  change (String a s1 +:+ s2) with (String a (s1 +:+ s2)).
  by rewrite !contains_char_cons, IH, orb_assoc.
Qed.

Lemma rsplit_once_None c s : rsplit_once c s = None ↔ contains_char c s = false.
Proof.
  induction s as [|a s IH]; [done|]. rewrite contains_char_cons, orb_false_iff, <-IH. simpl.
  destruct (rsplit_once c s) as [[l r]|]; [naive_solver|]. destruct (Ascii.eqb a c); naive_solver.
Qed.

Lemma rsplit_once_spec c s l r :
  rsplit_once c s = Some (l, r) ↔ s = l +:+ String c r ∧ contains_char c r = false.
Proof.
  revert l r. induction s as [|a s IH]; intros l r; simpl.
  { split; [done|]. by intros [? _]; destruct l. }
  destruct (rsplit_once c s) as [[l' r']|] eqn:Hs.
  - destruct (proj1 (IH l' r') eq_refl) as [-> Hr]. split.
    + intros [= <- <-]. by split.
    + intros [Heq Hc]. destruct l as [|b l].
      * injection Heq as -> <-. rewrite contains_char_app, contains_char_cons, Ascii.eqb_refl in Hc.
        by rewrite orb_true_r in Hc.
      * change (String a (l' +:+ String c r') = String b (l +:+ String c r)) in Heq.
        injection Heq as -> Heq. pose proof (proj2 (IH l r) (conj Heq Hc)). by simplify_eq.
  - apply rsplit_once_None in Hs. destruct (Ascii.eqb_spec a c) as [->|Hne].
    + split; [by intros [= <- <-]|]. intros [Heq Hc]. destruct l as [|b l]; [by injection Heq as ->|].
      change (String c s = String b (l +:+ String c r)) in Heq. injection Heq as -> ->.
      rewrite contains_char_app, contains_char_cons, Ascii.eqb_refl in Hs. by rewrite orb_true_r in Hs.
    + split; [done|]. intros [Heq Hc]. destruct l as [|b l]; [by injection Heq as -> _|].
      change (String a s = String b (l +:+ String c r)) in Heq. injection Heq as -> ->.
      rewrite contains_char_app, contains_char_cons, Ascii.eqb_refl in Hs. by rewrite orb_true_r in Hs.
Qed.

Lemma split_char_not_in c s : contains_char c s = false → split_char c s = [s].
Proof.
  induction s as [|a s IH]; [done|]. rewrite contains_char_cons, orb_false_iff.
  intros [Ha Hs]. simpl. by rewrite Ha, IH.
Qed.

(** Splitting at the first separator. *)
Lemma split_char_app c s1 s2 :
  contains_char c s1 = false → split_char c (s1 +:+ String c s2) = s1 :: split_char c s2.
Proof.
  induction s1 as [|a s1 IH]; intros H.
  { simpl. change (EmptyString +:+ String c s2) with (String c s2). simpl.
    by rewrite Ascii.eqb_refl. }
  rewrite contains_char_cons, orb_false_iff in H. destruct H as [Ha Hs].
  change (String a s1 +:+ String c s2) with (String a (s1 +:+ String c s2)). simpl.
  by rewrite Ha, IH.
Qed.

Lemma split_char_pieces c s : Forall (λ p, contains_char c p = false) (split_char c s).
Proof.
  induction s as [|a s IH]; simpl; [by repeat constructor|].
  destruct (Ascii.eqb a c) eqn:Ha; [by constructor|].
  destruct (split_char c s) as [|x xs]; inversion IH; subst.
  - constructor; [|done]. by rewrite contains_char_cons, Ha.
  - constructor; [|done]. by rewrite contains_char_cons, Ha.
Qed.

(** *** Decimal round trip *)
Lemma digit_val_char d : 0 ≤ d < 10 → digit_val (digit_char d) = Some d.
Proof.
  intros Hd. unfold digit_val, digit_char. rewrite N_ascii_embedding by lia.
  rewrite Z2N.id by lia.
  destruct ((48 <=? 48 + d) && (48 + d <=? 57)) eqn:E; [f_equal; lia|].
  apply andb_false_iff in E. lia.
Qed.

Lemma parse_show_digits max fuel n tail :
  0 ≤ n ≤ max → n < 10 ^ Z.of_nat fuel →
  parse_digits max 0 (show_digits fuel n tail) = parse_digits max n tail.
Proof.
  revert n tail. induction fuel as [|k IH]; intros n tail Hn Hlt.
  { simpl in Hlt. by replace n with 0 by lia. }
  simpl. destruct (Z.ltb_spec n 10) as [Hs|Hs].
  - simpl. rewrite digit_val_char by lia.
    destruct (Z.ltb_spec max (0 * 10 + n)); [lia|]. f_equal.
  - rewrite Nat2Z.inj_succ, Z.pow_succ_r in Hlt by lia.
    pose proof (Z.mod_pos_bound n 10). pose proof (Z.div_mod n 10).
    rewrite IH by lia. simpl. rewrite digit_val_char by lia.
    replace (n `div` 10 * 10 + n `mod` 10) with n by lia.
    by destruct (Z.ltb_spec max n); [lia|].
Qed.

Lemma show_digits_first fuel n tail : 0 ≤ n →
  ∃ d s, 0 ≤ d < 10 ∧ show_digits (S fuel) n tail = String (digit_char d) s.
Proof.
  revert n tail. induction fuel as [|k IH]; intros n tail Hn.
  - simpl. destruct (Z.ltb_spec n 10); [by exists n, tail|].
    pose proof (Z.mod_pos_bound n 10). eexists _, tail. split; [|reflexivity]. lia.
  - change (show_digits (S (S k)) n tail) with
      (if n <? 10 then String (digit_char n) tail
       else show_digits (S k) (n `div` 10) (String (digit_char (n `mod` 10)) tail)).
    destruct (Z.ltb_spec n 10); [by exists n, tail|].
    apply IH. pose proof (Z.div_pos n 10). lia.
Qed.

Lemma digit_char_plain d c :
  0 ≤ d < 10 → digit_val c = None → Ascii.eqb (digit_char d) c = false.
Proof.
  intros Hd Hc. apply Ascii.eqb_neq. intros <-. by rewrite digit_val_char in Hc.
Qed.

(** Parsing what [Display] prints gives the number back. *)
Lemma parse_show_uint max n :
  0 ≤ n ≤ max → n < 10 ^ 20 → parse_uint max (show_uint n) = Some n.
Proof.
  intros Hn Hlt. unfold show_uint.
  destruct (show_digits_first 19 n EmptyString) as (d & s & Hd & Heq); [lia|].
  unfold parse_uint. rewrite Heq. rewrite (digit_char_plain d "+") by done.
  rewrite <-Heq. by rewrite parse_show_digits.
Qed.

(** A character that is no digit does not occur in a printed number. *)
Lemma show_digits_contains c fuel n tail :
  0 ≤ n → digit_val c = None → contains_char c tail = false →
  contains_char c (show_digits fuel n tail) = false.
Proof.
  revert n tail. induction fuel as [|k IH]; intros n tail Hn Hc Ht; simpl; [done|].
  destruct (Z.ltb_spec n 10).
  - by rewrite contains_char_cons, digit_char_plain, Ht by (done || lia).
  - pose proof (Z.mod_pos_bound n 10). pose proof (Z.div_pos n 10).
    apply IH; [lia|done|]. rewrite contains_char_cons, Ht, digit_char_plain; (done || lia).
Qed.

Lemma show_uint_contains c n :
  0 ≤ n → digit_val c = None → contains_char c (show_uint n) = false.
Proof. intros. by apply show_digits_contains. Qed.

(** *** UTF-8 facts *)
Lemma utf8_step_shrinks b r :
  match utf8_step b r with
  | inl (c, rest) => c ++ rest = b :: r ∧ (length rest ≤ length r)%nat
  | inr (_, rest) => (length rest ≤ length r)%nat
  end.
Proof.
  unfold utf8_step. repeat case_match; simplify_eq/=; try done; try lia; split; (done || lia).
Qed.

Lemma lossy_valid fuel l : utf8_loop fuel l = true → lossy_loop fuel l = l.
Proof.
  revert l. induction fuel as [|k IH]; intros [|b r]; simpl; try done.
  pose proof (utf8_step_shrinks b r) as Hs.
  destruct (utf8_step b r) as [[c rest]|]; [|done].
  intros H. rewrite IH by done. by destruct Hs.
Qed.

(** Decoding well-formed UTF-8 changes nothing. *)
Lemma from_utf8_lossy_valid l : utf8_valid l = true → from_utf8_lossy l = str_of l.
Proof. intros H. unfold from_utf8_lossy. by rewrite lossy_valid. Qed.

#[export] Hint Resolve starts_with_app str_drop_app byte_val_range : alk.
#[export] Hint Rewrite bytes_str str_bytes str_drop_app str_take_app starts_with_app
  str_app_nil_r byte_val_of byte_of_val : alk.

(** ** Bytes of strings *)
Lemma bytes_of_cons a s : bytes_of (String a s) = byte_of_ascii a :: bytes_of s.
Proof. done. Qed.

Lemma bytes_of_app s t : bytes_of (s +:+ t) = bytes_of s ++ bytes_of t.
Proof.
  induction s as [|a s IH]; [done|]. change (String a s +:+ t) with (String a (s +:+ t)).
  by rewrite !bytes_of_cons, IH.
Qed.

Lemma length_bytes_of s : length (bytes_of s) = String.length s.
Proof. induction s as [|a s IH]; [done|]. rewrite bytes_of_cons. simpl. by rewrite IH. Qed.

Lemma byte_val_ascii a : byte_val (byte_of_ascii a) = Z.of_N (N_of_ascii a).
Proof.
  unfold byte_val. pose proof (byte_of_ascii_via_N a) as Ha. symmetry in Ha.
  apply Byte.to_of_N in Ha. by rewrite Ha.
Qed.

(** ASCII bytes are well-formed UTF-8. *)
Lemma ascii_utf8_valid l : Forall (λ b, byte_val b < 128) l → utf8_valid l = true.
Proof.
  unfold utf8_valid. induction 1 as [|b l Hb Hl IH]; [done|]. simpl.
  unfold utf8_step, utf8_width. by rewrite (proj2 (Z.ltb_lt _ _) Hb).
Qed.

(** A string of ASCII characters, at most [n] of them. *)
Definition plain (n : nat) (s : string) : Prop :=
  (String.length s ≤ n)%nat ∧ Forall (λ b, byte_val b < 128) (bytes_of s).

Lemma plain_le m n s : plain m s → (m ≤ n)%nat → plain n s.
Proof. intros [? ?] ?. split; [lia|done]. Qed.

Lemma plain_app m n s t : plain m s → plain n t → plain (m + n) (s +:+ t).
Proof.
  intros [Hs Hs'] [Ht Ht']. split; [rewrite str_length_app; lia|].
  rewrite bytes_of_app. by apply Forall_app.
Qed.

Lemma plain_cons n a s : plain n s → (N_of_ascii a < 128)%N → plain (S n) (String a s).
Proof.
  intros [Hs Hs'] Ha. split; [simpl; lia|]. rewrite bytes_of_cons. constructor; [|done].
  rewrite byte_val_ascii. lia.
Qed.

Lemma plain_nil n : plain n EmptyString.
Proof. split; [simpl; lia|constructor]. Qed.

Lemma ascii_of_N_small n : (n < 128)%N → (N_of_ascii (ascii_of_N n) < 128)%N.
Proof. intros Hn. rewrite N_ascii_embedding; lia. Qed.

Lemma plain_show_digits fuel n m tail : plain m tail → plain (fuel + m) (show_digits fuel n tail).
Proof.
  revert n m tail. induction fuel as [|fuel IH]; intros n m tail Ht; simpl; [done|].
  assert (∀ d, d < 10 → plain (S m) (String (digit_char d) tail)) as Hd.
  { intros d Hd. apply plain_cons; [done|]. apply ascii_of_N_small. lia. }
  case_match eqn:Hn.
  - apply Z.ltb_lt in Hn. apply (plain_le (S m)); [by apply Hd|lia].
  - eapply plain_le; [apply IH, Hd|lia]. pose proof (Z.mod_pos_bound n 10). lia.
Qed.

Lemma plain_show_uint n : plain 20 (show_uint n).
Proof. apply (plain_show_digits 20 n 0), plain_nil. Qed.
