(* ===== verification/Json.v ===== *)
(** * serde_json, as the sources use it

    [serde_json] is not part of the repository: its value type and the
    operations the sources call are an interface, [Json], with the documented
    facts the proofs rely on in [JsonLaws].  [json_tree] is one concrete
    implementation, used to evaluate the model on examples. *)
From S2P Require Import Prelude.

Class Json := {
  Value : Type;
  JsonError : Type;
  (** The values the [json!] macro builds. *)
  json_null : Value;
  json_bool : bool → Value;
  json_str : string → Value;
  json_array : list Value → Value;
  json_object : list (string * Value) → Value;
  (** [Value::get] with a string index and [Value::as_str]. *)
  json_get : string → Value → option Value;
  json_as_str : Value → option string;
}.

(** First binding of a key in an association list. *)
Fixpoint assoc {A} (k : string) (l : list (string * A)) : option A :=
  match l with
  | [] => None
  | (k', v) :: l' => if String.eqb k' k then Some v else assoc k l'
  end.

Class JsonLaws (J : Json) : Prop := {
  as_str_str : ∀ s, json_as_str (json_str s) = Some s;
  get_object : ∀ kvs k, NoDup kvs.*1 → json_get k (json_object kvs) = assoc k kvs;
}.

(** A concrete value type. *)
Inductive json_tree :=
| JNull
| JBool (b : bool)
| JStr (s : string)
| JArr (l : list json_tree)
| JObj (l : list (string * json_tree)).

#[export] Instance tree_json : Json := {|
  Value := json_tree;
  JsonError := unit;
  json_null := JNull;
  json_bool := JBool;
  json_str := JStr;
  json_array := JArr;
  json_object := JObj;
  json_get k v := match v with JObj l => assoc k l | _ => None end;
  json_as_str v := match v with JStr s => Some s | _ => None end;
|}.

#[export] Instance tree_json_laws : JsonLaws tree_json.
Proof. by split. Qed.
