(* ===== verification/Frame.v ===== *)
(** * Event envelopes and length-prefixed frames (call/envelope.rs,
    call/events.rs, call/frame.rs)

    An envelope is serialised to JSON and preceded by its length as a
    big-endian [u32].  The module holds the pure codec ([encode], [decode],
    [decode_with_remainder]) and the streaming reader and writer; a stream is
    the list of the results its successive [read] calls return, the end of the
    list being the end of the stream. *)
From S2P Require Import Prelude RustStd Json.
From Stdlib Require Import Strings.Byte.
Open Scope Z_scope.

(** ** Event types (call/events.rs) *)
Definition CALL_REQUESTED : string := "call.requested".
Definition CALL_RESPONDED : string := "call.responded".
Definition CALL_COMPLETED : string := "call.completed".
Definition CALL_ABORTED : string := "call.aborted".
Definition CALL_ERROR : string := "call.error".
Definition SERVICE_LIST : string := "/services/list".
Definition SERVICE_SCHEMA : string := "/services/schema".

(** ** Envelopes (call/envelope.rs) *)
Record EventEnvelope `{Json} := mkEnvelope {
  env_type : string;
  env_id : string;
  env_payload : Value;
}.

Definition call_requested `{Json} (id : string) (payload : Value) : EventEnvelope :=
  mkEnvelope _ CALL_REQUESTED id payload.
Definition call_responded `{Json} (id : string) (payload : Value) : EventEnvelope :=
  mkEnvelope _ CALL_RESPONDED id payload.
Definition call_completed `{Json} (id : string) (payload : Value) : EventEnvelope :=
  mkEnvelope _ CALL_COMPLETED id payload.
Definition call_aborted `{Json} (id : string) (payload : Value) : EventEnvelope :=
  mkEnvelope _ CALL_ABORTED id payload.
Definition call_error `{Json} (id code message : string) (retryable : bool) : EventEnvelope :=
  mkEnvelope _ CALL_ERROR id
    (json_object [("code", json_str code); ("message", json_str message);
                  ("retryable", json_bool retryable)]).

(** [serde_json::to_vec] and [serde_json::from_slice] at [EventEnvelope]. *)
Class EnvelopeCodec `{J : Json} := {
  to_vec : EventEnvelope → list byte;
  from_slice : list byte → result EventEnvelope JsonError;
}.

Inductive FrameDecodeError `{Json} :=
| TooShort (expected actual : Z)
| Incomplete (expected actual : Z)
| JsonFailure (e : JsonError).

Section Codec.
Context `{C : EnvelopeCodec}.

(** [json.len() as u32] truncates: the prefix is the length modulo 2^32. *)
Definition encode (envelope : EventEnvelope) : list byte :=
  let json := to_vec envelope in
  let len := as_u32 (Z.of_nat (length json)) in
  u32_to_be_bytes len ++ json.
#[local] Arguments encode : simpl never.

(** [u32::from_be_bytes([data[0], data[1], data[2], data[3]]) as usize], read
    after the check that the four bytes are there. *)
Definition frame_len (data : list byte) : Z :=
  match data with
  | b0 :: b1 :: b2 :: b3 :: _ => u32_from_be_bytes b0 b1 b2 b3
  | _ => 0
  end.

Definition decode (data : list byte) : result EventEnvelope FrameDecodeError :=
  let n := Z.of_nat (length data) in
  if n <? 4 then Err (TooShort 4 n)
  else
    let len := frame_len data in
    if n <? 4 + len then Err (Incomplete (4 + len) n)
    else
      let body := take (Z.to_nat len) (drop 4 data) in
      let? envelope := map_err JsonFailure (from_slice body) in
      Ok envelope.

Definition decode_with_remainder (data : list byte)
    : result (EventEnvelope * Z) FrameDecodeError :=
  let n := Z.of_nat (length data) in
  if n <? 4 then Err (TooShort 4 n)
  else
    let len := frame_len data in
    let total := 4 + len in
    if n <? total then Err (Incomplete total n)
    else
      let body := take (Z.to_nat len) (drop 4 data) in
      let? envelope := map_err JsonFailure (from_slice body) in
      Ok (envelope, total).

(** ** The streaming reader *)
Inductive ReadError {IoError : Type} :=
| InvalidData (e : JsonError)
| StreamError (e : IoError).
Arguments ReadError : clear implicits.

Context {IoError : Type}.

Record FrameFramedReader := mkReader {
  rd_stream : list (result (list byte) IoError);
  rd_buf : list byte;
}.

Definition FrameFramedReader_new (stream : list (result (list byte) IoError)) : FrameFramedReader :=
  mkReader stream [].

(** The body of the buffer's first complete frame and what follows it. *)
Definition next_frame (buf : list byte) : option (list byte * list byte) :=
  if 4 <=? Z.of_nat (length buf) then
    let len := frame_len buf in
    let total := 4 + len in
    if total <=? Z.of_nat (length buf)
    then Some (take (Z.to_nat len) (drop 4 buf), drop (Z.to_nat total) buf)
    else None
  else None.

(** [read_frame]: return the first complete frame of the buffer, draining it
    whether or not its JSON parses; otherwise read more bytes. *)
Fixpoint read_loop (stream : list (result (list byte) IoError)) (buf : list byte)
    : result (option EventEnvelope) (ReadError IoError) * FrameFramedReader :=
  match next_frame buf with
  | Some (body, rest) =>
      match from_slice body with
      | Ok envelope => (Ok (Some envelope), mkReader stream rest)
      | Err e => (Err (InvalidData e), mkReader stream rest)
      end
  | None =>
      match stream with
      | [] => (Ok None, mkReader [] buf)
      | Ok [] :: stream' => (Ok None, mkReader stream' buf)
      | Ok chunk :: stream' => read_loop stream' (buf ++ chunk)
      | Err e :: stream' => (Err (StreamError e), mkReader stream' buf)
      end
  end.

Definition read_frame (r : FrameFramedReader)
    : result (option EventEnvelope) (ReadError IoError) * FrameFramedReader :=
  read_loop (rd_stream r) (rd_buf r).

Fixpoint read_frames (n : nat) (r : FrameFramedReader)
    : list (result (option EventEnvelope) (ReadError IoError)) :=
  match n with
  | O => []
  | S k => let '(res, r') := read_frame r in res :: read_frames k r'
  end.

(** The writer: [write_all] of the encoded frame, then [flush]; [sink] is what
    has been written.  [fault] is how the stream behaves: it takes everything,
    or fails after some of the bytes, [flush] failing after all of them. *)
Record FrameFramedWriter := mkWriter { wr_sink : list byte }.

Definition write_frame (fault : option (nat * IoError)) (w : FrameFramedWriter) (envelope : EventEnvelope)
    : result unit IoError * FrameFramedWriter :=
  let frame := encode envelope in
  match fault with
  | None => (Ok tt, mkWriter (wr_sink w ++ frame))
  | Some (n, e) => (Err e, mkWriter (wr_sink w ++ take n frame))
  end.
(** A run of writes that the stream takes. *)
Definition write_frames (w : FrameFramedWriter) (envelopes : list EventEnvelope) : FrameFramedWriter :=
  foldl (λ w e, (write_frame None w e).2) w envelopes.

(** ** What a reader should produce from a byte string

    The specification looks at the whole byte string at once: cut it into
    frames, parse each, and report the end of the stream when no complete frame
    is left. *)
Fixpoint spec_reads (n : nat) (data : list byte)
    : list (result (option EventEnvelope) (ReadError IoError)) :=
  match n with
  | O => []
  | S k =>
      match next_frame data with
      | Some (body, rest) =>
          match from_slice body with
          | Ok envelope => Ok (Some envelope) :: spec_reads k rest
          | Err e => Err (InvalidData e) :: spec_reads k rest
          end
      | None => Ok None :: spec_reads k data
      end
  end.

(** ** Lemmas *)
Lemma frame_len_app data more :
  4 ≤ Z.of_nat (length data) → frame_len (data ++ more) = frame_len data.
Proof. destruct data as [|b0 [|b1 [|b2 [|b3 data]]]]; simpl; (done || lia). Qed.

Lemma frame_len_nonneg data : 0 ≤ frame_len data.
Proof.
  destruct data as [|b0 [|b1 [|b2 [|b3 data]]]]; simpl; try done.
  apply u32_from_be_bytes_range.
Qed.

Lemma next_frame_app buf more body rest :
  next_frame buf = Some (body, rest) → next_frame (buf ++ more) = Some (body, rest ++ more).
Proof.
  unfold next_frame. pose proof (frame_len_nonneg buf).
  destruct (Z.leb_spec 4 (Z.of_nat (length buf))); [|done].
  destruct (Z.leb_spec (4 + frame_len buf) (Z.of_nat (length buf))); [|done].
  intros [= <- <-]. rewrite length_app, frame_len_app by lia.
  destruct (Z.leb_spec 4 (Z.of_nat (length buf + length more))); [|lia].
  destruct (Z.leb_spec (4 + frame_len buf) (Z.of_nat (length buf + length more))); [|lia].
  rewrite !drop_app_le, take_app_le by (rewrite ?length_drop; lia). done.
Qed.

Lemma read_loop_chunks chunks buf :
  Forall (λ c : list byte, c ≠ []) chunks →
  match next_frame (buf ++ concat chunks) with
  | None => read_loop (Ok <$> chunks) buf = (Ok None, mkReader [] (buf ++ concat chunks))
  | Some (body, rest) =>
      ∃ chunks' buf',
        read_loop (Ok <$> chunks) buf
          = (match from_slice body with Ok e => Ok (Some e) | Err e => Err (InvalidData e) end,
             mkReader (Ok <$> chunks') buf')
        ∧ Forall (λ c, c ≠ []) chunks' ∧ buf' ++ concat chunks' = rest
  end.
Proof.
  revert buf. induction chunks as [|c chunks IH]; intros buf Hne; simpl.
  - rewrite app_nil_r. destruct (next_frame buf) as [[body rest]|]; [|done].
    exists [], rest. rewrite app_nil_r. by destruct (from_slice body).
  - apply Forall_cons in Hne as [Hc Hne].
    destruct (next_frame buf) as [[body rest]|] eqn:Hnf.
    + rewrite (next_frame_app _ _ _ _ Hnf). exists (c :: chunks), rest.
      split; [|by split; [constructor|]]. by destruct (from_slice body).
    + destruct c as [|b c]; [done|]. specialize (IH (buf ++ b :: c) Hne).
      rewrite <-app_assoc in IH. exact IH.
Qed.

Lemma spec_reads_end n data :
  next_frame data = None → spec_reads n data = replicate n (Ok None).
Proof. intros Hn. induction n as [|n IH]; simpl; [done|]. by rewrite Hn, IH. Qed.

Lemma read_frames_end n buf :
  next_frame buf = None → read_frames n (mkReader [] buf) = replicate n (Ok None).
Proof.
  intros Hn. induction n as [|n IH]; simpl; [done|].
  unfold read_frame. simpl. rewrite Hn. by rewrite IH.
Qed.

(** Reading refines the whole-string specification, whatever the chunking. *)
Lemma read_frames_spec n chunks buf :
  Forall (λ c : list byte, c ≠ []) chunks →
  read_frames n (mkReader (Ok <$> chunks) buf) = spec_reads n (buf ++ concat chunks).
Proof.
  revert chunks buf. induction n as [|n IH]; intros chunks buf Hne; [done|].
  pose proof (read_loop_chunks chunks buf Hne) as Hr.
  simpl. unfold read_frame. simpl.
  destruct (next_frame (buf ++ concat chunks)) as [[body rest]|] eqn:Hnf.
  - destruct Hr as (chunks' & buf' & -> & Hne' & <-). rewrite IH by done.
    by destruct (from_slice body).
  - rewrite Hr. by rewrite read_frames_end, spec_reads_end.
Qed.

(** The frames the codec itself writes: JSON shorter than 2^32 bytes, parsed
    back to the envelope by serde. *)
Definition frame_ok (e : EventEnvelope) : Prop :=
  Z.of_nat (length (to_vec e)) < 2 ^ 32 ∧ from_slice (to_vec e) = Ok e.

Lemma length_encode e : length (encode e) = (4 + length (to_vec e))%nat.
Proof. done. Qed.

Lemma next_frame_body body rest :
  Z.of_nat (length body) < 2 ^ 32 →
  next_frame ((u32_to_be_bytes (Z.of_nat (length body)) ++ body) ++ rest) = Some (body, rest).
Proof.
  intros Hlt. unfold next_frame.
  assert (frame_len ((u32_to_be_bytes (Z.of_nat (length body)) ++ body) ++ rest)
          = Z.of_nat (length body)) as ->.
  { unfold u32_to_be_bytes. simpl. rewrite u32_be_round_trip. apply Z.mod_small. lia. }
  rewrite !length_app. change (length (u32_to_be_bytes _)) with 4%nat.
  destruct (Z.leb_spec 4 (Z.of_nat (4 + length body + length rest))); [|lia].
  destruct (Z.leb_spec (4 + Z.of_nat (length body))
              (Z.of_nat (4 + length body + length rest))); [|lia].
  f_equal. f_equal.
  - change (drop 4 _) with (body ++ rest). rewrite Nat2Z.id. apply take_app_length.
  - apply drop_app_length'. rewrite length_app.
    change (length (u32_to_be_bytes _)) with 4%nat. lia.
Qed.

Lemma encode_small e :
  Z.of_nat (length (to_vec e)) < 2 ^ 32 →
  encode e = u32_to_be_bytes (Z.of_nat (length (to_vec e))) ++ to_vec e.
Proof. intros Hlt. unfold encode, as_u32. by rewrite Z.mod_small by lia. Qed.

Lemma next_frame_encode e rest :
  Z.of_nat (length (to_vec e)) < 2 ^ 32 →
  next_frame (encode e ++ rest) = Some (to_vec e, rest).
Proof. intros Hlt. rewrite encode_small by done. by apply next_frame_body. Qed.

Lemma spec_reads_encoded envs m :
  Forall frame_ok envs →
  spec_reads (length envs + m) (concat (encode <$> envs))
  = ((λ e, Ok (Some e)) <$> envs) ++ replicate m (Ok None).
Proof.
  induction envs as [|e envs IH]; intros Hok.
  - by apply spec_reads_end.
  - apply Forall_cons in Hok as [[Hlen Hrt] Hok].
    change (encode <$> e :: envs) with (encode e :: (encode <$> envs)).
    cbn [length Nat.add spec_reads concat].
    rewrite next_frame_encode, Hrt by done. by rewrite IH.
Qed.

Lemma write_frames_sink envs w :
  wr_sink (write_frames w envs) = wr_sink w ++ concat (encode <$> envs).
Proof.
  revert w. induction envs as [|e envs IH]; intros w; simpl; [by rewrite app_nil_r|].
  rewrite IH. simpl. by rewrite <-app_assoc.
Qed.

(** A write that fails has put the start of its frame on the stream. *)
Lemma write_frame_failed fault w envelope e w' :
  write_frame fault w envelope = (Err e, w') → ∃ part, w' = mkWriter (wr_sink w ++ part) ∧ part `prefix_of` encode envelope.
Proof. destruct fault as [[n ?]|]; [|done]. intros [= <- <-]. eexists. split; [done|]. apply prefix_take. Qed.

Lemma next_frame_rest buf body rest :
  next_frame buf = Some (body, rest) →
  drop (Z.to_nat (Z.of_nat (length buf) - Z.of_nat (length rest))) buf = rest.
Proof.
  unfold next_frame. pose proof (frame_len_nonneg buf).
  repeat case_match; try done. intros [= <- <-]. rewrite length_drop. f_equal. lia.
Qed.

(** How [decode_with_remainder] and [decode] relate to [next_frame]. *)
Lemma decode_with_remainder_next data :
  decode_with_remainder data =
  match next_frame data with
  | Some (body, rest) =>
      match from_slice body with
      | Ok e => Ok (e, Z.of_nat (length data) - Z.of_nat (length rest))
      | Err j => Err (JsonFailure j)
      end
  | None =>
      let n := Z.of_nat (length data) in
      if n <? 4 then Err (TooShort 4 n) else Err (Incomplete (4 + frame_len data) n)
  end.
Proof.
  unfold decode_with_remainder, next_frame. pose proof (frame_len_nonneg data).
  destruct (Z.ltb_spec (Z.of_nat (length data)) 4), (Z.leb_spec 4 (Z.of_nat (length data)));
    try lia; [done|].
  destruct (Z.ltb_spec (Z.of_nat (length data)) (4 + frame_len data)),
    (Z.leb_spec (4 + frame_len data) (Z.of_nat (length data))); try lia; [done|].
  destruct (from_slice _) as [e|j]; simpl; [|done].
  rewrite length_drop. do 2 f_equal. lia.
Qed.

Lemma decode_remainder data :
  decode data = match decode_with_remainder data with Ok (e, _) => Ok e | Err x => Err x end.
Proof.
  unfold decode, decode_with_remainder. do 2 (case_match; [done|]). by destruct (from_slice _).
Qed.

Lemma decode_truncated e k :
  Z.of_nat (length (to_vec e)) < 2 ^ 32 → (k < length (encode e))%nat →
  decode (take k (encode e)) =
    Err (if (k <? 4)%nat then TooShort 4 (Z.of_nat k)
         else Incomplete (Z.of_nat (length (encode e))) (Z.of_nat k)).
Proof.
  intros Hlen Hk. unfold decode. rewrite length_take_le by lia.
  destruct (Nat.ltb_spec k 4), (Z.ltb_spec (Z.of_nat k) 4); try lia; [done|].
  assert (frame_len (take k (encode e)) = Z.of_nat (length (to_vec e))) as ->.
  { rewrite <-(frame_len_app _ (drop k (encode e))) by (rewrite length_take_le; lia).
    rewrite take_drop, encode_small by done.
    unfold u32_to_be_bytes. simpl. rewrite u32_be_round_trip. apply Z.mod_small. lia. }
  rewrite length_encode in *.
  destruct (Z.ltb_spec (Z.of_nat k) (4 + Z.of_nat (length (to_vec e)))); [|lia].
  do 2 f_equal. lia.
Qed.

(** ** Properties *)

(** C28: However the transport splits the bytes into reads, the streaming reader
    returns the same sequence of frames, JSON errors and end-of-stream answers
    as cutting the whole byte string into frames at once. *)
Theorem read_frames_refines n chunks :
  Forall (λ c : list byte, c ≠ []) chunks →
  read_frames n (FrameFramedReader_new (Ok <$> chunks)) = spec_reads n (concat chunks).
Proof. intros Hne. by apply (read_frames_spec n chunks []). Qed.

(** C13: What a [FrameFramedWriter] writes, a [FrameFramedReader] on the other
    end of the stream reads back: the same envelopes in the same order, then
    the end of the stream, for every way the transport chunks the bytes. *)
Theorem read_write_frames envs chunks m :
  Forall frame_ok envs → Forall (λ c : list byte, c ≠ []) chunks →
  concat chunks = wr_sink (write_frames (mkWriter []) envs) →
  read_frames (length envs + m) (FrameFramedReader_new (Ok <$> chunks))
  = ((λ e, Ok (Some e)) <$> envs) ++ replicate m (Ok None).
Proof.
  intros Hok Hne Hbytes. rewrite write_frames_sink in Hbytes. simpl in Hbytes.
  unfold FrameFramedReader_new. rewrite read_frames_spec by done.
  simpl. rewrite Hbytes. by apply spec_reads_encoded.
Qed.

(** A frame whose body is not JSON is dropped from the reader's buffer with
    the error, so the next call returns the frame that follows it. *)
Theorem read_frame_resyncs body env rest chunks err :
  Z.of_nat (length body) < 2 ^ 32 → from_slice body = Err err → frame_ok env →
  Forall (λ c : list byte, c ≠ []) chunks →
  concat chunks = (u32_to_be_bytes (Z.of_nat (length body)) ++ body) ++ encode env ++ rest →
  read_frames 2 (FrameFramedReader_new (Ok <$> chunks))
  = [Err (InvalidData err); Ok (Some env)].
Proof.
  intros Hlen Herr [Hlen' Hrt] Hne Hbytes. unfold FrameFramedReader_new.
  rewrite read_frames_spec by done. simpl (_ ++ concat _). rewrite Hbytes.
  cbn [spec_reads]. rewrite next_frame_body by done. rewrite Herr.
  rewrite next_frame_encode by done. by rewrite Hrt.
Qed.

(** [decode_with_remainder] of an encoded envelope followed by any bytes
    returns the envelope and the number of bytes it used, and [decode] of a
    strict prefix of an encoding reports how many bytes are missing. *)
Theorem decode_encode e rest k :
  frame_ok e →
  decode_with_remainder (encode e ++ rest) = Ok (e, Z.of_nat (length (encode e)))
  ∧ decode (encode e ++ rest) = Ok e
  ∧ ((k < length (encode e))%nat →
     decode (take k (encode e)) =
       Err (if (k <? 4)%nat then TooShort 4 (Z.of_nat k)
            else Incomplete (Z.of_nat (length (encode e))) (Z.of_nat k))).
Proof.
  intros [Hlen Hrt].
  assert (decode_with_remainder (encode e ++ rest) = Ok (e, Z.of_nat (length (encode e)))) as Hd.
  { rewrite decode_with_remainder_next, next_frame_encode, Hrt, length_app by done.
    do 2 f_equal. lia. }
  split_and!; [done|by rewrite decode_remainder, Hd|].
  intros Hk. by apply decode_truncated.
Qed.
End Codec.

Arguments ReadError {J} IoError.
#[export] Hint Resolve frame_len_nonneg : alk.

(** ** A concrete codec, to evaluate the reader and writer on examples *)
Module FrameExample.
(** Envelopes with an empty id and a null payload, written as their type. *)
#[export] Instance type_codec : EnvelopeCodec := {|
  to_vec e := bytes_of (env_type e);
  from_slice bs := match bs with
                   | [] => Err tt
                   | _ => Ok (mkEnvelope _ (str_of bs) EmptyString JNull)
                   end;
|}.

Definition env_a : EventEnvelope := mkEnvelope _ "a" EmptyString JNull.
Definition env_bc : EventEnvelope := mkEnvelope _ "bc" EmptyString JNull.

(** The eleven bytes of two frames, delivered as reads of 2, 5 and 4 bytes. *)
Definition chunks_ab : list (list byte) :=
  [[x00; x00]; [x00; x01; x61; x00; x00]; [x00; x02; x62; x63]].

Lemma read_frames_refines_witness :
  read_frames 3 (FrameFramedReader_new (IoError := unit) (Ok <$> chunks_ab))
  = spec_reads 3 (concat chunks_ab).
Proof. apply (read_frames_refines 3 chunks_ab). repeat constructor; discriminate. Defined.

Lemma read_write_frames_witness :
  read_frames 3 (FrameFramedReader_new (IoError := unit) (Ok <$> chunks_ab))
  = [Ok (Some env_a); Ok (Some env_bc); Ok None].
Proof.
  apply (read_write_frames [env_a; env_bc] chunks_ab 1).
  - repeat constructor.
  - repeat constructor; discriminate.
  - vm_compute. reflexivity.
Defined.

(** An empty body between the length prefix and the next frame. *)
Lemma read_frame_resyncs_witness :
  read_frames 2 (FrameFramedReader_new (IoError := unit)
    (Ok <$> [[x00; x00; x00; x00; x00]; [x00; x00; x01; x61]]))
  = [Err (InvalidData tt); Ok (Some env_a)].
Proof.
  apply (read_frame_resyncs [] env_a [] _ tt); try reflexivity.
  - repeat constructor.
  - repeat constructor; discriminate.
Defined.

Lemma decode_encode_witness :
  decode_with_remainder (encode env_a ++ [x07]) = Ok (env_a, 5)
  ∧ decode (encode env_a ++ [x07]) = Ok env_a
  ∧ ((4 < 5)%nat → decode (take 4 (encode env_a)) = Err (Incomplete 5 4)).
Proof. exact (decode_encode env_a [x07] 4 (conj eq_refl eq_refl)). Defined.
End FrameExample.
