(* ===== verification/Net.v ===== *)
(** * IP and socket addresses of Rust's standard library

    [IpAddr::from_str] and [SocketAddr::from_str] as [core::net::parser]
    implements them (a recursive-descent parser that backtracks on failure),
    and the [Display] of addresses.  The octets of an IPv4 address and the
    groups of an IPv6 address are lists of [Z]. *)
From S2P Require Import Prelude RustStd.
From Stdlib Require Import Ascii.
Open Scope Z_scope.

Inductive IpAddr :=
| V4 (octets : list Z)
| V6 (segments : list Z).

#[export] Instance IpAddr_eq_dec : EqDecision IpAddr.
Proof. solve_decision. Defined.
#[export] Instance IpAddr_countable : Countable IpAddr.
Proof.
  refine (inj_countable'
    (λ a, match a with V4 l => inl l | V6 l => inr l end)
    (λ s, match s with inl l => V4 l | inr l => V6 l end) _).
  by intros [].
Defined.

Record SocketAddr := mkSocketAddr { sock_ip : IpAddr; sock_port : Z; sock_scope : Z }.
#[export] Instance SocketAddr_eq_dec : EqDecision SocketAddr.
Proof. solve_decision. Defined.

(** ** The parser: a failure leaves the input where it was *)
Notation parser A := (string → option (A * string)).

Definition read_given_char (c : ascii) : parser unit := λ s,
  match s with
  | String a s' => if Ascii.eqb a c then Some (tt, s') else None
  | EmptyString => None
  end.

(** [char::to_digit(radix)] for radix 10 and 16. *)
Definition to_digit (hex : bool) (a : ascii) : option Z :=
  let n := Z.of_N (N_of_ascii a) in
  if (48 <=? n) && (n <=? 57) then Some (n - 48)
  else if hex then
    if (97 <=? n) && (n <=? 102) then Some (n - 87)
    else if (65 <=? n) && (n <=? 70) then Some (n - 55)
    else None
  else None.

(** The digits read greedily, their value and their number. *)
Fixpoint read_digits (hex : bool) (acc : Z) (count : nat) (s : string) : Z * nat * string :=
  match s with
  | String a s' =>
      match to_digit hex a with
      | Some d => read_digits hex (acc * (if hex then 16 else 10) + d) (S count) s'
      | None => (acc, count, s)
      end
  | EmptyString => (acc, count, s)
  end.

Definition peek_zero (s : string) : bool :=
  match s with String a _ => Ascii.eqb a "0" | EmptyString => false end.

(** [read_number]: [max] is the largest value of the target type. *)
Definition read_number (hex : bool) (max_digits : option nat) (allow_zero_prefix : bool) (max : Z)
    : parser Z := λ s,
  let '(v, count, s') := read_digits hex 0 0 s in
  if (count =? 0)%nat then None
  else if match max_digits with Some m => (m <? count)%nat | None => false end then None
  else if negb allow_zero_prefix && peek_zero s && (1 <? count)%nat then None
  else if max <? v then None
  else Some (v, s').

Definition read_separator {A} (sep : ascii) (index : nat) (p : parser A) : parser A := λ s,
  match index with
  | O => p s
  | _ => match read_given_char sep s with Some (_, s') => p s' | None => None end
  end.

Fixpoint read_octets (n i : nat) : parser (list Z) := λ s,
  match n with
  | O => Some ([], s)
  | S k =>
      match read_separator "." i (read_number false (Some 3%nat) false 255) s with
      | None => None
      | Some (o, s') =>
          match read_octets k (S i) s' with
          | None => None
          | Some (os, s'') => Some (o :: os, s'')
          end
      end
  end.

Definition read_ipv4_addr : parser (list Z) := read_octets 4 0.

(** [read_groups] on a slice with [left] slots still to fill, the next one at
    index [i]; the flag says that the address ended in IPv4 notation. *)
Fixpoint read_groups (left i : nat) (s : string) : list Z * bool * string :=
  match left with
  | O => ([], false, s)
  | S k =>
      match (if (1 <? left)%nat then read_separator ":" i read_ipv4_addr s else None) with
      | Some (os, s') =>
          let g j := nth (2 * j) os 0 * 256 + nth (2 * j + 1) os 0 in
          ([g 0%nat; g 1%nat], true, s')
      | None =>
          match read_separator ":" i (read_number true (Some 4%nat) true u16_max) s with
          | None => ([], false, s)
          | Some (g, s') =>
              let '(gs, v4, s'') := read_groups k (S i) s' in (g :: gs, v4, s'')
          end
      end
  end.

Definition read_ipv6_addr : parser (list Z) := λ s,
  let '(head, head_ipv4, s1) := read_groups 8 0 s in
  if (length head =? 8)%nat then Some (head, s1)
  else if head_ipv4 then None
  else
    match read_given_char ":" s1 with
    | None => None
    | Some (_, s2) =>
        match read_given_char ":" s2 with
        | None => None
        | Some (_, s3) =>
            let limit := (8 - (length head + 1))%nat in
            let '(tail, _, s4) := read_groups limit 0 s3 in
            Some (head ++ replicate (8 - length head - length tail) 0 ++ tail, s4)
        end
    end.

Definition read_ip_addr : parser IpAddr := λ s,
  match read_ipv4_addr s with
  | Some (os, s') => Some (V4 os, s')
  | None => match read_ipv6_addr s with Some (gs, s') => Some (V6 gs, s') | None => None end
  end.

Definition read_port : parser Z := λ s,
  match read_given_char ":" s with
  | Some (_, s') => read_number false None true u16_max s'
  | None => None
  end.

Definition read_scope_id (s : string) : Z * string :=
  match read_given_char "%" s with
  | Some (_, s') =>
      match read_number false None true u32_max s' with
      | Some (v, s'') => (v, s'')
      | None => (0, s)
      end
  | None => (0, s)
  end.

Definition read_socket_addr_v4 : parser SocketAddr := λ s,
  match read_ipv4_addr s with
  | None => None
  | Some (os, s1) =>
      match read_port s1 with
      | None => None
      | Some (port, s2) => Some (mkSocketAddr (V4 os) port 0, s2)
      end
  end.

Definition read_socket_addr_v6 : parser SocketAddr := λ s,
  match read_given_char "[" s with
  | None => None
  | Some (_, s1) =>
      match read_ipv6_addr s1 with
      | None => None
      | Some (gs, s2) =>
          let '(scope, s3) := read_scope_id s2 in
          match read_given_char "]" s3 with
          | None => None
          | Some (_, s4) =>
              match read_port s4 with
              | None => None
              | Some (port, s5) => Some (mkSocketAddr (V6 gs) port scope, s5)
              end
          end
      end
  end.

(** [parse_with]: the whole input must be consumed. *)
Definition parse_all {A} (p : parser A) (s : string) : option A :=
  match p s with Some (a, EmptyString) => Some a | _ => None end.

Definition ip_from_str : string → option IpAddr := parse_all read_ip_addr.
Definition socket_addr_from_str : string → option SocketAddr := parse_all (λ s,
  match read_socket_addr_v4 s with Some r => Some r | None => read_socket_addr_v6 s end).

(** ** Display *)
Definition show_ipv4 (os : list Z) : string :=
  match os with
  | [a; b; c; d] => show_uint a +:+ "." +:+ show_uint b +:+ "." +:+ show_uint c +:+ "." +:+ show_uint d
  | _ => EmptyString
  end.

Definition hex_char (d : Z) : ascii :=
  ascii_of_N (Z.to_N (if d <? 10 then 48 + d else 87 + d)).

Fixpoint show_hex_digits (fuel : nat) (n : Z) (tail : string) : string :=
  match fuel with
  | O => tail
  | S k => if n <? 16 then String (hex_char n) tail
           else show_hex_digits k (n `div` 16) (String (hex_char (n `mod` 16)) tail)
  end.
(** A group has at most four hexadecimal digits. *)
Definition show_hex (n : Z) : string := show_hex_digits 4 n EmptyString.

(** The first longest run of zero groups: its start and length. *)
Fixpoint longest_zeroes (segs : list Z) (i cur_start cur_len best_start best_len : nat) : nat * nat :=
  match segs with
  | [] => (best_start, best_len)
  | x :: segs' =>
      if x =? 0 then
        let cur_start := if (cur_len =? 0)%nat then i else cur_start in
        let cur_len := S cur_len in
        if (best_len <? cur_len)%nat
        then longest_zeroes segs' (S i) cur_start cur_len cur_start cur_len
        else longest_zeroes segs' (S i) cur_start cur_len best_start best_len
      else longest_zeroes segs' (S i) cur_start 0 best_start best_len
  end.

Fixpoint show_groups (segs : list Z) : string :=
  match segs with
  | [] => EmptyString
  | [x] => show_hex x
  | x :: segs' => show_hex x +:+ ":" +:+ show_groups segs'
  end.

Definition show_ipv6 (segs : list Z) : string :=
  match segs with
  | [0; 0; 0; 0; 0; 65535; x; y] =>
      "::ffff:" +:+ show_ipv4 [x `div` 256; x `mod` 256; y `div` 256; y `mod` 256]
  | _ =>
      let '(start, len) := longest_zeroes segs 0 0 0 0 0 in
      if (1 <? len)%nat
      then show_groups (take start segs) +:+ "::" +:+ show_groups (drop (start + len) segs)
      else show_groups segs
  end.

Definition show_ip (ip : IpAddr) : string :=
  match ip with V4 os => show_ipv4 os | V6 gs => show_ipv6 gs end.

(** ** Well-formed addresses *)
Definition octet (n : Z) : Prop := 0 ≤ n < 256.
Definition ipv4_ok (os : list Z) : Prop := length os = 4%nat ∧ Forall octet os.

(** ** Printing an IPv4 address and parsing it back *)
Lemma to_digit_char d : 0 ≤ d < 10 → to_digit false (digit_char d) = Some d.
Proof. intros Hd. by apply digit_val_char. Qed.

(** Reading digits stops at a character that is none. *)
Definition stops (s : string) : Prop :=
  match s with String a _ => to_digit false a = None | EmptyString => True end.

Lemma read_digits_stop acc count s : stops s → read_digits false acc count s = (acc, count, s).
Proof. destruct s as [|a s]; simpl; [done|]. by intros ->. Qed.

#[local] Ltac Zify.zify_post_hook ::= Z.to_euclidean_division_equations.

(** An octet in decimal: its digits, read back, with no leading zero. *)
Lemma read_number_octet n rest :
  octet n → stops rest →
  read_number false (Some 3%nat) false 255 (show_uint n +:+ rest) = Some (n, rest).
Proof.
  intros Hn Hs.
  assert (show_uint n = if n <? 10 then String (digit_char n) EmptyString
    else if n <? 100 then String (digit_char (n `div` 10)) (String (digit_char (n `mod` 10)) EmptyString)
    else String (digit_char (n `div` 100)) (String (digit_char (n `div` 10 `mod` 10))
           (String (digit_char (n `mod` 10)) EmptyString))) as ->.
  { unfold show_uint, octet in *. cbn [show_digits].
    destruct (Z.ltb_spec n 10); [done|].
    destruct (Z.ltb_spec (n `div` 10) 10), (Z.ltb_spec n 100); try lia; [done|].
    rewrite Z.div_div by lia.
    destruct (Z.ltb_spec (n `div` (10 * 10)) 10); [done|lia]. }
  unfold octet in *.
  assert (∀ d, 0 < d < 10 → Ascii.eqb (digit_char d) "0" = false) as Hz.
  { intros d Hd. apply Ascii.eqb_neq. change "0"%char with (digit_char 0). intros Heq.
    apply (f_equal (to_digit false)) in Heq. rewrite !to_digit_char in Heq by lia. naive_solver lia. }
  assert (0 ≤ n `mod` 10 < 10 ∧ 0 ≤ n `div` 10 `mod` 10 < 10) as [Hm Hm2] by lia.
  destruct (Z.ltb_spec n 10); [|destruct (Z.ltb_spec n 100)]; unfold read_number;
    repeat match goal with
    | |- context [String ?a ?s +:+ rest] => change (String a s +:+ rest) with (String a (s +:+ rest))
    end;
    change (EmptyString +:+ rest) with rest;
    cbn [read_digits peek_zero]; rewrite ?to_digit_char by lia; cbn [read_digits];
    rewrite ?to_digit_char by lia; cbn [read_digits]; rewrite ?to_digit_char by lia;
    cbn [read_digits]; rewrite read_digits_stop by done.
  - rewrite andb_false_r. cbn -[Z.add Z.mul]. replace (0 * 10 + n) with n by lia.
    by destruct (Z.ltb_spec 255 n); [lia|].
  - rewrite Hz by lia. cbn -[Z.add Z.mul Z.div Z.modulo].
    replace ((0 * 10 + n `div` 10) * 10 + n `mod` 10) with n by lia.
    by destruct (Z.ltb_spec 255 n); [lia|].
  - rewrite Hz by lia. cbn -[Z.add Z.mul Z.div Z.modulo].
    replace (((0 * 10 + n `div` 100) * 10 + n `div` 10 `mod` 10) * 10 + n `mod` 10) with n by lia.
    by destruct (Z.ltb_spec 255 n); [lia|].
Qed.

Lemma read_dot {A} i (p : parser A) s : read_separator "." (S i) p ("." +:+ s) = p s.
Proof. done. Qed.

Lemma read_octets_show a b c d rest :
  octet a → octet b → octet c → octet d → stops rest →
  read_ipv4_addr (show_ipv4 [a; b; c; d] +:+ rest) = Some ([a; b; c; d], rest).
Proof.
  intros Ha Hb Hc Hd Hs. unfold read_ipv4_addr, show_ipv4. rewrite !str_app_assoc.
  cbn [read_octets]. unfold read_separator at 1.
  rewrite read_number_octet, read_dot by done.
  rewrite read_number_octet, read_dot by done.
  rewrite read_number_octet, read_dot by done.
  by rewrite read_number_octet.
Qed.

(** [IpAddr::from_str] of a printed IPv4 address is that address. *)
Lemma ip_from_show_ipv4 os : ipv4_ok os → ip_from_str (show_ipv4 os) = Some (V4 os).
Proof.
  intros [Hlen Hall]. destruct os as [|a [|b [|c [|d [|]]]]]; try done.
  repeat (apply Forall_cons in Hall as [? Hall]).
  unfold ip_from_str, parse_all, read_ip_addr.
  rewrite <-(str_app_nil_r (show_ipv4 _)). by rewrite read_octets_show.
Qed.

(** ** What a parser leaves is a suffix of its input *)
Definition suffix_of (r s : string) : Prop := ∃ c, s = c +:+ r.

Lemma suffix_refl s : suffix_of s s.
Proof. by exists EmptyString. Qed.

Lemma suffix_cons a r s : suffix_of r s → suffix_of r (String a s).
Proof. intros [c ->]. by exists (String a c). Qed.

Lemma suffix_trans r s t : suffix_of r s → suffix_of s t → suffix_of r t.
Proof. intros [c ->] [d ->]. exists (d +:+ c). by rewrite str_app_assoc. Qed.

Lemma read_given_char_inv c s v r : read_given_char c s = Some (v, r) → s = String c r.
Proof. destruct s as [|a s]; simpl; [done|]. destruct (Ascii.eqb_spec a c); naive_solver. Qed.

Lemma read_given_char_suffix c s v r : read_given_char c s = Some (v, r) → suffix_of r s.
Proof. intros ->%read_given_char_inv. apply suffix_cons, suffix_refl. Qed.

Lemma read_digits_suffix hex acc n s v k r : read_digits hex acc n s = (v, k, r) → suffix_of r s.
Proof.
  revert acc n. induction s as [|a s IH]; intros acc n; simpl.
  - intros [= _ _ <-]. apply suffix_refl.
  - destruct (to_digit hex a); [by intros ?%IH; apply suffix_cons|].
    intros [= _ _ <-]. apply suffix_refl.
Qed.

Lemma read_number_inv hex md z max s v r :
  read_number hex md z max s = Some (v, r) → ∃ k, read_digits hex 0 0 s = (v, k, r) ∧ v ≤ max.
Proof.
  unfold read_number. destruct (read_digits hex 0 0 s) as [[v' k] s'].
  repeat case_match; try done; intros [= <- <-]; exists k; (split; [done|lia]).
Qed.

Lemma read_number_suffix hex md z max s v r :
  read_number hex md z max s = Some (v, r) → suffix_of r s.
Proof. intros (k & Hd & _)%read_number_inv. by eapply read_digits_suffix. Qed.

Lemma read_separator_suffix {A} (p : parser A) sep i s v r :
  (∀ s v r, p s = Some (v, r) → suffix_of r s) →
  read_separator sep i p s = Some (v, r) → suffix_of r s.
Proof.
  intros Hp. unfold read_separator. destruct i; [apply Hp|].
  destruct (read_given_char sep s) as [[[] s']|] eqn:Hc; [|done]. intros Hr%Hp.
  eapply suffix_trans; [exact Hr|]. by eapply read_given_char_suffix.
Qed.

Lemma read_octets_suffix n i s v r : read_octets n i s = Some (v, r) → suffix_of r s.
Proof.
  revert i s v r. induction n as [|n IH]; intros i s v r; simpl.
  - intros [= _ <-]. apply suffix_refl.
  - destruct (read_separator _ _ _ s) as [[o s']|] eqn:Hs; [|done].
    destruct (read_octets n (S i) s') as [[os s'']|] eqn:Ho; [|done]. intros [= _ <-].
    eapply suffix_trans; [by eapply IH|].
    eapply read_separator_suffix; [|exact Hs]. apply read_number_suffix.
Qed.

Lemma read_groups_suffix n i s v b r : read_groups n i s = (v, b, r) → suffix_of r s.
Proof.
  revert i s v b r. induction n as [|n IH]; intros i s v b r.
  { simpl. intros [= _ _ <-]. apply suffix_refl. }
  cbn [read_groups].
  destruct (if (1 <? S n)%nat then _ else None) as [[os s']|] eqn:Hv.
  - intros [= _ _ <-]. case_match; [|done].
    eapply read_separator_suffix; [|exact Hv]. apply read_octets_suffix.
  - clear Hv. destruct (read_separator _ _ _ s) as [[g s']|] eqn:Hs.
    + destruct (read_groups n (S i) s') as [[gs v4] s''] eqn:Hg. intros [= _ _ <-].
      eapply suffix_trans; [by eapply IH|].
      eapply read_separator_suffix; [|exact Hs]. apply read_number_suffix.
    + intros [= _ _ <-]. apply suffix_refl.
Qed.

Lemma read_ipv6_suffix s v r : read_ipv6_addr s = Some (v, r) → suffix_of r s.
Proof.
  unfold read_ipv6_addr. destruct (read_groups 8 0 s) as [[hd h4] s1] eqn:Hh.
  apply read_groups_suffix in Hh. case_match; [by intros [= _ <-]|]. case_match; [done|].
  destruct (read_given_char ":" s1) as [[[] s2]|] eqn:H2; [|done].
  destruct (read_given_char ":" s2) as [[[] s3]|] eqn:H3; [|done].
  apply read_given_char_suffix in H2, H3.
  destruct (read_groups _ 0 s3) as [[tl t4] s4] eqn:Ht. apply read_groups_suffix in Ht.
  intros [= _ <-]. by do 3 (eapply suffix_trans; [eassumption|]).
Qed.

Lemma read_scope_suffix s v r : read_scope_id s = (v, r) → suffix_of r s.
Proof.
  unfold read_scope_id. destruct (read_given_char "%" s) as [[[] s']|] eqn:Hc;
    [|intros [= _ <-]; apply suffix_refl].
  destruct (read_number false None true u32_max s') as [[v' s'']|] eqn:Hn;
    [|intros [= _ <-]; apply suffix_refl].
  intros [= _ <-]. eapply suffix_trans; [by eapply read_number_suffix|].
  by eapply read_given_char_suffix.
Qed.

(** ** The port of a socket address is what follows the last colon *)
Lemma last_colon a b a' b' :
  contains_char ":" b = false → contains_char ":" b' = false →
  a +:+ String ":" b = a' +:+ String ":" b' → a = a' ∧ b = b'.
Proof.
  revert a'. induction a as [|x a IH]; intros [|y a'] Hb Hb' Heq.
  - change (String ":" b = String ":" b') in Heq. by simplify_eq.
  - change (String ":" b = String y (a' +:+ String ":" b')) in Heq. simplify_eq.
    by rewrite contains_char_app, contains_char_cons, orb_true_r in Hb.
  - change (String x (a +:+ String ":" b) = String ":" b') in Heq. simplify_eq.
    by rewrite contains_char_app, contains_char_cons, orb_true_r in Hb'.
  - change (String x (a +:+ String ":" b) = String y (a' +:+ String ":" b')) in Heq.
    injection Heq as -> Heq. by destruct (IH a' Hb Hb' Heq) as [-> ->].
Qed.

Lemma read_digits_no_colon acc n s v k :
  read_digits false acc n s = (v, k, EmptyString) → contains_char ":" s = false.
Proof.
  revert acc n. induction s as [|a s IH]; intros acc n; simpl; [done|].
  destruct (to_digit false a) as [d|] eqn:Hd; [|done]. intros Hr%IH.
  rewrite contains_char_cons, Hr, orb_false_r. apply Ascii.eqb_neq. by intros ->.
Qed.

Lemma parse_digits_read max acc n s v :
  parse_digits max acc s = Some v → ∃ k, read_digits false acc n s = (v, k, EmptyString).
Proof.
  revert acc n. induction s as [|a s IH]; intros acc n; simpl; [naive_solver|].
  change (to_digit false a) with (digit_val a). destruct (digit_val a) as [d|]; [|done].
  case_match; [done|]. apply IH.
Qed.

Lemma read_number_show_uint md z max n v r :
  0 ≤ n < 10 ^ 20 → read_number false md z max (show_uint n) = Some (v, r) → v = n.
Proof.
  intros Hn (k & Hd & _)%read_number_inv.
  destruct (parse_digits_read n 0 0 (show_uint n) n) as [k' Hr].
  { unfold show_uint. rewrite parse_show_digits by lia. done. }
  rewrite Hd in Hr. by simplify_eq.
Qed.

(** The port reader at the end of [host:port]. *)
Lemma read_port_end host n c s p :
  0 ≤ n < 10 ^ 20 → host +:+ ":" +:+ show_uint n = c +:+ s → read_port s = Some (p, EmptyString) →
  c = host ∧ p = n ∧ n ≤ u16_max.
Proof.
  intros Hn Heq. unfold read_port.
  destruct (read_given_char ":" s) as [[[] s']|] eqn:Hc; [|done]. intros Hnum.
  apply read_given_char_inv in Hc as ->.
  destruct (read_number_inv _ _ _ _ _ _ _ Hnum) as (k & Hd & Hmax).
  destruct (last_colon host (show_uint n) c s') as [-> <-].
  { apply show_uint_contains; [lia|done]. }
  { by eapply read_digits_no_colon. }
  { exact Heq. }
  apply read_number_show_uint in Hnum; [|done]. subst. done.
Qed.

(** ** An IPv4 address is read the same whatever follows it *)
Lemma str_app_length_neq a c r : String a (c +:+ r) ≠ r.
Proof.
  intros Heq. apply (f_equal String.length) in Heq. simpl in Heq.
  rewrite str_length_app in Heq. lia.
Qed.

Lemma read_digits_local acc n c r r' v k :
  stops r → stops r' → read_digits false acc n (c +:+ r) = (v, k, r) →
  read_digits false acc n (c +:+ r') = (v, k, r').
Proof.
  intros Hs Hs'. revert acc n. induction c as [|a c IH]; intros acc n.
  - change (EmptyString +:+ r) with r. change (EmptyString +:+ r') with r'.
    rewrite !read_digits_stop by done. by intros [= -> ->].
  - change (String a c +:+ r) with (String a (c +:+ r)).
    change (String a c +:+ r') with (String a (c +:+ r')). simpl.
    destruct (to_digit false a); [apply IH|].
    intros [= _ _ Heq]. by apply str_app_length_neq in Heq.
Qed.

Lemma read_number_local md z max c r r' v :
  stops r → stops r' → read_number false md z max (c +:+ r) = Some (v, r) →
  read_number false md z max (c +:+ r') = Some (v, r').
Proof.
  intros Hs Hs' Hr. pose proof (read_number_inv _ _ _ _ _ _ _ Hr) as (k & Hd & _).
  pose proof (read_digits_local _ _ _ _ _ _ _ Hs Hs' Hd) as Hd'.
  unfold read_number in *. rewrite Hd in Hr. rewrite Hd'.
  destruct c as [|a c].
  - change (EmptyString +:+ r) with r in Hd. rewrite read_digits_stop in Hd by done. by simplify_eq.
  - change (peek_zero (String a c +:+ r')) with (peek_zero (String a c +:+ r)).
    repeat case_match; naive_solver.
Qed.

Lemma read_octets_local n i s os r :
  stops r → read_octets n (S i) s = Some (os, r) →
  ∃ c, s = c +:+ r ∧ ∀ r', stops r' →
    stops (c +:+ r') ∧ read_octets n (S i) (c +:+ r') = Some (os, r').
Proof.
  intros Hs. revert i s os. induction n as [|n IH]; intros i s os; simpl.
  { intros [= <- <-]. exists EmptyString. naive_solver. }
  destruct (read_given_char "." s) as [[[] s0]|] eqn:Hdot; [|done].
  apply read_given_char_inv in Hdot as ->.
  destruct (read_number false (Some 3%nat) false 255 s0) as [[o s1]|] eqn:Hnum; [|done].
  destruct (read_octets n (S (S i)) s1) as [[os' s2]|] eqn:Ho; [|done]. intros [= <- ->].
  destruct (IH _ _ _ Ho) as (c2 & -> & Hc2).
  destruct (read_number_suffix _ _ _ _ _ _ _ Hnum) as [c1 ->].
  exists (String "." (c1 +:+ c2)). split; [by rewrite <-str_app_assoc|].
  intros r' Hr'. destruct (Hc2 r Hs) as [Hst _]. destruct (Hc2 r' Hr') as [Hst' Ho'].
  split; [done|].
  change (String "." (c1 +:+ c2) +:+ r') with (String "." ((c1 +:+ c2) +:+ r')).
  cbn [read_given_char]. rewrite Ascii.eqb_refl, str_app_assoc.
  by rewrite (read_number_local _ _ _ _ _ _ _ Hst Hst' Hnum), Ho'.
Qed.

Lemma read_ipv4_prefix host rest os :
  stops rest → read_ipv4_addr (host +:+ rest) = Some (os, rest) → ip_from_str host = Some (V4 os).
Proof.
  intros Hs Hr.
  assert (read_ipv4_addr host = Some (os, EmptyString)) as Hh;
    [|unfold ip_from_str, parse_all, read_ip_addr; by rewrite Hh].
  unfold read_ipv4_addr in *. cbn [read_octets] in *. unfold read_separator in Hr at 1.
  unfold read_separator at 1.
  destruct (read_number false (Some 3%nat) false 255 (host +:+ rest)) as [[o s1]|] eqn:Hnum; [|done].
  fold (read_octets 3 1 s1) in Hr.
  destruct (read_octets 3 1 s1) as [[os' s2]|] eqn:Ho; [|done]. simplify_eq.
  destruct (read_octets_local 3 0 s1 os' rest Hs Ho) as (c2 & -> & Hc2).
  destruct (read_number_suffix _ _ _ _ _ _ _ Hnum) as [c1 Hc1].
  destruct (Hc2 rest Hs) as [Hst _]. destruct (Hc2 EmptyString I) as [Hst' Ho'].
  rewrite Hc1 in Hnum. rewrite <-str_app_assoc in Hc1. apply str_app_inj_r in Hc1 as ->.
  rewrite !str_app_nil_r in *.
  rewrite (read_number_local _ _ _ _ _ _ _ Hst Hst' Hnum).
  fold (read_octets 3 1 c2). by rewrite Ho'.
Qed.

(** ** A literal is read the same whatever follows it
    provided that what follows cannot be part of one. *)
Definition boundary (r : string) : Prop :=
  match r with
  | String a _ => to_digit true a = None ∧ a ≠ ":"%char ∧ a ≠ "."%char
  | EmptyString => True
  end.
Definition leaving {A} (r : string) (o : option (A * string)) : option (A * string) := (λ vs, (vs.1, vs.2 +:+ r)) <$> o.
Definition follows {A} (p : parser A) : Prop := ∀ s r, boundary r → p (s +:+ r) = leaving r (p s).

Lemma boundary_digits hex acc n r : boundary r → read_digits hex acc n r = (acc, n, r).
Proof.
  destruct r as [|a r]; [done|]. intros (Ha & _). simpl. destruct hex; [by rewrite Ha|].
  destruct (to_digit false a) eqn:Hd; [|done]. unfold to_digit in *. by destruct (_ && _).
Qed.

Lemma digits_follow hex acc n s r :
  boundary r → read_digits hex acc n (s +:+ r) = let '(v, k, s') := read_digits hex acc n s in (v, k, s' +:+ r).
Proof.
  intros Hr. revert acc n. induction s as [|a s IH]; intros acc n; [by apply boundary_digits|].
  change (String a s +:+ r) with (String a (s +:+ r)). simpl. destruct (to_digit hex a); [apply IH|done].
Qed.

Lemma given_char_follows c : c = ":"%char ∨ c = "."%char → follows (read_given_char c).
Proof.
  intros Hc [|a s] r Hr.
  - destruct r as [|b r]; [done|]. destruct Hr as (_ & H1 & H2). change (EmptyString +:+ ?x) with x. simpl.
    destruct (Ascii.eqb_spec b c) as [->|]; [naive_solver|done].
  - change (String a s +:+ r) with (String a (s +:+ r)). simpl. by destruct (Ascii.eqb a c).
Qed.

Lemma number_follows hex md z max : follows (read_number hex md z max).
Proof.
  intros s r Hr. unfold read_number. rewrite (digits_follow _ _ _ _ _ Hr).
  destruct s as [|a s]; [by simpl|]. change (peek_zero (String a s +:+ r)) with (peek_zero (String a s)).
  destruct (read_digits hex 0 0 (String a s)) as [[v k] s']. by repeat case_match.
Qed.

Lemma separator_follows {A} c i (p : parser A) :
  c = ":"%char ∨ c = "."%char → follows p → follows (read_separator c i p).
Proof.
  intros Hc Hp s r Hr. unfold read_separator. destruct i; [by apply Hp|].
  rewrite (given_char_follows c Hc s r Hr). destruct (read_given_char c s) as [[[] s']|]; [by apply Hp|done].
Qed.

Lemma octets_follow n i : follows (read_octets n i).
Proof.
  revert i. induction n as [|n IH]; intros i s r Hr; [done|]. cbn [read_octets].
  rewrite (separator_follows "." i _ (or_intror eq_refl) (number_follows _ _ _ _) s r Hr).
  destruct (read_separator _ _ _ s) as [[o s']|]; [|done]. simpl. rewrite (IH _ _ _ Hr).
  by destruct (read_octets n (S i) s') as [[os s'']|].
Qed.

Lemma groups_follow n i s r :
  boundary r → read_groups n i (s +:+ r) = let '(gs, v4, s') := read_groups n i s in (gs, v4, s' +:+ r).
Proof.
  intros Hr. revert i s. induction n as [|n IH]; intros i s; [done|]. cbn [read_groups].
  assert ((if (1 <? S n)%nat then read_separator ":" i read_ipv4_addr (s +:+ r) else None)
          = leaving r (if (1 <? S n)%nat then read_separator ":" i read_ipv4_addr s else None)) as ->.
  { destruct (1 <? S n)%nat; [|done]. apply separator_follows; [by left|apply octets_follow|done]. }
  destruct (if (1 <? S n)%nat then _ else None) as [[os s']|]; [done|]. simpl.
  rewrite (separator_follows ":" i _ (or_introl eq_refl) (number_follows _ _ _ _) s r Hr).
  destruct (read_separator _ _ _ s) as [[g s']|]; [|done]. simpl. rewrite IH.
  by destruct (read_groups n (S i) s') as [[gs v4] s''].
Qed.

Lemma ipv6_follows : follows read_ipv6_addr.
Proof.
  intros s r Hr. unfold read_ipv6_addr. rewrite (groups_follow _ _ _ _ Hr).
  destruct (read_groups 8 0 s) as [[hd v4] s1]. destruct (length hd =? 8)%nat; [done|]. destruct v4; [done|].
  pose proof (given_char_follows ":" (or_introl eq_refl)) as Hg. rewrite (Hg s1 r Hr).
  destruct (read_given_char ":" s1) as [[[] s2]|]; [|done]. simpl. rewrite (Hg s2 r Hr).
  destruct (read_given_char ":" s2) as [[[] s3]|]; [|done]. simpl. rewrite (groups_follow _ _ _ _ Hr).
  by destruct (read_groups _ 0 s3) as [[tl t4] s4].
Qed.

(** Text that starts with an IPv4 address is not an IPv6 address. *)
Lemma ipv6_not_ipv4 s gs r : read_ipv6_addr s = Some (gs, r) → read_ipv4_addr s = None.
Proof.
  intros H6. destruct (read_ipv4_addr s) as [[os s']|] eqn:H4; [|done].
  unfold read_ipv6_addr in H6. cbn [read_groups] in H6. change (1 <? 8)%nat with true in H6.
  cbn [read_separator] in H6. by rewrite H4 in H6.
Qed.

Lemma ip_from_str_ipv6 lit gs : read_ipv6_addr lit = Some (gs, EmptyString) → ip_from_str lit = Some (V6 gs).
Proof. intros H6. unfold ip_from_str, parse_all, read_ip_addr. by rewrite (ipv6_not_ipv4 _ _ _ H6), H6. Qed.

Lemma scope_boundary s n s' : read_scope_id s = (n, String "]" s') → boundary s.
Proof.
  unfold read_scope_id. destruct (read_given_char "%" s) as [[[] s1]|] eqn:Hp.
  - apply read_given_char_inv in Hp as ->. intros _. by repeat split.
  - intros [= _ ->]. by repeat split.
Qed.

(** A host that is an IPv6 literal in brackets, with an optional zone. *)
Definition bracketed (host : string) (ip : IpAddr) : Prop :=
  ∃ lit zone, host = "[" +:+ lit +:+ zone +:+ "]" ∧ boundary (zone +:+ "]") ∧ ip_from_str lit = Some ip.

Lemma ipv6_literal lit rest gs :
  boundary rest → read_ipv6_addr (lit +:+ rest) = Some (gs, rest) → ip_from_str lit = Some (V6 gs).
Proof.
  intros Hb Hr. rewrite (ipv6_follows lit rest Hb) in Hr. apply ip_from_str_ipv6.
  destruct (read_ipv6_addr lit) as [[gs' x]|]; [|done]. simpl in Hr. injection Hr as -> Hx.
  by rewrite (str_app_inj_r x EmptyString rest Hx).
Qed.

Lemma read_socket_v6 host n a :
  0 ≤ n < 10 ^ 20 → read_socket_addr_v6 (host +:+ ":" +:+ show_uint n) = Some (a, EmptyString) →
  sock_port a = n ∧ n ≤ u16_max ∧ bracketed host (sock_ip a).
Proof.
  intros Hn H6. unfold read_socket_addr_v6 in H6.
  destruct (read_given_char "[" _) as [[[] s1]|] eqn:Hb; [|done].
  destruct (read_ipv6_addr s1) as [[gs s2]|] eqn:Hip; [|done].
  destruct (read_scope_id s2) as [scope s3] eqn:Hsc.
  destruct (read_given_char "]" s3) as [[[] s4]|] eqn:Hc; [|done].
  destruct (read_port s4) as [[p s5]|] eqn:Hp; [|done]. simplify_eq. simpl.
  apply read_given_char_inv in Hb. apply read_given_char_inv in Hc as ->.
  pose proof (scope_boundary _ _ _ Hsc) as Hbd.
  destruct (read_scope_suffix _ _ _ Hsc) as [zone ->]. destruct (read_ipv6_suffix _ _ _ Hip) as [lit ->].
  destruct (read_port_end host n ("[" +:+ lit +:+ zone +:+ "]") s4 p) as (<- & -> & ?); [done| |done|].
  { rewrite Hb, !str_app_assoc. done. }
  split_and!; [done..|]. exists lit, zone. split_and!; [done| |by eapply ipv6_literal].
  by destruct zone.
Qed.

Lemma socket_addr_port host n a :
  0 ≤ n < 10 ^ 20 → socket_addr_from_str (host +:+ ":" +:+ show_uint n) = Some a →
  sock_port a = n ∧ n ≤ u16_max ∧ (ip_from_str host = Some (sock_ip a) ∨ bracketed host (sock_ip a)).
Proof.
  intros Hn. unfold socket_addr_from_str, parse_all.
  destruct (read_socket_addr_v4 (host +:+ ":" +:+ show_uint n)) as [[a' r]|] eqn:H4.
  - destruct r; [|done]. intros [= <-]. unfold read_socket_addr_v4 in H4.
    destruct (read_ipv4_addr _) as [[os s1]|] eqn:Hip; [|done].
    destruct (read_port s1) as [[p s2]|] eqn:Hp; [|done]. simplify_eq. simpl.
    pose proof (read_octets_suffix _ _ _ _ _ Hip) as [c Hc].
    destruct (read_port_end host n c s1 p) as (-> & -> & ?); [done..|].
    apply str_app_inj_l in Hc. subst s1. split_and!; [done..|]. left.
    by apply (read_ipv4_prefix _ _ _ (eq_refl : stops (":" +:+ show_uint n))).
  - clear H4. destruct (read_socket_addr_v6 _) as [[a' r]|] eqn:H6; [|done].
    destruct r; [|done]. intros [= <-]. apply read_socket_v6 in H6 as (? & ? & ?); [auto|done].
Qed.

(** ** Printed addresses are short and plain *)
Lemma plain_show_hex_digits fuel n m tail :
  plain m tail → plain (fuel + m) (show_hex_digits fuel n tail).
Proof.
  revert n m tail. induction fuel as [|fuel IH]; intros n m tail Ht; simpl; [done|].
  assert (∀ d, d < 16 → plain (S m) (String (hex_char d) tail)) as Hd.
  { intros d Hd. apply plain_cons; [done|]. apply ascii_of_N_small. case_match; lia. }
  case_match eqn:Hn.
  - apply Z.ltb_lt in Hn. apply (plain_le (S m)); [by apply Hd|lia].
  - eapply plain_le; [apply IH, Hd|lia]. pose proof (Z.mod_pos_bound n 16). lia.
Qed.

Lemma plain_show_hex n : plain 4 (show_hex n).
Proof. apply (plain_show_hex_digits 4 n 0), plain_nil. Qed.

Lemma plain_const s : forallb (λ b, byte_val b <? 128) (bytes_of s) = true → plain (String.length s) s.
Proof.
  intros H. split; [done|]. apply Forall_forall. intros b Hb%list_elem_of_In.
  rewrite forallb_forall in H. by apply Z.ltb_lt, H.
Qed.

Lemma plain_show_groups gs : plain (5 * length gs) (show_groups gs).
Proof.
  induction gs as [|g gs IH]; [apply plain_nil|]. cbn [show_groups length]. destruct gs as [|g' gs].
  - eapply plain_le; [apply plain_show_hex|lia].
  - eapply plain_le; [apply plain_app; [apply plain_show_hex|apply plain_app;
      [by apply (plain_const ":")|apply IH]]|simpl; lia].
Qed.

Lemma plain_show_ipv4 os : plain 83 (show_ipv4 os).
Proof.
  unfold show_ipv4. repeat case_match; try apply plain_nil.
  change 83%nat with (20 + (1 + (20 + (1 + (20 + (1 + 20))))))%nat.
  repeat (apply plain_app; [apply plain_show_uint|apply plain_app; [by apply (plain_const ".")|]]).
  apply plain_show_uint.
Qed.

(** At most eight groups, or a mapped IPv4 address. *)
Lemma plain_show_ip ip :
  match ip with V4 _ => True | V6 gs => length gs = 8%nat end → plain 90 (show_ip ip).
Proof.
  destruct ip as [os|gs]; simpl; intros Hl; [eapply plain_le; [apply plain_show_ipv4|lia]|].
  assert (plain 90 (let '(start, len) := longest_zeroes gs 0 0 0 0 0 in
      if (1 <? len)%nat
      then show_groups (take start gs) +:+ "::" +:+ show_groups (drop (start + len) gs)
      else show_groups gs)) as Hg.
  { destruct (longest_zeroes gs 0 0 0 0 0) as [start len]. case_match.
    - eapply plain_le; [apply plain_app; [apply plain_show_groups|apply plain_app;
        [by apply (plain_const "::")|apply plain_show_groups]]|].
      rewrite length_take, length_drop. simpl. lia.
    - eapply plain_le; [apply plain_show_groups|lia]. }
  assert (∀ os, plain 90 ("::ffff:" +:+ show_ipv4 os)) as Hm.
  { intros os. change 90%nat with (7 + 83)%nat.
    apply plain_app; [by apply (plain_const "::ffff:")|]. apply plain_show_ipv4. }
  unfold show_ipv6. repeat (case_match; try exact Hg); apply Hm.
Qed.
