(* ===== verification/NetShow.v ===== *)
(** * Printing socket addresses and parsing them back

    [Display] of [SocketAddr], and that [FromStr] undoes it for every address
    that can be parsed, IPv6 with its zero compression and its IPv4 notation
    included.  The client prints the address of its SOCKS5 server and parses it
    again with [expect]. *)
From S2P Require Import Prelude RustStd Net.
From Stdlib Require Import Ascii.
Open Scope Z_scope.

Definition show_socket_addr (a : SocketAddr) : string :=
  match sock_ip a with
  | V4 os => show_ipv4 os +:+ ":" +:+ show_uint (sock_port a)
  | V6 gs =>
      "[" +:+ show_ipv6 gs +:+
      (if sock_scope a =? 0 then EmptyString else "%" +:+ show_uint (sock_scope a)) +:+
      "]:" +:+ show_uint (sock_port a)
  end.

(** ** Well-formed addresses *)
Definition group (n : Z) : Prop := 0 ≤ n < 65536.
Definition ipv6_ok (gs : list Z) : Prop := length gs = 8%nat ∧ Forall group gs.
Definition ip_ok (ip : IpAddr) : Prop := match ip with V4 os => ipv4_ok os | V6 gs => ipv6_ok gs end.
Record socket_addr_ok (a : SocketAddr) : Prop := {
  sa_ip : ip_ok (sock_ip a);
  sa_port : 0 ≤ sock_port a ≤ u16_max;
  sa_scope : 0 ≤ sock_scope a ≤ u32_max;
  sa_v4 : ∀ os, sock_ip a = V4 os → sock_scope a = 0;
}.

(** ** Hexadecimal groups *)

(** Where a group ends: no hexadecimal digit and no dot follows. *)
Definition hex_stops (s : string) : Prop :=
  match s with String a _ => to_digit true a = None ∧ a ≠ "."%char | EmptyString => True end.

Lemma to_digit_hex_char d : 0 ≤ d < 16 → to_digit true (hex_char d) = Some d.
Proof.
  intros Hd. unfold hex_char, to_digit.
  assert (Z.of_N (N_of_ascii (ascii_of_N (Z.to_N (if d <? 10 then 48 + d else 87 + d))))
          = if d <? 10 then 48 + d else 87 + d) as ->.
  { rewrite N_ascii_embedding; destruct (d <? 10) eqn:Hlt; lia. }
  destruct (d <? 10) eqn:Hlt; [rewrite !(proj2 (Z.leb_le _ _)) by lia; simpl; f_equal; lia|].
  rewrite (proj2 (Z.leb_le 48 _)), (proj2 (Z.leb_gt _ 57)), !(proj2 (Z.leb_le _ _)) by lia.
  simpl. f_equal. lia.
Qed.

Lemma to_digit_dec a : to_digit true a = None → to_digit false a = None.
Proof. unfold to_digit. by destruct (_ && _). Qed.

Lemma read_hex_step d acc count s :
  0 ≤ d < 16 → read_digits true acc count (String (hex_char d) s) = read_digits true (acc * 16 + d) (S count) s.
Proof. intros Hd. cbn [read_digits]. by rewrite to_digit_hex_char. Qed.

Lemma read_hex_stop acc count s : hex_stops s → read_digits true acc count s = (acc, count, s).
Proof. destruct s as [|a s]; simpl; [done|]. by intros [-> _]. Qed.

#[local] Ltac Zify.zify_post_hook ::= Z.to_euclidean_division_equations.

(** The digits of a group, most significant first. *)
Definition hex_text (ds : list Z) (rest : string) : string := foldr (λ d, String (hex_char d)) rest ds.

Lemma show_hex_cases n rest : group n →
  ∃ ds, show_hex n +:+ rest = hex_text ds rest ∧ Forall (λ d, 0 ≤ d < 16) ds ∧
    (1 ≤ length ds ≤ 4)%nat ∧ foldl (λ acc d, acc * 16 + d) 0 ds = n.
Proof.
  intros Hn. unfold group in Hn. unfold show_hex. cbn [show_hex_digits].
  destruct (n <? 16) eqn:H1; [exists [n]|].
  2: destruct (n `div` 16 <? 16) eqn:H2; [exists [n `div` 16; n `mod` 16]|].
  3: destruct (n `div` 16 `div` 16 <? 16) eqn:H3;
       [exists [n `div` 16 `div` 16; (n `div` 16) `mod` 16; n `mod` 16]|].
  4: destruct (n `div` 16 `div` 16 `div` 16 <? 16) eqn:H4;
       [exists [n `div` 16 `div` 16 `div` 16; (n `div` 16 `div` 16) `mod` 16; (n `div` 16) `mod` 16; n `mod` 16]
       |exfalso; lia].
  all: split_and!; [done|repeat constructor; lia|simpl; lia|simpl; lia|simpl; lia].
Qed.

Lemma read_hex_text ds acc count rest :
  Forall (λ d, 0 ≤ d < 16) ds → hex_stops rest →
  read_digits true acc count (hex_text ds rest) = (foldl (λ acc d, acc * 16 + d) acc ds, (count + length ds)%nat, rest).
Proof.
  intros Hds Hs. revert acc count. induction Hds as [|d ds Hd _ IH]; intros acc count.
  { simpl. rewrite read_hex_stop by done. by rewrite Nat.add_0_r. }
  change (hex_text (d :: ds) rest) with (String (hex_char d) (hex_text ds rest)).
  rewrite read_hex_step, IH by done. simpl. by rewrite Nat.add_succ_r.
Qed.

Lemma read_number_hex n rest :
  group n → hex_stops rest → read_number true (Some 4%nat) true u16_max (show_hex n +:+ rest) = Some (n, rest).
Proof.
  intros Hn Hs. destruct (show_hex_cases n rest Hn) as (ds & -> & Hds & Hlen & Hval).
  unfold read_number. rewrite read_hex_text, Hval by done. simpl.
  rewrite (proj2 (Nat.eqb_neq _ _)), (proj2 (Nat.ltb_ge _ _)), (proj2 (Z.ltb_ge _ _))
    by (unfold group, u16_max in *; lia). done.
Qed.

(** A decimal number read from the text of a group is not followed by a dot. *)
Lemma read_decimal_no_dot ds acc count rest v k s :
  Forall (λ d, 0 ≤ d < 16) ds → hex_stops rest →
  read_digits false acc count (hex_text ds rest) = (v, k, s) →
  match s with String a _ => a ≠ "."%char | EmptyString => True end.
Proof.
  intros Hds Hs. revert acc count. induction Hds as [|d ds Hd _ IH]; intros acc count.
  - simpl. destruct rest as [|a r]; simpl; [by intros [= _ _ <-]|]. destruct Hs as [Ha Hdot].
    rewrite (to_digit_dec a Ha). by intros [= _ _ <-].
  - change (hex_text (d :: ds) rest) with (String (hex_char d) (hex_text ds rest)). cbn [read_digits].
    destruct (to_digit false (hex_char d)) as [x|]; [apply IH|]. intros [= _ _ <-] Hdot.
    pose proof (to_digit_hex_char d Hd) as Hx. rewrite Hdot in Hx. discriminate.
Qed.

Lemma read_ipv4_no_dot ds rest :
  Forall (λ d, 0 ≤ d < 16) ds → hex_stops rest → read_ipv4_addr (hex_text ds rest) = None.
Proof.
  intros Hds Hs. unfold read_ipv4_addr. change 4%nat with (S 3). cbn [read_octets read_separator].
  destruct (read_number false (Some 3%nat) false 255 (hex_text ds rest)) as [[o s']|] eqn:Hr; [|done].
  apply read_number_inv in Hr as (k & Hd & _). apply read_decimal_no_dot in Hd; [|done..].
  destruct s' as [|a s']; [done|]. cbn [read_given_char].
  by rewrite (proj2 (Ascii.eqb_neq _ _)) by done.
Qed.

Lemma read_ipv4_stop rest : hex_stops rest → read_ipv4_addr rest = None.
Proof. intros Hs. by apply (read_ipv4_no_dot [] rest). Qed.

Lemma read_number_stop rest : hex_stops rest → read_number true (Some 4%nat) true u16_max rest = None.
Proof. intros Hs. unfold read_number. by rewrite read_hex_stop. Qed.

(** ** Runs of groups *)

(** The text of the groups from slot [i] on. *)
Definition groups_from (i : nat) (gs : list Z) : string :=
  match i, gs with S _, _ :: _ => ":" +:+ show_groups gs | _, _ => show_groups gs end.

(** No further group can be read. *)
Definition groups_end (i : nat) (rest : string) : Prop :=
  hex_stops rest ∧ (i ≠ 0%nat → ∀ r, rest = String ":" r → hex_stops r).

Lemma read_groups_end left i rest : groups_end i rest → read_groups left i rest = ([], false, rest).
Proof.
  intros [Hs Hc]. destruct left as [|k]; [done|]. cbn [read_groups]. unfold read_separator.
  destruct i as [|i].
  - rewrite read_ipv4_stop, read_number_stop by done. by destruct (1 <? S k)%nat.
  - destruct (read_given_char ":" rest) as [[[] r]|] eqn:Hr; [|by destruct (1 <? S k)%nat].
    apply read_given_char_inv in Hr. specialize (Hc ltac:(done) r Hr).
    rewrite read_ipv4_stop, read_number_stop by done. by destruct (1 <? S k)%nat.
Qed.

Lemma show_groups_cons i x gs : show_groups (x :: gs) = show_hex x +:+ groups_from (S i) gs.
Proof. destruct gs; simpl; [by rewrite str_app_nil_r|done]. Qed.

Lemma hex_stops_from i gs rest : hex_stops rest → hex_stops (groups_from (S i) gs +:+ rest).
Proof. by destruct gs. Qed.

Lemma read_group_text {A} (p : parser A) i x gs rest :
  read_separator ":" i p (groups_from i (x :: gs) +:+ rest) = p (show_hex x +:+ groups_from (S i) gs +:+ rest).
Proof.
  rewrite <-str_app_assoc, <-(show_groups_cons i). by destruct i.
Qed.

Lemma read_ipv4_show_hex x rest : group x → hex_stops rest → read_ipv4_addr (show_hex x +:+ rest) = None.
Proof.
  intros Hx Hs. destruct (show_hex_cases x rest Hx) as (ds & -> & Hds & _). by apply read_ipv4_no_dot.
Qed.

Lemma read_groups_show gs left i rest :
  Forall group gs → (length gs ≤ left)%nat → hex_stops rest →
  ((length gs < left)%nat → groups_end (i + length gs) rest) →
  read_groups left i (groups_from i gs +:+ rest) = (gs, false, rest).
Proof.
  intros Hgs. revert left i. induction Hgs as [|x gs Hx _ IH]; intros left i Hlen Hs Hend.
  - assert (groups_from i [] +:+ rest = rest) as -> by (by destruct i).
    destruct left as [|k]; [done|]. apply read_groups_end.
    rewrite <-(Nat.add_0_r i). apply Hend. simpl. lia.
  - destruct left as [|k]; simpl in Hlen; [lia|]. cbn [read_groups]. rewrite !read_group_text.
    pose proof (hex_stops_from i gs rest Hs) as Hs'.
    rewrite read_ipv4_show_hex, read_number_hex by done.
    rewrite (IH k (S i)); [by destruct (1 <? S k)%nat|lia|done|].
    intros Hlt. replace (S i + length gs)%nat with (i + length (x :: gs))%nat by (simpl; lia).
    apply Hend. simpl. lia.
Qed.

(** ** The zero run that is compressed *)
Definition zeros_at (segs : list Z) (start len : nat) : Prop :=
  (start + len ≤ length segs)%nat ∧ take len (drop start segs) = replicate len 0.

Lemma zeros_at_snoc pre segs start len :
  zeros_at (pre ++ 0 :: segs) start len → (start + len = length pre)%nat →
  zeros_at (pre ++ 0 :: segs) start (S len).
Proof.
  intros [Hle Ht] Hend. split; [rewrite length_app; simpl; lia|].
  rewrite (take_S_r _ _ 0), Ht; [by rewrite <-replicate_S_end|].
  by rewrite lookup_drop, Hend, lookup_app_r, Nat.sub_diag.
Qed.

Lemma longest_zeroes_at segs pre cs cl bs bl start len :
  zeros_at (pre ++ segs) cs cl → (cl ≠ 0 → cs + cl = length pre)%nat → zeros_at (pre ++ segs) bs bl →
  longest_zeroes segs (length pre) cs cl bs bl = (start, len) → zeros_at (pre ++ segs) start len.
Proof.
  revert pre cs cl bs bl. induction segs as [|x segs IH]; intros pre cs cl bs bl Hc He Hb; cbn [longest_zeroes].
  { by intros [= <- <-]. }
  assert (S (length pre) = length (pre ++ [x])) as Hlen by (rewrite length_app; simpl; lia).
  assert (pre ++ x :: segs = (pre ++ [x]) ++ segs) as Happ by (by rewrite <-app_assoc).
  destruct (Z.eqb_spec x 0) as [->|Hx].
  - assert (∃ cs', (if (cl =? 0)%nat then length pre else cs) = cs' ∧ (cs' + cl = length pre)%nat ∧
              zeros_at (pre ++ 0 :: segs) cs' cl) as (cs' & -> & He' & Hc').
    { destruct (Nat.eqb_spec cl 0) as [->|Hn]; [|eauto]. eexists. split; [done|]. split; [lia|].
      split; [rewrite length_app; lia|done]. }
    pose proof (zeros_at_snoc _ _ _ _ Hc' He') as Hz. rewrite Hlen.
    destruct (bl <? S cl)%nat; rewrite Happ in *; apply IH; try done;
      intros _; rewrite length_app; simpl; lia.
  - rewrite Hlen, Happ in *. apply IH; [|done|done].
    split; [rewrite !length_app in *; destruct Hc as [Hc _]; rewrite !length_app in Hc; lia|done].
Qed.

Lemma zeros_at_split segs start len :
  zeros_at segs start len → segs = take start segs ++ replicate len 0 ++ drop (start + len) segs.
Proof.
  intros [Hle Ht]. rewrite <-(take_drop start segs) at 1. f_equal.
  rewrite <-Ht, <-drop_drop. by rewrite take_drop.
Qed.

(** ** IPv6 addresses *)
Definition addr_end (rest : string) : Prop := hex_stops rest ∧ ∀ r, rest ≠ String ":" r.

Definition show_ipv6_plain (segs : list Z) : string :=
  let '(start, len) := longest_zeroes segs 0 0 0 0 0 in
  if (1 <? len)%nat
  then show_groups (take start segs) +:+ "::" +:+ show_groups (drop (start + len) segs)
  else show_groups segs.

Lemma show_ipv6_cases gs :
  (∃ x y, gs = [0; 0; 0; 0; 0; 65535; x; y] ∧
     show_ipv6 gs = "::ffff:" +:+ show_ipv4 [x `div` 256; x `mod` 256; y `div` 256; y `mod` 256]) ∨
  show_ipv6 gs = show_ipv6_plain gs.
Proof.
  unfold show_ipv6.
  repeat match goal with
  | |- context [match ?x with _ => _ end] => is_var x; destruct x; try (right; reflexivity)
  end.
  left. eauto.
Qed.

Lemma read_ipv6_mapped x y rest :
  group x → group y → hex_stops rest →
  read_ipv6_addr (("::ffff:" +:+ show_ipv4 [x `div` 256; x `mod` 256; y `div` 256; y `mod` 256]) +:+ rest)
  = Some ([0; 0; 0; 0; 0; 65535; x; y], rest).
Proof.
  intros Hx Hy Hs. unfold group in *. rewrite str_app_assoc. set (text := show_ipv4 _ +:+ rest).
  unfold read_ipv6_addr.
  rewrite (read_groups_end 8 0 ("::ffff:" +:+ text)) by (split; [by split|done]).
  change ("::ffff:" +:+ text) with (String ":" (String ":" ("ffff:" +:+ text))).
  cbn [length Nat.eqb read_given_char Ascii.eqb Bool.eqb Nat.sub Nat.add].
  assert (read_ipv4_addr text = Some ([x `div` 256; x `mod` 256; y `div` 256; y `mod` 256], rest)) as Hv4.
  { apply read_octets_show; unfold octet; try lia. destruct rest; [done|]. destruct Hs as [Hs _].
    by apply to_digit_dec. }
  assert (read_groups 7 0 ("ffff:" +:+ text) = ([65535; x; y], true, rest)) as ->; [|done].
  change 7%nat with (S 6). cbn [read_groups].
  assert (read_separator ":" 0 read_ipv4_addr ("ffff:" +:+ text) = None) as -> by done.
  assert (read_separator ":" 0 (read_number true (Some 4%nat) true u16_max) ("ffff:" +:+ text)
          = Some (65535, ":" +:+ text)) as -> by done.
  assert (read_separator ":" 1 read_ipv4_addr (":" +:+ text) = read_ipv4_addr text) as -> by done.
  rewrite Hv4. cbn. repeat f_equal; lia.
Qed.

Lemma read_ipv6_plain gs rest :
  ipv6_ok gs → addr_end rest → read_ipv6_addr (show_ipv6_plain gs +:+ rest) = Some (gs, rest).
Proof.
  intros [Hlen Hgs] [Hs Hc]. unfold show_ipv6_plain, read_ipv6_addr.
  destruct (longest_zeroes gs 0 0 0 0 0) as [start len] eqn:Hz.
  apply (longest_zeroes_at gs [] 0 0 0 0) in Hz; [|split; [simpl; lia|done]|done|split; [simpl; lia|done]].
  simpl in Hz. destruct (Nat.ltb_spec 1 len) as [Hlt|Hle].
  2: { change (show_groups gs) with (groups_from 0 gs).
       rewrite (read_groups_show gs 8 0 rest) by (done || lia). by rewrite Hlen. }
  pose proof Hz as [Hle _]. apply zeros_at_split in Hz.
  set (hd := take start gs) in *. set (tl := drop (start + len) gs) in *.
  assert (length hd = start) as Hhd by (unfold hd; rewrite length_take; lia).
  assert (length tl = 8 - start - len)%nat as Htl by (unfold tl; rewrite length_drop; lia).
  rewrite !str_app_assoc. change ("::" +:+ ?t) with (String ":" (String ":" t)).
  set (after := String ":" (String ":" (show_groups tl +:+ rest))).
  change (show_groups hd) with (groups_from 0 hd).
  rewrite (read_groups_show hd 8 0 after);
    [|by apply Forall_take|lia|done|intros _; split; [done|by intros _ r [= <-]]].
  rewrite (proj2 (Nat.eqb_neq (length hd) 8)) by lia. cbn [after read_given_char Ascii.eqb Bool.eqb].
  change (read_given_char ":" after) with (Some ((), String ":" (show_groups tl +:+ rest))). cbn iota beta.
  change (read_given_char ":" (String ":" ?t)) with (Some ((), t)). cbn iota beta.
  change (show_groups tl) with (groups_from 0 tl).
  rewrite (read_groups_show tl _ 0 rest); [|by apply Forall_drop|lia|done|].
  - repeat f_equal. rewrite Hz. repeat f_equal. lia.
  - intros _. split; [done|]. intros _ r Hr. by destruct (Hc r).
Qed.

Lemma read_ipv6_show gs rest :
  ipv6_ok gs → addr_end rest → read_ipv6_addr (show_ipv6 gs +:+ rest) = Some (gs, rest).
Proof.
  intros Hok Hend. destruct (show_ipv6_cases gs) as [(x & y & -> & ->)| ->]; [|by apply read_ipv6_plain].
  destruct Hok as [_ Hgs]. repeat (apply Forall_cons in Hgs as [? Hgs]). destruct Hend.
  by apply read_ipv6_mapped.
Qed.

(** ** Socket addresses *)
Lemma read_digits_count hex acc n s v k r : read_digits hex acc n s = (v, k, r) → (n ≤ k)%nat.
Proof.
  revert acc n. induction s as [|a s IH]; intros acc n; simpl; [intros [= _ <- _]; done|].
  destruct (to_digit hex a); [intros ?%IH; lia|intros [= _ <- _]; done].
Qed.

Lemma read_decimal max n rest :
  0 ≤ n ≤ max → n < 10 ^ 20 → stops rest →
  read_number false None true max (show_uint n +:+ rest) = Some (n, rest).
Proof.
  intros Hn Hlt Hs. apply (read_number_local None true max (show_uint n) EmptyString rest); [done..|].
  rewrite str_app_nil_r. unfold read_number.
  destruct (parse_digits_read n 0 0 (show_uint n) n) as [k Hr].
  { unfold show_uint. rewrite parse_show_digits by lia. done. }
  rewrite Hr. destruct (show_digits_first 19 n EmptyString) as (d & s & Hd & Heq); [lia|].
  unfold show_uint in Hr. rewrite Heq in Hr. cbn [read_digits] in Hr. rewrite to_digit_char in Hr by done.
  apply read_digits_count in Hr. rewrite (proj2 (Nat.eqb_neq k 0)), (proj2 (Z.ltb_ge max n)) by lia. done.
Qed.

Lemma read_port_show n : 0 ≤ n ≤ u16_max → read_port (":" +:+ show_uint n) = Some (n, EmptyString).
Proof.
  intros Hn. unfold read_port. change (":" +:+ show_uint n) with (String ":" (show_uint n)).
  cbn [read_given_char Ascii.eqb Bool.eqb]. rewrite <-(str_app_nil_r (show_uint n)) at 1.
  apply read_decimal; unfold u16_max in *; simpl; try done; lia.
Qed.

Lemma read_scope_show n rest :
  0 ≤ n ≤ u32_max → stops rest → read_given_char "%" rest = None →
  read_scope_id ((if n =? 0 then EmptyString else "%" +:+ show_uint n) +:+ rest) = (n, rest).
Proof.
  intros Hn Hs Hp. unfold read_scope_id. destruct (Z.eqb_spec n 0) as [->|Hne].
  { change (EmptyString +:+ rest) with rest. by rewrite Hp. }
  change (("%" +:+ show_uint n) +:+ rest) with (String "%" (show_uint n +:+ rest)).
  cbn [read_given_char Ascii.eqb Bool.eqb]. rewrite read_decimal; unfold u32_max in *; done || lia.
Qed.

(** [FromStr] undoes [Display]. *)
Lemma socket_addr_round_trip a :
  socket_addr_ok a → socket_addr_from_str (show_socket_addr a) = Some a.
Proof.
  destruct a as [[os|gs] port scope]. all: intros [Hip Hport Hscope Hv4]; simpl in *.
  - rewrite (Hv4 os eq_refl) in *. unfold show_socket_addr, socket_addr_from_str, parse_all, read_socket_addr_v4.
    simpl. destruct Hip as [Hlen Hos]. destruct os as [|a [|b [|c [|d [|]]]]]; try done.
    repeat (apply Forall_cons in Hos as [? Hos]).
    rewrite read_octets_show by done. by rewrite read_port_show.
  - unfold show_socket_addr, socket_addr_from_str, parse_all.
    cbn [sock_ip sock_port sock_scope]. set (inner := show_ipv6 gs +:+ _).
    change ("[" +:+ inner) with (String "[" inner).
    assert (read_socket_addr_v4 (String "[" inner) = None) as -> by done.
    unfold read_socket_addr_v6. cbn [read_given_char Ascii.eqb Bool.eqb]. unfold inner.
    rewrite read_ipv6_show; [|done|by destruct (scope =? 0); repeat split].
    rewrite read_scope_show by done. change ("]:" +:+ ?t) with (String "]" (":" +:+ t)).
    cbn [read_given_char Ascii.eqb Bool.eqb]. by rewrite read_port_show.
Qed.

(** ** What is parsed is well formed *)
Lemma read_digits_nonneg hex acc n s v k r : 0 ≤ acc → read_digits hex acc n s = (v, k, r) → 0 ≤ v.
Proof.
  revert acc n. induction s as [|a s IH]; intros acc n Hacc; simpl; [intros [= <- _ _]; done|].
  destruct (to_digit hex a) as [d|] eqn:Hd; [|intros [= <- _ _]; done]. apply IH.
  unfold to_digit in Hd. repeat case_match; simplify_eq; lia.
Qed.

Lemma read_number_range hex md z max s v r : read_number hex md z max s = Some (v, r) → 0 ≤ v ≤ max.
Proof.
  intros (k & Hd & Hle)%read_number_inv. split; [|done]. by eapply read_digits_nonneg in Hd.
Qed.

Lemma read_separator_inv {A} sep i (p : parser A) s v r :
  read_separator sep i p s = Some (v, r) → ∃ s', p s' = Some (v, r).
Proof. unfold read_separator. destruct i; [eauto|]. destruct (read_given_char _ _) as [[[] s']|]; [eauto|done]. Qed.

Lemma read_octets_ok n i s os r :
  read_octets n i s = Some (os, r) → length os = n ∧ Forall octet os.
Proof.
  revert i s os r. induction n as [|n IH]; intros i s os r; cbn [read_octets].
  { intros [= <- _]. by split. }
  destruct (read_separator _ _ _ s) as [[o s']|] eqn:Ho; [|done].
  destruct (read_octets n (S i) s') as [[os' s'']|] eqn:Hos; [|done]. intros [= <- _].
  apply IH in Hos as [<- Hos]. split; [done|]. constructor; [|done].
  apply read_separator_inv in Ho as [t Ht]. apply read_number_range in Ht. unfold octet. lia.
Qed.

Lemma read_groups_ok left i s gs b r :
  read_groups left i s = (gs, b, r) → (length gs ≤ left)%nat ∧ Forall group gs.
Proof.
  revert i s gs b r. induction left as [|k IH]; intros i s gs b r; cbn [read_groups].
  { intros [= <- _ _]. by split. }
  destruct (if (1 <? S k)%nat then read_separator ":" i read_ipv4_addr s else None) as [[os s']|] eqn:Hv4.
  - destruct (1 <? S k)%nat eqn:Hk; [|done]. apply Nat.ltb_lt in Hk.
    apply read_separator_inv in Hv4 as [t [Hlen Hos]%read_octets_ok]. intros [= <- _ _].
    split; [simpl; lia|]. destruct os as [|a [|b' [|c [|d [|]]]]]; try done.
    repeat (apply Forall_cons in Hos as [? Hos]). unfold octet in *. repeat constructor; simpl; unfold group; lia.
  - destruct (read_separator ":" i (read_number true (Some 4%nat) true u16_max) s) as [[g s']|] eqn:Hg;
      [|intros [= <- Hb Hr]; split; [simpl; lia|done]].
    destruct (read_groups k (S i) s') as [[gs' v4] s''] eqn:Hgs. intros [= <- _ _].
    apply IH in Hgs as [Hlen Hgs]. split; [simpl; lia|]. constructor; [|done].
    apply read_separator_inv in Hg as [t Ht%read_number_range]. unfold group, u16_max in *. lia.
Qed.

Lemma read_ipv6_ok s gs r : read_ipv6_addr s = Some (gs, r) → ipv6_ok gs.
Proof.
  unfold read_ipv6_addr. destruct (read_groups 8 0 s) as [[hd v4] s1] eqn:Hh.
  apply read_groups_ok in Hh as [Hl Hh]. destruct (Nat.eqb_spec (length hd) 8); [by intros [= <- _]|].
  destruct v4; [done|]. destruct (read_given_char ":" s1) as [[[] s2]|]; [|done].
  destruct (read_given_char ":" s2) as [[[] s3]|]; [|done].
  destruct (read_groups _ 0 s3) as [[tl b] s4] eqn:Ht. apply read_groups_ok in Ht as [Hlt Ht]. intros [= <- _].
  split; [rewrite !length_app, length_replicate; lia|].
  apply Forall_app. split; [done|]. apply Forall_app. split; [|done]. apply Forall_replicate. done.
Qed.

Lemma read_port_range s v r : read_port s = Some (v, r) → 0 ≤ v ≤ u16_max.
Proof. unfold read_port. destruct (read_given_char ":" s) as [[[] s']|]; [apply read_number_range|done]. Qed.

Lemma read_scope_range s v r : read_scope_id s = (v, r) → 0 ≤ v ≤ u32_max.
Proof.
  unfold read_scope_id, u32_max. destruct (read_given_char "%" s) as [[[] s']|]; [|intros [= <- _]; lia].
  destruct (read_number _ _ _ _ s') as [[v' s'']|] eqn:Hn; [|intros [= <- _]; lia].
  intros [= <- _]. by apply read_number_range in Hn.
Qed.

Lemma socket_addr_from_str_ok s a : socket_addr_from_str s = Some a → socket_addr_ok a.
Proof.
  unfold socket_addr_from_str, parse_all. destruct (read_socket_addr_v4 s) as [[a' r]|] eqn:H4.
  - intros Hr. assert (a' = a) as -> by (by destruct r; simplify_eq). unfold read_socket_addr_v4 in H4.
    destruct (read_ipv4_addr s) as [[os s1]|] eqn:Hos; [|done].
    destruct (read_port s1) as [[port s2]|] eqn:Hp; [|done]. injection H4 as <- _.
    split; simpl; [by eapply read_octets_ok|by eapply read_port_range|unfold u32_max; lia|done].
  - destruct (read_socket_addr_v6 s) as [[a' r]|] eqn:H6; [|done].
    intros Hr. assert (a' = a) as -> by (by destruct r; simplify_eq). unfold read_socket_addr_v6 in H6.
    destruct (read_given_char "[" s) as [[[] s1]|]; [|done].
    destruct (read_ipv6_addr s1) as [[gs s2]|] eqn:Hgs; [|done].
    destruct (read_scope_id s2) as [scope s3] eqn:Hsc.
    destruct (read_given_char "]" s3) as [[[] s4]|]; [|done].
    destruct (read_port s4) as [[port s5]|] eqn:Hp; [|done]. injection H6 as <- _.
    split; simpl; [by eapply read_ipv6_ok|by eapply read_port_range|by eapply read_scope_range|done].
Qed.
