(* ===== verification/Forwarding.v ===== *)
(** * Identities and the forwarding policy (auth/identity.rs, transport/mod.rs,
    config/forwarding.rs)

    A policy is an ordered list of rules over host patterns, principals and
    transports.  [ipnetwork] is an interface; parsing of IP literals is [Net]. *)
From S2P Require Import Prelude RustStd Net.
From Stdlib Require Import Ascii.
Open Scope Z_scope.

(** ** Identities and transports *)
Record Identity := mkIdentity {
  id : string;
  scopes : list string;
  resources : gmap string (list string);
}.
#[export] Instance Identity_eq_dec : EqDecision Identity.
Proof. solve_decision. Defined.

Inductive TransportKind :=
| Tcp
| Tls (server_name : option string)
| Iroh (endpoint_id : string)
| WebTransport (server_name : option string).
#[export] Instance TransportKind_eq_dec : EqDecision TransportKind.
Proof. solve_decision. Defined.

Definition show_transport (t : TransportKind) : string :=
  match t with
  | Tcp => "tcp"
  | Tls _ => "tls"
  | Iroh _ => "iroh"
  | WebTransport _ => "webtransport"
  end.

Record TransportInfo := mkTransportInfo {
  remote_addr : option SocketAddr;
  transport_kind : TransportKind;
}.

(** ** Reserved names (server/control_channel.rs) *)
Definition ALKNET_PREFIX : string := "alknet-".
Definition ALKNET_CONTROL_DESTINATION : string := "alknet-control".
Definition is_reserved_destination (dest : string) : bool := starts_with ALKNET_PREFIX dest.

(** ** Policies *)
Class IpNetworkLib := {
  IpNetwork : Type;
  network_contains : IpNetwork → IpAddr → bool;
  network_from_str : string → option IpNetwork;
}.

Inductive ForwardingAction := Allow | Deny.
#[export] Instance ForwardingAction_eq_dec : EqDecision ForwardingAction.
Proof. solve_decision. Defined.

Inductive TargetPattern `{IpNetworkLib} :=
| AnyTarget
| Host (pattern : string)
| Cidr (network : IpNetwork)
| PortRange (pattern : string) (start end_ : Z)
| AlknetPrefix.

(** Only the first [*] of a pattern is a wildcard. *)
Definition match_host_pattern (pattern target : string) : bool :=
  if String.eqb pattern target then true
  else
    match split_once "*" pattern with
    | Some (prefix, suffix) =>
        starts_with prefix target && ends_with suffix target
        && (String.length prefix + String.length suffix <=? String.length target)%nat
    | None => false
    end.

Section Policy.
Context `{IpNetworkLib}.

Definition match_cidr (network : IpNetwork) (target : string) : bool :=
  match ip_from_str target with
  | None => false
  | Some addr => network_contains network addr
  end.

Definition pattern_matches (p : TargetPattern) (target : string) (port : Z) : bool :=
  match p with
  | AnyTarget => true
  | Host pattern => match_host_pattern pattern target
  | Cidr network => match_cidr network target
  | PortRange pattern start end_ =>
      match_host_pattern pattern target && ((start <=? port) && (port <? end_))
  | AlknetPrefix => starts_with ALKNET_PREFIX target
  end.

Record ForwardingRule := mkForwardingRule {
  rule_target : TargetPattern;
  rule_action : ForwardingAction;
  rule_principals : list string;
  rule_transports : list TransportKind;
}.

Definition matches_principal (r : ForwardingRule) (identity : Identity) : bool :=
  match rule_principals r with
  | [] => true
  | ps => existsb (λ p, String.eqb p (id identity) || bool_decide (p ∈ scopes identity)) ps
  end.

Definition matches_transport (r : ForwardingRule) (transport : TransportKind) : bool :=
  match rule_transports r with
  | [] => true
  | ts => bool_decide (transport ∈ ts)
  end.

Record ForwardingPolicy := mkForwardingPolicy {
  policy_default : ForwardingAction;
  policy_rules : list ForwardingRule;
}.

Definition allow_all : ForwardingPolicy := mkForwardingPolicy Allow [].
Definition deny_all : ForwardingPolicy := mkForwardingPolicy Deny [].

Definition rule_applies (r : ForwardingRule) (target : string) (port : Z) (identity : Identity)
    (transport : TransportKind) : bool :=
  pattern_matches (rule_target r) target port
  && matches_principal r identity
  && matches_transport r transport.

Definition is_allow (a : ForwardingAction) : bool :=
  match a with Allow => true | Deny => false end.

Fixpoint check_rules (rules : list ForwardingRule) (default : ForwardingAction)
    (target : string) (port : Z) (identity : Identity) (transport : TransportKind) : bool :=
  match rules with
  | [] => is_allow default
  | r :: rules' =>
      if rule_applies r target port identity transport then is_allow (rule_action r)
      else check_rules rules' default target port identity transport
  end.

Definition policy_check (p : ForwardingPolicy) (target : string) (port : Z) (identity : Identity)
    (transport : TransportKind) : bool :=
  check_rules (policy_rules p) (policy_default p) target port identity transport.

(** ** What the policy means *)

(** A host pattern is a literal, or a prefix and a suffix around one wildcard
    that stands for any text. *)
Inductive host_glob : string → string → Prop :=
| glob_literal s : host_glob s s
| glob_star prefix suffix mid :
    contains_char "*" prefix = false →
    host_glob (prefix +:+ String "*" suffix) (prefix +:+ mid +:+ suffix).

Inductive target_in : TargetPattern → string → Z → Prop :=
| in_any target port : target_in AnyTarget target port
| in_host pattern target port : host_glob pattern target → target_in (Host pattern) target port
| in_cidr network target port addr :
    ip_from_str target = Some addr → network_contains network addr = true →
    target_in (Cidr network) target port
| in_range pattern target port start end_ :
    host_glob pattern target → start ≤ port < end_ →
    target_in (PortRange pattern start end_) target port
| in_reserved rest port : target_in AlknetPrefix (ALKNET_PREFIX +:+ rest) port.

Definition rule_covers (r : ForwardingRule) (target : string) (port : Z) (identity : Identity)
    (transport : TransportKind) : Prop :=
  target_in (rule_target r) target port
  ∧ (rule_principals r = []
     ∨ ∃ p, p ∈ rule_principals r ∧ (p = id identity ∨ p ∈ scopes identity))
  ∧ (rule_transports r = [] ∨ transport ∈ rule_transports r).

Lemma match_host_pattern_spec pattern target :
  match_host_pattern pattern target = true ↔ host_glob pattern target.
Proof.
  unfold match_host_pattern. destruct (String.eqb_spec pattern target) as [->|Hne].
  { split; [constructor|done]. }
  destruct (split_once "*" pattern) as [[prefix suffix]|] eqn:Hs.
  - apply split_once_spec in Hs as [-> Hno].
    rewrite !andb_true_iff, Nat.leb_le. split.
    + intros [[Hp Hsuf] Hlen].
      apply starts_with_spec in Hp as [r ->]. apply ends_with_spec in Hsuf as [l Hl].
      rewrite !str_length_app in Hlen.
      destruct (str_suffix_split prefix r l suffix) as [mid ->]; [done|lia|].
      by constructor.
    + inversion 1 as [|p s mid Hno' Heq]; simplify_eq.
      destruct (split_once_inj "*" p s prefix suffix) as [-> ->]; [done..|].
      rewrite starts_with_app, !str_length_app. split_and!; [done| |lia].
      apply ends_with_spec. exists (prefix +:+ mid). by rewrite str_app_assoc.
  - split; [done|]. inversion 1 as [|p s mid Hno' Heq]; simplify_eq.
    assert (split_once "*" (p +:+ String "*" s) = Some (p, s)) as Hs'
      by (by apply split_once_spec).
    congruence.
Qed.

Lemma pattern_matches_spec p target port :
  pattern_matches p target port = true ↔ target_in p target port.
Proof.
  destruct p as [|pattern|network|pattern start end_|]; cbn [pattern_matches].
  - split; [constructor|done].
  - rewrite match_host_pattern_spec. split; [by constructor|by inversion 1].
  - unfold match_cidr. destruct (ip_from_str target) as [addr|] eqn:Ha.
    + split; [by econstructor|]. inversion 1; by simplify_eq.
    + split; [done|]. inversion 1; by simplify_eq.
  - rewrite andb_true_iff, match_host_pattern_spec, andb_true_iff, Z.leb_le, Z.ltb_lt.
    split; [intros [? ?]; by constructor|by inversion 1].
  - rewrite starts_with_spec. split; [intros [r ->]; constructor|inversion 1; eauto].
Qed.

Lemma rule_applies_spec r target port identity transport :
  rule_applies r target port identity transport = true ↔
  rule_covers r target port identity transport.
Proof.
  unfold rule_applies, rule_covers. rewrite !andb_true_iff, pattern_matches_spec.
  assert (matches_principal r identity = true ↔
    rule_principals r = [] ∨ ∃ p, p ∈ rule_principals r ∧ (p = id identity ∨ p ∈ scopes identity))
    as ->.
  { unfold matches_principal. destruct (rule_principals r) as [|p ps] eqn:Hps; [naive_solver|].
    rewrite <-Hps, existsb_exists. setoid_rewrite orb_true_iff.
    setoid_rewrite String.eqb_eq. setoid_rewrite bool_decide_eq_true.
    setoid_rewrite <-list_elem_of_In. split; [by right|]. intros [?|?]; [congruence|done]. }
  assert (matches_transport r transport = true ↔
    rule_transports r = [] ∨ transport ∈ rule_transports r) as ->.
  { unfold matches_transport. destruct (rule_transports r); [naive_solver|].
    rewrite bool_decide_eq_true. naive_solver. }
  tauto.
Qed.

Lemma check_rules_first rules d target port identity transport r l1 l2 :
  rules = l1 ++ r :: l2 →
  Forall (λ r', rule_applies r' target port identity transport = false) l1 →
  rule_applies r target port identity transport = true →
  check_rules rules d target port identity transport = is_allow (rule_action r).
Proof.
  intros -> Hl1 Hr. induction Hl1 as [|r' l1 Hr' _ IH]; simpl; [by rewrite Hr|by rewrite Hr'].
Qed.

Lemma check_rules_none rules d target port identity transport :
  Forall (λ r', rule_applies r' target port identity transport = false) rules →
  check_rules rules d target port identity transport = is_allow d.
Proof. induction 1 as [|r rules Hr _ IH]; simpl; [done|]. by rewrite Hr. Qed.
End Policy.

(** ** Properties *)
Section PolicyProperties.
Context `{IpNetworkLib}.

(** C2: The forwarding decision is that of the first rule, in order, whose
    target pattern, principals and transports all cover the request; the
    default decides when no rule does. *)
Theorem policy_first_match p target port identity transport :
  (policy_check p target port identity transport = true ↔
   (∃ l1 r l2, policy_rules p = l1 ++ r :: l2
      ∧ rule_covers r target port identity transport
      ∧ Forall (λ r', ¬ rule_covers r' target port identity transport) l1
      ∧ rule_action r = Allow)
   ∨ (Forall (λ r', ¬ rule_covers r' target port identity transport) (policy_rules p)
      ∧ policy_default p = Allow)).
Proof.
  assert (∀ l, Forall (λ r', ¬ rule_covers r' target port identity transport) l ↔
    Forall (λ r', rule_applies r' target port identity transport = false) l) as Hiff.
  { intros l. rewrite !Forall_forall. setoid_rewrite <-rule_applies_spec.
    by setoid_rewrite not_true_iff_false. }
  setoid_rewrite Hiff. setoid_rewrite <-rule_applies_spec. unfold policy_check.
  assert (∀ a, is_allow a = true ↔ a = Allow) as Ha by (by intros []).
  destruct (find_first (λ r, rule_applies r target port identity transport) (policy_rules p))
    as [r|] eqn:Hf.
  - apply find_first_Some in Hf as (l1 & l2 & Hl & Hr & Hl1).
    rewrite (check_rules_first _ _ _ _ _ _ r l1 l2), Ha by done. split; [naive_solver|].
    intros [(m1 & r' & m2 & Hl' & Hr' & Hm1 & <-)|[Hall _]].
    + assert (find_first (λ r, rule_applies r target port identity transport) (policy_rules p)
              = Some r') as H1 by (apply find_first_Some; eauto).
      assert (find_first (λ r, rule_applies r target port identity transport) (policy_rules p)
              = Some r) as H2 by (apply find_first_Some; eauto).
      congruence.
    + apply find_first_None in Hall.
      assert (find_first (λ r, rule_applies r target port identity transport) (policy_rules p)
              = Some r) as H2 by (apply find_first_Some; eauto).
      congruence.
  - apply find_first_None in Hf. rewrite check_rules_none, Ha by done. split; [naive_solver|].
    intros [(m1 & r' & m2 & Hl' & Hr' & _)|[_ ?]]; [|done].
    rewrite Hl' in Hf. apply Forall_app in Hf as [_ Hf].
    apply Forall_cons in Hf as [? _]. congruence.
Qed.
End PolicyProperties.
