(* ===== verification/Transports.v ===== *)
(** * Transports (transport/mod.rs, tcp.rs, tls.rs, acme.rs, iroh_transport.rs)

    What each transport and acceptor is made of and the order in which it calls
    tokio, rustls, rustls-acme and iroh, which are the interface
    [TransportLib].  The two traits are the classes [Transport] and
    [TransportAcceptor].  The value of a rustls [ClientConfig] is the choice of
    verifier its builder was given.  [acceptor_step] is the acceptor whose
    handshake is part of [accept]. *)
From S2P Require Import Prelude RustStd Net NetShow Forwarding.
From Stdlib Require Import Strings.Byte.
Open Scope Z_scope.

(** How a TLS client checks the server's certificate. *)
Inductive TrustAnchor (Cert : Type) := WebpkiRoots | AddedRoot (c : Cert).
Arguments WebpkiRoots {Cert}.
Arguments AddedRoot {Cert} c.
(** rustls's trait for a custom verifier, and the names of its schemes. *)
Inductive SignatureScheme :=
| ECDSA_NISTP256_SHA256 | ECDSA_NISTP384_SHA384 | ECDSA_NISTP521_SHA512 | ED25519
| RSA_PSS_SHA256 | RSA_PSS_SHA384 | RSA_PSS_SHA512
| RSA_PKCS1_SHA256 | RSA_PKCS1_SHA384 | RSA_PKCS1_SHA512.
#[export] Instance SignatureScheme_eq_dec : EqDecision SignatureScheme.
Proof. solve_decision. Defined.
Record ServerCertVerifier (Cert Name : Type) := mkVerifier {
  verify_server_cert : Cert → list Cert → Name → result unit string;
  verify_tls12_signature : list byte → Cert → list byte → result unit string;
  verify_tls13_signature : list byte → Cert → list byte → result unit string;
  supported_verify_schemes : list SignatureScheme;
}.
Arguments mkVerifier {Cert Name}.
Arguments verify_server_cert {Cert Name}.
Arguments verify_tls12_signature {Cert Name}.
Arguments verify_tls13_signature {Cert Name}.
Arguments supported_verify_schemes {Cert Name}.

Inductive ClientConfig (Cert Name : Type) :=
| CustomVerifier (v : ServerCertVerifier Cert Name)
| VerifyAgainst (roots : list (TrustAnchor Cert)).
Arguments CustomVerifier {Cert Name} v.
Arguments VerifyAgainst {Cert Name} roots.

(** [NoVerifier] asserts what it is asked; only its list of schemes says no. *)
Definition NoVerifier {Cert Name} : ServerCertVerifier Cert Name :=
  mkVerifier (λ _ _ _, Ok ()) (λ _ _ _, Ok ()) (λ _ _ _, Ok ())
    [ECDSA_NISTP256_SHA256; ECDSA_NISTP384_SHA384; ED25519; RSA_PSS_SHA256; RSA_PSS_SHA384; RSA_PSS_SHA512].

(** What [Endpoint::builder] is given. *)
Record EndpointOptions (Relay Url : Type) := mkEndpointOptions {
  ep_relay : Relay;
  ep_alpns : list (list byte);
  ep_proxy : option Url;
}.
Arguments mkEndpointOptions {Relay Url}.

(** tokio, rustls, rustls-acme and iroh; an error is its message. *)
Class TransportLib := {
  TcpStream : Type;
  tcp_connect : SocketAddr → result TcpStream string;
  (** [TcpListener::bind] and [local_addr]. *)
  tcp_bind : SocketAddr → result SocketAddr string;
  CertificateDer : Type;
  PrivateKeyDer : Type;
  ServerName : Type;
  TlsStream : Type;
  server_name_try_from : string → result ServerName string;
  root_store_add : CertificateDer → result unit string;
  with_single_cert : list CertificateDer → PrivateKeyDer → result unit string;
  with_safe_default_protocol_versions : result unit string;
  tls_connect : ClientConfig CertificateDer ServerName → ServerName → TcpStream → result TlsStream string;
  (** A server's side of a TLS session, and the SNI name of its peer. *)
  TlsServerStream : Type;
  tls_server_name : TlsServerStream → option string;
  pem_certs : list byte → result (list CertificateDer) string;
  pem_private_key : list byte → result (option PrivateKeyDer) string;
  LETS_ENCRYPT_STAGING_DIRECTORY : string;
  LETS_ENCRYPT_PRODUCTION_DIRECTORY : string;
  NodeId : Type;
  RelayUrl : Type;
  Url : Type;
  Endpoint : Type;
  Connection : Type;
  BiStream : Type;
  node_id_from_str : string → result NodeId string;
  relay_url_from_str : string → result RelayUrl string;
  url_from_str : string → result Url string;
  node_id_to_z32 : NodeId → string;
  endpoint_bind : EndpointOptions RelayUrl Url → result Endpoint string;
  endpoint_node_id : Endpoint → NodeId;
  endpoint_connect : Endpoint → NodeId → list byte → result Connection string;
  open_bi : Connection → result BiStream string;
  accept_bi : Connection → result BiStream string;
  remote_node_id : Connection → result NodeId string;
}.

(** ** The traits (transport/mod.rs) *)
Class Transport (T : Type) := {
  transport_stream : Type;
  transport_connect : T → result transport_stream string;
  transport_describe : T → string;
}.

(** [offer] is what the network does during one call of [accept]. *)
Class TransportAcceptor (A : Type) := {
  acceptor_stream : Type;
  offer : Type;
  accept : A → offer → result (acceptor_stream * TransportInfo) string;
}.

Section Transports.
Context `{T : TransportLib}.

(** ** TCP *)
Record TcpTransport := mkTcpTransport { tt_addr : SocketAddr }.
Definition tcp_transport_connect (t : TcpTransport) : result TcpStream string := tcp_connect (tt_addr t).
Definition tcp_describe (t : TcpTransport) : string := "tcp://" +:+ show_socket_addr (tt_addr t).

Record TcpAcceptor := mkTcpAcceptor { ta_listen_addr : SocketAddr }.
Definition tcp_acceptor_bind (addr : SocketAddr) : result TcpAcceptor string :=
  let? listen_addr := tcp_bind addr in Ok (mkTcpAcceptor listen_addr).
Definition tcp_accept (a : TcpAcceptor) (accepted : result (TcpStream * SocketAddr) string)
    : result (TcpStream * TransportInfo) string :=
  let? (stream, remote) := accepted in Ok (stream, mkTransportInfo (Some remote) Tcp).

#[export] Instance tcp_transport : Transport TcpTransport :=
  {| transport_connect := tcp_transport_connect; transport_describe := tcp_describe |}.
#[export] Instance tcp_transport_acceptor : TransportAcceptor TcpAcceptor := {| accept := tcp_accept |}.

(** ** TLS *)
Record TlsTransport := mkTlsTransport {
  tl_addr : SocketAddr;
  tl_server_name : option string;
  tl_insecure : bool;
  tl_root_cert : option CertificateDer;
}.
Definition TlsTransport_new (addr : SocketAddr) : TlsTransport := mkTlsTransport addr None false None.
Definition with_server_name (t : TlsTransport) (name : string) : TlsTransport :=
  mkTlsTransport (tl_addr t) (Some name) (tl_insecure t) (tl_root_cert t).
Definition with_insecure (t : TlsTransport) (insecure : bool) : TlsTransport :=
  mkTlsTransport (tl_addr t) (tl_server_name t) insecure (tl_root_cert t).
Definition with_root_cert (t : TlsTransport) (cert : CertificateDer) : TlsTransport :=
  mkTlsTransport (tl_addr t) (tl_server_name t) (tl_insecure t) (Some cert).

Definition build_client_config (t : TlsTransport) : result (ClientConfig CertificateDer ServerName) string :=
  if tl_insecure t then Ok (CustomVerifier NoVerifier)
  else
    match tl_root_cert t with
    | Some cert => let? _ := root_store_add cert in Ok (VerifyAgainst [WebpkiRoots; AddedRoot cert])
    | None => Ok (VerifyAgainst [WebpkiRoots])
    end.

Definition resolve_server_name (t : TlsTransport) : result ServerName string :=
  let name := match tl_server_name t with Some n => n | None => show_ip (sock_ip (tl_addr t)) end in
  map_err (λ e, "invalid server name '" +:+ name +:+ "': " +:+ e) (server_name_try_from name).

Definition tls_transport_connect (t : TlsTransport) : result TlsStream string :=
  let? tcp_stream := tcp_connect (tl_addr t) in
  let? config := build_client_config t in
  let? server_name := resolve_server_name t in
  tls_connect config server_name tcp_stream.
Definition tls_describe (t : TlsTransport) : string := "tls://" +:+ show_socket_addr (tl_addr t).

(** A server's certificate: fixed, or resolved by ACME with its ALPN name. *)
Inductive ServerConfig :=
| SingleCert (certs : list CertificateDer) (key : PrivateKeyDer)
| AcmeResolved (domains : list string) (alpn_protocols : list (list byte)).

Record TlsAcceptor := mkTlsAcceptor { la_listen_addr : SocketAddr; la_server_config : ServerConfig }.

Definition tls_acceptor_bind (addr : SocketAddr) (tls_certs : list CertificateDer) (tls_key : PrivateKeyDer)
    : result TlsAcceptor string :=
  let? listen_addr := tcp_bind addr in
  let? _ := with_single_cert tls_certs tls_key in
  Ok (mkTlsAcceptor listen_addr (SingleCert tls_certs tls_key)).

(** The TCP connection, and the outcome of the TLS handshake on it. *)
Definition tls_accept (a : TlsAcceptor)
    (o : result (TcpStream * SocketAddr) string * (TcpStream → result TlsServerStream string))
    : result (TlsServerStream * TransportInfo) string :=
  let '(accepted, handshake) := o in
  let? (tcp_stream, remote) := accepted in
  let? tls_stream := handshake tcp_stream in
  Ok (tls_stream, mkTransportInfo (Some remote) (Tls (tls_server_name tls_stream))).

#[export] Instance tls_transport : Transport TlsTransport :=
  {| transport_connect := tls_transport_connect; transport_describe := tls_describe |}.
#[export] Instance tls_transport_acceptor : TransportAcceptor TlsAcceptor := {| accept := tls_accept |}.

(** ** ACME *)
Definition ACME_TLS_ALPN_NAME : list byte := bytes_of "acme-tls/1".
Inductive AcmeMode := AcmeDomain (domain : string) | AcmeIp.
Record AcmeCertProvider := mkAcmeProvider {
  ap_mode : AcmeMode;
  ap_cache_dir : option string;
  ap_directory_url : string;
  ap_contact : list string;
}.
Definition AcmeCertProvider_new (mode : AcmeMode) : AcmeCertProvider :=
  mkAcmeProvider mode None LETS_ENCRYPT_STAGING_DIRECTORY [].
Definition acme_domain (domain : string) : AcmeCertProvider := AcmeCertProvider_new (AcmeDomain domain).
Definition acme_ip : AcmeCertProvider := AcmeCertProvider_new AcmeIp.
Definition with_cache_dir (p : AcmeCertProvider) (dir : string) : AcmeCertProvider :=
  mkAcmeProvider (ap_mode p) (Some dir) (ap_directory_url p) (ap_contact p).
Definition with_directory (p : AcmeCertProvider) (url : string) : AcmeCertProvider :=
  mkAcmeProvider (ap_mode p) (ap_cache_dir p) url (ap_contact p).
Definition with_production_directory (p : AcmeCertProvider) : AcmeCertProvider :=
  mkAcmeProvider (ap_mode p) (ap_cache_dir p) LETS_ENCRYPT_PRODUCTION_DIRECTORY (ap_contact p).
Definition with_contact (p : AcmeCertProvider) (contact : string) : AcmeCertProvider :=
  mkAcmeProvider (ap_mode p) (ap_cache_dir p) (ap_directory_url p) (ap_contact p ++ [contact]).

(** What rustls-acme's state is built from. *)
Record AcmeState := mkAcmeState {
  as_domains : list string;
  as_directory : string;
  as_contact : list string;
  as_cache : option string;
}.
Definition build_acme_state (p : AcmeCertProvider) : AcmeState :=
  mkAcmeState match ap_mode p with AcmeDomain domain => [domain] | AcmeIp => [] end
    (ap_directory_url p) (ap_contact p) (ap_cache_dir p).
Definition build_server_config_with_resolver (p : AcmeCertProvider) : result ServerConfig string :=
  let? _ := map_err (λ e, "failed to set protocol versions: " +:+ e) with_safe_default_protocol_versions in
  Ok (AcmeResolved (as_domains (build_acme_state p)) [ACME_TLS_ALPN_NAME]).

(** [spawn_state_worker]: the task takes the events of the ACME state, each with
    the number of references to the resolver at its end, and stops when it holds
    the last one.  The result is what it logs, and whether it has ended. *)
Inductive AcmeEvent := DeployedNewCert | EventOk (debug : string) | EventErr (debug : string).
Definition acme_log (e : AcmeEvent) : string :=
  match e with
  | DeployedNewCert => "ACME: new certificate deployed"
  | EventOk debug => "ACME event: " +:+ debug
  | EventErr debug => "ACME event error: " +:+ debug
  end.
Fixpoint state_worker (events : list (AcmeEvent * nat)) : list string * bool :=
  match events with
  | [] => ([], false)
  | (e, strong_count) :: events =>
      if (strong_count =? 1)%nat
      then ([acme_log e; "ACME resolver dropped, stopping background task"], true)
      else let '(logs, ended) := state_worker events in (acme_log e :: logs, ended)
  end.

(** [AcmeTlsAcceptor::bind_acme], and the state its worker was spawned with. *)
Definition bind_acme (addr : SocketAddr) (p : AcmeCertProvider) : option AcmeState * result TlsAcceptor string :=
  match build_server_config_with_resolver p with
  | Err e => (None, Err e)
  | Ok server_config =>
      (Some (build_acme_state p), let? listen_addr := tcp_bind addr in Ok (mkTlsAcceptor listen_addr server_config))
  end.

(** [TlsAcceptor::bind_acme] binds first; [resolver] is the domains that the
    certificate resolver it is given answers for. *)
Definition tls_bind_acme (addr : SocketAddr) (resolver : list string) : result TlsAcceptor string :=
  let? listen_addr := tcp_bind addr in
  let? _ := map_err (λ e, "failed to set protocol versions: " +:+ e) with_safe_default_protocol_versions in
  Ok (mkTlsAcceptor listen_addr (AcmeResolved resolver [ACME_TLS_ALPN_NAME])).

(** ** iroh *)
Definition ALPN : list byte := bytes_of "alknet-ssh".
Definition DEFAULT_RELAY_URL : string := "https://relay.iroh.network/".

Record IrohTransport := mkIrohTransport { it_node_id : NodeId; it_endpoint : Endpoint; it_owned : bool }.
Record IrohAcceptor := mkIrohAcceptor { ia_endpoint : Endpoint; ia_owned : bool }.

(** The options both constructors bind with; [expect] on the default URL. *)
Definition iroh_options (relay_url : option RelayUrl) (proxy_url : option Url)
    : outcome (EndpointOptions RelayUrl Url) :=
  match relay_url with
  | Some relay => Ret (mkEndpointOptions relay [ALPN] proxy_url)
  | None =>
      match relay_url_from_str DEFAULT_RELAY_URL with
      | Ok relay => Ret (mkEndpointOptions relay [ALPN] proxy_url)
      | Err _ => Panic
      end
  end.

Definition IrohTransport_new (node_id : NodeId) (relay_url : option RelayUrl) (proxy_url : option Url)
    : outcome (result IrohTransport string) :=
  let! options := iroh_options relay_url proxy_url in
  Ret (let? endpoint := endpoint_bind options in Ok (mkIrohTransport node_id endpoint true)).
Definition iroh_transport_from_endpoint (node_id : NodeId) (endpoint : Endpoint) : IrohTransport :=
  mkIrohTransport node_id endpoint false.
Definition iroh_transport_connect (t : IrohTransport) : result BiStream string :=
  let? conn := endpoint_connect (it_endpoint t) (it_node_id t) ALPN in open_bi conn.
Definition iroh_describe (t : IrohTransport) : string := "iroh://" +:+ node_id_to_z32 (it_node_id t).

Definition iroh_acceptor_bind (relay_url : option RelayUrl) (proxy_url : option Url)
    : outcome (result IrohAcceptor string) :=
  let! options := iroh_options relay_url proxy_url in
  Ret (let? endpoint := endpoint_bind options in Ok (mkIrohAcceptor endpoint true)).
Definition iroh_acceptor_from_endpoint (endpoint : Endpoint) : IrohAcceptor := mkIrohAcceptor endpoint false.
Definition iroh_endpoint_id (a : IrohAcceptor) : string := node_id_to_z32 (endpoint_node_id (ia_endpoint a)).

(** An incoming connection, none when the endpoint is closed, and the outcome
    of its handshake; then the peer's id, and its stream. *)
Definition iroh_accept (a : IrohAcceptor) (incoming : option (result Connection string))
    : result (BiStream * TransportInfo) string :=
  let? connecting := ok_or incoming "endpoint closed" in
  let? conn := connecting in
  let? node_id := remote_node_id conn in
  let? stream := accept_bi conn in
  Ok (stream, mkTransportInfo None (Iroh (node_id_to_z32 node_id))).

#[export] Instance iroh_transport : Transport IrohTransport :=
  {| transport_connect := iroh_transport_connect; transport_describe := iroh_describe |}.
#[export] Instance iroh_transport_acceptor : TransportAcceptor IrohAcceptor := {| accept := iroh_accept |}.

(** ** Accepting with the handshake in [accept]

    The TLS, ACME and iroh acceptors finish one peer's handshake before they
    return, and take the next peer only when called again.  A step is labelled
    with the peer that has to act for it. *)
Record Acceptor := mkAcceptor {
  aq_backlog : list SocketAddr;
  aq_current : option SocketAddr;
  aq_returned : list SocketAddr;
}.

Inductive acceptor_step : option SocketAddr → Acceptor → Acceptor → Prop :=
| as_arrive p a :
    acceptor_step (Some p) a (mkAcceptor (aq_backlog a ++ [p]) (aq_current a) (aq_returned a))
| as_take p q a :
    aq_current a = None → aq_backlog a = p :: q →
    acceptor_step None a (mkAcceptor q (Some p) (aq_returned a))
| as_handshake p a :
    aq_current a = Some p →
    acceptor_step (Some p) a (mkAcceptor (aq_backlog a) None (aq_returned a ++ [p]))
| as_handshake_failed p a :
    aq_current a = Some p → acceptor_step (Some p) a (mkAcceptor (aq_backlog a) None (aq_returned a)).

(** A step for which [p] need not act. *)
Definition step_without (p : SocketAddr) (a a' : Acceptor) : Prop :=
  ∃ l, l ≠ Some p ∧ acceptor_step l a a'.

(** ** Properties *)

(** A TLS connection made without the [insecure] switch was verified.  The
    handshake that gave the stream ran against the built-in roots, with at most
    the configured root beside them, and under the configured server name, or
    the address's own when none is configured. *)
Lemma tls_connect_verified t s :
  tl_insecure t = false → tls_transport_connect t = Ok s →
  ∃ tcp name, tcp_connect (tl_addr t) = Ok tcp ∧
    server_name_try_from (default (show_ip (sock_ip (tl_addr t))) (tl_server_name t)) = Ok name ∧
    tls_connect (VerifyAgainst (WebpkiRoots :: option_list (AddedRoot <$> tl_root_cert t))) name tcp = Ok s.
Proof.
  intros Hi. unfold tls_transport_connect, build_client_config, resolve_server_name. rewrite Hi.
  intros (tcp & Htcp & (c & Hc & (name & Hn%map_err_ok & Hs)%rbind_ok)%rbind_ok)%rbind_ok.
  exists tcp, name. split; [done|]. split; [by destruct (tl_server_name t)|].
  destruct (tl_root_cert t) as [cert|]; [apply rbind_ok in Hc as (? & _ & [= <-])|injection Hc as <-]; done.
Qed.

(** The two ACME acceptors agree when they succeed; they bind and build the
    configuration in opposite orders, so they may fail differently, and only
    the second leaves a worker behind when the address cannot be bound. *)
Lemma acme_acceptors_agree addr p a :
  (bind_acme addr p).2 = Ok a ↔ tls_bind_acme addr (as_domains (build_acme_state p)) = Ok a.
Proof.
  unfold bind_acme, tls_bind_acme, build_server_config_with_resolver.
  destruct with_safe_default_protocol_versions, (tcp_bind addr); done.
Qed.
Lemma bind_acme_leaks_worker addr p e :
  with_safe_default_protocol_versions = Ok () → tcp_bind addr = Err e →
  bind_acme addr p = (Some (build_acme_state p), Err e).
Proof. intros Hv Hb. unfold bind_acme, build_server_config_with_resolver. by rewrite Hv, Hb. Qed.

(** The worker goes on to the first event after which nobody else holds the
    resolver, and it looks only then: as long as no event comes it stays. *)
Lemma state_worker_stops events e rest :
  Forall (λ ev, ev.2 ≠ 1%nat) events →
  state_worker events = (acme_log ∘ fst <$> events, false) ∧
  state_worker (events ++ (e, 1%nat) :: rest)
    = ((acme_log ∘ fst <$> events) ++ [acme_log e; "ACME resolver dropped, stopping background task"], true).
Proof.
  induction 1 as [|[ev n] events Hn _ [IH1 IH2]]; [done|]. simpl in *.
  destruct (Nat.eqb_spec n 1) as [|_]; [done|]. by rewrite IH1, IH2.
Qed.

(** [--insecure] trusts every certificate, name and signature.  It still refuses
    a server that can only sign with a scheme that is not on its list. *)
Lemma no_verifier_accepts {Cert Name} (cert : Cert) chain (name : Name) msg sig :
  let v := NoVerifier (Cert := Cert) (Name := Name) in
  verify_server_cert v cert chain name = Ok () ∧ verify_tls12_signature v msg cert sig = Ok ()
  ∧ verify_tls13_signature v msg cert sig = Ok ()
  ∧ ∀ scheme, scheme ∈ supported_verify_schemes v ↔
      scheme ≠ ECDSA_NISTP521_SHA512 ∧ scheme ≠ RSA_PKCS1_SHA256 ∧ scheme ≠ RSA_PKCS1_SHA384
      ∧ scheme ≠ RSA_PKCS1_SHA512.
Proof. intros v. split_and!; [done..|]. intros []; simpl; set_solver. Qed.

(** A peer that connects and then does nothing keeps every other one out, as
    long as it stays. *)
Theorem stalled_handshake_blocks p a a' :
  aq_current a = Some p → rtc (step_without p) a a' →
  aq_current a' = Some p ∧ aq_returned a' = aq_returned a.
Proof.
  intros Hc Hr.
  eapply rtc_ind_r with (P := λ a', aq_current a' = Some p ∧ aq_returned a' = aq_returned a);
    [done| |exact Hr].
  intros a1 a2 _ (l & Hl & Hs) [Hc1 Hr1].
  destruct Hs as [p' a1|p' q a1 Hn|p' a1 Hp|p' a1 Hp]; simpl; [done|congruence|congruence|congruence].
Qed.
End Transports.

(** ** Examples *)
Module TransportExample.
(** Addresses stand for streams, names for themselves; every call succeeds. *)
#[export] Instance toy_transports : TransportLib := {|
  TcpStream := SocketAddr;
  tcp_connect := Ok;
  tcp_bind := Ok;
  CertificateDer := string;
  PrivateKeyDer := string;
  ServerName := string;
  TlsStream := (string * SocketAddr)%type;
  server_name_try_from n := if String.eqb n EmptyString then Err "empty" else Ok n;
  root_store_add _ := Ok ();
  with_single_cert _ _ := Ok ();
  with_safe_default_protocol_versions := Ok ();
  tls_connect _ name tcp := Ok (name, tcp);
  TlsServerStream := (option string * SocketAddr)%type;
  tls_server_name s := s.1;
  pem_certs bs := Ok [str_of bs];
  pem_private_key bs := Ok (Some (str_of bs));
  LETS_ENCRYPT_STAGING_DIRECTORY := "staging";
  LETS_ENCRYPT_PRODUCTION_DIRECTORY := "production";
  NodeId := string;
  RelayUrl := string;
  Url := string;
  Endpoint := string;
  Connection := string;
  BiStream := string;
  node_id_from_str := Ok;
  relay_url_from_str := Ok;
  url_from_str := Ok;
  node_id_to_z32 n := n;
  endpoint_bind o := Ok (ep_relay _ _ o);
  endpoint_node_id e := e;
  endpoint_connect e n _ := Ok (e +:+ n);
  open_bi c := Ok c;
  accept_bi c := Ok c;
  remote_node_id c := Ok c;
|}.
Definition server_addr : SocketAddr := mkSocketAddr (V4 [203; 0; 113; 7]) 443 0.

Example tls_connect_verified_example :
  ∃ tcp name, tcp_connect server_addr = Ok tcp ∧
    server_name_try_from (default (show_ip (sock_ip server_addr)) (Some "tunnel.example")) = Ok name ∧
    tls_connect (VerifyAgainst (WebpkiRoots :: option_list (AddedRoot <$> None))) name tcp
      = Ok ("tunnel.example", server_addr).
Proof.
  apply (tls_connect_verified (T := toy_transports)
           (with_server_name (TlsTransport_new server_addr) "tunnel.example")
           ("tunnel.example", server_addr)); reflexivity.
Qed.

Example transports_described :
  tls_describe (TlsTransport_new server_addr) = "tls://203.0.113.7:443" ∧
  as_domains (build_acme_state (with_production_directory (acme_domain "a.example"))) = ["a.example"].
Proof. vm_compute. split; reflexivity. Qed.
End TransportExample.
