(* ===== verification/AuthPolicy.v ===== *)
(** * Authentication policy (config/dynamic_config.rs, auth/identity.rs,
    auth/auth_protocol.rs, auth/server_auth.rs)

    Public keys, OpenSSH certificates, API keys, and the identity provider
    built on them.  A [HashSet] is the list of its elements, only membership
    being observed.  SHA-256 is an interface; the wall clock is an argument in
    seconds since the Unix epoch. *)
From S2P Require Import Prelude RustStd Net Forwarding Keys.
From Stdlib Require Import Ascii Strings.Byte.
Open Scope Z_scope.

Class Sha256 := {
  (** [hex::encode(Sha256::digest(data))]. *)
  sha256_hex : list byte → string;
}.

Record ApiKeyEntry := mkApiKey {
  ak_prefix : string;
  ak_hash : string;
  ak_scopes : list string;
  ak_description : string;
  ak_expires_at : option Z;
}.

Definition API_KEY_PREFIX : string := "alk_".

Record AuthPolicy `{SshKeys} := mkAuthPolicy {
  authorized_keys : list PublicKey;
  cert_authorities : list CertAuthorityEntry;
  api_keys : list ApiKeyEntry;
  encoded_keys : list (list byte);
  fingerprint_to_key : gmap string PublicKey;
}.

(** [SystemTime::now().duration_since(UNIX_EPOCH)…unwrap_or(0)]. *)
Definition unix_secs (clock : Z) : Z := Z.max 0 clock.

Section Policy.
Context `{SshKeys, IpNetworkLib, Sha256}.

Definition encode_key_data (key : PublicKey) : list byte :=
  default [] (key_encoded (key_data key)).

Definition with_api_keys (keys : list PublicKey) (cas : list CertAuthorityEntry)
    (apis : list ApiKeyEntry) : AuthPolicy :=
  mkAuthPolicy _ keys cas apis (encode_key_data <$> keys)
    (foldl (λ m k, <[fingerprint k := k]> m) ∅ keys).

Definition AuthPolicy_new (keys : list PublicKey) (cas : list CertAuthorityEntry) : AuthPolicy :=
  with_api_keys keys cas [].

Definition AuthPolicy_empty : AuthPolicy := AuthPolicy_new [] [].

Definition resolve_identity_from_fingerprint (p : AuthPolicy) (fp : string) : option Identity :=
  match fingerprint_to_key p !! fp with
  | Some _ => Some (mkIdentity fp ["relay:connect"] ∅)
  | None => None
  end.

(** [&token[..token.len().min(8)]] panics inside a character. *)
Definition resolve_api_key (clock : Z) (p : AuthPolicy) (token : string)
    : outcome (option Identity) :=
  if negb (starts_with API_KEY_PREFIX token) then Ret None
  else
    let! prefix_part := slice_to token (Nat.min (String.length token) 8) in
    match find_first (λ e, starts_with (ak_prefix e) prefix_part) (api_keys p) with
    | None => Ret None
    | Some entry =>
        let expected_hash := "sha256:" +:+ sha256_hex (bytes_of token) in
        if negb (String.eqb (ak_hash entry) expected_hash) then Ret None
        else
          let expired :=
            match ak_expires_at entry with
            | Some expires_at => expires_at <=? unix_secs clock
            | None => false
            end in
          if expired then Ret None
          else Ret (Some (mkIdentity (ak_prefix entry) (ak_scopes entry) ∅))
    end.

Definition authenticate_publickey (p : AuthPolicy) (key : PublicKey) : result unit AuthError :=
  let encoded := encode_key_data key in
  if decide (encoded ∈ encoded_keys p) then Ok tt else Err KeyRejected.

(** ** Certificates *)
Definition source_pattern_allows (ip : IpAddr) (pattern : string) : bool :=
  let pattern := trim pattern in
  if String.eqb pattern EmptyString then false
  else
    match network_from_str pattern with
    | Some cidr => network_contains cidr ip
    | None => false
    end
    || match ip_from_str pattern with
       | Some net_ip => bool_decide (net_ip = ip)
       | None => false
       end.

Definition check_source_address (allowed : string) (client_ip : option IpAddr) : bool :=
  match client_ip with
  | None => false
  | Some ip => existsb (source_pattern_allows ip) (split_char "," allowed)
  end.

Fixpoint check_options (client_ip : option IpAddr) (options : list (string * string))
    : result unit AuthError :=
  match options with
  | [] => Ok tt
  | (name, data) :: rest =>
      if String.eqb name "source-address" then
        if negb (check_source_address data client_ip) then Err CertInvalid
        else check_options client_ip rest
      else if String.eqb name "force-command" then check_options client_ip rest
      else if String.eqb name "no-pty" then check_options client_ip rest
      else Err CertInvalid
  end.

Definition check_critical_options (cert : Certificate) (client_ip : option IpAddr)
    : result unit AuthError :=
  check_options client_ip (cert_critical_options cert).

Definition check_extensions (cert : Certificate) (ca_entry : CertAuthorityEntry)
    : result unit AuthError :=
  let ca_permit_port_forwarding :=
    existsb (λ o, String.eqb o "permit-port-forwarding") (ca_options ca_entry) in
  if ca_permit_port_forwarding then
    let cert_allows :=
      existsb (λ '(n, _), String.eqb n "permit-port-forwarding") (cert_extensions cert) in
    if negb cert_allows then Err CertInvalid else Ok tt
  else Ok tt.

(** The body of [AuthPolicy::authenticate_certificate]. *)
Definition certificate_check (clock : Z) (cas : list CertAuthorityEntry) (cert : Certificate)
    (user : string) (client_ip : option IpAddr) : result unit AuthError :=
  match find_first (λ ca, bool_decide (cert_signature_key cert = key_data (ca_public_key ca))) cas with
  | None => Err CertInvalid
  | Some ca_entry =>
      if negb (cert_verify_signature cert) then Err CertInvalid
      else
        let now_secs := unix_secs clock in
        if (now_secs <? cert_valid_after cert) || (cert_valid_before cert <=? now_secs)
        then Err CertExpired
        else
          let principals := cert_valid_principals cert in
          if negb (bool_decide (principals = [])) && negb (existsb (String.eqb user) principals)
          then Err CertPrincipalMismatch
          else
            let? _ := check_critical_options cert client_ip in
            let? _ := check_extensions cert ca_entry in
            Ok tt
  end.

Definition authenticate_certificate (clock : Z) (p : AuthPolicy) (cert : Certificate)
    (user : string) (client_ip : option IpAddr) : result unit AuthError :=
  certificate_check clock (cert_authorities p) cert user client_ip.
End Policy.

(** ** The server's static configuration (auth/server_auth.rs) *)
Module ServerAuth.
Record ServerAuthConfig `{SshKeys} := mkServerAuthConfig {
  sa_authorized_keys : list PublicKey;
  sa_cert_authorities : list CertAuthorityEntry;
  sa_encoded_keys : list (list byte);
}.

Section Server.
Context `{SshKeys, IpNetworkLib, FileSystem}.

Definition from_keys_and_ca (authorized_keys_source cert_authority_source : option KeySource)
    : outcome (result ServerAuthConfig ConfigError) :=
  let! keys :=
    match authorized_keys_source with
    | Some src => load_public_keys src
    | None => Ret (Ok [])
    end in
  match keys with
  | Err e => Ret (Err e)
  | Ok keys =>
      let encoded := encode_key_data <$> keys in
      let! cas :=
        match cert_authority_source with
        | Some src => load_cert_authority_entries src
        | None => Ret (Ok [])
        end in
      Ret (let? cas := cas in Ok (mkServerAuthConfig _ keys cas encoded))
  end.

Definition authenticate_publickey (c : ServerAuthConfig) (key : PublicKey)
    : result unit AuthError :=
  let encoded := encode_key_data key in
  if decide (encoded ∈ sa_encoded_keys c) then Ok tt else Err KeyRejected.

(** The certificate checks of this file, written anew from the policy's. *)
Definition source_pattern_allows (ip : IpAddr) (pattern : string) : bool :=
  let pattern := trim pattern in
  if String.eqb pattern EmptyString then false
  else if match network_from_str pattern with Some cidr => network_contains cidr ip | None => false end then true
  else match ip_from_str pattern with Some net_ip => bool_decide (net_ip = ip) | None => false end.

Definition check_source_address (allowed : string) (client_ip : option IpAddr) : bool :=
  match client_ip with
  | Some ip => existsb (source_pattern_allows ip) (split_char "," allowed)
  | None => false
  end.

Fixpoint check_options (client_ip : option IpAddr) (options : list (string * string)) : result unit AuthError :=
  match options with
  | [] => Ok tt
  | (name, data) :: rest =>
      if String.eqb name "source-address" then
        if negb (check_source_address data client_ip) then Err CertInvalid else check_options client_ip rest
      else if String.eqb name "force-command" || String.eqb name "no-pty" then check_options client_ip rest
      else Err CertInvalid
  end.

Definition check_extensions (cert : Certificate) (ca_entry : CertAuthorityEntry) : result unit AuthError :=
  if existsb (λ o, String.eqb o "permit-port-forwarding") (ca_options ca_entry)
     && negb (existsb (λ '(n, _), String.eqb n "permit-port-forwarding") (cert_extensions cert))
  then Err CertInvalid else Ok tt.

Definition authenticate_certificate (clock : Z) (c : ServerAuthConfig) (cert : Certificate)
    (user : string) (client_ip : option IpAddr) : result unit AuthError :=
  match find_first (λ ca, bool_decide (cert_signature_key cert = key_data (ca_public_key ca))) (sa_cert_authorities c) with
  | None => Err CertInvalid
  | Some ca_entry =>
      if negb (cert_verify_signature cert) then Err CertInvalid
      else if (unix_secs clock <? cert_valid_after cert) || (cert_valid_before cert <=? unix_secs clock) then Err CertExpired
      else
        let principals := cert_valid_principals cert in
        if negb (bool_decide (principals = [])) && negb (existsb (String.eqb user) principals)
        then Err CertPrincipalMismatch
        else
          let? _ := check_options client_ip (cert_critical_options cert) in
          let? _ := check_extensions cert ca_entry in
          Ok tt
  end.

(** [AuthPolicy::from_server_auth_config]. *)
Definition from_server_auth_config (c : ServerAuthConfig) : AuthPolicy :=
  AuthPolicy_new (sa_authorized_keys c) (sa_cert_authorities c).
End Server.
End ServerAuth.

(** ** Lemmas *)
Section PolicyLemmas.
Context `{SshKeys, IpNetworkLib, Sha256}.

(** The bytes of the key named by an entry, and when the entry is live. *)
Definition entry_accepts (clock : Z) (token : string) (e : ApiKeyEntry) : Prop :=
  ak_hash e = "sha256:" +:+ sha256_hex (bytes_of token)
  ∧ (∀ t, ak_expires_at e = Some t → unix_secs clock < t).

Definition entry_identity (e : ApiKeyEntry) : Identity := mkIdentity (ak_prefix e) (ak_scopes e) ∅.

Lemma slice_to_ok s n t : slice_to s n = Ret t → t = str_take n s.
Proof. unfold slice_to. case_match; naive_solver. Qed.

(** What [resolve_api_key] does once the first entry is found. *)
Lemma resolve_api_key_entry clock p token e :
  starts_with API_KEY_PREFIX token = true →
  is_char_boundary token (Nat.min (String.length token) 8) = true →
  find_first (λ e, starts_with (ak_prefix e) (str_take (Nat.min (String.length token) 8) token))
    (api_keys p) = Some e →
  ∀ i, resolve_api_key clock p token = Ret (Some i) ↔
    entry_accepts clock token e ∧ i = entry_identity e.
Proof.
  intros Hp Hb Hf i. unfold resolve_api_key, slice_to. rewrite Hp, Hb. simpl negb. cbv iota.
  cbn [obind]. rewrite Hf. unfold entry_accepts, entry_identity.
  destruct (String.eqb_spec (ak_hash e) ("sha256:" +:+ sha256_hex (bytes_of token))) as [Hh|Hh];
    simpl; [|naive_solver].
  destruct (ak_expires_at e) as [t|].
  - destruct (Z.leb_spec t (unix_secs clock)).
    + split; [done|]. intros [[_ Ht] _]. specialize (Ht t eq_refl). lia.
    + split; [|naive_solver]. intros [= <-]. split_and!; [done| |done]. naive_solver.
  - split; [|naive_solver]. intros [= <-]. split_and!; naive_solver.
Qed.

Lemma resolve_api_key_some clock p token i :
  resolve_api_key clock p token = Ret (Some i) →
  starts_with API_KEY_PREFIX token = true
  ∧ is_char_boundary token (Nat.min (String.length token) 8) = true
  ∧ ∃ e, find_first (λ e, starts_with (ak_prefix e)
           (str_take (Nat.min (String.length token) 8) token)) (api_keys p) = Some e
       ∧ entry_accepts clock token e ∧ i = entry_identity e.
Proof.
  intros Hr. pose proof Hr as Hr0. unfold resolve_api_key, slice_to in Hr.
  destruct (starts_with API_KEY_PREFIX token) eqn:Hp; simpl in Hr; [|done].
  destruct (is_char_boundary token _) eqn:Hb; simpl in Hr; [|done].
  destruct (find_first _ (api_keys p)) as [e|] eqn:Hf; [|done].
  split_and!; [done..|]. exists e. split; [done|]. by eapply resolve_api_key_entry.
Qed.

Lemma starts_with_take p n s :
  (String.length p ≤ n)%nat → starts_with p (str_take n s) = starts_with p s.
Proof.
  revert n s. induction p as [|a p IH]; intros n s Hn; [by destruct (str_take n s)|].
  destruct n as [|n]; simpl in Hn; [lia|]. destruct s as [|b s]; [done|]. simpl.
  by rewrite IH by lia.
Qed.

Lemma starts_with_take_le p n s :
  starts_with p (str_take n s) = true → starts_with p s = true.
Proof.
  revert n s. induction p as [|a p IH]; intros n s; [by destruct s|].
  destruct n as [|n], s as [|b s]; simpl; try done. rewrite !andb_true_iff. naive_solver.
Qed.

Lemma starts_with_take_min p s :
  (String.length p ≤ 8)%nat →
  starts_with p (str_take (Nat.min (String.length s) 8) s) = starts_with p s.
Proof.
  intros Hp. destruct (Nat.le_gt_cases (String.length p) (String.length s)) as [Hle|Hgt].
  - apply starts_with_take. lia.
  - destruct (starts_with p s) eqn:Hs.
    + apply starts_with_spec in Hs as [r ->]. rewrite str_length_app in Hgt. lia.
    + apply not_true_iff_false. intros Ht%starts_with_take_le. congruence.
Qed.

(** Two prefixes of one string are comparable. *)
Lemma starts_with_comparable p q s :
  starts_with p s = true → starts_with q s = true →
  starts_with p q = true ∨ starts_with q p = true.
Proof.
  revert q s. induction p as [|a p IH]; intros q s Hp Hq; [by left; destruct q|].
  destruct q as [|b q]; [by right|]. destruct s as [|c s]; [done|]. simpl in *.
  apply andb_true_iff in Hp as [Ha%Ascii.eqb_eq Hp]. apply andb_true_iff in Hq as [Hb%Ascii.eqb_eq Hq].
  subst. rewrite Ascii.eqb_refl. simpl. by eapply IH.
Qed.

(** No entry's prefix begins another's, and each fits in the eight bytes that
    are compared. *)
Definition prefixes_distinct (es : list ApiKeyEntry) : Prop :=
  Forall (λ e, (String.length (ak_prefix e) ≤ 8)%nat) es
  ∧ ∀ e1 e2, e1 ∈ es → e2 ∈ es → starts_with (ak_prefix e1) (ak_prefix e2) = true → e1 = e2.

Lemma find_api_key es token e :
  prefixes_distinct es → e ∈ es → starts_with (ak_prefix e) token = true →
  find_first (λ e, starts_with (ak_prefix e) (str_take (Nat.min (String.length token) 8) token)) es
  = Some e.
Proof.
  intros [Hlen Hdist] He Hp. rewrite Forall_forall in Hlen.
  destruct (find_first _ es) as [e'|] eqn:Hf.
  - apply find_first_Some in Hf as (l1 & l2 & -> & Hp' & _).
    apply starts_with_take_le in Hp'. f_equal.
    destruct (starts_with_comparable _ _ _ Hp' Hp) as [Hc|Hc];
      [|symmetry]; apply Hdist; set_solver.
  - apply find_first_None in Hf. rewrite Forall_forall in Hf.
    specialize (Hf e He). rewrite starts_with_take_min in Hf by auto. congruence.
Qed.

Lemma fingerprint_map_lookup keys m fp :
  is_Some (foldl (λ m k, <[fingerprint k := k]> m) m keys !! fp) ↔
  is_Some ((m : gmap string PublicKey) !! fp) ∨ ∃ k, k ∈ keys ∧ fingerprint k = fp.
Proof.
  revert m. induction keys as [|k keys IH]; intros m; simpl.
  - split; [by left|]. intros [?|(? & ? & _)]; [done|set_solver].
  - rewrite IH, lookup_insert_is_Some'. setoid_rewrite elem_of_cons. naive_solver.
Qed.

Lemma check_options_ok client_ip options :
  check_options client_ip options = Ok tt ↔
  Forall (λ '(name, data),
    (name = "source-address" ∧ check_source_address data client_ip = true)
    ∨ name = "force-command" ∨ name = "no-pty") options.
Proof.
  induction options as [|[name data] options IH]; simpl; [by split|].
  rewrite Forall_cons, <-IH.
  destruct (String.eqb_spec name "source-address") as [->|];
    [destruct (check_source_address data client_ip)|destruct (String.eqb_spec name "force-command");
       [|destruct (String.eqb_spec name "no-pty")]]; naive_solver.
Qed.

Lemma check_source_address_spec allowed client_ip :
  check_source_address allowed client_ip = true ↔
  ∃ ip pattern, client_ip = Some ip ∧ pattern ∈ split_char "," allowed ∧ trim pattern ≠ EmptyString
    ∧ ((∃ net, network_from_str (trim pattern) = Some net ∧ network_contains net ip = true)
       ∨ ip_from_str (trim pattern) = Some ip).
Proof.
  unfold check_source_address. destruct client_ip as [ip|]; [|naive_solver].
  rewrite existsb_exists. setoid_rewrite <-list_elem_of_In. unfold source_pattern_allows.
  assert (∀ pattern, (if String.eqb (trim pattern) EmptyString then false
      else match network_from_str (trim pattern) with Some cidr => network_contains cidr ip | None => false end
        || match ip_from_str (trim pattern) with Some net_ip => bool_decide (net_ip = ip) | None => false end)
      = true ↔ trim pattern ≠ EmptyString
        ∧ ((∃ net, network_from_str (trim pattern) = Some net ∧ network_contains net ip = true)
           ∨ ip_from_str (trim pattern) = Some ip)) as Hiff.
  { intros pattern. destruct (String.eqb_spec (trim pattern) EmptyString) as [He|He]; [naive_solver|].
    rewrite orb_true_iff.
    destruct (network_from_str (trim pattern)), (ip_from_str (trim pattern)) as [net_ip|];
      try rewrite bool_decide_eq_true; naive_solver. }
  setoid_rewrite Hiff. naive_solver.
Qed.

Lemma check_extensions_ok cert ca :
  check_extensions cert ca = Ok tt ↔
  ("permit-port-forwarding" ∈ ca_options ca → "permit-port-forwarding" ∈ (cert_extensions cert).*1).
Proof.
  unfold check_extensions.
  assert (existsb (λ o, String.eqb o "permit-port-forwarding") (ca_options ca) = true ↔
          "permit-port-forwarding" ∈ ca_options ca) as Hca.
  { rewrite existsb_exists. setoid_rewrite <-list_elem_of_In. setoid_rewrite String.eqb_eq.
    naive_solver. }
  assert (existsb (λ '(n, _), String.eqb n "permit-port-forwarding") (cert_extensions cert) = true ↔
          "permit-port-forwarding" ∈ (cert_extensions cert).*1) as Hext.
  { rewrite existsb_exists, list_elem_of_fmap. setoid_rewrite <-list_elem_of_In. split.
    - intros ([n d] & Hin & Heq%String.eqb_eq). exists (n, d). by subst.
    - intros ([n d] & -> & Hin). exists (n, d). split; [done|]. apply String.eqb_refl. }
  destruct (existsb _ (ca_options ca)), (existsb _ (cert_extensions cert)); simpl; naive_solver.
Qed.
End PolicyLemmas.

(** ** Properties *)
Section PolicyProperties.
Context `{SshKeys, IpNetworkLib, Sha256}.

(** API keys are sound: a token that resolves carries the [alk_] prefix, its
    SHA-256 is the one stored in a configured entry whose prefix the token has,
    the entry has not expired, and the identity is that entry's; and they are
    complete when the configured prefixes are at most eight bytes and none
    begins another. *)
Theorem api_key_resolves clock p token i :
  is_char_boundary token (Nat.min (String.length token) 8) = true →
  (resolve_api_key clock p token = Ret (Some i) →
     starts_with API_KEY_PREFIX token = true
     ∧ ∃ e, e ∈ api_keys p ∧ starts_with (ak_prefix e) token = true
         ∧ entry_accepts clock token e ∧ i = entry_identity e)
  ∧ (prefixes_distinct (api_keys p) →
     starts_with API_KEY_PREFIX token = true →
     ∀ e, e ∈ api_keys p → starts_with (ak_prefix e) token = true →
       (resolve_api_key clock p token = Ret (Some (entry_identity e)) ↔ entry_accepts clock token e)).
Proof.
  intros Hb. split.
  - intros (Hp & _ & e & Hf & Hacc & ->)%resolve_api_key_some. split; [done|].
    apply find_first_Some in Hf as (l1 & l2 & -> & Hpre%starts_with_take_le & _).
    exists e. split_and!; [set_solver|done..].
  - intros Hd Hp e He Hpre. pose proof (find_api_key _ token e Hd He Hpre) as Hf.
    rewrite (resolve_api_key_entry clock p token e Hp Hb Hf). naive_solver.
Qed.

(** Only the first entry whose prefix matches is compared: a second key with
    the same prefix never resolves, however valid its hash. *)
Theorem api_key_shadowed clock p token e1 e2 rest :
  api_keys p = e1 :: e2 :: rest → ak_prefix e1 = ak_prefix e2 →
  starts_with API_KEY_PREFIX token = true →
  is_char_boundary token (Nat.min (String.length token) 8) = true →
  starts_with (ak_prefix e1) (str_take (Nat.min (String.length token) 8) token) = true →
  entry_accepts clock token e2 → ak_hash e1 ≠ ak_hash e2 →
  resolve_api_key clock p token = Ret None.
Proof.
  intros Hks Hpre Hp Hb He1 [Hh2 _] Hne. unfold resolve_api_key, slice_to.
  rewrite Hp, Hb, Hks. cbn [obind negb find_first]. rewrite He1.
  destruct (String.eqb_spec (ak_hash e1) ("sha256:" +:+ sha256_hex (bytes_of token)));
    [congruence|done].
Qed.

(** C20: A certificate is accepted exactly when the first configured authority
    with its signing key vouches for it: the signature verifies, the clock is in
    [valid_after, valid_before), the user is among the principals if any are
    listed, every critical option is known and its source address allows the
    client, and port forwarding is permitted where the authority demands it. *)
Theorem certificate_accepted clock p cert user client_ip :
  authenticate_certificate clock p cert user client_ip = Ok tt ↔
  ∃ l1 ca l2, cert_authorities p = l1 ++ ca :: l2
    ∧ cert_signature_key cert = key_data (ca_public_key ca)
    ∧ Forall (λ ca', cert_signature_key cert ≠ key_data (ca_public_key ca')) l1
    ∧ cert_verify_signature cert = true
    ∧ cert_valid_after cert ≤ unix_secs clock < cert_valid_before cert
    ∧ (cert_valid_principals cert = [] ∨ user ∈ cert_valid_principals cert)
    ∧ Forall (λ '(name, data),
        (name = "source-address" ∧ check_source_address data client_ip = true)
        ∨ name = "force-command" ∨ name = "no-pty") (cert_critical_options cert)
    ∧ ("permit-port-forwarding" ∈ ca_options ca →
       "permit-port-forwarding" ∈ (cert_extensions cert).*1).
Proof.
  unfold authenticate_certificate, certificate_check.
  destruct (find_first _ (cert_authorities p)) as [ca|] eqn:Hf.
  - apply find_first_Some in Hf as (l1 & l2 & Hl & Hca%bool_decide_eq_true & Hl1).
    assert (Forall (λ ca', cert_signature_key cert ≠ key_data (ca_public_key ca')) l1) as Hl1'.
    { eapply Forall_impl; [done|]. intros ca'. by rewrite bool_decide_eq_false. }
    assert (∀ m1 ca' m2, cert_authorities p = m1 ++ ca' :: m2 →
      cert_signature_key cert = key_data (ca_public_key ca') →
      Forall (λ ca', cert_signature_key cert ≠ key_data (ca_public_key ca')) m1 → ca' = ca) as Huniq.
    { intros m1 ca' m2 Hm Hca' Hm1. rewrite Hl in Hm.
      by eapply (first_split_unique (λ ca, cert_signature_key cert = key_data (ca_public_key ca))). }
    assert (existsb (String.eqb user) (cert_valid_principals cert) = true ↔
            user ∈ cert_valid_principals cert) as Hu.
    { rewrite existsb_exists. setoid_rewrite <-list_elem_of_In. setoid_rewrite String.eqb_eq.
      naive_solver. }
    unfold check_critical_options.
    assert ((let? _ := check_options client_ip (cert_critical_options cert) in
             let? _ := check_extensions cert ca in Ok tt) = Ok tt ↔
            check_options client_ip (cert_critical_options cert) = Ok tt
            ∧ check_extensions cert ca = Ok tt) as Hseq.
    { destruct (check_options _ _) as [[]|], (check_extensions _ _) as [[]|]; naive_solver. }
    rewrite check_options_ok, check_extensions_ok in Hseq.
    destruct (cert_verify_signature cert) eqn:Hv; simpl; [|naive_solver].
    destruct (Z.ltb_spec (unix_secs clock) (cert_valid_after cert)); simpl;
      [split; [done|]; intros (?&?&?&?&?&?&?&?&_); lia|].
    destruct (Z.leb_spec (cert_valid_before cert) (unix_secs clock)); simpl;
      [split; [done|]; intros (?&?&?&?&?&?&?&?&_); lia|].
    destruct (bool_decide_reflect (cert_valid_principals cert = [])) as [Hnil|Hnil];
      destruct (existsb (String.eqb user) (cert_valid_principals cert)) eqn:He; simpl.
    4: { split; [done|]. intros (?&?&?&?&?&?&?&?&Hpr&_). naive_solver. }
    all: rewrite Hseq; split;
      [intros [? ?]; exists l1, ca, l2; naive_solver
      |intros (m1 & ca' & m2 & Hm & Hs & Hm1 & _ & _ & _ & ? & ?);
       rewrite <-(Huniq m1 ca' m2 Hm Hs Hm1); by split].
  - apply find_first_None in Hf. split; [done|]. intros (l1 & ca & l2 & Hl & Hs & _).
    rewrite Hl in Hf. apply Forall_app in Hf as [_ Hf]. apply Forall_cons in Hf as [Hf _].
    by rewrite bool_decide_eq_false in Hf.
Qed.
End PolicyProperties.

Section ServerAgreement.
Context `{SshKeys, IpNetworkLib, FileSystem}.

(** The two copies of the certificate checks agree. *)
Lemma source_pattern_allows_agree ip pattern :
  ServerAuth.source_pattern_allows ip pattern = source_pattern_allows ip pattern.
Proof.
  unfold ServerAuth.source_pattern_allows, source_pattern_allows. destruct (String.eqb _ _); [done|].
  by destruct (match network_from_str _ with Some cidr => _ | None => _ end).
Qed.

Lemma check_options_agree ip options : ServerAuth.check_options ip options = check_options ip options.
Proof.
  induction options as [|[name data] rest IH]; [done|]. simpl.
  assert (ServerAuth.check_source_address data ip = check_source_address data ip) as ->.
  { unfold ServerAuth.check_source_address, check_source_address. destruct ip as [ip|]; [|done].
    induction (split_char "," data) as [|p ps IHp]; [done|]. simpl. by rewrite source_pattern_allows_agree, IHp. }
  rewrite IH. by destruct (String.eqb name "force-command").
Qed.

Lemma check_extensions_agree cert ca : ServerAuth.check_extensions cert ca = check_extensions cert ca.
Proof. unfold ServerAuth.check_extensions, check_extensions. by destruct (existsb _ (ca_options ca)). Qed.

Lemma authenticate_certificate_agree clock cfg cert user ip :
  ServerAuth.authenticate_certificate clock cfg cert user ip =
    certificate_check clock (ServerAuth.sa_cert_authorities cfg) cert user ip.
Proof.
  unfold ServerAuth.authenticate_certificate, certificate_check, check_critical_options.
  destruct (find_first _ _) as [ca|]; [|done]. by rewrite check_options_agree, check_extensions_agree.
Qed.

(** The reloadable policy built from a loaded server configuration accepts
    the same keys and certificates as the configuration itself: a key exactly
    when a loaded key has the same encoding. *)
Theorem server_config_policy_agree ks cs cfg clock :
  ServerAuth.from_keys_and_ca ks cs = Ret (Ok cfg) →
  let p := ServerAuth.from_server_auth_config cfg in
  (∀ key, authenticate_publickey p key = ServerAuth.authenticate_publickey cfg key
     ∧ (authenticate_publickey p key = Ok tt ↔
        ∃ k, k ∈ ServerAuth.sa_authorized_keys cfg ∧ encode_key_data k = encode_key_data key))
  ∧ (∀ cert user ip, authenticate_certificate clock p cert user ip
       = ServerAuth.authenticate_certificate clock cfg cert user ip)
  ∧ (∀ fp, is_Some (resolve_identity_from_fingerprint p fp) ↔
       ∃ k, k ∈ ServerAuth.sa_authorized_keys cfg ∧ fingerprint k = fp).
Proof.
  intros Hcfg p.
  assert (ServerAuth.sa_encoded_keys cfg = encode_key_data <$> ServerAuth.sa_authorized_keys cfg)
    as Henc.
  { revert Hcfg. unfold ServerAuth.from_keys_and_ca.
    destruct (match ks with Some src => _ | None => _ end) as [[keys|]|]; simpl; [|done..].
    destruct (match cs with Some src => _ | None => _ end) as [[cas|]|]; simpl; [|done..].
    by intros [= <-]. }
  split_and!; [|intros; by rewrite authenticate_certificate_agree|].
  - intros key. unfold authenticate_publickey, ServerAuth.authenticate_publickey.
    rewrite Henc. split; [done|]. simpl.
    case_decide as Hin; rewrite list_elem_of_fmap in Hin; naive_solver.
  - intros fp. unfold resolve_identity_from_fingerprint. simpl.
    pose proof (fingerprint_map_lookup (ServerAuth.sa_authorized_keys cfg) ∅ fp) as Hm.
    rewrite lookup_empty, is_Some_alt in Hm.
    destruct (foldl _ _ _ !! fp); rewrite is_Some_alt; naive_solver.
Qed.
End ServerAgreement.

(** ** Examples *)
Module AuthExample.
Import KeysExample.
#[export] Instance toy_networks : IpNetworkLib := {|
  IpNetwork := IpAddr;
  network_contains n ip := bool_decide (n = ip);
  network_from_str := ip_from_str;
|}.
#[export] Instance toy_sha : Sha256 := {| sha256_hex bs := str_of bs |}.

Definition key_a : ApiKeyEntry := mkApiKey "alk_a" "sha256:alk_a-token" ["call"] "a" (Some 100).
Definition key_b : ApiKeyEntry := mkApiKey "alk_b" "sha256:alk_b-token" ["call"] "b" None.
Definition key_a2 : ApiKeyEntry := mkApiKey "alk_a" "sha256:alk_a-other" ["call"] "a2" None.
Definition policy (ks : list ApiKeyEntry) : AuthPolicy := with_api_keys [] [] ks.

Lemma api_key_resolves_witness :
  (resolve_api_key 99 (policy [key_a; key_b]) "alk_a-token" = Ret (Some (entry_identity key_a)) →
     starts_with API_KEY_PREFIX "alk_a-token" = true
     ∧ ∃ e, e ∈ [key_a; key_b] ∧ starts_with (ak_prefix e) "alk_a-token" = true
         ∧ entry_accepts 99 "alk_a-token" e ∧ entry_identity key_a = entry_identity e)
  ∧ (prefixes_distinct [key_a; key_b] →
     starts_with API_KEY_PREFIX "alk_a-token" = true →
     ∀ e, e ∈ [key_a; key_b] → starts_with (ak_prefix e) "alk_a-token" = true →
       (resolve_api_key 99 (policy [key_a; key_b]) "alk_a-token" = Ret (Some (entry_identity e))
        ↔ entry_accepts 99 "alk_a-token" e)).
Proof.
  apply (api_key_resolves 99 (policy [key_a; key_b]) "alk_a-token" (entry_identity key_a)).
  reflexivity.
Defined.

Lemma api_key_shadowed_witness :
  resolve_api_key 99 (policy [key_a; key_a2]) "alk_a-other" = Ret None.
Proof.
  apply (api_key_shadowed 99 (policy [key_a; key_a2]) "alk_a-other" key_a key_a2 []);
    first [reflexivity | discriminate | idtac].
  split; [reflexivity|discriminate].
Defined.

Definition ca_file : list byte := bytes_of "cert-authority ssh-ed25519 AAAA1".
Definition loaded : ServerAuth.ServerAuthConfig :=
  ServerAuth.mkServerAuthConfig _ ["AAAA1"] [mkCertAuthority _ "AAAA1" ["cert-authority"]]
    [bytes_of "AAAA1"].

Lemma server_config_policy_agree_witness :
  let p := ServerAuth.from_server_auth_config loaded in
  (∀ key, authenticate_publickey p key = ServerAuth.authenticate_publickey loaded key
     ∧ (authenticate_publickey p key = Ok tt ↔
        ∃ k, k ∈ ["AAAA1"] ∧ encode_key_data k = encode_key_data key))
  ∧ (∀ cert user ip, authenticate_certificate 5 p cert user ip
       = ServerAuth.authenticate_certificate 5 loaded cert user ip)
  ∧ (∀ fp, is_Some (resolve_identity_from_fingerprint p fp) ↔
       ∃ k, k ∈ ["AAAA1"] ∧ fingerprint k = fp).
Proof.
  apply (server_config_policy_agree (Some (KeyMemory ca_file)) (Some (KeyMemory ca_file)) loaded 5).
  vm_compute. reflexivity.
Defined.
End AuthExample.
