(* ===== verification/DynConfig.v ===== *)
(** * Reloadable configuration and the identity provider
    (config/dynamic_config.rs, config/config_service.rs, credentials/mod.rs,
    auth/identity.rs, auth/auth_protocol.rs, http/auth.rs)

    The [Arc<ArcSwap<DynamicConfig>>] cell is a [DynamicConfig] value: a load
    is reading it, a store is replacing it.  [IdentityProvider] is the trait
    the servers and sessions are written against. *)
From S2P Require Import Prelude RustStd Net Forwarding Keys AuthPolicy.
From Stdlib Require Import Strings.Byte.
Open Scope Z_scope.

(** ** Credentials *)
Inductive CredentialSet :=
| ApiKey (header_name token : string)
| Basic (username password : string)
| Bearer (token : string)
| S3AccessKey (access_key secret_key : string) (session_token : option string)
| OidcToken (access_token : string) (refresh_token : option string) (expires_at : option Z)
| CustomScheme (scheme : string) (params : gmap string string).

(** [CredentialProvider]. *)
Class CredentialProvider := {
  get_credentials : string → option CredentialSet;
  refresh_credentials : string → option CredentialSet;
}.

(** ** The configuration *)
Record RateLimitConfig := mkRateLimits {
  max_connections_per_ip : nat;
  max_auth_attempts : nat;
}.
Definition RateLimitConfig_default : RateLimitConfig := mkRateLimits 0 10.

Record DynamicConfig `{SshKeys, IpNetworkLib} := mkDynamicConfig {
  auth : AuthPolicy;
  forwarding : ForwardingPolicy;
  rate_limits : RateLimitConfig;
  credentials : gmap string CredentialSet;
}.

(** ** Identity providers *)
Class IdentityProvider := {
  resolve_from_fingerprint : string → option Identity;
  resolve_from_token : list byte → outcome (option Identity);
}.

(** The requests of [auth_protocol.rs]; nothing dispatches them yet. *)
Inductive AuthProtocol :=
| VerifyPubkey (fingerprint : string) (key_data : list byte)
| VerifyToken (token_bytes : list byte) (timestamp : Z)
| ReloadKeys
| CheckAccess (identity : Identity) (operation : string).
Inductive AuthResult :=
| AuthOk (identity : Identity)
| AuthDenied (reason : string).

Section Config.
Context `{SshKeys, IpNetworkLib, Sha256}.

Definition DynamicConfig_new (a : AuthPolicy) : DynamicConfig :=
  mkDynamicConfig _ _ a allow_all RateLimitConfig_default ∅.

Definition from_parts (a : AuthPolicy) (f : ForwardingPolicy) (r : RateLimitConfig) : DynamicConfig :=
  mkDynamicConfig _ _ a f r ∅.

Definition with_forwarding_policy (c : DynamicConfig) (f : ForwardingPolicy) : DynamicConfig :=
  mkDynamicConfig _ _ (auth c) f (rate_limits c) (credentials c).
Definition with_rate_limits (c : DynamicConfig) (r : RateLimitConfig) : DynamicConfig :=
  mkDynamicConfig _ _ (auth c) (forwarding c) r (credentials c).
Definition with_credentials (c : DynamicConfig) (cr : gmap string CredentialSet) : DynamicConfig :=
  mkDynamicConfig _ _ (auth c) (forwarding c) (rate_limits c) cr.

Definition DynamicConfig_default : DynamicConfig :=
  mkDynamicConfig _ _ AuthPolicy_empty allow_all RateLimitConfig_default ∅.

(** [ConfigReloadHandle::reload] and [ConfigServiceImpl::reload]: one store. *)
Definition reload (cell new_config : DynamicConfig) : DynamicConfig := new_config.

Definition config_credentials (cell : DynamicConfig) : CredentialProvider := {|
  get_credentials service := credentials cell !! service;
  refresh_credentials service := credentials cell !! service;
|}.

(** [SecretStoreCredentialProvider]: no credentials yet. *)
Definition secret_store_credentials : CredentialProvider := {|
  get_credentials _ := None;
  refresh_credentials _ := None;
|}.

(** [ConfigIdentityProvider] over the cell's content, at a given time. *)
Definition config_resolve_from_token (clock : Z) (cell : DynamicConfig) (raw : list byte)
    : outcome (option Identity) :=
  let token_str := from_utf8_lossy raw in
  if starts_with API_KEY_PREFIX token_str then resolve_api_key clock (auth cell) token_str
  else Ret None.

Definition config_identity_provider (clock : Z) (cell : DynamicConfig) : IdentityProvider := {|
  resolve_from_fingerprint := resolve_identity_from_fingerprint (auth cell);
  resolve_from_token := config_resolve_from_token clock cell;
|}.

(** ** [AuthServiceImpl] *)
Definition verify_pubkey (P : IdentityProvider) (fp : string) : AuthResult :=
  match resolve_from_fingerprint fp with
  | Some identity => AuthOk identity
  | None => AuthDenied ("key not authorized: " +:+ fp)
  end.

Definition verify_token (P : IdentityProvider) (raw : list byte) : outcome AuthResult :=
  let! r := resolve_from_token raw in
  Ret (match r with
       | Some identity => AuthOk identity
       | None => AuthDenied "token verification failed"
       end).

(** [dynamic.rcu(Arc::clone)] stores the configuration that was loaded: the store
    of [reload] with what the cell holds. *)
Definition reload_keys (cell : DynamicConfig) : DynamicConfig := reload cell cell.

Definition check_access (identity : Identity) (operation : string) : AuthResult :=
  if existsb (λ s, String.eqb s operation) (scopes identity) then AuthOk identity
  else AuthDenied ("identity " +:+ id identity +:+ " lacks scope: " +:+ operation).

(** ** [auth_middleware]: the identity a request runs under, or 401 *)
Definition auth_middleware (P : IdentityProvider) (authorization : option string)
    : outcome (option Identity) :=
  match authorization with
  | Some h =>
      match strip_prefix "Bearer " h with
      | Some token_str => resolve_from_token (bytes_of token_str)
      | None => Ret None
      end
  | None => Ret None
  end.

(** ** Properties *)

(** Eight bytes of a client's token decide whether the server panics: for
    the bytes of [alk_abc] followed by a byte that is not UTF-8, the lossy
    decoding puts a three-byte character across the eighth byte and the slice
    of the prefix panics, under every configuration. *)
Theorem token_slice_panics clock cell rest :
  config_resolve_from_token clock cell (bytes_of "alk_abc" ++ xff :: rest) = Panic
  ∧ verify_token (config_identity_provider clock cell) (bytes_of "alk_abc" ++ xff :: rest) = Panic.
Proof.
  assert (∃ r, lossy_loop (S (length rest)) (xff :: rest) = replacement ++ r) as [r Hr].
  { simpl. eauto. }
  assert (config_resolve_from_token clock cell (bytes_of "alk_abc" ++ xff :: rest) = Panic) as Hp.
  { unfold config_resolve_from_token, from_utf8_lossy.
    assert (lossy_loop (length (bytes_of "alk_abc" ++ xff :: rest)) (bytes_of "alk_abc" ++ xff :: rest)
            = bytes_of "alk_abc" ++ replacement ++ r) as ->.
    { change (bytes_of "alk_abc" ++ lossy_loop (S (length rest)) (xff :: rest)
              = bytes_of "alk_abc" ++ replacement ++ r). by rewrite Hr. }
    reflexivity. }
  split; [done|]. unfold verify_token.
  cbn [resolve_from_token config_identity_provider]. by rewrite Hp.
Qed.
End Config.
