(* ===== verification/RateLimit.v ===== *)
(** * Connection and authentication limits (server/rate_limit.rs)

    [ConnectionRateLimiter] counts the active connections of each address
    under a mutex; [AuthAttemptLimiter] counts the failures of one connection.
    [conn_step] is the interleaving semantics of one accept loop, whose
    handlers are constructed one after the other (two critical sections each,
    [check] and [on_connect]), with the handlers that are dropped meanwhile. *)
From S2P Require Import Prelude Net.
#[local] Open Scope nat_scope.

Record ConnectionRateLimiter := mkLimiter {
  max_per_ip : nat;
  active : gmap IpAddr nat;
}.

Definition limiter_new (max : nat) : ConnectionRateLimiter := mkLimiter max ∅.

Definition count (l : ConnectionRateLimiter) (ip : IpAddr) : nat := default 0 (active l !! ip).

Definition limiter_check (l : ConnectionRateLimiter) (ip : IpAddr) : bool :=
  if (max_per_ip l =? 0)%nat then true else (count l ip <? max_per_ip l)%nat.

Definition on_connect (l : ConnectionRateLimiter) (ip : IpAddr) : ConnectionRateLimiter :=
  mkLimiter (max_per_ip l) (<[ip := S (count l ip)]> (active l)).

Definition on_disconnect (l : ConnectionRateLimiter) (ip : IpAddr) : ConnectionRateLimiter :=
  match active l !! ip with
  | Some n =>
      if (1 <? n)%nat then mkLimiter (max_per_ip l) (<[ip := n - 1]> (active l))
      else mkLimiter (max_per_ip l) (delete ip (active l))
  | None => l
  end.

Record AuthAttemptLimiter := mkAttempts { max_attempts : nat; failures : nat }.

Definition attempts_new (max : nat) : AuthAttemptLimiter := mkAttempts max 0.
Definition attempts_check (a : AuthAttemptLimiter) : bool :=
  if (max_attempts a =? 0)%nat then true else (failures a <? max_attempts a)%nat.
Definition on_failure (a : AuthAttemptLimiter) : AuthAttemptLimiter :=
  mkAttempts (max_attempts a) (S (failures a)).

(** ** The counts *)

(** How often an address occurs in a list of connections. *)
Fixpoint occurrences (ip : IpAddr) (l : list IpAddr) : nat :=
  match l with
  | [] => 0
  | x :: l' => if decide (x = ip) then S (occurrences ip l') else occurrences ip l'
  end.

(** The limiter counts exactly the connections in [live], and keeps no entry
    for an address without one. *)
Definition counts (l : ConnectionRateLimiter) (live : list IpAddr) : Prop :=
  ∀ ip, active l !! ip = match occurrences ip live with O => None | n => Some n end.

Lemma counts_count l live ip : counts l live → count l ip = occurrences ip live.
Proof. intros Hc. unfold count. rewrite (Hc ip). by destruct (occurrences ip live). Qed.

Lemma counts_new max : counts (limiter_new max) [].
Proof. intros ip. apply lookup_empty. Qed.

Lemma counts_connect l live ip : counts l live → counts (on_connect l ip) (ip :: live).
Proof.
  intros Hc ip'. unfold on_connect. simpl. rewrite (counts_count l live ip Hc).
  destruct (decide (ip = ip')) as [<-|Hne].
  - by rewrite lookup_insert_eq.
  - by rewrite lookup_insert_ne by done.
Qed.

Lemma occurrences_app ip l1 l2 :
  occurrences ip (l1 ++ l2) = (occurrences ip l1 + occurrences ip l2)%nat.
Proof. induction l1 as [|x l1 IH]; simpl; [done|]. case_decide; lia. Qed.

Lemma counts_disconnect l live1 live2 ip :
  counts l (live1 ++ ip :: live2) → counts (on_disconnect l ip) (live1 ++ live2).
Proof.
  intros Hc. pose proof (Hc ip) as Hip. rewrite occurrences_app in Hip. simpl in Hip.
  rewrite decide_True, Nat.add_succ_r in Hip by done.
  assert (∀ ip', ip' ≠ ip → active l !! ip' = match occurrences ip' (live1 ++ live2) with
                                            | O => None | n => Some n end) as Hother.
  { intros ip' Hne. rewrite (Hc ip'), !occurrences_app. simpl. by rewrite decide_False by done. }
  unfold on_disconnect. rewrite Hip. intros ip'.
  destruct (Nat.ltb_spec 1 (S (occurrences ip live1 + occurrences ip live2))); simpl;
    (destruct (decide (ip' = ip)) as [->|Hne];
     [rewrite ?lookup_insert_eq, ?lookup_delete_eq, ?occurrences_app
     |rewrite ?lookup_insert_ne, ?lookup_delete_ne by done; by apply Hother]).
  - rewrite Nat.sub_0_r. by destruct (occurrences ip live1 + occurrences ip live2)%nat; [lia|].
  - by destruct (occurrences ip live1 + occurrences ip live2)%nat; [|lia].
Qed.

(** ** The accept loop and the handlers it has made *)
Inductive loop_state := Idle | Checked (ip : IpAddr).

Record conn_state := mkConn {
  limiter : ConnectionRateLimiter;
  accept_loop : loop_state;
  live : list IpAddr;
}.

Inductive conn_step : conn_state → conn_state → Prop :=
| step_check_allowed l ip hs :
    limiter_check l ip = true →
    conn_step (mkConn l Idle hs) (mkConn l (Checked ip) hs)
| step_check_rejected l ip hs :
    limiter_check l ip = false →
    conn_step (mkConn l Idle hs) (mkConn l Idle hs)
| step_connect l ip hs :
    conn_step (mkConn l (Checked ip) hs) (mkConn (on_connect l ip) Idle (ip :: hs))
| step_drop l lp hs1 ip hs2 :
    conn_step (mkConn l lp (hs1 ++ ip :: hs2)) (mkConn (on_disconnect l ip) lp (hs1 ++ hs2)).

Definition conn_init (max : nat) : conn_state := mkConn (limiter_new max) Idle [].

(** The limit holds, and an address that has passed the check has room. *)
Record conn_ok (max : nat) (s : conn_state) : Prop := {
  ok_max : max_per_ip (limiter s) = max;
  ok_counts : counts (limiter s) (live s);
  ok_limit : max ≠ 0%nat → ∀ ip, (occurrences ip (live s) ≤ max)%nat;
  ok_room : max ≠ 0%nat → ∀ ip, accept_loop s = Checked ip → (occurrences ip (live s) < max)%nat;
}.

Lemma on_disconnect_max l ip : max_per_ip (on_disconnect l ip) = max_per_ip l.
Proof. unfold on_disconnect. by repeat case_match. Qed.

Lemma conn_step_ok max s s' : conn_step s s' → conn_ok max s → conn_ok max s'.
Proof.
  intros Hstep [Hmax Hc Hlim Hroom]. destruct Hstep as [l ip hs Hchk|l ip hs Hchk|l ip hs|l lp hs1 ip hs2];
    simpl in *.
  - split; simpl; [done..|]. intros Hne ip' [= <-].
    unfold limiter_check in Hchk. rewrite Hmax, (counts_count l hs) in Hchk by done.
    destruct (Nat.eqb_spec max 0); [done|]. by apply Nat.ltb_lt.
  - by split.
  - split; simpl; [done|by apply counts_connect| |done].
    intros Hne ip'. case_decide as Heq; [subst ip'|by apply Hlim]. by apply Hroom.
  - split; simpl.
    + by rewrite on_disconnect_max.
    + by apply counts_disconnect.
    + intros Hne ip'. specialize (Hlim Hne ip'). rewrite occurrences_app in *. simpl in *.
      case_decide; lia.
    + intros Hne ip' Hlp. specialize (Hroom Hne ip' Hlp). rewrite occurrences_app in *. simpl in *.
      case_decide; lia.
Qed.

Lemma conn_init_ok max : conn_ok max (conn_init max).
Proof. split; simpl; [done|apply counts_new|intros; lia|done]. Qed.

Lemma conn_reachable_ok max s : rtc conn_step (conn_init max) s → conn_ok max s.
Proof.
  intros Hr. eapply rtc_ind_r with (P := conn_ok max); [apply conn_init_ok| |exact Hr].
  intros s1 s2 _ Hs Hok. by eapply conn_step_ok.
Qed.

(** ** Properties *)

(** Under one accept loop, whatever handlers are dropped between its check
    and its registration, an address never has more connections than the
    configured maximum, and the limiter's table holds exactly the number of
    live connections of each address and no entry without one. *)
Theorem connection_limit_holds max s :
  rtc conn_step (conn_init max) s →
  counts (limiter s) (live s)
  ∧ (max ≠ 0%nat → ∀ ip, (occurrences ip (live s) ≤ max)%nat).
Proof. intros Hr. destruct (conn_reachable_ok max s Hr) as [_ Hc Hl _]. by split. Qed.

(** Check and registration are two critical sections: two handlers
    constructed at the same time for an address with one place left both pass
    the check and are both registered, one more than the maximum. *)
Theorem concurrent_construction_exceeds_limit max ip l :
  max_per_ip l = S max → count l ip = max →
  limiter_check l ip = true
  ∧ count (on_connect (on_connect l ip) ip) ip = S (S max)
  ∧ limiter_check (on_connect l ip) ip = false.
Proof.
  intros Hmax Hc. unfold limiter_check, on_connect, count in *. simpl. rewrite Hmax, Hc.
  rewrite !lookup_insert_eq. simpl. split_and!; [apply Nat.ltb_lt; lia|done|].
  apply Nat.ltb_ge. lia.
Qed.

(** ** Examples *)
Module RateLimitExample.
Definition host : IpAddr := V4 [10; 0; 0; 1]%Z.

Lemma connection_limit_holds_witness :
  counts (on_connect (limiter_new 1) host) [host]
  ∧ (1%nat ≠ 0%nat → ∀ ip, (occurrences ip [host] ≤ 1)%nat).
Proof.
  apply (connection_limit_holds 1 (mkConn (on_connect (limiter_new 1) host) Idle [host])).
  eapply rtc_l; [by apply (step_check_allowed _ host)|].
  eapply rtc_l; [apply step_connect|]. apply rtc_refl.
Defined.

Lemma concurrent_construction_exceeds_limit_witness :
  limiter_check (limiter_new 1) host = true
  ∧ count (on_connect (on_connect (limiter_new 1) host) host) host = 2%nat
  ∧ limiter_check (on_connect (limiter_new 1) host) host = false.
Proof. apply (concurrent_construction_exceeds_limit 0 host (limiter_new 1)); reflexivity. Defined.
End RateLimitExample.
