(* ===== verification/Socket.v ===== *)
(** * Sockets, as the connection handlers use them

    A connected stream, with what the peer will send cut into the pieces in
    which it arrives, what has been written, and the results the coming writes
    will have.  Handlers are computations in [io]: state passing through the
    socket, with early return on an error. *)
From S2P Require Import Prelude RustStd.
From Stdlib Require Import Ascii Strings.Byte.

(** ** Errors *)
(** The [std::io::ErrorKind]s the sources distinguish. *)
Inductive ErrorKind :=
| KUnexpectedEof | KInvalidData | KConnectionRefused | KAddrNotAvailable
| KNetworkUnreachable | KHostUnreachable | KOther (n : nat).

Record IoErr := mkIoErr { err_kind : ErrorKind; err_message : string }.

Definition eof_error : IoErr := mkIoErr KUnexpectedEof "early eof".

(** A line break on the wire. *)
Definition crlf : string := String "013" (String "010" EmptyString).

(** ** State *)
Record Sock := mkSock {
  sk_in : list (result (list byte) IoErr);   (* reads to come; [Ok []] is the end *)
  sk_out : list byte;                        (* what has been written *)
  sk_writes : list (option IoErr);           (* failures of writes to come; success after *)
  sk_shut : bool;                            (* the writing half was shut down *)
}.

Definition set_in (s : Sock) (i : list (result (list byte) IoErr)) : Sock :=
  mkSock i (sk_out s) (sk_writes s) (sk_shut s).

(** A socket on which no write fails. *)
Definition quiet (i : list (result (list byte) IoErr)) (o : list byte) : Sock := mkSock i o [] false.

Definition io (E A : Type) : Type := Sock → Sock * result A E.

#[export] Instance io_ret {E} : MRet (io E) := λ A a s, (s, Ok a).
#[export] Instance io_bind {E} : MBind (io E) := λ A B k m s,
  match m s with (s', Ok a) => k a s' | (s', Err e) => (s', Err e) end.
Definition io_err {E A} (e : E) : io E A := λ s, (s, Err e).
(** [?] with a conversion of the error. *)
Definition io_map_err {E F A} (f : E → F) (m : io E A) : io F A := λ s,
  match m s with (s', Ok a) => (s', Ok a) | (s', Err e) => (s', Err (f e)) end.
(** [let _ = m.await]: the result is dropped. *)
Definition io_ignore {E F A} (m : io E A) : io F unit := λ s, ((m s).1, Ok ()).

(** ** Reading *)
(** [AsyncReadExt::read_exact]: bytes of a piece beyond those asked for stay. *)
Fixpoint read_exact_loop (stream : list (result (list byte) IoErr)) (n : nat) (acc : list byte)
    : list (result (list byte) IoErr) * result (list byte) IoErr :=
  if (n =? 0)%nat then (stream, Ok acc)
  else match stream with
       | [] => ([], Err eof_error)
       | Err e :: stream' => (stream', Err e)
       | Ok [] :: stream' => (Ok [] :: stream', Err eof_error)
       | Ok c :: stream' =>
           if (n <? length c)%nat then (Ok (drop n c) :: stream', Ok (acc ++ take n c))
           else read_exact_loop stream' (n - length c) (acc ++ c)
       end.

Definition read_exact (n : nat) : io IoErr (list byte) := λ s,
  let '(i, r) := read_exact_loop (sk_in s) n [] in (set_in s i, r).

Definition read_u8 : io IoErr byte :=
  bs ← read_exact 1; mret (default x00 (head bs)).
Definition read_u16 : io IoErr Z :=
  bs ← read_exact 2; mret (u16_from_be_bytes (default x00 (bs !! 0%nat)) (default x00 (bs !! 1%nat))).

(** [AsyncReadExt::read] into a buffer of [size] bytes. *)
Definition read_some (size : nat) : io IoErr (list byte) := λ s,
  match sk_in s with
  | [] => (s, Ok [])
  | Err e :: i => (set_in s i, Err e)
  | Ok [] :: i => (s, Ok [])
  | Ok c :: i =>
      if (size <? length c)%nat then (set_in s (Ok (drop size c) :: i), Ok (take size c))
      else (set_in s i, Ok c)
  end.

(** ** Writing *)
Definition next_write (s : Sock) : option IoErr * list (option IoErr) :=
  match sk_writes s with [] => (None, []) | r :: rs => (r, rs) end.

Definition write_all (bs : list byte) : io IoErr unit := λ s,
  match next_write s with
  | (None, rs) => (mkSock (sk_in s) (sk_out s ++ bs) rs (sk_shut s), Ok ())
  | (Some e, rs) => (mkSock (sk_in s) (sk_out s) rs (sk_shut s), Err e)
  end.
Definition write_u8 (n : Z) : io IoErr unit := write_all [byte_of n].
Definition write_u16 (n : Z) : io IoErr unit := write_all (u16_to_be_bytes n).
Definition flush : io IoErr unit := write_all [].

Definition shutdown : io IoErr unit := λ s,
  match next_write s with
  | (None, rs) => (mkSock (sk_in s) (sk_out s) rs true, Ok ())
  | (Some e, rs) => (mkSock (sk_in s) (sk_out s) rs (sk_shut s), Err e)
  end.

(** ** The bytes a reader will see
    However they are cut up: everything before the first failure or end. *)
Fixpoint data (stream : list (result (list byte) IoErr)) : list byte :=
  match stream with
  | [] | Err _ :: _ | Ok [] :: _ => []
  | Ok c :: stream' => c ++ data stream'
  end.
Notation sk_data s := (data (sk_in s)).

Lemma read_exact_loop_data stream n acc :
  if (n <=? length (data stream))%nat
  then ∃ stream', read_exact_loop stream n acc = (stream', Ok (acc ++ take n (data stream)))
                  ∧ data stream' = drop n (data stream)
  else ∃ stream' e, read_exact_loop stream n acc = (stream', Err e).
Proof.
  revert n acc. induction stream as [|[[|b c]|e] stream IH]; intros n acc.
  1,2,4: destruct n as [|n]; simpl; [rewrite app_nil_r|]; by eauto.
  destruct n as [|n]; [simpl; rewrite app_nil_r; by eauto|].
  cbn [read_exact_loop]. change (S n =? 0)%nat with false. cbv iota.
  set (c' := b :: c) in *. change (data (Ok c' :: stream)) with (c' ++ data stream).
  clearbody c'.
  rewrite length_app. destruct (S n <? length c')%nat eqn:Hlt.
  - apply Nat.ltb_lt in Hlt. rewrite (leb_correct (S n)) by lia.
    exists (Ok (drop (S n) c') :: stream). rewrite take_app_le, drop_app_le by lia. split; [done|].
    destruct (drop (S n) c') eqn:Hd; [|done]. apply (f_equal length) in Hd.
    rewrite length_drop in Hd. simpl in Hd. lia.
  - apply Nat.ltb_ge in Hlt. specialize (IH (S n - length c')%nat (acc ++ c')).
    replace (S n <=? length c' + length (data stream))%nat
      with (S n - length c' <=? length (data stream))%nat
      by (apply eq_true_iff_eq; rewrite !Nat.leb_le; lia).
    destruct (_ <=? _)%nat; [|done]. destruct IH as (stream' & -> & Hd). exists stream'.
    rewrite take_app_ge, drop_app_ge by lia. by rewrite <-app_assoc.
Qed.

(** Reading [n] bytes succeeds exactly when the peer sends that many, and takes
    exactly those. *)
Lemma read_exact_ok n s bs rest :
  sk_data s = bs ++ rest → length bs = n →
  ∃ i, read_exact n s = (set_in s i, Ok bs) ∧ data i = rest.
Proof.
  intros Hd Hn. pose proof (read_exact_loop_data (sk_in s) n []) as Hl.
  rewrite Hd, length_app, Hn in Hl. rewrite leb_correct in Hl by lia.
  destruct Hl as (i & Hr & Hi). exists i. unfold read_exact. rewrite Hr. simpl.
  rewrite take_app_length', drop_app_length' in * by done. done.
Qed.

Lemma read_exact_inv n s s' bs :
  read_exact n s = (s', Ok bs) →
  length bs = n ∧ sk_data s = bs ++ sk_data s' ∧ ∃ i, s' = set_in s i.
Proof.
  unfold read_exact. pose proof (read_exact_loop_data (sk_in s) n []) as Hl.
  destruct (n <=? length (data (sk_in s)))%nat eqn:Hle.
  - destruct Hl as (i & -> & Hi). intros [= <- <-]. apply Nat.leb_le in Hle. simpl.
    rewrite Hi, take_drop. split_and!; [rewrite length_take; lia|done|by eexists].
  - by destruct Hl as (i & e & ->).
Qed.

(** ** Readers

    [reader m R]: [m] only reads, succeeds exactly on inputs that start with
    some [bs] that [R] relates to a value, and then has taken exactly [bs] and
    returns that value. *)
Record reader {A} (m : io IoErr A) (R : list byte → A → Prop) : Prop := {
  reader_runs : ∀ s bs rest a, R bs a → sk_data s = bs ++ rest →
    ∃ i, m s = (set_in s i, Ok a) ∧ data i = rest;
  reader_inv : ∀ s s' a, m s = (s', Ok a) →
    ∃ bs i, R bs a ∧ s' = set_in s i ∧ sk_data s = bs ++ data i;
}.

Lemma set_in_in s i : sk_in (set_in s i) = i.
Proof. done. Qed.
Lemma set_in_set_in s i j : set_in (set_in s i) j = set_in s j.
Proof. done. Qed.
Lemma set_in_same s : set_in s (sk_in s) = s.
Proof. by destruct s. Qed.

Lemma reader_exact n : reader (read_exact n) (λ bs a, a = bs ∧ length bs = n).
Proof.
  split.
  - intros s bs rest a [-> Hn] Hd. by eapply read_exact_ok.
  - intros s s' bs (Hn & Hd & i & ->)%read_exact_inv. by exists bs, i.
Qed.

Lemma reader_ret {A} (a : A) : reader (mret a) (λ bs a', bs = [] ∧ a' = a).
Proof.
  split.
  - intros s bs rest a' [-> ->] Hd. exists (sk_in s). by rewrite set_in_same.
  - intros s s' a'. unfold mret, io_ret. intros [= <- <-]. exists [], (sk_in s). by rewrite set_in_same.
Qed.

Lemma reader_bind {A B} (m : io IoErr A) (k : A → io IoErr B) R1 R2 :
  reader m R1 → (∀ a, reader (k a) (R2 a)) →
  reader (m ≫= k) (λ bs b, ∃ bs1 bs2 a, bs = bs1 ++ bs2 ∧ R1 bs1 a ∧ R2 a bs2 b).
Proof.
  intros Hm Hk. split; unfold mbind, io_bind.
  - intros s bs rest b (bs1 & bs2 & a & -> & H1 & H2) Hd. rewrite <-app_assoc in Hd.
    destruct (reader_runs _ _ Hm s bs1 _ a H1 Hd) as (i & -> & Hi).
    destruct (reader_runs _ _ (Hk a) (set_in s i) bs2 rest b H2 Hi) as (j & Hj & Hr).
    exists j. by rewrite Hj.
  - intros s s' b. destruct (m s) as [s1 [a|e]] eqn:Hs; [|done]. intros Hb.
    destruct (reader_inv _ _ Hm _ _ _ Hs) as (bs1 & i & H1 & -> & Hd).
    destruct (reader_inv _ _ (Hk a) _ _ _ Hb) as (bs2 & j & H2 & -> & Hd2). simpl in Hd2.
    exists (bs1 ++ bs2), j. split_and!; [by eexists _, _, _|done|].
    by rewrite Hd, Hd2, app_assoc.
Qed.

Lemma reader_iff {A} (m : io IoErr A) R R' : reader m R → (∀ bs a, R bs a ↔ R' bs a) → reader m R'.
Proof.
  intros [Hr Hi] HR. split.
  - intros s bs rest a H%HR. by apply Hr.
  - intros s s' a (bs & i & H%HR & ?)%Hi. eauto.
Qed.

Lemma reader_err {A} e : reader (A := A) (io_err e) (λ _ _, False).
Proof. by split. Qed.

Lemma reader_u8 : reader read_u8 (λ bs a, bs = [a]).
Proof.
  eapply reader_iff; [eapply reader_bind; [apply reader_exact|intros; apply reader_ret]|].
  intros bs a. split.
  - intros (bs1 & bs2 & c & -> & [-> Hl] & -> & ->). by destruct bs1 as [|b [|]].
  - intros ->. exists [a], [], [a]. done.
Qed.

Lemma reader_u16 : reader read_u16 (λ bs n, bs = u16_to_be_bytes n ∧ 0 ≤ n < 65536)%Z.
Proof.
  eapply reader_iff; [eapply reader_bind; [apply reader_exact|intros; apply reader_ret]|].
  intros bs n. split.
  - intros (bs1 & bs2 & c & -> & [-> Hl] & -> & ->). destruct bs1 as [|b0 [|b1 [|]]]; try done. simpl.
    split; [by rewrite u16_to_from|]. apply u16_from_be_bytes_range.
  - intros [-> Hn]. exists (u16_to_be_bytes n), [], (u16_to_be_bytes n).
    split_and!; [by rewrite app_nil_r|done..|]. simpl.
    rewrite u16_be_round_trip. symmetry. by apply Z.mod_small.
Qed.

(** ** Sequencing *)
Lemma io_bind_ok {E A B} (m : io E A) (k : A → io E B) s s' a :
  m s = (s', Ok a) → (m ≫= k) s = k a s'.
Proof. intros H. unfold mbind, io_bind. by rewrite H. Qed.

Lemma io_bind_inv {E A B} (m : io E A) (k : A → io E B) s s' b :
  (m ≫= k) s = (s', Ok b) → ∃ a s1, m s = (s1, Ok a) ∧ k a s1 = (s', Ok b).
Proof. unfold mbind, io_bind. destruct (m s) as [s1 [a|e]]; [eauto|done]. Qed.

Lemma io_map_err_ok {E F A} (f : E → F) (m : io E A) s s' a :
  m s = (s', Ok a) → io_map_err f m s = (s', Ok a).
Proof. intros H. unfold io_map_err. by rewrite H. Qed.

Lemma io_map_err_inv {E F A} (f : E → F) (m : io E A) s s' a :
  io_map_err f m s = (s', Ok a) → m s = (s', Ok a).
Proof. unfold io_map_err. destruct (m s) as [s1 [|]]; [|done]. by intros [= <- <-]. Qed.

(** ** Writers *)
Lemma write_all_ok bs s :
  sk_writes s = [] → write_all bs s = (mkSock (sk_in s) (sk_out s ++ bs) [] (sk_shut s), Ok ()).
Proof. intros H. unfold write_all, next_write. by rewrite H. Qed.

Lemma write_all_inv bs s s' u : write_all bs s = (s', Ok u) → sk_in s' = sk_in s.
Proof.
  unfold write_all. destruct (next_write s) as [[e|] rs]; [done|]. by intros [= <- _].
Qed.

(** A writer appends its bytes when no write fails. *)
Definition writes (m : io IoErr unit) (bs : list byte) : Prop :=
  ∀ s, sk_writes s = [] → m s = (mkSock (sk_in s) (sk_out s ++ bs) [] (sk_shut s), Ok ()).

Lemma writes_seq m m' bs bs' : writes m bs → writes m' bs' → writes (_ ← m; m') (bs ++ bs').
Proof.
  intros Hm Hm' s Hs. rewrite (io_bind_ok _ _ _ _ _ (Hm s Hs)), Hm' by done. simpl. by rewrite app_assoc.
Qed.

Lemma writes_all bs : writes (write_all bs) bs.
Proof. intros s Hs. by apply write_all_ok. Qed.

Lemma flush_ok s : sk_writes s = [] → flush s = (s, Ok ()).
Proof.
  intros Hs. unfold flush. rewrite writes_all, app_nil_r by done. destruct s. simpl in *. by subst.
Qed.
