(* ===== verification/Socks5.v ===== *)
(** * The SOCKS5 server (socks5/protocol.rs, socks5/mod.rs)

    Greeting, request and reply messages, and the handler of one connection.
    The [ChannelOpener] and the relaying of bytes that follows a successful
    open are parameters; the log of [open_channel] calls is part of the
    handler's result. *)
From S2P Require Import Prelude RustStd Net Socket.
From Stdlib Require Import Strings.Byte.
Open Scope Z_scope.

(** ** Messages (socks5/protocol.rs) *)
Inductive Socks5Address :=
| SAIpv4 (octets : list byte)
| SAIpv6 (octets : list byte)
| SADomain (name : string).

Record Socks5VersionMethod := mkVersionMethod { vm_version : byte; methods : list byte }.

Definition version_method_read_from : io IoErr Socks5VersionMethod :=
  version ← read_u8;
  nmethods ← read_u8;
  ms ← read_exact (Z.to_nat (byte_val nmethods));
  mret (mkVersionMethod version ms).

Record Socks5Request := mkRequest {
  req_version : byte;
  req_command : byte;
  req_address : Socks5Address;
  req_port : Z;
}.

Definition read_address (atyp : byte) : io IoErr Socks5Address :=
  if byte_val atyp =? 1 then
    octets ← read_exact 4; mret (SAIpv4 octets)
  else if byte_val atyp =? 4 then
    octets ← read_exact 16; mret (SAIpv6 octets)
  else if byte_val atyp =? 3 then
    len ← read_u8;
    domain ← read_exact (Z.to_nat (byte_val len));
    mret (SADomain (from_utf8_lossy domain))
  else io_err (mkIoErr KInvalidData ("unsupported address type: " +:+ show_uint (byte_val atyp))).

Definition request_read_from : io IoErr Socks5Request :=
  version ← read_u8;
  command ← read_u8;
  _ ← read_u8;
  atyp ← read_u8;
  address ← read_address atyp;
  port ← read_u16;
  mret (mkRequest version command address port).

Record Socks5Reply := mkReply {
  rep_version : Z;
  rep_reply : Z;
  rep_address : Socks5Address;
  rep_port : Z;
}.

(** [Ipv4Addr::UNSPECIFIED]. *)
Definition unspecified : Socks5Address := SAIpv4 [x00; x00; x00; x00].

Definition reply_success (address : Socks5Address) (port : Z) : Socks5Reply := mkReply 5 0 address port.
Definition connection_refused : Socks5Reply := mkReply 5 5 unspecified 0.
Definition command_not_supported : Socks5Reply := mkReply 5 7 unspecified 0.

Definition write_address (a : Socks5Address) : io IoErr unit :=
  match a with
  | SAIpv4 octets => _ ← write_u8 1; write_all octets
  | SAIpv6 octets => _ ← write_u8 4; write_all octets
  | SADomain name =>
      _ ← write_u8 3;
      _ ← write_u8 (as_u8 (Z.of_nat (length (bytes_of name))));
      write_all (bytes_of name)
  end.

Definition reply_write_to (r : Socks5Reply) : io IoErr unit :=
  _ ← write_u8 (rep_version r);
  _ ← write_u8 (rep_reply r);
  _ ← write_u8 0;
  _ ← write_address (rep_address r);
  _ ← write_u16 (rep_port r);
  flush.

(** [Ipv4Addr::to_string], [Ipv6Addr::to_string]. *)
Fixpoint groups_of (bs : list byte) : list Z :=
  match bs with
  | b0 :: b1 :: bs' => u16_from_be_bytes b0 b1 :: groups_of bs'
  | _ => []
  end.
Definition address_host (a : Socks5Address) : string :=
  match a with
  | SAIpv4 octets => show_ip (V4 (byte_val <$> octets))
  | SAIpv6 octets => show_ip (V6 (groups_of octets))
  | SADomain name => name
  end.

(** ** The handler of one connection (socks5/mod.rs) *)
Inductive ChannelOpenError := SessionClosed | ChannelOpenFailed | OpenConnectionRefused.

Inductive Socks5Error :=
| InvalidVersion (v : byte)
| NoAcceptableAuth
| UnsupportedCommand (c : byte)
| SocksChannelOpenFailed
| SocksIo (e : IoErr).

Notation lift := (io_map_err SocksIo).

Section Socks5.
Context {Stream : Type}.
Context (open_channel : string → Z → result Stream ChannelOpenError).
(** [tokio::io::copy_bidirectional] of the socket and the channel. *)
Context (copy_bidirectional : Stream → io IoErr unit).

Definition send_error_reply (r : Socks5Reply) : io Socks5Error unit :=
  _ ← lift (reply_write_to r);
  io_ignore shutdown.

(** Up to the call of [open_channel]: the destination asked for. *)
Definition socks5_negotiate : io Socks5Error (string * Z) :=
  vm ← lift version_method_read_from;
  if negb (byte_val (vm_version vm) =? 5) then io_err (InvalidVersion (vm_version vm))
  else if negb (existsb (λ m, byte_val m =? 0) (methods vm)) then
    _ ← lift (write_all [x05; xff]);
    _ ← lift shutdown;
    io_err NoAcceptableAuth
  else
    _ ← lift (write_all [x05; x00]);
    request ← lift request_read_from;
    if negb (byte_val (req_version request) =? 5) then io_err (InvalidVersion (req_version request))
    else if negb (byte_val (req_command request) =? 1) then
      _ ← send_error_reply command_not_supported;
      io_err (UnsupportedCommand (req_command request))
    else mret (address_host (req_address request), req_port request).

(** The handler, with the [open_channel] calls it makes. *)
Definition handle_socks5_connection (s : Sock) : Sock * result unit Socks5Error * list (string * Z) :=
  match socks5_negotiate s with
  | (s', Err e) => (s', Err e, [])
  | (s', Ok (host, port)) =>
      match open_channel host port with
      | Ok ssh_stream =>
          (lift (_ ← reply_write_to (reply_success unspecified 0); copy_bidirectional ssh_stream) s',
           [(host, port)])
      | Err _ =>
          ((_ ← send_error_reply connection_refused; io_err SocksChannelOpenFailed) s', [(host, port)])
      end
  end.
End Socks5.

(** ** The messages on the wire *)
Definition len_byte (bs : list byte) : byte := byte_of (Z.of_nat (length bs)).

Lemma len_byte_val bs : (length bs < 256)%nat → Z.to_nat (byte_val (len_byte bs)) = length bs.
Proof. intros Hl. unfold len_byte. rewrite byte_val_of, Z.mod_small by lia. lia. Qed.

Lemma len_byte_of b bs : length bs = Z.to_nat (byte_val b) → b = len_byte bs ∧ (length bs < 256)%nat.
Proof.
  intros Hl. pose proof (byte_val_range b). split; [|lia]. unfold len_byte.
  by rewrite Hl, Z2Nat.id, byte_of_val by lia.
Qed.

Definition wire_greeting (vm : Socks5VersionMethod) : list byte :=
  vm_version vm :: len_byte (methods vm) :: methods vm.

(** An address type, the bytes that follow it, and the address they are read as. *)
Inductive wire_address : byte → list byte → Socks5Address → Prop :=
| wire_ipv4 os : length os = 4%nat → wire_address x01 os (SAIpv4 os)
| wire_ipv6 os : length os = 16%nat → wire_address x04 os (SAIpv6 os)
| wire_domain d : (length d < 256)%nat → wire_address x03 (len_byte d :: d) (SADomain (from_utf8_lossy d)).

(** A request, with any reserved byte. *)
Inductive wire_request : list byte → Socks5Request → Prop :=
| wire_req version command rsv atyp abs a port :
    wire_address atyp abs a → 0 ≤ port < 65536 →
    wire_request ([version; command; rsv; atyp] ++ abs ++ u16_to_be_bytes port)
      (mkRequest version command a port).

Lemma reader_version_method :
  reader version_method_read_from
    (λ bs vm, bs = wire_greeting vm ∧ (length (methods vm) < 256)%nat).
Proof.
  eapply reader_iff.
  { eapply reader_bind; [apply reader_u8|intros v].
    eapply reader_bind; [apply reader_u8|intros n].
    eapply reader_bind; [apply reader_exact|intros ms; apply reader_ret]. }
  intros bs [v ms]; simpl. split.
  - intros (? & ? & v' & -> & -> & ? & ? & n & -> & -> & ? & ? & ms' & -> & [-> Hn] & -> & [= -> ->]).
    apply len_byte_of in Hn as [-> Hn]. by rewrite app_nil_r.
  - intros [-> Hl]. exists [v], (len_byte ms :: ms), v. split_and!; [done..|].
    exists [len_byte ms], ms, (len_byte ms). split_and!; [done..|].
    exists ms, [], ms. rewrite app_nil_r, len_byte_val by done. done.
Qed.

Lemma byte_is n b : byte_val b =? n = true → b = byte_of n.
Proof. intros H%Z.eqb_eq. by rewrite <-H, byte_of_val. Qed.

Lemma reader_address atyp : reader (read_address atyp) (wire_address atyp).
Proof.
  unfold read_address. destruct (byte_val atyp =? 1) eqn:H1; [|destruct (byte_val atyp =? 4) eqn:H4;
    [|destruct (byte_val atyp =? 3) eqn:H3]].
  - apply byte_is in H1 as ->. eapply reader_iff.
    { eapply reader_bind; [apply reader_exact|intros; apply reader_ret]. }
    intros bs a. split.
    + intros (? & ? & os & -> & [-> Hl] & -> & ->). rewrite app_nil_r. by constructor.
    + inversion 1; subst. exists bs, [], bs. by rewrite app_nil_r.
  - apply byte_is in H4 as ->. eapply reader_iff.
    { eapply reader_bind; [apply reader_exact|intros; apply reader_ret]. }
    intros bs a. split.
    + intros (? & ? & os & -> & [-> Hl] & -> & ->). rewrite app_nil_r. by constructor.
    + inversion 1; subst. exists bs, [], bs. by rewrite app_nil_r.
  - apply byte_is in H3 as ->. eapply reader_iff.
    { eapply reader_bind; [apply reader_u8|intros n].
      eapply reader_bind; [apply reader_exact|intros; apply reader_ret]. }
    intros bs a. split.
    + intros (? & ? & n & -> & -> & ? & ? & d & -> & [-> Hl] & -> & ->). rewrite app_nil_r.
      apply len_byte_of in Hl as [-> Hl]. by constructor.
    + inversion 1; subst. eexists [_], d, _. split_and!; [done..|]. exists d, [], d.
      rewrite app_nil_r, len_byte_val by done. done.
  - eapply reader_iff; [apply reader_err|]. intros bs a. split; [done|].
    by inversion 1; subst.
Qed.

Lemma reader_request : reader request_read_from wire_request.
Proof.
  eapply reader_iff.
  { do 4 (eapply reader_bind; [apply reader_u8|intros ?]).
    eapply reader_bind; [apply reader_address|intros ?].
    eapply reader_bind; [apply reader_u16|intros; apply reader_ret]. }
  intros bs r. split.
  - intros (? & ? & v & -> & -> & ? & ? & c & -> & -> & ? & ? & rsv & -> & -> & ? & ? & at' & -> & ->
            & abs & ? & a & -> & Ha & ? & ? & p & -> & [-> Hp] & -> & ->).
    rewrite app_nil_r. by apply (wire_req v c rsv at' abs a p).
  - inversion 1 as [v c rsv at' abs a p Ha Hp]; subst; simpl.
    do 4 (eexists [_], _, _; split_and!; [reflexivity|reflexivity|]).
    eexists abs, _, a. split_and!; [reflexivity|done|].
    eexists _, [], p. by rewrite app_nil_r.
Qed.

(** What a client that asks for [host]:[port] without authentication sends. *)
Inductive connect_bytes : list byte → string → Z → Prop :=
| connect_msg ms bs r :
    x00 ∈ ms → (length ms < 256)%nat → wire_request bs r →
    req_version r = x05 → req_command r = x01 →
    connect_bytes (wire_greeting (mkVersionMethod x05 ms) ++ bs) (address_host (req_address r)) (req_port r).

(** ** Running the handler *)
Lemma no_auth_offered ms : existsb (λ m, byte_val m =? 0) ms = true ↔ x00 ∈ ms.
Proof.
  rewrite existsb_exists. setoid_rewrite Z.eqb_eq. split.
  - intros (b & Hin & Hb). change 0 with (byte_val x00) in Hb. apply byte_val_inj in Hb as ->.
    by apply list_elem_of_In.
  - intros Hin%list_elem_of_In. by exists x00.
Qed.

Lemma negotiate_ok bs host port s rest :
  connect_bytes bs host port → sk_writes s = [] → sk_data s = bs ++ rest →
  ∃ i, socks5_negotiate s = (mkSock i (sk_out s ++ [x05; x00]) [] (sk_shut s), Ok (host, port))
       ∧ data i = rest.
Proof.
  intros [ms bs' r Hms Hlen Hr Hv Hc] Hw Hd. rewrite <-app_assoc in Hd.
  destruct (reader_runs _ _ reader_version_method s _ _ (mkVersionMethod x05 ms) (conj eq_refl Hlen) Hd)
    as (i & Hi & Hdi).
  unfold socks5_negotiate. rewrite (io_bind_ok _ _ _ _ _ (io_map_err_ok _ _ _ _ _ Hi)). cbn [vm_version methods].
  apply no_auth_offered in Hms. rewrite Hms. change (byte_val x05 =? 5) with true. cbn [negb].
  rewrite (io_bind_ok _ _ _ _ _ (io_map_err_ok _ _ _ _ _ (write_all_ok _ (set_in s i) Hw))).
  set (s1 := mkSock _ _ _ _).
  destruct (reader_runs _ _ reader_request s1 bs' rest r Hr Hdi) as (j & Hj & Hdj).
  rewrite (io_bind_ok _ _ _ _ _ (io_map_err_ok _ _ _ _ _ Hj)), Hv, Hc. by exists j.
Qed.

Lemma negotiate_inv s s' host port :
  socks5_negotiate s = (s', Ok (host, port)) →
  ∃ bs, connect_bytes bs host port ∧ sk_data s = bs ++ sk_data s'.
Proof.
  unfold socks5_negotiate. intros (vm & s1 & Hvm%io_map_err_inv & Hn)%io_bind_inv.
  destruct (reader_inv _ _ reader_version_method _ _ _ Hvm) as (bs1 & i & [-> Hlen] & -> & Hd1).
  destruct vm as [v ms]. simpl in *.
  destruct (byte_val v =? 5) eqn:Hv; [|done]. apply byte_is in Hv as ->. cbn [negb] in Hn.
  destruct (existsb _ ms) eqn:Hms; cbn [negb] in Hn.
  2:{ by destruct (io_bind_inv _ _ _ _ _ Hn) as (? & ? & _ & (? & ? & _ & ?)%io_bind_inv). }
  apply io_bind_inv in Hn as ([] & s2 & Hw%io_map_err_inv%write_all_inv & Hn).
  apply io_bind_inv in Hn as (r & s3 & Hr%io_map_err_inv & Hn).
  destruct (reader_inv _ _ reader_request _ _ _ Hr) as (bs2 & j & Hreq & -> & Hd2).
  destruct (byte_val (req_version r) =? 5) eqn:Hv; [|done]. cbn [negb] in Hn.
  destruct (byte_val (req_command r) =? 1) eqn:Hc; cbn [negb] in Hn.
  2:{ by destruct (io_bind_inv _ _ _ _ _ Hn) as (? & ? & _ & ?). }
  unfold mret, io_ret in Hn. injection Hn as <- <- <-.
  exists (wire_greeting (mkVersionMethod x05 ms) ++ bs2). split.
  - constructor; [by apply no_auth_offered|done|done|by apply byte_is in Hv|by apply byte_is in Hc].
  - rewrite Hd1, <-app_assoc. simpl in *. by rewrite Hw in Hd2; rewrite Hd2.
Qed.

(** The bytes of a reply. *)
Definition reply_address_bytes (a : Socks5Address) : list byte :=
  match a with
  | SAIpv4 os => x01 :: os
  | SAIpv6 os => x04 :: os
  | SADomain name => x03 :: len_byte (bytes_of name) :: bytes_of name
  end.
Definition reply_bytes (r : Socks5Reply) : list byte :=
  [byte_of (rep_version r); byte_of (rep_reply r); x00] ++ reply_address_bytes (rep_address r)
    ++ u16_to_be_bytes (rep_port r).

Lemma byte_of_as_u8 n : byte_of (as_u8 n) = byte_of n.
Proof. apply byte_val_inj. rewrite !byte_val_of. unfold as_u8. apply Z.mod_mod. lia. Qed.

Lemma writes_address a : writes (write_address a) (reply_address_bytes a).
Proof.
  destruct a as [os|os|name]; simpl.
  - apply (writes_seq _ _ [x01] os); apply writes_all.
  - apply (writes_seq _ _ [x04] os); apply writes_all.
  - apply (writes_seq _ _ [x03] (len_byte (bytes_of name) :: bytes_of name)); [apply writes_all|].
    apply (writes_seq _ _ [len_byte (bytes_of name)] (bytes_of name)); [|apply writes_all].
    unfold write_u8. rewrite byte_of_as_u8. apply writes_all.
Qed.

Lemma writes_reply r : writes (reply_write_to r) (reply_bytes r).
Proof.
  unfold reply_bytes, reply_write_to. rewrite <-(app_nil_r (u16_to_be_bytes _)).
  apply (writes_seq _ _ [byte_of (rep_version r)]); [apply writes_all|].
  apply (writes_seq _ _ [byte_of (rep_reply r)]); [apply writes_all|].
  apply (writes_seq _ _ [x00]); [apply writes_all|].
  apply writes_seq; [apply writes_address|]. apply writes_seq; apply writes_all.
Qed.

(** ** Properties *)
Section Properties.
Context {Stream : Type}.
Context (open_channel : string → Z → result Stream ChannelOpenError).
Context (copy_bidirectional : Stream → io IoErr unit).
Notation handle := (handle_socks5_connection open_channel copy_bidirectional).

(** A CONNECT that has been read is answered by what [open_channel] says. *)
Lemma handle_connect bs host port payload s :
  connect_bytes bs host port → sk_writes s = [] → sk_data s = bs ++ payload →
  ∃ i, data i = payload ∧
    handle s =
      match open_channel host port with
      | Ok st =>
          (lift (copy_bidirectional st)
             (mkSock i (sk_out s ++ [x05; x00] ++ [x05; x00; x00; x01; x00; x00; x00; x00; x00; x00]) []
                (sk_shut s)),
           [(host, port)])
      | Err _ =>
          (mkSock i (sk_out s ++ [x05; x00] ++ [x05; x05; x00; x01; x00; x00; x00; x00; x00; x00]) [] true,
           Err SocksChannelOpenFailed, [(host, port)])
      end.
Proof.
  intros Hc Hw Hd. destruct (negotiate_ok bs host port s payload Hc Hw Hd) as (i & Hn & Hi).
  exists i. split; [done|]. unfold handle_socks5_connection. rewrite Hn.
  set (s1 := mkSock i _ _ _).
  destruct (open_channel host port) as [st|e]; f_equal.
  - unfold io_map_err at 1.
    rewrite (io_bind_ok _ _ _ _ _ (writes_reply (reply_success unspecified 0) s1 eq_refl)).
    unfold s1. cbn [sk_out sk_in sk_shut]. by rewrite <-app_assoc.
  - unfold send_error_reply.
    erewrite io_bind_ok.
    2:{ erewrite io_bind_ok; [reflexivity|]. apply io_map_err_ok.
        exact (writes_reply connection_refused s1 eq_refl). }
    unfold io_err, s1. cbn [sk_out sk_in sk_shut]. by rewrite <-app_assoc.
Qed.

(** C16: the SOCKS5 server serves a well-formed CONNECT, however its bytes
    arrive.  It accepts the greeting, asks for one channel to exactly the host
    and port of the request (a domain name untouched, an address printed), and
    then either reports success and starts relaying with every byte after the
    request still unread, or reports a refusal and closes. *)
Theorem socks5_serves bs host port payload s :
  connect_bytes bs host port → sk_writes s = [] → sk_data s = bs ++ payload →
  ∃ i, data i = payload ∧
    handle s =
      match open_channel host port with
      | Ok st =>
          (lift (copy_bidirectional st)
             (mkSock i (sk_out s ++ [x05; x00] ++ [x05; x00; x00; x01; x00; x00; x00; x00; x00; x00]) []
                (sk_shut s)),
           [(host, port)])
      | Err _ =>
          (mkSock i (sk_out s ++ [x05; x00] ++ [x05; x05; x00; x01; x00; x00; x00; x00; x00; x00]) [] true,
           Err SocksChannelOpenFailed, [(host, port)])
      end.
Proof. apply handle_connect. Qed.

(** The SOCKS5 server opens a channel only on request.  Whatever the peer
    sends and wherever reading or writing fails, the handler asks for at most
    one channel, and only after a complete version 5 greeting that offers "no
    authentication" and a complete version 5 CONNECT request for exactly that
    host and port. *)
Theorem socks5_opens_only_requested s s' r dials :
  handle s = (s', r, dials) →
  dials = [] ∨
  ∃ host port bs rest, dials = [(host, port)] ∧ connect_bytes bs host port ∧ sk_data s = bs ++ rest.
Proof.
  unfold handle_socks5_connection.
  destruct (socks5_negotiate s) as [s1 [[host port]|e]] eqn:Hn; [|intros [= _ _ <-]; by left].
  apply negotiate_inv in Hn as (bs & Hc & Hd). intros Hh. right. exists host, port, bs, (sk_data s1).
  split_and!; [|done..]. destruct (open_channel host port); by simplify_eq/=.
Qed.
End Properties.
