(* ===== verification/ServerHandler.v ===== *)
(** * The SSH server handler (server/handler.rs, server/control_channel.rs)

    One handler per connection: construction and [Drop] against the shared
    connection limiter, public-key authentication, direct-tcpip channels, and
    the requests it refuses.  The configuration cell and the identity provider
    are read at each call, so they are arguments.  Name resolution
    ([tokio::net::lookup_host]) is the parameter [lookup_host]. *)
From S2P Require Import Prelude RustStd Net Forwarding Keys AuthPolicy DynConfig RateLimit.
From Stdlib Require Import Ascii.
Open Scope Z_scope.

Inductive ProxyMode :=
| Direct
| Socks5Proxy (addr : SocketAddr)
| HttpConnect (addr : SocketAddr).

Record ProxyConfig := mkProxyConfig { mode : ProxyMode }.

Record ServerHandler := mkServerHandler {
  outbound_proxy : option ProxyConfig;
  h_remote_addr : option SocketAddr;
  control_handler : bool;
  h_transport : TransportKind;
  connection_allowed : bool;
  auth_limiter : AuthAttemptLimiter;
  authenticated_identity : option Identity;
}.

Inductive Auth := Accept | Reject.

(** ** Construction and drop *)
Definition handler_new (proxy : option ProxyConfig) (remote : option SocketAddr)
    (transport : TransportKind) (limiter : ConnectionRateLimiter) (max_auth_attempts : nat)
    : ServerHandler * ConnectionRateLimiter :=
  let '(allowed, limiter) :=
    match remote with
    | Some addr =>
        let ip := sock_ip addr in
        if limiter_check limiter ip then (true, on_connect limiter ip) else (false, limiter)
    | None => (true, limiter)
    end in
  (mkServerHandler proxy remote false transport allowed (attempts_new max_auth_attempts) None,
   limiter).

Definition handler_drop (h : ServerHandler) (limiter : ConnectionRateLimiter)
    : ConnectionRateLimiter :=
  match h_remote_addr h with
  | Some addr => if connection_allowed h then on_disconnect limiter (sock_ip addr) else limiter
  | None => limiter
  end.

Definition with_control_channel_handler (h : ServerHandler) : ServerHandler :=
  mkServerHandler (outbound_proxy h) (h_remote_addr h) true (h_transport h)
    (connection_allowed h) (auth_limiter h) (authenticated_identity h).

(** ** Authentication *)
Definition auth_publickey `{SshKeys} (P : IdentityProvider) (h : ServerHandler) (key : PublicKey)
    : ServerHandler * Auth :=
  if negb (attempts_check (auth_limiter h)) then (h, Reject)
  else
    match resolve_from_fingerprint (fingerprint key) with
    | Some i =>
        (mkServerHandler (outbound_proxy h) (h_remote_addr h) (control_handler h) (h_transport h)
           (connection_allowed h) (auth_limiter h) (Some i), Accept)
    | None =>
        (mkServerHandler (outbound_proxy h) (h_remote_addr h) (control_handler h) (h_transport h)
           (connection_allowed h) (on_failure (auth_limiter h)) (authenticated_identity h), Reject)
    end.

(** ** Channels *)

(** The task [channel_open_direct_tcpip] spawns. *)
Record DialTask := mkDial {
  target_host : string;
  target_port : Z;
  proxy_config : ProxyConfig;
}.

Definition anonymous : Identity := mkIdentity EmptyString [] ∅.

Definition channel_open_direct_tcpip `{SshKeys, IpNetworkLib} (cell : DynamicConfig)
    (h : ServerHandler) (host_to_connect : string) (port_to_connect : Z)
    : bool * option DialTask :=
  if starts_with ALKNET_PREFIX host_to_connect then
    if negb (control_handler h) then (false, None) else (true, None)
  else
    let identity := default anonymous (authenticated_identity h) in
    let allowed :=
      policy_check (forwarding cell) host_to_connect (as_u16 port_to_connect) identity
        (h_transport h) in
    if negb allowed then (false, None)
    else
      (true, Some (mkDial host_to_connect port_to_connect
                     (default (mkProxyConfig Direct) (outbound_proxy h)))).

(** The address the task connects to. *)
Definition dial_target (lookup_host : string → Z → list SocketAddr) (t : DialTask)
    : option SocketAddr :=
  match socket_addr_from_str (target_host t +:+ ":" +:+ show_uint (target_port t)) with
  | Some addr => Some addr
  | None => head (lookup_host (target_host t) (as_u16 (target_port t)))
  end.

(** ** Requests that are refused or ignored *)
Inductive SshRequest :=
| OpenSession
| OpenX11 (originator : string) (port : Z)
| OpenForwardedTcpip (host : string) (port : Z)
| Exec (data : string)
| Shell
| Subsystem (name : string)
| Pty (term : string)
| Env (name value : string)
| X11 (screen : Z)
| Agent
| TcpipForward (address : string) (port : Z)
| CancelTcpipForward (address : string) (port : Z)
| StreamlocalForward (socket_path : string)
| Signal.

(** A channel opening or global request answered by a boolean, a channel
    request answered with [channel_failure], or no answer. *)
Inductive SshReply :=
| Answer (accepted : bool)
| ChannelFailure
| NoReply.

Definition open_other_channel (r : SshRequest) : option SshReply :=
  match r with
  | OpenSession | OpenX11 _ _ | OpenForwardedTcpip _ _ => Some (Answer false)
  | _ => None
  end.

Definition channel_request (r : SshRequest) : option SshReply :=
  match r with
  | Exec _ | Shell | Subsystem _ | Pty _ | Env _ _ | X11 _ => Some ChannelFailure
  | Agent => Some (Answer false)
  | _ => None
  end.

Definition global_request (r : SshRequest) : option SshReply :=
  match r with
  | TcpipForward _ _ | CancelTcpipForward _ _ | StreamlocalForward _ => Some (Answer false)
  | Signal => Some NoReply
  | _ => None
  end.

(** ** A connection as a sequence of events

    Each event comes with the configuration cell and provider in force. *)
Section Connection.
Context `{SshKeys, IpNetworkLib}.

Inductive HandlerEvent :=
| EvAuth (key : PublicKey)
| EvDirect (host : string) (port : Z)
| EvRequest (r : SshRequest).

Inductive HandlerOutput :=
| OutAuth (a : Auth)
| OutChannel (accepted : bool) (task : option DialTask)
| OutReply (r : SshReply).

Definition reply_of (r : SshRequest) : SshReply :=
  match open_other_channel r with
  | Some a => a
  | None =>
      match channel_request r with
      | Some a => a
      | None => default NoReply (global_request r)
      end
  end.

Definition handler_step (h : ServerHandler) (ev : DynamicConfig * IdentityProvider * HandlerEvent)
    : ServerHandler * HandlerOutput :=
  match ev with
  | (cell, P, EvAuth key) => let '(h, a) := auth_publickey P h key in (h, OutAuth a)
  | (cell, P, EvDirect host port) =>
      let '(b, t) := channel_open_direct_tcpip cell h host port in (h, OutChannel b t)
  | (cell, P, EvRequest r) => (h, OutReply (reply_of r))
  end.

(** ** Lemmas *)

(** The identity a handler holds was resolved from a key presented to it. *)
Definition identity_from (evs : list (DynamicConfig * IdentityProvider * HandlerEvent))
    (i : Identity) : Prop :=
  ∃ cell P key, (cell, P, EvAuth key) ∈ evs
    ∧ @resolve_from_fingerprint P (fingerprint key) = Some i.

Lemma run_steps_snoc {S I O} (f : S → I → S * O) s evs ev :
  (run_steps f s (evs ++ [ev])).1 = (f (run_steps f s evs).1 ev).1.
Proof.
  revert s. induction evs as [|e evs IH]; intros s; simpl.
  - by destruct (f s ev).
  - destruct (f s e) as [s1 o]. specialize (IH s1). destruct (run_steps f s1 (evs ++ [ev])).
    destruct (run_steps f s1 evs). exact IH.
Qed.

(** What a run of events leaves unchanged or bounds. *)
Record handler_inv (h0 : ServerHandler)
    (evs : list (DynamicConfig * IdentityProvider * HandlerEvent)) (h : ServerHandler) : Prop := {
  inv_proxy : outbound_proxy h = outbound_proxy h0;
  inv_remote : h_remote_addr h = h_remote_addr h0;
  inv_control : control_handler h = control_handler h0;
  inv_transport : h_transport h = h_transport h0;
  inv_allowed : connection_allowed h = connection_allowed h0;
  inv_max : max_attempts (auth_limiter h) = max_attempts (auth_limiter h0);
  inv_failures : max_attempts (auth_limiter h0) ≠ 0%nat →
    (failures (auth_limiter h0) ≤ max_attempts (auth_limiter h0))%nat →
    (failures (auth_limiter h) ≤ max_attempts (auth_limiter h0))%nat;
  inv_identity : ∀ i, authenticated_identity h = Some i →
    authenticated_identity h0 = Some i ∨ identity_from evs i;
}.

(** Whom a connection has logged in as: [who] is the identity of the last key
    that was accepted, [None] if none was.  An accepted key is one that the
    provider then in force resolves. *)
Inductive last_login : list (DynamicConfig * IdentityProvider * HandlerEvent) → list HandlerOutput →
    option Identity → Prop :=
| never_logged_in evs outs :
    length evs = length outs → OutAuth Accept ∉ outs → last_login evs outs None
| logged_in_as evs outs cell P key i evs' outs' :
    length evs = length outs → @resolve_from_fingerprint P (fingerprint key) = Some i →
    length evs' = length outs' → OutAuth Accept ∉ outs' →
    last_login (evs ++ (cell, P, EvAuth key) :: evs') (outs ++ OutAuth Accept :: outs') (Some i).

Lemma last_login_length evs outs who : last_login evs outs who → length evs = length outs.
Proof. intros []; [done|]. rewrite !length_app. simpl. lia. Qed.

Lemma last_login_snoc evs outs who ev o :
  last_login evs outs who → o ≠ OutAuth Accept → last_login (evs ++ [ev]) (outs ++ [o]) who.
Proof.
  intros [evs0 outs0 Hl Hn|evs0 outs0 cell P key i evs' outs' Hl Hr Hl' Hn] Ho.
  - constructor; [rewrite !length_app; simpl; lia|set_solver].
  - rewrite <-!app_assoc. simpl. constructor; [done|done|rewrite !length_app; simpl; lia|set_solver].
Qed.

Lemma run_last_login h evs :
  authenticated_identity h = None →
  last_login evs (run_steps handler_step h evs).2 (authenticated_identity (run_steps handler_step h evs).1).
Proof.
  intros Hn. induction evs as [|ev evs IH] using rev_ind; [simpl; rewrite Hn; by constructor; [|set_solver]|].
  destruct (run_steps handler_step h evs) as [h1 outs] eqn:Hrun. simpl in IH.
  destruct (handler_step h1 ev) as [h2 o] eqn:Hstep. rewrite (run_steps_last _ _ _ _ _ _ _ _ Hrun Hstep). simpl.
  destruct ev as [[cell P] [key|host port|q]]; simpl in Hstep.
  - unfold auth_publickey in Hstep. destruct (negb _); [simplify_eq; by apply last_login_snoc|].
    destruct (resolve_from_fingerprint (fingerprint key)) as [i|] eqn:Hres; simplify_eq; simpl.
    + apply logged_in_as; [by eapply last_login_length|done|done|set_solver].
    + by apply last_login_snoc.
  - destruct (channel_open_direct_tcpip cell h1 host port). simplify_eq. by apply last_login_snoc.
  - simplify_eq. by apply last_login_snoc.
Qed.

(** One run determines who has logged in. *)
Lemma last_login_unique evs outs who who' : last_login evs outs who → last_login evs outs who' → who = who'.
Proof.
  assert (∀ (l1 l2 l1' l2' : list HandlerOutput) x, x ∉ l2 → x ∉ l2' →
    l1 ++ x :: l2 = l1' ++ x :: l2' → l1 = l1' ∧ l2 = l2') as Hlast.
  { intros l1. induction l1 as [|y l1 IH]; intros l2 [|y' l1'] l2' x H2 H2' Heq; simplify_eq/=; [done|set_solver..|].
    destruct (IH l2 l1' l2' x) as [-> ->]; done. }
  intros [evs0 outs0 Hl Hn|evs0 outs0 cell P key i evs' outs' Hl Hr Hl' Hn] H2;
    inversion H2 as [? ? Hl2 Hn2|evs1 outs1 cell1 P1 key1 i1 evs1' outs1' Hl2 Hr2 Hl2' Hn2 He Ho]; subst; try done.
  - set_solver.
  - set_solver.
  - destruct (Hlast _ _ _ _ _ Hn2 Hn Ho) as [-> ->]. apply app_inj_1 in He as [_ He]; [|congruence].
    simplify_eq. congruence.
Qed.

Lemma identity_from_snoc evs ev i : identity_from evs i → identity_from (evs ++ [ev]) i.
Proof. intros (cell & P & key & Hin & Hr). exists cell, P, key. set_solver. Qed.

Lemma handler_step_inv h0 evs h ev :
  handler_inv h0 evs h → handler_inv h0 (evs ++ [ev]) (handler_step h ev).1.
Proof.
  intros [Hp Hr Hc Ht Ha Hm Hf Hi]. destruct ev as [[cell P] [key|host port|r]]; simpl.
  - unfold auth_publickey. destruct (attempts_check (auth_limiter h)) eqn:Hchk; simpl;
      [|split; try done; naive_solver eauto using identity_from_snoc].
    destruct (resolve_from_fingerprint (fingerprint key)) as [i|] eqn:Hres; simpl.
    + split; simpl; try done. intros i' [= <-]. right. exists cell, P, key. set_solver.
    + split; simpl; try done; [|naive_solver eauto using identity_from_snoc].
      intros Hne Hle. unfold attempts_check in Hchk. rewrite Hm in Hchk.
      destruct (Nat.eqb_spec (max_attempts (auth_limiter h0)) 0); [done|].
      apply Nat.ltb_lt in Hchk. lia.
  - destruct (channel_open_direct_tcpip cell h host port). simpl.
    split; try done. naive_solver eauto using identity_from_snoc.
  - split; try done. naive_solver eauto using identity_from_snoc.
Qed.

Lemma run_inv h evs : handler_inv h evs (run_steps handler_step h evs).1.
Proof.
  induction evs as [|ev evs IH] using rev_ind.
  - split; try done. naive_solver.
  - rewrite run_steps_snoc. by apply handler_step_inv.
Qed.

Lemma direct_tcpip_task cell h host port b t :
  channel_open_direct_tcpip cell h host port = (b, Some t) →
  b = true ∧ is_reserved_destination host = false
  ∧ policy_check (forwarding cell) host (as_u16 port)
      (default anonymous (authenticated_identity h)) (h_transport h) = true
  ∧ target_host t = host ∧ target_port t = port
  ∧ proxy_config t = default (mkProxyConfig Direct) (outbound_proxy h).
Proof.
  unfold channel_open_direct_tcpip, is_reserved_destination.
  destruct (starts_with ALKNET_PREFIX host); [by destruct (control_handler h)|].
  destruct (policy_check _ _ _ _ _); simpl; [|done]. by intros [= <- <-].
Qed.

(** *** Counting failed logins *)
(** The keys presented that the provider then in force did not know. *)
Definition unknown_key (ev : DynamicConfig * IdentityProvider * HandlerEvent) : bool :=
  match ev with
  | (_, P, EvAuth key) => match @resolve_from_fingerprint P (fingerprint key) with None => true | Some _ => false end
  | _ => false
  end.
Definition bad_logins (evs : list (DynamicConfig * IdentityProvider * HandlerEvent)) : nat :=
  length (filter (λ ev, unknown_key ev = true) evs).

Lemma bad_logins_snoc evs ev :
  bad_logins (evs ++ [ev]) = (bad_logins evs + if unknown_key ev then 1 else 0)%nat.
Proof.
  unfold bad_logins. rewrite filter_app, length_app. f_equal.
  rewrite filter_cons. destruct (unknown_key ev); simpl; by rewrite ?decide_True, ?decide_False by done.
Qed.

(** The counter is the number of unknown keys, and stops at the limit. *)
Definition counted (max bad : nat) : nat := if (max =? 0)%nat then bad else Nat.min max bad.

Lemma run_counts h evs max :
  auth_limiter h = attempts_new max →
  auth_limiter (run_steps handler_step h evs).1 = mkAttempts max (counted max (bad_logins evs)).
Proof.
  intros Hl. induction evs as [|ev evs IH] using rev_ind.
  { simpl. rewrite Hl. unfold attempts_new, counted, bad_logins. simpl. f_equal. destruct (max =? 0)%nat; lia. }
  rewrite run_steps_snoc, bad_logins_snoc. destruct (run_steps handler_step h evs).1 as [? ? ? ? ? l ?] eqn:Hh.
  simpl in IH. subst l. destruct ev as [[cell P] [key|host port|q]]; simpl.
  - unfold auth_publickey, attempts_check, on_failure, counted. simpl. destruct (Nat.eqb_spec max 0) as [->|Hm].
    + simpl. destruct (resolve_from_fingerprint _); simpl; f_equal; lia.
    + simpl. destruct (Nat.ltb_spec (Nat.min max (bad_logins evs)) max); simpl;
        destruct (resolve_from_fingerprint _); simpl; f_equal; lia.
  - destruct (channel_open_direct_tcpip _ _ _ _). simpl. by rewrite Nat.add_0_r.
  - by rewrite Nat.add_0_r.
Qed.
End Connection.

(** ** Properties *)
Section HandlerProperties.
Context `{SshKeys, IpNetworkLib}.

(** C1: A connection dials out exactly when the policy then in force allows it.
    For a handler in any state its events can bring it to, a direct-tcpip
    request starts a dial if and only if it names a host outside the reserved
    [alknet-] names and the policy allows that host and [u16] port, for the
    handler's transport, to the identity the connection has logged in as: that
    of the last key it accepted, or the empty identity if it has accepted none.
    The dial is then for that very host and port, through the server's proxy. *)
Theorem dials_are_authorised proxy remote transport limiter max evs cell P host port b t :
  let '(h, outs) := run_steps handler_step (handler_new proxy remote transport limiter max).1 evs in
  ∃ who, last_login evs outs who
    ∧ ((handler_step h (cell, P, EvDirect host port)).2 = OutChannel b (Some t) ↔
       b = true ∧ is_reserved_destination host = false
       ∧ policy_check (forwarding cell) host (as_u16 port) (default anonymous who) transport = true
       ∧ t = mkDial host port (default (mkProxyConfig Direct) proxy)).
Proof.
  set (h0 := (handler_new proxy remote transport limiter max).1).
  assert (outbound_proxy h0 = proxy ∧ h_transport h0 = transport ∧ control_handler h0 = false
          ∧ authenticated_identity h0 = None) as (Hp0 & Ht0 & Hc0 & Hi0).
  { unfold h0, handler_new. by repeat case_match. }
  pose proof (run_last_login h0 evs Hi0) as Hlog. destruct (run_inv h0 evs) as [Hp _ Hc Ht _ _ _ _].
  destruct (run_steps handler_step h0 evs) as [h outs]. simpl in *. eexists. split; [exact Hlog|].
  rewrite Hp0 in Hp. rewrite Ht0 in Ht. rewrite Hc0 in Hc.
  unfold channel_open_direct_tcpip, is_reserved_destination. rewrite Hp, Ht, Hc.
  destruct (starts_with ALKNET_PREFIX host); simpl; [naive_solver|].
  destruct (policy_check _ _ _ _ _); simpl; naive_solver.
Qed.

(** C24: The address dialled is the one the policy judged.  When the handler
    lets a request through and its task finds an address, the policy allowed the
    requested host on exactly that address's port; if the host is an IP literal
    the address has that IP, so that every CIDR rule was decided on the address
    dialled, and otherwise no CIDR rule covers the host; and the address is one
    that the host resolves to, or the IP literal, or the IPv6 literal that the
    host holds in brackets. *)
Theorem dial_target_checked cell h host port lookup t a :
  (∀ host port x, x ∈ lookup host port → sock_port x = port) →
  (∀ host port ip x, ip_from_str host = Some ip → x ∈ lookup host port → sock_ip x = ip) →
  0 ≤ port < 2 ^ 32 →
  channel_open_direct_tcpip cell h host port = (true, Some t) → dial_target lookup t = Some a →
  policy_check (forwarding cell) host (sock_port a) (default anonymous (authenticated_identity h)) (h_transport h) = true
  ∧ (∀ network, match_cidr network host =
       match ip_from_str host with Some _ => network_contains network (sock_ip a) | None => false end)
  ∧ (a ∈ lookup host (sock_port a) ∨ ip_from_str host = Some (sock_ip a) ∨ bracketed host (sock_ip a)).
Proof.
  intros Hlp Hlip Hport (_ & _ & Hpol & Hth & Htp & _)%direct_tcpip_task Hd. subst host port.
  unfold dial_target in Hd. destruct (socket_addr_from_str _) as [x|] eqn:Hparse.
  - injection Hd as <-. apply socket_addr_port in Hparse as (Hpt & Hmax & Hip); [|lia].
    assert (sock_port x = as_u16 (target_port t)) as ->.
    { unfold as_u16, u16_max in *. rewrite Z.mod_small by lia. done. }
    split_and!; [done| |by right]. intros network. unfold match_cidr.
    destruct Hip as [->|(lit & zone & -> & _)]; [done|reflexivity].
  - assert (a ∈ lookup (target_host t) (as_u16 (target_port t))) as Hin.
    { destruct (lookup _ _) as [|y l]; simplify_eq/=. set_solver. }
    rewrite (Hlp _ _ _ Hin). split_and!; [done| |by left]. intros network. unfold match_cidr.
    destruct (ip_from_str (target_host t)) as [ip|] eqn:Hip; [|done]. by rewrite (Hlip _ _ _ _ Hip Hin).
Qed.

(** C26: Authentication locks out after the configured number of failures, and
    not before.  The failures counted are the keys presented that the provider
    then in force did not know, up to the limit; a key is accepted if and only
    if the provider knows it and fewer such keys than the limit have been
    presented (or there is no limit); from then on every key is rejected, an
    authorised one included, changing nothing. *)
Theorem auth_lockout proxy remote transport limiter max evs :
  let h := (run_steps handler_step (handler_new proxy remote transport limiter max).1 evs).1 in
  failures (auth_limiter h) = (if (max =? 0)%nat then bad_logins evs else Nat.min max (bad_logins evs))
  ∧ (∀ P key, (auth_publickey P h key).2 = Accept ↔
       is_Some (resolve_from_fingerprint (fingerprint key)) ∧ (max = 0 ∨ bad_logins evs < max)%nat)
  ∧ ∀ P key, ¬ (max = 0 ∨ bad_logins evs < max)%nat → auth_publickey P h key = (h, Reject).
Proof.
  intros h. assert (auth_limiter h = mkAttempts max (counted max (bad_logins evs))) as Hl.
  { apply run_counts. unfold handler_new. by repeat case_match. }
  assert (attempts_check (auth_limiter h) = bool_decide (max = 0 ∨ bad_logins evs < max)%nat) as Hc.
  { rewrite Hl. unfold attempts_check, counted. simpl. destruct (Nat.eqb_spec max 0).
    - symmetry. apply bool_decide_eq_true. by left.
    - destruct (Nat.ltb_spec (Nat.min max (bad_logins evs)) max); symmetry;
        [apply bool_decide_eq_true|apply bool_decide_eq_false]; lia. }
  split_and!; [by rewrite Hl| |]; intros P key; unfold auth_publickey; rewrite Hc; case_bool_decide as Hd; simpl; try done.
  - destruct (resolve_from_fingerprint _); simpl; [naive_solver|]. split; [done|]. by intros [[? ?] _].
  - split; [done|]. by intros [_ ?].
Qed.

(** A handler gives back what it took: constructing one, serving any events
    and dropping it leaves the limiter's table as it was, whether or not the
    connection was allowed. *)
Theorem handler_lifetime_balanced proxy remote transport limiter max evs :
  (∀ ip n, active limiter !! ip = Some n → n ≠ 0%nat) →
  let '(h0, limiter') := handler_new proxy remote transport limiter max in
  active (handler_drop (run_steps handler_step h0 evs).1 limiter') = active limiter.
Proof.
  intros Hpos. destruct (handler_new proxy remote transport limiter max) as [h0 l'] eqn:Hnew.
  destruct (run_inv h0 evs) as [_ Hr _ _ Ha _ _ _].
  unfold handler_drop. rewrite Hr, Ha. unfold handler_new in Hnew.
  destruct remote as [addr|]; [|by simplify_eq/=].
  destruct (limiter_check limiter (sock_ip addr)); simplify_eq/=; [|done].
  unfold on_disconnect, on_connect, count. simpl. rewrite lookup_insert_eq.
  destruct (active limiter !! sock_ip addr) as [n|] eqn:Hn; simpl.
  - specialize (Hpos _ _ Hn). destruct (Nat.ltb_spec 1 (S n)); [|lia]. simpl.
    rewrite insert_insert_eq, Nat.sub_0_r. by apply insert_id.
  - by rewrite delete_insert_id.
Qed.

(** A bracketed IPv6 literal escapes address rules: under a policy that
    denies any network whatever and allows the rest, the host [[::1]] is not an
    address to the CIDR matcher, so the request is allowed and the task dials
    the loopback address. *)
Theorem bracketed_ipv6_escapes_cidr network cell h lookup :
  forwarding cell = mkForwardingPolicy Allow [mkForwardingRule (Cidr network) Deny [] []] →
  ∃ t, channel_open_direct_tcpip cell h "[::1]" 22 = (true, Some t)
    ∧ dial_target lookup t = Some (mkSocketAddr (V6 [0; 0; 0; 0; 0; 0; 0; 1]) 22 0).
Proof.
  intros Hf. exists (mkDial "[::1]" 22 (default (mkProxyConfig Direct) (outbound_proxy h))).
  split; [|reflexivity]. unfold channel_open_direct_tcpip, policy_check. rewrite Hf. reflexivity.
Qed.
End HandlerProperties.

(** ** Examples *)
Module HandlerExample.
Import KeysExample AuthExample.

Definition web_only : DynamicConfig :=
  with_forwarding_policy
    (DynamicConfig_new (AuthPolicy_new ["AAAA1"] []))
    (mkForwardingPolicy Deny [mkForwardingRule (PortRange "*.internal" 80 81) Allow
                                ["SHA256:AAAA1"] []]).
Definition provider : IdentityProvider := config_identity_provider 0 web_only.
Definition client : option SocketAddr := Some (mkSocketAddr (V4 [10; 0; 0; 1]) 4000 0).
Definition login : list (DynamicConfig * IdentityProvider * HandlerEvent) :=
  [(web_only, provider, EvAuth ("AAAA2" : PublicKey)); (web_only, provider, EvAuth ("AAAA1" : PublicKey))].

(** The login makes the difference: without it the same request is refused. *)
Example login_needed :
  let '(h, _) := run_steps handler_step (handler_new None client Tcp (limiter_new 3) 2).1 login in
  (handler_step h (web_only, provider, EvDirect "web.internal" 80)).2
    = OutChannel true (Some (mkDial "web.internal" 80 (mkProxyConfig Direct)))
  ∧ (handler_step (handler_new None client Tcp (limiter_new 3) 2).1
       (web_only, provider, EvDirect "web.internal" 80)).2 = OutChannel false None.
Proof. vm_compute. split; reflexivity. Qed.

(** Resolution of literals only. *)
Definition literals (host : string) (port : Z) : list SocketAddr :=
  match ip_from_str host with Some ip => [mkSocketAddr ip port 0] | None => [] end.
Definition open_door : DynamicConfig := with_forwarding_policy web_only (mkForwardingPolicy Allow []).

Lemma dial_target_checked_witness :
  policy_check (forwarding open_door) "10.0.0.9" 4464 anonymous Tcp = true
  ∧ (∀ network, match_cidr network "10.0.0.9" = network_contains network (V4 [10; 0; 0; 9]))
  ∧ (mkSocketAddr (V4 [10; 0; 0; 9]) 4464 0 ∈ literals "10.0.0.9" 4464
     ∨ ip_from_str "10.0.0.9" = Some (V4 [10; 0; 0; 9]) ∨ bracketed "10.0.0.9" (V4 [10; 0; 0; 9])).
Proof.
  apply (dial_target_checked open_door (handler_new None client Tcp (limiter_new 3) 2).1 "10.0.0.9" 70000 literals
           (mkDial "10.0.0.9" 70000 (mkProxyConfig Direct)) (mkSocketAddr (V4 [10; 0; 0; 9]) 4464 0)).
  - intros host port x. unfold literals. destruct (ip_from_str host); set_solver.
  - intros host port ip x Hip. unfold literals. rewrite Hip. set_solver.
  - lia.
  - vm_compute. reflexivity.
  - vm_compute. reflexivity.
Defined.

(** Two unknown keys of a limit of two: the authorised key is refused. *)
Example locked_out :
  let bad := (web_only, provider, EvAuth ("AAAA2" : PublicKey)) in
  (run_steps handler_step (handler_new None client Tcp (limiter_new 3) 2).1
     [bad; bad; (web_only, provider, EvAuth ("AAAA1" : PublicKey))]).2
  = [OutAuth Reject; OutAuth Reject; OutAuth Reject].
Proof. vm_compute. reflexivity. Qed.

Lemma handler_lifetime_balanced_witness :
  let '(h0, limiter') := handler_new None client Tcp (limiter_new 3) 2 in
  active (handler_drop (run_steps handler_step h0 login).1 limiter') = active (limiter_new 3).
Proof.
  apply (handler_lifetime_balanced None client Tcp (limiter_new 3) 2 login).
  intros ip n Hn. change ((∅ : gmap IpAddr nat) !! ip = Some n) in Hn. rewrite lookup_empty in Hn. discriminate Hn.
Defined.

Definition loopback : IpNetwork (IpNetworkLib := toy_networks) := V6 [0; 0; 0; 0; 0; 0; 0; 1].

(** A policy that denies a network and allows the rest. *)
Definition deny_networks (network : IpNetwork) : DynamicConfig :=
  with_forwarding_policy DynamicConfig_default
    (mkForwardingPolicy Allow [mkForwardingRule (Cidr network) Deny [] []]).

Lemma bracketed_ipv6_escapes_cidr_witness :
  ∃ t, channel_open_direct_tcpip (deny_networks loopback)
         (handler_new None client Tcp (limiter_new 3) 2).1 "[::1]" 22 = (true, Some t)
    ∧ dial_target (λ _ _, []) t = Some (mkSocketAddr (V6 [0; 0; 0; 0; 0; 0; 0; 1]) 22 0).
Proof.
  apply (bracketed_ipv6_escapes_cidr loopback). reflexivity.
Defined.
End HandlerExample.
