(* ===== verification/Tunnel.v ===== *)
(** * A tunnelled connection, end to end

    The client's SOCKS5 server opens its channels on the SSH session
    ([HandleChannelOpener] of socks5/mod.rs); the session's peer is the server's
    handler (server/handler.rs).  Together they decide what a SOCKS5 client is
    told and what the server dials. *)
From S2P Require Import Prelude RustStd Net Forwarding Keys AuthPolicy DynConfig RateLimit Socket Socks5.
From S2P Require Import ServerHandler.
From Stdlib Require Import Strings.Byte.
Open Scope Z_scope.

(** [HandleChannelOpener::open_channel]: [closed] is the state of the session,
    [direct_tcpip] the answer to [channel_open_direct_tcpip]. *)
Definition handle_open_channel {Stream} (closed : bool) (direct_tcpip : string → Z → result Stream string)
    (host : string) (port : Z) : result Stream ChannelOpenError :=
  if closed then Err SessionClosed
  else map_err (λ _, ChannelOpenFailed) (direct_tcpip host port).

Section Tunnel.
Context `{SshKeys, IpNetworkLib}.

(** The peer: the server's handler, a channel being the task it spawned. *)
Definition server_direct_tcpip (cell : DynamicConfig) (h : ServerHandler) (host : string) (port : Z)
    : result (option DialTask) string :=
  match channel_open_direct_tcpip cell h host port with
  | (true, task) => Ok task
  | (false, _) => Err "channel open failure"
  end.

Definition tunnel (closed : bool) (cell : DynamicConfig) (h : ServerHandler)
    (copy_bidirectional : option DialTask → io IoErr unit) : Sock → Sock * result unit Socks5Error * list (string * Z) :=
  handle_socks5_connection (handle_open_channel closed (server_direct_tcpip cell h)) copy_bidirectional.

Lemma connect_bytes_port bs host port : connect_bytes bs host port → 0 ≤ port < 65536.
Proof. intros [ms bs' r _ _ Hr _ _]. by destruct Hr. Qed.

(** C3: from a SOCKS5 client to the server's dial.  A CONNECT for a host and
    port, over the session of a connection that any events have led to its
    present state, is granted exactly when the session is open, the host is not
    one of the reserved [alknet-] names, and the forwarding policy in force on
    the server allows that host and port to the identity the connection has
    logged in as (the empty one if it has not); the client then gets the success
    reply, and the relay runs against a server task that dials that very host
    and port.  In every other case the client gets the refusal, nothing is
    relayed, and nothing is dialled. *)
Theorem tunnel_end_to_end proxy remote transport limiter max evs closed cell copy bs host port payload s :
  connect_bytes bs host port → sk_writes s = [] → sk_data s = bs ++ payload →
  let '(h, outs) := run_steps handler_step (handler_new proxy remote transport limiter max).1 evs in
  ∃ who i, last_login evs outs who ∧ data i = payload ∧
    tunnel closed cell h copy s =
      (if negb closed && negb (is_reserved_destination host) &&
          policy_check (forwarding cell) host port (default anonymous who) transport
       then io_map_err SocksIo
              (copy (Some (mkDial host port (default (mkProxyConfig Direct) proxy))))
              (mkSock i (sk_out s ++ [x05; x00] ++ [x05; x00; x00; x01; x00; x00; x00; x00; x00; x00]) [] (sk_shut s))
       else (mkSock i (sk_out s ++ [x05; x00] ++ [x05; x05; x00; x01; x00; x00; x00; x00; x00; x00]) [] true,
             Err SocksChannelOpenFailed),
       [(host, port)]).
Proof.
  intros Hc Hw Hd. pose proof (connect_bytes_port _ _ _ Hc) as Hp.
  set (h0 := (handler_new proxy remote transport limiter max).1).
  assert (outbound_proxy h0 = proxy ∧ h_transport h0 = transport ∧ control_handler h0 = false
          ∧ authenticated_identity h0 = None) as (Hp0 & Ht0 & Hc0 & Hi0).
  { unfold h0, handler_new. by repeat case_match. }
  pose proof (run_last_login h0 evs Hi0) as Hlog. destruct (run_inv h0 evs) as [Hpx _ Hcx Htx _ _ _ _].
  destruct (run_steps handler_step h0 evs) as [h outs]. simpl in *. rewrite Hp0 in Hpx. rewrite Ht0 in Htx.
  destruct (handle_connect (handle_open_channel closed (server_direct_tcpip cell h)) copy
              bs host port payload s Hc Hw Hd) as (i & Hi & Hh).
  eexists _, i. split_and!; [exact Hlog|done|]. unfold tunnel. rewrite Hh.
  unfold handle_open_channel, server_direct_tcpip, channel_open_direct_tcpip, is_reserved_destination.
  rewrite Hpx, Htx, Hcx, Hc0. unfold as_u16. rewrite Z.mod_small by lia.
  destruct closed; [done|]. destruct (starts_with ALKNET_PREFIX host); [done|].
  simpl. by destruct (policy_check _ _ _ _ _).
Qed.
End Tunnel.

(** ** Example *)
Module TunnelExample.
Import KeysExample AuthExample HandlerExample.

(** After the login of [HandlerExample], port 80 of the internal hosts. *)
Definition ask_web : list byte := wire_greeting (mkVersionMethod x05 [x00]) ++
  [x05; x01; x00; x03] ++ (len_byte (bytes_of "web.internal") :: bytes_of "web.internal") ++ u16_to_be_bytes 80.
Definition no_copy (_ : option DialTask) : io IoErr unit := mret ().

Lemma ask_web_connect : connect_bytes ask_web "web.internal" 80.
Proof.
  apply (connect_msg [x00] _ (mkRequest x05 x01 (SADomain (from_utf8_lossy (bytes_of "web.internal"))) 80));
    [by left|simpl; lia| |done|done].
  apply wire_req; [|lia]. constructor. apply Nat.ltb_lt. reflexivity.
Qed.

Lemma tunnel_end_to_end_witness :
  let '(h, outs) := run_steps handler_step (handler_new None client Tcp (limiter_new 3) 2).1 login in
  ∃ who i, last_login login outs who ∧ data i = [x41] ∧
    tunnel false web_only h no_copy (quiet [Ok ask_web; Ok [x41]] []) =
      (if negb false && negb (is_reserved_destination "web.internal") &&
          policy_check (forwarding web_only) "web.internal" 80 (default anonymous who) Tcp
       then io_map_err SocksIo (no_copy (Some (mkDial "web.internal" 80 (default (mkProxyConfig Direct) None))))
              (mkSock i ([] ++ [x05; x00] ++ [x05; x00; x00; x01; x00; x00; x00; x00; x00; x00]) [] false)
       else (mkSock i ([] ++ [x05; x00] ++ [x05; x05; x00; x01; x00; x00; x00; x00; x00; x00]) [] true,
             Err SocksChannelOpenFailed),
       [("web.internal", 80)]).
Proof.
  apply (tunnel_end_to_end None client Tcp (limiter_new 3) 2 login false web_only no_copy ask_web "web.internal" 80
           [x41] (quiet [Ok ask_web; Ok [x41]] [])); [apply ask_web_connect|reflexivity..].
Defined.

(** The login makes the difference, and a reserved name is refused even so. *)
Example tunnel_decides :
  let '(h, _) := run_steps handler_step (handler_new None client Tcp (limiter_new 3) 2).1 login in
  let fresh := (handler_new None client Tcp (limiter_new 3) 2).1 in
  (tunnel false web_only h no_copy (quiet [Ok ask_web] [])).1.2 = Ok ()
  ∧ (tunnel false web_only fresh no_copy (quiet [Ok ask_web] [])).1.2 = Err SocksChannelOpenFailed
  ∧ server_direct_tcpip web_only h "alknet-control" 0 = Err "channel open failure".
Proof. vm_compute. split_and!; reflexivity. Qed.
End TunnelExample.
