(* ===== verification/ChannelProxy.v ===== *)
(** * Outbound connections (server/channel_proxy.rs)

    Connecting to a target directly, through a SOCKS5 proxy or through an HTTP
    CONNECT proxy.  [TcpStream::connect] is a parameter; the handshakes run on
    the socket it returns.  The last part composes the SOCKS5 handshake with the
    repository's own SOCKS5 server. *)
From S2P Require Import Prelude RustStd Net Socket Socks5 ServerHandler.
From Stdlib Require Import Ascii Strings.Byte.
Open Scope Z_scope.

Inductive ChannelProxyError :=
| ConnectionRefused
| TargetUnreachable
| Socks5HandshakeFailed
| Socks5ProxyRejected
| HttpConnectHandshakeFailed
| HttpConnectProxyRejected (status : string)
| ProxyIo (e : IoErr).

Definition map_connection_error (e : IoErr) : ChannelProxyError :=
  match err_kind e with
  | KConnectionRefused => ConnectionRefused
  | KAddrNotAvailable | KNetworkUnreachable | KHostUnreachable => TargetUnreachable
  | _ => ProxyIo e
  end.

Notation plift := (io_map_err ProxyIo).

(** ** SOCKS5 *)
Definition socks5_connect_req (target : SocketAddr) : list byte :=
  let ip_bytes := bytes_of (show_ip (sock_ip target)) in
  [x05; x01; x00; x03] ++ [byte_of (as_u8 (Z.of_nat (length ip_bytes)))] ++ ip_bytes
    ++ u16_to_be_bytes (sock_port target).

(** The bound address of the reply, read and dropped. *)
Definition skip_bound_address (atyp : byte) : io ChannelProxyError unit :=
  if byte_val atyp =? 1 then _ ← plift (read_exact 4); mret ()
  else if byte_val atyp =? 4 then _ ← plift (read_exact 16); mret ()
  else if byte_val atyp =? 3 then
    len ← plift read_u8;
    _ ← plift (read_exact (Z.to_nat (byte_val len)));
    mret ()
  else io_err Socks5HandshakeFailed.

Definition byte_at (bs : list byte) (i : nat) : Z := byte_val (default x00 (bs !! i)).

Definition socks5_handshake (target : SocketAddr) : io ChannelProxyError unit :=
  _ ← plift (write_all [x05; x01; x00]);
  _ ← plift flush;
  resp ← plift (read_exact 2);
  if negb (byte_at resp 0 =? 5) || negb (byte_at resp 1 =? 0) then io_err Socks5HandshakeFailed
  else
    _ ← plift (write_all (socks5_connect_req target));
    _ ← plift flush;
    reply_header ← plift (read_exact 4);
    if negb (byte_at reply_header 0 =? 5) then io_err Socks5HandshakeFailed
    else if negb (byte_at reply_header 1 =? 0) then io_err Socks5ProxyRejected
    else
      _ ← skip_bound_address (default x00 (reply_header !! 3%nat));
      _ ← plift (read_exact 2);
      mret ().

(** ** HTTP CONNECT *)
Definition http_connect_request (target : SocketAddr) : string :=
  let authority := show_ip (sock_ip target) +:+ ":" +:+ show_uint (sock_port target) in
  "CONNECT " +:+ authority +:+ " HTTP/1.1" +:+ crlf +:+ "Host: " +:+ authority +:+ crlf +:+ crlf.

(** [response.windows(4).any(|w| w == b"\r\n\r\n")]. *)
Fixpoint has_header_end (bs : list byte) : bool :=
  match bs with
  | [] => false
  | _ :: bs' =>
      bool_decide (take 4 bs = [x0d; x0a; x0d; x0a]) || has_header_end bs'
  end.

(** One turn reads one piece of at most 1024 bytes, so the bytes to come bound
    the number of turns; a read that yields nothing or fails ends the loop. *)
Fixpoint read_response (fuel : nat) (response : list byte) : io ChannelProxyError (list byte) :=
  match fuel with
  | O => io_err HttpConnectHandshakeFailed
  | S fuel' =>
      buf ← plift (read_some 1024);
      if (length buf =? 0)%nat then io_err HttpConnectHandshakeFailed
      else if has_header_end (response ++ buf) then mret (response ++ buf)
      else read_response fuel' (response ++ buf)
  end.

Definition response_fuel (s : Sock) : nat := S (length (sk_data s)).

Definition http_connect_handshake (target : SocketAddr) : io ChannelProxyError unit :=
  _ ← plift (write_all (bytes_of (http_connect_request target)));
  _ ← plift flush;
  response ← (λ s, read_response (response_fuel s) [] s);
  let status_line := default EmptyString (head (lines (from_utf8_lossy response))) in
  if contains_str "200" status_line then mret ()
  else io_err (HttpConnectProxyRejected status_line).

Section ChannelProxy.
Context (tcp_connect : SocketAddr → result Sock IoErr).

Definition connect_direct (target : SocketAddr) : result Sock ChannelProxyError :=
  map_err map_connection_error (tcp_connect target).

(** A handshake on the stream to the proxy. *)
Definition connect_via (proxy_addr : SocketAddr) (handshake : io ChannelProxyError unit)
    : result Sock ChannelProxyError :=
  let? stream := map_err ProxyIo (tcp_connect proxy_addr) in
  match handshake stream with
  | (stream', Ok _) => Ok stream'
  | (_, Err e) => Err e
  end.

Definition connect_socks5 (target proxy_addr : SocketAddr) : result Sock ChannelProxyError :=
  connect_via proxy_addr (socks5_handshake target).
Definition connect_http_connect (target proxy_addr : SocketAddr) : result Sock ChannelProxyError :=
  connect_via proxy_addr (http_connect_handshake target).

Definition connect_outbound (target : SocketAddr) (proxy : ProxyConfig)
    : result Sock ChannelProxyError :=
  match mode proxy with
  | Direct => connect_direct target
  | Socks5Proxy addr => connect_socks5 target addr
  | HttpConnect addr => connect_http_connect target addr
  end.
End ChannelProxy.

(** ** What a connection takes from its stream *)
(** [m] takes from the front of what comes bytes of which [P] holds. *)
Definition takes {E A} (m : io E A) (P : A → list byte → Prop) : Prop :=
  ∀ s s' a, m s = (s', Ok a) → ∃ bs, sk_data s = bs ++ sk_data s' ∧ P a bs.

Lemma takes_bind {E A B} (m : io E A) (k : A → io E B) P Q :
  takes m P → (∀ a bs, P a bs → takes (k a) (λ b cs, Q b (bs ++ cs))) → takes (m ≫= k) Q.
Proof.
  intros Hm Hk s s' b. unfold mbind, io_bind. destruct (m s) as [s1 [a|e]] eqn:Hms; [|done]. intros Hks.
  destruct (Hm _ _ _ Hms) as (bs & Hbs & HP). destruct (Hk a bs HP _ _ _ Hks) as (cs & Hcs & HQ).
  exists (bs ++ cs). by rewrite Hbs, Hcs, app_assoc.
Qed.
Lemma takes_ret {E A} (a : A) (Q : A → list byte → Prop) : Q a [] → takes (mret a : io E A) Q.
Proof. intros HQ s s' b [= <- <-]. by exists []. Qed.
Lemma takes_err {E A} (e : E) (Q : A → list byte → Prop) : takes (io_err e) Q.
Proof. by intros s s' a. Qed.
Lemma takes_map_err {E F A} (f : E → F) (m : io E A) P : takes m P → takes (io_map_err f m) P.
Proof.
  intros Hm s s' a. unfold io_map_err. destruct (m s) as [s1 [x|e]] eqn:Hms; [|done]. intros [= <- <-]. by apply Hm.
Qed.
Lemma takes_write bs : takes (write_all bs) (λ _ cs, cs = []).
Proof. intros s s' []. unfold write_all. destruct (next_write s) as [[e|] rs]; [done|]. intros [= <-]. by exists []. Qed.
Lemma takes_read_exact n : takes (read_exact n) (λ a bs, a = bs ∧ length bs = n).
Proof.
  intros s s' a. unfold read_exact. pose proof (read_exact_loop_data (sk_in s) n []) as Hd.
  destruct (Nat.leb_spec n (length (sk_data s))) as [Hle|Hgt]; cycle 1.
  { by destruct Hd as (i & e & ->). }
  destruct Hd as (i & -> & Hi). intros [= <- <-]. exists (take n (sk_data s)). simpl.
  rewrite Hi, take_drop, length_take. split; [done|]. split; [done|lia].
Qed.
Lemma takes_read_u8 : takes read_u8 (λ b bs, bs = [b]).
Proof.
  eapply takes_bind; [apply takes_read_exact|]. intros a bs [-> Hl].
  apply (takes_ret _ (λ b cs, bs ++ cs = [b])). rewrite app_nil_r. by destruct bs as [|b [|]].
Qed.
Lemma takes_read_some n : takes (read_some n) (λ a bs, a = bs ∧ (length bs ≤ n)%nat).
Proof.
  intros s s' a. unfold read_some. destruct (sk_in s) as [|[[|b c]|e] i] eqn:Hin; [..|done].
  - intros [= <- <-]. exists []. rewrite Hin. simpl. split_and!; [done..|lia].
  - intros [= <- <-]. exists []. rewrite Hin. simpl. split_and!; [done..|lia].
  - destruct (Nat.ltb_spec n (length (b :: c))) as [Hlt|Hge]; intros [= <- <-]; cbn [sk_in set_in].
    + exists (take n (b :: c)). split_and!; [|done|rewrite length_take; lia].
      destruct (drop n (b :: c)) as [|x l] eqn:Hd.
      { apply (f_equal length) in Hd. rewrite length_drop in Hd. simpl in *. lia. }
      cbn [data]. rewrite <-Hd, app_assoc, take_drop. done.
    + exists (b :: c). split_and!; [done..|lia].
Qed.

(** The length of the bound address in a SOCKS5 reply. *)
Definition bound_length (atyp : byte) (bs : list byte) : option nat :=
  if byte_val atyp =? 1 then Some 4%nat
  else if byte_val atyp =? 4 then Some 16%nat
  else if byte_val atyp =? 3 then Some (S (Z.to_nat (byte_val (default x00 (head bs)))))
  else None.

Lemma takes_bound_address atyp :
  takes (skip_bound_address atyp) (λ _ bs, bound_length atyp bs = Some (length bs)).
Proof.
  unfold skip_bound_address, bound_length. destruct (byte_val atyp =? 1); [|destruct (byte_val atyp =? 4)].
  - eapply takes_bind; [apply takes_map_err, takes_read_exact|]. intros a bs [-> Hl]. apply takes_ret.
    by rewrite app_nil_r, Hl.
  - eapply takes_bind; [apply takes_map_err, takes_read_exact|]. intros a bs [-> Hl]. apply takes_ret.
    by rewrite app_nil_r, Hl.
  - destruct (byte_val atyp =? 3); [|apply takes_err].
    eapply takes_bind; [apply takes_map_err, takes_read_u8|]. intros b bs ->. eapply takes_bind; [apply takes_map_err, takes_read_exact|].
    intros a bs [-> Hl]. apply takes_ret. rewrite app_nil_r. simpl. by rewrite Hl.
Qed.

(** The proxy's reply to a handshake.  The HTTP CONNECT one is read in pieces,
    until one completes the header: what that piece holds beyond the header is
    taken with it. *)
Definition handshake_reply (proxy : ProxyConfig) (reply : list byte) : Prop :=
  match mode proxy with
  | Direct => reply = []
  | Socks5Proxy _ => ∃ resp header addr port, reply = resp ++ header ++ addr ++ port
      ∧ length resp = 2%nat ∧ length header = 4%nat
      ∧ bound_length (default x00 (header !! 3%nat)) addr = Some (length addr) ∧ length port = 2%nat
  | HttpConnect _ => ∃ front piece, reply = front ++ piece ∧ has_header_end front = false
      ∧ has_header_end reply = true ∧ (length piece ≤ 1024)%nat
  end.

Lemma takes_socks5 target addr :
  takes (socks5_handshake target) (λ _, handshake_reply (mkProxyConfig (Socks5Proxy addr))).
Proof.
  unfold socks5_handshake. do 2 (eapply takes_bind; [apply takes_map_err, takes_write|]; intros [] ? ->).
  eapply takes_bind; [apply takes_map_err, takes_read_exact|]. intros resp bs1 [-> H1].
  destruct (_ || _); [apply takes_err|].
  do 2 (eapply takes_bind; [apply takes_map_err, takes_write|]; intros [] ? ->).
  eapply takes_bind; [apply takes_map_err, takes_read_exact|]. intros header bs2 [-> H2].
  destruct (negb _); [apply takes_err|]. destruct (negb _); [apply takes_err|].
  eapply takes_bind; [apply takes_bound_address|]. intros [] bs3 H3.
  eapply takes_bind; [apply takes_map_err, takes_read_exact|]. intros port bs4 [-> H4].
  apply takes_ret. rewrite !app_nil_r. by exists bs1, bs2, bs3, bs4.
Qed.

Lemma takes_response fuel response :
  has_header_end response = false →
  takes (read_response fuel response)
    (λ a bs, ∃ front piece, response ++ bs = front ++ piece ∧ has_header_end front = false
       ∧ has_header_end (response ++ bs) = true ∧ (length piece ≤ 1024)%nat).
Proof.
  revert response. induction fuel as [|fuel IH]; intros response Hr; [apply takes_err|]. cbn [read_response].
  eapply takes_bind; [apply takes_map_err, takes_read_some|]. intros buf bs [-> Hl].
  destruct (_ =? 0)%nat; [apply takes_err|]. destruct (has_header_end (response ++ bs)) eqn:He.
  - apply takes_ret. rewrite app_nil_r. by exists response, bs.
  - intros s s' a Hs. destruct (IH _ He _ _ _ Hs) as (cs & Hcs & front & piece & Heq & Hrest).
    exists cs. split; [done|]. exists front, piece. by rewrite app_assoc.
Qed.

Lemma takes_http_connect target addr :
  takes (http_connect_handshake target) (λ _, handshake_reply (mkProxyConfig (HttpConnect addr))).
Proof.
  unfold http_connect_handshake. do 2 (eapply takes_bind; [apply takes_map_err, takes_write|]; intros [] ? ->).
  eapply (takes_bind _ _ (λ a bs, handshake_reply (mkProxyConfig (HttpConnect addr)) bs)).
  - intros s s' a Hs. destruct (takes_response _ [] eq_refl _ _ _ Hs) as (bs & Hbs & front & piece & Heq & Hrest).
    exists bs. split; [done|]. by exists front, piece.
  - intros a bs Hbs. destruct (contains_str _ _); [|apply takes_err]. apply takes_ret. by rewrite app_nil_r.
Qed.

(** The address that is dialled. *)
Definition first_hop (target : SocketAddr) (proxy : ProxyConfig) : SocketAddr :=
  match mode proxy with Direct => target | Socks5Proxy addr | HttpConnect addr => addr end.

(** An outbound connection has taken the handshake's reply from its stream, and
    leaves everything after it to the relay. *)
Lemma connect_outbound_takes tcp_connect target proxy outbound :
  connect_outbound tcp_connect target proxy = Ok outbound →
  ∃ stream reply, tcp_connect (first_hop target proxy) = Ok stream ∧ handshake_reply proxy reply
    ∧ sk_data stream = reply ++ sk_data outbound.
Proof.
  unfold connect_outbound, connect_direct, connect_socks5, connect_http_connect, connect_via, first_hop.
  destruct proxy as [[|addr|addr]]; cbn [mode].
  - destruct (tcp_connect target) as [stream|]; intros [= <-]. by exists stream, [].
  - destruct (tcp_connect addr) as [stream|]; [simpl|done].
    destruct (socks5_handshake target stream) as [s' [[]|]] eqn:Hs; intros [= <-].
    destruct (takes_socks5 target addr _ _ _ Hs) as (bs & Hbs & Hr). by exists stream, bs.
  - destruct (tcp_connect addr) as [stream|]; [simpl|done].
    destruct (http_connect_handshake target stream) as [s' [[]|]] eqn:Hs; intros [= <-].
    destruct (takes_http_connect target addr _ _ _ Hs) as (bs & Hbs & Hr). by exists stream, bs.
Qed.

(** ** The SOCKS5 handshake *)
(** A bound address whose length is the one its type says. *)
Definition address_ok (a : Socks5Address) : Prop :=
  match a with
  | SAIpv4 os => length os = 4%nat
  | SAIpv6 os => length os = 16%nat
  | SADomain name => (length (bytes_of name) < 256)%nat
  end.

(** Take one step of a handshake that succeeds. *)
Ltac io_step H := rewrite (io_bind_ok _ _ _ _ _ (io_map_err_ok _ _ _ _ _ H)).

Lemma skip_bound_ok a s rest :
  address_ok a → sk_data s = drop 1 (reply_address_bytes a) ++ rest →
  ∃ i, skip_bound_address (default x00 (head (reply_address_bytes a))) s = (set_in s i, Ok ())
       ∧ data i = rest.
Proof.
  destruct a as [os|os|name]; simpl; intros Ha Hd; unfold skip_bound_address; simpl.
  - destruct (read_exact_ok 4 s os rest Hd Ha) as (i & Hi & Hr). io_step Hi. by exists i.
  - destruct (read_exact_ok 16 s os rest Hd Ha) as (i & Hi & Hr). io_step Hi. by exists i.
  - change (len_byte (bytes_of name) :: (bytes_of name ++ rest))
      with ([len_byte (bytes_of name)] ++ (bytes_of name ++ rest)) in Hd.
    destruct (reader_runs _ _ reader_u8 s _ _ (len_byte (bytes_of name)) eq_refl Hd) as (i & Hi & Hr).
    io_step Hi. rewrite len_byte_val by done.
    destruct (read_exact_ok _ (set_in s i) (bytes_of name) rest Hr eq_refl) as (j & Hj & Hr').
    io_step Hj. by exists j.
Qed.

(** The client's side, against a proxy that accepts. *)
Lemma socks5_handshake_ok target s a port rest :
  sk_writes s = [] → address_ok a →
  sk_data s = [x05; x00] ++ reply_bytes (reply_success a port) ++ rest →
  ∃ i, socks5_handshake target s =
         (mkSock i (sk_out s ++ [x05; x01; x00] ++ socks5_connect_req target) [] (sk_shut s), Ok ())
       ∧ data i = rest.
Proof.
  intros Hw Ha Hd. unfold socks5_handshake.
  io_step (writes_all [x05; x01; x00] s Hw). set (s1 := mkSock _ _ _ _).
  io_step (flush_ok s1 eq_refl).
  destruct (read_exact_ok 2 s1 [x05; x00] _ Hd eq_refl) as (i1 & Hi1 & Hd1). io_step Hi1.
  change (negb (byte_at [x05; x00] 0 =? 5) || negb (byte_at [x05; x00] 1 =? 0)) with false. cbv iota.
  io_step (writes_all (socks5_connect_req target) (set_in s1 i1) eq_refl). set (s2 := mkSock _ _ _ _).
  io_step (flush_ok s2 eq_refl).
  assert (∃ at' abs, reply_address_bytes a = at' :: abs) as (at' & abs & Hab) by (destruct a; eauto).
  destruct (read_exact_ok 4 s2 [x05; x00; x00; at'] (abs ++ u16_to_be_bytes port ++ rest))
    as (i2 & Hi2 & Hd2); [|done|].
  { simpl. rewrite Hd1. unfold reply_bytes. simpl. rewrite Hab. simpl. by rewrite <-app_assoc. }
  io_step Hi2. change (byte_at [x05; x00; x00; at'] 0 =? 5) with true.
  change (byte_at [x05; x00; x00; at'] 1 =? 0) with true. cbn [negb].
  destruct (skip_bound_ok a (set_in s2 i2) (u16_to_be_bytes port ++ rest) Ha) as (i3 & Hi3 & Hd3).
  { rewrite Hab. done. }
  rewrite Hab in Hi3. simpl in Hi3. simpl. rewrite (io_bind_ok _ _ _ _ _ Hi3).
  destruct (read_exact_ok 2 (set_in s2 i3) (u16_to_be_bytes port) rest Hd3 eq_refl) as (i4 & Hi4 & Hd4).
  rewrite set_in_set_in. io_step Hi4. exists i4. split; [|done].
  unfold s2. simpl. unfold mret, io_ret. unfold set_in. simpl. by rewrite <-app_assoc.
Qed.

(** What the client sends is a CONNECT for the target's printed address. *)
Lemma socks5_client_bytes target :
  match sock_ip target with V4 _ => True | V6 gs => length gs = 8%nat end →
  0 ≤ sock_port target < 65536 →
  connect_bytes ([x05; x01; x00] ++ socks5_connect_req target)
    (show_ip (sock_ip target)) (sock_port target).
Proof.
  intros Hip Hport. destruct (plain_show_ip _ Hip) as [Hlen Hascii].
  set (host := bytes_of (show_ip (sock_ip target))) in *.
  assert (length host < 256)%nat as Hl by (unfold host; rewrite length_bytes_of; lia).
  assert (from_utf8_lossy host = show_ip (sock_ip target)) as Hs.
  { rewrite from_utf8_lossy_valid by (by apply ascii_utf8_valid). apply str_bytes. }
  rewrite <-Hs. unfold socks5_connect_req. fold host. rewrite byte_of_as_u8.
  apply (connect_msg [x00] _ (mkRequest x05 x01 (SADomain (from_utf8_lossy host)) (sock_port target)));
    [set_solver|simpl; lia| |done|done].
  apply (wire_req x05 x01 x00 x03 (len_byte host :: host)); [by constructor|done].
Qed.

(** C34: the SOCKS5 proxy client and the SOCKS5 server understand each other.
    For every target address, when the client's bytes reach the server (with
    whatever the client sends next behind them, in pieces of any size), the
    server opens a channel to exactly the target's address and port and has
    the rest still to relay; and when what the server wrote reaches the client
    (with whatever is relayed behind it), the client's handshake succeeds,
    having sent exactly those bytes and left the relayed ones unread. *)
Theorem socks5_end_to_end {Stream} (open_channel : string → Z → result Stream ChannelOpenError)
    copy_bidirectional target srv cl st payload relayed :
  match sock_ip target with V4 _ => True | V6 gs => length gs = 8%nat end →
  0 ≤ sock_port target < 65536 →
  sk_writes srv = [] → sk_out srv = [] → sk_writes cl = [] → sk_out cl = [] →
  open_channel (show_ip (sock_ip target)) (sock_port target) = Ok st →
  sk_data srv = [x05; x01; x00] ++ socks5_connect_req target ++ payload →
  ∃ srv', handle_socks5_connection open_channel copy_bidirectional srv =
            (io_map_err SocksIo (copy_bidirectional st) srv',
             [(show_ip (sock_ip target), sock_port target)]) ∧
    sk_data srv' = payload ∧
    (sk_data cl = sk_out srv' ++ relayed →
     ∃ cl', socks5_handshake target cl = (cl', Ok ()) ∧ sk_data cl' = relayed ∧
            sk_out cl' ++ payload = sk_data srv).
Proof.
  intros Hip Hport Hw Ho Hwc Hoc Hopen Hd.
  destruct (negotiate_ok _ _ _ srv payload (socks5_client_bytes target Hip Hport) Hw) as (i & Hn & Hi).
  { by rewrite Hd, <-app_assoc. }
  unfold handle_socks5_connection. rewrite Hn, Hopen. set (s1 := mkSock i _ _ _).
  pose proof (writes_reply (reply_success unspecified 0) s1 eq_refl) as Hrep.
  eexists. split.
  { unfold io_map_err at 1. rewrite (io_bind_ok _ _ _ _ _ Hrep). reflexivity. }
  split; [done|]. intros Hcl. simpl in Hcl. rewrite Ho in Hcl.
  destruct (socks5_handshake_ok target cl unspecified 0 relayed Hwc eq_refl Hcl) as (j & Hj & Hdj).
  eexists. split; [exact Hj|]. split; [done|]. simpl. rewrite Hoc, Hd. simpl. done.
Qed.

(** ** The HTTP CONNECT handshake *)
Lemma has_header_end_app bs bs' : has_header_end bs = true → has_header_end (bs ++ bs') = true.
Proof.
  induction bs as [|b bs IH]; [done|]. cbn [has_header_end app].
  rewrite !orb_true_iff, !bool_decide_eq_true. intros [Ht|Ht]; [left|by right; apply IH].
  change (b :: bs ++ bs') with ((b :: bs) ++ bs').
  rewrite take_app_le; [done|]. apply (f_equal length) in Ht. rewrite length_take in Ht.
  cbn [length] in Ht |- *. lia.
Qed.

(** A piece the loop reads whole. *)
Definition piece_ok (c : list byte) : Prop := c ≠ [] ∧ (length c ≤ 1024)%nat.

Lemma read_some_piece c i s :
  piece_ok c → sk_in s = Ok c :: i → read_some 1024 s = (set_in s i, Ok c).
Proof.
  intros [Hc Hl] Hs. unfold read_some. rewrite Hs. destruct c as [|b c]; [done|].
  by rewrite (proj2 (Nat.ltb_ge _ _)) by done.
Qed.

Lemma data_ok c i : c ≠ [] → data (Ok c :: i) = c ++ data i.
Proof. by destruct c. Qed.

Lemma read_response_pieces pieces last rest fuel acc s :
  Forall piece_ok (pieces ++ [last]) →
  has_header_end (acc ++ concat pieces) = false →
  has_header_end (acc ++ concat (pieces ++ [last])) = true →
  sk_in s = (Ok <$> pieces ++ [last]) ++ rest → (length (sk_data s) < fuel)%nat →
  read_response fuel acc s = (set_in s rest, Ok (acc ++ concat (pieces ++ [last]))).
Proof.
  revert fuel acc s. induction pieces as [|c pieces IH]; intros fuel acc s Hok Hno Hyes Hin Hfuel.
  - apply Forall_cons in Hok as [Hc _]. destruct fuel as [|fuel]; [lia|]. cbn [read_response].
    io_step (read_some_piece last rest s Hc Hin). simpl in Hyes. rewrite app_nil_r in Hyes.
    simpl. rewrite app_nil_r, Hyes. by destruct Hc as [Hc _], last.
  - apply Forall_cons in Hok as [Hc Hok]. simpl in Hin.
    rewrite Hin, data_ok, length_app in Hfuel by apply Hc.
    assert (0 < length c)%nat by (destruct Hc as [Hc _]; destruct c; [done|simpl; lia]).
    destruct fuel as [|fuel]; [lia|]. cbn [read_response].
    io_step (read_some_piece c _ s Hc Hin). rewrite (proj2 (Nat.eqb_neq (length c) 0)) by lia.
    simpl in Hno, Hyes. rewrite app_assoc in Hno, Hyes.
    destruct (has_header_end (acc ++ c)) eqn:Hmid; [by rewrite has_header_end_app in Hno|].
    rewrite IH; [by rewrite <-app_assoc|done..|]. simpl. lia.
Qed.

Lemma read_some_shrinks size s s' buf :
  (0 < size)%nat → read_some size s = (s', Ok buf) → buf ≠ [] →
  (length (sk_data s') < length (sk_data s))%nat.
Proof.
  intros Hsize Hr Hb. unfold read_some in Hr.
  destruct (sk_in s) as [|[[|b c]|e] i]; simplify_eq; [done..|].
  rewrite data_ok, length_app by done.
  destruct (size <? length (b :: c))%nat eqn:Hlt; simplify_eq; rewrite set_in_in.
  - apply Nat.ltb_lt in Hlt.
    rewrite data_ok, length_app, length_drop; [lia|].
    intros Hd. apply (f_equal length) in Hd. rewrite length_drop in Hd. cbn [length] in *. lia.
  - simpl. lia.
Qed.

(** More fuel than bytes to come changes nothing: the loop ends by itself. *)
Lemma read_response_fuel fuel acc s :
  (length (sk_data s) < fuel)%nat → read_response (S fuel) acc s = read_response fuel acc s.
Proof.
  revert acc s. induction fuel as [|fuel IH]; intros acc s Hf; [lia|].
  cbn [read_response]. unfold mbind, io_bind, io_map_err at 1 3.
  destruct (read_some 1024 s) as [s' [buf|e]] eqn:Hr; [|done].
  destruct (length buf =? 0)%nat eqn:Hb; [done|].
  destruct (has_header_end (acc ++ buf)); [done|].
  assert (length (sk_data s') < length (sk_data s))%nat as Hs.
  { apply (read_some_shrinks 1024 s s' buf); [lia|done|]. by intros ->. }
  apply (IH (acc ++ buf) s'). lia.
Qed.

(** The HTTP CONNECT handshake.  The client sends the request for the target,
    reads pieces until the blank line that ends the response header has been
    seen, whichever piece it falls in, and succeeds exactly when the status
    line contains "200", reporting the status line otherwise.  The whole last
    piece is consumed: bytes of the tunnel that arrive in it behind the header
    are not left for the caller. *)
Theorem http_connect_reads_header target s pieces last rest :
  sk_writes s = [] → sk_in s = (Ok <$> pieces ++ [last]) ++ rest →
  Forall piece_ok (pieces ++ [last]) →
  has_header_end (concat pieces) = false → has_header_end (concat (pieces ++ [last])) = true →
  let status_line := default EmptyString (head (lines (from_utf8_lossy (concat (pieces ++ [last]))))) in
  http_connect_handshake target s =
    (mkSock rest (sk_out s ++ bytes_of (http_connect_request target)) [] (sk_shut s),
     if contains_str "200" status_line then Ok () else Err (HttpConnectProxyRejected status_line)).
Proof.
  intros Hw Hin Hok Hno Hyes. unfold http_connect_handshake.
  io_step (writes_all (bytes_of (http_connect_request target)) s Hw). set (s1 := mkSock _ _ _ _).
  io_step (flush_ok s1 eq_refl).
  pose proof (read_response_pieces pieces last rest (response_fuel s1) [] s1 Hok Hno Hyes Hin) as Hr.
  rewrite (io_bind_ok (λ s, read_response (response_fuel s) [] s) _ s1 _ _ (Hr ltac:(unfold response_fuel; lia))).
  simpl. by destruct (contains_str "200" _).
Qed.

(** ** Witnesses *)
Module ProxyExample.
Definition web : SocketAddr := mkSocketAddr (V4 [192; 0; 2; 7]) 443 0.
Definition always (host : string) (port : Z) : result unit ChannelOpenError := Ok ().
Definition no_relay (st : unit) : io IoErr unit := mret ().
(** The client's bytes in two pieces, with a payload of one byte. *)
Definition client_bytes : list byte := [x05; x01; x00] ++ socks5_connect_req web ++ [x41].
Definition srv : Sock := quiet [Ok (take 5 client_bytes); Ok (drop 5 client_bytes)] [].
Definition cl : Sock :=
  quiet [Ok ([x05; x00] ++ [x05; x00; x00; x01; x00; x00; x00; x00; x00; x00] ++ [x42])] [].

Lemma socks5_end_to_end_witness :
  ∃ srv', handle_socks5_connection always no_relay srv =
            (io_map_err SocksIo (no_relay ()) srv', [("192.0.2.7", 443)]) ∧
    sk_data srv' = [x41] ∧
    (sk_data cl = sk_out srv' ++ [x42] →
     ∃ cl', socks5_handshake web cl = (cl', Ok ()) ∧ sk_data cl' = [x42] ∧
            sk_out cl' ++ [x41] = sk_data srv).
Proof.
  apply (socks5_end_to_end always no_relay web srv cl () [x41] [x42]);
    [done|vm_compute; done|done..|reflexivity].
Defined.

(** The server alone, with a domain name. *)
Definition ask : list byte :=
  [x05; x02; x02; x00] ++ [x05; x01; x00; x03] ++ [x01; x61] ++ [x00; x50] ++ [x41].
Lemma ask_connect : connect_bytes
  ([x05; x02; x02; x00] ++ [x05; x01; x00; x03] ++ [x01; x61] ++ [x00; x50]) "a" 80.
Proof.
  apply (connect_msg [x02; x00] _ (mkRequest x05 x01 (SADomain "a") 80));
    [set_solver|simpl; lia| |done|done].
  apply (wire_req x05 x01 x00 x03 [x01; x61] (SADomain "a") 80); [|lia].
  apply (wire_domain [x61]). simpl. lia.
Qed.

Lemma socks5_serves_witness :
  ∃ i, data i = [x41] ∧
    handle_socks5_connection always no_relay (quiet [Ok ask] []) =
      (io_map_err SocksIo (no_relay ())
         (mkSock i ([x05; x00] ++ [x05; x00; x00; x01; x00; x00; x00; x00; x00; x00]) [] false),
       [("a", 80)]).
Proof.
  apply (socks5_serves always no_relay _ "a" 80 [x41] (quiet [Ok ask] []) ask_connect); reflexivity.
Defined.

Lemma socks5_opens_only_requested_witness :
  [("a", 80)] = [] ∨
  ∃ host port bs rest, [("a", 80)] = [(host, port)] ∧ connect_bytes bs host port ∧
    sk_data (quiet [Ok ask] []) = bs ++ rest.
Proof.
  eapply (socks5_opens_only_requested always no_relay (quiet [Ok ask] [])).
  vm_compute. reflexivity.
Defined.

(** A response in two pieces, the tunnel's first byte behind the header. *)
Definition ok_head : list byte := bytes_of ("HTTP/1.1 200 OK" +:+ crlf).
Definition ok_tail : list byte := bytes_of (crlf +:+ "A").
Lemma http_connect_reads_header_witness :
  http_connect_handshake web (quiet [Ok ok_head; Ok ok_tail; Ok [x42]] []) =
    (mkSock [Ok [x42]] (bytes_of (http_connect_request web)) [] false, Ok ()).
Proof.
  apply (http_connect_reads_header web (quiet [Ok ok_head; Ok ok_tail; Ok [x42]] []) [ok_head] ok_tail [Ok [x42]]);
    [reflexivity|reflexivity| |vm_compute; reflexivity|vm_compute; reflexivity].
  repeat constructor; try done; vm_compute; lia.
Defined.

(** An IPv6 target is written without brackets. *)
Example ipv6_authority :
  http_connect_request (mkSocketAddr (V6 [0; 0; 0; 0; 0; 0; 0; 1]) 443 0) =
    "CONNECT ::1:443 HTTP/1.1" +:+ crlf +:+ "Host: ::1:443" +:+ crlf +:+ crlf.
Proof. vm_compute. reflexivity. Qed.
End ProxyExample.
