(* ===== verification/RawFraming.v ===== *)
(** * Interface kinds and the raw-framing session (interface/config.rs,
    interface/pairs.rs, interface/session.rs, interface/raw_framing.rs)

    A raw-framing session reads length-prefixed envelopes from a stream; the
    first one authenticates the peer through the identity provider.  The stream
    is the list of the results of its reads, the writer the bytes written. *)
From S2P Require Import Prelude RustStd Json Frame Forwarding DynConfig.
From Stdlib Require Import Strings.Byte.
Open Scope Z_scope.

(** ** Interface kinds and the transports they run on *)
Inductive StreamInterfaceKind := KindSsh | KindRawFraming.
#[export] Instance StreamInterfaceKind_eq_dec : EqDecision StreamInterfaceKind.
Proof. solve_decision. Defined.

Inductive MessageInterfaceKind := KindHttp | KindDns.

Definition show_stream_kind (k : StreamInterfaceKind) : string :=
  match k with KindSsh => "ssh" | KindRawFraming => "raw-framing" end.
Definition show_message_kind (k : MessageInterfaceKind) : string :=
  match k with KindHttp => "http" | KindDns => "dns" end.

Inductive TransportKindBase := BaseTcp | BaseTls | BaseIroh | BaseWebTransport.
#[export] Instance TransportKindBase_eq_dec : EqDecision TransportKindBase.
Proof. solve_decision. Defined.

Definition transport_base (kind : TransportKind) : TransportKindBase :=
  match kind with
  | Tcp => BaseTcp
  | Tls _ => BaseTls
  | Iroh _ => BaseIroh
  | WebTransport _ => BaseWebTransport
  end.

Definition is_valid_pair (transport : TransportKind) (interface : StreamInterfaceKind) : bool :=
  match transport_base transport, interface with
  | BaseTcp, KindSsh => true
  | BaseTls, KindSsh => true
  | BaseIroh, KindSsh => true
  | BaseWebTransport, KindSsh => true
  | BaseWebTransport, KindRawFraming => true
  | BaseTcp, KindRawFraming => true
  | _, _ => false
  end.

Definition VALID_TRANSPORT_INTERFACE_PAIRS : list (TransportKindBase * StreamInterfaceKind) :=
  [(BaseTcp, KindSsh); (BaseTls, KindSsh); (BaseIroh, KindSsh); (BaseWebTransport, KindSsh);
   (BaseWebTransport, KindRawFraming); (BaseTcp, KindRawFraming)].

(** The predicate and the table agree. *)
Lemma is_valid_pair_table transport interface :
  is_valid_pair transport interface = true ↔
  (transport_base transport, interface) ∈ VALID_TRANSPORT_INTERFACE_PAIRS.
Proof.
  unfold is_valid_pair, VALID_TRANSPORT_INTERFACE_PAIRS.
  destruct (transport_base transport), interface; set_solver.
Qed.

(** ** Sessions *)
Record InterfaceEvent `{Json} := mkInterfaceEvent {
  ev_envelope : EventEnvelope;
  ev_identity : option Identity;
}.

Definition InterfaceEvent_new `{Json} (e : EventEnvelope) : InterfaceEvent :=
  mkInterfaceEvent _ e None.
Definition with_identity `{Json} (e : EventEnvelope) (i : Identity) : InterfaceEvent :=
  mkInterfaceEvent _ e (Some i).

Inductive AuthState :=
| AuthPending
| Authenticated (i : Identity)
| AuthFailed.

Inductive RawReadError {IoError : Type} `{Json} :=
| StreamClosed
| RawIo (e : IoError)
| FrameJson (e : JsonError).
Arguments RawReadError : clear implicits.
Arguments RawReadError IoError {_}.

Section Session.
Context `{C : EnvelopeCodec} {IoError : Type}.

Record RawFramingSession := mkRawSession {
  rs_stream : list (result (list byte) IoError);
  rs_sink : list byte;
  auth_state : AuthState;
  read_buf : list byte;
}.

Definition RawFramingSession_new (stream : list (result (list byte) IoError)) : RawFramingSession :=
  mkRawSession stream [] AuthPending [].

(** [read_frame]: unlike [FrameFramedReader], a frame whose JSON is bad stays in
    the buffer. *)
Fixpoint raw_read_loop (stream : list (result (list byte) IoError)) (buf : list byte)
    : result EventEnvelope (RawReadError IoError) * (list (result (list byte) IoError) * list byte) :=
  match decode_with_remainder buf with
  | Ok (envelope, consumed) => (Ok envelope, (stream, drop (Z.to_nat consumed) buf))
  | Err (JsonFailure e) => (Err (FrameJson e), (stream, buf))
  | Err _ =>
      match stream with
      | [] => (Err StreamClosed, ([], buf))
      | Ok [] :: stream' => (Err StreamClosed, (stream', buf))
      | Ok chunk :: stream' => raw_read_loop stream' (buf ++ chunk)
      | Err e :: stream' => (Err (RawIo e), (stream', buf))
      end
  end.

Definition raw_read_frame (s : RawFramingSession)
    : result EventEnvelope (RawReadError IoError) * RawFramingSession :=
  let '(r, (stream, buf)) := raw_read_loop (rs_stream s) (read_buf s) in
  (r, mkRawSession stream (rs_sink s) (auth_state s) buf).

Definition set_auth (s : RawFramingSession) (a : AuthState) : RawFramingSession :=
  mkRawSession (rs_stream s) (rs_sink s) a (read_buf s).

(** [envelope.payload.as_str().unwrap_or("").as_bytes()]. *)
Definition token_of (e : EventEnvelope) : list byte :=
  bytes_of (default EmptyString (json_as_str (env_payload e))).

Definition recv (P : IdentityProvider) (s : RawFramingSession)
    : RawFramingSession * outcome (option InterfaceEvent) :=
  match auth_state s with
  | AuthFailed => (s, Ret None)
  | Authenticated identity =>
      let '(r, s) := raw_read_frame s in
      match r with
      | Ok e => (s, Ret (Some (with_identity e identity)))
      | Err _ => (s, Ret None)
      end
  | AuthPending =>
      let '(r, s) := raw_read_frame s in
      match r with
      | Err _ => (set_auth s AuthFailed, Ret None)
      | Ok envelope =>
          match resolve_from_token (token_of envelope) with
          | Panic => (s, Panic)
          | Ret (Some identity) =>
              (set_auth s (Authenticated identity), Ret (Some (with_identity envelope identity)))
          | Ret None => (set_auth s AuthFailed, Ret None)
          end
      end
  end.

(** The session's [write_frame]: the stream takes the frame, or fails after some
    of its bytes. *)
Definition raw_write_frame (fault : option (nat * string)) (s : RawFramingSession) (envelope : EventEnvelope)
    : RawFramingSession * result unit string :=
  let frame := encode envelope in
  let wrote bs := mkRawSession (rs_stream s) (rs_sink s ++ bs) (auth_state s) (read_buf s) in
  match fault with
  | None => (wrote frame, Ok tt)
  | Some (n, e) => (wrote (take n frame), Err e)
  end.

Definition send (fault : option (nat * string)) (s : RawFramingSession) (envelope : EventEnvelope)
    : RawFramingSession * result unit string :=
  match auth_state s with
  | AuthFailed => (s, Err "session authentication failed")
  | _ => raw_write_frame fault s envelope
  end.

(** Repeated calls of [recv]. *)
Fixpoint recvs (P : IdentityProvider) (n : nat) (s : RawFramingSession)
    : list (outcome (option InterfaceEvent)) :=
  match n with
  | O => []
  | S k => let '(s, o) := recv P s in o :: recvs P k s
  end.

(** ** Lemmas *)
Lemma raw_read_loop_next stream buf :
  raw_read_loop stream buf =
  match next_frame buf with
  | Some (body, rest) =>
      match from_slice body with
      | Ok e => (Ok e, (stream, rest))
      | Err j => (Err (FrameJson j), (stream, buf))
      end
  | None =>
      match stream with
      | [] => (Err StreamClosed, ([], buf))
      | Ok [] :: stream' => (Err StreamClosed, (stream', buf))
      | Ok chunk :: stream' => raw_read_loop stream' (buf ++ chunk)
      | Err e :: stream' => (Err (RawIo e), (stream', buf))
      end
  end.
Proof.
  destruct stream as [|r stream]; cbn [raw_read_loop]; rewrite decode_with_remainder_next;
    destruct (next_frame buf) as [[body rest]|] eqn:Hnf.
  - destruct (from_slice body); [|done].
    by rewrite (next_frame_rest buf body rest Hnf).
  - cbv zeta. by destruct (_ <? _).
  - destruct (from_slice body); [|done].
    by rewrite (next_frame_rest buf body rest Hnf).
  - cbv zeta. by destruct (_ <? _).
Qed.

(** Reading the frame an encoder put first in the bytes still to come. *)
Lemma raw_read_encoded chunks buf e rest :
  frame_ok e → Forall (λ c : list byte, c ≠ []) chunks →
  buf ++ concat chunks = encode e ++ rest →
  ∃ chunks' buf', raw_read_loop (Ok <$> chunks) buf = (Ok e, (Ok <$> chunks', buf'))
    ∧ Forall (λ c, c ≠ []) chunks' ∧ buf' ++ concat chunks' = rest.
Proof.
  intros [Hlen Hrt]. revert buf. induction chunks as [|c chunks IH]; intros buf Hne Heq;
    rewrite raw_read_loop_next; pose proof (next_frame_encode e rest Hlen) as Hnf; rewrite <-Heq in Hnf.
  - simpl in Hnf. rewrite app_nil_r in Hnf. rewrite Hnf, Hrt.
    exists [], rest. by rewrite app_nil_r.
  - apply Forall_cons in Hne as [Hc Hne]. simpl in Heq, Hnf.
    destruct (next_frame buf) as [[body rest']|] eqn:Hb.
    + pose proof (next_frame_app buf (c ++ concat chunks) body rest' Hb) as Hb'.
      rewrite Hnf in Hb'. injection Hb' as <- ->. rewrite Hrt.
      exists (c :: chunks), rest'. by split_and!; [|constructor|].
    + destruct c as [|b c]; [done|]. apply (IH (buf ++ b :: c) Hne).
      by rewrite <-app_assoc.
Qed.

(** At the end of the stream, with no frame left, the reader reports it. *)
Lemma raw_read_closed chunks buf :
  Forall (λ c : list byte, c ≠ []) chunks → next_frame (buf ++ concat chunks) = None →
  raw_read_loop (Ok <$> chunks) buf = (Err StreamClosed, ([], buf ++ concat chunks)).
Proof.
  revert buf. induction chunks as [|c chunks IH]; intros buf Hne Hnf; rewrite raw_read_loop_next.
  - simpl in *. rewrite app_nil_r in *. by rewrite Hnf.
  - apply Forall_cons in Hne as [Hc Hne]. simpl in Hnf.
    destruct (next_frame buf) as [[body rest']|] eqn:Hb.
    + by rewrite (next_frame_app _ _ _ _ Hb) in Hnf.
    + destruct c as [|b c]; [done|]. cbn [fmap list_fmap]. rewrite IH; [|done|].
      * by rewrite <-app_assoc.
      * by rewrite <-app_assoc.
Qed.

(** A bad frame at the front stays at the front, with whatever follows it. *)
Lemma raw_read_bad chunks buf body rest j :
  Forall (λ c : list byte, c ≠ []) chunks →
  next_frame (buf ++ concat chunks) = Some (body, rest) → from_slice body = Err j →
  ∃ chunks' buf', raw_read_loop (Ok <$> chunks) buf = (Err (FrameJson j), (Ok <$> chunks', buf'))
    ∧ Forall (λ c, c ≠ []) chunks' ∧ ∃ rest', next_frame buf' = Some (body, rest').
Proof.
  intros Hne Hnf Hj. revert buf Hne Hnf.
  induction chunks as [|c chunks IH]; intros buf Hne Hnf; rewrite raw_read_loop_next.
  - simpl in *. rewrite app_nil_r in Hnf. rewrite Hnf, Hj. exists [], buf. eauto.
  - apply Forall_cons in Hne as [Hc Hne]. simpl in Hnf.
    destruct (next_frame buf) as [[body' rest']|] eqn:Hb.
    + rewrite (next_frame_app _ _ _ _ Hb) in Hnf. injection Hnf as -> _. rewrite Hj.
      exists (c :: chunks), buf. split_and!; [done|by constructor|eauto].
    + destruct c as [|b c]; [done|]. apply (IH (buf ++ b :: c) Hne). by rewrite <-app_assoc.
Qed.

Lemma recvs_failed P n s : auth_state s = AuthFailed → recvs P n s = replicate n (Ret None).
Proof.
  intros Hs. induction n as [|n IH]; simpl; [done|]. unfold recv. rewrite Hs. by rewrite IH.
Qed.

Lemma recvs_stuck P n i sink stream buf body rest j :
  next_frame buf = Some (body, rest) → from_slice body = Err j →
  recvs P n (mkRawSession stream sink (Authenticated i) buf) = replicate n (Ret None).
Proof.
  intros Hnf Hj. induction n as [|n IH]; [done|]. cbn [recvs recv auth_state].
  unfold raw_read_frame. cbn [rs_stream read_buf rs_sink auth_state].
  rewrite raw_read_loop_next, Hnf, Hj. cbn [replicate]. by rewrite IH.
Qed.

Lemma recvs_closed P n i sink :
  recvs P n (mkRawSession [] sink (Authenticated i) []) = replicate n (Ret None).
Proof. induction n as [|n IH]; [done|]. simpl. by rewrite <-IH. Qed.

Lemma recvs_authenticated P i sink envs chunks buf m :
  Forall frame_ok envs → Forall (λ c : list byte, c ≠ []) chunks →
  buf ++ concat chunks = concat (encode <$> envs) →
  recvs P (length envs + m) (mkRawSession (Ok <$> chunks) sink (Authenticated i) buf)
  = ((λ e, Ret (Some (with_identity e i))) <$> envs) ++ replicate m (Ret None).
Proof.
  intros Hok. revert chunks buf. induction Hok as [|e envs He Hok IH]; intros chunks buf Hne Heq.
  - simpl in Heq. apply app_nil in Heq as [-> Heq].
    destruct chunks as [|c chunks]; [|apply Forall_cons in Hne as [? _]; by apply app_nil in Heq as [? _]].
    by apply recvs_closed.
  - destruct (raw_read_encoded chunks buf e (concat (list_fmap _ _ encode envs)) He Hne Heq)
      as (chunks' & buf' & Hread & Hne' & Heq').
    change (length (e :: envs) + m)%nat with (S (length envs + m)).
    cbn [recvs recv auth_state]. unfold raw_read_frame.
    cbn [rs_stream read_buf rs_sink auth_state]. rewrite Hread.
    cbn [fmap list_fmap app]. f_equal. by apply IH.
Qed.

(** ** Properties *)

(** C29: A raw-framing session authenticates with its first frame.  If the
    provider accepts that frame's payload as a token, the session delivers it
    and every later frame, in order and under that identity, and then nothing;
    if it does not, the session delivers nothing at all and refuses to send. *)
Theorem raw_session_authenticates P e0 envs chunks m :
  Forall frame_ok (e0 :: envs) → Forall (λ c : list byte, c ≠ []) chunks →
  concat chunks = concat (encode <$> e0 :: envs) →
  (∀ i, resolve_from_token (token_of e0) = Ret (Some i) →
     recvs P (length (e0 :: envs) + m) (RawFramingSession_new (Ok <$> chunks))
     = ((λ e, Ret (Some (with_identity e i))) <$> e0 :: envs) ++ replicate m (Ret None))
  ∧ (resolve_from_token (token_of e0) = Ret None →
     recvs P (S m) (RawFramingSession_new (Ok <$> chunks)) = replicate (S m) (Ret None)
     ∧ ∀ fault e, (send fault (recv P (RawFramingSession_new (Ok <$> chunks))).1 e).2
            = Err "session authentication failed").
Proof.
  intros Hok Hne Heq. apply Forall_cons in Hok as [He0 Hok].
  destruct (raw_read_encoded chunks [] e0 (concat (list_fmap _ _ encode envs)) He0 Hne Heq)
    as (chunks' & buf' & Hread & Hne' & Heq').
  assert (∀ r, resolve_from_token (token_of e0) = Ret r →
    recv P (RawFramingSession_new (Ok <$> chunks)) =
    match r with
    | Some i => (mkRawSession (Ok <$> chunks') [] (Authenticated i) buf', Ret (Some (with_identity e0 i)))
    | None => (mkRawSession (Ok <$> chunks') [] AuthFailed buf', Ret None)
    end) as Hrecv.
  { intros r Hr. unfold recv, RawFramingSession_new, raw_read_frame.
    cbn [auth_state rs_stream read_buf rs_sink]. rewrite Hread, Hr. by destruct r. }
  split.
  - intros i Hi. change (length (e0 :: envs) + m)%nat with (S (length envs + m)). cbn [recvs].
    rewrite (Hrecv _ Hi). cbn [fmap list_fmap app]. f_equal.
    by apply recvs_authenticated.
  - intros Hn. cbn [recvs]. rewrite (Hrecv _ Hn). split; [|done].
    cbn [replicate]. f_equal. by apply recvs_failed.
Qed.

(** An authenticated raw-framing session never gets past a frame whose body
    is not JSON: it stays in the buffer, so every later call returns nothing,
    whatever frames follow it. *)
Theorem raw_session_stuck P i sink chunks buf body rest j n :
  Forall (λ c : list byte, c ≠ []) chunks →
  next_frame (buf ++ concat chunks) = Some (body, rest) → from_slice body = Err j →
  recvs P n (mkRawSession (Ok <$> chunks) sink (Authenticated i) buf) = replicate n (Ret None).
Proof.
  intros Hne Hnf Hj. destruct n as [|n]; [done|].
  destruct (raw_read_bad chunks buf body rest j Hne Hnf Hj)
    as (chunks' & buf' & Hread & _ & rest' & Hnf').
  cbn [recvs recv auth_state]. unfold raw_read_frame. cbn [rs_stream read_buf rs_sink auth_state].
  rewrite Hread. cbn [replicate]. f_equal. by eapply recvs_stuck.
Qed.
End Session.

(** ** Examples *)
Module RawFramingExample.
(** Envelopes with a string payload, written as that string. *)
#[export] Instance payload_codec : EnvelopeCodec := {|
  to_vec e := match env_payload e with JStr s => bytes_of s | _ => [] end;
  from_slice bs := match bs with
                   | [] => Err tt
                   | _ => Ok (mkEnvelope _ "call.requested" EmptyString (JStr (str_of bs)))
                   end;
|}.
Definition envelope (s : string) : EventEnvelope :=
  mkEnvelope _ "call.requested" EmptyString (JStr s).
Definition alice : Identity := mkIdentity "alice" ["call"] ∅.
Definition token_provider : IdentityProvider := {|
  resolve_from_fingerprint _ := None;
  resolve_from_token t := Ret (if decide (t = bytes_of "tok") then Some alice else None);
|}.

(** The token and one request, split in the middle of the token. *)
Definition two_frames : list (list byte) :=
  [[x00; x00; x00; x03; x74]; [x6f; x6b; x00; x00; x00; x01; x61]].

Lemma raw_session_authenticates_witness :
  (∀ i, resolve_from_token (IdentityProvider := token_provider) (token_of (envelope "tok")) = Ret (Some i) →
     recvs token_provider 3 (RawFramingSession_new (IoError := unit) (Ok <$> two_frames))
     = [Ret (Some (with_identity (envelope "tok") i)); Ret (Some (with_identity (envelope "a") i)); Ret None])
  ∧ (resolve_from_token (IdentityProvider := token_provider) (token_of (envelope "tok")) = Ret None →
     recvs token_provider 2 (RawFramingSession_new (IoError := unit) (Ok <$> two_frames))
     = replicate 2 (Ret None)
     ∧ ∀ fault e, (send fault (recv token_provider (RawFramingSession_new (IoError := unit) (Ok <$> two_frames))).1 e).2
            = Err "session authentication failed").
Proof.
  apply (raw_session_authenticates token_provider (envelope "tok") [envelope "a"] two_frames 1).
  - repeat constructor.
  - repeat constructor; discriminate.
  - vm_compute. reflexivity.
Defined.

(** An empty body, then a good frame. *)
Lemma raw_session_stuck_witness :
  recvs token_provider 5
    (mkRawSession (IoError := unit) (Ok <$> [[x00; x00; x00; x01; x61]]) [] (Authenticated alice)
       [x00; x00; x00; x00])
  = replicate 5 (Ret None).
Proof.
  eapply (raw_session_stuck token_provider alice [] _ _ [] [x00; x00; x00; x01; x61]).
  - repeat constructor; discriminate.
  - vm_compute. reflexivity.
  - reflexivity.
Defined.
End RawFramingExample.
