(* ===== verification/SshInterface.v ===== *)
(** * The SSH stream interface (interface/ssh.rs)

    [SshHandler] is the handler of an SSH connection served as a stream
    interface; it makes the decisions of server/handler.rs anew, and bridges the
    channel to the destination [alknet-control] to the session's queues of
    events and envelopes.  [bridge_step] interleaves the bridge with the session
    that uses it. *)
From S2P Require Import Prelude RustStd Json Frame Net Forwarding Keys AuthPolicy DynConfig RateLimit.
From S2P Require Import ServerHandler RawFraming.
From Stdlib Require Import Strings.Byte.
Open Scope Z_scope.

(** ** The handler *)
Record SshHandler := mkSshHandler {
  sh_outbound_proxy : option ProxyConfig;
  sh_remote_addr : option SocketAddr;
  sh_transport : TransportKind;
  sh_connection_allowed : bool;
  sh_auth_limiter : AuthAttemptLimiter;
  sh_identity : option Identity;
  sh_router : bool;                     (* a control-channel handler is registered *)
  sh_bridge : bool;                     (* the bridge's queues are still here *)
}.

Definition ssh_new (proxy : option ProxyConfig) (remote : option SocketAddr) (transport : TransportKind)
    (limiter : ConnectionRateLimiter) (max_auth_attempts : nat) : SshHandler * ConnectionRateLimiter :=
  let '(allowed, limiter) :=
    match remote with
    | Some addr =>
        let ip := sock_ip addr in
        if limiter_check limiter ip then (true, on_connect limiter ip) else (false, limiter)
    | None => (true, limiter)
    end in
  (mkSshHandler proxy remote transport allowed (attempts_new max_auth_attempts) None false false, limiter).

Definition ssh_set (h : SshHandler) (l : AuthAttemptLimiter) (i : option Identity) (router bridge : bool)
    : SshHandler :=
  mkSshHandler (sh_outbound_proxy h) (sh_remote_addr h) (sh_transport h) (sh_connection_allowed h)
    l i router bridge.

Definition with_control_channel_router (h : SshHandler) (has_handler : bool) : SshHandler :=
  ssh_set h (sh_auth_limiter h) (sh_identity h) has_handler (sh_bridge h).
Definition with_bridge_channels (h : SshHandler) : SshHandler :=
  ssh_set h (sh_auth_limiter h) (sh_identity h) (sh_router h) true.

Definition ssh_drop (h : SshHandler) (limiter : ConnectionRateLimiter) : ConnectionRateLimiter :=
  match sh_remote_addr h with
  | Some addr => if sh_connection_allowed h then on_disconnect limiter (sock_ip addr) else limiter
  | None => limiter
  end.

Definition ssh_auth_publickey `{SshKeys} (P : IdentityProvider) (h : SshHandler) (key : PublicKey)
    : SshHandler * Auth :=
  if negb (attempts_check (sh_auth_limiter h)) then (h, Reject)
  else
    match resolve_from_fingerprint (fingerprint key) with
    | Some i => (ssh_set h (sh_auth_limiter h) (Some i) (sh_router h) (sh_bridge h), Accept)
    | None =>
        (ssh_set h (on_failure (sh_auth_limiter h)) (sh_identity h) (sh_router h) (sh_bridge h), Reject)
    end.

(** What is spawned for a channel. *)
Inductive SshTask :=
| NoTask
| RunBridge (identity : option Identity)
| RunHandler
| RunDial (t : DialTask).

Definition ssh_direct_tcpip `{SshKeys, IpNetworkLib} (cell : DynamicConfig) (h : SshHandler)
    (host_to_connect : string) (port_to_connect : Z) : SshHandler * bool * SshTask :=
  if starts_with ALKNET_PREFIX host_to_connect then
    if bool_decide (host_to_connect = ALKNET_CONTROL_DESTINATION) && sh_bridge h then
      (ssh_set h (sh_auth_limiter h) (sh_identity h) (sh_router h) false, true, RunBridge (sh_identity h))
    else if sh_router h then
      (ssh_set h (sh_auth_limiter h) (sh_identity h) false (sh_bridge h), true, RunHandler)
    else (h, false, NoTask)
  else
    let identity := default anonymous (sh_identity h) in
    let allowed :=
      policy_check (forwarding cell) host_to_connect (as_u16 port_to_connect) identity (sh_transport h) in
    if negb allowed then (h, false, NoTask)
    else (h, true, RunDial (mkDial host_to_connect port_to_connect
                              (default (mkProxyConfig Direct) (sh_outbound_proxy h)))).

(** The remaining callbacks. *)
Definition ssh_open_other (r : SshRequest) : option SshReply :=
  match r with
  | OpenSession | OpenX11 _ _ | OpenForwardedTcpip _ _ => Some (Answer false)
  | _ => None
  end.
Definition ssh_channel_request (r : SshRequest) : option SshReply :=
  match r with
  | Exec _ | Shell | Subsystem _ | Pty _ | Env _ _ | X11 _ => Some ChannelFailure
  | Agent => Some (Answer false)
  | _ => None
  end.
Definition ssh_global_request (r : SshRequest) : option SshReply :=
  match r with
  | TcpipForward _ _ | CancelTcpipForward _ _ | StreamlocalForward _ => Some (Answer false)
  | Signal => Some NoReply
  | _ => None
  end.
Definition ssh_reply (r : SshRequest) : SshReply :=
  match ssh_open_other r with
  | Some a => a
  | None => match ssh_channel_request r with Some a => a | None => default NoReply (ssh_global_request r) end
  end.

(** ** A connection as a sequence of events *)
Section Connection.
Context `{SshKeys, IpNetworkLib}.

Inductive SshOutput :=
| SOutAuth (a : Auth)
| SOutChannel (accepted : bool) (task : SshTask)
| SOutReply (r : SshReply).

Definition ssh_step (h : SshHandler) (ev : DynamicConfig * IdentityProvider * HandlerEvent)
    : SshHandler * SshOutput :=
  match ev with
  | (cell, P, EvAuth key) => let '(h, a) := ssh_auth_publickey P h key in (h, SOutAuth a)
  | (cell, P, EvDirect host port) =>
      let '(h, b, t) := ssh_direct_tcpip cell h host port in (h, SOutChannel b t)
  | (cell, P, EvRequest r) => (h, SOutReply (ssh_reply r))
  end.

(** What an observer of authentication, dials and other requests sees. *)
Inductive Seen := SeenAuth (a : Auth) | SeenDial (t : option DialTask) | SeenReply (r : SshReply).
Definition seen_ssh (o : SshOutput) : Seen :=
  match o with
  | SOutAuth a => SeenAuth a
  | SOutChannel _ (RunDial t) => SeenDial (Some t)
  | SOutChannel _ _ => SeenDial None
  | SOutReply r => SeenReply r
  end.
Definition seen_server (o : HandlerOutput) : Seen :=
  match o with
  | OutAuth a => SeenAuth a
  | OutChannel _ t => SeenDial t
  | OutReply r => SeenReply r
  end.

(** The two handlers agree on what they have in common. *)
Record same_core (h : ServerHandler) (sh : SshHandler) : Prop := {
  sc_proxy : sh_outbound_proxy sh = outbound_proxy h;
  sc_remote : sh_remote_addr sh = h_remote_addr h;
  sc_transport : sh_transport sh = h_transport h;
  sc_allowed : sh_connection_allowed sh = connection_allowed h;
  sc_limiter : sh_auth_limiter sh = auth_limiter h;
  sc_identity : sh_identity sh = authenticated_identity h;
}.

Lemma ssh_auth_simulates P h sh key :
  same_core h sh →
  same_core (auth_publickey P h key).1 (ssh_auth_publickey P sh key).1 ∧
  (ssh_auth_publickey P sh key).2 = (auth_publickey P h key).2.
Proof.
  intros [Hp Hr Ht Ha Hl Hi]. unfold ssh_auth_publickey, auth_publickey. rewrite Hl.
  destruct (attempts_check (auth_limiter h)); simpl; [|by split].
  destruct (resolve_from_fingerprint (fingerprint key)); simpl; (split; [|done]); by split.
Qed.

Lemma ssh_direct_simulates cell h sh host port :
  same_core h sh →
  let '(sh', b, t) := ssh_direct_tcpip cell sh host port in
  same_core h sh' ∧
  seen_ssh (SOutChannel b t) = SeenDial (channel_open_direct_tcpip cell h host port).2.
Proof.
  intros Hc. pose proof Hc as [Hp Hr Ht Ha Hl Hi]. unfold ssh_direct_tcpip, channel_open_direct_tcpip.
  destruct (starts_with ALKNET_PREFIX host).
  - destruct (bool_decide _ && sh_bridge sh); [|destruct (sh_router sh)];
      (split; [by split|]); by destruct (control_handler h).
  - rewrite Hi, Ht, Hp. destruct (policy_check _ _ _ _ _); by split.
Qed.

Lemma ssh_reply_of r : ssh_reply r = reply_of r.
Proof. by destruct r. Qed.

Lemma ssh_step_simulates h sh ev :
  same_core h sh →
  same_core (handler_step h ev).1 (ssh_step sh ev).1 ∧
  seen_ssh (ssh_step sh ev).2 = seen_server (handler_step h ev).2.
Proof.
  intros Hc. destruct ev as [[cell P] [key|host port|r]]; simpl.
  - destruct (ssh_auth_simulates P h sh key Hc) as [Hc' Ho].
    destruct (ssh_auth_publickey P sh key), (auth_publickey P h key). simpl in *. by subst.
  - pose proof (ssh_direct_simulates cell h sh host port Hc) as Hd.
    destruct (ssh_direct_tcpip cell sh host port) as [[sh' b] t].
    by destruct (channel_open_direct_tcpip cell h host port).
  - by rewrite ssh_reply_of.
Qed.

Lemma ssh_run_simulates h sh evs :
  same_core h sh →
  same_core (run_steps handler_step h evs).1 (run_steps ssh_step sh evs).1 ∧
  seen_ssh <$> (run_steps ssh_step sh evs).2 = seen_server <$> (run_steps handler_step h evs).2.
Proof.
  revert h sh. induction evs as [|ev evs IH]; intros h sh Hc; simpl; [done|].
  destruct (ssh_step_simulates h sh ev Hc) as [Hc' Ho].
  destruct (handler_step h ev) as [h1 o], (ssh_step sh ev) as [sh1 so]. simpl in *.
  destruct (IH h1 sh1 Hc') as [Hc'' Hos].
  destruct (run_steps handler_step h1 evs), (run_steps ssh_step sh1 evs). simpl in *.
  split; [done|]. f_equal; [exact Ho|exact Hos].
Qed.

(** The identities under which the control channel was bridged. *)
Definition bridged (os : list SshOutput) : list (option Identity) :=
  omap (λ o, match o with SOutChannel _ (RunBridge i) => Some i | _ => None end) os.

Lemma bridge_once sh evs :
  (length (bridged (run_steps ssh_step sh evs).2) ≤ if sh_bridge sh then 1 else 0)%nat.
Proof.
  revert sh. induction evs as [|ev evs IH]; intros sh; simpl; [lia|].
  destruct (ssh_step sh ev) as [sh1 o] eqn:Hs. specialize (IH sh1).
  destruct (run_steps ssh_step sh1 evs) as [sh2 os]. simpl in *.
  assert (match o with SOutChannel _ (RunBridge _) => sh_bridge sh = true ∧ sh_bridge sh1 = false
          | _ => sh_bridge sh1 = sh_bridge sh end) as Hb.
  { destruct ev as [[cell P] [key|host port|r]]; simpl in Hs.
    - unfold ssh_auth_publickey in Hs. repeat case_match; by simplify_eq/=.
    - unfold ssh_direct_tcpip in Hs.
      destruct (starts_with _ _); [|destruct (negb _); by simplify_eq/=].
      destruct (bool_decide _ && sh_bridge sh) eqn:Hbr; [|destruct (sh_router sh); by simplify_eq/=].
      apply andb_true_iff in Hbr as [_ Hbr]. by simplify_eq/=.
    - by simplify_eq. }
  destruct o as [a|b [|i| |t]|r]; simpl in *; rewrite ?Hb in IH; try done.
  destruct Hb as [-> Hb]. rewrite Hb in IH. lia.
Qed.

(** The SSH interface decides as the server does.  For any sequence of
    authentication attempts, channel openings and other requests, under
    configurations that may change in between, its handler and the server's
    accept and reject the same keys, dial the same targets through the same
    proxies, and answer every other request alike; they take from the
    connection limiter and give back the same.  What the interface adds is the
    control channel, which is bridged at most once in a connection. *)
Theorem ssh_handler_agrees proxy remote transport limiter max evs :
  let '(h, l) := handler_new proxy remote transport limiter max in
  let '(sh, sl) := ssh_new proxy remote transport limiter max in
  let '(h', os) := run_steps handler_step h evs in
  let '(sh', sos) := run_steps ssh_step (with_bridge_channels sh) evs in
  sl = l ∧ seen_ssh <$> sos = seen_server <$> os ∧ (length (bridged sos) ≤ 1)%nat ∧
  ∀ l', ssh_drop sh' l' = handler_drop h' l'.
Proof.
  destruct (handler_new proxy remote transport limiter max) as [h l] eqn:Hh.
  destruct (ssh_new proxy remote transport limiter max) as [sh sl] eqn:Hsh.
  assert (sl = l ∧ same_core h (with_bridge_channels sh)) as [-> Hc].
  { unfold handler_new, ssh_new in *. destruct remote as [a|]; [destruct (limiter_check limiter (sock_ip a))|];
      simplify_eq/=; by split. }
  destruct (ssh_run_simulates h (with_bridge_channels sh) evs Hc) as [[_ Hr _ Ha _ _] Ho].
  pose proof (bridge_once (with_bridge_channels sh) evs) as Hb.
  destruct (run_steps handler_step h evs) as [h' os].
  destruct (run_steps ssh_step (with_bridge_channels sh) evs) as [sh' sos]. simpl in *.
  split_and!; [done|done|done|]. intros l'. unfold ssh_drop, handler_drop. by rewrite Hr, Ha.
Qed.
End Connection.

(** ** The control-channel bridge *)
Section Bridge.
Context `{J : Json} {C : EnvelopeCodec} {IoError : Type}.

Record Bridge := mkBridge {
  bg_reader : FrameFramedReader (IoError := IoError);
  bg_writer : FrameFramedWriter;
  bg_events : list InterfaceEvent;      (* delivered to the session *)
  bg_inbox : list EventEnvelope;        (* sent by the session, not yet written *)
  bg_sent : list EventEnvelope;         (* everything the session sent *)
  bg_session : bool;                    (* the session's ends are alive *)
  bg_done : bool;
}.

Definition bridge_event (identity : option Identity) (e : EventEnvelope) : InterfaceEvent :=
  match identity with Some i => with_identity e i | None => InterfaceEvent_new e end.

(** [run_control_channel_bridge]: [select!] takes a frame of the channel or an
    envelope of the session, in either order; an end or a failure of either
    side ends it; a write that fails may have put part of its frame on the
    channel.  The session sends while the bridge runs, and may go away. *)
Inductive bridge_step (identity : option Identity) : Bridge → Bridge → Prop :=
| bs_frame b e r :
    bg_done b = false → read_frame (bg_reader b) = (Ok (Some e), r) → bg_session b = true →
    bridge_step identity b
      (mkBridge r (bg_writer b) (bg_events b ++ [bridge_event identity e]) (bg_inbox b) (bg_sent b) true false)
| bs_frame_refused b e r :
    bg_done b = false → read_frame (bg_reader b) = (Ok (Some e), r) → bg_session b = false →
    bridge_step identity b
      (mkBridge r (bg_writer b) (bg_events b) (bg_inbox b) (bg_sent b) false true)
| bs_frame_end b res r :
    bg_done b = false → read_frame (bg_reader b) = (res, r) → (∀ e, res ≠ Ok (Some e)) →
    bridge_step identity b
      (mkBridge r (bg_writer b) (bg_events b) (bg_inbox b) (bg_sent b) (bg_session b) true)
| bs_envelope b e inbox :
    bg_done b = false → bg_inbox b = e :: inbox →
    bridge_step identity b
      (mkBridge (bg_reader b) (write_frame (IoError := IoError) None (bg_writer b) e).2 (bg_events b) inbox (bg_sent b)
         (bg_session b) false)
| bs_write_failed b e inbox fault err w :
    bg_done b = false → bg_inbox b = e :: inbox → write_frame fault (bg_writer b) e = (Err (err : IoError), w) →
    bridge_step identity b
      (mkBridge (bg_reader b) w (bg_events b) (e :: inbox)
         (bg_sent b) (bg_session b) true)
| bs_no_more b :
    bg_done b = false → bg_inbox b = [] → bg_session b = false →
    bridge_step identity b
      (mkBridge (bg_reader b) (bg_writer b) (bg_events b) [] (bg_sent b) false true)
| bs_send b e :
    bg_done b = false → bg_session b = true →
    bridge_step identity b
      (mkBridge (bg_reader b) (bg_writer b) (bg_events b) (bg_inbox b ++ [e]) (bg_sent b ++ [e])
         true false)
| bs_leave b :
    bridge_step identity b
      (mkBridge (bg_reader b) (bg_writer b) (bg_events b) (bg_inbox b) (bg_sent b) false (bg_done b)).

Definition bridge_new (stream : list (result (list byte) IoError)) : Bridge :=
  mkBridge (FrameFramedReader_new stream) (mkWriter []) [] [] [] true false.

(** The reader stands at the start of the frames of [envs]. *)
Definition reader_at (r : FrameFramedReader (IoError := IoError)) (envs : list EventEnvelope) : Prop :=
  ∃ chunks, rd_stream r = Ok <$> chunks ∧ Forall (λ c : list byte, c ≠ []) chunks ∧
    rd_buf r ++ concat chunks = concat (list_fmap _ _ encode envs).

Lemma read_frame_at r envs res r' :
  Forall frame_ok envs → reader_at r envs → read_frame r = (res, r') →
  match envs with
  | [] => res = Ok None
  | e :: envs' => res = Ok (Some e) ∧ reader_at r' envs'
  end.
Proof.
  intros Hok (chunks & Hs & Hne & Hd) Hr. unfold read_frame in Hr. rewrite Hs in Hr.
  pose proof (read_loop_chunks (IoError := IoError) chunks (rd_buf r) Hne) as Hl. rewrite Hd in Hl.
  destruct envs as [|e envs].
  - simpl in Hl. rewrite Hl in Hr. by simplify_eq.
  - apply Forall_cons in Hok as [[Hlen Hrt] Hok]. cbn [list_fmap concat] in Hl.
    rewrite next_frame_encode in Hl by done. rewrite Hrt in Hl.
    destruct Hl as (chunks' & buf' & Hl & Hne' & Hd'). rewrite Hl in Hr. simplify_eq.
    split; [done|]. by exists chunks'.
Qed.

Record bridge_ok (identity : option Identity) (envs : list EventEnvelope) (b : Bridge) : Prop := {
  bk_events : ∃ k, bg_events b = bridge_event identity <$> take k envs ∧
    (bg_done b = false → reader_at (bg_reader b) (drop k envs));
  bk_written : ∃ written part, wr_sink (bg_writer b) = concat (list_fmap _ _ encode written) ++ part ∧
    part `prefix_of` concat (list_fmap _ _ encode (bg_inbox b)) ∧ bg_sent b = written ++ bg_inbox b ∧
    (bg_done b = false → part = []);
}.

Lemma bridge_step_ok identity envs b b' :
  Forall frame_ok envs → bridge_step identity b b' → bridge_ok identity envs b →
  bridge_ok identity envs b'.
Proof.
  intros Hok Hstep [(k & Hev & Hrd) (written & part & Hsink & Hpart & Hsent & Hlive)].
  assert (Forall frame_ok (drop k envs)) as Hokd by (by apply Forall_drop).
  destruct Hstep as [b e r Hd Hr Hs|b e r Hd Hr Hs|b res r Hd Hr Hn|b e inbox Hd Hin|b e inbox fault err w Hd Hin Hp
                     |b Hd Hin Hs|b e Hd Hs|b]; try (specialize (Hlive Hd) as ->);
    split; simpl; try (by exists k; split; auto); try (by exists written, []; auto).
  - pose proof (read_frame_at _ _ _ _ Hokd (Hrd Hd) Hr) as Hat.
    destruct (drop k envs) as [|e' rest] eqn:Hdk; [done|]. destruct Hat as [[= ->] Hat].
    assert (envs !! k = Some e') as Hk.
    { rewrite <-(Nat.add_0_r k), <-lookup_drop, Hdk. done. }
    exists (S k). rewrite Hev, (take_S_r _ _ _ Hk), fmap_app. split; [done|]. intros _.
    by rewrite (drop_S _ _ _ Hk) in Hdk; simplify_eq.
  - exists (written ++ [e]), []. rewrite Hsink, Hsent, Hin, !app_nil_r.
    change (list_fmap _ _ encode (written ++ [e])) with (encode <$> written ++ [e]).
    rewrite fmap_app, concat_app. cbn [fmap list_fmap concat].
    rewrite app_nil_r, <-app_assoc. split_and!; try done. apply prefix_nil.
  - apply write_frame_failed in Hp as (p & -> & Hp). simpl. exists written, p. rewrite Hsink, Hsent, Hin, app_nil_r. split_and!; try done.
    by apply (prefix_app_r _ _ _ Hp).
  - exists written, []. by rewrite Hsent, Hin.
  - exists written, []. rewrite Hsent, <-app_assoc. split_and!; try done. apply prefix_nil.
  - by exists written, part.
Qed.

Lemma bridge_reachable_ok identity envs chunks b :
  Forall frame_ok envs → Forall (λ c : list byte, c ≠ []) chunks →
  concat chunks = concat (encode <$> envs) →
  rtc (bridge_step identity) (bridge_new (Ok <$> chunks)) b → bridge_ok identity envs b.
Proof.
  intros Hok Hne Hd Hr.
  eapply (rtc_ind_r (bridge_ok identity envs) (bridge_new (Ok <$> chunks))); [| |exact Hr].
  - split; [exists 0%nat|by exists [], []]. split; [done|]. intros _. by exists chunks.
  - intros b1 b2 _ Hs Hb. by eapply bridge_step_ok.
Qed.

(** The control-channel bridge is faithful in both directions.  Whatever the
    interleaving, and however the channel cuts its bytes, the events the session
    has received are the first of the envelopes the peer sent, in order, each
    under the identity of the connection; and what has been written to the
    channel is the frames of the first envelopes the session sent, in order,
    the rest still waiting, followed, only when the bridge has ended on a
    failed write, by the start of the next frame. *)
Theorem bridge_faithful identity envs chunks b :
  Forall frame_ok envs → Forall (λ c : list byte, c ≠ []) chunks →
  concat chunks = concat (encode <$> envs) →
  rtc (bridge_step identity) (bridge_new (Ok <$> chunks)) b →
  (∃ k, bg_events b = bridge_event identity <$> take k envs) ∧
  (∃ written part, wr_sink (bg_writer b) = concat (encode <$> written) ++ part ∧
     part `prefix_of` concat (encode <$> bg_inbox b) ∧ bg_sent b = written ++ bg_inbox b ∧
     (bg_done b = false → part = [])).
Proof.
  intros Hok Hne Hd Hr. destruct (bridge_reachable_ok identity envs chunks b Hok Hne Hd Hr) as [(k & Hev & _) Hw].
  split; [by exists k|done].
Qed.
End Bridge.

(** ** A bridge in use *)
Module SshExample.
Import RawFramingExample.

(** The channel delivers one request in two reads, and the session answers. *)
Definition request_bytes : list (list byte) := [[x00; x00; x00]; [x01; x61]].

Lemma bridge_faithful_witness :
  (∃ k, [bridge_event (Some alice) (envelope "a")] = bridge_event (Some alice) <$> take k [envelope "a"]) ∧
  (∃ written part, [x00; x00; x00; x01; x62] = concat (encode <$> written) ++ part ∧
     part `prefix_of` concat (encode <$> []) ∧ [envelope "b"] = written ++ [] ∧ (false = false → part = [])).
Proof.
  apply (bridge_faithful (IoError := unit) (Some alice) [envelope "a"] request_bytes
           (mkBridge (mkReader [] []) (mkWriter [x00; x00; x00; x01; x62])
              [bridge_event (Some alice) (envelope "a")] [] [envelope "b"] true false)).
  - repeat constructor.
  - repeat constructor; discriminate.
  - vm_compute. reflexivity.
  - eapply rtc_l; [eapply (bs_send _ _ (envelope "b")); reflexivity|].
    eapply rtc_l; [eapply (bs_frame _ _ (envelope "a")); reflexivity|].
    eapply rtc_l; [eapply bs_envelope; reflexivity|]. apply rtc_refl.
Defined.
End SshExample.
