(* ===== verification/BoundedBridge.v ===== *)
(** * The control-channel bridge with its bounded queues (interface/ssh.rs)

    [accept_inner] makes the queues between a session and its bridge with room
    for 256 elements each; [send] waits while its queue is full, and an [SshSession]
    is used by one task, which either sends or receives.  The machine here has
    these waits.  It refines the bridge of [SshInterface], whose queues are
    unbounded, and it can block where that one cannot. *)
From S2P Require Import Prelude RustStd Json Frame Net Forwarding Keys AuthPolicy DynConfig RateLimit.
From S2P Require Import ServerHandler RawFraming SshInterface.
From Stdlib Require Import Strings.Byte.
Open Scope Z_scope.

Definition QUEUE_CAPACITY : nat := 256.

Section BoundedBridge.
Context `{J : Json} {C : EnvelopeCodec} {IoError : Type}.
#[local] Notation Bridge := (Bridge (IoError := IoError)).

(** What the session's task is doing: nothing of the session's, or in [send]. *)
Inductive SessionPc := SIdle | SSending (e : EventEnvelope).

(** [bb_pending]: the event in [event_tx.send(event).await]. *)
Record BBridge := mkBBridge {
  bb_bridge : Bridge;
  bb_pending : option InterfaceEvent;
  bb_received : nat;                    (* how many events the session has taken *)
  bb_pc : SessionPc;
}.
Definition bb_queued (s : BBridge) : nat := length (bg_events (bb_bridge s)) - bb_received s.

Definition bb_new (stream : list (result (list byte) IoError)) : BBridge :=
  mkBBridge (bridge_new stream) None 0 SIdle.

Definition set_done (b : Bridge) (r : FrameFramedReader (IoError := IoError)) : Bridge :=
  mkBridge r (bg_writer b) (bg_events b) (bg_inbox b) (bg_sent b) (bg_session b) true.
Definition set_reader (b : Bridge) (r : FrameFramedReader (IoError := IoError)) : Bridge :=
  mkBridge r (bg_writer b) (bg_events b) (bg_inbox b) (bg_sent b) (bg_session b) (bg_done b).

(** The bridge: [select!] while nothing is pending, else the wait for room. *)
Inductive bb_bridge_step (identity : option Identity) : BBridge → BBridge → Prop :=
| bb_frame b rc pc e r :
    bg_done b = false → read_frame (bg_reader b) = (Ok (Some e), r) →
    bb_bridge_step identity (mkBBridge b None rc pc) (mkBBridge (set_reader b r) (Some (bridge_event identity e)) rc pc)
| bb_deliver b ev rc pc :
    bg_done b = false → bg_session b = true → (length (bg_events b) - rc < QUEUE_CAPACITY)%nat →
    bb_bridge_step identity (mkBBridge b (Some ev) rc pc)
      (mkBBridge (mkBridge (bg_reader b) (bg_writer b) (bg_events b ++ [ev]) (bg_inbox b) (bg_sent b) true false)
         None rc pc)
| bb_refused b ev rc pc :
    bg_done b = false → bg_session b = false →
    bb_bridge_step identity (mkBBridge b (Some ev) rc pc) (mkBBridge (set_done b (bg_reader b)) None rc pc)
| bb_frame_end b rc pc res r :
    bg_done b = false → read_frame (bg_reader b) = (res, r) → (∀ e, res ≠ Ok (Some e)) →
    bb_bridge_step identity (mkBBridge b None rc pc) (mkBBridge (set_done b r) None rc pc)
| bb_envelope b rc pc e inbox :
    bg_done b = false → bg_inbox b = e :: inbox →
    bb_bridge_step identity (mkBBridge b None rc pc)
      (mkBBridge (mkBridge (bg_reader b) (write_frame (IoError := IoError) None (bg_writer b) e).2 (bg_events b) inbox (bg_sent b)
                    (bg_session b) false) None rc pc)
| bb_write_failed b rc pc e inbox fault err w :
    bg_done b = false → bg_inbox b = e :: inbox → write_frame fault (bg_writer b) e = (Err (err : IoError), w) →
    bb_bridge_step identity (mkBBridge b None rc pc)
      (mkBBridge (mkBridge (bg_reader b) w (bg_events b) (e :: inbox)
                    (bg_sent b) (bg_session b) true) None rc pc)
| bb_no_more b rc pc :
    bg_done b = false → bg_inbox b = [] → bg_session b = false →
    bb_bridge_step identity (mkBBridge b None rc pc) (mkBBridge (set_done b (bg_reader b)) None rc pc).

(** The session: [recv], and [send] in two steps, the wait for room between
    them; [send] fails when the bridge is gone. *)
Inductive bb_session_step : BBridge → BBridge → Prop :=
| bb_recv b pd rc :
    bg_session b = true → (rc < length (bg_events b))%nat →
    bb_session_step (mkBBridge b pd rc SIdle) (mkBBridge b pd (S rc) SIdle)
| bb_send b pd rc e :
    bg_session b = true → bb_session_step (mkBBridge b pd rc SIdle) (mkBBridge b pd rc (SSending e))
| bb_sent b pd rc e :
    bg_session b = true → bg_done b = false → (length (bg_inbox b) < QUEUE_CAPACITY)%nat →
    bb_session_step (mkBBridge b pd rc (SSending e))
      (mkBBridge (mkBridge (bg_reader b) (bg_writer b) (bg_events b) (bg_inbox b ++ [e]) (bg_sent b ++ [e]) true false)
         pd rc SIdle)
| bb_send_failed b pd rc e :
    bg_session b = true → bg_done b = true →
    bb_session_step (mkBBridge b pd rc (SSending e)) (mkBBridge b pd rc SIdle).

(** The session is dropped, a [send] in progress with it. *)
Definition bb_leave (s : BBridge) : BBridge :=
  let b := bb_bridge s in
  mkBBridge (mkBridge (bg_reader b) (bg_writer b) (bg_events b) (bg_inbox b) (bg_sent b) false (bg_done b))
    (bb_pending s) (bb_received s) SIdle.

Inductive bb_step (identity : option Identity) : BBridge → BBridge → Prop :=
| bb_by_bridge s s' : bb_bridge_step identity s s' → bb_step identity s s'
| bb_by_session s s' : bb_session_step s s' → bb_step identity s s'
| bb_by_leave s : bb_step identity s (bb_leave s).

(** ** Refinement *)
(** The unbounded bridge has not read yet the frame whose event is pending. *)
Definition bb_sim (identity : option Identity) (s : BBridge) (b : Bridge) : Prop :=
  match bb_pending s with
  | None => b = bb_bridge s
  | Some ev => ∃ e r, ev = bridge_event identity e ∧ b = set_reader (bb_bridge s) r
      ∧ read_frame r = (Ok (Some e), bg_reader (bb_bridge s))
  end.

Lemma bb_bridge_sim identity s s' b :
  bb_bridge_step identity s s' → bb_sim identity s b → ∃ b', rtc (bridge_step identity) b b' ∧ bb_sim identity s' b'.
Proof.
  intros Hs Hsim. destruct Hs as [b0 rc pc e r Hd Hr|b0 ev rc pc Hd Hse Hc|b0 ev rc pc Hd Hse|b0 rc pc res r Hd Hr Hn
    |b0 rc pc e inbox Hd Hi|b0 rc pc e inbox fault err w Hd Hi Hp|b0 rc pc Hd Hi Hse]; unfold bb_sim in *; simpl in *.
  - subst b. exists b0. split; [done|]. exists e, (bg_reader b0). by destruct b0.
  - destruct Hsim as (e & r & -> & -> & Hr). eexists. split; [|done].
    by apply rtc_once, (bs_frame _ (set_reader b0 r) e (bg_reader b0)).
  - destruct Hsim as (e & r & -> & -> & Hr). eexists. split; [apply rtc_once, (bs_frame_refused _ _ e); done|].
    unfold set_done. by rewrite Hse.
  - subst b. eexists. split; [by apply rtc_once, (bs_frame_end _ _ res r)|done].
  - subst b. eexists. split; [by apply rtc_once, bs_envelope|done].
  - subst b. eexists. split; [by apply rtc_once, (bs_write_failed _ _ e inbox fault err w)|done].
  - subst b. eexists. split; [by apply rtc_once, bs_no_more|]. unfold set_done. by rewrite Hi, Hse.
Qed.

Lemma bb_step_sim identity s s' b :
  bb_step identity s s' → bb_sim identity s b → ∃ b', rtc (bridge_step identity) b b' ∧ bb_sim identity s' b'.
Proof.
  intros [s1 s2 Hs|s1 s2 Hs|s1] Hsim; [by eapply bb_bridge_sim| |].
  - destruct Hs as [b0 pd rc Hse Hl|b0 pd rc e Hse|b0 pd rc e Hse Hd Hc|b0 pd rc e Hse Hd]; try by exists b.
    unfold bb_sim in *. simpl in *. destruct pd as [ev|].
    + destruct Hsim as (e0 & r & -> & -> & Hr). eexists. split; [by apply rtc_once, (bs_send _ _ e)|].
      exists e0, r. split_and!; [done| |done]. unfold set_reader. simpl. done.
    + subst b. eexists. split; [by apply rtc_once, (bs_send _ _ e)|done].
  - unfold bb_sim in *. simpl in *. destruct (bb_pending s1) as [ev|].
    + destruct Hsim as (e0 & r & -> & -> & Hr). eexists. split; [apply rtc_once, bs_leave|]. by exists e0, r.
    + subst b. eexists. split; [apply rtc_once, bs_leave|done].
Qed.

Lemma bb_reachable_sim identity stream s :
  rtc (bb_step identity) (bb_new stream) s →
  ∃ b, rtc (bridge_step identity) (bridge_new stream) b ∧ bb_sim identity s b.
Proof. intros Hr. by apply (simulation_rtc _ _ _ (bb_step_sim identity) _ _ (bridge_new stream)) in Hr. Qed.

(** Neither queue is ever over its capacity. *)
Definition bb_bounded (s : BBridge) : Prop :=
  (bb_queued s ≤ QUEUE_CAPACITY)%nat ∧ (length (bg_inbox (bb_bridge s)) ≤ QUEUE_CAPACITY)%nat
  ∧ (bb_received s ≤ length (bg_events (bb_bridge s)))%nat.

Lemma bb_step_bounded identity s s' : bb_step identity s s' → bb_bounded s → bb_bounded s'.
Proof.
  unfold bb_bounded, bb_queued.
  intros [s1 s2 Hs|s1 s2 Hs|s1] Hb; [destruct Hs|destruct Hs|]; simpl in *; rewrite ?length_app in *; simpl in *;
    repeat match goal with Hi : bg_inbox _ = _ |- _ => rewrite Hi in * end; simpl in *; lia.
Qed.

Lemma bb_reachable_bounded identity stream s : rtc (bb_step identity) (bb_new stream) s → bb_bounded s.
Proof.
  intros Hr. eapply (rtc_ind_r bb_bounded (bb_new stream)); [|intros ? ? _ Hs; by eapply bb_step_bounded|exact Hr].
  unfold bb_bounded, bb_queued. simpl. lia.
Qed.

(** ** Blocking *)
(** The bridge waits for room among the events, the session for room among the
    envelopes. *)
Definition bb_blocked (s : BBridge) : Prop :=
  bg_done (bb_bridge s) = false ∧ bg_session (bb_bridge s) = true ∧ is_Some (bb_pending s)
  ∧ (QUEUE_CAPACITY ≤ bb_queued s)%nat ∧ (∃ e, bb_pc s = SSending e)
  ∧ (QUEUE_CAPACITY ≤ length (bg_inbox (bb_bridge s)))%nat.

Lemma bb_blocked_step identity s s' : bb_blocked s → bb_step identity s s' → s' = bb_leave s.
Proof.
  intros Hb Hs. destruct Hs as [s1 s2 Hs|s1 s2 Hs|s1]; [..|done]; destruct Hs;
    destruct Hb as (Hd & Hse & [ev0 Hp] & Hq & [e' Hpc] & Hin); unfold bb_queued in *; simpl in *; simplify_eq; congruence || lia.
Qed.

(** [k] events delivered and none received, the rest of the frames unread. *)
Record bb_filled (envs : list EventEnvelope) (k n : nat) (pd : option InterfaceEvent) (s : BBridge) : Prop := {
  bf_pending : bb_pending s = pd;
  bf_received : bb_received s = 0%nat;
  bf_pc : bb_pc s = SIdle;
  bf_done : bg_done (bb_bridge s) = false;
  bf_session : bg_session (bb_bridge s) = true;
  bf_events : length (bg_events (bb_bridge s)) = k;
  bf_inbox : length (bg_inbox (bb_bridge s)) = n;
  bf_reader : reader_at (bg_reader (bb_bridge s)) envs;
}.

(** The next frame is read. *)
Lemma bb_fill_frame identity e envs k n s :
  Forall frame_ok (e :: envs) → bb_filled (e :: envs) k n None s →
  ∃ s', bb_step identity s s' ∧ bb_filled envs k n (Some (bridge_event identity e)) s'.
Proof.
  intros Hok [Hp Hr Hpc Hd Hse He Hi Hrd]. destruct s as [b pd rc pc]; simpl in *. subst.
  destruct (read_frame (bg_reader b)) as [res r] eqn:Hf.
  pose proof (read_frame_at _ _ _ _ Hok Hrd Hf) as [-> Hat].
  eexists. split; [by eapply bb_by_bridge, bb_frame|]. by split.
Qed.

Lemma bb_fill_events identity envs1 envs2 s :
  Forall frame_ok (envs1 ++ envs2) → (length envs1 ≤ QUEUE_CAPACITY)%nat → bb_filled (envs1 ++ envs2) 0 0 None s →
  ∃ s', rtc (bb_step identity) s s' ∧ bb_filled envs2 (length envs1) 0 None s'.
Proof.
  intros Hok Hlen. assert (∀ k s, (k + length envs1 ≤ QUEUE_CAPACITY)%nat → bb_filled (envs1 ++ envs2) k 0 None s →
    ∃ s', rtc (bb_step identity) s s' ∧ bb_filled envs2 (k + length envs1) 0 None s') as Hgen; [|by apply (Hgen 0%nat)].
  clear s Hlen. induction envs1 as [|e envs1 IH]; intros k s Hlen Hf; simpl in *.
  { exists s. by rewrite Nat.add_0_r. }
  destruct (bb_fill_frame identity _ _ _ _ _ Hok Hf) as (s1 & Hs1 & [Hp Hr Hpc Hd Hse He Hi Hrd]).
  destruct s1 as [b pd rc pc]; simpl in *. subst.
  destruct (IH (proj2 (proj1 (Forall_cons _ _ _) Hok)) (S (length (bg_events b)))
              (mkBBridge (mkBridge (bg_reader b) (bg_writer b) (bg_events b ++ [bridge_event identity e]) (bg_inbox b)
                            (bg_sent b) true false) None 0 SIdle)) as (s2 & Hs2 & Hf2); [lia| |].
  { split; simpl; try done. rewrite length_app. simpl. lia. }
  exists s2. rewrite <-Nat.add_succ_comm. split; [|done]. eapply rtc_l; [done|]. eapply rtc_l; [|done].
  apply bb_by_bridge, bb_deliver; [done..|lia].
Qed.

Lemma bb_fill_inbox identity envs k pd (e : EventEnvelope) n s :
  (n ≤ QUEUE_CAPACITY)%nat → bb_filled envs k 0 pd s →
  ∃ s', rtc (bb_step identity) s s' ∧ bb_filled envs k n pd s'.
Proof.
  intros Hn Hf. induction n as [|n IH]; [by exists s|].
  destruct IH as (s1 & Hs1 & [Hp Hr Hpc Hd Hse He Hi Hrd]); [lia|]. destruct s1 as [b pd' rc pc]; simpl in *. subst.
  eexists. split.
  - eapply rtc_r; [eapply rtc_r; [exact Hs1|by apply bb_by_session, (bb_send _ _ _ e)]|].
    apply bb_by_session, bb_sent; [done..|lia].
  - split; simpl; try done. rewrite length_app. simpl. lia.
Qed.

Lemma bb_block_reachable identity envs (e : EventEnvelope) chunks :
  Forall frame_ok envs → Forall (λ c : list byte, c ≠ []) chunks → concat chunks = concat (encode <$> envs) →
  (QUEUE_CAPACITY < length envs)%nat →
  ∃ s, rtc (bb_step identity) (bb_new (Ok <$> chunks)) s ∧ bb_blocked s.
Proof.
  intros Hok Hne Hd Hlen. rewrite <-(take_drop QUEUE_CAPACITY envs) in Hok.
  destruct (drop QUEUE_CAPACITY envs) as [|f rest] eqn:Hdrop.
  { apply (f_equal length) in Hdrop. rewrite length_drop in Hdrop. simpl in Hdrop. lia. }
  assert (length (take QUEUE_CAPACITY envs) = QUEUE_CAPACITY) as Hl by (rewrite length_take; lia).
  destruct (bb_fill_events identity (take QUEUE_CAPACITY envs) (f :: rest) (bb_new (Ok <$> chunks))) as (s1 & Hr1 & Hf1);
    [done|lia| |].
  { split; simpl; try done. exists chunks. split_and!; [done..|]. by rewrite <-Hdrop, take_drop. }
  rewrite Hl in Hf1. apply Forall_app in Hok as [_ Hok].
  destruct (bb_fill_frame identity f rest _ _ _ Hok Hf1) as (s2 & Hs2 & Hf2).
  destruct (bb_fill_inbox identity _ _ _ e QUEUE_CAPACITY s2 (le_n _) Hf2) as (s3 & Hr3 & [Hp Hr Hpc Hdn Hse He Hi _]).
  destruct s3 as [b pd rc pc]; simpl in *. subst. eexists. split.
  - etrans; [exact Hr1|]. eapply rtc_l; [exact Hs2|]. eapply rtc_r; [exact Hr3|].
    by apply bb_by_session, (bb_send _ _ _ e).
  - unfold bb_blocked, bb_queued. simpl. split_and!; try done; try lia; by eexists.
Qed.

(** ** Theorems *)

(** C12: with its queues bounded the bridge still is faithful.  Whatever the
    interleaving of the bridge and the session, and however the channel cuts
    its bytes, neither queue holds more than 256 elements; the session has
    received the first of the envelopes the peer sent, in order, each under the
    identity of the connection; and what has been written is the frames of the
    first envelopes the session sent, in order, the rest still queued,
    followed, only when the bridge has ended on a failed write, by the start of
    the next frame. *)
Theorem bounded_bridge_refines identity envs chunks s :
  Forall frame_ok envs → Forall (λ c : list byte, c ≠ []) chunks → concat chunks = concat (encode <$> envs) →
  rtc (bb_step identity) (bb_new (Ok <$> chunks)) s →
  let b := bb_bridge s in
  bb_bounded s
  ∧ (∃ k, take (bb_received s) (bg_events b) = bridge_event identity <$> take k envs)
  ∧ (∃ written part, wr_sink (bg_writer b) = concat (encode <$> written) ++ part
       ∧ part `prefix_of` concat (encode <$> bg_inbox b) ∧ bg_sent b = written ++ bg_inbox b
       ∧ (bg_done b = false → part = [])).
Proof.
  intros Hok Hne Hd Hr b. destruct (bb_reachable_sim identity _ s Hr) as (b0 & Hr0 & Hsim).
  destruct (bridge_reachable_ok identity envs chunks b0 Hok Hne Hd Hr0) as [(k & Hev & _) Hw].
  assert (bg_events b0 = bg_events b ∧ bg_writer b0 = bg_writer b ∧ bg_inbox b0 = bg_inbox b ∧ bg_sent b0 = bg_sent b
          ∧ bg_done b0 = bg_done b) as (He & Hwr & Hi & Hs & Hdn).
  { unfold bb_sim in Hsim. destruct (bb_pending s); [destruct Hsim as (? & ? & _ & -> & _)|subst]; done. }
  rewrite Hwr, Hi, Hs, Hdn in Hw. split_and!; [by eapply bb_reachable_bounded| |done].
  exists (bb_received s `min` k)%nat. rewrite <-He, Hev, <-fmap_take, take_take. done.
Qed.

(** C40: the bounded queues can block each other.  When the peer has sent more
    than 256 frames, a session that only sends reaches a state in which the
    bridge waits for room among the events and the session for room among the
    envelopes: from there nothing happens until the session is dropped.  A
    session that is not sending is never the cause: in every reachable state
    the bridge can take a step or the session can receive. *)
Theorem bridge_queues_block identity envs (e : EventEnvelope) chunks :
  Forall frame_ok envs → Forall (λ c : list byte, c ≠ []) chunks → concat chunks = concat (encode <$> envs) →
  (QUEUE_CAPACITY < length envs)%nat →
  (∃ s, rtc (bb_step identity) (bb_new (Ok <$> chunks)) s ∧ bg_session (bb_bridge s) = true
     ∧ bg_done (bb_bridge s) = false ∧ ∀ s', bb_step identity s s' → s' = bb_leave s)
  ∧ ∀ s, rtc (bb_step identity) (bb_new (Ok <$> chunks)) s → bg_done (bb_bridge s) = false →
      bg_session (bb_bridge s) = true → bb_pc s = SIdle →
      ∃ s', bb_bridge_step identity s s' ∨ bb_session_step s s' ∧ bb_received s' = S (bb_received s).
Proof.
  intros Hok Hne Hd Hlen. split.
  - destruct (bb_block_reachable identity envs e chunks) as (s & Hr & Hb); [done..|]. exists s.
    split_and!; [done|apply Hb|apply Hb|]. intros s'. by apply bb_blocked_step.
  - intros s Hr Hdn Hse Hpc. pose proof (bb_reachable_bounded _ _ _ Hr) as Hb. unfold bb_bounded, bb_queued in Hb.
    destruct s as [b [ev|] rc pc]; simpl in *; subst.
    + destruct (decide (length (bg_events b) - rc < QUEUE_CAPACITY)%nat) as [Hl|Hl].
      * eexists. left. by apply bb_deliver.
      * eexists. right. split; [apply bb_recv; [done|]|done]. unfold QUEUE_CAPACITY in *. lia.
    + destruct (read_frame (bg_reader b)) as [res r] eqn:Hf. destruct res as [[env|]|err]; eexists; left;
        [by eapply bb_frame|by eapply bb_frame_end|by eapply bb_frame_end].
Qed.
End BoundedBridge.

(** ** Examples *)
Module BoundedBridgeExample.
Import RawFramingExample.

(** The channel delivers one request; the session receives it and answers. *)
Definition answered : BBridge (IoError := unit) :=
  mkBBridge (mkBridge (mkReader [] []) (mkWriter [x00; x00; x00; x01; x62])
               [bridge_event (Some alice) (envelope "a")] [] [envelope "b"] true false) None 1 SIdle.

Lemma answered_reached :
  rtc (bb_step (Some alice)) (bb_new (Ok <$> [[x00; x00; x00]; [x01; x61]])) answered.
Proof.
  eapply rtc_l; [by eapply bb_by_bridge, (bb_frame _ _ _ _ (envelope "a"))|].
  eapply rtc_l; [apply bb_by_bridge, bb_deliver; [reflexivity..|simpl; unfold QUEUE_CAPACITY; lia]|].
  eapply rtc_l; [apply bb_by_session, bb_recv; [reflexivity|simpl; lia]|].
  eapply rtc_l; [by apply bb_by_session, (bb_send _ _ _ (envelope "b"))|].
  eapply rtc_l; [apply bb_by_session, bb_sent; [reflexivity..|simpl; unfold QUEUE_CAPACITY; lia]|].
  eapply rtc_l; [by eapply bb_by_bridge, bb_envelope|]. apply rtc_refl.
Qed.

Lemma bounded_bridge_refines_witness :
  bb_bounded answered
  ∧ (∃ k, [bridge_event (Some alice) (envelope "a")] = bridge_event (Some alice) <$> take k [envelope "a"])
  ∧ (∃ written part, [x00; x00; x00; x01; x62] = concat (encode <$> written) ++ part
       ∧ part `prefix_of` concat (encode <$> []) ∧ [envelope "b"] = written ++ [] ∧ (false = false → part = [])).
Proof.
  apply (bounded_bridge_refines (Some alice) [envelope "a"] [[x00; x00; x00]; [x01; x61]] answered);
    [repeat constructor|repeat constructor; discriminate|vm_compute; reflexivity|apply answered_reached].
Defined.

(** The peer sends 257 requests. *)
Definition flood : list EventEnvelope := replicate 257 (envelope "a").

Lemma bridge_queues_block_witness :
  (∃ s, rtc (bb_step (Some alice)) (bb_new (IoError := unit) (Ok <$> (encode <$> flood))) s
     ∧ bg_session (bb_bridge s) = true ∧ bg_done (bb_bridge s) = false
     ∧ ∀ s', bb_step (Some alice) s s' → s' = bb_leave s)
  ∧ ∀ s : BBridge (IoError := unit), rtc (bb_step (Some alice)) (bb_new (Ok <$> (encode <$> flood))) s → bg_done (bb_bridge s) = false →
      bg_session (bb_bridge s) = true → bb_pc s = SIdle →
      ∃ s' : BBridge (IoError := unit), bb_bridge_step (Some alice) s s' ∨ bb_session_step s s' ∧ bb_received s' = S (bb_received s).
Proof.
  apply (bridge_queues_block (Some alice) flood (envelope "b") (encode <$> flood)).
  - apply Forall_replicate. repeat constructor.
  - apply Forall_fmap, Forall_replicate. discriminate.
  - reflexivity.
  - unfold flood, QUEUE_CAPACITY. rewrite length_replicate. lia.
Defined.
End BoundedBridgeExample.
