(* ===== verification/Pending.v ===== *)
(** * Pending requests (call/response.rs, call/pending.rs)

    The map from request ids to the sending halves of [tokio] channels.  The
    channels themselves are shared state: [chans] holds, for each channel, how
    many senders it has, whether its receiver is alive and what has been sent.
    Dropping an entry drops its sender, and a receiver all of whose senders are
    gone learns that nothing more will come.

    The users of the map own the channels: they open them, clone and use the
    senders of the [mpsc] ones, and move a sender into the map with a request.
    A run of their actions and of the map's calls leaves a history; the main
    theorem says that the map and the channels are at every moment what the
    history says. *)
From S2P Require Import Prelude RustStd Json.
Open Scope Z_scope.

(** ** Errors and responses (call/response.rs) *)
Record CallError := mkCallError {
  ce_code : string;
  ce_message : string;
  ce_retryable : bool;
}.

Record ResponseEnvelope `{Json} := mkResponse {
  resp_request_id : string;
  resp_result : result Value CallError;
}.

Definition response_ok `{Json} (request_id : string) (value : Value) : ResponseEnvelope :=
  mkResponse _ request_id (Ok value).
Definition response_err `{Json} (request_id code message : string) (retryable : bool)
    : ResponseEnvelope :=
  mkResponse _ request_id (Err (mkCallError code message retryable)).

(** ** Channels *)
Section Pending.
Context `{Json}.
Notation Reply := (result Value CallError).

(** [oneshot] channels have one sender; the senders of a bounded [mpsc] channel
    can be cloned, so it counts them.  Both know whether the receiver is alive
    and what was sent and not yet taken; an [mpsc] channel also remembers what
    its receiver has taken. *)
Inductive Chan :=
| OneShot (sender receiver : bool) (slot : option Reply)
| Mpsc (capacity senders : nat) (receiver : bool) (taken queue : list Reply).

(** How many senders are alive: at zero the receiver learns that no more will
    come. *)
Definition senders (c : Chan) : nat :=
  match c with OneShot s _ _ => if s then 1 else 0 | Mpsc _ s _ _ _ => s end.

Definition listening (c : Chan) : bool :=
  match c with OneShot _ r _ => r | Mpsc _ _ r _ _ => r end.

(** What has reached the receiver's side, in order. *)
Definition received (c : Chan) : list Reply :=
  match c with
  | OneShot _ _ slot => option_list slot
  | Mpsc _ _ _ taken queue => taken ++ queue
  end.

Definition has_room (c : Chan) : bool :=
  match c with OneShot _ _ _ => false | Mpsc n _ _ _ q => (length q <? n)%nat end.

Definition drop_sender (c : Chan) : Chan :=
  match c with
  | OneShot _ r v => OneShot false r v
  | Mpsc n s r l q => Mpsc n (s - 1) r l q
  end.

Definition drop_receiver (c : Chan) : Chan :=
  match c with
  | OneShot s _ _ => OneShot s false None
  | Mpsc n s _ l _ => Mpsc n s false l []
  end.

(** [oneshot::Sender::send] consumes the sender; without a receiver the value
    comes back and is discarded. *)
Definition oneshot_send (c : Chan) (v : Reply) : Chan :=
  match c with
  | OneShot _ r slot => OneShot false r (if r then Some v else slot)
  | c => c
  end.

(** [mpsc::Sender::try_send]: fails on a full queue or a closed receiver. *)
Definition mpsc_try_send (c : Chan) (v : Reply) : Chan * bool :=
  match c with
  | Mpsc n s r l q =>
      if r && (length q <? n)%nat then (Mpsc n s r l (q ++ [v]), true) else (c, false)
  | c => (c, false)
  end.

Inductive PendingEntry :=
| PCall (tx : nat) (timeout : Z)
| PSubscribe (tx : nat) (timeout : option Z).

Definition entry_tx (e : PendingEntry) : nat :=
  match e with PCall tx _ => tx | PSubscribe tx _ => tx end.

(** The sender's type is that of the channel. *)
Definition fits (e : PendingEntry) (c : Chan) : bool :=
  match e, c with
  | PCall _ _, OneShot _ _ _ | PSubscribe _ _, Mpsc _ _ _ _ _ => true
  | _, _ => false
  end.

Record PendingState := mkPending {
  pending : gmap string PendingEntry;
  chans : gmap nat Chan;
}.

Definition pending_new : PendingState := mkPending ∅ ∅.

(** Removing an entry: its sender is dropped. *)
Definition drop_entry (st : PendingState) (e : option PendingEntry) : gmap nat Chan :=
  match e with
  | Some e => alter drop_sender (entry_tx e) (chans st)
  | None => chans st
  end.

(** ** Operations *)

(** [HashMap::insert] drops the entry it replaces; the new entry's sender is
    moved into the map, so its channel does not change. *)
Definition insert_entry (st : PendingState) (request_id : string) (e : PendingEntry)
    : PendingState :=
  mkPending (<[request_id := e]> (pending st)) (drop_entry st (pending st !! request_id)).

(** [tx] is the channel a sender of which the caller hands over. *)
Definition insert_call (st : PendingState) (request_id : string) (tx : nat) (timeout : Z)
    : PendingState :=
  insert_entry st request_id (PCall tx timeout).

Definition insert_subscribe (st : PendingState) (request_id : string) (tx : nat)
    (timeout : option Z) : PendingState :=
  insert_entry st request_id (PSubscribe tx timeout).

Definition resolve_call (st : PendingState) (request_id : string) (value : Reply)
    : PendingState * bool :=
  match pending st !! request_id with
  | Some (PCall tx _) =>
      (mkPending (delete request_id (pending st)) (alter (λ c, oneshot_send c value) tx (chans st)),
       true)
  | e => (mkPending (delete request_id (pending st)) (drop_entry st e), false)
  end.

Definition push_subscribe (st : PendingState) (request_id : string) (value : Reply)
    : PendingState * bool :=
  match pending st !! request_id with
  | Some (PSubscribe tx _) =>
      match chans st !! tx with
      | Some c => let '(c', ok) := mpsc_try_send c value in
                  (mkPending (pending st) (<[tx := c']> (chans st)), ok)
      | None => (st, false)
      end
  | _ => (st, false)
  end.

(** [complete_subscribe] and [abort] have the same body. *)
Definition remove_pending (st : PendingState) (request_id : string) : PendingState * bool :=
  (mkPending (delete request_id (pending st)) (drop_entry st (pending st !! request_id)),
   match pending st !! request_id with Some _ => true | None => false end).

Definition complete_subscribe (st : PendingState) (request_id : string) : PendingState * bool :=
  remove_pending st request_id.
Definition abort (st : PendingState) (request_id : string) : PendingState * bool :=
  remove_pending st request_id.

Definition pending_contains (st : PendingState) (request_id : string) : bool :=
  match pending st !! request_id with Some _ => true | None => false end.
Definition pending_len (st : PendingState) : nat := size (pending st).

Definition entry_expired (now : Z) (e : PendingEntry) : bool :=
  match e with
  | PCall _ timeout => timeout <=? now
  | PSubscribe _ (Some t) => t <=? now
  | PSubscribe _ None => false
  end.

Definition sweep_expired (st : PendingState) (now : Z) : PendingState * nat :=
  let expired :=
    (filter (λ kv, entry_expired now kv.2 = true) (map_to_list (pending st))).*1 in
  (foldl (λ st id, (remove_pending st id).1) st expired, length expired).

(** ** Runs

    The map's calls, and what its users do with the channels meanwhile: open
    them, clone, drop and use the senders they have not handed over, take
    values, drop the receiver. *)
Inductive Act :=
| OpenOneshot (ch : nat)
| OpenMpsc (ch capacity : nat)
| CloneSender (ch : nat)
| DropSender (ch : nat)
| OwnSend (ch : nat) (v : Reply)
| TakeValue (ch : nat)
| DropReceiver (ch : nat)
| InsertCall (id : string) (ch : nat) (timeout : Z)
| InsertSubscribe (id : string) (ch : nat) (timeout : option Z)
| Resolve (id : string) (v : Reply)
| Push (id : string) (v : Reply)
| Complete (id : string)
| Abort (id : string)
| Sweep (now : Z).

(** The map with its channels, and how many senders of each channel its users
    have. *)
Record World := mkWorld { w_map : PendingState; w_mine : gmap nat nat }.

Definition mine (w : World) (ch : nat) : nat := default 0%nat (w_mine w !! ch).
Definition world_new : World := mkWorld pending_new ∅.

Definition set_chan (w : World) (ch : nat) (c : Chan) (own : nat) : World :=
  mkWorld (mkPending (pending (w_map w)) (<[ch := c]> (chans (w_map w)))) (<[ch := own]> (w_mine w)).

(** [None] is what Rust's ownership does not let a program do: use a sender it
    does not have, or one of the wrong type.  The result is true for a call
    that has none. *)
Definition pend_act (w : World) (a : Act) : option (World * bool) :=
  let st := w_map w in
  let on_map '(st', ok) := Some (mkWorld st' (w_mine w), ok) in
  match a with
  | OpenOneshot ch =>
      match chans st !! ch with
      | None => Some (set_chan w ch (OneShot true true None) 1, true)
      | Some _ => None
      end
  | OpenMpsc ch n =>
      match chans st !! ch with
      | None => Some (set_chan w ch (Mpsc n 1 true [] []) 1, true)
      | Some _ => None
      end
  | CloneSender ch =>
      match chans st !! ch, mine w ch with
      | Some (Mpsc n s r l q), S k => Some (set_chan w ch (Mpsc n (S s) r l q) (S (S k)), true)
      | _, _ => None
      end
  | DropSender ch =>
      match chans st !! ch, mine w ch with
      | Some c, S k => Some (set_chan w ch (drop_sender c) k, true)
      | _, _ => None
      end
  | OwnSend ch v =>
      match chans st !! ch, mine w ch with
      | Some (OneShot s r x), S k => Some (set_chan w ch (oneshot_send (OneShot s r x) v) k, r)
      | Some c, S k => let '(c', ok) := mpsc_try_send c v in Some (set_chan w ch c' (S k), ok)
      | _, _ => None
      end
  | TakeValue ch =>
      match chans st !! ch with
      | Some (Mpsc n s true l (v :: q)) =>
          Some (set_chan w ch (Mpsc n s true (l ++ [v]) q) (mine w ch), true)
      | _ => None
      end
  | DropReceiver ch =>
      match chans st !! ch with
      | Some c => Some (set_chan w ch (drop_receiver c) (mine w ch), true)
      | None => None
      end
  | InsertCall id ch t =>
      match chans st !! ch, mine w ch with
      | Some (OneShot _ _ _), S k =>
          Some (mkWorld (insert_call st id ch t) (<[ch := k]> (w_mine w)), true)
      | _, _ => None
      end
  | InsertSubscribe id ch t =>
      match chans st !! ch, mine w ch with
      | Some (Mpsc _ _ _ _ _), S k =>
          Some (mkWorld (insert_subscribe st id ch t) (<[ch := k]> (w_mine w)), true)
      | _, _ => None
      end
  | Resolve id v => on_map (resolve_call st id v)
  | Push id v => on_map (push_subscribe st id v)
  | Complete id => on_map (complete_subscribe st id)
  | Abort id => on_map (abort st id)
  | Sweep now => on_map ((sweep_expired st now).1, true)
  end.

(** What happened, oldest first, each call with its result. *)
Notation History := (list (Act * bool)).

Inductive reached : History → World → Prop :=
| reached_new : reached [] world_new
| reached_act h w a w' ok :
    reached h w → pend_act w a = Some (w', ok) → reached (h ++ [(a, ok)]) w'.

(** ** What a history says *)

(** The request a call registers. *)
Definition registers (a : Act) : option (string * PendingEntry) :=
  match a with
  | InsertCall id ch t => Some (id, PCall ch t)
  | InsertSubscribe id ch t => Some (id, PSubscribe ch t)
  | _ => None
  end.

(** The calls after which request [id], registered as [e], is no longer
    waiting. *)
Definition ends (id : string) (e : PendingEntry) (a : Act) : bool :=
  match a with
  | InsertCall id' _ _ | InsertSubscribe id' _ _ | Resolve id' _ | Complete id' | Abort id' =>
      bool_decide (id' = id)
  | Sweep now => entry_expired now e
  | _ => false
  end.

(** [id] was registered as [e] and nothing has ended it since. *)
Definition waiting (h : History) (id : string) (e : PendingEntry) : Prop :=
  ∃ before a ok after, h = before ++ (a, ok) :: after ∧ registers a = Some (id, e) ∧
    Forall (λ x, ends id e x.1 = false) after.

(** The same, computed. *)
Definition entry_after (id : string) (cur : option PendingEntry) (x : Act * bool)
    : option PendingEntry :=
  match registers x.1 with
  | Some (id', e) => if decide (id' = id) then Some e else cur
  | None => match cur with Some e => if ends id e x.1 then None else Some e | None => None end
  end.
Definition entry_of (h : History) (id : string) : option PendingEntry :=
  foldl (entry_after id) None h.

(** The values sent into channel [ch]: the answer to a call that waits on it,
    the accepted events of its subscriptions, and what its users sent
    themselves. *)
Definition sent_by (h : History) (x : Act * bool) (ch : nat) : list Reply :=
  match x.1 with
  | Resolve id v =>
      match entry_of h id with
      | Some (PCall tx _) => if decide (tx = ch) then [v] else []
      | _ => []
      end
  | Push id v =>
      match entry_of h id with
      | Some (PSubscribe tx _) => if decide (tx = ch) then if x.2 then [v] else [] else []
      | _ => []
      end
  | OwnSend ch' v => if decide (ch' = ch) then if x.2 then [v] else [] else []
  | _ => []
  end.

Fixpoint sent_from (before h : History) (ch : nat) : list Reply :=
  match h with
  | [] => []
  | x :: h => sent_by before x ch ++ sent_from (before ++ [x]) h ch
  end.
Definition sent_to (h : History) (ch : nat) : list Reply := sent_from [] h ch.

(** How many requests hold a sender of [ch]. *)
Definition held (m : gmap string PendingEntry) (ch : nat) : nat :=
  size (filter (λ kv, entry_tx kv.2 = ch) m).

(** ** Histories *)
Lemma entry_of_snoc h x id : entry_of (h ++ [x]) id = entry_after id (entry_of h id) x.
Proof. unfold entry_of. by rewrite foldl_snoc. Qed.

Lemma sent_from_snoc before h x ch :
  sent_from before (h ++ [x]) ch = sent_from before h ch ++ sent_by (before ++ h) x ch.
Proof.
  revert before. induction h as [|y h IH]; intros before; simpl.
  - by rewrite !app_nil_r.
  - by rewrite IH, <-!(assoc_L (++)).
Qed.

Lemma sent_to_snoc h x ch : sent_to (h ++ [x]) ch = sent_to h ch ++ sent_by h x ch.
Proof. apply sent_from_snoc. Qed.

Lemma registers_ends a id e e' : registers a = Some (id, e) → ends id e' a = true.
Proof. destruct a; intros [= -> <-]; simpl; by apply bool_decide_eq_true. Qed.

Lemma registers_other a id id' e e' : registers a = Some (id', e') → id' ≠ id → ends id e a = false.
Proof. destruct a; intros [= -> <-] ?; simpl; by apply bool_decide_eq_false. Qed.

Lemma waiting_snoc h x id e :
  waiting (h ++ [x]) id e ↔
    registers x.1 = Some (id, e) ∨ waiting h id e ∧ ends id e x.1 = false.
Proof.
  split.
  - intros (before & a & ok & after & Heq & Hreg & Hall).
    destruct after as [|y after _] using rev_ind.
    + apply app_inj_tail in Heq as [-> ->]. by left.
    + rewrite app_comm_cons, app_assoc in Heq. apply app_inj_tail in Heq as [-> ->].
      apply Forall_app in Hall as [Hall Hy]. right.
      split; [|by rewrite Forall_singleton in Hy]. by exists before, a, ok, after.
  - intros [Hreg|[(before & a & ok & after & -> & Hreg & Hall) Hx]].
    + destruct x as [a ok]. by exists h, a, ok, [].
    + exists before, a, ok, (after ++ [x]). split_and!; [by rewrite <-app_assoc|done|].
      apply Forall_app. by rewrite Forall_singleton.
Qed.

Lemma entry_of_waiting h id e : entry_of h id = Some e ↔ waiting h id e.
Proof.
  revert e. induction h as [|x h IH] using rev_ind; intros e.
  - split; [done|]. intros ([] & ? & ? & ? & ? & _); done.
  - rewrite waiting_snoc, entry_of_snoc, <-IH. unfold entry_after.
    destruct (registers x.1) as [[id' e']|] eqn:Hreg.
    + destruct (decide (id' = id)) as [->|Hne].
      * rewrite (registers_ends _ _ _ e Hreg). naive_solver.
      * rewrite (registers_other _ _ _ e _ Hreg) by done. naive_solver.
    + destruct (entry_of h id) as [e'|]; [|naive_solver].
      destruct (ends id e' x.1) eqn:Hends; naive_solver congruence.
Qed.

(** ** Who holds the senders *)
Lemma held_take (m : gmap string PendingEntry) id e ch :
  m !! id = Some e →
  held m ch = ((if decide (entry_tx e = ch) then 1 else 0) + held (delete id m) ch)%nat.
Proof.
  intros Hid. unfold held. rewrite map_filter_delete. case_decide as Htx.
  - assert (filter (λ kv, entry_tx kv.2 = ch) m !! id = Some e)
      by (by apply map_lookup_filter_Some).
    rewrite map_size_delete_Some by eauto. 
    assert (size (filter (λ kv, entry_tx kv.2 = ch) m) ≠ 0%nat); [|lia].
    apply map_size_non_empty_iff. intros Hemp. by rewrite Hemp, lookup_empty in *.
  - rewrite delete_id; [done|]. apply map_lookup_filter_None. right. naive_solver.
Qed.

Lemma held_put (m : gmap string PendingEntry) id e ch :
  m !! id = None →
  held (<[id := e]> m) ch = ((if decide (entry_tx e = ch) then 1 else 0) + held m ch)%nat.
Proof.
  intros Hid. rewrite (held_take _ id e) by apply lookup_insert_eq.
  by rewrite delete_insert_id by done.
Qed.

Lemma held_entry (m : gmap string PendingEntry) id e : m !! id = Some e → held m (entry_tx e) ≠ 0%nat.
Proof. intros Hid. rewrite (held_take m id e) by done. rewrite decide_True by done. lia. Qed.

(** Every sender is with a request or with the users; a request holds a sender
    of its type; a one-shot channel with a sender has no value. *)
Record accounted (w : World) : Prop := {
  ac_fits : ∀ id e, pending (w_map w) !! id = Some e →
    ∃ c, chans (w_map w) !! entry_tx e = Some c ∧ fits e c = true;
  ac_senders : ∀ ch, match chans (w_map w) !! ch with Some c => senders c | None => 0%nat end =
    (mine w ch + held (pending (w_map w)) ch)%nat;
  ac_unsent : ∀ ch r v, chans (w_map w) !! ch = Some (OneShot true r v) → v = None;
}.

Lemma mine_insert st m ch k ch' :
  mine (mkWorld st (<[ch := k]> m)) ch' = if decide (ch = ch') then k else default 0%nat (m !! ch').
Proof.
  unfold mine. simpl. case_decide; subst; [by rewrite lookup_insert_eq|by rewrite lookup_insert_ne].
Qed.

(** What an update may do to a channel when a request gives up its sender. *)
Definition gives_up (f : Chan → Chan) (c : Chan) : Prop :=
  senders (f c) = (senders c - 1)%nat ∧ (∀ e, fits e (f c) = fits e c) ∧
  (∀ r v, f c = OneShot true r v → False).

Lemma drop_sender_gives_up c : gives_up drop_sender c.
Proof. destruct c as [[] ? ?|]; repeat split; simpl; done || (by intros []) || lia. Qed.

Lemma take_accounted st m id e f :
  accounted (mkWorld st m) → pending st !! id = Some e →
  (∀ c, chans st !! entry_tx e = Some c → fits e c = true → gives_up f c) →
  accounted (mkWorld (mkPending (delete id (pending st)) (alter f (entry_tx e) (chans st))) m).
Proof.
  intros [Hfit Hsend Hun] Hid Hf. simpl in *.
  destruct (Hfit id e Hid) as (c & Hc & Hfc). destruct (Hf c Hc Hfc) as (Hs & Hfits & Hno).
  split; simpl.
  - intros id' e' [Hne Hid']%lookup_delete_Some. destruct (Hfit id' e' Hid') as (c' & Hc' & Hfc').
    destruct (decide (entry_tx e = entry_tx e')) as [Heq|].
    + rewrite <-Heq, lookup_alter_eq, Hc. exists (f c). split; [done|]. rewrite Hfits.
      rewrite <-Heq, Hc in Hc'. by simplify_eq.
    + rewrite lookup_alter_ne by done. eauto.
  - intros ch. specialize (Hsend ch). rewrite (held_take _ id e ch Hid) in Hsend.
    unfold mine in *. simpl in *.
    case_decide as Htx; [subst ch; rewrite lookup_alter_eq, Hc in *; simpl; lia|].
    rewrite lookup_alter_ne by done. lia.
  - intros ch r v. destruct (decide (entry_tx e = ch)) as [<-|].
    + rewrite lookup_alter_eq, Hc. intros [= Heq]. by destruct (Hno r v).
    + rewrite lookup_alter_ne by done. apply Hun.
Qed.

Lemma remove_accounted st m id :
  accounted (mkWorld st m) → accounted (mkWorld (remove_pending st id).1 m).
Proof.
  intros Hac. unfold remove_pending, drop_entry. simpl.
  destruct (pending st !! id) as [e|] eqn:Hid.
  - apply take_accounted; [done..|]. intros c _ _. apply drop_sender_gives_up.
  - rewrite delete_id by done. by destruct st.
Qed.

Lemma put_accounted st m id e k c :
  accounted (mkWorld st m) → pending st !! id = None →
  chans st !! entry_tx e = Some c → fits e c = true → m !! entry_tx e = Some (S k) →
  accounted (mkWorld (mkPending (<[id := e]> (pending st)) (chans st)) (<[entry_tx e := k]> m)).
Proof.
  intros [Hfit Hsend Hun] Hid Hc Hfc Hm. simpl in *. split; simpl; [| |done].
  - intros id' e' [[<- <-]|[Hne Hid']]%lookup_insert_Some; eauto.
  - intros ch. rewrite Hsend, mine_insert, held_put by done. unfold mine. simpl.
    case_decide as Htx; [|lia]. subst ch. rewrite Hm. simpl. lia.
Qed.

Lemma insert_accounted w id e k c :
  accounted w → chans (w_map w) !! entry_tx e = Some c → fits e c = true →
  mine w (entry_tx e) = S k →
  accounted (mkWorld (insert_entry (w_map w) id e) (<[entry_tx e := k]> (w_mine w))).
Proof.
  destruct w as [st m]. simpl. intros Hac Hc Hfc Hm.
  assert (m !! entry_tx e = Some (S k)) as Hm'.
  { unfold mine in Hm. simpl in Hm. by destruct (m !! entry_tx e); simplify_eq/=. }
  pose proof (remove_accounted st m id Hac) as Hrm.
  assert (∃ c', chans (remove_pending st id).1 !! entry_tx e = Some c' ∧ fits e c' = true)
    as (c' & Hc' & Hfc').
  { simpl. unfold drop_entry. destruct (pending st !! id) as [e0|]; [|eauto].
    destruct (decide (entry_tx e0 = entry_tx e)) as [Heq|].
    - rewrite Heq, lookup_alter_eq, Hc. exists (drop_sender c). split; [done|].
      by destruct e, c.
    - rewrite lookup_alter_ne by done. eauto. }
  pose proof (put_accounted _ m id e k c' Hrm) as Hput. simpl in Hput.
  unfold insert_entry. rewrite insert_delete_eq in Hput. apply Hput; [|done..].
  apply lookup_delete_eq.
Qed.

(** ** The history is right *)
Record tracked (h : History) (w : World) : Prop := {
  tk_entry : ∀ id, pending (w_map w) !! id = entry_of h id;
  tk_accounted : accounted w;
  tk_sent : ∀ ch c, chans (w_map w) !! ch = Some c → listening c = true →
    received c = sent_to h ch;
  tk_none : ∀ ch, chans (w_map w) !! ch = None → sent_to h ch = [];
}.

(** What the users do to one channel. *)
Lemma set_chan_tracked h w x ch c k :
  tracked h w → (∀ id cur, entry_after id cur x = cur) →
  senders c = (k + held (pending (w_map w)) ch)%nat →
  (∀ e c0, chans (w_map w) !! ch = Some c0 → fits e c0 = true → fits e c = true) →
  (∀ r v, c = OneShot true r v → v = None) →
  (listening c = true → received c = sent_to h ch ++ sent_by h x ch) →
  (∀ ch', ch' ≠ ch → sent_by h x ch' = []) →
  tracked (h ++ [x]) (set_chan w ch c k).
Proof.
  intros [He [Hfit Hsend Hun] Hs Hn] Hx Hk Hfc Hnew Hrec Hother. destruct w as [st m].
  unfold set_chan in *. simpl in *. split; [|split|..]; simpl.
  - intros id. by rewrite entry_of_snoc, Hx.
  - intros id e Hid. destruct (Hfit id e Hid) as (c0 & Hc0 & Hf0).
    destruct (decide (ch = entry_tx e)) as [->|].
    + rewrite lookup_insert_eq. eauto.
    + rewrite lookup_insert_ne by done. eauto.
  - intros ch'. rewrite mine_insert. case_decide as Heq.
    + subst ch'. by rewrite lookup_insert_eq.
    + rewrite lookup_insert_ne by done. apply Hsend.
  - intros ch' r v [[<- Heq]|[Hne Hch]]%lookup_insert_Some; eauto.
  - intros ch' c' [[<- <-]|[Hne Hch]]%lookup_insert_Some Hl; rewrite sent_to_snoc; [by apply Hrec|].
    rewrite Hother by done. rewrite app_nil_r. eauto.
  - intros ch' [Hch Hne]%lookup_insert_None. rewrite sent_to_snoc, Hother, app_nil_r by done. eauto.
Qed.

(** Dropping a sender sends nothing. *)
Lemma alter_drop_lookup (m : gmap nat Chan) tx ch c' :
  alter drop_sender tx m !! ch = Some c' →
  ∃ c, m !! ch = Some c ∧ listening c' = listening c ∧ received c' = received c.
Proof.
  destruct (decide (tx = ch)) as [->|].
  - rewrite lookup_alter_eq. destruct (m !! ch) as [c|]; intros [= <-]. exists c. by destruct c.
  - rewrite lookup_alter_ne by done. eauto.
Qed.

Lemma drop_entry_lookup st e ch c' :
  drop_entry st e !! ch = Some c' →
  ∃ c, chans st !! ch = Some c ∧ listening c' = listening c ∧ received c' = received c.
Proof. destruct e; simpl; [apply alter_drop_lookup|eauto]. Qed.

Lemma drop_entry_None st e ch : drop_entry st e !! ch = None → chans st !! ch = None.
Proof. destruct e; simpl; [apply lookup_alter_None|done]. Qed.

(** A call of the map that sends nothing. *)
Lemma quiet_tracked h w x w' :
  tracked h w → accounted w' →
  (∀ id, pending (w_map w') !! id = entry_after id (pending (w_map w) !! id) x) →
  (∀ ch, sent_by h x ch = []) →
  (∀ ch c', chans (w_map w') !! ch = Some c' →
     ∃ c, chans (w_map w) !! ch = Some c ∧ listening c' = listening c ∧ received c' = received c) →
  (∀ ch, chans (w_map w') !! ch = None → chans (w_map w) !! ch = None) →
  tracked (h ++ [x]) w'.
Proof.
  intros [He Hac Hs Hn] Hac' Hen Hx Hch Hno. split; [|done|..].
  - intros id. by rewrite entry_of_snoc, Hen, He.
  - intros ch c' Hc' Hl. destruct (Hch ch c' Hc') as (c & Hc & Hll & ->).
    rewrite sent_to_snoc, Hx, app_nil_r. apply Hs; congruence.
  - intros ch Hc. rewrite sent_to_snoc, Hx, app_nil_r. auto.
Qed.

Lemma insert_tracked h w x id e k c :
  tracked h w → registers x.1 = Some (id, e) →
  chans (w_map w) !! entry_tx e = Some c → fits e c = true → mine w (entry_tx e) = S k →
  tracked (h ++ [x]) (mkWorld (insert_entry (w_map w) id e) (<[entry_tx e := k]> (w_mine w))).
Proof.
  intros Ht Hreg Hc Hf Hk.
  apply (quiet_tracked h w); [done|by eapply insert_accounted, Hk; first apply Ht|..]; simpl.
  - intros id'. unfold entry_after. rewrite Hreg.
    case_decide; subst; [by rewrite lookup_insert_eq|by rewrite lookup_insert_ne].
  - intros ch. unfold sent_by. by destruct x as [[] ok].
  - intros ch c'. apply drop_entry_lookup.
  - intros ch. apply drop_entry_None.
Qed.

Lemma remove_tracked h w x id :
  tracked h w → x.1 = Complete id ∨ x.1 = Abort id →
  tracked (h ++ [x]) (mkWorld (remove_pending (w_map w) id).1 (w_mine w)).
Proof.
  intros Ht Hx. destruct w as [st m].
  apply (quiet_tracked h (mkWorld st m)); [done|by apply remove_accounted, Ht|..]; simpl.
  - intros id'. unfold entry_after. destruct (decide (id' = id)) as [->|Hne].
    + rewrite lookup_delete_eq. destruct Hx as [-> | ->]; simpl; rewrite bool_decide_eq_true_2 by done;
        by destruct (pending st !! id).
    + rewrite lookup_delete_ne by done. destruct Hx as [-> | ->]; simpl;
        rewrite bool_decide_eq_false_2 by done; by destruct (pending st !! id').
  - intros ch. unfold sent_by. by destruct Hx as [-> | ->].
  - intros ch c'. apply drop_entry_lookup.
  - intros ch. apply drop_entry_None.
Qed.

(** ** Sweeping *)
Lemma foldl_remove_pending ids st :
  pending (foldl (λ st id, (remove_pending st id).1) st ids) =
    filter (λ kv, kv.1 ∉ ids) (pending st).
Proof.
  revert st. induction ids as [|id ids IH]; intros st; simpl.
  - symmetry. apply map_filter_id. intros ?? _. apply not_elem_of_nil.
  - rewrite IH. simpl. apply map_eq. intros k. apply option_eq. intros e.
    rewrite !map_lookup_filter_Some, lookup_delete_Some. simpl. rewrite not_elem_of_cons.
    split; [intros [[Hne He] Hin]|intros [He [Hne Hin]]]; done || (split_and!; congruence).
Qed.

Lemma expired_elem st now k :
  k ∈ (filter (λ kv, entry_expired now kv.2 = true) (map_to_list (pending st))).*1 ↔
  ∃ e, pending st !! k = Some e ∧ entry_expired now e = true.
Proof.
  rewrite list_elem_of_fmap. split.
  - intros ([k' e] & -> & [Hexp Hin]%list_elem_of_filter). apply elem_of_map_to_list in Hin. eauto.
  - intros (e & Hk & Hexp). exists (k, e). split; [done|].
    apply list_elem_of_filter. by rewrite elem_of_map_to_list.
Qed.

Lemma expired_count st now :
  (sweep_expired st now).2 = size (filter (λ kv, entry_expired now kv.2 = true) (pending st)).
Proof.
  unfold sweep_expired. simpl. rewrite length_fmap.
  rewrite map_filter_alt, <-length_map_to_list, map_to_list_to_map; [done|].
  eapply sublist_NoDup; [apply (NoDup_fst_map_to_list (pending st))|].
  apply fmap_sublist, sublist_filter.
Qed.

Lemma swept_pending st now :
  pending (sweep_expired st now).1 = filter (λ kv, entry_expired now kv.2 = false) (pending st).
Proof.
  unfold sweep_expired. simpl. rewrite foldl_remove_pending. apply map_filter_ext.
  intros k e Hk. simpl. rewrite expired_elem, Hk. destruct (entry_expired now e) eqn:Hexp.
  - split; [|done]. intros Hno. destruct Hno. by exists e.
  - split; [done|]. intros _ (e' & [= <-] & He'). congruence.
Qed.

(** Sweeping drops senders and nothing else. *)
Lemma foldl_remove_chans ids st m :
  accounted (mkWorld st m) →
  let st' := foldl (λ st id, (remove_pending st id).1) st ids in
  accounted (mkWorld st' m) ∧
  (∀ ch c', chans st' !! ch = Some c' →
     ∃ c, chans st !! ch = Some c ∧ listening c' = listening c ∧ received c' = received c) ∧
  (∀ ch, chans st' !! ch = None → chans st !! ch = None).
Proof.
  revert st. induction ids as [|id ids IH]; intros st Hac; simpl; [by eauto 10|].
  destruct (IH _ (remove_accounted st m id Hac)) as (Hac' & Hch & Hno). split_and!; [done|..].
  - intros ch c' (c1 & (c & Hc & -> & ->)%drop_entry_lookup & -> & ->)%Hch. eauto.
  - intros ch Hc%Hno. exact (drop_entry_None _ _ _ Hc).
Qed.

Lemma sweep_tracked h w now ok :
  tracked h w →
  tracked (h ++ [(Sweep now, ok)]) (mkWorld (sweep_expired (w_map w) now).1 (w_mine w)).
Proof.
  intros Ht. destruct w as [st m].
  destruct (foldl_remove_chans
    (filter (λ kv, entry_expired now kv.2 = true) (map_to_list (pending st))).*1 st m
    (tk_accounted _ _ Ht)) as (Hac & Hch & Hno).
  apply (quiet_tracked h (mkWorld st m)); [done..| |done|done|done].
  cbn [w_map]. intros id. rewrite swept_pending. unfold entry_after. simpl.
  destruct (pending st !! id) as [e|] eqn:Hid.
  - destruct (entry_expired now e) eqn:Hexp.
    + apply map_lookup_filter_None. right. intros e' He'. simplify_eq. simpl. congruence.
    + by apply map_lookup_filter_Some.
  - apply map_lookup_filter_None. by left.
Qed.

(** ** Answering *)
Lemma resolve_tracked h w id v ok :
  tracked h w →
  tracked (h ++ [(Resolve id v, ok)]) (mkWorld (resolve_call (w_map w) id v).1 (w_mine w)).
Proof.
  intros Ht. destruct w as [st m]. pose proof (tk_accounted _ _ Ht) as Hac.
  pose proof (tk_entry _ _ Ht id) as Hen. simpl in Hen.
  assert (∀ id', delete id (pending st) !! id' =
    entry_after id' (pending st !! id') (Resolve id v, ok)) as Hdel.
  { intros id'. unfold entry_after. simpl. destruct (decide (id' = id)) as [->|Hne].
    - rewrite lookup_delete_eq, bool_decide_eq_true_2 by done. by destruct (pending st !! id).
    - rewrite lookup_delete_ne, bool_decide_eq_false_2 by done. by destruct (pending st !! id'). }
  cbn [w_map w_mine]. unfold resolve_call.
  destruct (pending st !! id) as [[tx t|tx t]|] eqn:Hid; cbn [fst].
  - destruct (ac_fits _ Hac id _ Hid) as (c & Hc & Hf). cbn in Hc.
    destruct c as [s r x|]; [|done].
    assert (s = true) as ->.
    { pose proof (ac_senders _ Hac tx) as Hsd. simpl in Hsd. rewrite Hc in Hsd. simpl in Hsd.
      pose proof (held_entry _ id _ Hid) as Hh. simpl in Hh. destruct s; [done|lia]. }
    assert (x = None) as -> by (by eapply (ac_unsent _ Hac tx)).
    split; simpl.
    + intros id'. by rewrite entry_of_snoc, Hdel, <-(tk_entry _ _ Ht).
    + apply (take_accounted st m id (PCall tx t)); [done..|]. simpl. intros c Hc'.
      assert (c = OneShot true r None) as -> by congruence. intros _. by repeat split.
    + intros ch c' Hch Hl. rewrite sent_to_snoc. unfold sent_by. simpl. rewrite <-Hen. simpl.
      case_decide as Htx.
      * subst ch. rewrite lookup_alter_eq, Hc in Hch. simplify_eq/=.
        by rewrite <-(tk_sent _ _ Ht tx _ Hc eq_refl).
      * rewrite lookup_alter_ne in Hch by done. rewrite app_nil_r. by apply (tk_sent _ _ Ht).
    + intros ch Hch%lookup_alter_None. rewrite sent_to_snoc. unfold sent_by. simpl. rewrite <-Hen. simpl.
      rewrite decide_False by congruence. rewrite app_nil_r. by apply (tk_none _ _ Ht).
  - apply (quiet_tracked h (mkWorld st m)); [done|..]; simpl; [|done|..].
    + apply (take_accounted st m id (PSubscribe tx t)); [done..|]. intros c _ _.
      apply drop_sender_gives_up.
    + intros ch. unfold sent_by. simpl. by rewrite <-Hen.
    + intros ch c'. apply alter_drop_lookup.
    + intros ch. apply lookup_alter_None.
  - apply (quiet_tracked h (mkWorld st m)); [done|..]; simpl; [|done|..|done].
    + rewrite delete_id by done. by destruct st.
    + intros ch. unfold sent_by. simpl. by rewrite <-Hen.
    + eauto.
Qed.

Lemma try_send_cases c v :
  fits (PSubscribe 0 None) c = true →
  (mpsc_try_send c v).2 = listening c && has_room c ∧
  senders (mpsc_try_send c v).1 = senders c ∧
  (∀ e, fits e (mpsc_try_send c v).1 = fits e c) ∧
  (listening (mpsc_try_send c v).1 = listening c) ∧
  received (mpsc_try_send c v).1 = received c ++ (if (mpsc_try_send c v).2 then [v] else []).
Proof.
  destruct c as [|n s r l q]; [done|]. intros _. simpl.
  destruct (r && (length q <? n)%nat) eqn:Hr; repeat split; simpl;
    rewrite ?app_nil_r, ?app_assoc; auto.
Qed.

Lemma push_tracked h w id v :
  tracked h w →
  tracked (h ++ [(Push id v, (push_subscribe (w_map w) id v).2)])
          (mkWorld (push_subscribe (w_map w) id v).1 (w_mine w)).
Proof.
  intros Ht. destruct w as [st m]. pose proof (tk_accounted _ _ Ht) as Hac.
  pose proof (tk_entry _ _ Ht id) as Hen. cbn [w_map] in *.
  assert (∀ ok id' cur, entry_after id' cur (Push id v, ok) = cur) as Hsame
    by (intros ? ? []; done).
  assert (∀ ok, (∀ ch, sent_by h (Push id v, ok) ch = []) →
    tracked (h ++ [(Push id v, ok)]) (mkWorld st m)) as Hquiet.
  { intros ok Hno. apply (quiet_tracked h (mkWorld st m)); simpl; eauto. }
  unfold push_subscribe. destruct (pending st !! id) as [[tx t|tx t]|] eqn:Hid; simpl.
  - apply Hquiet. intros ch. unfold sent_by. simpl. by rewrite <-Hen.
  - destruct (ac_fits _ Hac id _ Hid) as (c & Hc & Hf). cbn in Hc. rewrite Hc.
    destruct (try_send_cases c v Hf) as (Hok & Hs & Hfc & Hl & Hr).
    destruct (mpsc_try_send c v) as [c' ok] eqn:Hsend. simpl in *.
    split; [|split|..]; simpl.
    + intros id'. rewrite entry_of_snoc, Hsame. apply (tk_entry _ _ Ht).
    + intros id' e' Hid'. destruct (ac_fits _ Hac id' e' Hid') as (c0 & Hc0 & Hf0). simpl in Hc0.
      destruct (decide (tx = entry_tx e')) as [->|].
      * rewrite lookup_insert_eq. exists c'. rewrite Hfc. split; congruence.
      * rewrite lookup_insert_ne by done. eauto.
    + intros ch. pose proof (ac_senders _ Hac ch) as Hsd. simpl in Hsd.
      destruct (decide (tx = ch)) as [->|].
      * rewrite lookup_insert_eq, Hs. by rewrite Hc in Hsd.
      * by rewrite lookup_insert_ne.
    + intros ch r x [[<- ->]|[Hne Hch]]%lookup_insert_Some.
      * specialize (Hfc (PSubscribe 0 None)). by destruct c.
      * by eapply (ac_unsent _ Hac).
    + intros ch c0 Hch Hl0. rewrite sent_to_snoc. unfold sent_by. simpl. rewrite <-Hen.
      apply lookup_insert_Some in Hch as [[<- <-]|[Hne Hch]].
      * rewrite decide_True, Hr by done. f_equal. apply (tk_sent _ _ Ht _ _ Hc). congruence.
      * rewrite decide_False, app_nil_r by done. by apply (tk_sent _ _ Ht).
    + intros ch [Hch Hne]%lookup_insert_None. rewrite sent_to_snoc. unfold sent_by. simpl. rewrite <-Hen.
      rewrite decide_False, app_nil_r by done. by apply (tk_none _ _ Ht).
  - apply Hquiet. intros ch. unfold sent_by. simpl. by rewrite <-Hen.
Qed.

(** ** Runs keep the history right *)
Lemma tracked_new : tracked [] world_new.
Proof. split; [|split|..]; simpl; intros *; by rewrite lookup_empty. Qed.

(** A channel the users have a sender of. *)
Lemma own_senders h w ch c k :
  tracked h w → chans (w_map w) !! ch = Some c → mine w ch = k →
  senders c = (k + held (pending (w_map w)) ch)%nat.
Proof.
  intros Ht Hc Hk. pose proof (ac_senders _ (tk_accounted _ _ Ht) ch) as Hs. rewrite Hc in Hs. lia.
Qed.

Lemma open_tracked h w x ch c :
  tracked h w → chans (w_map w) !! ch = None → (∀ id cur, entry_after id cur x = cur) →
  (∀ ch', sent_by h x ch' = []) → senders c = 1%nat → received c = [] →
  tracked (h ++ [x]) (set_chan w ch c 1).
Proof.
  intros Ht Hch Hx Hsent Hs Hr.
  pose proof (ac_senders _ (tk_accounted _ _ Ht) ch) as Hno. rewrite Hch in Hno.
  apply set_chan_tracked; [done|done|lia|congruence| | |done].
  - intros r v ->. by destruct v.
  - intros _. by rewrite Hsent, Hr, (tk_none _ _ Ht).
Qed.

Lemma own_send_tracked h w ch v w' ok :
  tracked h w → pend_act w (OwnSend ch v) = Some (w', ok) →
  tracked (h ++ [(OwnSend ch v, ok)]) w'.
Proof.
  intros Ht. simpl. destruct (chans (w_map w) !! ch) as [c|] eqn:Hc; [|done].
  destruct (mine w ch) as [|k] eqn:Hk; [by destruct c|].
  pose proof (own_senders h w ch c _ Ht Hc Hk) as Hs.
  assert (∀ ok ch', ch' ≠ ch → sent_by h (OwnSend ch v, ok) ch' = []) as Hoth.
  { intros b ch' Hne. unfold sent_by. simpl. by rewrite decide_False. }
  assert (∀ ok, sent_by h (OwnSend ch v, ok) ch = if ok then [v] else []) as Hown.
  { intros b. unfold sent_by. simpl. by rewrite decide_True. }
  destruct c as [s r x|n s r l q].
  - intros [= <- <-]. destruct s; [|by simpl in Hs; lia].
    assert (x = None) as -> by (by eapply (ac_unsent _ (tk_accounted _ _ Ht))).
    apply set_chan_tracked; simpl in *; [done|by intros ? []|lia| |done| |by apply Hoth].
    + intros e c0. rewrite Hc. intros [= <-]. done.
    + intros ->. rewrite Hown. by rewrite <-(tk_sent _ _ Ht ch _ Hc).
  - destruct (try_send_cases (Mpsc n s r l q) v eq_refl) as (Hok & Hs' & Hf & Hl & Hr).
    destruct (mpsc_try_send (Mpsc n s r l q) v) as [c' b] eqn:Hsend. cbn [fst snd] in *.
    intros [= <- <-].
    apply set_chan_tracked; [done|by intros ? []|lia| | | |by apply Hoth].
    + intros e c0. rewrite Hc. intros [= <-]. by rewrite Hf.
    + intros r' v' ->. by specialize (Hf (PCall 0 0)).
    + intros Hl'. rewrite Hown, Hr. f_equal. apply (tk_sent _ _ Ht ch _ Hc). congruence.
Qed.

Lemma user_act_tracked h w a w' ok :
  tracked h w → pend_act w a = Some (w', ok) →
  match a with CloneSender _ | DropSender _ | TakeValue _ | DropReceiver _ => True | _ => False end →
  tracked (h ++ [(a, ok)]) w'.
Proof.
  intros Ht Ha Hkind.
  assert (∀ ch, sent_by h (a, ok) ch = []) as Hsent by (intros ch; by destruct a).
  assert (∀ id cur, entry_after id cur (a, ok) = cur) as Hx by (intros id []; by destruct a).
  destruct a as [| |ch|ch| |ch|ch| | | | | | |]; try done; simpl in Ha;
    (destruct (chans (w_map w) !! ch) as [c|] eqn:Hc; [|done]).
  - destruct c as [|n s r l q]; [done|]. destruct (mine w ch) as [|k] eqn:Hk; simplify_eq.
    pose proof (own_senders _ _ _ _ _ Ht Hc Hk) as Hs. simpl in Hs.
    apply set_chan_tracked; simpl; [done|done|lia| |done| |done].
    + intros e c0. rewrite Hc. intros [= <-]. done.
    + intros ->. rewrite Hsent, app_nil_r. by apply (tk_sent _ _ Ht ch _ Hc).
  - destruct (mine w ch) as [|k] eqn:Hk; simplify_eq.
    pose proof (own_senders _ _ _ _ _ Ht Hc Hk) as Hs.
    apply set_chan_tracked; [done|done| | | | |done].
    + destruct c as [[]|]; simpl in *; lia.
    + intros e c0. rewrite Hc. intros [= <-]. by destruct e, c.
    + by destruct c.
    + intros Hl. rewrite Hsent, app_nil_r, <-(tk_sent _ _ Ht ch _ Hc); by destruct c.
  - destruct c as [|n s [] l [|v q]]; simplify_eq.
    pose proof (own_senders _ _ _ _ _ Ht Hc eq_refl) as Hs.
    apply set_chan_tracked; [done|done|done| |done| |done].
    + intros e c0. rewrite Hc. intros [= <-]. done.
    + intros _. rewrite Hsent, app_nil_r, <-(tk_sent _ _ Ht ch _ Hc) by done. simpl.
      by rewrite <-app_assoc.
  - simplify_eq. pose proof (own_senders _ _ _ _ _ Ht Hc eq_refl) as Hs.
    apply set_chan_tracked; [done|done|by destruct c| | | |done].
    + intros e c0. rewrite Hc. intros [= <-]. by destruct e, c.
    + intros r v. destruct c; naive_solver.
    + by destruct c.
Qed.

Lemma reached_tracked h w : reached h w → tracked h w.
Proof.
  induction 1 as [|h w a w' ok _ Ht Ha]; [apply tracked_new|].
  destruct a as [ch|ch n|ch|ch|ch v|ch|ch|id ch t|id ch t|id v|id v|id|id|now];
    try (by eapply user_act_tracked); try (by eapply own_send_tracked).
  - simpl in Ha. destruct (chans (w_map w) !! ch) eqn:Hc; simplify_eq.
    apply open_tracked; [done|done|by intros ? []|done..].
  - simpl in Ha. destruct (chans (w_map w) !! ch) eqn:Hc; simplify_eq.
    apply open_tracked; [done|done|by intros ? []|done..].
  - simpl in Ha. destruct (chans (w_map w) !! ch) as [[]|] eqn:Hc; simplify_eq;
      destruct (mine w ch) eqn:Hk; simplify_eq. by eapply (insert_tracked h w _ id (PCall ch t)).
  - simpl in Ha. destruct (chans (w_map w) !! ch) as [[]|] eqn:Hc; simplify_eq;
      destruct (mine w ch) eqn:Hk; simplify_eq. by eapply (insert_tracked h w _ id (PSubscribe ch t)).
  - simpl in Ha. pose proof (resolve_tracked h w id v ok Ht) as Hr.
    destruct (resolve_call (w_map w) id v); by simplify_eq.
  - simpl in Ha. pose proof (push_tracked h w id v Ht) as Hp.
    destruct (push_subscribe (w_map w) id v); by simplify_eq.
  - injection Ha as <- _. apply remove_tracked; auto.
  - injection Ha as <- _. apply remove_tracked; auto.
  - injection Ha as <- _. by apply sweep_tracked.
Qed.

(** C21: the map is at every moment what its history says.  After any
    interleaving of the map's calls with what its users do to the channels:
    the requests in the map are those that were registered and have since
    neither been resolved, completed, aborted or replaced nor been swept after
    their deadline; every living sender of a channel is either still with the
    users or held by one of those requests, so a receiver is told that nothing
    more comes exactly when neither is left; a receiver that listens has got,
    in order, the answer to its call or the accepted events of its
    subscriptions and what the users sent, and nothing else; and the next call
    reports the truth: [resolve_call] whether a call was waiting,
    [push_subscribe] whether a subscription with a listening receiver and room
    was, [complete_subscribe] and [abort] whether the request was there,
    [sweep_expired] how many were overdue. *)
Theorem waiters_tracked h w :
  reached h w →
  let st := w_map w in
  (∀ id e, pending st !! id = Some e ↔ waiting h id e) ∧
  (∀ ch c, chans st !! ch = Some c →
     senders c = (mine w ch + held (pending st) ch)%nat ∧
     (listening c = true → received c = sent_to h ch)) ∧
  (∀ id v, (resolve_call st id v).2 = true ↔ ∃ ch t, waiting h id (PCall ch t)) ∧
  (∀ id v, (push_subscribe st id v).2 = true ↔
     ∃ ch t c, waiting h id (PSubscribe ch t) ∧ chans st !! ch = Some c ∧
               listening c = true ∧ has_room c = true) ∧
  (∀ id, (complete_subscribe st id).2 = true ↔ ∃ e, waiting h id e) ∧
  (∀ id, (abort st id).2 = true ↔ ∃ e, waiting h id e) ∧
  (∀ now, (sweep_expired st now).2 =
     size (filter (λ kv, entry_expired now kv.2 = true) (pending st))).
Proof.
  intros Ht%reached_tracked st.
  assert (∀ id e, pending st !! id = Some e ↔ waiting h id e) as Hw.
  { intros id e. rewrite <-entry_of_waiting, (tk_entry _ _ Ht). done. }
  assert (∀ id, (remove_pending st id).2 = true ↔ ∃ e, waiting h id e) as Hrm.
  { intros id. setoid_rewrite <-Hw. simpl. destruct (pending st !! id); naive_solver. }
  split_and!; [done| | | |done|done|apply expired_count].
  - intros ch c Hc. split; [by eapply own_senders|by apply (tk_sent _ _ Ht)].
  - intros id v. setoid_rewrite <-Hw. unfold resolve_call.
    destruct (pending st !! id) as [[]|]; naive_solver.
  - intros id v. setoid_rewrite <-Hw. unfold push_subscribe.
    destruct (pending st !! id) as [[tx t|tx t]|] eqn:Hid; [naive_solver| |naive_solver].
    destruct (ac_fits _ (tk_accounted _ _ Ht) id _ Hid) as (c & Hc & Hf). cbn in Hc.
    change (chans st !! tx = Some c) in Hc. rewrite Hc.
    destruct (try_send_cases c v Hf) as (Hok & _). destruct (mpsc_try_send c v). simpl in *.
    rewrite Hok, andb_true_iff. naive_solver.
Qed.

(** Resolving a pending call answers its caller, once.  [resolve_call]
    returns true, the caller's channel (if it still listens) holds the value,
    the id is free, no other request or channel changes; and a second reply for
    the same id finds nothing and changes nothing. *)
Theorem resolve_call_once h w id tx t v :
  reached h w → pending (w_map w) !! id = Some (PCall tx t) →
  ∃ st' r, resolve_call (w_map w) id v = (st', true) ∧
    chans (w_map w) !! tx = Some (OneShot true r None) ∧
    chans st' !! tx = Some (OneShot false r (if r then Some v else None)) ∧
    (∀ ch, ch ≠ tx → chans st' !! ch = chans (w_map w) !! ch) ∧
    (∀ id', pending st' !! id' = if decide (id' = id) then None else pending (w_map w) !! id') ∧
    ∀ v', resolve_call st' id v' = (st', false).
Proof.
  intros Ht%reached_tracked Hid. pose proof (tk_accounted _ _ Ht) as Hac.
  destruct (ac_fits _ Hac id _ Hid) as ([s r x|] & Hc & Hf); [|done]. cbn in Hc.
  pose proof (own_senders _ _ _ _ _ Ht Hc eq_refl) as Hs. simpl in Hs.
  pose proof (held_entry _ id _ Hid) as Hh. simpl in Hh. destruct s; [|lia].
  assert (x = None) as -> by (by eapply (ac_unsent _ Hac tx)).
  eexists _, r. unfold resolve_call at 1. rewrite Hid. split_and!; [done|done|..]; simpl.
  - by rewrite lookup_alter_eq, Hc.
  - intros ch Hne. by rewrite lookup_alter_ne.
  - intros id'. case_decide; subst; [by rewrite lookup_delete_eq|by rewrite lookup_delete_ne].
  - intros v'. unfold resolve_call. simpl. rewrite lookup_delete_eq. simpl. by rewrite delete_delete_eq.
Qed.

(** A reply sent with [resolve_call] to the id of a subscription destroys
    the subscription: the call reports failure, and yet the entry is gone, the
    map's sender of its stream is dropped and later events for it are
    refused. *)
Theorem resolve_call_drops_subscription h w id tx t v :
  reached h w → pending (w_map w) !! id = Some (PSubscribe tx t) →
  let '(st', ok) := resolve_call (w_map w) id v in
  ok = false ∧ pending_contains st' id = false ∧
  (∃ c, chans (w_map w) !! tx = Some c ∧ chans st' !! tx = Some (drop_sender c)) ∧
  ∀ v', (push_subscribe st' id v').2 = false.
Proof.
  intros Ht%reached_tracked Hid.
  destruct (ac_fits _ (tk_accounted _ _ Ht) id _ Hid) as (c & Hc & _). cbn in Hc.
  unfold resolve_call, pending_contains, push_subscribe. rewrite Hid. simpl.
  rewrite lookup_delete_eq, lookup_alter_eq, Hc. split_and!; [done..|by exists c|done].
Qed.
End Pending.

(** ** Witnesses *)
Module PendingExample.
#[local] Existing Instance tree_json.

(** A call, due at 10, on channel 0, and two subscriptions on clones of the
    sender of channel 1, one of them with a deadline.  The call is answered, an
    event goes to each subscription, the third does not fit, and the sweep ends
    the second subscription. *)
Definition two_events : list (Act * bool) :=
  [ (OpenOneshot 0, true); (InsertCall "a" 0 10, true);
    (OpenMpsc 1 2, true); (CloneSender 1, true);
    (InsertSubscribe "b" 1 None, true); (InsertSubscribe "c" 1 (Some 5), true);
    (Resolve "a" (Ok JNull), true); (Push "b" (Ok (JBool true)), true);
    (Push "c" (Ok (JBool false)), true); (Push "b" (Ok JNull), false);
    (Sweep 5, true); (TakeValue 1, true) ].

Definition play (h : list (Act * bool)) : option World :=
  foldl (λ w x, w ← w; '(w', ok) ← pend_act w x.1; if Bool.eqb ok x.2 then Some w' else None)
    (Some world_new) h.

Lemma play_reached h w : play h = Some w → reached h w.
Proof.
  revert w. induction h as [|[a ok] h IH] using rev_ind; intros w; unfold play in *; simpl.
  - intros [= <-]. constructor.
  - rewrite foldl_snoc. intros (w0 & Hw0 & ([w1 b] & Ha & Heq)%bind_Some)%bind_Some. simpl in *.
    destruct (Bool.eqb b ok) eqn:Hb; simplify_eq. apply eqb_prop in Hb as ->.
    econstructor; [by apply IH|done].
Qed.

Definition after_events : World := default world_new (play two_events).

Lemma after_events_reached : reached two_events after_events.
Proof. apply play_reached. reflexivity. Qed.

(** One sender left, one event taken and one still queued. *)
Definition last_stream : Chan := Mpsc 2 1 true [Ok (JBool true)] [Ok (JBool false)].

Lemma waiters_tracked_witness :
  waiting two_events "b" (PSubscribe 1 None) ∧
  chans (w_map after_events) !! 0%nat = Some (OneShot false true (Some (Ok JNull))) ∧
  senders last_stream = (mine after_events 1 + held (pending (w_map after_events)) 1)%nat ∧
  received last_stream = sent_to two_events 1.
Proof.
  destruct (waiters_tracked two_events after_events after_events_reached) as (Hw & Hc & _).
  destruct (Hc 1%nat last_stream eq_refl) as [Hs Hr].
  split; [apply Hw; reflexivity|]. split; [reflexivity|]. split; [exact Hs|exact (Hr eq_refl)].
Defined.

(** One call and one subscription. *)
Definition two_pending : list (Act * bool) := take 6 two_events.
Definition two_world : World := default world_new (play two_pending).
Lemma two_pending_reached : reached two_pending two_world.
Proof. apply play_reached. reflexivity. Qed.

Lemma resolve_call_once_witness :
  ∃ st' r, resolve_call (w_map two_world) "a" (Ok JNull) = (st', true) ∧
    chans (w_map two_world) !! 0%nat = Some (OneShot true r None) ∧
    chans st' !! 0%nat = Some (OneShot false r (if r then Some (Ok JNull) else None)) ∧
    (∀ ch, ch ≠ 0%nat → chans st' !! ch = chans (w_map two_world) !! ch) ∧
    (∀ id', pending st' !! id' = if decide (id' = "a") then None else pending (w_map two_world) !! id') ∧
    ∀ v', resolve_call st' "a" v' = (st', false).
Proof. apply (resolve_call_once two_pending two_world "a" 0 10 _ two_pending_reached). reflexivity. Defined.

Lemma resolve_call_drops_subscription_witness :
  let '(st', ok) := resolve_call (w_map two_world) "b" (Ok JNull) in
  ok = false ∧ pending_contains st' "b" = false ∧
  (∃ c, chans (w_map two_world) !! 1%nat = Some c ∧ chans st' !! 1%nat = Some (drop_sender c)) ∧
  ∀ v', (push_subscribe st' "b" v').2 = false.
Proof.
  apply (resolve_call_drops_subscription two_pending two_world "b" 1 None _ two_pending_reached).
  reflexivity.
Defined.

(** Only the expired call and subscription are swept. *)
Example sweep_two :
  ((sweep_expired (w_map two_world) 10).2, pending_len (sweep_expired (w_map two_world) 10).1)
  = (2%nat, 1%nat).
Proof. vm_compute. reflexivity. Qed.
End PendingExample.
