(* ===== verification/Call.v ===== *)
(** * Operations: specifications, registry, environment and discovery
    (call/spec.rs, call/registry.rs, call/context.rs, call/env.rs,
    call/services.rs)

    A handler is a closure that receives the context, which holds the
    environment, which holds the registry the handler itself is stored in.  The
    model names closures instead: the two built-in ones are constructors, any
    other one is [HCustom n], and [custom n] is its behaviour, a program that
    may invoke further operations before it answers.  Nested invocations cost
    fuel; [registry_invoke] is [None] only when the fuel is used up. *)
From S2P Require Import Prelude RustStd Json Frame Forwarding DynConfig Pending.
From Stdlib Require Import Ascii.

(** ** Access control (call/spec.rs) *)
Inductive OperationType := Query | Mutation | Subscription.

Record AccessControl := mkAccess {
  required_scopes : list string;
  required_scopes_any : option (list string);
  resource_type : option string;
  resource_action : option string;
}.

Definition str_contains (l : list string) (s : string) : bool := bool_decide (s ∈ l).

Definition access_check (ac : AccessControl) (identity : Identity) : bool :=
  if negb (forallb (str_contains (scopes identity)) (required_scopes ac)) then false
  else if match required_scopes_any ac with
          | Some any => negb (existsb (str_contains (scopes identity)) any)
          | None => false
          end then false
  else match resource_type ac with
       | Some res_type =>
           match resources identity !! res_type with
           | Some actions =>
               match resource_action ac with
               | Some action => str_contains actions action
               | None => true
               end
           | None => false
           end
       | None => true
       end.

Definition has_restrictions (ac : AccessControl) : bool :=
  negb (bool_decide (required_scopes ac = []))
  || bool_decide (is_Some (required_scopes_any ac))
  || bool_decide (is_Some (resource_type ac)).

Record OperationSpec `{Json} := mkSpec {
  spec_name : string;
  spec_namespace : string;
  op_type : OperationType;
  input_schema : Value;
  output_schema : Value;
  access_control : AccessControl;
}.

Definition spec_path `{Json} (s : OperationSpec) : string := "/" +:+ spec_name s.

Definition namespace_from_name (name : string) : string :=
  let parts := split_char "/" (trim_start_matches "/" name) in
  match parts with
  | _ :: p1 :: _ :: _ => p1
  | [p0; _] => p0
  | _ => EmptyString
  end.

(** [format!("{:?}", op_type).to_lowercase()]. *)
Definition op_type_debug (t : OperationType) : string :=
  match t with Query => "Query" | Mutation => "Mutation" | Subscription => "Subscription" end.
Definition ascii_lower (a : ascii) : ascii :=
  let n := N_of_ascii a in
  if ((65 <=? n)%N && (n <=? 90)%N)%bool then ascii_of_N (n + 32) else a.
Fixpoint to_lowercase (s : string) : string :=
  match s with EmptyString => EmptyString | String a s' => String (ascii_lower a) (to_lowercase s') end.
Definition op_type_name (t : OperationType) : string := to_lowercase (op_type_debug t).

(** ** Registry, environment and context *)
Section Call.
Context `{J : Json}.

Inductive Handler := HServicesList | HServicesSchema | HCustom (n : nat).

(** [HashMap<String, (OperationSpec, Handler)>]. *)
Notation OperationRegistry := (gmap string (OperationSpec * Handler)).

Record OperationEnv := mkEnv {
  env_registry : OperationRegistry;
  credential_provider : CredentialProvider;
}.

Record OperationContext := mkContext {
  request_id : string;
  parent_request_id : option string;
  identity : option Identity;
  metadata : gmap string Value;
  env : OperationEnv;
  trusted : bool;
}.

Definition registry_new : OperationRegistry := ∅.

Definition register (r : OperationRegistry) (spec : OperationSpec) (h : Handler) : OperationRegistry :=
  <[spec_name spec := (spec, h)]> r.

Definition registry_lookup (r : OperationRegistry) (name : string) : option (OperationSpec * Handler) :=
  r !! name.

Definition builder_with : OperationRegistry → OperationSpec → Handler → OperationRegistry := register.

Definition env_local (r : OperationRegistry) : OperationEnv := mkEnv r secret_store_credentials.
Definition env_with_credential_provider (r : OperationRegistry) (p : CredentialProvider) : OperationEnv :=
  mkEnv r p.
Definition env_credentials (e : OperationEnv) (service : string) : option CredentialSet :=
  @get_credentials (credential_provider e) service.

(** The order in which a [HashMap] is iterated is some permutation. *)
Context (iteration : list (string * (OperationSpec * Handler)) → list (string * (OperationSpec * Handler))).

Definition list_operations (r : OperationRegistry) : list OperationSpec :=
  (λ kv, kv.2.1) <$> iteration (map_to_list r).

(** ** Built-in operations (call/services.rs) *)
Definition no_access_control : AccessControl := mkAccess [] None None None.
Definition type_is (t : string) : Value := json_object [("type", json_str t)].

Definition services_list_spec : OperationSpec := {|
  spec_name := SERVICE_LIST;
  spec_namespace := "services";
  op_type := Query;
  input_schema := json_object [("type", json_str "object"); ("properties", json_object [])];
  output_schema := json_object
    [("type", json_str "array");
     ("items", json_object
        [("type", json_str "object");
         ("properties", json_object
            [("name", type_is "string"); ("namespace", type_is "string"); ("op_type", type_is "string")])])];
  access_control := no_access_control;
|}.

Definition services_schema_spec : OperationSpec := {|
  spec_name := SERVICE_SCHEMA;
  spec_namespace := "services";
  op_type := Query;
  input_schema := json_object
    [("type", json_str "object");
     ("properties", json_object [("name", type_is "string")]);
     ("required", json_array [json_str "name"])];
  output_schema := json_object
    [("type", json_str "object");
     ("properties", json_object
        [("name", type_is "string"); ("namespace", type_is "string"); ("op_type", type_is "string");
         ("input_schema", type_is "object"); ("output_schema", type_is "object")])];
  access_control := no_access_control;
|}.

Definition register_default_operations (r : OperationRegistry) : OperationRegistry :=
  register (register r services_list_spec HServicesList) services_schema_spec HServicesSchema.

Definition describe_op (spec : OperationSpec) : Value :=
  json_object [("name", json_str (spec_name spec)); ("namespace", json_str (spec_namespace spec));
               ("op_type", json_str (op_type_name (op_type spec)))].

Definition services_list_handler (input : Value) (ctx : OperationContext) : ResponseEnvelope :=
  response_ok (request_id ctx)
    (json_object [("operations", json_array (describe_op <$> list_operations (env_registry (env ctx))))]).

Definition describe_schema (spec : OperationSpec) : Value :=
  json_object [("name", json_str (spec_name spec)); ("namespace", json_str (spec_namespace spec));
               ("op_type", json_str (op_type_name (op_type spec)));
               ("input_schema", input_schema spec); ("output_schema", output_schema spec)].

Definition services_schema_handler (input : Value) (ctx : OperationContext) : ResponseEnvelope :=
  match json_get "name" input ≫= json_as_str with
  | None => response_err (request_id ctx) "INVALID_INPUT" "missing required field: name" false
  | Some name =>
      match registry_lookup (env_registry (env ctx)) name with
      | Some (spec, _) => response_ok (request_id ctx) (describe_schema spec)
      | None => response_err (request_id ctx) "NOT_FOUND" ("operation not found: " +:+ name) false
      end
  end.

(** ** Invocation *)
(** What a custom handler does: answer, or first invoke an operation of a
    registry it can reach. *)
Inductive Prog :=
| Done (r : ResponseEnvelope)
| Invoke (r : OperationRegistry) (name : string) (input : Value) (ctx : OperationContext)
    (k : ResponseEnvelope → Prog).

Context (custom : nat → Value → OperationContext → Prog).

Fixpoint run_prog
    (invoke : OperationRegistry → string → Value → OperationContext → option ResponseEnvelope)
    (p : Prog) : option ResponseEnvelope :=
  match p with
  | Done r => Some r
  | Invoke reg name input ctx k =>
      match invoke reg name input ctx with
      | Some r => run_prog invoke (k r)
      | None => None
      end
  end.

Fixpoint registry_invoke (fuel : nat) (r : OperationRegistry) (name : string) (input : Value)
    (ctx : OperationContext) : option ResponseEnvelope :=
  match fuel with
  | O => None
  | S fuel' =>
      match registry_lookup r name with
      | Some (spec, handler) =>
          let run :=
            match handler with
            | HServicesList => Some (services_list_handler input ctx)
            | HServicesSchema => Some (services_schema_handler input ctx)
            | HCustom n => run_prog (registry_invoke fuel') (custom n input ctx)
            end in
          if trusted ctx then run
          else match identity ctx with
               | Some i =>
                   if access_check (access_control spec) i then run
                   else Some (response_err (request_id ctx) "FORBIDDEN" "access denied" false)
               | None =>
                   if has_restrictions (access_control spec)
                   then Some (response_err (request_id ctx) "FORBIDDEN" "authentication required" false)
                   else run
               end
      | None =>
          Some (response_err (request_id ctx) "NOT_FOUND" ("operation not found: " +:+ name) false)
      end
  end.

(** [OperationEnv::invoke]: the arguments it hands to the registry. *)
Definition env_name (namespace operation : string) : string :=
  "/" +:+ namespace +:+ "/" +:+ operation.
Definition env_context (e : OperationEnv) (namespace operation : string) : OperationContext := {|
  request_id := "env" +:+ env_name namespace operation;
  parent_request_id := None;
  identity := None;
  metadata := ∅;
  env := e;
  trusted := true;
|}.
Definition env_invoke (fuel : nat) (e : OperationEnv) (namespace operation : string) (input : Value)
    : option ResponseEnvelope :=
  registry_invoke fuel (env_registry e) (env_name namespace operation) input
    (env_context e namespace operation).

(** ** Access, declaratively *)
Definition no_identity : Identity := mkIdentity EmptyString [] ∅.

(** What an access-control record asks of an identity. *)
Record permits (ac : AccessControl) (i : Identity) : Prop := {
  permits_all : ∀ s, s ∈ required_scopes ac → s ∈ scopes i;
  permits_any : ∀ any, required_scopes_any ac = Some any → ∃ s, s ∈ any ∧ s ∈ scopes i;
  permits_resource : ∀ ty, resource_type ac = Some ty →
    ∃ actions, resources i !! ty = Some actions ∧
      ∀ a, resource_action ac = Some a → a ∈ actions;
}.

Definition may_call (ctx : OperationContext) (ac : AccessControl) : Prop :=
  trusted ctx = true ∨ permits ac (default no_identity (identity ctx)).

Lemma access_check_permits ac i : access_check ac i = true ↔ permits ac i.
Proof.
  unfold access_check. split.
  - destruct (forallb _ _) eqn:Hall; [|done]. simpl.
    rewrite forallb_forall in Hall. destruct ac as [req any rt ra]. simpl in *.
    intros Hc. destruct any as [any|]; [destruct (existsb _ _) eqn:Hany; [simpl in Hc|done]|]; split; simpl.
    all: try (intros s Hs%list_elem_of_In%Hall; by apply bool_decide_eq_true in Hs).
    all: try (intros ? [= <-]; apply existsb_exists in Hany as (s & Hin & Hs);
              exists s; split; [by apply list_elem_of_In|by apply bool_decide_eq_true in Hs]).
    all: try done.
    all: intros ty ->; destruct (resources i !! ty) as [acts|]; [|done]; exists acts; split; [done|].
    all: intros a ->; by apply bool_decide_eq_true in Hc.
  - intros [Hall Hany Hres]. destruct ac as [req any rt ra]. simpl in *.
    assert (forallb (str_contains (scopes i)) req = true) as ->.
    { apply forallb_forall. intros s Hs%list_elem_of_In. by apply bool_decide_eq_true, Hall. }
    assert (match any with Some any => negb (existsb (str_contains (scopes i)) any) | None => false end = false)
      as ->.
    { destruct any as [any|]; [|done]. destruct (Hany any eq_refl) as (s & Hin & Hs).
      apply negb_false_iff, existsb_exists. exists s.
      split; [by apply list_elem_of_In|by apply bool_decide_eq_true]. }
    simpl. destruct rt as [ty|]; [|done]. destruct (Hres ty eq_refl) as (acts & -> & Ha).
    destruct ra as [a|]; [|done]. by apply bool_decide_eq_true, Ha.
Qed.

(** A caller without an identity is treated as one with no scope and no
    resource. *)
Lemma unrestricted_permits ac : has_restrictions ac = false ↔ permits ac no_identity.
Proof.
  rewrite <-access_check_permits. unfold has_restrictions, access_check.
  destruct ac as [[|s req] [any|] [ty|] ra]; simpl; try done; [..].
  all: rewrite ?lookup_empty; by destruct (existsb _ any) eqn:Hx;
    [apply existsb_exists in Hx as (? & _ & ?%bool_decide_eq_true%not_elem_of_nil)|].
Qed.

Definition run_handler (fuel : nat) (h : Handler) (input : Value) (ctx : OperationContext)
    : option ResponseEnvelope :=
  match h with
  | HServicesList => Some (services_list_handler input ctx)
  | HServicesSchema => Some (services_schema_handler input ctx)
  | HCustom n => run_prog (registry_invoke fuel) (custom n input ctx)
  end.

(** C10: who may run an operation.  A name that is not registered answers
    NOT_FOUND.  Otherwise the handler runs exactly when the context is trusted
    or the caller's identity satisfies the operation's access control (all of
    the required scopes, one of the alternative scopes, the action on the
    resource type), a caller without an identity counting as one with no scopes
    and no resources; in every other case the handler is not run at all and the
    caller is told FORBIDDEN. *)
Theorem invoke_access fuel reg name input ctx :
  match reg !! name with
  | None => registry_invoke (S fuel) reg name input ctx =
      Some (response_err (request_id ctx) "NOT_FOUND" ("operation not found: " +:+ name) false)
  | Some (spec, h) =>
      (may_call ctx (access_control spec) →
       registry_invoke (S fuel) reg name input ctx = run_handler fuel h input ctx) ∧
      (¬ may_call ctx (access_control spec) →
       ∃ msg, registry_invoke (S fuel) reg name input ctx =
                Some (response_err (request_id ctx) "FORBIDDEN" msg false))
  end.
Proof.
  cbn [registry_invoke]. unfold registry_lookup, may_call.
  destruct (reg !! name) as [[spec h]|]; [|done].
  destruct (trusted ctx); [split; [done|intros []; by left]|].
  destruct (identity ctx) as [i|]; simpl.
  - rewrite <-access_check_permits. destruct (access_check _ i).
    + split; [done|]. intros []. by right.
    + split; [by intros [|]|]. eauto.
  - rewrite <-unrestricted_permits. destruct (has_restrictions _).
    + split; [by intros [|]|]. eauto.
    + split; [done|]. intros []. by right.
Qed.

(** ** Termination *)
(** Every operation a program invokes is in [reg] and ranks below [bound]. *)
Fixpoint prog_below (reg : OperationRegistry) (rank : string → nat) (bound : nat) (p : Prog) : Prop :=
  match p with
  | Done _ => True
  | Invoke reg' name _ _ k =>
      reg' = reg ∧ (rank name < bound)%nat ∧ ∀ r, prog_below reg rank bound (k r)
  end.

Definition ranked (reg : OperationRegistry) (rank : string → nat) : Prop :=
  ∀ name spec n input ctx, reg !! name = Some (spec, HCustom n) →
    prog_below reg rank (rank name) (custom n input ctx).

Lemma run_prog_returns reg rank bound p invoke :
  (∀ name input ctx, (rank name < bound)%nat → ∃ r, invoke reg name input ctx = Some r) →
  prog_below reg rank bound p → ∃ r, run_prog invoke p = Some r.
Proof.
  intros Hinv. induction p as [r|reg' name input ctx k IH]; simpl; [eauto|].
  intros (-> & Hlt & Hk). destruct (Hinv name input ctx Hlt) as [r ->]. by apply IH.
Qed.

(** Past the access check, the handler runs; before it, there is an answer. *)
Lemma invoke_split fuel reg name input ctx :
  match reg !! name with
  | Some (_, h) =>
      registry_invoke (S fuel) reg name input ctx = run_handler fuel h input ctx ∨
      ∃ r, registry_invoke (S fuel) reg name input ctx = Some r
  | None => ∃ r, registry_invoke (S fuel) reg name input ctx = Some r
  end.
Proof.
  cbn [registry_invoke]. unfold registry_lookup.
  destruct (reg !! name) as [[spec h]|]; [|eauto]. repeat case_match; eauto.
Qed.

Lemma registry_invoke_returns reg rank :
  ranked reg rank → ∀ fuel name input ctx, (rank name < fuel)%nat →
  ∃ r, registry_invoke fuel reg name input ctx = Some r.
Proof.
  intros Hrank fuel. induction fuel as [|fuel IH]; intros name input ctx Hlt; [lia|].
  pose proof (invoke_split fuel reg name input ctx) as Hs.
  destruct (reg !! name) as [[spec h]|] eqn:Hl; [|eauto].
  destruct Hs as [Hs|[r Hs]]; rewrite Hs; [|eauto].
  destruct h as [| |n]; simpl; [eauto..|].
  eapply (run_prog_returns reg rank (rank name)); [|by eapply Hrank].
  intros name' input' ctx' Hlt'. apply IH. lia.
Qed.

(** Invocation terminates when handlers do not call each other in circles.
    If the operations can be ranked so that every custom handler only invokes
    operations of a lower rank, invoking any operation returns a response, and
    nesting depth [rank + 1] is enough. *)
Theorem invoke_terminates reg rank name input ctx :
  ranked reg rank → ∃ r, registry_invoke (S (rank name)) reg name input ctx = Some r.
Proof. intros Hrank. apply (registry_invoke_returns reg rank Hrank). lia. Qed.

(** ** Discovery *)
(** The registries the sources can build. *)
Inductive built : OperationRegistry → Prop :=
| built_new : built registry_new
| built_register r spec h : built r → built (register r spec h).

Lemma built_key reg : built reg → ∀ name spec h, reg !! name = Some (spec, h) → spec_name spec = name.
Proof.
  induction 1 as [|r spec h Hr IH]; intros name spec' h'.
  { unfold registry_new. by rewrite lookup_empty. }
  unfold register. rewrite lookup_insert_Some. intros [[? ?]|[? ?]]; [by simplify_eq|by eapply IH].
Qed.

Lemma names_of_list reg l :
  built reg → l ≡ₚ map_to_list reg →
  (spec_name <$> ((λ kv, kv.2.1) <$> l)) = l.*1.
Proof.
  intros Hb Hl. rewrite <-list_fmap_compose. apply list_fmap_ext.
  intros i [name [spec h]] Hi. simpl. apply (built_key reg Hb name spec h).
  apply elem_of_map_to_list. rewrite <-Hl. by eapply list_elem_of_lookup_2.
Qed.

Lemma list_operations_elem reg spec :
  (∀ l, iteration l ≡ₚ l) → built reg →
  spec ∈ list_operations reg ↔ ∃ h, reg !! spec_name spec = Some (spec, h).
Proof.
  intros Hit Hb. unfold list_operations. rewrite list_elem_of_fmap. split.
  - intros ([name [spec' h]] & -> & Hin). rewrite Hit in Hin. apply elem_of_map_to_list in Hin.
    exists h. simpl. by rewrite (built_key reg Hb name spec' h).
  - intros [h Hl]. exists (spec_name spec, (spec, h)). split; [done|].
    rewrite Hit. by apply elem_of_map_to_list.
Qed.

Lemma list_operations_names reg :
  (∀ l, iteration l ≡ₚ l) → built reg →
  NoDup (spec_name <$> list_operations reg) ∧
  ∀ name, name ∈ spec_name <$> list_operations reg ↔ is_Some (reg !! name).
Proof.
  intros Hit Hb. unfold list_operations.
  rewrite (names_of_list reg (iteration (map_to_list reg)) Hb (Hit _)). split.
  - rewrite (Hit _). apply NoDup_fst_map_to_list.
  - intros name. rewrite (Hit _). rewrite list_elem_of_fmap. split.
    + intros ([name' v] & -> & Hin%elem_of_map_to_list). eauto.
    + intros [v Hv%elem_of_map_to_list]. by exists (name, v).
Qed.

(** An operation without restrictions runs for every caller. *)
Lemma open_operation fuel reg name spec h input ctx :
  reg !! name = Some (spec, h) → access_control spec = no_access_control →
  registry_invoke (S fuel) reg name input ctx = run_handler fuel h input ctx.
Proof.
  intros Hl Hac. cbn [registry_invoke]. unfold registry_lookup. rewrite Hl, Hac. simpl.
  destruct (trusted ctx); [done|]. by destruct (identity ctx).
Qed.

Lemma default_lookups reg :
  register_default_operations reg !! SERVICE_LIST = Some (services_list_spec, HServicesList) ∧
  register_default_operations reg !! SERVICE_SCHEMA = Some (services_schema_spec, HServicesSchema).
Proof.
  unfold register_default_operations, register. split.
  - by rewrite lookup_insert_ne, lookup_insert_eq.
  - by rewrite lookup_insert_eq.
Qed.

(** Discovery is complete and consistent.  In a registry with the default
    operations, whatever order the hash map iterates in, `/services/list`
    answers any caller, authenticated or not, with one description per
    registered operation, no name twice and none missing; and
    `/services/schema` asked for any listed name answers with the schemas of
    exactly that operation. *)
Theorem services_discovery `{JL : !JsonLaws J} reg0 reg input ctx :
  (∀ l, iteration l ≡ₚ l) → built reg0 → reg = register_default_operations reg0 →
  env_registry (env ctx) = reg →
  ∃ specs,
    registry_invoke 1 reg SERVICE_LIST input ctx =
      Some (response_ok (request_id ctx)
              (json_object [("operations", json_array (describe_op <$> specs))])) ∧
    NoDup (spec_name <$> specs) ∧
    (∀ name, name ∈ spec_name <$> specs ↔ is_Some (reg !! name)) ∧
    (∀ spec, spec ∈ specs →
       registry_invoke 1 reg SERVICE_SCHEMA (json_object [("name", json_str (spec_name spec))]) ctx =
         Some (response_ok (request_id ctx) (describe_schema spec))).
Proof.
  intros Hit Hb0 -> Henv. destruct (default_lookups reg0) as [Hlist Hschema].
  set (reg := register_default_operations reg0) in *.
  assert (built reg) as Hb by (by repeat apply built_register).
  destruct (list_operations_names reg Hit Hb) as [Hnd Hnames].
  exists (list_operations reg). split_and!; [|done|done|].
  - rewrite (open_operation 0 _ _ _ _ _ _ Hlist) by done. simpl. unfold services_list_handler.
    by rewrite Henv.
  - intros spec [h Hspec]%list_operations_elem; [|done..].
    rewrite (open_operation 0 _ _ _ _ _ _ Hschema) by done. simpl. unfold services_schema_handler.
    rewrite get_object by apply NoDup_singleton. simpl. rewrite as_str_str, Henv.
    unfold registry_lookup. by rewrite Hspec.
Qed.
End Call.

(** The namespace read off an operation's name is the one
    [OperationEnv::invoke] was given, whether or not a node name precedes it. *)
Lemma namespace_of_env_name namespace operation :
  contains_char "/" namespace = false → contains_char "/" operation = false →
  namespace_from_name (env_name namespace operation) = namespace.
Proof.
  intros Hn Ho. unfold namespace_from_name, env_name.
  destruct namespace as [|a s].
  - change ("/" +:+ EmptyString +:+ "/" +:+ operation) with (String "/" (String "/" operation)).
    cbn [trim_start_matches]. simpl.
    destruct operation as [|b o]; [done|]. cbn [trim_start_matches].
    rewrite contains_char_cons in Ho. apply orb_false_iff in Ho as [Hb Ho].
    rewrite Hb, split_char_not_in by (by rewrite contains_char_cons, Hb). done.
  - change ("/" +:+ String a s +:+ "/" +:+ operation) with (String "/" (String a s +:+ String "/" operation)).
    cbn [trim_start_matches]. simpl.
    change (String a s +:+ String "/" operation) with (String a (s +:+ String "/" operation)).
    pose proof Hn as Hn'. rewrite contains_char_cons in Hn'. apply orb_false_iff in Hn' as [Ha _].
    cbn [trim_start_matches]. rewrite Ha.
    change (String a (s +:+ String "/" operation)) with (String a s +:+ String "/" operation).
    rewrite split_char_app by done. by rewrite split_char_not_in.
Qed.

(** ** Witnesses *)
Module CallExample.
#[local] Existing Instance tree_json.

(** `/vault/read` needs the scope [vault]; `/relay/read` is open and fetches from
    it through the environment. *)
Definition vault_read : OperationSpec :=
  mkSpec _ "/vault/read" "vault" Query JNull JNull (mkAccess ["vault"] None None None).
Definition relay_read : OperationSpec :=
  mkSpec _ "/relay/read" "relay" Query JNull JNull no_access_control.

Definition toy_custom (n : nat) (input : Value) (ctx : OperationContext) : Prog :=
  match n with
  | O => Done (response_ok (request_id ctx) (JStr "secret"))
  | _ => Invoke (env_registry (env ctx)) "/vault/read" input (env_context (env ctx) "vault" "read") Done
  end.

Definition toy_registry : gmap string (OperationSpec * Handler) :=
  register (register registry_new vault_read (HCustom 0)) relay_read (HCustom 1).
Definition full_registry : gmap string (OperationSpec * Handler) :=
  register_default_operations toy_registry.

Definition guest (reg : gmap string (OperationSpec * Handler)) : OperationContext :=
  mkContext "r1" None None ∅ (env_local reg) false.

(** A guest is refused the restricted operation, and reaches it through the open
    one: nested invocations are trusted. *)
Example guest_refused :
  registry_invoke (λ l, l) toy_custom 1 full_registry "/vault/read" JNull (guest full_registry) =
    Some (response_err "r1" "FORBIDDEN" "authentication required" false).
Proof. vm_compute. reflexivity. Qed.
Example guest_relayed :
  registry_invoke (λ l, l) toy_custom 2 full_registry "/relay/read" JNull (guest full_registry) =
    Some (response_ok "env/vault/read" (JStr "secret")).
Proof. vm_compute. reflexivity. Qed.

Lemma services_discovery_witness :
  ∃ specs,
    registry_invoke (λ l, l) toy_custom 1 full_registry SERVICE_LIST JNull (guest full_registry) =
      Some (response_ok "r1" (JObj [("operations", JArr (describe_op <$> specs))])) ∧
    NoDup (spec_name <$> specs) ∧
    (∀ name, name ∈ spec_name <$> specs ↔ is_Some (full_registry !! name)) ∧
    (∀ spec, spec ∈ specs →
       registry_invoke (λ l, l) toy_custom 1 full_registry SERVICE_SCHEMA
         (JObj [("name", JStr (spec_name spec))]) (guest full_registry) =
         Some (response_ok "r1" (describe_schema spec))).
Proof.
  apply (services_discovery (λ l, l) toy_custom toy_registry full_registry JNull (guest full_registry));
    [done|repeat constructor|done|done].
Defined.

Definition depth (name : string) : nat := if String.eqb name "/relay/read" then 1 else 0.

(** The toy handlers, in a context whose environment is the registry itself. *)
Definition fixed_custom (n : nat) (input : Value) (ctx : OperationContext) : Prog :=
  match n with
  | O => Done (response_ok (request_id ctx) (JStr "secret"))
  | _ => Invoke full_registry "/vault/read" input (env_context (env ctx) "vault" "read") Done
  end.

Lemma full_registry_ranked : ranked fixed_custom full_registry depth.
Proof.
  intros name spec n input ctx Hl.
  unfold full_registry, register_default_operations, toy_registry, register, registry_new in Hl.
  repeat (apply lookup_insert_Some in Hl as [[? ?]|[? Hl]]; [simplify_eq/=; try done|]).
  - split_and!; [done|vm_compute; lia|done].
  - by rewrite lookup_empty in Hl.
Qed.

Lemma invoke_terminates_witness :
  ∃ r, registry_invoke (λ l, l) fixed_custom 2 full_registry "/relay/read" JNull (guest full_registry)
         = Some r.
Proof.
  apply (invoke_terminates (λ l, l) fixed_custom full_registry depth "/relay/read").
  apply full_registry_ranked.
Defined.
End CallExample.
