(* ===== verification/NapiConfig.v ===== *)
(** * Configuration through the Node.js bindings (alknet-napi/src/serve.rs)

    JavaScript objects are turned into key sources, authentication and
    forwarding policies, and a running server's configuration is replaced
    through its reload handle.  [str::to_lowercase] follows the Unicode tables
    and is an interface: on ASCII it is [to_lowercase]. *)
From S2P Require Import Prelude RustStd Net Forwarding Keys AuthPolicy DynConfig ServeConfig.
From Stdlib Require Import Ascii Strings.Byte.
Open Scope Z_scope.

(** ** Errors and options *)
Inductive Status := InvalidArg | GenericFailure.
Record NapiError := mkNapiError { ne_status : Status; ne_reason : string }.

(** [Either<String, Buffer>]. *)
Inductive StringOrBuffer := PathText (path : string) | KeyBuffer (data : list byte).

Record AlknetServeOptions := mkNapiServeOptions {
  ns_transport : string;
  ns_host_key : option StringOrBuffer;
  ns_authorized_keys : option StringOrBuffer;
  ns_cert_authority : option StringOrBuffer;
  ns_tls_cert : option string;
  ns_tls_key : option string;
  ns_acme_domain : option string;
  ns_listen : option string;
  ns_iroh_relay : option string;
  ns_proxy : option string;
}.

Record AuthConfigNapi := mkAuthConfigNapi {
  an_authorized_keys : option (list byte);
  an_cert_authority : option (list byte);
}.

Record ForwardingRuleConfig := mkRuleConfig {
  rc_target : string;
  rc_action : string;
  rc_principals : option (list string);
}.

Record ForwardingPolicyConfig := mkPolicyConfig {
  pc_default : string;
  pc_rules : option (list ForwardingRuleConfig);
}.

(** ** Lower case *)
Definition ascii_lower (a : ascii) : ascii :=
  let n := N_of_ascii a in
  if (65 <=? n)%N && (n <=? 90)%N then ascii_of_N (n + 32) else a.
Fixpoint ascii_lowercase (s : string) : string :=
  match s with
  | EmptyString => EmptyString
  | String a s' => String (ascii_lower a) (ascii_lowercase s')
  end.
Definition is_ascii (s : string) : bool := forallb (λ b, byte_val b <? 128) (bytes_of s).

Class Lowercase := {
  str_to_lowercase : string → string;
  lowercase_ascii : ∀ s, is_ascii s = true → str_to_lowercase s = ascii_lowercase s;
}.

(** ** Parsing *)
Definition key_source_of (k : StringOrBuffer) : KeySource :=
  match k with PathText path => KeyFile path | KeyBuffer data => KeyMemory data end.

Definition resolve_key_source (key : option StringOrBuffer) (field : string)
    : result KeySource NapiError :=
  match key with
  | None => Err (mkNapiError InvalidArg
                   (field +:+ " is required: provide a file path (string) or key data (Buffer)"))
  | Some k => Ok (key_source_of k)
  end.

Definition resolve_optional_key_source (key : option StringOrBuffer) : option KeySource :=
  match key with None => None | Some k => Some (key_source_of k) end.

Definition parse_addr (addr_str : string) : result SocketAddr NapiError :=
  ok_or (socket_addr_from_str addr_str)
    (mkNapiError InvalidArg ("invalid address '" +:+ addr_str +:+ "': " +:+ addr_parse_error)).

Section Config.
Context `{SshKeys, IpNetworkLib, FileSystem, Lowercase}.

Definition parse_forwarding_action (action : string) : result ForwardingAction NapiError :=
  let other := str_to_lowercase action in
  if String.eqb other "allow" then Ok Allow
  else if String.eqb other "deny" then Ok Deny
  else Err (mkNapiError InvalidArg
              ("invalid forwarding action '" +:+ other +:+ "'; expected 'allow' or 'deny'")).

(** What the text around the last colon says, if anything. *)
Definition parse_port_part (host_part port_part : string) : option TargetPattern :=
  if String.eqb port_part "*" then Some (Host host_part)
  else
    match split_once "-" port_part with
    | Some (start_str, end_str) =>
        match parse_uint u16_max start_str, parse_uint u16_max end_str with
        | Some start, Some end_ => Some (PortRange host_part start end_)
        | _, _ => None
        end
    | None => None
    end.

Definition parse_target_pattern (target : string) : result TargetPattern NapiError :=
  if String.eqb target "*" then Ok AnyTarget
  else if starts_with "alknet-" target then Ok AlknetPrefix
  else
    match
      match rsplit_once ":" target with
      | Some (host_part, port_part) => parse_port_part host_part port_part
      | None => None
      end
    with
    | Some p => Ok p
    | None =>
        match network_from_str target with
        | Some network => Ok (Cidr network)
        | None => Ok (Host target)
        end
    end.

Fixpoint build_rules (rule_configs : list ForwardingRuleConfig) : result (list ForwardingRule) NapiError :=
  match rule_configs with
  | [] => Ok []
  | rc :: rest =>
      let? target := parse_target_pattern (rc_target rc) in
      let? action := parse_forwarding_action (rc_action rc) in
      let principals := default [] (rc_principals rc) in
      let? rules := build_rules rest in
      Ok (mkForwardingRule target action principals [] :: rules)
  end.

Definition build_forwarding_policy (config : ForwardingPolicyConfig) : result ForwardingPolicy NapiError :=
  let? d := parse_forwarding_action (pc_default config) in
  let? rules := build_rules (default [] (pc_rules config)) in
  Ok (mkForwardingPolicy d rules).

Definition auth_config_error (e : ConfigError) : NapiError :=
  mkNapiError InvalidArg ("auth config error: " +:+ show_config_error e).

Definition build_auth_policy_from_napi (a : AuthConfigNapi) : outcome (result AuthPolicy NapiError) :=
  let! c := ServerAuth.from_keys_and_ca (KeyMemory <$> an_authorized_keys a)
              (KeyMemory <$> an_cert_authority a) in
  Ret (map_err auth_config_error (let? c := c in Ok (ServerAuth.from_server_auth_config c))).

(** ** Reloading a running server's configuration: the cell and the answer *)
Definition reload_auth (cell : DynamicConfig) (a : AuthConfigNapi)
    : outcome (DynamicConfig * result unit NapiError) :=
  let! p := build_auth_policy_from_napi a in
  Ret (match p with
       | Ok new_auth_policy => (reload cell (from_parts new_auth_policy (forwarding cell) (rate_limits cell)), Ok ())
       | Err e => (cell, Err e)
       end).

Definition reload_forwarding (cell : DynamicConfig) (policy : ForwardingPolicyConfig)
    : DynamicConfig * result unit NapiError :=
  match build_forwarding_policy policy with
  | Ok new_forwarding => (reload cell (from_parts (auth cell) new_forwarding (rate_limits cell)), Ok ())
  | Err e => (cell, Err e)
  end.

Definition reload_all (cell : DynamicConfig) (a : AuthConfigNapi) (policy : ForwardingPolicyConfig)
    : outcome (DynamicConfig * result unit NapiError) :=
  let! p := build_auth_policy_from_napi a in
  Ret (match p with
       | Err e => (cell, Err e)
       | Ok new_auth_policy =>
           match build_forwarding_policy policy with
           | Err e => (cell, Err e)
           | Ok new_forwarding => (reload cell (from_parts new_auth_policy new_forwarding (rate_limits cell)), Ok ())
           end
       end).

(** ** Lemmas *)

(** A rule object and the rule it becomes. *)
Definition rule_of (rc : ForwardingRuleConfig) (r : ForwardingRule) : Prop :=
  parse_target_pattern (rc_target rc) = Ok (rule_target r) ∧
  parse_forwarding_action (rc_action rc) = Ok (rule_action r) ∧
  rule_principals r = default [] (rc_principals rc) ∧ rule_transports r = [].

Lemma build_rules_ok rcs rules : build_rules rcs = Ok rules ↔ Forall2 rule_of rcs rules.
Proof.
  revert rules. induction rcs as [|rc rcs IH]; intros rules; simpl.
  { split; [intros [= <-]; constructor|by inversion 1]. }
  split.
  - intros (t & Ht & (a & Ha & (rs & Hrs & [= <-])%rbind_ok)%rbind_ok)%rbind_ok.
    constructor; [done|by apply IH].
  - inversion 1 as [|? r ? rs (Ht & Ha & Hp & Hk) Hrs]; subst. apply IH in Hrs.
    rewrite Ht, Ha. simpl. rewrite Hrs. simpl. destruct r; simpl in *. by subst.
Qed.

Lemma build_forwarding_policy_ok config p :
  build_forwarding_policy config = Ok p ↔
  parse_forwarding_action (pc_default config) = Ok (policy_default p) ∧
  Forall2 rule_of (default [] (pc_rules config)) (policy_rules p).
Proof.
  unfold build_forwarding_policy. rewrite rbind_ok. setoid_rewrite rbind_ok.
  setoid_rewrite build_rules_ok. destruct p; simpl. naive_solver.
Qed.

Lemma host_glob_contains c pattern target :
  c ≠ "*"%char → host_glob pattern target → contains_char c pattern = true → contains_char c target = true.
Proof.
  intros Hc [s|p s mid _]; [done|].
  rewrite !contains_char_app, contains_char_cons, (proj2 (Ascii.eqb_neq _ _)) by done.
  destruct (contains_char c p), (contains_char c s); rewrite ?orb_true_r; done.
Qed.

(** A target that names one port is taken for a host name, colon included. *)
Lemma fixed_port_pattern h n :
  0 ≤ n → starts_with "alknet-" (h +:+ ":" +:+ show_uint n) = false →
  network_from_str (h +:+ ":" +:+ show_uint n) = None →
  parse_target_pattern (h +:+ ":" +:+ show_uint n) = Ok (Host (h +:+ ":" +:+ show_uint n)).
Proof.
  intros Hpos Ha Hn. unfold parse_target_pattern.
  assert (∀ c, digit_val c = None → contains_char c (show_uint n) = false) as Hd.
  { intros c Hc. by apply show_uint_contains. }
  rewrite Ha, Hn.
  assert (rsplit_once ":" (h +:+ ":" +:+ show_uint n) = Some (h, show_uint n)) as ->.
  { apply rsplit_once_spec. split; [done|]. by apply Hd. }
  unfold parse_port_part.
  assert (split_once "-" (show_uint n) = None) as ->.
  { specialize (Hd "-"%char eq_refl). unfold contains_char in Hd. by destruct (split_once _ _). }
  destruct (String.eqb_spec (show_uint n) "*") as [He|_].
  { specialize (Hd "*"%char eq_refl). rewrite He in Hd. done. }
  destruct (String.eqb_spec (h +:+ ":" +:+ show_uint n) "*") as [He|_]; [|done].
  apply (f_equal (contains_char ":")) in He. rewrite contains_char_app in He.
  change (":" +:+ show_uint n) with (String ":" (show_uint n)) in He.
  rewrite contains_char_cons, orb_true_r in He. done.
Qed.

Lemma check_rules_skip l1 r l2 d target port identity transport :
  rule_applies r target port identity transport = false →
  check_rules (l1 ++ r :: l2) d target port identity transport =
  check_rules (l1 ++ l2) d target port identity transport.
Proof. intros Hr. induction l1 as [|r' l1 IH]; simpl; [by rewrite Hr|by rewrite IH]. Qed.

(** ** Properties *)

(** A forwarding rule for one port of a host does nothing.  The target
    [host:port] (the bindings' documentation has [10.0.0.0/8:80]) becomes a
    pattern for a host of that whole name, so for every destination whose host
    has no colon the policy decides as if the rule were not there, be it an
    [allow] or a [deny]. *)
Theorem fixed_port_rule_inert config l1 l2 h n action principals p :
  pc_rules config = Some (l1 ++ mkRuleConfig (h +:+ ":" +:+ show_uint n) action principals :: l2) →
  0 ≤ n → starts_with "alknet-" (h +:+ ":" +:+ show_uint n) = false →
  network_from_str (h +:+ ":" +:+ show_uint n) = None →
  build_forwarding_policy config = Ok p →
  ∃ p', build_forwarding_policy (mkPolicyConfig (pc_default config) (Some (l1 ++ l2))) = Ok p' ∧
    ∀ target port identity transport, contains_char ":" target = false →
      policy_check p target port identity transport = policy_check p' target port identity transport.
Proof.
  intros Hrules Hn Ha Hnet [Hd Hr]%build_forwarding_policy_ok. rewrite Hrules in Hr. simpl in Hr.
  apply Forall2_app_inv_l in Hr as (r1 & r2 & Hl1 & Hl2 & Hp).
  apply Forall2_cons_inv_l in Hl2 as (r & r2' & (Ht & _) & Hl2 & ->).
  exists (mkForwardingPolicy (policy_default p) (r1 ++ r2')). split.
  { apply build_forwarding_policy_ok. split; [done|]. by apply Forall2_app. }
  intros target port identity transport Hc. unfold policy_check. rewrite Hp. simpl.
  apply check_rules_skip. apply not_true_is_false. intros [Hin _]%rule_applies_spec.
  cbn [rc_target] in Ht. rewrite fixed_port_pattern in Ht by done. injection Ht as Ht.
  rewrite <-Ht in Hin. inversion Hin as [|? ? ? Hglob| | |]; subst.
  apply (host_glob_contains ":") in Hglob; [congruence|done|].
  rewrite contains_char_app. change (":" +:+ show_uint n) with (String ":" (show_uint n)).
  by rewrite contains_char_cons, orb_true_r.
Qed.

(** A reload is all or nothing, and what it replaces.  [reload_all] has the
    effect of [reload_auth] followed by [reload_forwarding], or of the two the
    other way round; when either part is refused it changes nothing.  Rate
    limits are kept; but the credentials of the configuration, and the API keys
    of its authentication policy, are gone afterwards, whatever was asked. *)
Theorem napi_reload_all_sequential cell a policy c r :
  reload_all cell a policy = Ret (c, r) →
  match r with
  | Ok _ =>
      (∃ c1, reload_auth cell a = Ret (c1, Ok ()) ∧ reload_forwarding c1 policy = (c, Ok ())) ∧
      (∃ c2, reload_forwarding cell policy = (c2, Ok ()) ∧ reload_auth c2 a = Ret (c, Ok ())) ∧
      rate_limits c = rate_limits cell ∧ credentials c = ∅ ∧ api_keys (auth c) = []
  | Err e => c = cell ∧
      (reload_auth cell a = Ret (cell, Err e) ∨
       (∃ c1, reload_auth cell a = Ret (c1, Ok ())) ∧ reload_forwarding cell policy = (cell, Err e))
  end.
Proof.
  unfold reload_all, reload_auth, reload_forwarding, build_auth_policy_from_napi.
  destruct (ServerAuth.from_keys_and_ca _ _) as [[cfg|e]|]; simpl; [..|done].
  - destruct (build_forwarding_policy policy) as [f|e]; simpl; intros [= <- <-]; simpl.
    + split_and!; eauto.
    + split; [done|]. right. eauto.
  - intros [= <- <-]. eauto.
Qed.
End Config.

(** ** Examples *)
Module NapiConfigExample.
Import KeysExample AuthExample.

Lemma ascii_only_lowercase s : is_ascii s = true → ascii_lowercase s = ascii_lowercase s.
Proof. done. Qed.
#[export] Instance ascii_case : Lowercase := {|
  str_to_lowercase := ascii_lowercase;
  lowercase_ascii := ascii_only_lowercase;
|}.

Definition documented_rule : ForwardingRuleConfig := mkRuleConfig "db.internal:22" "Deny" None.
Definition blocklist : ForwardingPolicyConfig :=
  mkPolicyConfig "allow" (Some [mkRuleConfig "localhost:*" "deny" None; documented_rule]).

(** The rule that should block port 22 of [db.internal] does not. *)
Lemma fixed_port_rule_inert_witness :
  ∃ p', build_forwarding_policy (mkPolicyConfig "allow" (Some [mkRuleConfig "localhost:*" "deny" None])) = Ok p' ∧
    ∀ target port identity transport, contains_char ":" target = false →
      policy_check
        (mkForwardingPolicy Allow [mkForwardingRule (Host "localhost") Deny [] [];
                                   mkForwardingRule (Host "db.internal:22") Deny [] []])
        target port identity transport
      = policy_check p' target port identity transport.
Proof.
  apply (fixed_port_rule_inert blocklist [mkRuleConfig "localhost:*" "deny" None] [] "db.internal" 22
           "Deny" None).
  - vm_compute. reflexivity.
  - lia.
  - vm_compute. reflexivity.
  - vm_compute. reflexivity.
  - reflexivity.
Defined.

Example range_excludes_its_end :
  (λ p, (pattern_matches p "db" 80, pattern_matches p "db" 90)) <$>
    result_ok (parse_target_pattern "db:80-90") = Some (true, false).
Proof. vm_compute. reflexivity. Qed.

Definition with_secrets : DynamicConfig :=
  with_credentials (DynamicConfig_new (with_api_keys [] [] [])) {[ "s3" := Bearer "t" ]}.
Definition new_keys : AuthConfigNapi := mkAuthConfigNapi (Some (bytes_of "ssh-ed25519 AAAA1 me")) None.
Definition reloaded : DynamicConfig :=
  from_parts (AuthPolicy_new ["AAAA1"] []) (mkForwardingPolicy Deny []) RateLimitConfig_default.

Lemma napi_reload_all_sequential_witness :
  (∃ c1, reload_auth with_secrets new_keys = Ret (c1, Ok ()) ∧
         reload_forwarding c1 (mkPolicyConfig "DENY" None) = (reloaded, Ok ())) ∧
  (∃ c2, reload_forwarding with_secrets (mkPolicyConfig "DENY" None) = (c2, Ok ()) ∧
         reload_auth c2 new_keys = Ret (reloaded, Ok ())) ∧
  rate_limits reloaded = rate_limits with_secrets ∧ credentials reloaded = ∅ ∧ api_keys (auth reloaded) = [].
Proof.
  apply (napi_reload_all_sequential with_secrets new_keys (mkPolicyConfig "DENY" None) reloaded (Ok ())).
  reflexivity.
Defined.
End NapiConfigExample.
