(* ===== verification/HttpRouter.v ===== *)
(** * The HTTP router (http/router.rs, http/auth.rs)

    What the web side of the server does with a request: the middleware of
    [DynConfig] resolves the bearer token, and every path falls through to a
    404.  axum and hyper turn bytes into requests and are not modelled: a
    request is its Authorization header, and the header's text is
    [http::HeaderValue::to_str]'s, a parameter with its documented law. *)
From S2P Require Import Prelude RustStd Net Forwarding Keys AuthPolicy DynConfig.
From Stdlib Require Import Strings.Byte.
Open Scope Z_scope.

Notation ascii_bytes := (Forall (λ b, byte_val b < 128)).

(** [HeaderValue::to_str]: the value as a string, if it holds only visible
    ASCII characters. *)
Class HttpHeaders := { header_to_str : list byte → option string }.
Class HttpHeadersLaws (L : HttpHeaders) : Prop := {
  header_to_str_visible v h : header_to_str v = Some h → bytes_of h = v ∧ ascii_bytes v;
}.

Definition UNAUTHORIZED : Z := 401.
Definition default_404 : Z := 404.

Section Router.
Context `{HttpHeaders}.

(** The status a request is answered with: every path falls through to the
    fallback, behind the middleware. *)
Definition build_router (P : IdentityProvider) (authorization : option (list byte)) : outcome Z :=
  let! identity := auth_middleware P (authorization ≫= header_to_str) in
  Ret (match identity with Some _ => default_404 | None => UNAUTHORIZED end).

(** [serve_connection]: each request of a connection in turn. *)
Fixpoint serve_connection (P : IdentityProvider) (requests : list (option (list byte))) : outcome (list Z) :=
  match requests with
  | [] => Ret []
  | request :: requests =>
      let! status := build_router P request in
      let! statuses := serve_connection P requests in
      Ret (status :: statuses)
  end.

Context `{!HttpHeadersLaws _, SshKeys, IpNetworkLib, Sha256}.

Lemma ascii_boundary t n : ascii_bytes (bytes_of t) → (n ≤ String.length t)%nat → is_char_boundary t n = true.
Proof.
  intros Ha Hn. unfold is_char_boundary. destruct n as [|n]; [done|].
  destruct (bytes_of t !! S n) as [b|] eqn:Hb.
  - pose proof (Forall_lookup_1 _ _ _ _ Ha Hb) as Hlt. simpl in Hlt. unfold is_continuation.
    by rewrite (proj2 (Z.leb_gt 128 (byte_val b)) Hlt).
  - apply lookup_ge_None in Hb. rewrite length_bytes_of in Hb. apply Nat.eqb_eq. lia.
Qed.

(** A token of ASCII characters never makes the lookup panic. *)
Lemma ascii_token_total clock cell raw :
  ascii_bytes raw → ∃ r, config_resolve_from_token clock cell raw = Ret r.
Proof.
  intros Ha. unfold config_resolve_from_token.
  rewrite from_utf8_lossy_valid by (by apply ascii_utf8_valid).
  destruct (starts_with _ _); [|by eexists]. unfold resolve_api_key. destruct (starts_with _ _); [|by eexists]. simpl.
  unfold slice_to. rewrite ascii_boundary; [simpl|by rewrite bytes_str|lia].
  destruct (find_first _ _) as [e|]; [|by eexists]. destruct (negb _); [by eexists|].
  destruct (match ak_expires_at e with Some _ => _ | None => _ end); by eexists.
Qed.

(** C33: the router answers every request, and only with 401 or 404.  Whatever
    bytes the Authorization header holds, no token makes it panic, because a
    header that is not visible ASCII is no token; the answer is 404 exactly when
    the header is a bearer token that the configuration in force resolves to an
    identity. *)
Theorem router_answers clock cell authorization :
  ∃ status, build_router (config_identity_provider clock cell) authorization = Ret status
    ∧ (status = 401 ∨ status = 404)
    ∧ (status = 404 ↔ ∃ v token i, authorization = Some v ∧ header_to_str v = Some ("Bearer " +:+ token)
         ∧ config_resolve_from_token clock cell (bytes_of token) = Ret (Some i)).
Proof.
  unfold build_router, auth_middleware. destruct authorization as [v|]; simpl.
  2: { exists UNAUTHORIZED. split_and!; [done|by left|]. split; [done|]. by intros (? & ? & ? & ? & _). }
  destruct (header_to_str v) as [h|] eqn:Hh; simpl.
  2: { exists UNAUTHORIZED. split_and!; [done|by left|]. split; [done|]. intros (v' & t & i & [= <-] & Ht & _). congruence. }
  destruct (strip_prefix "Bearer " h) as [token|] eqn:Hp.
  - apply strip_prefix_spec in Hp. subst h.
    assert (ascii_bytes (bytes_of token)) as Ha.
    { apply header_to_str_visible in Hh as [<- Hv]. rewrite bytes_of_app in Hv. by apply Forall_app in Hv as [_ Hv]. }
    destruct (ascii_token_total clock cell _ Ha) as [r Hr]. rewrite Hr. simpl.
    destruct r as [i|]; eexists; (split_and!; [done|auto|]); (split; [|try done]).
    + intros _. by exists v, token, i.
    + done.
    + intros (v' & t & i & [= <-] & Ht & Hi). 
      assert ("Bearer " +:+ token = "Bearer " +:+ t) as Heq by congruence.
      apply (strip_prefix_spec "Bearer ") in Heq. rewrite (proj2 (strip_prefix_spec _ _ token) eq_refl) in Heq. congruence.
  - exists UNAUTHORIZED. split_and!; [done|by left|]. split; [done|].
    intros (v' & t & i & [= <-] & Ht & _).
    assert (h = "Bearer " +:+ t) as -> by congruence. by rewrite (proj2 (strip_prefix_spec _ _ _) eq_refl) in Hp.
Qed.
End Router.

(** ** Example *)
Module RouterExample.
Import KeysExample AuthExample.

#[export] Instance ascii_headers : HttpHeaders := {|
  header_to_str v :=
    if forallb (λ b, ((32 <=? byte_val b) && (byte_val b <? 127)) || (byte_val b =? 9)) v then Some (str_of v) else None;
|}.
#[export] Instance ascii_headers_laws : HttpHeadersLaws ascii_headers.
Proof.
  split. intros v h. simpl. destruct (forallb _ v) eqn:Hv; [|done]. intros [= <-]. rewrite bytes_str. split; [done|].
  apply Forall_forall. intros b Hb. rewrite forallb_forall in Hv. apply list_elem_of_In, Hv in Hb.
  apply orb_true_iff in Hb as [[_ Hb%Z.ltb_lt]%andb_true_iff|Hb%Z.eqb_eq]; lia.
Qed.
Definition api_config : DynamicConfig := DynamicConfig_new (policy [key_a; key_b]).
Definition bearer (token : string) : option (list byte) := Some (bytes_of ("Bearer " +:+ token)).

Lemma router_answers_witness :
  ∃ status, build_router (config_identity_provider 99 api_config) (bearer "alk_a-token") = Ret status
    ∧ (status = 401 ∨ status = 404)
    ∧ (status = 404 ↔ ∃ v token i, bearer "alk_a-token" = Some v ∧ header_to_str v = Some ("Bearer " +:+ token)
         ∧ config_resolve_from_token 99 api_config (bytes_of token) = Ret (Some i)).
Proof. apply (router_answers 99 api_config (bearer "alk_a-token")). Defined.

(** With a token that is known, and after it has expired. *)
Example bearer_statuses :
  (build_router (config_identity_provider 99 api_config) (bearer "alk_a-token"),
   build_router (config_identity_provider 100 api_config) (bearer "alk_a-token")) = (Ret 404, Ret 401).
Proof. vm_compute. reflexivity. Qed.
End RouterExample.
