(* ===== verification/Server.v ===== *)
(** * The server: protocol detection, accept loop and shutdown
    (server/stealth.rs, server/serve.rs)

    [srv_step] is the interleaving semantics of [Server::run_stream]: the steps
    of the accept loop and of the shutdown that disconnects, waits and aborts
    ([srv_loop_step]), and those of their surroundings ([srv_env_step]): the
    listener, one task per connection, the running sessions.  The SSH protocol
    engine itself ([russh::server::run_stream]) is not modelled; that it takes
    over a connection, ends, fails, or lets its queue of messages fill up, are
    steps that may happen at any time. *)
From S2P Require Import Prelude RustStd Net Forwarding Keys AuthPolicy DynConfig RateLimit Socket.
From S2P Require Import ServerHandler RawFraming ServeConfig.
From Stdlib Require Import Ascii Strings.Byte.
#[local] Open Scope nat_scope.

(** ** Stealth (server/stealth.rs) *)
Definition SSH_BANNER_PREFIX : list byte := bytes_of "SSH-2.0-".
Definition FAKE_NGINX_404 : list byte :=
  bytes_of ("HTTP/1.1 404 Not Found" +:+ crlf +:+ "Server: nginx" +:+ crlf +:+ crlf).

Inductive ProtocolDetection := DetectSsh | DetectHttp.

(** [tokio::io::BufReader]: what it holds, and the stream behind it. *)
Record BufReader := mkBufReader { br_buf : list byte; br_inner : Sock }.
Definition BUF_CAPACITY : nat := 8192.

(** [fill_buf] on a fresh reader; nothing is consumed. *)
Definition fill_buf (s : Sock) : BufReader * result (list byte) IoErr :=
  match read_some BUF_CAPACITY s with
  | (s', Ok buf) => (mkBufReader buf s', Ok buf)
  | (s', Err e) => (mkBufReader [] s', Err e)
  end.

Definition detect_buf (filled : result (list byte) IoErr) : ProtocolDetection :=
  let n := length SSH_BANNER_PREFIX in
  match filled with
  | Ok buf =>
      if n <=? length buf then
        if bool_decide (take n buf = SSH_BANNER_PREFIX) then DetectSsh else DetectHttp
      else if negb (length buf =? 0) then
        if bool_decide (SSH_BANNER_PREFIX `prefix_of` buf) then DetectSsh else DetectHttp
      else DetectHttp
  | Err _ => DetectHttp
  end.

Definition detect_protocol (s : Sock) : ProtocolDetection * BufReader :=
  let '(reader, filled) := fill_buf s in (detect_buf filled, reader).

(** The answer to a scanner; failures are ignored. *)
Definition send_fake_nginx_404 (reader : BufReader) : BufReader :=
  let s := (write_all FAKE_NGINX_404 (br_inner reader)).1 in
  mkBufReader (br_buf reader) (shutdown s).1.

Definition validate_stealth_config (stealth transport_is_tls : bool) : result unit string :=
  if stealth && negb transport_is_tls
  then Err "stealth mode requires TLS transport (--transport tls)" else Ok ().

(** How [handle_connection] serves a stream: as SSH, directly or through the
    reader that peeked at it, or as HTTP. *)
Inductive Route := ToSsh (s : Sock) | ToSshBuffered (r : BufReader) | ToHttp (r : BufReader).

Definition route_connection (stealth transport_is_tls : bool) (s : Sock) : Route :=
  if stealth && transport_is_tls then
    match detect_protocol s with
    | (DetectHttp, reader) => ToHttp reader
    | (DetectSsh, reader) => ToSshBuffered reader
    end
  else ToSsh s.

(** The bytes the protocol that was chosen will read. *)
Definition route_data (r : Route) : list byte :=
  match r with
  | ToSsh s => sk_data s
  | ToSshBuffered r | ToHttp r => br_buf r ++ sk_data (br_inner r)
  end.

Lemma fill_buf_spec s :
  (∀ e i, sk_in s ≠ Err e :: i) →
  ∃ buf s', fill_buf s = (mkBufReader buf s', Ok buf) ∧ buf ++ sk_data s' = sk_data s ∧
    buf = match sk_in s with Ok c :: _ => take BUF_CAPACITY c | _ => [] end.
Proof.
  intros Hne. unfold fill_buf, read_some.
  destruct (sk_in s) as [|[[|b c]|e] i] eqn:Hin; [|..|by destruct (Hne e i)].
  - exists [], s. by rewrite Hin.
  - exists [], s. by rewrite Hin.
  - generalize BUF_CAPACITY as cap. intros cap.
    destruct (cap <? length (b :: c)) eqn:Hlt.
    + apply Nat.ltb_lt in Hlt. eexists _, _. split; [done|]. split; [|done].
      rewrite set_in_in. assert (drop cap (b :: c) ≠ []) as Hd.
      { intros Hd. apply (f_equal length) in Hd. rewrite length_drop in Hd. cbn [length] in *. lia. }
      destruct (drop cap (b :: c)) as [|x l] eqn:Hdr; [done|]. cbn [data].
      rewrite <-Hdr, app_assoc, take_drop. done.
    + apply Nat.ltb_ge in Hlt. eexists _, _. split; [done|]. split; [done|].
      by rewrite take_ge.
Qed.

Lemma detect_buf_ssh buf : detect_buf (Ok buf) = DetectSsh ↔ SSH_BANNER_PREFIX `prefix_of` buf.
Proof.
  unfold detect_buf. generalize SSH_BANNER_PREFIX as p. intros p.
  destruct (length p <=? length buf) eqn:Hle.
  - case_bool_decide as Ht; [|split; [done|]].
    + split; [|done]. intros _. rewrite <-Ht. apply prefix_take.
    + intros [k ->]. by rewrite take_app_length in Ht.
  - apply Nat.leb_gt in Hle. assert (¬ p `prefix_of` buf) as Hn by (intros ?%prefix_length; lia).
    rewrite bool_decide_false by done. by destruct (negb _).
Qed.

(** The buffer holds enough of the piece to see the banner. *)
Lemma banner_in_buffer s :
  SSH_BANNER_PREFIX `prefix_of` match sk_in s with Ok c :: _ => take BUF_CAPACITY c | _ => [] end ↔
  ∃ c i, sk_in s = Ok c :: i ∧ SSH_BANNER_PREFIX `prefix_of` c.
Proof.
  split.
  - destruct (sk_in s) as [|[c|e] i]; try (intros Hp%prefix_length; simpl in Hp; lia).
    intros Hp. exists c, i. split; [done|]. etrans; [exact Hp|]. apply prefix_take.
  - intros (c & i & -> & k & ->). exists (take (BUF_CAPACITY - length SSH_BANNER_PREFIX) k).
    rewrite take_app, (take_ge SSH_BANNER_PREFIX); [done|]. apply Nat.leb_le. vm_compute. reflexivity.
Qed.

(** Stealth routing.  Without stealth on a TLS listener every connection is
    SSH.  With it, a connection goes to SSH exactly when the first piece that
    arrives starts with the SSH banner, and to the web side otherwise; either
    way the chosen side reads the whole stream from its first byte, the peek
    having consumed nothing. *)
Theorem stealth_routes stealth tls s :
  (∀ e i, sk_in s ≠ Err e :: i) →
  let r := route_connection stealth tls s in
  route_data r = sk_data s ∧
  ((∃ h, r = ToHttp h) ↔
     stealth = true ∧ tls = true ∧
     ¬ ∃ c i, sk_in s = Ok c :: i ∧ SSH_BANNER_PREFIX `prefix_of` c).
Proof.
  intros Hne r. unfold r, route_connection.
  destruct (stealth && tls) eqn:Hst.
  2: { split; [done|]. split; [by intros [h ?]|]. intros (-> & -> & _). done. }
  apply andb_true_iff in Hst as [-> ->]. unfold detect_protocol.
  destruct (fill_buf_spec s Hne) as (buf & s' & -> & Hd & ->).
  pose proof (detect_buf_ssh (match sk_in s with Ok c :: _ => take BUF_CAPACITY c | _ => [] end)) as Hb.
  rewrite banner_in_buffer in Hb.
  destruct (detect_buf _); (split; [exact Hd|]).
  - split; [by intros [h ?]|]. intros (_ & _ & Hn). by destruct Hn; apply Hb.
  - split; [|eauto]. intros _. split_and!; [done..|]. by intros Hp%Hb.
Qed.

(** A banner whose first piece is shorter than its prefix goes to the web side,
    although the whole stream starts with it. *)
Lemma short_first_piece s c i :
  sk_in s = Ok c :: i → length c < length SSH_BANNER_PREFIX →
  ∃ h, route_connection true true s = ToHttp h.
Proof.
  intros Hin Hlen. unfold route_connection, detect_protocol. simpl.
  destruct (fill_buf_spec s) as (buf & s' & -> & _ & Hbuf); [by rewrite Hin|].
  destruct (detect_buf (Ok buf)) eqn:Hb; [|eauto]. apply detect_buf_ssh, prefix_length in Hb.
  rewrite Hbuf, Hin, length_take in Hb. lia.
Qed.

(** [handle_http_stealth], with and without the [http] feature: the answer on
    the stream, or the bytes the router is given. *)
Definition handle_http_stealth (http : bool) (reader : BufReader) : BufReader + list byte :=
  if http then inr (br_buf reader ++ sk_data (br_inner reader)) else inl (send_fake_nginx_404 reader).

(** ** The server (server/serve.rs) *)
Section Server.
Context `{SshKeys, IpNetworkLib}.

(** A connection's task: before it is known what the stream is, after [russh]
    has taken it over, and while it is served as HTTP. *)
Inductive ConnPhase := Connecting | Running | Web.
Record Conn := mkConnection { c_id : nat; c_phase : ConnPhase; c_handler : ServerHandler }.

(** Where the accept loop is: at its head, waiting in [select!]; in [shutdown],
    disconnecting the sessions with their list locked, in its pause, or past
    it. *)
Inductive LoopPc := AtHead | Waiting | Disconnecting (todo : list nat) | Draining | Stopped.
Definition sessions_locked (pc : LoopPc) : bool := match pc with Disconnecting _ => true | _ => false end.

Record Srv := mkSrv {
  srv_proxy : option ProxyConfig;
  srv_transport : TransportKind;
  srv_stealth : bool;
  srv_max_auth : nat;
  srv_limiter : ConnectionRateLimiter;
  srv_flag : bool;
  srv_pc : LoopPc;
  srv_conns : list Conn;
  srv_pushing : gset nat;             (* tasks about to record their session *)
  srv_sessions : list nat;
  srv_full : gset nat;                (* sessions whose queue of messages is full *)
  srv_told : gset nat;                (* sessions whose queue took the shutdown's disconnect *)
}.

(** [Server::new], ready to run a stream listener. *)
Definition server_new {Algorithm} (static : StaticConfig (Algorithm := Algorithm)) (kind : TransportKind)
    (stealth : bool) : Srv :=
  mkSrv (st_proxy_config static) kind stealth (st_max_auth_attempts static)
    (limiter_new (st_max_connections_per_ip static)) false AtHead [] ∅ [] ∅ ∅.

(** [Server::new] on options, then [Server::run]: the first listener is served,
    and only if it is a stream listener; [expect] panics if there is none. *)
Definition server_start `{FileSystem} {Algorithm} (algorithm : PrivateKey → Algorithm) (o : ServeOptions)
    : outcome (result (option Srv) ConfigError) :=
  let! built := from_serve_options algorithm o in
  match built with
  | Err e => Ret (Err e)
  | Ok (static, _) =>
      match st_listeners static with
      | [] => Panic
      | StreamListener c :: _ => Ret (Ok (Some (server_new static (sl_transport_kind c) (sl_stealth c))))
      | HttpListener _ :: _ | DnsListener _ :: _ => Ret (Ok None)
      end
  end.

Definition set_loop (s : Srv) (pc : LoopPc) : Srv :=
  mkSrv (srv_proxy s) (srv_transport s) (srv_stealth s) (srv_max_auth s) (srv_limiter s) (srv_flag s) pc
    (srv_conns s) (srv_pushing s) (srv_sessions s) (srv_full s) (srv_told s).
Definition set_conns (s : Srv) (l : ConnectionRateLimiter) (cs : list Conn) : Srv :=
  mkSrv (srv_proxy s) (srv_transport s) (srv_stealth s) (srv_max_auth s) l (srv_flag s) (srv_pc s) cs
    (srv_pushing s) (srv_sessions s) (srv_full s) (srv_told s).

(** One turn of the loop with an accepted stream: the handler is made, and the
    connection's task spawned unless it is over the limit. *)
Definition accept_connection (s : Srv) (id : nat) (remote : option SocketAddr) : Srv :=
  let '(h, l) := handler_new (srv_proxy s) remote (srv_transport s) (srv_limiter s) (srv_max_auth s) in
  let s := set_loop s AtHead in
  if connection_allowed h then set_conns s l (mkConnection id Connecting h :: srv_conns s)
  else set_conns s (handler_drop h l) (srv_conns s).

(** The session's task is spawned; then [sessions.lock().await.push(..)]. *)
Definition start_session (s : Srv) (id : nat) : Srv :=
  mkSrv (srv_proxy s) (srv_transport s) (srv_stealth s) (srv_max_auth s) (srv_limiter s) (srv_flag s)
    (srv_pc s) (srv_conns s) ({[id]} ∪ srv_pushing s) (srv_sessions s) (srv_full s) (srv_told s).
Definition push_session (s : Srv) (id : nat) : Srv :=
  mkSrv (srv_proxy s) (srv_transport s) (srv_stealth s) (srv_max_auth s) (srv_limiter s) (srv_flag s)
    (srv_pc s) (srv_conns s) (srv_pushing s ∖ {[id]}) (srv_sessions s ++ [id]) (srv_full s) (srv_told s).

(** [handle.disconnect(..).await], taken by the session's queue. *)
Definition tell_session (s : Srv) (id : nat) : Srv :=
  mkSrv (srv_proxy s) (srv_transport s) (srv_stealth s) (srv_max_auth s) (srv_limiter s) (srv_flag s)
    (srv_pc s) (srv_conns s) (srv_pushing s) (srv_sessions s) (srv_full s) ({[id]} ∪ srv_told s).

(** [sessions.drain(..)], aborting each [join]: the task that waits for the
    session's end.  The session has a task of its own, which [russh] spawned and
    which goes on with its handler when the one that waits is gone. *)
Definition abort_sessions (s : Srv) : Srv :=
  mkSrv (srv_proxy s) (srv_transport s) (srv_stealth s) (srv_max_auth s) (srv_limiter s) (srv_flag s)
    Stopped (srv_conns s) (srv_pushing s) [] (srv_full s) (srv_told s).

(** [Server::shutdown] after the flag is set: with the list locked, a disconnect
    is sent to each session, which waits for room in the session's queue and
    fails if the session has ended; then the pause, and the abort of what is
    left. *)
Inductive srv_shutdown_step : Srv → Srv → Prop :=
| srv_disconnect s id todo :
    srv_pc s = Disconnecting (id :: todo) → id ∈ c_id <$> srv_conns s → id ∉ srv_full s →
    srv_shutdown_step s (tell_session (set_loop s (Disconnecting todo)) id)
| srv_disconnect_failed s id todo :
    srv_pc s = Disconnecting (id :: todo) → id ∉ c_id <$> srv_conns s →
    srv_shutdown_step s (set_loop s (Disconnecting todo))
| srv_disconnected s : srv_pc s = Disconnecting [] → srv_shutdown_step s (set_loop s Draining)
| srv_drain s : srv_pc s = Draining → srv_shutdown_step s (abort_sessions s).

(** What the loop does by itself: its head looks at the flag, [select!] sees the
    flag's change, and then the shutdown. *)
Inductive srv_loop_step : Srv → Srv → Prop :=
| srv_wait s : srv_pc s = AtHead → srv_flag s = false → srv_loop_step s (set_loop s Waiting)
| srv_break s : srv_pc s = AtHead → srv_flag s = true → srv_loop_step s (set_loop s (Disconnecting (srv_sessions s)))
| srv_changed s :
    srv_pc s = Waiting → srv_flag s = true → srv_loop_step s (set_loop s (Disconnecting (srv_sessions s)))
| srv_shutdown s s' : srv_shutdown_step s s' → srv_loop_step s s'.

Definition set_signal (s : Srv) (flag : bool) (full : gset nat) : Srv :=
  mkSrv (srv_proxy s) (srv_transport s) (srv_stealth s) (srv_max_auth s) (srv_limiter s) flag (srv_pc s)
    (srv_conns s) (srv_pushing s) (srv_sessions s) full (srv_told s).

(** What happens around it. *)
Inductive srv_env_step : Srv → Srv → Prop :=
(** The other branch of [select!]: a connection, or a failed accept. *)
| srv_accept s id remote :
    srv_pc s = Waiting → id ∉ c_id <$> srv_conns s → id ∉ srv_sessions s → id ∉ srv_pushing s →
    srv_env_step s (accept_connection s id remote)
| srv_accept_failed s : srv_pc s = Waiting → srv_env_step s (set_loop s AtHead)
(** [shutdown_tx.send(true)], by a signal or through a [shutdown_sender]. *)
| srv_signal s : srv_env_step s (set_signal s true (srv_full s))
(** A connection's task: SSH takes over, and the session is recorded once the
    list is free; or the stream is served as HTTP; or it fails, and the handler
    is dropped. *)
| srv_established s cs1 id h cs2 stream :
    srv_conns s = cs1 ++ mkConnection id Connecting h :: cs2 →
    (∀ r, route_connection (srv_stealth s) (is_tls (srv_transport s)) stream ≠ ToHttp r) →
    srv_env_step s (start_session (set_conns s (srv_limiter s) (cs1 ++ mkConnection id Running h :: cs2)) id)
| srv_web s cs1 id h cs2 stream r :
    srv_conns s = cs1 ++ mkConnection id Connecting h :: cs2 →
    route_connection (srv_stealth s) (is_tls (srv_transport s)) stream = ToHttp r →
    srv_env_step s (set_conns s (srv_limiter s) (cs1 ++ mkConnection id Web h :: cs2))
| srv_recorded s id :
    id ∈ srv_pushing s → sessions_locked (srv_pc s) = false → srv_env_step s (push_session s id)
| srv_failed s cs1 id h cs2 :
    srv_conns s = cs1 ++ mkConnection id Connecting h :: cs2 →
    srv_env_step s (set_conns s (handler_drop h (srv_limiter s)) (cs1 ++ cs2))
(** The end of a session or of an HTTP connection. *)
| srv_closed s cs1 id phase h cs2 :
    srv_conns s = cs1 ++ mkConnection id phase h :: cs2 → phase ≠ Connecting →
    srv_env_step s (set_conns s (handler_drop h (srv_limiter s)) (cs1 ++ cs2))
(** The queues of the sessions fill up and empty. *)
| srv_queues s full : srv_env_step s (set_signal s (srv_flag s) full).

Inductive srv_own_step : Srv → Srv → Prop :=
| srv_loop s s' : srv_loop_step s s' → srv_own_step s s'
| srv_env s s' : srv_env_step s s' → srv_own_step s s'.

(** And the SSH events of a session. *)
Inductive srv_step : Srv → Srv → Prop :=
| srv_own s s' : srv_own_step s s' → srv_step s s'
| srv_event s cs1 id h cs2 ev :
    srv_conns s = cs1 ++ mkConnection id Running h :: cs2 →
    srv_step s (set_conns s (srv_limiter s) (cs1 ++ mkConnection id Running (handler_step h ev).1 :: cs2)).

(** ** Invariant *)
(** The address a connection comes from. *)
Definition conn_ip (c : Conn) : option IpAddr := sock_ip <$> h_remote_addr (c_handler c).

Record srv_ok (max : nat) (s : Srv) : Prop := {
  sv_max : max_per_ip (srv_limiter s) = max;
  sv_counts : counts (srv_limiter s) (omap conn_ip (srv_conns s));
  sv_limit : max ≠ 0 → ∀ ip, occurrences ip (omap conn_ip (srv_conns s)) ≤ max;
  sv_allowed : ∀ c, c ∈ srv_conns s → connection_allowed (c_handler c) = true;
}.

Lemma handler_drop_max h l : max_per_ip (handler_drop h l) = max_per_ip l.
Proof. unfold handler_drop. repeat case_match; by rewrite ?on_disconnect_max. Qed.

Lemma handler_drop_counts l cs1 c cs2 :
  connection_allowed (c_handler c) = true →
  counts l (omap conn_ip (cs1 ++ c :: cs2)) →
  counts (handler_drop (c_handler c) l) (omap conn_ip (cs1 ++ cs2)).
Proof.
  intros Ha. rewrite !omap_app. cbn [omap list_omap]. unfold conn_ip at 2, handler_drop. rewrite Ha.
  destruct (h_remote_addr (c_handler c)) as [addr|]; simpl; [apply counts_disconnect|done].
Qed.

Lemma occurrences_drop ip cs1 c cs2 :
  occurrences ip (omap conn_ip (cs1 ++ cs2)) ≤ occurrences ip (omap conn_ip (cs1 ++ c :: cs2)).
Proof.
  rewrite !omap_app, !occurrences_app. cbn [omap list_omap]. destruct (conn_ip c); simpl; [|lia].
  case_decide; lia.
Qed.

(** Removing one connection and dropping its handler keeps the invariant. *)
Lemma drop_conn_ok max s cs1 c cs2 :
  srv_ok max s → srv_conns s = cs1 ++ c :: cs2 →
  srv_ok max (set_conns s (handler_drop (c_handler c) (srv_limiter s)) (cs1 ++ cs2)).
Proof.
  intros [Hmax Hc Hl Ha] Hcs. rewrite Hcs in *. split; simpl.
  - by rewrite handler_drop_max.
  - apply handler_drop_counts; [|done]. apply Ha. set_solver.
  - intros Hne ip. specialize (Hl Hne ip). pose proof (occurrences_drop ip cs1 c cs2). lia.
  - intros c' Hin. apply Ha. set_solver.
Qed.

(** Replacing a connection by one counted under the same address. *)
Lemma replace_conn_ok max s cs1 c c' cs2 :
  srv_ok max s → srv_conns s = cs1 ++ c :: cs2 → conn_ip c' = conn_ip c →
  connection_allowed (c_handler c') = connection_allowed (c_handler c) →
  srv_ok max (set_conns s (srv_limiter s) (cs1 ++ c' :: cs2)).
Proof.
  intros [Hmax Hc Hl Ha] Hcs Hip Hal. rewrite Hcs in *.
  assert (omap conn_ip (cs1 ++ c' :: cs2) = omap conn_ip (cs1 ++ c :: cs2)) as Heq
    by (rewrite !omap_app; cbn [omap list_omap]; by rewrite Hip).
  split; simpl; [done|by rewrite Heq|by rewrite Heq|].
  intros c0 [Hin|[->|Hin]%elem_of_cons]%elem_of_app; [|rewrite Hal|]; apply Ha; set_solver.
Qed.

(** What is neither a connection nor the limiter plays no role. *)
Lemma same_conns_ok max s s' :
  srv_conns s' = srv_conns s → srv_limiter s' = srv_limiter s → srv_ok max s → srv_ok max s'.
Proof. intros Hc Hl [Hmax Hcs Hle Ha]. split; by rewrite ?Hc, ?Hl. Qed.

Lemma accept_connection_ok max s id remote : srv_ok max s → srv_ok max (accept_connection s id remote).
Proof.
  intros [Hmax Hc Hl Ha]. unfold accept_connection, handler_new.
  destruct remote as [addr|]; [destruct (limiter_check (srv_limiter s) (sock_ip addr)) eqn:Hchk|];
    simpl; split; simpl; try done;
    try (intros c [->|Hin]%elem_of_cons; [done|by apply Ha]).
  - by apply counts_connect.
  - intros Hne ip. case_decide as Hip; [subst ip|by apply Hl].
    unfold limiter_check in Hchk. rewrite Hmax, (counts_count _ _ _ Hc) in Hchk.
    destruct (Nat.eqb_spec max 0); [done|]. by apply Nat.ltb_lt.
Qed.

Lemma event_ok max s cs1 id h cs2 ev :
  srv_ok max s → srv_conns s = cs1 ++ mkConnection id Running h :: cs2 →
  srv_ok max (set_conns s (srv_limiter s) (cs1 ++ mkConnection id Running (handler_step h ev).1 :: cs2)).
Proof.
  intros Hok Hc. pose proof (run_inv h [ev]) as Hinv. simpl in Hinv.
  destruct (handler_step h ev) as [h' o]. simpl in *. eapply replace_conn_ok; [done|done|..].
  - unfold conn_ip. simpl. by rewrite (inv_remote _ _ _ Hinv).
  - exact (inv_allowed _ _ _ Hinv).
Qed.

(** The loop and the shutdown touch neither the connections nor the limiter. *)
Lemma loop_step_conns s s' :
  srv_loop_step s s' → srv_conns s' = srv_conns s ∧ srv_limiter s' = srv_limiter s ∧
    srv_proxy s' = srv_proxy s ∧ srv_transport s' = srv_transport s ∧ srv_stealth s' = srv_stealth s.
Proof. by intros [| | |? ? []]. Qed.

Lemma srv_step_ok max s s' : srv_step s s' → srv_ok max s → srv_ok max s'.
Proof.
  intros Hstep Hok. destruct Hstep as [s s' Hown|s cs1 id h cs2 ev Hc]; [|by apply event_ok].
  destruct Hown as [s s' Hloop|s s' Henv].
  { destruct (loop_step_conns _ _ Hloop) as (Hc & Hl & _). by apply (same_conns_ok max s). }
  destruct Henv as [s id remote| |s|s cs1 id h cs2 stream Hc|s cs1 id h cs2 stream r Hc|s id|s cs1 id h cs2 Hc
    |s cs1 id ph h cs2 Hc|s full]; try (by apply (same_conns_ok max s)).
  - by apply accept_connection_ok.
  - apply (same_conns_ok max (set_conns s (srv_limiter s) (cs1 ++ mkConnection id Running h :: cs2))); [done..|].
    by eapply replace_conn_ok.
  - by eapply replace_conn_ok.
  - by apply (drop_conn_ok max s cs1 (mkConnection id Connecting h) cs2).
  - by apply (drop_conn_ok max s cs1 (mkConnection id ph h) cs2).
Qed.

Lemma server_new_ok {Algorithm} (static : StaticConfig (Algorithm := Algorithm)) kind stealth :
  srv_ok (st_max_connections_per_ip static) (server_new static kind stealth).
Proof. split; simpl; [done|apply counts_new|intros; lia|]; by intros c Hc%elem_of_nil. Qed.

Lemma srv_reachable_ok {Algorithm} (static : StaticConfig (Algorithm := Algorithm)) kind stealth s :
  rtc srv_step (server_new static kind stealth) s → srv_ok (st_max_connections_per_ip static) s.
Proof.
  intros Hr. eapply (rtc_ind_r (srv_ok (st_max_connections_per_ip static)) (server_new static kind stealth));
    [apply server_new_ok| |exact Hr]. intros s1 s2 _ Hs Hok. by eapply srv_step_ok.
Qed.

(** Past the loop. *)
Definition loop_left (pc : LoopPc) : bool := match pc with AtHead | Waiting => false | _ => true end.

(** Past the loop nothing is accepted. *)
Lemma left_step s s' :
  srv_step s s' → loop_left (srv_pc s) = true →
  loop_left (srv_pc s') = true ∧ c_id <$> srv_conns s' ⊆ c_id <$> srv_conns s.
Proof.
  intros Hstep Hpc. destruct Hstep as [s s' Hown|s cs1 id h cs2 ev Hc]; [destruct Hown as [s s' Hloop|s s' Henv]|].
  - destruct (loop_step_conns _ _ Hloop) as (-> & _). split; [|done].
    destruct Hloop as [s Hp|s Hp|s Hp|s s' []]; [rewrite Hp in Hpc..|done|done|done|done]; done.
  - destruct Henv as [s id remote Hp|s Hp|s|s cs1 id h cs2 stream Hc|s cs1 id h cs2 stream r Hc|s id
      |s cs1 id h cs2 Hc|s cs1 id ph h cs2 Hc|s full]; try (by rewrite Hp in Hpc); simpl; (split; [done|]);
      rewrite ?Hc, ?fmap_app; set_solver.
  - simpl. rewrite Hc, !fmap_app. split; [done|]. set_solver.
Qed.

Lemma left_run s s' :
  rtc srv_step s s' → loop_left (srv_pc s) = true →
  loop_left (srv_pc s') = true ∧ c_id <$> srv_conns s' ⊆ c_id <$> srv_conns s.
Proof.
  induction 1 as [|s1 s2 s3 Hs _ IH]; intros Hl; [done|]. destruct (left_step _ _ Hs Hl) as [Hl2 Hsub].
  destruct (IH Hl2) as [? ?]. split; [done|]. by etrans.
Qed.

(** C11: the running server keeps its limit per address.  In every state the
    server can reach, through any interleaving of accepts, connection tasks,
    SSH events, closings and the shutdown, the limiter's table counts exactly
    the connections that exist, and, when a maximum is configured, no address
    has more of them than that. *)
Theorem server_limits_connections {Algorithm} (static : StaticConfig (Algorithm := Algorithm)) kind stealth s :
  rtc srv_step (server_new static kind stealth) s →
  counts (srv_limiter s) (omap conn_ip (srv_conns s)) ∧
  (st_max_connections_per_ip static ≠ 0 →
   ∀ ip, occurrences ip (omap conn_ip (srv_conns s)) ≤ st_max_connections_per_ip static).
Proof. intros Hr%srv_reachable_ok. by destruct Hr. Qed.

(** The disconnects sent so far: the sessions are those done and those to do. *)
Definition telling (sessions : list nat) (told0 : gset nat) (s : Srv) : Prop :=
  ∃ done todo, sessions = done ++ todo ∧
    match srv_pc s with
    | Disconnecting todo' => todo' = todo
    | Draining | Stopped => todo = []
    | AtHead | Waiting => False
    end ∧
    (∀ id, id ∈ done → id ∈ srv_told s ∨ id ∉ c_id <$> srv_conns s) ∧
    (∀ id, id ∈ srv_told s → id ∈ told0 ∨ id ∈ done).

Lemma env_step_told s s' :
  srv_env_step s s' → loop_left (srv_pc s) = true →
  srv_pc s' = srv_pc s ∧ srv_told s' = srv_told s.
Proof. by intros [s0 id remote Hp|s0 Hp| | | | | | |] Hl; rewrite ?Hp in Hl. Qed.

Lemma telling_step sessions told0 s s' :
  srv_step s s' → telling sessions told0 s → telling sessions told0 s'.
Proof.
  intros Hstep (dn & todo & Heq & Hpc & Hd & Ht).
  assert (loop_left (srv_pc s) = true) as Hl by (by destruct (srv_pc s)).
  destruct (left_step _ _ Hstep Hl) as [_ Hsub].
  assert (∀ s', c_id <$> srv_conns s' ⊆ c_id <$> srv_conns s → srv_pc s' = srv_pc s →
            srv_told s' = srv_told s → telling sessions told0 s') as Hkeep.
  { intros s0 Hs0 Hp0 Ht0. exists dn, todo. rewrite Hp0, Ht0. split_and!; [done..| |done].
    intros id Hid. destruct (Hd id Hid); [by left|right; set_solver]. }
  destruct Hstep as [s s' Hown|s cs1 id h cs2 ev Hc]; [|by apply Hkeep]. destruct Hown as [s s' Hloop|s s' Henv].
  2: { destruct (env_step_told _ _ Henv Hl) as [? ?]. by apply Hkeep. }
  destruct Hloop as [s Hp|s Hp|s Hp|s s' Hshut]; try (by rewrite Hp in Hl).
  destruct Hshut as [s id todo' Hp Hid Hfull|s id todo' Hp Hid|s Hp|s Hp]; rewrite Hp in Hpc; simplify_eq.
  - exists (dn ++ [id]), todo'. simpl. split_and!; [by rewrite <-app_assoc|done|..]; set_solver.
  - exists (dn ++ [id]), todo'. simpl. split_and!; [by rewrite <-app_assoc|done|..]; set_solver.
  - by exists dn, [].
  - by exists dn, [].
Qed.

(** C35: what the shutdown does to the sessions and the accepting.  From the
    step in which the loop is left, from [s0] to [s1], no connection is accepted
    any more.  When the pause has come, each session that was recorded in [s0]
    has been sent a disconnect or has ended by itself, and no other session has
    been sent one.  And the abort after the pause empties the list and nothing
    else: a session that has not ended goes on, with its handler and its place
    in the limiter. *)
Theorem shutdown_tells_sessions s0 s1 s :
  loop_left (srv_pc s0) = false → srv_loop_step s0 s1 → loop_left (srv_pc s1) = true →
  rtc srv_step s1 s →
  (∀ s', rtc srv_step s s' → c_id <$> srv_conns s' ⊆ c_id <$> srv_conns s0) ∧
  (srv_pc s = Draining ∨ srv_pc s = Stopped →
     (∀ id, id ∈ srv_sessions s0 → id ∈ srv_told s ∨ id ∉ c_id <$> srv_conns s) ∧
     (∀ id, id ∈ srv_told s → id ∈ srv_told s0 ∨ id ∈ srv_sessions s0)) ∧
  (∀ s', srv_pc s = Draining → srv_loop_step s s' →
     srv_pc s' = Stopped ∧ srv_sessions s' = [] ∧ srv_conns s' = srv_conns s ∧ srv_limiter s' = srv_limiter s).
Proof.
  intros Hl0 Hloop Hl1 Hr.
  assert (c_id <$> srv_conns s1 = c_id <$> srv_conns s0 ∧ telling (srv_sessions s0) (srv_told s0) s1) as [Hc1 Ht1].
  { destruct Hloop as [s0 Hp Hf|s0 Hp Hf|s0 Hp Hf|s0 s1 Hs]; [done|..].
    1,2: by split; [done|]; exists [], (srv_sessions s0); split_and!; [done|done|set_solver|set_solver].
    by destruct Hs as [s0 ? ? Hp|s0 ? ? Hp|s0 Hp|s0 Hp]; rewrite Hp in Hl0. }
  split_and!.
  - intros s' Hr'. rewrite <-Hc1. apply left_run; [by etrans|done].
  - assert (telling (srv_sessions s0) (srv_told s0) s) as (dn & todo & Heq & Hpc & Hd & Ht).
    { eapply (rtc_ind_r (telling (srv_sessions s0) (srv_told s0)) s1); [done| |exact Hr].
      intros ? ? _. apply telling_step. }
    intros Hp. assert (todo = []) as -> by (by destruct Hp as [Hp|Hp]; rewrite Hp in Hpc).
    rewrite app_nil_r in Heq. subst dn. done.
  - intros s' Hp Hs. destruct Hs as [| | |? ? []]; try congruence. done.
Qed.

(** A connection that is still being set up when the shutdown drains the
    sessions is not even told: its session can start afterwards, and is then
    left running by a server that has stopped. *)
Theorem late_session_survives_shutdown s cs1 id h cs2 :
  srv_pc s = Draining → srv_conns s = cs1 ++ mkConnection id Connecting h :: cs2 → srv_stealth s = false →
  ∃ s', rtc srv_step s s' ∧ srv_pc s' = Stopped ∧ mkConnection id Running h ∈ srv_conns s' ∧ id ∈ srv_sessions s'.
Proof.
  intros Hpc Hcs Hst. eexists. split; [|split_and!].
  - eapply rtc_l; [by apply srv_own, srv_loop, srv_shutdown, srv_drain|].
    eapply rtc_l; [eapply srv_own, srv_env, (srv_established _ cs1 id h cs2 (quiet [] [])); [done|]|].
    { intros r. simpl. by rewrite Hst. }
    apply rtc_once, srv_own, srv_env, (srv_recorded _ id); [simpl; set_solver|done].
  - done.
  - simpl. apply elem_of_app. right. left.
  - simpl. set_solver.
Qed.

(** *** Progress of the shutdown *)
Definition loop_rank (pc : LoopPc) : nat :=
  match pc with Waiting => 4 | AtHead => 3 | Disconnecting _ => 2 | Draining => 1 | Stopped => 0 end.
Definition loop_todo (pc : LoopPc) : nat := match pc with Disconnecting todo => length todo | _ => 0 end.
(** How far the loop is from its end, in lexicographic order. *)
Definition nearer (pc pc' : LoopPc) : Prop :=
  loop_rank pc < loop_rank pc' ∨ loop_rank pc = loop_rank pc' ∧ loop_todo pc < loop_todo pc'.

Lemma nearer_wf : well_founded nearer.
Proof.
  intros pc. remember (loop_rank pc) as r eqn:Hr. revert pc Hr. induction (lt_wf r) as [r _ IHr]. intros pc ->.
  remember (loop_todo pc) as t eqn:Ht. revert pc IHr Ht. induction (lt_wf t) as [t _ IHt]. intros pc IHr ->.
  constructor. intros pc' [Hlt|[Heq Hlt]]; [by eapply IHr|]. eapply (IHt _ Hlt pc'); [|done]. by rewrite Heq.
Qed.

Lemma flagged_step s s' :
  srv_step s s' → srv_flag s = true → srv_flag s' = true ∧ (srv_pc s' = srv_pc s ∨ nearer (srv_pc s') (srv_pc s)).
Proof.
  intros Hstep Hfl. destruct Hstep as [s s' Hown|]; [|by split; [|left]]. destruct Hown as [s s' Hloop|s s' Henv].
  - destruct Hloop as [s Hp Hf|s Hp Hf|s Hp Hf|s s' [s0 id todo Hp|s0 id todo Hp|s0 Hp|s0 Hp]]; [congruence|..];
      (split; [done|]); right; unfold nearer; rewrite Hp; simpl; lia.
  - destruct Henv as [s id remote Hp| s Hp| | | | | | |]; try (by split; [|left]);
      unfold accept_connection, nearer; try (destruct (handler_new _ _ _ _ _) as [h l]; destruct (connection_allowed h));
      rewrite Hp; simpl; (split; [done|]); right; lia.
Qed.

(** The shutdown waits for room in the queue of a session that has not ended. *)
Definition waits_for_session (s : Srv) : Prop :=
  ∃ id todo, srv_pc s = Disconnecting (id :: todo) ∧ id ∈ c_id <$> srv_conns s ∧ id ∈ srv_full s.

Lemma loop_steps_or_waits s :
  srv_flag s = true → srv_pc s ≠ Stopped →
  (∃ s', srv_loop_step s s' ∧ nearer (srv_pc s') (srv_pc s)) ↔ ¬ waits_for_session s.
Proof.
  intros Hfl Hns. unfold nearer, waits_for_session. split.
  - intros (s' & Hs & _) (id & todo & Hp & Hid & Hfull).
    destruct Hs as [| | |? ? []]; try congruence; rewrite Hp in *; by simplify_eq.
  - intros Hno. destruct (srv_pc s) as [| |[|id todo]| |] eqn:Hpc; [..|done].
    + eexists. split; [by apply srv_break|simpl; lia].
    + eexists. split; [by apply srv_changed|simpl; lia].
    + eexists. split; [by apply srv_shutdown, srv_disconnected|simpl; lia].
    + destruct (decide (id ∈ c_id <$> srv_conns s)); [destruct (decide (id ∈ srv_full s)); [by destruct Hno; eauto|]|].
      * eexists. split; [by eapply srv_shutdown, srv_disconnect|simpl; lia].
      * eexists. split; [by eapply srv_shutdown, srv_disconnect_failed|simpl; lia].
    + eexists. split; [by apply srv_shutdown, srv_drain|simpl; lia].
Qed.

(** C36: the shutdown comes to its end unless a session holds it up.  Once the
    flag is set no step of the server, its connections or its sessions takes the
    loop back: each leaves it where it is or brings it nearer to its end in a
    well-founded order.  While it has not ended the loop itself, whatever the
    listener does, has a step that brings it nearer, except in one situation:
    when it is a session's turn to be disconnected that has not ended and whose
    queue is full.  Then it has none, and waits for that session. *)
Theorem shutdown_progress s :
  srv_flag s = true →
  well_founded nearer
  ∧ (∀ s', rtc srv_step s s' → srv_flag s' = true ∧ (srv_pc s' = srv_pc s ∨ tc nearer (srv_pc s') (srv_pc s)))
  ∧ (∀ s', rtc srv_step s s' → srv_pc s' ≠ Stopped →
       (∃ s'', srv_loop_step s' s'' ∧ nearer (srv_pc s'') (srv_pc s')) ↔ ¬ waits_for_session s').
Proof.
  intros Hfl. assert (∀ s', rtc srv_step s s' →
    srv_flag s' = true ∧ (srv_pc s' = srv_pc s ∨ tc nearer (srv_pc s') (srv_pc s))) as Hrun.
  { intros s' Hr. eapply (rtc_ind_r (λ s', srv_flag s' = true ∧ (srv_pc s' = srv_pc s ∨ tc nearer (srv_pc s') (srv_pc s))) s);
      [by split; [|left]| |exact Hr].
    intros s1 s2 _ Hs [Hf Hn]. destruct (flagged_step _ _ Hs Hf) as [Hf2 [->|Hn2]]; [done|]. split; [done|]. right.
    destruct Hn as [Heq|Hn]; [rewrite <-Heq; by apply tc_once|by eapply tc_l]. }
  split_and!; [apply nearer_wf|exact Hrun|]. intros s' Hr Hns. apply loop_steps_or_waits; [by apply Hrun|done].
Qed.

(** Sessions are recorded and never forgotten: until the shutdown has drained
    it, the list only grows, also when sessions end. *)
Theorem sessions_only_grow s s' :
  rtc srv_step s s' → srv_pc s' ≠ Stopped → srv_sessions s `prefix_of` srv_sessions s'.
Proof.
  intros Hr. induction Hr as [s|s1 s2 s3 Hs Hr IH]; [done|]. intros Hpc. etrans; [|by apply IH].
  assert (srv_pc s2 = Stopped → srv_pc s3 = Stopped) as Hst.
  { intros Hp. clear -Hr Hp. induction Hr as [|s2 s3 s4 Hs _ IH]; [done|]. apply IH.
    destruct Hs as [s2 s3 Ho|]; [|done]. destruct Ho as [s2 s3 Hl|s2 s3 He].
    - destruct Hl as [| | |? ? []]; congruence.
    - destruct He; try done; congruence. }
  destruct Hs as [s1 s2 Ho|]; [|done]. destruct Ho as [s1 s2 Hl|s1 s2 He].
  - destruct Hl as [| | |? ? []]; [done..|]. by destruct (Hpc (Hst eq_refl)).
  - destruct He as [s id remote| | | | |s id| | |]; try done; [|by apply prefix_app_r].
    unfold accept_connection. destruct (handler_new _ _ _ _ _) as [h l]. by destruct (connection_allowed h).
Qed.
End Server.

(** Starting a server panics only if loading its keys does: validation has made
    sure that there is a listener to take. *)
Theorem server_start_panics `{SshKeys, IpNetworkLib, FileSystem} {Algorithm}
    (algorithm : PrivateKey → Algorithm) o :
  server_start algorithm o = Panic ↔ from_serve_options algorithm o = Panic.
Proof.
  unfold server_start. destruct (from_serve_options algorithm o) as [[[static dynamic]|e]|] eqn:Ho; simpl;
    [|done..]. split; [|done].
  assert (st_listeners static ≠ []) as Hne.
  { revert Ho. unfold from_serve_options. destruct (options_validate o) as [[]|] eqn:Hv; [|done].
    apply options_validate_ok in Hv as [Hne _].
    destruct (load_private_key (so_key o)); [|done].
    destruct (ServerAuth.from_keys_and_ca _ _) as [[cfg|]|]; simpl; [|done..].
    destruct (parse_proxy_config (so_proxy o)); simpl; [|done]. by intros [= <- _]. }
  by destruct (st_listeners static) as [|[]].
Qed.

(** ** Witnesses *)
Module ServerExample.
Import KeysExample AuthExample HandlerExample.

Lemma stealth_routes_witness :
  let s := quiet [Ok (bytes_of "GET /")] [] in
  let r := route_connection true true s in
  route_data r = bytes_of "GET /" ∧
  ((∃ h, r = ToHttp h) ↔
     true = true ∧ true = true ∧
     ¬ ∃ c i, sk_in s = Ok c :: i ∧ SSH_BANNER_PREFIX `prefix_of` c).
Proof. apply (stealth_routes true true (quiet [Ok (bytes_of "GET /")] [])). discriminate. Defined.

(** The first bytes of an SSH banner alone are taken for HTTP. *)
Example split_banner :
  match route_connection true true (quiet [Ok (bytes_of "SSH-"); Ok (bytes_of "2.0-x")] []) with
  | ToHttp r => Some (br_buf r)
  | _ => None
  end = Some (bytes_of "SSH-").
Proof. vm_compute. reflexivity. Qed.

(** One connection per address allowed, one accepted. *)
Definition static : StaticConfig (Algorithm := unit) :=
  mkStaticConfig ModeTcp "0.0.0.0:22" None None None false ("k" : PrivateKey) () 10 1 None None
    [listener_tcp "0.0.0.0:22"].
Definition waiting : Srv := set_loop (server_new static Tcp false) Waiting.
Definition accepted : Srv := accept_connection waiting 0 client.
Definition the_handler : ServerHandler := (handler_new None client Tcp (limiter_new 1) 10).1.

Lemma accepted_reached : rtc srv_step (server_new static Tcp false) accepted.
Proof.
  eapply rtc_l; [by apply srv_own, srv_loop, srv_wait|].
  eapply rtc_l; [apply srv_own, srv_env, (srv_accept waiting 0 client); [done|apply not_elem_of_nil..|apply not_elem_of_empty]|].
  apply rtc_refl.
Qed.

Lemma server_limits_connections_witness :
  counts (srv_limiter accepted) (omap conn_ip (srv_conns accepted)) ∧
  (1 ≠ 0 → ∀ ip, occurrences ip (omap conn_ip (srv_conns accepted)) ≤ 1).
Proof. apply (server_limits_connections static Tcp false accepted accepted_reached). Defined.

(** Told to stop while a session is running and recorded. *)
Definition signalled : Srv :=
  mkSrv None Tcp false 10 (srv_limiter accepted) true AtHead [mkConnection 0 Running the_handler] ∅ [0] ∅ ∅.
Definition leaving : Srv := set_loop signalled (Disconnecting [0]).
Definition draining : Srv :=
  mkSrv None Tcp false 10 (srv_limiter accepted) true Draining [mkConnection 0 Running the_handler] ∅ [0] ∅ {[0]}.

Lemma draining_reached : rtc srv_step leaving draining.
Proof.
  eapply rtc_l; [eapply srv_own, srv_loop, srv_shutdown, (srv_disconnect leaving 0 []);
                 [done|by left|apply not_elem_of_empty]|].
  eapply rtc_l; [by apply srv_own, srv_loop, srv_shutdown, srv_disconnected|]. apply rtc_refl.
Qed.

Lemma shutdown_tells_sessions_witness :
  (0 ∈ srv_told draining ∨ 0 ∉ c_id <$> srv_conns draining) ∧
  srv_conns (abort_sessions draining) = [mkConnection 0 Running the_handler] ∧
  (∀ s', rtc srv_step draining s' → c_id <$> srv_conns s' ⊆ [0]).
Proof.
  destruct (shutdown_tells_sessions signalled leaving draining eq_refl (srv_break signalled eq_refl eq_refl)
              eq_refl draining_reached) as (Hacc & Htold & Habort).
  split; [apply Htold; [left; reflexivity|left]|]. split; [|exact Hacc].
  apply (Habort (abort_sessions draining) eq_refl). apply srv_shutdown, srv_drain. reflexivity.
Defined.

(** The loop goes on from [leaving], unless the session's queue is full. *)
Lemma shutdown_progress_witness :
  (∃ s', srv_loop_step leaving s' ∧ nearer (srv_pc s') (srv_pc leaving)) ∧
  ¬ ∃ s', srv_loop_step (set_signal leaving true {[0]}) s' ∧ nearer (srv_pc s') (Disconnecting [0]).
Proof.
  destruct (shutdown_progress leaving eq_refl) as (_ & _ & Hp). split.
  - apply Hp; [apply rtc_refl|discriminate|]. intros (id & todo & _ & _ & Hf). exact (not_elem_of_empty id Hf).
  - intros Hs. apply (Hp (set_signal leaving true {[0]})) in Hs; [|apply rtc_once, srv_own, srv_env, srv_queues|discriminate].
    apply Hs. exists 0, []. split; [reflexivity|]. split; [left|]. reflexivity.
Defined.

(** Told to stop while the connection is being set up. *)
Definition late : Srv :=
  mkSrv None Tcp false 10 (srv_limiter accepted) true Draining (srv_conns accepted) ∅ [] ∅ ∅.

Lemma late_session_survives_shutdown_witness :
  ∃ s', rtc srv_step late s' ∧ srv_pc s' = Stopped ∧
        mkConnection 0 Running the_handler ∈ srv_conns s' ∧ 0 ∈ srv_sessions s'.
Proof.
  apply (late_session_survives_shutdown late [] 0 the_handler []); reflexivity.
Defined.
End ServerExample.
