(* ===== verification/System.v ===== *)
(** * The running server and its configuration (server/serve.rs, server/handler.rs,
    config/dynamic_config.rs)

    [Server], [ServerHandler] and [DynConfig] put together: every connection of
    a server reads the one configuration cell, through its handler and through
    the identity provider [Server::new] makes, and a [ConfigReloadHandle] may
    replace it at any time.  The machine records every dial together with the
    configuration and the identity it was made under, and every answer to an
    HTTP request: on a stealth listener a connection that does not speak SSH is
    handed to the router, with the same identity provider, or gets a fixed 404
    when the [http] feature is off.  [russh] passes a handler no request but
    authentication before a key has been accepted. *)
From S2P Require Import Prelude RustStd Net Forwarding Keys AuthPolicy DynConfig RateLimit Socket.
From S2P Require Import ServerHandler ServeConfig HttpRouter Server.
From Stdlib Require Import Strings.Byte.
#[local] Open Scope nat_scope.

Section System.
Context `{SshKeys, IpNetworkLib, Sha256, HttpHeaders}.
(** Build setting: the [http] feature. *)
Context (http : bool).

Record DialRecord := mkDialRecord {
  dr_task : DialTask;
  dr_config : DynamicConfig;         (* in force when the channel was opened *)
  dr_identity : Identity;
}.

(** What an HTTP request on a stealth listener gets: the router's answer, or the
    fixed one. *)
Inductive WebAnswer := Routed (status : outcome Z) | FakeNginx.

Record Sys := mkSys {
  sy_srv : Srv;
  sy_config : DynamicConfig;
  sy_past : list DynamicConfig;      (* every configuration so far, the current one included *)
  sy_dials : list DialRecord;
  sy_answers : list (nat * WebAnswer);
}.

Definition sys_new {Algorithm} (static : StaticConfig (Algorithm := Algorithm)) (dynamic : DynamicConfig)
    (kind : TransportKind) (stealth : bool) : Sys :=
  mkSys (server_new static kind stealth) dynamic [dynamic] [] [].

(** Which events [russh] dispatches to a handler. *)
Definition dispatched (h : ServerHandler) (ev : HandlerEvent) : bool :=
  match ev, authenticated_identity h with EvAuth _, _ | _, Some _ => true | _, None => false end.

Definition dials_of (h : ServerHandler) (config : DynamicConfig) (o : HandlerOutput) : list DialRecord :=
  match o with
  | OutChannel _ (Some t) => [mkDialRecord t config (default anonymous (authenticated_identity h))]
  | _ => []
  end.

(** The answer to a request with this Authorization header. *)
Definition web_answer (clock : Z) (config : DynamicConfig) (authorization : option (list byte)) : WebAnswer :=
  if http then Routed (build_router (config_identity_provider clock config) authorization) else FakeNginx.

(** What the server does by itself, and an SSH event of one of its sessions or a
    request on one of its HTTP connections, decided under the configuration in
    force. *)
Inductive sys_run_step : Sys → Sys → Prop :=
| sys_own s v :
    srv_own_step (sy_srv s) v → sys_run_step s (mkSys v (sy_config s) (sy_past s) (sy_dials s) (sy_answers s))
| sys_event s cs1 id h cs2 clock ev h' o :
    srv_conns (sy_srv s) = cs1 ++ mkConnection id Running h :: cs2 → dispatched h ev = true →
    handler_step h (sy_config s, config_identity_provider clock (sy_config s), ev) = (h', o) →
    sys_run_step s
      (mkSys (set_conns (sy_srv s) (srv_limiter (sy_srv s)) (cs1 ++ mkConnection id Running h' :: cs2))
         (sy_config s) (sy_past s) (sy_dials s ++ dials_of h (sy_config s) o) (sy_answers s))
| sys_request s id h clock authorization :
    mkConnection id Web h ∈ srv_conns (sy_srv s) →
    sys_run_step s
      (mkSys (sy_srv s) (sy_config s) (sy_past s) (sy_dials s)
         (sy_answers s ++ [(id, web_answer clock (sy_config s) authorization)])).

(** [ConfigReloadHandle::reload]. *)
Definition sys_reload (s : Sys) (config : DynamicConfig) : Sys :=
  mkSys (sy_srv s) (reload (sy_config s) config) (sy_past s ++ [config]) (sy_dials s) (sy_answers s).

Inductive sys_step : Sys → Sys → Prop :=
| sys_runs s s' : sys_run_step s s' → sys_step s s'
| sys_reloads s config : sys_step s (sys_reload s config).

(** ** The server inside *)
Lemma sys_run_srv s s' : sys_run_step s s' → rtc srv_step (sy_srv s) (sy_srv s').
Proof.
  destruct 1 as [s v Hs|s cs1 id h cs2 clock ev h' o Hc Hd Hh|]; simpl; [by apply rtc_once, srv_own| |done].
  pose proof (srv_event (sy_srv s) cs1 id h cs2 (sy_config s, config_identity_provider clock (sy_config s), ev) Hc) as Hs.
  rewrite Hh in Hs. by apply rtc_once.
Qed.
Lemma sys_step_srv s s' v :
  sys_step s s' → v = sy_srv s → ∃ v', rtc srv_step v v' ∧ v' = sy_srv s'.
Proof.
  intros [s1 s2 Hs|s1 config] ->; eexists; (split; [|done]); [by apply sys_run_srv|done].
Qed.

(** Where the connections of a step come from: a Web connection was routed to
    HTTP. *)
Lemma own_step_handlers s s' :
  srv_own_step s s' →
  srv_proxy s' = srv_proxy s ∧ srv_transport s' = srv_transport s ∧ srv_stealth s' = srv_stealth s
  ∧ ∀ c', c' ∈ srv_conns s' →
      (∃ c, c ∈ srv_conns s ∧ c_handler c = c_handler c' ∧
         (c_phase c' = Web → c_phase c = Web ∨ srv_stealth s && is_tls (srv_transport s) = true))
      ∨ c_phase c' = Connecting ∧ ∃ remote,
          c_handler c' = (handler_new (srv_proxy s) remote (srv_transport s) (srv_limiter s) (srv_max_auth s)).1.
Proof.
  assert (∀ (Q : Prop) (cs : list Conn) c', c' ∈ cs → ∃ c, c ∈ cs ∧ c_handler c = c_handler c' ∧
            (c_phase c' = Web → c_phase c = Web ∨ Q)) as Hsame
    by (intros Q cs c' Hin; exists c'; auto).
  intros [s1 s2 Hl|s1 s2 He].
  { destruct (loop_step_conns _ _ Hl) as (-> & _ & -> & -> & ->). split_and!; [done..|]. intros c' Hin. left. by apply Hsame. }
  destruct He as [s1 id remote|s1|s1|s1 cs1 id h cs2 stream Hc|s1 cs1 id h cs2 stream r Hc Hr|s1 id|s1 cs1 id h cs2 Hc
    |s1 cs1 id ph h cs2 Hc|s1 full];
    try (split_and!; [done..|]; intros c' Hin; left; by apply Hsame).
  - unfold accept_connection. destruct (handler_new _ _ _ _ _) as [h l] eqn:Hn.
    destruct (connection_allowed h); (split_and!; [done..|]); simpl; intros c' Hin; [|left; by apply Hsame].
    apply elem_of_cons in Hin as [->|Hin]; [|left; by apply Hsame]. right. split; [done|]. exists remote. simpl. by rewrite Hn.
  - split_and!; [done..|]. simpl. rewrite Hc. intros c' [Hin|[->|Hin]%elem_of_cons]%elem_of_app; left;
      [exists c'; set_solver|exists (mkConnection id Connecting h)|exists c'; set_solver]. set_solver.
  - split_and!; [done..|]. simpl. rewrite Hc. intros c' [Hin|[->|Hin]%elem_of_cons]%elem_of_app; left;
      [exists c'; set_solver|exists (mkConnection id Connecting h)|exists c'; set_solver].
    split_and!; [set_solver|done|]. intros _. right. unfold route_connection in Hr.
    by destruct (srv_stealth s1 && is_tls (srv_transport s1)).
  - split_and!; [done..|]. simpl. rewrite Hc. intros c' Hin. left. exists c'. set_solver.
  - split_and!; [done..|]. simpl. rewrite Hc. intros c' Hin. left. exists c'. set_solver.
Qed.

(** ** Invariant *)
(** [i] was resolved, under one of [past], from the fingerprint of a key. *)
Definition resolved_under (past : list DynamicConfig) (i : Identity) : Prop :=
  ∃ config key, config ∈ past ∧ resolve_identity_from_fingerprint (auth config) (fingerprint key) = Some i.

(** The policy of [dr_config] allows the dial to [dr_identity]. *)
Definition dial_allowed (transport : TransportKind) (d : DialRecord) (config : DynamicConfig) : Prop :=
  is_reserved_destination (target_host (dr_task d)) = false
  ∧ policy_check (forwarding config) (target_host (dr_task d)) (as_u16 (target_port (dr_task d)))
      (dr_identity d) transport = true.

Record sys_ok (s : Sys) : Prop := {
  yo_current : sy_config s ∈ sy_past s;
  yo_web : ∀ c, c ∈ srv_conns (sy_srv s) → c_phase c = Web →
    srv_stealth (sy_srv s) && is_tls (srv_transport (sy_srv s)) = true;
  yo_handlers : ∀ c, c ∈ srv_conns (sy_srv s) →
    outbound_proxy (c_handler c) = srv_proxy (sy_srv s) ∧ h_transport (c_handler c) = srv_transport (sy_srv s)
    ∧ ∀ i, authenticated_identity (c_handler c) = Some i → resolved_under (sy_past s) i;
  yo_dials : ∀ d, d ∈ sy_dials s →
    dr_config d ∈ sy_past s ∧ dial_allowed (srv_transport (sy_srv s)) d (dr_config d)
    ∧ resolved_under (sy_past s) (dr_identity d)
    ∧ proxy_config (dr_task d) = default (mkProxyConfig Direct) (srv_proxy (sy_srv s));
}.

Lemma handler_new_fields proxy remote transport l max :
  let h := (handler_new proxy remote transport l max).1 in
  outbound_proxy h = proxy ∧ h_transport h = transport ∧ authenticated_identity h = None.
Proof. unfold handler_new. by repeat case_match. Qed.

(** A dial made by a dispatched event. *)
Lemma event_dials s h clock ev h' o d :
  dispatched h ev = true →
  handler_step h (sy_config s, config_identity_provider clock (sy_config s), ev) = (h', o) →
  d ∈ dials_of h (sy_config s) o →
  dr_config d = sy_config s ∧ dial_allowed (h_transport h) d (sy_config s)
  ∧ authenticated_identity h = Some (dr_identity d)
  ∧ proxy_config (dr_task d) = default (mkProxyConfig Direct) (outbound_proxy h).
Proof.
  intros Hd Hs Hin. destruct ev as [key|host port|r]; simpl in Hs.
  - by destruct (auth_publickey _ h key); simplify_eq/=; apply elem_of_nil in Hin.
  - destruct (channel_open_direct_tcpip (sy_config s) h host port) as [b [t|]] eqn:Hch; injection Hs as <- <-;
      [|by apply elem_of_nil in Hin].
    apply list_elem_of_singleton in Hin as ->. simpl. unfold dispatched in Hd.
    destruct (authenticated_identity h) as [i|] eqn:Hi; [|done].
    apply direct_tcpip_task in Hch as (_ & Hres & Hpol & Hh & Hp & Hpc). rewrite Hi in Hpol.
    unfold dial_allowed. simpl. subst. by split_and!.
  - simplify_eq/=. by apply elem_of_nil in Hin.
Qed.

Lemma resolved_under_mono past past' i : past ⊆ past' → resolved_under past i → resolved_under past' i.
Proof. intros Hsub (config & key & Hin & Hr). exists config, key. set_solver. Qed.

(** The identity a handler has after an event. *)
Lemma event_handler s h clock ev h' o :
  handler_step h (sy_config s, config_identity_provider clock (sy_config s), ev) = (h', o) →
  outbound_proxy h' = outbound_proxy h ∧ h_transport h' = h_transport h
  ∧ ∀ i, authenticated_identity h' = Some i → authenticated_identity h = Some i ∨ resolved_under [sy_config s] i.
Proof.
  intros Hs. pose proof (handler_step_inv h [] h (sy_config s, config_identity_provider clock (sy_config s), ev)) as Hinv.
  rewrite Hs in Hinv. destruct Hinv as [Hp _ _ Ht _ _ _ Hi]; [split; naive_solver|]. split_and!; [done..|].
  intros i Hsome. destruct (Hi i Hsome) as [?|(cell & P & key & Hin & Hr)]; [by left|right].
  apply list_elem_of_singleton in Hin. simplify_eq/=. exists (sy_config s), key. split; [by left|done].
Qed.

Lemma sys_run_ok s s' : sys_run_step s s' → sys_ok s → sys_ok s'.
Proof.
  intros Hs [Hcur Hw Hh Hd]. destruct Hs as [s v Hs|s cs1 id h cs2 clock ev h' o Hc Hdis Hstep|s id h clock a Hin];
    [| |by split].
  - destruct (own_step_handlers _ _ Hs) as (Hp & Ht & Hst & Hfrom). split; simpl; [done|..|by rewrite Ht, Hp].
    + intros c' Hin Hph. rewrite Ht, Hst. destruct (Hfrom c' Hin) as [(c & Hcin & _ & Hcw)|[Hno _]]; [|congruence].
      destruct (Hcw Hph); [by apply (Hw c)|done].
    + intros c' Hin. rewrite Hp, Ht. destruct (Hfrom c' Hin) as [(c & Hcin & <- & _)|[_ [remote ->]]]; [by apply Hh|].
      destruct (handler_new_fields (srv_proxy (sy_srv s)) remote (srv_transport (sy_srv s)) (srv_limiter (sy_srv s))
                  (srv_max_auth (sy_srv s))) as (-> & -> & ->). done.
  - rewrite Hc in Hh, Hw. destruct (Hh (mkConnection id Running h)) as (Hp & Ht & Hi); [apply elem_of_app; right; left|].
    simpl in *. destruct (event_handler _ _ _ _ _ _ Hstep) as (Hp' & Ht' & Hi'). split; simpl; [done|..].
    + intros c [Hin|[->|Hin]%elem_of_cons]%elem_of_app Hph; [apply (Hw c); [set_solver|done]|done|apply (Hw c); [set_solver|done]].
    + intros c [Hin|[->|Hin]%elem_of_cons]%elem_of_app; [by apply Hh; set_solver| |by apply Hh; set_solver].
      simpl. split_and!; [congruence..|]. intros i Hsome. destruct (Hi' i Hsome) as [?|Hr]; [by apply Hi|].
      eapply resolved_under_mono; [|exact Hr]. set_solver.
    + intros d [Hin|Hin]%elem_of_app; [by apply Hd|].
      destruct (event_dials s h clock ev h' o d Hdis Hstep Hin) as (Hcfg & Hal & Hid & Hpc).
      rewrite Hcfg, <-Ht, <-Hp. split_and!; [done..|by apply Hi|done].
Qed.

Lemma sys_step_ok s s' : sys_step s s' → sys_ok s → sys_ok s'.
Proof.
  intros [s1 s2 Hs|s1 config]; [by apply sys_run_ok|]. intros [Hcur Hw Hh Hd]. split; simpl.
  - set_solver.
  - done.
  - intros c Hin. destruct (Hh c Hin) as (Hp & Ht & Hi). split_and!; [done..|]. intros i Hsome.
    eapply resolved_under_mono; [|by apply Hi]. set_solver.
  - intros d Hin. destruct (Hd d Hin) as (Hcfg & Hal & Hr & Hpc). split_and!; [set_solver|done| |done].
    eapply resolved_under_mono; [|exact Hr]. set_solver.
Qed.

Lemma sys_new_ok {Algorithm} (static : StaticConfig (Algorithm := Algorithm)) dynamic kind stealth :
  sys_ok (sys_new static dynamic kind stealth).
Proof. split; simpl; set_solver. Qed.

Lemma sys_reachable_ok {Algorithm} (static : StaticConfig (Algorithm := Algorithm)) dynamic kind stealth s :
  rtc sys_step (sys_new static dynamic kind stealth) s → sys_ok s.
Proof.
  intros Hr. eapply (rtc_ind_r sys_ok (sys_new static dynamic kind stealth)); [|intros ? ? _; apply sys_step_ok|exact Hr].
  apply sys_new_ok.
Qed.

(** What never changes. *)
Definition same_listener (v v' : Srv) : Prop :=
  srv_transport v' = srv_transport v ∧ srv_proxy v' = srv_proxy v ∧ srv_stealth v' = srv_stealth v.

Lemma sys_step_fixed s s' : sys_step s s' → same_listener (sy_srv s) (sy_srv s').
Proof. intros [s1 s2 [s0 v Hs| |]|]; [by destruct (own_step_handlers _ _ Hs) as (? & ? & ? & _)|done..]. Qed.

Lemma sys_fixed s s' : rtc sys_step s s' → same_listener (sy_srv s) (sy_srv s').
Proof.
  induction 1 as [|s1 s2 s3 Hs _ (IH1 & IH2 & IH3)]; [done|]. destruct (sys_step_fixed _ _ Hs) as (? & ? & ?).
  split_and!; congruence.
Qed.

(** Without a reload the configuration stays, and dials are added under it. *)
Lemma sys_run_dials s s' :
  rtc sys_run_step s s' → sys_ok s →
  sy_config s' = sy_config s
  ∧ ∃ new, sy_dials s' = sy_dials s ++ new
      ∧ ∀ d, d ∈ new → dr_config d = sy_config s ∧ dial_allowed (srv_transport (sy_srv s)) d (sy_config s).
Proof.
  induction 1 as [s|s1 s2 s3 Hs _ IH]; intros Hok; [split; [done|]; exists []; rewrite app_nil_r; set_solver|].
  pose proof (sys_run_ok _ _ Hs Hok) as Hok2. destruct (IH Hok2) as (Hc & new & Hd & Hn).
  destruct (sys_step_fixed s1 s2 (sys_runs _ _ Hs)) as [Ht _]. rewrite Ht in Hn.
  destruct Hs as [s v Hs|s cs1 id h cs2 clock ev h' o Hcs Hdis Hstep|]; simpl in *;
    [split; [done|]; by exists new| |split; [done|]; by exists new].
  split; [done|]. exists (dials_of h (sy_config s) o ++ new). split; [by rewrite Hd, app_assoc|].
  intros d [Hin|Hin]%elem_of_app; [|by apply Hn].
  destruct (event_dials s h clock ev h' o d Hdis Hstep Hin) as (Hcfg & Hal & _ & _).
  destruct (yo_handlers _ Hok (mkConnection id Running h)) as (_ & Hth & _); [rewrite Hcs; set_solver|].
  simpl in Hth. by rewrite Hth in Hal.
Qed.

(** Without a reload, the identities are those from before and those of keys the
    configuration authorises. *)
Lemma sys_run_identities s s' :
  rtc sys_run_step s s' → ∀ c i, c ∈ srv_conns (sy_srv s') → authenticated_identity (c_handler c) = Some i →
  (∃ c0, c0 ∈ srv_conns (sy_srv s) ∧ authenticated_identity (c_handler c0) = Some i) ∨ resolved_under [sy_config s] i.
Proof.
  intros Hr.
  assert (sy_config s' = sy_config s ∧ ∀ c i, c ∈ srv_conns (sy_srv s') → authenticated_identity (c_handler c) = Some i →
    (∃ c0, c0 ∈ srv_conns (sy_srv s) ∧ authenticated_identity (c_handler c0) = Some i) ∨ resolved_under [sy_config s] i)
    as [_ ?]; [|done].
  eapply rtc_ind_r with (P := λ s', sy_config s' = sy_config s ∧
    ∀ c i, c ∈ srv_conns (sy_srv s') → authenticated_identity (c_handler c) = Some i →
    (∃ c0, c0 ∈ srv_conns (sy_srv s) ∧ authenticated_identity (c_handler c0) = Some i) ∨ resolved_under [sy_config s] i);
    [by eauto| |exact Hr].
  intros s1 s2 _ Hs [Hcfg IH]. destruct Hs as [s1 v Hs|s1 cs1 id h cs2 clock ev h' o Hcs Hdis Hstep|]; [| |done].
  - destruct (own_step_handlers _ _ Hs) as (_ & _ & _ & Hfrom). split; [done|]. simpl. intros c i Hin Hi.
    destruct (Hfrom c Hin) as [(c0 & Hc0 & Heq & _)|[_ [remote Heq]]].
    + apply (IH c0); [done|]. by rewrite Heq.
    + rewrite Heq in Hi. by destruct (handler_new_fields (srv_proxy (sy_srv s1)) remote (srv_transport (sy_srv s1))
        (srv_limiter (sy_srv s1)) (srv_max_auth (sy_srv s1))) as (_ & _ & Hnone); rewrite Hnone in Hi.
  - split; [done|]. simpl. rewrite Hcs in IH.
    intros c i [Hin|[->|Hin]%elem_of_cons]%elem_of_app Hi; [by apply (IH c); [set_solver|]| |by apply (IH c); [set_solver|]].
    simpl in Hi. destruct (event_handler _ _ _ _ _ _ Hstep) as (_ & _ & Hev).
    destruct (Hev i Hi) as [Hold|Hnew]; [|right; by rewrite <-Hcfg].
    apply (IH (mkConnection id Running h)); [set_solver|done].
Qed.

(** ** What of a configuration is read
    The handlers look at the authorised keys by fingerprint and at the forwarding
    policy; the router, if there is one, at the API keys.  [forget] drops
    everything else a configuration holds, and the API keys unless [web]. *)
Definition reads_same (web : bool) (c c' : DynamicConfig) : Prop :=
  fingerprint_to_key (auth c) = fingerprint_to_key (auth c') ∧ forwarding c = forwarding c'
  ∧ (web = true → api_keys (auth c) = api_keys (auth c')).
#[export] Instance reads_same_equivalence web : Equivalence (reads_same web).
Proof.
  unfold reads_same. split; [by intros c|by intros c c' (-> & -> & Hw); split_and!; [..|intros; symmetry; auto]|].
  intros c1 c2 c3 (-> & -> & H12) (-> & -> & H23). split_and!; [done..|]. intros Hw. by rewrite H12, H23.
Qed.

Definition forget (web : bool) (c : DynamicConfig) : DynamicConfig :=
  mkDynamicConfig _ _ (mkAuthPolicy _ [] [] (if web then api_keys (auth c) else []) [] (fingerprint_to_key (auth c)))
    (forwarding c) RateLimitConfig_default ∅.
Definition forget_dial (web : bool) (d : DialRecord) : DialRecord :=
  mkDialRecord (dr_task d) (forget web (dr_config d)) (dr_identity d).
Definition sys_forget (web : bool) (s : Sys) : Sys :=
  mkSys (sy_srv s) (forget web (sy_config s)) (forget web <$> sy_past s) (forget_dial web <$> sy_dials s) (sy_answers s).

#[export] Instance resolve_fingerprint_proper web clock :
  Proper (reads_same web ==> (=)) (λ c, @resolve_from_fingerprint (config_identity_provider clock c)).
Proof. intros c c' [Hk _]. cbn. unfold resolve_identity_from_fingerprint. by rewrite Hk. Qed.
#[export] Instance direct_tcpip_proper web :
  Proper (reads_same web ==> (=) ==> (=) ==> (=) ==> (=)) channel_open_direct_tcpip.
Proof. intros c c' (_ & Hf & _) h ? <- host ? <- port ? <-. unfold channel_open_direct_tcpip. by rewrite Hf. Qed.
#[export] Instance web_answer_proper clock :
  Proper (reads_same http ==> (=) ==> (=)) (web_answer clock).
Proof.
  intros c c' (_ & _ & Hk) a ? <-. unfold web_answer. destruct http; [|done]. f_equal.
  unfold build_router, auth_middleware. destruct (a ≫= header_to_str) as [h|]; [|done].
  destruct (strip_prefix "Bearer " h) as [t|]; [|done]. cbn. unfold config_resolve_from_token, resolve_api_key.
  by rewrite Hk.
Qed.

Lemma handler_step_reads web h c c' clock ev :
  reads_same web c c' →
  handler_step h (c, config_identity_provider clock c, ev) = handler_step h (c', config_identity_provider clock c', ev).
Proof.
  intros Hc. destruct ev as [key|host port|r]; cbn [handler_step];
    [|by rewrite (direct_tcpip_proper web c c' Hc h h eq_refl host host eq_refl port port eq_refl)|done].
  unfold auth_publickey. by rewrite (resolve_fingerprint_proper web clock c c' Hc).
Qed.

Lemma forget_reads web c : reads_same web c (forget web c).
Proof. split_and!; [done..|]. by intros ->. Qed.

Lemma dials_of_forget web h c o : forget_dial web <$> dials_of h c o = dials_of h (forget web c) o.
Proof. by destruct o as [|? [t|]|]. Qed.

(** A step, when the API keys are kept wherever a connection can reach the
    router. *)
Lemma sys_step_forget web s s' :
  sys_step s s' → (∀ c, c ∈ srv_conns (sy_srv s) → c_phase c = Web → http = true → web = true) →
  sys_step (sys_forget web s) (sys_forget web s').
Proof.
  intros [s1 s2 [s0 v Hs|s0 cs1 id h cs2 clock ev h' o Hc Hd Hh|s0 id h clock a Hin]|s1 config] Hweb;
    unfold sys_forget; simpl.
  - by apply sys_runs, (sys_own (sys_forget web s0)).
  - rewrite fmap_app, dials_of_forget.
    apply sys_runs, (sys_event (sys_forget web s0) cs1 id h cs2 clock ev); [done..|].
    rewrite <-Hh. symmetry. apply (handler_step_reads web), forget_reads.
  - assert (reads_same http (sy_config s0) (forget web (sy_config s0))) as Hr.
    { destruct (forget_reads web (sy_config s0)) as (Hk & Hf & Ha). split_and!; [done..|]. intros Hh.
      apply Ha. by apply (Hweb (mkConnection id Web h)). }
    rewrite (web_answer_proper clock _ _ Hr a a eq_refl).
    by apply sys_runs, (sys_request (sys_forget web s0) id h clock a).
  - rewrite fmap_app. apply (sys_reloads (sys_forget web s1)).
Qed.

(** ** Theorems *)

(** C5: what a whole server dials, whatever is reloaded while it runs.  In every
    state the server can reach, with any number of connections, reloads and a
    shutdown interleaved, each dial was made under a configuration that was in
    force at that moment, whose policy allowed that host and port on the
    listener's transport to the identity of the connection; that identity was
    resolved from a key that the configuration of some moment authorised; it
    goes through the configured proxy; and no address has more connections
    than the limit. *)
Theorem system_dials_authorised {Algorithm} (static : StaticConfig (Algorithm := Algorithm)) dynamic kind stealth s :
  rtc sys_step (sys_new static dynamic kind stealth) s →
  (∀ d, d ∈ sy_dials s →
     dr_config d ∈ sy_past s ∧ dial_allowed kind d (dr_config d) ∧ resolved_under (sy_past s) (dr_identity d)
     ∧ proxy_config (dr_task d) = default (mkProxyConfig Direct) (st_proxy_config static))
  ∧ (st_max_connections_per_ip static ≠ 0 →
     ∀ ip, occurrences ip (omap conn_ip (srv_conns (sy_srv s))) ≤ st_max_connections_per_ip static).
Proof.
  intros Hr. destruct (sys_fixed _ _ Hr) as (Ht & Hp & _). simpl in Ht, Hp. split.
  - intros d Hd. destruct (sys_reachable_ok _ _ _ _ _ Hr) as [_ _ _ Hds]. specialize (Hds d Hd).
    by rewrite Ht, Hp in Hds.
  - destruct (simulation_rtc sys_step srv_step (λ s v, v = sy_srv s)
                (λ a a' b, sys_step_srv a a' b) _ _ (server_new static kind stealth) Hr eq_refl) as (v & Hv & ->).
    apply (srv_reachable_ok static kind stealth) in Hv as []. done.
Qed.

(** C6: a reload takes effect at once, and for every connection.  After the
    configuration of a running server is replaced, and until it is replaced
    again, every dial that any connection makes, also one that was
    authenticated before, is allowed by the new policy; and a connection has
    the identity of a key that the new configuration authorises, or one that
    a connection had before. *)
Theorem reload_takes_effect {Algorithm} (static : StaticConfig (Algorithm := Algorithm)) dynamic kind stealth s config s' :
  rtc sys_step (sys_new static dynamic kind stealth) s → rtc sys_run_step (sys_reload s config) s' →
  (∃ new, sy_dials s' = sy_dials s ++ new ∧ ∀ d, d ∈ new → dr_config d = config ∧ dial_allowed kind d config)
  ∧ (∀ c i, c ∈ srv_conns (sy_srv s') → authenticated_identity (c_handler c) = Some i →
      (∃ c0, c0 ∈ srv_conns (sy_srv s) ∧ authenticated_identity (c_handler c0) = Some i) ∨ resolved_under [config] i).
Proof.
  intros Hr Hrun. split; [|exact (sys_run_identities _ _ Hrun)]. destruct (sys_fixed _ _ Hr) as [Ht _]. simpl in Ht.
  destruct (sys_run_dials _ _ Hrun) as (_ & new & Hd & Hn).
  { eapply sys_step_ok; [apply sys_reloads|by eapply sys_reachable_ok]. }
  exists new. simpl in *. by rewrite Ht in Hn.
Qed.

(** C7: most of a configuration does nothing to the server.  A server whose
    configurations have forgotten the certificate authorities, the rate limits
    and the credentials, at the start and in every reload, runs through the same
    connections, SSH answers, dials and HTTP answers, step by step.  The API keys
    can be forgotten with them unless the server is built with the [http]
    feature and serves a stealth TLS listener, the only one that hands requests
    to the router. *)
Theorem unread_configuration {Algorithm} (static : StaticConfig (Algorithm := Algorithm)) dynamic kind stealth s :
  let web := http && (stealth && is_tls kind) in
  rtc sys_step (sys_new static dynamic kind stealth) s →
  rtc sys_step (sys_new static (forget web dynamic) kind stealth) (sys_forget web s)
  ∧ sy_srv (sys_forget web s) = sy_srv s ∧ dr_task <$> sy_dials (sys_forget web s) = dr_task <$> sy_dials s
  ∧ sy_answers (sys_forget web s) = sy_answers s.
Proof.
  intros web Hr. split_and!; [|done|symmetry; apply (list_fmap_compose (forget_dial web) dr_task)|done].
  assert (sys_ok s ∧ rtc sys_step (sys_new static (forget web dynamic) kind stealth) (sys_forget web s)) as [_ ?]; [|done].
  eapply (rtc_ind_r (λ s, sys_ok s ∧ rtc sys_step (sys_new static (forget web dynamic) kind stealth) (sys_forget web s))
    (sys_new static dynamic kind stealth)); [split; [apply sys_new_ok|done]| |exact Hr].
  intros s1 s2 Hr1 Hs [Hok IH]. split; [by eapply sys_step_ok|]. eapply rtc_r; [exact IH|].
  apply sys_step_forget; [done|]. intros c Hin Hph Hh. unfold web. rewrite Hh.
  pose proof (yo_web _ Hok c Hin Hph) as Hw. destruct (sys_fixed _ _ Hr1) as (Ht & _ & Hst). simpl in *.
  by rewrite Ht, Hst in Hw.
Qed.
End System.

(** ** Examples *)
Module SystemExample.
Import KeysExample AuthExample HandlerExample ServerExample RouterExample.

(** A connection is accepted, authenticated, and opens a channel; then the
    policy is replaced. *)
Definition login_event : HandlerEvent := EvAuth ("AAAA1" : PublicKey).
Definition logged_in : ServerHandler := (handler_step the_handler (web_only, provider, login_event)).1.
Definition with_conn (h : ServerHandler) : Srv :=
  mkSrv None Tcp false 10 (srv_limiter accepted) false AtHead [mkConnection 0 Running h] {[0]} [] ∅ ∅.
Definition alice_id : Identity := default anonymous (authenticated_identity logged_in).
Definition web_dial : DialRecord := mkDialRecord (mkDial "web.internal" 80%Z (mkProxyConfig Direct)) web_only alice_id.
Definition dialled : Sys := mkSys (with_conn logged_in) web_only [web_only] [web_dial] [].

Lemma dialled_reached : rtc (sys_step true) (sys_new static web_only Tcp false) dialled.
Proof.
  eapply rtc_l; [by apply sys_runs, sys_own, srv_loop, srv_wait|].
  eapply rtc_l; [apply sys_runs, sys_own, srv_env, (srv_accept _ 0 client); [done|apply not_elem_of_nil..|apply not_elem_of_empty]|].
  eapply rtc_l; [by eapply sys_runs, sys_own, srv_env, (srv_established _ [] 0 the_handler [] (quiet [] []))|].
  eapply rtc_l; [by eapply sys_runs, (sys_event _ _ [] 0 the_handler [] 0%Z login_event)|].
  eapply rtc_l; [by eapply sys_runs, (sys_event _ _ [] 0 logged_in [] 0%Z (EvDirect "web.internal" 80%Z))|].
  apply reflexive_eq. reflexivity.
Qed.

Lemma system_dials_authorised_witness :
  (∀ d, d ∈ [web_dial] →
     dr_config d ∈ [web_only] ∧ dial_allowed Tcp d (dr_config d) ∧ resolved_under [web_only] (dr_identity d)
     ∧ proxy_config (dr_task d) = mkProxyConfig Direct)
  ∧ (1 ≠ 0 → ∀ ip, occurrences ip (omap conn_ip (srv_conns (sy_srv dialled))) ≤ 1).
Proof. apply (system_dials_authorised true static web_only Tcp false dialled dialled_reached). Defined.

(** The reload allows another port and no longer the first; the connection that
    was there before dials it, and is refused the first. *)
Definition db_only : DynamicConfig :=
  with_forwarding_policy web_only
    (mkForwardingPolicy Deny [mkForwardingRule (PortRange "*.internal" 5432 5433) Allow ["SHA256:AAAA1"] []]).
Definition db_dial : DialRecord := mkDialRecord (mkDial "db.internal" 5432%Z (mkProxyConfig Direct)) db_only alice_id.
Definition reloaded : Sys := mkSys (with_conn logged_in) db_only [web_only; db_only] [web_dial; db_dial] [].

Lemma reload_takes_effect_witness :
  (∃ new, [web_dial; db_dial] = [web_dial] ++ new ∧
     ∀ d, d ∈ new → dr_config d = db_only ∧ dial_allowed Tcp d db_only)
  ∧ (∀ c i, c ∈ srv_conns (with_conn logged_in) → authenticated_identity (c_handler c) = Some i →
      (∃ c0, c0 ∈ srv_conns (with_conn logged_in) ∧ authenticated_identity (c_handler c0) = Some i)
      ∨ resolved_under [db_only] i).
Proof.
  apply (reload_takes_effect true static web_only Tcp false dialled db_only reloaded dialled_reached).
  eapply rtc_l; [by eapply (sys_event _ _ [] 0 logged_in [] 0%Z (EvDirect "web.internal" 80%Z))|].
  eapply rtc_l; [by eapply (sys_event _ _ [] 0 logged_in [] 0%Z (EvDirect "db.internal" 5432%Z))|].
  apply reflexive_eq. reflexivity.
Defined.

(** A stealth listener: a browser's connection is handed to the router, which
    knows the API key. *)
Definition with_keys : DynamicConfig :=
  from_parts (policy [key_a; key_b]) (forwarding web_only) RateLimitConfig_default.
Definition tls_handler : ServerHandler := (handler_new None client (Tls None) (limiter_new 1) 10).1.
Definition served : Sys :=
  mkSys (mkSrv None (Tls None) true 10 (srv_limiter accepted) false AtHead [mkConnection 0 Web tls_handler] ∅ [] ∅ ∅)
    with_keys [with_keys] [] [(0, Routed (Ret 404%Z)); (0, Routed (Ret 401%Z))].

Lemma web_served_reached : rtc (sys_step true) (sys_new static with_keys (Tls None) true) served.
Proof.
  eapply rtc_l; [by apply sys_runs, sys_own, srv_loop, srv_wait|].
  eapply rtc_l; [apply sys_runs, sys_own, srv_env, (srv_accept _ 0 client); [done|apply not_elem_of_nil..|apply not_elem_of_empty]|].
  eapply rtc_l; [by eapply sys_runs, sys_own, srv_env, (srv_web _ [] 0 tls_handler [] (quiet [Ok (bytes_of "GET /")] []))|].
  eapply rtc_l; [eapply sys_runs, (sys_request _ _ 0 tls_handler 99%Z (bearer "alk_a-token")); left|].
  eapply rtc_l; [eapply sys_runs, (sys_request _ _ 0 tls_handler 100%Z (bearer "alk_a-token")); left|].
  apply reflexive_eq. reflexivity.
Qed.

Lemma unread_configuration_witness :
  rtc (sys_step true) (sys_new static (forget true with_keys) (Tls None) true) (sys_forget true served)
  ∧ sy_srv (sys_forget true served) = sy_srv served
  ∧ dr_task <$> sy_dials (sys_forget true served) = dr_task <$> sy_dials served
  ∧ sy_answers (sys_forget true served) = sy_answers served.
Proof. apply (unread_configuration true static with_keys (Tls None) true served), web_served_reached. Defined.
End SystemExample.
