(* ===== verification/Client.v ===== *)
(** * The client: forward specifications and options
    (client/forward.rs, client/connect.rs)

    What --forward and --remote-forward mean, the options of a connection with
    their validation, and the pauses between reconnections. *)
From S2P Require Import Prelude RustStd Net Keys.
From Stdlib Require Import Ascii.
Open Scope Z_scope.

(** ** Port forwards (client/forward.rs) *)
Inductive PortForwardSpecKind := SpecLocal | SpecRemote.
#[export] Instance PortForwardSpecKind_eq_dec : EqDecision PortForwardSpecKind.
Proof. solve_decision. Defined.

Record PortForwardSpec := mkForwardSpec {
  fs_kind : PortForwardSpecKind;
  fs_bind_addr : string;
  fs_bind_port : Z;
  fs_target_host : string;
  fs_target_port : Z;
}.

Definition parse_spec (spec : string) : result (string * Z * string * Z) ForwardError :=
  match split_char ":" spec with
  | [p0; p1; p2; p3] =>
      let? bind_port := ok_or (parse_uint u16_max p1) (InvalidSpec spec) in
      let? target_port := ok_or (parse_uint u16_max p3) (InvalidSpec spec) in
      Ok (p0, bind_port, p2, target_port)
  | _ => Err (InvalidSpec spec)
  end.

Definition spec_of (kind : PortForwardSpecKind) (spec : string) : result PortForwardSpec ForwardError :=
  let? (a, p, h, q) := parse_spec spec in Ok (mkForwardSpec kind a p h q).
Definition spec_local (spec : string) : result PortForwardSpec ForwardError := spec_of SpecLocal spec.
Definition spec_remote (spec : string) : result PortForwardSpec ForwardError := spec_of SpecRemote spec.

Definition host_port (host : string) (port : Z) : string := host +:+ ":" +:+ show_uint port.

Definition listen_addr (s : PortForwardSpec) : result SocketAddr ForwardError :=
  let text := host_port (fs_bind_addr s) (fs_bind_port s) in
  ok_or (socket_addr_from_str text) (InvalidSpec text).
Definition target_addr (s : PortForwardSpec) : result SocketAddr ForwardError :=
  let text := host_port (fs_target_host s) (fs_target_port s) in
  ok_or (socket_addr_from_str text) (InvalidSpec text).

(** [Display], without the flag in front. *)
Definition show_spec_body (s : PortForwardSpec) : string :=
  host_port (fs_bind_addr s) (fs_bind_port s) +:+ ":" +:+ host_port (fs_target_host s) (fs_target_port s).
Definition show_spec (s : PortForwardSpec) : string :=
  match fs_kind s with SpecLocal => "-L" | SpecRemote => "-R" end +:+ " " +:+ show_spec_body s.

Record LocalForwarder := mkLocalForwarder { lf_spec : PortForwardSpec }.
Definition LocalForwarder_new (s : PortForwardSpec) : result LocalForwarder ForwardError :=
  match fs_kind s with
  | SpecLocal => Ok (mkLocalForwarder s)
  | SpecRemote => Err (InvalidSpec "expected local spec, got Remote")
  end.
Record RemoteForwarder := mkRemoteForwarder { rf_spec : PortForwardSpec }.
Definition RemoteForwarder_new (s : PortForwardSpec) : result RemoteForwarder ForwardError :=
  match fs_kind s with
  | SpecRemote => Ok (mkRemoteForwarder s)
  | SpecLocal => Err (InvalidSpec "expected remote spec, got Local")
  end.

(** ** Options (client/connect.rs) *)
Inductive TransportMode := CTcp | CTls | CIroh.
Definition show_client_mode (m : TransportMode) : string :=
  match m with CTcp => "tcp" | CTls => "tls" | CIroh => "iroh" end.

Record ConnectOptions := mkConnectOptions {
  co_server : option string;
  co_peer : option string;
  co_transport_mode : TransportMode;
  co_identity : KeySource;
  co_socks5_addr : string;
  co_forwards : list string;
  co_remote_forwards : list string;
  co_proxy : option string;
  co_iroh_relay : option string;
  co_tls_server_name : option string;
  co_insecure : bool;
}.

Definition ConnectOptions_new (identity : KeySource) : ConnectOptions :=
  mkConnectOptions None None CTcp identity "127.0.0.1:1080" [] [] None None None false.

(** The builder. *)
Definition connect_server (o : ConnectOptions) (addr : string) : ConnectOptions :=
  mkConnectOptions (Some addr) (co_peer o) (co_transport_mode o) (co_identity o) (co_socks5_addr o)
    (co_forwards o) (co_remote_forwards o) (co_proxy o) (co_iroh_relay o) (co_tls_server_name o)
    (co_insecure o).
Definition connect_peer (o : ConnectOptions) (endpoint_id : string) : ConnectOptions :=
  mkConnectOptions (co_server o) (Some endpoint_id) (co_transport_mode o) (co_identity o)
    (co_socks5_addr o) (co_forwards o) (co_remote_forwards o) (co_proxy o) (co_iroh_relay o)
    (co_tls_server_name o) (co_insecure o).
Definition connect_transport_mode (o : ConnectOptions) (m : TransportMode) : ConnectOptions :=
  mkConnectOptions (co_server o) (co_peer o) m (co_identity o) (co_socks5_addr o) (co_forwards o)
    (co_remote_forwards o) (co_proxy o) (co_iroh_relay o) (co_tls_server_name o) (co_insecure o).
Definition connect_socks5_addr (o : ConnectOptions) (addr : string) : ConnectOptions :=
  mkConnectOptions (co_server o) (co_peer o) (co_transport_mode o) (co_identity o) addr (co_forwards
    o) (co_remote_forwards o) (co_proxy o) (co_iroh_relay o) (co_tls_server_name o) (co_insecure o).
Definition connect_forward (o : ConnectOptions) (spec : string) : ConnectOptions :=
  mkConnectOptions (co_server o) (co_peer o) (co_transport_mode o) (co_identity o) (co_socks5_addr o)
    (co_forwards o ++ [spec]) (co_remote_forwards o) (co_proxy o) (co_iroh_relay o) (co_tls_server_name
    o) (co_insecure o).
Definition connect_remote_forward (o : ConnectOptions) (spec : string) : ConnectOptions :=
  mkConnectOptions (co_server o) (co_peer o) (co_transport_mode o) (co_identity o) (co_socks5_addr o)
    (co_forwards o) (co_remote_forwards o ++ [spec]) (co_proxy o) (co_iroh_relay o) (co_tls_server_name
    o) (co_insecure o).
Definition connect_proxy (o : ConnectOptions) (url : string) : ConnectOptions :=
  mkConnectOptions (co_server o) (co_peer o) (co_transport_mode o) (co_identity o) (co_socks5_addr o)
    (co_forwards o) (co_remote_forwards o) (Some url) (co_iroh_relay o) (co_tls_server_name o)
    (co_insecure o).
Definition connect_iroh_relay (o : ConnectOptions) (url : string) : ConnectOptions :=
  mkConnectOptions (co_server o) (co_peer o) (co_transport_mode o) (co_identity o) (co_socks5_addr o)
    (co_forwards o) (co_remote_forwards o) (co_proxy o) (Some url) (co_tls_server_name o) (co_insecure
    o).
Definition connect_tls_server_name (o : ConnectOptions) (name : string) : ConnectOptions :=
  mkConnectOptions (co_server o) (co_peer o) (co_transport_mode o) (co_identity o) (co_socks5_addr o)
    (co_forwards o) (co_remote_forwards o) (co_proxy o) (co_iroh_relay o) (Some name) (co_insecure o).
Definition connect_insecure (o : ConnectOptions) (b : bool) : ConnectOptions :=
  mkConnectOptions (co_server o) (co_peer o) (co_transport_mode o) (co_identity o) (co_socks5_addr o)
    (co_forwards o) (co_remote_forwards o) (co_proxy o) (co_iroh_relay o) (co_tls_server_name o) b.

Definition connect_validate (o : ConnectOptions) : result unit ConfigError :=
  match co_transport_mode o with
  | CTcp | CTls =>
      match co_server o with
      | None => Err (InvalidFlag "--server is required for tcp/tls transport")
      | Some _ => Ok ()
      end
  | CIroh =>
      match co_peer o with
      | None => Err (InvalidFlag "--peer is required for iroh transport")
      | Some _ => Ok ()
      end
  end.

Inductive ConnectError :=
| ConnectionFailed | AuthFailed | ForwardFailed | ConnectConfig (e : ConfigError).

Fixpoint build_local_forwarders (forwards : list string) : result (list LocalForwarder) ConnectError :=
  match forwards with
  | [] => Ok []
  | spec_str :: rest =>
      let? spec := map_err (λ _, ConnectConfig (InvalidFlag ("invalid forward spec: " +:+ spec_str)))
                     (spec_local spec_str) in
      let? f := map_err (λ _, ForwardFailed) (LocalForwarder_new spec) in
      let? fs := build_local_forwarders rest in
      Ok (f :: fs)
  end.

Fixpoint build_remote_specs (remote_forwards : list string) : result (list PortForwardSpec) ConnectError :=
  match remote_forwards with
  | [] => Ok []
  | spec_str :: rest =>
      let? spec := map_err (λ _, ConnectConfig (InvalidFlag ("invalid remote forward spec: " +:+ spec_str)))
                     (spec_remote spec_str) in
      let? specs := build_remote_specs rest in
      Ok (spec :: specs)
  end.

(** ** Reconnection (client/channel_manager.rs, client/connect.rs) *)
Definition backoff_duration (attempt : Z) : Z :=
  if attempt =? 0 then 1
  else if attempt =? 1 then 2
  else if attempt =? 2 then 4
  else if attempt =? 3 then 8
  else if attempt =? 4 then 16
  else 30.

(** The documented backoff: doubling from one second, capped at thirty. *)
Lemma backoff_duration_spec n : 0 ≤ n → backoff_duration n = Z.min (2 ^ n) 30.
Proof.
  intros Hn. unfold backoff_duration.
  destruct (Z.eqb_spec n 0) as [->|]; [done|]. destruct (Z.eqb_spec n 1) as [->|]; [done|].
  destruct (Z.eqb_spec n 2) as [->|]; [done|]. destruct (Z.eqb_spec n 3) as [->|]; [done|].
  destruct (Z.eqb_spec n 4) as [->|]; [done|].
  assert (2 ^ 5 ≤ 2 ^ n) by (apply Z.pow_le_mono_r; lia). lia.
Qed.

(** Forward specifications round-trip.  Printing a specification (without its
    flag) and parsing it gives it back, for every host and address without a
    colon and every port; and a text that does not have exactly four parts,
    such as the three-part form with the local address left out, is always
    refused. *)
Theorem forward_spec_round_trip kind bind_addr bind_port target_host target_port spec :
  contains_char ":" bind_addr = false → contains_char ":" target_host = false →
  0 ≤ bind_port < 65536 → 0 ≤ target_port < 65536 →
  let s := mkForwardSpec kind bind_addr bind_port target_host target_port in
  spec_of kind (show_spec_body s) = Ok s ∧
  (length (split_char ":" spec) ≠ 4%nat → spec_of kind spec = Err (InvalidSpec spec)).
Proof.
  intros Ha Hh Hp Hq s. split.
  - unfold spec_of, parse_spec, s, show_spec_body, host_port. simpl.
    rewrite !str_app_assoc.
    assert (∀ n, 0 ≤ n → contains_char ":" (show_uint n) = false) as Hn
      by (intros n ?; by apply show_uint_contains).
    repeat match goal with |- context [":" +:+ ?x] => change (":" +:+ x) with (String ":" x) end.
    rewrite !split_char_app, split_char_not_in by (done || apply Hn; lia). simpl.
    rewrite !parse_show_uint by (unfold u16_max; lia). done.
  - intros Hlen. unfold spec_of, parse_spec.
    destruct (split_char ":" spec) as [|p0 [|p1 [|p2 [|p3 [|]]]]]; try done.
Qed.

(** ** Witnesses *)
Module ClientExample.
Lemma forward_spec_round_trip_witness :
  let s := mkForwardSpec SpecLocal "127.0.0.1" 8080 "db.internal" 5432 in
  spec_of SpecLocal (show_spec_body s) = Ok s ∧
  (length (split_char ":" "5432:db.internal:5432") ≠ 4%nat →
   spec_of SpecLocal "5432:db.internal:5432" = Err (InvalidSpec "5432:db.internal:5432")).
Proof.
  apply (forward_spec_round_trip SpecLocal "127.0.0.1" 8080 "db.internal" 5432 "5432:db.internal:5432");
    [reflexivity|reflexivity|lia|lia].
Defined.

(** The form the documentation of [ConnectOptions] uses is refused. *)
Example documented_spec_refused :
  build_local_forwarders ["5432:db.internal:5432"] =
    Err (ConnectConfig (InvalidFlag "invalid forward spec: 5432:db.internal:5432")).
Proof. vm_compute. reflexivity. Qed.
End ClientExample.
