(* ===== verification/LocalForward.v ===== *)
(** * Local forwards (client/forward.rs)

    [LocalForwarder::run] and [run_local_forwarders].  Each forwarder runs in a
    task of its own, beside a cancellation channel; [task_poll] is one poll of
    that task's [select!], [lf_step] interleaves the tasks with the loop that
    spawns them and with the shutdown. *)
From S2P Require Import Prelude RustStd Net Keys Client.
Open Scope Z_scope.

(** ** One forwarder *)
Record Forwarder := mkForwarder { fw_spec : PortForwardSpec; fw_listener : option SocketAddr }.
Definition forwarder_of (f : LocalForwarder) : Forwarder := mkForwarder (lf_spec f) None.

Definition fw_stop (f : Forwarder) : Forwarder := mkForwarder (fw_spec f) None.
Definition local_port (f : Forwarder) : Z := fs_bind_port (fw_spec f).

(** A connection, or an error on the listener together with the state of the
    session that is then looked at. *)
Inductive AcceptEvent :=
| Accepted (peer : SocketAddr)
| AcceptFailed (session_closed : bool).

(** The accept loop over the events that are ready; [None] when it waits. *)
Fixpoint accept_loop (listener : option SocketAddr) (events : list AcceptEvent)
    : list SocketAddr * option (result unit ForwardError) :=
  match listener with
  | None => ([], Some (Ok ()))
  | Some _ =>
      match events with
      | [] => ([], None)
      | Accepted peer :: events => let '(proxied, r) := accept_loop listener events in (peer :: proxied, r)
      | AcceptFailed true :: _ => ([], Some (Ok ()))
      | AcceptFailed false :: events => accept_loop listener events
      end
  end.

(** [run] from where it is: before the listener is bound, or in its loop. *)
Inductive RunPc := RunStart | RunLoop.

Definition run_poll (bind : SocketAddr → result unit string) (f : Forwarder) (pc : RunPc) (events : list AcceptEvent)
    : Forwarder * list SocketAddr * option (result unit ForwardError) :=
  match pc with
  | RunStart =>
      match (let? addr := listen_addr (fw_spec f) in
             let? _ := map_err ForwardBindFailed (bind addr) in
             Ok addr) with
      | Err e => (f, [], Some (Err e))
      | Ok addr =>
          let f := mkForwarder (fw_spec f) (Some addr) in
          let '(proxied, r) := accept_loop (fw_listener f) events in (f, proxied, r)
      end
  | RunLoop => let '(proxied, r) := accept_loop (fw_listener f) events in (f, proxied, r)
  end.

(** ** Its task *)
Inductive TaskState :=
| TaskRunning (f : Forwarder) (pc : RunPc)
| TaskFinished (f : Forwarder)
| TaskAborted.

Record FwdTask := mkFwdTask {
  ft_state : TaskState;
  ft_cancel : bool;                   (* the sender of its cancellation channel lives *)
  ft_proxied : list SocketAddr;       (* the connections handed to the tunnel *)
}.
Definition task_new (f : LocalForwarder) : FwdTask := mkFwdTask (TaskRunning (forwarder_of f) RunStart) true [].

(** [select!] polls its branches in random order; the receiver is ready when
    its sender is gone. *)
Definition task_poll (run_first : bool) (bind : SocketAddr → result unit string) (events : list AcceptEvent)
    (t : FwdTask) : FwdTask :=
  match ft_state t with
  | TaskRunning f pc =>
      if negb run_first && negb (ft_cancel t)
      then mkFwdTask (TaskFinished (fw_stop f)) (ft_cancel t) (ft_proxied t)
      else
        match run_poll bind f pc events with
        | (f, proxied, Some _) => mkFwdTask (TaskFinished f) (ft_cancel t) (ft_proxied t ++ proxied)
        | (f, proxied, None) =>
            if ft_cancel t
            then mkFwdTask (TaskRunning f RunLoop) (ft_cancel t) (ft_proxied t ++ proxied)
            else mkFwdTask (TaskFinished (fw_stop f)) (ft_cancel t) (ft_proxied t ++ proxied)
        end
  | _ => t
  end.

Definition drop_cancel (t : FwdTask) : FwdTask := mkFwdTask (ft_state t) false (ft_proxied t).
Definition task_abort (t : FwdTask) : FwdTask :=
  match ft_state t with
  | TaskRunning _ _ => mkFwdTask TaskAborted (ft_cancel t) (ft_proxied t)
  | _ => t
  end.
Definition task_over (t : FwdTask) : bool := match ft_state t with TaskRunning _ _ => false | _ => true end.

(** ** [run_local_forwarders] *)
Inductive LoopPc :=
| Spawning (todo : list LocalForwarder)
| IterationEnd (todo : list LocalForwarder)    (* [_cancel_tx] goes out of scope *)
| AwaitShutdown
| Joining.

Record LocalFwds := mkLocalFwds { lw_pc : LoopPc; lw_tasks : list FwdTask }.
Definition local_fwds_new (forwarders : list LocalForwarder) : LocalFwds := mkLocalFwds (Spawning forwarders) [].

Inductive lf_step : LocalFwds → LocalFwds → Prop :=
| lf_spawn f todo tasks :
    lf_step (mkLocalFwds (Spawning (f :: todo)) tasks) (mkLocalFwds (IterationEnd todo) (tasks ++ [task_new f]))
| lf_iteration todo tasks t :
    lf_step (mkLocalFwds (IterationEnd todo) (tasks ++ [t])) (mkLocalFwds (Spawning todo) (tasks ++ [drop_cancel t]))
| lf_spawned tasks : lf_step (mkLocalFwds (Spawning []) tasks) (mkLocalFwds AwaitShutdown tasks)
| lf_shutdown tasks : lf_step (mkLocalFwds AwaitShutdown tasks) (mkLocalFwds Joining (task_abort <$> tasks))
| lf_poll pc tasks i t run_first bind events :
    tasks !! i = Some t →
    lf_step (mkLocalFwds pc tasks) (mkLocalFwds pc (<[i := task_poll run_first bind events t]> tasks)).

(** What is returned after the join. *)
Definition joined (tasks : list FwdTask) : list Forwarder :=
  omap (λ t, match ft_state t with TaskFinished f => Some f | _ => None end) tasks.

(** ** Invariant *)
Definition cancelled (t : FwdTask) : Prop := ft_cancel t = false.

(** Only the task of the current iteration still has its sender. *)
Definition lw_ok (n : nat) (s : LocalFwds) : Prop :=
  match lw_pc s with
  | Spawning todo => Forall cancelled (lw_tasks s) ∧ length (lw_tasks s) + length todo = n
  | IterationEnd todo =>
      (∃ ts t, lw_tasks s = ts ++ [t] ∧ Forall cancelled ts) ∧ length (lw_tasks s) + length todo = n
  | AwaitShutdown => Forall cancelled (lw_tasks s) ∧ length (lw_tasks s) = n
  | Joining => Forall cancelled (lw_tasks s) ∧ length (lw_tasks s) = n ∧ Forall (λ t, task_over t = true) (lw_tasks s)
  end%nat.

Lemma task_poll_cancel run_first bind events t : ft_cancel (task_poll run_first bind events t) = ft_cancel t.
Proof.
  unfold task_poll. destruct (ft_state t) as [f pc| |]; [|done..]. destruct (negb run_first && _); [done|].
  destruct (run_poll _ _ _ _) as [[f' proxied] [r|]]; [done|]. by destruct (ft_cancel t) eqn:Hc.
Qed.

Lemma task_poll_over run_first bind events t :
  task_over t = true → task_poll run_first bind events t = t.
Proof. unfold task_over, task_poll. by destruct (ft_state t). Qed.

(** A poll of a task whose sender is gone is its last. *)
Lemma task_poll_last run_first bind events t :
  ft_cancel t = false → task_over (task_poll run_first bind events t) = true.
Proof.
  intros Hc. unfold task_over, task_poll. destruct (ft_state t) as [f pc| |] eqn:Hs; [|by rewrite Hs..].
  rewrite Hc. destruct run_first; [|done]. simpl. by destruct (run_poll _ _ _ _) as [[f' proxied] [r|]].
Qed.

Lemma insert_poll_cancelled tasks i t run_first bind events :
  tasks !! i = Some t → Forall cancelled tasks →
  Forall cancelled (<[i := task_poll run_first bind events t]> tasks).
Proof.
  intros Hi Hf. apply Forall_insert; [done|]. unfold cancelled. rewrite task_poll_cancel.
  by apply (Forall_lookup_1 _ _ _ _ Hf Hi).
Qed.

Lemma lf_step_ok n s s' : lf_step s s' → lw_ok n s → lw_ok n s'.
Proof.
  intros Hs. destruct Hs as [f todo tasks|todo tasks t|tasks|tasks|pc tasks i t run_first bind events Hi];
    unfold lw_ok; simpl.
  - intros [Hc Hl]. split; [by exists tasks, (task_new f)|]. rewrite length_app. simpl. lia.
  - intros [(ts & t' & Heq & Hc) Hl]. apply app_inj_2 in Heq as [-> _]; [|done].
    split; [by apply Forall_app_2; [|apply Forall_singleton]|]. by rewrite length_app in *.
  - intros [Hc Hl]. split; [done|]. lia.
  - intros [Hc Hl]. split_and!.
    + apply Forall_fmap. eapply Forall_impl; [exact Hc|]. intros t. unfold cancelled, task_abort. simpl.
      by destruct (ft_state t).
    + by rewrite length_fmap.
    + apply Forall_fmap, Forall_true. intros t. unfold task_over, task_abort. simpl. by destruct (ft_state t) eqn:E; simpl; rewrite ?E.
  - destruct pc as [todo|todo| |]; rewrite length_insert.
    + intros [Hc Hl]. split; [by apply insert_poll_cancelled|done].
    + intros [(ts & t' & Heq & Hc) Hl]. split; [|done]. subst tasks.
      destruct (decide (i < length ts)%nat) as [Hlt|Hge].
      * rewrite insert_app_l by done. rewrite lookup_app_l in Hi by done. eexists _, _.
        split; [done|]. by apply insert_poll_cancelled.
      * rewrite insert_app_r_alt by lia. rewrite lookup_app_r in Hi by lia. apply list_lookup_singleton_Some in Hi as [-> ->].
        by eexists _, _.
    + intros [Hc Hl]. split; [by apply insert_poll_cancelled|done].
    + intros (Hc & Hl & Ho). split_and!; [by apply insert_poll_cancelled|done|].
      apply Forall_insert; [done|]. pose proof (Forall_lookup_1 _ _ _ _ Ho Hi) as Hov. simpl in Hov. by rewrite task_poll_over.
Qed.

Lemma lf_reachable_ok forwarders s : rtc lf_step (local_fwds_new forwarders) s → lw_ok (length forwarders) s.
Proof.
  intros Hr. eapply (rtc_ind_r (lw_ok _) (local_fwds_new forwarders)); [by split| |exact Hr].
  intros ? ? _ Hs. by apply lf_step_ok.
Qed.

(** ** Theorem *)

(** C39: a local forward does not outlive its first poll.  Once the forwarders
    are spawned, every one of them has lost the sender of its cancellation
    channel, which went out of scope with the iteration that made it; whichever
    branch is polled first, whatever the listener has ready, the next poll of
    the task ends it, and from then on it takes no connection, although nothing
    has asked for a shutdown. *)
Theorem local_forward_stops forwarders s :
  rtc lf_step (local_fwds_new forwarders) s → lw_pc s = AwaitShutdown →
  length (lw_tasks s) = length forwarders
  ∧ ∀ t, t ∈ lw_tasks s → ∀ run_first bind events,
      let t' := task_poll run_first bind events t in
      task_over t' = true
      ∧ (run_first = false → ft_proxied t' = ft_proxied t)
      ∧ ∀ run_first' bind' events', task_poll run_first' bind' events' t' = t'.
Proof.
  intros Hr Hpc. pose proof (lf_reachable_ok _ _ Hr) as Hok. unfold lw_ok in Hok. rewrite Hpc in Hok.
  destruct Hok as [Hc Hl]. split; [done|]. intros t Ht run_first bind events t'.
  rewrite Forall_forall in Hc. specialize (Hc t Ht). pose proof (task_poll_last run_first bind events t Hc) as Hover.
  split_and!; [done| |intros; by apply task_poll_over]. intros ->. unfold t', task_poll.
  rewrite Hc. by destruct (ft_state t).
Qed.

(** ** Example: one forward, bound before its sender is dropped *)
Module LocalForwardExample.

Definition db : LocalForwarder := mkLocalForwarder (mkForwardSpec SpecLocal "127.0.0.1" 5432 "db" 5432).
Definition binds (_ : SocketAddr) : result unit string := Ok ().
Definition bound : FwdTask := task_poll true binds [] (task_new db).
Definition spawned : LocalFwds := mkLocalFwds AwaitShutdown [drop_cancel bound].

Lemma spawned_reached : rtc lf_step (local_fwds_new [db]) spawned.
Proof.
  eapply rtc_l; [apply lf_spawn|]. eapply rtc_l; [apply (lf_poll _ _ 0 (task_new db) true binds []); reflexivity|].
  eapply rtc_l; [apply (lf_iteration [] [] bound)|]. apply rtc_once, lf_spawned.
Qed.

(** It listened. *)
Example bound_listens :
  ft_state bound = TaskRunning (mkForwarder (lf_spec db) (Some (mkSocketAddr (V4 [127; 0; 0; 1]) 5432 0))) RunLoop.
Proof. vm_compute. reflexivity. Qed.

Lemma local_forward_stops_witness :
  length (lw_tasks spawned) = length [db]
  ∧ ∀ t, t ∈ lw_tasks spawned → ∀ run_first bind events,
      let t' := task_poll run_first bind events t in
      task_over t' = true
      ∧ (run_first = false → ft_proxied t' = ft_proxied t)
      ∧ ∀ run_first' bind' events', task_poll run_first' bind' events' t' = t'.
Proof. apply (local_forward_stops [db] spawned spawned_reached). reflexivity. Defined.
End LocalForwardExample.
