(* ===== verification/Relay.v ===== *)
(** * Relaying bytes (server/channel_proxy.rs, client/forward.rs)

    Both ends of a tunnel copy bytes between a socket and an SSH channel with two
    [tokio::io::copy]s, one in each direction, and return when both have ended.
    The server's [proxy_channel] shuts the sink of a copy down when the copy is
    over; the client's [proxy_local_to_remote] and [handle_forwarded_channel]
    do not.  [relay_step] is both, with [shuts] telling them apart. *)
From S2P Require Import Prelude RustStd Net Keys Socket Socks5 ServerHandler ChannelProxy Client.
From Stdlib Require Import Strings.Byte.
Open Scope nat_scope.

(** ** One direction *)
Inductive CopyPc := Copying | Shutting | Finished.
#[export] Instance CopyPc_eq_dec : EqDecision CopyPc.
Proof. solve_decision. Defined.

Record Dir := mkDir {
  d_sent : list byte;       (* what the source has sent *)
  d_closed : bool;          (* the source sends no more *)
  d_written : list byte;    (* what the sink has been given *)
  d_shut : bool;            (* the sink has been told that this is all *)
  d_pc : CopyPc;
}.
Definition dir_new (available : list byte) : Dir := mkDir available false [] false Copying.

Definition copy_end (shuts : bool) : CopyPc := if shuts then Shutting else Finished.

(** A copy takes what is there, ends at the end of its source, and may fail
    where [faults] allows it. *)
Inductive dir_step (shuts faults : bool) : Dir → Dir → Prop :=
| dir_chunk sent closed chunk rest written shut :
    sent = written ++ chunk ++ rest → chunk ≠ [] →
    dir_step shuts faults (mkDir sent closed written shut Copying)
      (mkDir sent closed (written ++ chunk) shut Copying)
| dir_eof sent shut :
    dir_step shuts faults (mkDir sent true sent shut Copying) (mkDir sent true sent shut (copy_end shuts))
| dir_error sent closed written shut :
    faults = true →
    dir_step shuts faults (mkDir sent closed written shut Copying)
      (mkDir sent closed written shut (copy_end shuts))
| dir_shutdown sent closed written shut :
    dir_step shuts faults (mkDir sent closed written shut Shutting) (mkDir sent closed written true Finished).

(** ** Both *)
Inductive Side := ToTarget | ToClient.
#[export] Instance Side_eq_dec : EqDecision Side.
Proof. solve_decision. Defined.

Record Relay := mkRelay { to_target : Dir; to_client : Dir; rl_over : bool }.
Definition dir (s : Relay) (d : Side) : Dir := match d with ToTarget => to_target s | ToClient => to_client s end.
Definition set_dir (s : Relay) (d : Side) (x : Dir) : Relay :=
  match d with
  | ToTarget => mkRelay x (to_client s) (rl_over s)
  | ToClient => mkRelay (to_target s) x (rl_over s)
  end.
Definition relay_new (from_target : list byte) : Relay := mkRelay (dir_new []) (dir_new from_target) false.

(** [may_close d s]: the source of direction [d] may end its sending in [s]. *)
Inductive relay_step (shuts faults : bool) (may_close : Side → Relay → Prop) : Relay → Relay → Prop :=
| relay_send s d bs :
    d_closed (dir s d) = false →
    relay_step shuts faults may_close s
      (set_dir s d (mkDir (d_sent (dir s d) ++ bs) false (d_written (dir s d)) (d_shut (dir s d)) (d_pc (dir s d))))
| relay_close s d :
    d_closed (dir s d) = false → may_close d s →
    relay_step shuts faults may_close s
      (set_dir s d (mkDir (d_sent (dir s d)) true (d_written (dir s d)) (d_shut (dir s d)) (d_pc (dir s d))))
| relay_copy s d x :
    rl_over s = false → dir_step shuts faults (dir s d) x → relay_step shuts faults may_close s (set_dir s d x)
| relay_return s :
    rl_over s = false → d_pc (to_target s) = Finished → d_pc (to_client s) = Finished →
    relay_step shuts faults may_close s (mkRelay (to_target s) (to_client s) true).

(** ** The three relays *)
(** The server: nothing is relayed when the outbound connection fails. *)
Definition proxy_channel (tcp_connect : SocketAddr → result Sock IoErr) (target : SocketAddr) (proxy : ProxyConfig)
    : option Relay :=
  match connect_outbound tcp_connect target proxy with
  | Ok outbound => Some (relay_new (sk_data outbound))
  | Err _ => None
  end.

(** The client, for a connection to a local forward. *)
Definition proxy_local_to_remote (direct_tcpip : string → Z → string → Z → result unit string)
    (local_addr remote_host : string) (remote_port : Z) : result Relay ForwardError :=
  let? _ := map_err Keys.ChannelOpenFailed (direct_tcpip remote_host remote_port local_addr 0%Z) in
  Ok (relay_new []).

(** The client, for a channel the server opens for a remote forward. *)
Definition handle_forwarded_channel (connect : string → result (list byte) string) (local_host : string)
    (local_port : Z) : option Relay :=
  match connect (host_port local_host local_port) with
  | Ok available => Some (relay_new available)
  | Err _ => None
  end.

(** [RemoteForwarder::register] and [unregister]: the server's answer. *)
Definition forwarder_register (tcpip_forward : string → Z → result Z string) (rf : RemoteForwarder) : result Z ForwardError :=
  map_err Keys.ChannelOpenFailed (tcpip_forward (fs_bind_addr (rf_spec rf)) (fs_bind_port (rf_spec rf))).
Definition forwarder_unregister (cancel_tcpip_forward : string → Z → result unit string) (rf : RemoteForwarder)
    : result unit ForwardError :=
  map_err Keys.ChannelOpenFailed (cancel_tcpip_forward (fs_bind_addr (rf_spec rf)) (fs_bind_port (rf_spec rf))).

(** ** Invariant *)
Definition dir_ok (shuts faults : bool) (x : Dir) : Prop :=
  d_written x `prefix_of` d_sent x
  ∧ (d_pc x = Shutting → shuts = true)
  ∧ (d_shut x = true → shuts = true ∧ d_pc x = Finished)
  ∧ (d_pc x = Finished → shuts = true → d_shut x = true)
  ∧ (faults = false → d_pc x ≠ Copying → d_closed x = true ∧ d_written x = d_sent x).

Definition relay_ok (shuts faults : bool) (s : Relay) : Prop :=
  (∀ d, dir_ok shuts faults (dir s d)) ∧ (rl_over s = true → ∀ d, d_pc (dir s d) = Finished).

Lemma dir_set_same s d x : dir (set_dir s d x) d = x.
Proof. by destruct d. Qed.
Lemma dir_set_other s d d' x : d ≠ d' → dir (set_dir s d x) d' = dir s d'.
Proof. by destruct d, d'. Qed.
Lemma over_set_dir s d x : rl_over (set_dir s d x) = rl_over s.
Proof. by destruct d. Qed.

Section Invariant.
Context (shuts faults : bool) (may_close : Side → Relay → Prop).

Lemma dir_new_ok bs : dir_ok shuts faults (dir_new bs).
Proof. split_and!; [apply prefix_nil|done..]. Qed.

Lemma relay_new_ok bs : relay_ok shuts faults (relay_new bs).
Proof. split; [|done]. intros []; apply dir_new_ok. Qed.

Lemma dir_step_ok x y : dir_step shuts faults x y → dir_ok shuts faults x → dir_ok shuts faults y.
Proof.
  intros Hs (Hpre & Hst & Hsh & Hfin & Hfull). destruct Hs as [sent closed chunk rest written shut -> _|sent shut|
    sent closed written shut Hf|sent closed written shut]; simpl in *; split_and!; simpl; try done;
    try (intros Hd; by destruct (Hsh Hd)); try (unfold copy_end; by destruct shuts); auto.
  - rewrite (assoc_L (++)). by apply prefix_app_r.
  - by rewrite Hf.
Qed.

Lemma relay_set_ok s d x :
  relay_ok shuts faults s → dir_ok shuts faults x → (rl_over s = true → d_pc x = Finished) →
  relay_ok shuts faults (set_dir s d x).
Proof.
  intros [Hd Ho] Hx Hp. split.
  - intros d'. destruct (decide (d = d')) as [<-|Hne]; [by rewrite dir_set_same|by rewrite dir_set_other].
  - rewrite over_set_dir. intros Hover d'.
    destruct (decide (d = d')) as [<-|Hne]; [rewrite dir_set_same|rewrite dir_set_other]; auto.
Qed.

Lemma relay_step_ok s s' : relay_step shuts faults may_close s s' → relay_ok shuts faults s → relay_ok shuts faults s'.
Proof.
  intros Hs Hok. pose proof Hok as [Hd Ho].
  destruct Hs as [s d bs Hc|s d Hc Hm|s d x Hover Hs|s Hover Ht Hcl].
  - apply relay_set_ok; [done| |intros Hov; by apply Ho]. destruct (Hd d) as (Hpre & Hst & Hsh & Hfin & Hfull).
    split_and!; simpl; [by apply prefix_app_r|done..|]. intros Hf Hp. destruct (Hfull Hf Hp). congruence.
  - apply relay_set_ok; [done| |intros Hov; by apply Ho]. destruct (Hd d) as (Hpre & Hst & Hsh & Hfin & Hfull).
    split_and!; simpl; [done..|]. intros Hf Hp. destruct (Hfull Hf Hp). by split.
  - apply relay_set_ok; [done|by eapply dir_step_ok|by rewrite Hover].
  - split; [done|]. intros _ []; done.
Qed.

Lemma relay_rtc_ok s s' :
  rtc (relay_step shuts faults may_close) s s' → relay_ok shuts faults s → relay_ok shuts faults s'.
Proof. induction 1 as [|s s1 s' Hs _ IH]; [done|]. intros Hok. by eapply IH, relay_step_ok. Qed.

Lemma relay_reachable_ok bs s : rtc (relay_step shuts faults may_close) (relay_new bs) s → relay_ok shuts faults s.
Proof. intros Hr. eapply relay_rtc_ok; [exact Hr|apply relay_new_ok]. Qed.
End Invariant.

(** ** Termination *)
Definition pc_rank (pc : CopyPc) : nat := match pc with Copying => 2 | Shutting => 1 | Finished => 0 end.
Definition dir_left (x : Dir) : nat := length (d_sent x) - length (d_written x) + pc_rank (d_pc x).
Definition relay_left (s : Relay) : nat :=
  dir_left (to_target s) + dir_left (to_client s) + (if rl_over s then 0 else 1).

Definition both_closed (s : Relay) : Prop := ∀ d, d_closed (dir s d) = true.

Section Termination.
Context (shuts faults : bool) (may_close : Side → Relay → Prop).

Lemma dir_step_left x y : dir_step shuts faults x y → dir_left y < dir_left x ∧ d_closed y = d_closed x.
Proof.
  intros Hs. destruct Hs as [sent closed chunk rest written shut -> Hne| | |]; unfold dir_left; simpl; (split; [|done]).
  - rewrite !length_app. destruct chunk; [done|]. simpl. lia.
  - unfold copy_end. destruct shuts; simpl; lia.
  - unfold copy_end. destruct shuts; simpl; lia.
  - lia.
Qed.

Lemma relay_step_left s s' :
  relay_step shuts faults may_close s s' → both_closed s → relay_left s' < relay_left s ∧ both_closed s'.
Proof.
  intros Hs Hc. destruct Hs as [s d bs Ho|s d Ho|s d x Hover Hs|s Hover Ht Hcl].
  - by rewrite Hc in Ho.
  - by rewrite Hc in Ho.
  - destruct (dir_step_left _ _ Hs) as [Hl Hcx]. split.
    + unfold relay_left. destruct d; simpl in *; rewrite Hover; lia.
    + intros d'. destruct (decide (d = d')) as [<-|Hne]; [rewrite dir_set_same|rewrite dir_set_other]; [congruence|done..].
  - split; [unfold relay_left; simpl; rewrite Hover; lia|]. intros []; [apply (Hc ToTarget)|apply (Hc ToClient)].
Qed.

(** A direction that is not finished, with its source closed, can go on. *)
Lemma dir_progress x :
  d_written x `prefix_of` d_sent x → d_closed x = true → d_pc x ≠ Finished → ∃ y, dir_step shuts faults x y.
Proof.
  destruct x as [sent closed written shut pc]. simpl. intros [[|b rest] ->] -> Hp; destruct pc; [| |done| | |done].
  - rewrite app_nil_r. eexists. apply dir_eof.
  - eexists. apply dir_shutdown.
  - eexists. by eapply (dir_chunk _ _ _ _ [b] rest).
  - eexists. apply dir_shutdown.
Qed.

Lemma relay_progress s :
  relay_ok shuts faults s → both_closed s → rl_over s = false → ∃ s', relay_step shuts faults may_close s s'.
Proof.
  intros [Hd _] Hc Ho.
  destruct (decide (d_pc (to_target s) = Finished)) as [Ht|Ht].
  - destruct (decide (d_pc (to_client s) = Finished)) as [Hl|Hl]; [eexists; by apply relay_return|].
    destruct (dir_progress (to_client s)) as [y Hy]; [apply (Hd ToClient)|apply (Hc ToClient)|done|].
    eexists. by apply (relay_copy _ _ _ _ ToClient y).
  - destruct (dir_progress (to_target s)) as [y Hy]; [apply (Hd ToTarget)|apply (Hc ToTarget)|done|].
    eexists. by apply (relay_copy _ _ _ _ ToTarget y).
Qed.
End Termination.

(** Every run from a state with both sources closed is short. *)
Lemma relay_runs_left shuts faults may_close n s s' :
  nsteps (relay_step shuts faults may_close) n s s' → both_closed s → n + relay_left s' ≤ relay_left s ∧ both_closed s'.
Proof.
  induction 1 as [s|n s s1 s' Hs _ IH]; intros Hc; [done|].
  destruct (relay_step_left _ _ _ _ _ Hs Hc) as [Hl Hc1]. destruct (IH Hc1). split; [lia|done].
Qed.

Section Drain.
Context (shuts : bool) (may_close : Side → Relay → Prop).

(** A direction whose source is closed delivers everything on its own. *)
Lemma dir_drains x :
  dir_ok shuts false x → d_closed x = true →
  ∃ y, rtc (dir_step shuts false) x y ∧ d_pc y = Finished ∧ d_closed y = true ∧ d_sent y = d_sent x.
Proof.
  induction x as [x IH] using (well_founded_induction (well_founded_ltof _ dir_left)). intros Hok Hc.
  destruct (decide (d_pc x = Finished)) as [Hp|Hp]; [by exists x|].
  destruct (dir_progress shuts false x) as [y Hy]; [by destruct Hok|done..|].
  pose proof (dir_step_left _ _ _ _ Hy) as [Hl Hcy].
  destruct (IH y Hl) as (z & Hz & Hzp & Hzc & Hzs); [by eapply dir_step_ok|congruence|].
  exists z. split_and!; [by eapply rtc_l|done..|]. rewrite Hzs. by destruct Hy.
Qed.

Lemma relay_copies s d y :
  rl_over s = false → rtc (dir_step shuts false) (dir s d) y →
  rtc (relay_step shuts false may_close) s (set_dir s d y).
Proof.
  intros Ho Hr. remember (dir s d) as x eqn:Hx. induction Hr as [x|x x1 y Hs _ IH] in s, Ho, Hx |- *.
  - subst x. destruct s as [t c o], d; apply rtc_refl.
  - subst x. eapply rtc_l; [by apply (relay_copy _ _ _ _ d x1)|].
    specialize (IH (set_dir s d x1)). rewrite over_set_dir, dir_set_same in IH.
    replace (set_dir s d y) with (set_dir (set_dir s d x1) d y) by (by destruct d). auto.
Qed.

Lemma relay_drains s d :
  relay_ok shuts false s → rl_over s = false → d_closed (dir s d) = true →
  ∃ y, rtc (relay_step shuts false may_close) s (set_dir s d y) ∧ dir_ok shuts false y
    ∧ d_pc y = Finished ∧ d_closed y = true ∧ d_written y = d_sent (dir s d) ∧ d_sent y = d_sent (dir s d).
Proof.
  intros Hok Ho Hc. destruct (dir_drains (dir s d)) as (y & Hy & Hp & Hyc & Hys); [apply (proj1 Hok d)|done|].
  pose proof (relay_copies s d y Ho Hy) as Hr.
  pose proof (proj1 (relay_rtc_ok _ _ _ _ _ Hr Hok) d) as Hyok. rewrite dir_set_same in Hyok.
  exists y. split_and!; try done. rewrite <-Hys. destruct Hyok as (_ & _ & _ & _ & Hfull). apply Hfull; [done|by rewrite Hp].
Qed.

(** Once both sources are closed the relay can be run to its end. *)
Lemma relay_finishes s :
  relay_ok shuts false s → rl_over s = false → both_closed s →
  ∃ s', rtc (relay_step shuts false may_close) s s' ∧ rl_over s' = true
    ∧ d_written (to_target s') = d_sent (to_target s) ∧ d_written (to_client s') = d_sent (to_client s).
Proof.
  intros Hok Ho Hc. destruct (relay_drains s ToTarget Hok Ho (Hc _)) as (y & Hr1 & _ & Hyp & _ & Hyw & _).
  destruct (relay_drains (set_dir s ToTarget y) ToClient) as (z & Hr2 & _ & Hzp & _ & Hzw & _);
    [by eapply relay_rtc_ok|done|apply (Hc ToClient)|].
  exists (mkRelay y z true). split_and!; [|done..]. etrans; [exact Hr1|]. etrans; [exact Hr2|].
  apply rtc_once, (relay_return _ _ _ (mkRelay y z (rl_over s))); done.
Qed.
End Drain.

(** ** Theorems *)

(** A relay ends once both of its sources have.  From then on it takes a
    bounded number of steps however they are scheduled, it can always take the
    next one until it returns, and if no copy failed every byte sent has been
    delivered, in order, when it does. *)
Theorem relay_terminates shuts faults may_close bs s n s' :
  rtc (relay_step shuts faults may_close) (relay_new bs) s → both_closed s →
  nsteps (relay_step shuts faults may_close) n s s' →
  n ≤ relay_left s
  ∧ (rl_over s' = false → ∃ s'', relay_step shuts faults may_close s' s'')
  ∧ (rl_over s' = true → faults = false → ∀ d, d_written (dir s' d) = d_sent (dir s' d)).
Proof.
  intros Hr Hc Hn. destruct (relay_runs_left _ _ _ _ _ _ Hn Hc) as [Hl Hc'].
  assert (relay_ok shuts faults s') as Hok.
  { eapply relay_rtc_ok; [by eapply rtc_nsteps_2|]. by eapply relay_reachable_ok. }
  split_and!; [lia|by apply relay_progress|]. intros Hov Hf d. destruct Hok as [Hd Ho].
  destruct (Hd d) as (_ & _ & _ & _ & Hfull). apply Hfull; [done|]. by rewrite Ho.
Qed.

(** The server relays a half-close.  When the client has ended its side of
    a channel, the target is given every byte and then told that there are no
    more; so a target that answers and closes only after the end of its input
    completes the exchange: the relay can be run to its end with everything
    delivered both ways. *)
Theorem proxy_channel_half_close tcp_connect target proxy start may_close s :
  proxy_channel tcp_connect target proxy = Some start →
  (∀ s, d_shut (to_target s) = true → may_close ToClient s) →
  rtc (relay_step true false may_close) start s → rl_over s = false → d_closed (to_target s) = true →
  ∃ s', rtc (relay_step true false may_close) s s' ∧ rl_over s' = true
    ∧ d_written (to_target s') = d_sent (to_target s) ∧ d_written (to_client s') = d_sent (to_client s).
Proof.
  intros Hstart Hm Hr Ho Hc. assert (relay_ok true false s) as Hok.
  { unfold proxy_channel in Hstart. destruct (connect_outbound _ _ _); [|done]. injection Hstart as <-.
    by eapply relay_reachable_ok. }
  destruct (relay_drains true may_close s ToTarget Hok Ho Hc) as (y & Hr1 & Hyok & Hyp & Hyc & _ & Hys).
  assert (d_shut y = true) as Hsh by (destruct Hyok as (_ & _ & _ & Hfin & _); auto).
  assert (∃ z, rtc (relay_step true false may_close) (set_dir s ToTarget y) (mkRelay y z false)
               ∧ d_closed z = true ∧ d_sent z = d_sent (to_client s)) as (z & Hr2 & Hzc & Hzs).
  { simpl. rewrite Ho. destruct (d_closed (to_client s)) eqn:Hcl; [by exists (to_client s)|]. eexists.
    split; [apply rtc_once, (relay_close _ _ _ (mkRelay y (to_client s) false) ToClient); auto|done]. }
  destruct (relay_finishes true may_close (mkRelay y z false)) as (s' & Hr3 & Hov & Hwt & Hwc).
  - by eapply relay_rtc_ok, relay_rtc_ok.
  - done.
  - by intros [].
  - simpl in *. exists s'. split_and!; [by etrans; [|etrans]|done|congruence|congruence].
Qed.

(** The client's forwards do not.  A target that closes only when it has
    been told that its input has ended is never told: whatever the local peer
    does, the relay of a local forward is not over, and neither side has been
    shut down. *)
Theorem local_forward_half_close_hangs direct_tcpip local_addr host port start may_close s :
  proxy_local_to_remote direct_tcpip local_addr host port = Ok start →
  (∀ s, may_close ToClient s → d_shut (to_target s) = true) →
  rtc (relay_step false false may_close) start s →
  rl_over s = false ∧ d_shut (to_target s) = false ∧ d_shut (to_client s) = false.
Proof.
  unfold proxy_local_to_remote. intros Hstart Hm Hr. destruct (direct_tcpip _ _ _ _); [|done].
  injection Hstart as <-.
  assert (∀ s, relay_ok false false s → ∀ d, d_shut (dir s d) = false) as Hns.
  { intros s1 [Hd _] d. destruct (Hd d) as (_ & _ & Hsh & _). destruct (d_shut (dir s1 d)); naive_solver. }
  assert (relay_ok false false s ∧ d_closed (to_client s) = false) as [Hok Hcl].
  { eapply rtc_ind_r with (P := λ s, relay_ok false false s ∧ d_closed (to_client s) = false);
      [split; [apply relay_new_ok|done]| |exact Hr].
    intros s1 s2 _ Hs [Hok1 Hcl]. split; [by eapply relay_step_ok|].
    destruct Hs as [s1 [] bs Hc|s1 [] Hc Hmc|s1 [] x Hov Hs|s1]; simpl in *; try done.
    - apply Hm in Hmc. pose proof (Hns _ Hok1 ToTarget). simpl in *. congruence.
    - destruct (dir_step_left _ _ _ _ Hs) as [_ Hx]. congruence. }
  split_and!; [|apply (Hns _ Hok ToTarget)|apply (Hns _ Hok ToClient)].
  destruct (rl_over s) eqn:Ho; [|done]. destruct Hok as [Hd Hov].
  destruct (Hd ToClient) as (_ & _ & _ & _ & Hfull). destruct Hfull as [Hc _]; [done| |simpl in Hc; congruence].
  by rewrite (Hov Ho).
Qed.

(** ** Example: one byte, answered by the end of the input *)
Module RelayExample.

Definition listening (_ : SocketAddr) : result Sock IoErr := Ok (quiet [] []).
Definition target : SocketAddr := mkSocketAddr (V4 [10; 0; 0; 1]%Z) 80 0.
Definition opens (_ : string) (_ : Z) (_ : string) (_ : Z) : result unit string := Ok ().
(** The client closes when it likes, the target when it has been told to. *)
Definition polite (d : Side) (s : Relay) : Prop :=
  match d with ToTarget => True | ToClient => d_shut (to_target s) = true end.

Definition asked : Relay := mkRelay (mkDir [x41] true [] false Copying) (dir_new []) false.
Lemma asked_reached shuts faults : rtc (relay_step shuts faults polite) (relay_new []) asked.
Proof.
  eapply rtc_l; [apply (relay_send _ _ _ (relay_new []) ToTarget [x41]); reflexivity|].
  apply rtc_once. by apply (relay_close _ _ _ (mkRelay (mkDir [x41] false [] false Copying) (dir_new []) false) ToTarget).
Qed.

Lemma proxy_channel_half_close_witness :
  ∃ s', rtc (relay_step true false polite) asked s' ∧ rl_over s' = true
    ∧ d_written (to_target s') = [x41] ∧ d_written (to_client s') = [].
Proof.
  apply (proxy_channel_half_close listening target (mkProxyConfig Direct) (relay_new []) polite asked);
    [reflexivity|done|apply asked_reached|reflexivity..].
Defined.

Lemma local_forward_half_close_hangs_witness :
  rl_over asked = false ∧ d_shut (to_target asked) = false ∧ d_shut (to_client asked) = false.
Proof.
  apply (local_forward_half_close_hangs opens "127.0.0.1:5000" "db.internal" 5432 (relay_new []) polite asked);
    [reflexivity|done|apply asked_reached].
Defined.

Definition free (_ : Side) (_ : Relay) : Prop := True.
Definition ended : Relay := mkRelay (mkDir [] true [] false Copying) (mkDir [] true [] false Copying) false.
Lemma ended_reached : rtc (relay_step true false free) (relay_new []) ended.
Proof.
  eapply rtc_l; [by apply (relay_close _ _ _ (relay_new []) ToTarget)|].
  apply rtc_once. by apply (relay_close _ _ _ (mkRelay (mkDir [] true [] false Copying) (dir_new []) false) ToClient).
Qed.
Definition half_done : Relay := mkRelay (mkDir [] true [] false Shutting) (mkDir [] true [] false Copying) false.

Lemma relay_terminates_witness :
  1 ≤ relay_left ended
  ∧ (rl_over half_done = false → ∃ s'', relay_step true false free half_done s'')
  ∧ (rl_over half_done = true → false = false → ∀ d, d_written (dir half_done d) = d_sent (dir half_done d)).
Proof.
  apply (relay_terminates true false free [] ended 1 half_done); [apply ended_reached|by intros []|].
  eapply nsteps_l; [|apply nsteps_O]. apply (relay_copy _ _ _ ended ToTarget); [reflexivity|].
  apply (dir_eof true false []).
Defined.
End RelayExample.
