(* ===== verification/Pipe.v ===== *)
(** * The bytes of a tunnelled connection, end to end

    A connection through a tunnel is copied twice: at the client, between the
    application's socket and an SSH channel ([copy_bidirectional] of
    socks5/mod.rs, or the relay of client/forward.rs), and at the server, between
    that channel and the target ([proxy_channel] of server/channel_proxy.rs).
    [pipe_step] puts two relays of [Relay] in a row.  The SSH channel between
    them is russh's, a parameter: it passes on what was written, in order and
    after any delay, and then the end, when the writing side was shut down or
    dropped ([SshChannelLaws]). *)
From S2P Require Import Prelude RustStd Net Keys Socket Socks5 ServerHandler ChannelProxy Client Relay.
From Stdlib Require Import Strings.Byte.
Open Scope nat_scope.

(** ** The SSH channel
    One direction of a channel between the two relays, as the stream that
    [Channel::into_stream] gives.  [ssh_move written ended taken given given'
    closed]: when [written] has been written to it, and [ended] tells whether the
    writing side was shut down or dropped, and its reader has been given [given]
    and has [taken] of that, it may give more, up to [given'], or the end. *)
Class SshChannel := {
  ssh_move : list byte → bool → list byte → list byte → list byte → bool → Prop;
}.
(** What is given is what was written, in order; the end comes after all of it,
    and only when the writing side has ended; a move gives something; and when
    the reader has taken all it was given, so that the channel's window is open,
    there is a move if there is something to give. *)
Class SshChannelLaws (C : SshChannel) : Prop := {
  ssh_in_order w e t g g' c :
    ssh_move w e t g g' c → g `prefix_of` w → g `prefix_of` g' ∧ g' `prefix_of` w;
  ssh_ends w e t g g' c : ssh_move w e t g g' c → c = true → e = true ∧ g' = w;
  ssh_moves w e t g g' c : ssh_move w e t g g' c → g' ≠ g ∨ c = true;
  ssh_live w e g : g `prefix_of` w → g ≠ w ∨ e = true → ∃ g' c, ssh_move w e g g g' c;
}.

Section Pipe.
Context `{L : SshChannelLaws}.

(** ** Two relays in a row *)
Inductive End := Near | Far.
#[export] Instance End_eq_dec : EqDecision End.
Proof. solve_decision. Defined.

Record Pipe := mkPipe { near : Relay; far : Relay }.
Definition relay_at (p : Pipe) (e : End) : Relay := match e with Near => near p | Far => far p end.
Definition put_relay (p : Pipe) (e : End) (r : Relay) : Pipe :=
  match e with Near => mkPipe r (far p) | Far => mkPipe (near p) r end.
Definition dir_at (p : Pipe) (e : End) (d : Side) : Dir := dir (relay_at p e) d.
Definition put (p : Pipe) (e : End) (d : Side) (x : Dir) : Pipe := put_relay p e (set_dir (relay_at p e) d x).

(** Where the bytes of a direction enter, and where they leave. *)
Definition entry (d : Side) : End := match d with ToTarget => Near | ToClient => Far end.
Definition exit_ (d : Side) : End := match d with ToTarget => Far | ToClient => Near end.

Definition dir_send (x : Dir) (bs : list byte) : Dir := mkDir (d_sent x ++ bs) false (d_written x) (d_shut x) (d_pc x).
Definition dir_close (x : Dir) : Dir := mkDir (d_sent x) true (d_written x) (d_shut x) (d_pc x).
(** What the channel gives to the relay that reads from it. *)
Definition dir_give (x : Dir) (given : list byte) (closed : bool) : Dir :=
  mkDir given closed (d_written x) (d_shut x) (d_pc x).

(** The relay that writes to the channel has shut it down or dropped it. *)
Definition chan_ended (p : Pipe) (d : Side) : bool :=
  d_shut (dir_at p (entry d) d) || rl_over (relay_at p (entry d)).

(** The server's relay shuts its sinks down; [near_shuts] tells whether the
    client's does. *)
Definition shuts_at (near_shuts : bool) (e : End) : bool := match e with Near => near_shuts | Far => true end.

(** One direction: the copies at both ends, and the channel between them. *)
Inductive pass_step (near_shuts faults : bool) (d : Side) : Pipe → Pipe → Prop :=
| ps_copy p e x :
    rl_over (relay_at p e) = false → dir_step (shuts_at near_shuts e) faults (dir_at p e d) x →
    pass_step near_shuts faults d p (put p e d x)
| ps_channel p given closed :
    d_closed (dir_at p (exit_ d) d) = false →
    ssh_move (d_written (dir_at p (entry d) d)) (chan_ended p d) (d_written (dir_at p (exit_ d) d))
      (d_sent (dir_at p (exit_ d) d)) given closed →
    pass_step near_shuts faults d p (put p (exit_ d) d (dir_give (dir_at p (exit_ d) d) given closed)).

Inductive pipe_step (near_shuts faults : bool) (may_close : Side → Pipe → Prop) : Pipe → Pipe → Prop :=
(** The application, or the target. *)
| pp_send p d bs :
    d_closed (dir_at p (entry d) d) = false →
    pipe_step near_shuts faults may_close p (put p (entry d) d (dir_send (dir_at p (entry d) d) bs))
| pp_close p d :
    d_closed (dir_at p (entry d) d) = false → may_close d p →
    pipe_step near_shuts faults may_close p (put p (entry d) d (dir_close (dir_at p (entry d) d)))
(** The relays and the channel; [copy_bidirectional] returns at its first error. *)
| pp_pass p d p' : pass_step near_shuts faults d p p' → pipe_step near_shuts faults may_close p p'
| pp_return p e :
    rl_over (relay_at p e) = false → d_pc (dir_at p e ToTarget) = Finished → d_pc (dir_at p e ToClient) = Finished →
    pipe_step near_shuts faults may_close p (put_relay p e (mkRelay (dir_at p e ToTarget) (dir_at p e ToClient) true))
| pp_abort p :
    faults = true → rl_over (near p) = false →
    pipe_step near_shuts faults may_close p (mkPipe (mkRelay (to_target (near p)) (to_client (near p)) true) (far p)).

(** A tunnel that has just been opened; [far] is what [proxy_channel] starts. *)
Definition pipe_new (far : Relay) : Pipe := mkPipe (relay_new []) far.

(** ** Bytes stay in order *)
Lemma dir_at_put p e d x e' d' : dir_at (put p e d x) e' d' = if decide (e = e' ∧ d = d') then x else dir_at p e' d'.
Proof. destruct p as [[] []], e, d, e', d'; done. Qed.
Lemma dir_at_put_same p e d x : dir_at (put p e d x) e d = x.
Proof. rewrite dir_at_put. by rewrite decide_True. Qed.
Lemma dir_at_put_other p e d x e' d' : ¬ (e = e' ∧ d = d') → dir_at (put p e d x) e' d' = dir_at p e' d'.
Proof. intros Hne. rewrite dir_at_put. by rewrite decide_False. Qed.
Lemma entry_exit d : entry d ≠ exit_ d.
Proof. by destruct d. Qed.
Lemma over_put p e d x e' : rl_over (relay_at (put p e d x) e') = rl_over (relay_at p e').
Proof. destruct p as [[] []], e, d, e'; done. Qed.

Definition in_order (p : Pipe) (d : Side) : Prop :=
  let x := dir_at p (entry d) d in
  let y := dir_at p (exit_ d) d in
  d_written x `prefix_of` d_sent x ∧ d_sent y `prefix_of` d_written x ∧ d_written y `prefix_of` d_sent y.

Lemma dir_step_written shuts faults x x' :
  dir_step shuts faults x x' →
  d_sent x' = d_sent x ∧ d_closed x' = d_closed x ∧ d_written x `prefix_of` d_written x'
  ∧ (d_written x `prefix_of` d_sent x → d_written x' `prefix_of` d_sent x').
Proof.
  intros Hs. destruct Hs as [sent closed chunk rest written shut -> _| | |]; simpl; split_and!; try done.
  - by apply prefix_app_r.
  - intros _. rewrite (assoc_L (++)). by apply prefix_app_r.
Qed.

(** What a change of one of the two relays of a direction has to respect. *)
Lemma in_order_put p e d x d' :
  in_order p d' →
  (d = d' → e = entry d → d_written (dir_at p e d) `prefix_of` d_written x ∧ d_written x `prefix_of` d_sent x) →
  (d = d' → e = exit_ d → d_sent x `prefix_of` d_written (dir_at p (entry d) d) ∧ d_written x `prefix_of` d_sent x) →
  in_order (put p e d x) d'.
Proof.
  intros (H1 & H2 & H3) Hen Hex. unfold in_order. rewrite !dir_at_put.
  destruct (decide (d = d')) as [<-|Hne].
  - destruct d, e; simpl in *; (repeat case_decide; try (exfalso; naive_solver); split_and!; try done);
      try (by apply Hen); try (by apply Hex); (etrans; [exact H2|by apply Hen]).
  - rewrite !decide_False by naive_solver. done.
Qed.

Lemma pass_step_in_order near_shuts faults d p p' :
  pass_step near_shuts faults d p p' → (∀ d, in_order p d) → ∀ d, in_order p' d.
Proof.
  intros Hs Hok d'. destruct (Hok d) as (H1 & H2 & H3). destruct Hs as [p e x Ho Hs|p g c Hc Hm].
  - destruct (dir_step_written _ _ _ _ Hs) as (Hsent & _ & Hw & Hp). apply in_order_put; [done|..]; intros <- ->.
    + split; [done|]. by apply Hp.
    + split; [by rewrite Hsent|by apply Hp].
  - destruct (ssh_in_order _ _ _ _ _ _ Hm H2) as [Hg Hg']. apply in_order_put; [done|by destruct d|].
    intros _ _. split; [done|]. by etrans.
Qed.

Lemma pipe_step_in_order near_shuts faults may_close p p' :
  pipe_step near_shuts faults may_close p p' → (∀ d, in_order p d) → ∀ d, in_order p' d.
Proof.
  intros Hs Hok. destruct Hs as [p d bs Hc|p d Hc Hm|p d p' Hs|p e Ho Ht Hcl|p Hf Ho]; [..|intros d'|intros d'].
  - intros d'. destruct (Hok d) as (H1 & _). apply in_order_put; [done| |by destruct d].
    intros _ _. split; [done|]. by apply prefix_app_r.
  - intros d'. destruct (Hok d) as (H1 & _). apply in_order_put; [done| |by destruct d]. by intros _ _.
  - by eapply pass_step_in_order.
  - specialize (Hok d'). destruct p as [[] []], e, d'; done.
  - specialize (Hok d'). destruct p as [[] []], d'; done.
Qed.

Lemma pipe_new_in_order bs d : in_order (pipe_new (relay_new bs)) d.
Proof. destruct d; split_and!; apply prefix_nil. Qed.

(** ** Ends are passed on *)
(** The channel ends after everything that is written to it. *)
Definition ends_follow (p : Pipe) (d : Side) : Prop :=
  d_closed (dir_at p (exit_ d) d) = true →
  d_sent (dir_at p (exit_ d) d) = d_written (dir_at p (entry d) d) ∧ d_pc (dir_at p (entry d) d) = Finished.

(** The two relays run as relays, and the channel ends so. *)
Record pipe_ok (near_shuts : bool) (p : Pipe) : Prop := {
  po_relay : ∀ e, relay_ok (shuts_at near_shuts e) false (relay_at p e);
  po_end : ∀ d, ends_follow p d;
}.

Definition anytime (_ : Side) (_ : Relay) : Prop := True.

(** A step of the pipe is made of steps of one relay. *)
Definition steps_one (near_shuts : bool) (p p' : Pipe) : Prop :=
  ∃ e, rtc (relay_step (shuts_at near_shuts e) false anytime) (relay_at p e) (relay_at p' e)
    ∧ ∀ e', e' ≠ e → relay_at p' e' = relay_at p e'.

Lemma put_steps_one near_shuts p e d x :
  rtc (relay_step (shuts_at near_shuts e) false anytime) (relay_at p e) (set_dir (relay_at p e) d x) →
  steps_one near_shuts p (put p e d x).
Proof. intros Hs. exists e. destruct p, e; (split; [exact Hs|]); by intros []. Qed.

(** What a channel gives a relay is sent to it, and then perhaps the end. *)
Lemma give_steps shuts r d g c :
  d_closed (dir r d) = false → d_sent (dir r d) `prefix_of` g →
  rtc (relay_step shuts false anytime) r (set_dir r d (dir_give (dir r d) g c)).
Proof.
  intros Hc [bs ->]. pose proof (relay_send shuts false anytime r d bs Hc) as Hs.
  destruct c; [|by apply rtc_once]. eapply rtc_l; [exact Hs|]. apply rtc_once.
  match type of Hs with relay_step _ _ _ _ ?r' =>
    pose proof (relay_close shuts false anytime r' d) as Hcl end.
  rewrite !dir_set_same in Hcl. simpl in Hcl.
  match goal with |- relay_step _ _ _ _ ?x =>
    replace x with (set_dir (set_dir r d (mkDir (d_sent (dir r d) ++ bs) false (d_written (dir r d)) (d_shut (dir r d)) (d_pc (dir r d)))) d
      (mkDir (d_sent (dir r d) ++ bs) true (d_written (dir r d)) (d_shut (dir r d)) (d_pc (dir r d)))) by (by destruct d) end.
  by apply Hcl.
Qed.

Lemma pipe_step_relay near_shuts may_close p p' :
  pipe_step near_shuts false may_close p p' → (∀ d, in_order p d) → steps_one near_shuts p p'.
Proof.
  intros Hs Hi. destruct Hs as [p d bs Hc|p d Hc Hm|p d p' Hs|p e Ho Ht Hcl|]; [..|done].
  - by apply put_steps_one, rtc_once, relay_send.
  - by apply put_steps_one, rtc_once, relay_close.
  - destruct Hs as [p e x Ho Hs|p g c Hc Hm]; apply put_steps_one; [by apply rtc_once, relay_copy|].
    apply give_steps; [done|]. destruct (Hi d) as (_ & H2 & _). by destruct (ssh_in_order _ _ _ _ _ _ Hm H2).
  - exists e. destruct p, e; (split; [by apply rtc_once, relay_return|]); by intros [].
Qed.

Lemma dir_step_unfinished shuts faults x x' : dir_step shuts faults x x' → d_pc x ≠ Finished.
Proof. by intros []. Qed.

Lemma pass_step_ends near_shuts p p' d :
  pass_step near_shuts false d p p' → pipe_ok near_shuts p → ends_follow p' d.
Proof.
  intros Hs [Hr He] . pose proof (entry_exit d). unfold ends_follow. destruct Hs as [p e x Ho Hs|p g c Hc Hm].
  - destruct (dir_step_written _ _ _ _ Hs) as (Hsent & Hcl & _). pose proof (dir_step_unfinished _ _ _ _ Hs) as Hu.
    destruct (decide (e = exit_ d)) as [->|Hx].
    + rewrite dir_at_put_same, dir_at_put_other by naive_solver. rewrite Hcl, Hsent. apply He.
    + rewrite (dir_at_put_other p e d x (exit_ d)) by naive_solver. intros Hc. destruct (He d Hc) as [? Hf].
      rewrite dir_at_put_other; [done|]. by intros [-> _].
  - rewrite dir_at_put_same, dir_at_put_other by naive_solver. simpl. intros ->.
    destruct (ssh_ends _ _ _ _ _ _ Hm eq_refl) as [Hsh Hg]. split; [done|].
    destruct (Hr (entry d)) as [Hd Hov]. apply orb_true_iff in Hsh as [Hsh|Hsh]; [by apply (Hd d)|by apply Hov].
Qed.

Lemma pass_step_put near_shuts faults d p p' :
  pass_step near_shuts faults d p p' →
  ∃ e x, p' = put p e d x
    ∧ (e = entry d → d_sent x = d_sent (dir_at p e d) ∧ d_closed x = d_closed (dir_at p e d)).
Proof.
  intros Hs. pose proof (entry_exit d). destruct Hs as [p e x Ho Hs|p g c Hc Hm].
  - exists e, x. split; [done|]. intros _. by destruct (dir_step_written _ _ _ _ Hs) as (? & ? & _).
  - eexists _, _. split; [done|]. naive_solver.
Qed.

Lemma pipe_step_ok near_shuts may_close p p' :
  pipe_step near_shuts false may_close p p' → (∀ d, in_order p d) → pipe_ok near_shuts p → pipe_ok near_shuts p'.
Proof.
  intros Hs Hi Hok. pose proof Hok as [Hr He]. split.
  - intros e. destruct (pipe_step_relay _ _ _ _ Hs Hi) as (e0 & Hs0 & Hsame).
    destruct (decide (e = e0)) as [->|Hne]; [by eapply relay_rtc_ok|by rewrite Hsame].
  - intros d'. destruct Hs as [p d bs Hc|p d Hc Hm|p d p' Hs|p e Ho Ht Hcl|]; [..|done].
    + unfold ends_follow. pose proof (entry_exit d). destruct (decide (d = d')) as [<-|Hd];
        [rewrite dir_at_put_same, dir_at_put_other by naive_solver|rewrite !dir_at_put_other by naive_solver]; apply He.
    + unfold ends_follow. pose proof (entry_exit d). destruct (decide (d = d')) as [<-|Hd];
        [rewrite dir_at_put_same, dir_at_put_other by naive_solver|rewrite !dir_at_put_other by naive_solver]; apply He.
    + destruct (decide (d = d')) as [<-|Hd]; [by eapply pass_step_ends|].
      destruct (pass_step_put _ _ _ _ _ Hs) as (e & x & -> & _). unfold ends_follow.
      rewrite !dir_at_put_other by naive_solver. apply He.
    + specialize (He d'). unfold ends_follow in *. destruct p as [[] []], e, d'; done.
Qed.

Lemma pipe_new_ok near_shuts bs : pipe_ok near_shuts (pipe_new (relay_new bs)).
Proof. split; intros []; (apply relay_new_ok || done). Qed.

Lemma pipe_reachable near_shuts faults may_close bs p :
  rtc (pipe_step near_shuts faults may_close) (pipe_new (relay_new bs)) p →
  (∀ d, in_order p d) ∧ (faults = false → pipe_ok near_shuts p).
Proof.
  intros Hr. eapply (rtc_ind_r (λ p, (∀ d, in_order p d) ∧ (faults = false → pipe_ok near_shuts p))
                       (pipe_new (relay_new bs))); [| |exact Hr].
  - split; [apply pipe_new_in_order|intros _; apply pipe_new_ok].
  - intros p1 p2 _ Hs [Hi Hok]. split; [by eapply pipe_step_in_order|]. intros ->. by eapply pipe_step_ok; [..|apply Hok].
Qed.

(** ** Termination *)
(** What is left to do in one direction: a byte has three moves to make. *)
Definition pass_left (p : Pipe) (d : Side) : nat :=
  let x := dir_at p (entry d) d in
  let y := dir_at p (exit_ d) d in
  3 * (length (d_sent x) - length (d_written x)) + 2 * (length (d_written x) - length (d_sent y))
  + (length (d_sent y) - length (d_written y)) + pc_rank (d_pc x) + pc_rank (d_pc y) + (if d_closed y then 0 else 1).
Definition over_left (r : Relay) : nat := if rl_over r then 0 else 1.
Definition pipe_left (p : Pipe) : nat :=
  pass_left p ToTarget + pass_left p ToClient + over_left (near p) + over_left (far p).

Definition sources_closed (p : Pipe) : Prop := ∀ d, d_closed (dir_at p (entry d) d) = true.
Definition pipe_over (p : Pipe) : Prop := ∀ e, rl_over (relay_at p e) = true.

Lemma dir_step_amount shuts faults x x' :
  dir_step shuts faults x x' →
  length (d_written x) < length (d_written x') ≤ length (d_sent x') ∧ d_pc x' = d_pc x
  ∨ d_written x' = d_written x ∧ pc_rank (d_pc x') < pc_rank (d_pc x).
Proof.
  intros Hs. destruct Hs as [sent closed chunk rest written shut -> Hne| | |]; simpl.
  - left. split; [|done]. rewrite !length_app. destruct chunk; [done|]. simpl. lia.
  - right. split; [done|]. unfold copy_end. destruct shuts; simpl; lia.
  - right. split; [done|]. unfold copy_end. destruct shuts; simpl; lia.
  - right. split; [done|lia].
Qed.

Lemma in_order_lengths p d :
  in_order p d →
  length (d_written (dir_at p (entry d) d)) ≤ length (d_sent (dir_at p (entry d) d))
  ∧ length (d_sent (dir_at p (exit_ d) d)) ≤ length (d_written (dir_at p (entry d) d))
  ∧ length (d_written (dir_at p (exit_ d) d)) ≤ length (d_sent (dir_at p (exit_ d) d)).
Proof. intros (H1 & H2 & H3). split_and!; by apply prefix_length. Qed.

Lemma pass_step_left near_shuts faults d p p' :
  pass_step near_shuts faults d p p' → in_order p d → pass_left p' d < pass_left p d.
Proof.
  intros Hs Hio. pose proof (in_order_lengths _ _ Hio) as Hi. pose proof (entry_exit d). unfold pass_left.
  destruct Hs as [p e x Ho Hs|p g c Hcl Hm].
  - destruct (dir_step_written _ _ _ _ Hs) as (Hsent & Hcl & _). pose proof (dir_step_amount _ _ _ _ Hs) as Ha.
    destruct (decide (e = entry d)) as [->|He].
    + rewrite dir_at_put_same, dir_at_put_other by naive_solver. rewrite Hsent in *.
      destruct Ha as [[Hw ->]|[-> Hpc]]; lia.
    + assert (e = exit_ d) as -> by (by destruct e, d). rewrite dir_at_put_same, dir_at_put_other by naive_solver.
      rewrite Hsent, Hcl in *. destruct Ha as [[Hw ->]|[-> Hpc]]; lia.
  - destruct Hio as (_ & H2 & _). destruct (ssh_in_order _ _ _ _ _ _ Hm H2) as [[bs ->] Hg%prefix_length].
    rewrite dir_at_put_same, dir_at_put_other by naive_solver. simpl. rewrite length_app in *. rewrite Hcl.
    destruct (ssh_moves _ _ _ _ _ _ Hm) as [Hne| ->]; [|lia]. destruct bs; [by rewrite app_nil_r in Hne|].
    simpl in *. destruct c; lia.
Qed.

(** A step of one direction leaves the other one alone, and its own source. *)
Lemma pass_step_keeps near_shuts faults d p p' :
  pass_step near_shuts faults d p p' →
  d_sent (dir_at p' (entry d) d) = d_sent (dir_at p (entry d) d)
  ∧ d_closed (dir_at p' (entry d) d) = d_closed (dir_at p (entry d) d)
  ∧ (∀ e d', d' ≠ d → dir_at p' e d' = dir_at p e d') ∧ ∀ e, rl_over (relay_at p' e) = rl_over (relay_at p e).
Proof.
  intros (e & x & -> & Hx)%pass_step_put. split_and!; [..|intros; apply dir_at_put_other; naive_solver|intros; apply over_put].
  - destruct (decide (e = entry d)) as [->|]; [rewrite dir_at_put_same; by apply Hx|by rewrite dir_at_put_other by naive_solver].
  - destruct (decide (e = entry d)) as [->|]; [rewrite dir_at_put_same; by apply Hx|by rewrite dir_at_put_other by naive_solver].
Qed.

Lemma pipe_step_left near_shuts faults may_close p p' :
  pipe_step near_shuts faults may_close p p' → (∀ d, in_order p d) → sources_closed p →
  pipe_left p' < pipe_left p ∧ sources_closed p'
  ∧ ∀ d, d_sent (dir_at p' (entry d) d) = d_sent (dir_at p (entry d) d).
Proof.
  intros Hs Hi Hc. destruct Hs as [p d bs Hcl|p d Hcl|p d p' Hs|p e Ho Ht Hcl|p Hf Ho].
  - by rewrite Hc in Hcl.
  - by rewrite Hc in Hcl.
  - pose proof (pass_step_left _ _ _ _ _ Hs (Hi d)) as Hl. destruct (pass_step_keeps _ _ _ _ _ Hs) as (Hsd & Hcd & Hsame & Hov).
    pose proof (Hov Near) as Hn. pose proof (Hov Far) as Hf. simpl in Hn, Hf. split_and!.
    + assert (∀ d', d' ≠ d → pass_left p' d' = pass_left p d') as Heq.
      { intros d' Hne. unfold pass_left. by rewrite !Hsame by done. }
      unfold pipe_left, over_left. rewrite Hn, Hf. destruct d; [rewrite (Heq ToClient)|rewrite (Heq ToTarget)]; (done || lia).
    + intros d'. destruct (decide (d' = d)) as [->|]; [by rewrite Hcd|by rewrite Hsame].
    + intros d'. destruct (decide (d' = d)) as [->|]; [done|by rewrite Hsame].
  - destruct p as [[? ? []] [? ? []]], e; simpl in Ho; try done; (split_and!;
      [unfold pipe_left, over_left, pass_left; simpl; lia|intros d'; specialize (Hc d'); by destruct d'|by intros []]).
  - destruct p as [[? ? []] [? ? ?]]; simpl in Ho; [done|]. split_and!;
      [unfold pipe_left, over_left, pass_left; simpl; lia|intros d'; specialize (Hc d'); by destruct d'|by intros []].
Qed.

(** ** Progress *)
Section Progress.
Context (near_shuts : bool) (may_close : Side → Pipe → Prop).

(** A copy whose source has ended takes its next step. *)
Lemma copies_on p e d :
  pipe_ok near_shuts p → d_closed (dir_at p e d) = true → d_pc (dir_at p e d) ≠ Finished →
  ∃ p', pass_step near_shuts false d p p'.
Proof.
  intros [Hr _] Hc Hp. destruct (Hr e) as [Hd Hov].
  destruct (dir_progress (shuts_at near_shuts e) false (dir_at p e d)) as [x Hx]; [by destruct (Hd d)|done..|].
  eexists. apply (ps_copy _ _ _ _ e x); [|done]. destruct (rl_over (relay_at p e)); [|done]. by destruct Hp; apply Hov.
Qed.

(** The channel passes on what was written to it, and then its end; if it waits
    for its reader, the reader goes on. *)
Lemma links_on p d :
  pipe_ok near_shuts p → in_order p d → chan_ended p d = true →
  d_closed (dir_at p (exit_ d) d) = false → ∃ p', pass_step near_shuts false d p p'.
Proof.
  intros [Hr _] (_ & H2 & [rest Hw]) Hsh Hc. destruct rest as [|b rest].
  - rewrite app_nil_r in Hw.
    destruct (ssh_live (d_written (dir_at p (entry d) d)) (chan_ended p d) (d_sent (dir_at p (exit_ d) d)) H2)
      as (g & c & Hm); [by right|]. eexists. apply (ps_channel _ _ _ _ g c); [done|]. by rewrite Hw in Hm |- *.
  - destruct (Hr (exit_ d)) as [Hd Hov]. destruct (Hd d) as (_ & _ & _ & _ & Hfull).
    assert (d_pc (dir_at p (exit_ d) d) = Copying) as Hpc.
    { unfold dir_at in *. destruct (decide (d_pc (dir (relay_at p (exit_ d)) d) = Copying)) as [|Hp]; [done|].
      destruct (Hfull eq_refl Hp). congruence. }
    assert (∃ x, dir_step (shuts_at near_shuts (exit_ d)) false (dir_at p (exit_ d) d) x) as [x Hx].
    { destruct (dir_at p (exit_ d) d) as [sent closed written shut pc]. simpl in *. subst. eexists.
      by apply (dir_chunk _ _ _ _ [b] rest). }
    eexists. apply (ps_copy _ _ _ _ (exit_ d) x); [|done].
    destruct (rl_over (relay_at p (exit_ d))) eqn:Ho; [|done]. specialize (Hov eq_refl d). unfold dir_at in Hpc. congruence.
Qed.

(** A direction whose source has ended goes on until its sink has been served,
    provided that the first copy tells the channel. *)
Lemma pass_on p d :
  pipe_ok near_shuts p → in_order p d → d_closed (dir_at p (entry d) d) = true →
  shuts_at near_shuts (entry d) = true ∨ rl_over (relay_at p (entry d)) = true →
  d_pc (dir_at p (exit_ d) d) ≠ Finished → ∃ p', pass_step near_shuts false d p p'.
Proof.
  intros Hok Hi Hc Hsh Hp. destruct (decide (d_pc (dir_at p (entry d) d) = Finished)) as [Hf|]; [|by eapply copies_on].
  destruct (d_closed (dir_at p (exit_ d) d)) eqn:Hcy; [by eapply copies_on|]. apply links_on; [done|done| |done].
  apply orb_true_iff. destruct Hok as [Hr _]. destruct (Hr (entry d)) as [Hd _]. destruct (Hd d) as (_ & _ & _ & Hfin & _).
  destruct Hsh; [left; by apply Hfin|by right].
Qed.

Lemma pipe_progress p :
  pipe_ok near_shuts p → (∀ d, in_order p d) → sources_closed p → ¬ pipe_over p →
  ∃ p', pipe_step near_shuts false may_close p p'.
Proof.
  intros Hok Hi Hc Hn.
  destruct (decide (d_pc (dir_at p Near ToClient) = Finished)) as [H1|Hp].
  2: { destruct (pass_on p ToClient) as [p' Hp']; [done|done|apply Hc|by left|done|]. exists p'. by eapply pp_pass. }
  destruct (decide (d_pc (dir_at p Near ToTarget) = Finished)) as [H2|Hp].
  2: { destruct (copies_on p Near ToTarget) as [p' Hp']; [done|apply (Hc ToTarget)|done|]. exists p'. by eapply pp_pass. }
  destruct (rl_over (relay_at p Near)) eqn:Ho; [|eexists; by apply (pp_return _ _ _ p Near)].
  destruct (decide (d_pc (dir_at p Far ToTarget) = Finished)) as [H3|Hp].
  2: { destruct (pass_on p ToTarget) as [p' Hp']; [done|done|apply Hc|by right|done|]. exists p'. by eapply pp_pass. }
  destruct (decide (d_pc (dir_at p Far ToClient) = Finished)) as [H4|Hp].
  2: { destruct (copies_on p Far ToClient) as [p' Hp']; [done|apply (Hc ToClient)|done|]. exists p'. by eapply pp_pass. }
  destruct (rl_over (relay_at p Far)) eqn:Ho'; [|eexists; by apply (pp_return _ _ _ p Far)].
  destruct Hn. by intros [].
Qed.

(** When a direction has been served, everything has arrived. *)
Lemma served p d :
  pipe_ok near_shuts p → d_pc (dir_at p (exit_ d) d) = Finished →
  d_written (dir_at p (exit_ d) d) = d_sent (dir_at p (entry d) d).
Proof.
  intros [Hr He] Hp. destruct (Hr (exit_ d)) as [Hy _]. destruct (Hr (entry d)) as [Hx _].
  destruct (Hy d) as (_ & _ & _ & _ & Hfy), (Hx d) as (_ & _ & _ & _ & Hfx).
  destruct Hfy as [Hc Hw]; [done|unfold dir_at in Hp; by rewrite Hp|]. destruct (He d Hc) as [Hs Hpx].
  destruct Hfx as [_ Hwx]; [done|unfold dir_at in Hpx; by rewrite Hpx|]. unfold dir_at in *. congruence.
Qed.

Lemma over_served p d : pipe_ok near_shuts p → pipe_over p → d_pc (dir_at p (exit_ d) d) = Finished.
Proof. intros [Hr _] Ho. destruct (Hr (exit_ d)) as [_ Hov]. apply Hov, Ho. Qed.

Definition good (p : Pipe) : Prop := pipe_ok near_shuts p ∧ ∀ d, in_order p d.

Lemma good_step p p' : pipe_step near_shuts false may_close p p' → good p → good p'.
Proof. intros Hs [Hok Hi]. split; [by eapply pipe_step_ok|by eapply pipe_step_in_order]. Qed.

(** Every run from a state with both sources closed is short. *)
Lemma pipe_runs_left n p p' :
  nsteps (pipe_step near_shuts false may_close) n p p' → good p → sources_closed p →
  n + pipe_left p' ≤ pipe_left p ∧ good p' ∧ sources_closed p'
  ∧ ∀ d, d_sent (dir_at p' (entry d) d) = d_sent (dir_at p (entry d) d).
Proof.
  induction 1 as [p|n p p1 p' Hs _ IH]; intros Hg Hc; [done|].
  destruct (pipe_step_left _ _ _ _ _ Hs) as (Hl & Hc1 & Hsent); [by destruct Hg|done|].
  destruct IH as (? & ? & ? & Hsent'); [by eapply good_step|done|]. split_and!; [lia|done|done|].
  intros d. by rewrite Hsent'.
Qed.

End Progress.

(** ** A source only sends *)
Lemma pipe_step_source near_shuts faults may_close p p' d :
  pipe_step near_shuts faults may_close p p' →
  d_sent (dir_at p (entry d) d) `prefix_of` d_sent (dir_at p' (entry d) d)
  ∧ (d_closed (dir_at p (entry d) d) = true →
     d_closed (dir_at p' (entry d) d) = true ∧ d_sent (dir_at p' (entry d) d) = d_sent (dir_at p (entry d) d)).
Proof.
  intros Hs. destruct Hs as [p d' bs Hcl|p d' Hcl Hm|p d' p' Hs|p e Ho Ht Hcl|p Hf Ho].
  - destruct (decide (d' = d)) as [->|Hd]; [|by rewrite !dir_at_put_other by naive_solver].
    rewrite !dir_at_put_same. simpl. split; [by apply prefix_app_r|congruence].
  - destruct (decide (d' = d)) as [->|Hd]; [|by rewrite !dir_at_put_other by naive_solver].
    rewrite !dir_at_put_same. simpl. done.
  - destruct (pass_step_keeps _ _ _ _ _ Hs) as (Hsd & Hcd & Hsame & _).
    destruct (decide (d' = d)) as [->|Hd]; [by rewrite Hsd, Hcd|by rewrite Hsame].
  - destruct p as [[] []], e, d; done.
  - destruct p as [[] []], d; done.
Qed.

Lemma pipe_source near_shuts faults may_close p p' d :
  rtc (pipe_step near_shuts faults may_close) p p' →
  d_sent (dir_at p (entry d) d) `prefix_of` d_sent (dir_at p' (entry d) d)
  ∧ (d_closed (dir_at p (entry d) d) = true →
     d_closed (dir_at p' (entry d) d) = true ∧ d_sent (dir_at p' (entry d) d) = d_sent (dir_at p (entry d) d)).
Proof.
  induction 1 as [|p1 p2 p3 Hs _ [IH1 IH2]]; [done|]. destruct (pipe_step_source _ _ _ _ _ d Hs) as [H1 H2].
  split; [by etrans|]. intros Hc. destruct (H2 Hc) as [Hc2 Hs2]. destruct (IH2 Hc2) as [? Hs3]. by rewrite Hs3.
Qed.

(** With a closed source, no step adds to what is left of its direction. *)
Lemma pipe_step_pass_left near_shuts faults may_close p p' d :
  pipe_step near_shuts faults may_close p p' → in_order p d → d_closed (dir_at p (entry d) d) = true →
  pass_left p' d ≤ pass_left p d.
Proof.
  intros Hs Hi Hc. destruct Hs as [p d' bs Hcl|p d' Hcl Hm|p d' p' Hs|p e Ho Ht Hcl|p Hf Ho].
  - assert (d' ≠ d) by congruence. unfold pass_left. by rewrite !dir_at_put_other by naive_solver.
  - assert (d' ≠ d) by congruence. unfold pass_left. by rewrite !dir_at_put_other by naive_solver.
  - destruct (decide (d' = d)) as [->|Hd]; [by apply Nat.lt_le_incl; eapply pass_step_left|].
    destruct (pass_step_keeps _ _ _ _ _ Hs) as (_ & _ & Hsame & _). unfold pass_left. by rewrite !Hsame.
  - destruct p as [[] []], e, d; done.
  - destruct p as [[] []], d; done.
Qed.

(** ** Theorems *)
Lemma proxy_channel_starts tcp_connect target proxy start :
  proxy_channel tcp_connect target proxy = Some start →
  ∃ bs stream reply, start = relay_new bs ∧ tcp_connect (first_hop target proxy) = Ok stream
    ∧ handshake_reply proxy reply ∧ sk_data stream = reply ++ bs.
Proof.
  unfold proxy_channel. destruct (connect_outbound _ _ _) as [outbound|] eqn:Ho; intros [= <-].
  apply connect_outbound_takes in Ho as (stream & reply & Hc & Hr & Hd). by exists (sk_data outbound), stream, reply.
Qed.

Lemma pipe_good near_shuts may_close tcp_connect target proxy start p :
  proxy_channel tcp_connect target proxy = Some start →
  rtc (pipe_step near_shuts false may_close) (pipe_new start) p → good near_shuts p.
Proof.
  intros (bs & _ & _ & -> & _)%proxy_channel_starts Hr. destruct (pipe_reachable _ _ _ _ _ Hr) as [Hi Hok].
  split; [by apply Hok|done].
Qed.

(** With both sources closed: bounded, never stuck, and everything delivered. *)
Lemma closed_delivers near_shuts may_close n p p' :
  good near_shuts p → sources_closed p → nsteps (pipe_step near_shuts false may_close) n p p' →
  n ≤ pipe_left p
  ∧ (¬ pipe_over p' → ∃ p'', pipe_step near_shuts false may_close p' p'')
  ∧ (pipe_over p' → ∀ d, d_written (dir_at p' (exit_ d) d) = d_sent (dir_at p (entry d) d)).
Proof.
  intros Hg Hc Hn. destruct (pipe_runs_left _ _ _ _ _ Hn Hg Hc) as (Hl & [Hok Hi] & Hc' & Hsent).
  split_and!; [lia|by apply pipe_progress|].
  intros Ho d. rewrite <- Hsent. eapply served; [done|]. by eapply over_served.
Qed.

Lemma open_copying near_shuts p e d : good near_shuts p → d_closed (dir_at p e d) = false → d_pc (dir_at p e d) = Copying.
Proof.
  intros [[Hr _] _] Hc. destruct (Hr e) as [Hd _]. destruct (Hd d) as (_ & _ & _ & _ & Hf). unfold dir_at in *.
  destruct (decide (d_pc (dir (relay_at p e) d) = Copying)) as [|Hp]; [done|]. destruct (Hf eq_refl Hp). congruence.
Qed.

Lemma shut_finished near_shuts p e d :
  good near_shuts p → d_shut (dir_at p e d) = true → shuts_at near_shuts e = true ∧ d_pc (dir_at p e d) = Finished.
Proof. intros [[Hr _] _] Hs. destruct (Hr e) as [Hd _]. by apply (Hd d). Qed.

Lemma over_finished near_shuts p e d : good near_shuts p → rl_over (relay_at p e) = true → d_pc (dir_at p e d) = Finished.
Proof. intros [[Hr _] _] Ho. destruct (Hr e) as [_ Hov]. by apply Hov. Qed.

(** The target sends an answer and closes. *)
Lemma answered_good near_shuts p answer :
  good near_shuts p → d_closed (dir_at p Far ToClient) = false →
  good near_shuts (put p Far ToClient (dir_close (dir_send (dir_at p Far ToClient) answer))).
Proof.
  intros Hg Hc. pose proof (pp_send near_shuts false (λ _ _, True) p ToClient answer Hc) as Hs1. simpl in Hs1.
  pose proof (good_step _ _ _ _ Hs1 Hg) as Hg1.
  pose proof (pp_close near_shuts false (λ _ _, True)
    (put p Far ToClient (dir_send (dir_at p Far ToClient) answer)) ToClient) as Hs2.
  change (entry ToClient) with Far in Hs2. rewrite !dir_at_put_same in Hs2. specialize (Hs2 eq_refl I).
  pose proof (good_step _ _ _ _ Hs2 Hg1) as Hg2. by destruct p as [[] []].
Qed.

(** A tunnel never makes up, loses or reorders bytes.  Whatever the
    application, the target, the channel and the two relays do, failing copies
    included, what has been written at one end is a prefix of what was sent at
    the other. *)
Theorem pipe_in_order near_shuts faults may_close tcp_connect target proxy start p d :
  proxy_channel tcp_connect target proxy = Some start →
  rtc (pipe_step near_shuts faults may_close) (pipe_new start) p →
  d_written (dir_at p (exit_ d) d) `prefix_of` d_sent (dir_at p (entry d) d).
Proof.
  intros (bs & _ & _ & -> & _)%proxy_channel_starts Hr. destruct (pipe_reachable _ _ _ _ _ Hr) as [Hi _].
  destruct (Hi d) as (H1 & H2 & H3). by do 2 (etrans; [eassumption|]).
Qed.

(** C18: a tunnel ends once the application and the target have, if no copy
    fails.  From then on both relays and the channel between them take a bounded
    number of steps however they are scheduled; they can always take the next
    one until both relays have returned; and then the target has been given
    everything the application sent, and the application everything that came on
    the server's outbound connection, what came before the relay started
    included, except the reply to the handshake with a proxy.  For SOCKS5 that
    is exactly the proxy's reply; for HTTP CONNECT it is all that was read up to
    and with the piece that completes the response's header, so that up to a
    piece of the target's first bytes is lost.  This holds whether or not the
    client's relay shuts its sinks down. *)
Theorem pipe_delivers near_shuts may_close tcp_connect target proxy start p n p' :
  proxy_channel tcp_connect target proxy = Some start →
  rtc (pipe_step near_shuts false may_close) (pipe_new start) p → sources_closed p →
  nsteps (pipe_step near_shuts false may_close) n p p' →
  n ≤ pipe_left p
  ∧ (¬ pipe_over p' → ∃ p'', pipe_step near_shuts false may_close p' p'')
  ∧ (pipe_over p' →
     d_written (dir_at p' Far ToTarget) = d_sent (dir_at p Near ToTarget)
     ∧ ∃ stream reply later, tcp_connect (first_hop target proxy) = Ok stream ∧ handshake_reply proxy reply
         ∧ d_sent (dir_at p Far ToClient) = d_sent (to_client start) ++ later
         ∧ reply ++ d_written (dir_at p' Near ToClient) = sk_data stream ++ later).
Proof.
  intros Hstart Hr Hc Hn. pose proof (pipe_good _ _ _ _ _ _ _ Hstart Hr) as Hg.
  destruct (closed_delivers _ _ _ _ _ Hg Hc Hn) as (Hl & Hp & Hd). split_and!; [done|done|]. intros Ho.
  specialize (Hd Ho). split; [apply (Hd ToTarget)|].
  apply proxy_channel_starts in Hstart as (bs & stream & reply & -> & Hs & Hrep & Hdata).
  destruct (pipe_source _ _ _ _ _ ToClient Hr) as [[later Hlater] _].
  change (d_sent (dir_at p (entry ToClient) ToClient) = bs ++ later) in Hlater.
  exists stream, reply, later. split_and!; [done..|].
  change (reply ++ d_written (dir_at p' (exit_ ToClient) ToClient) = sk_data stream ++ later).
  by rewrite Hd, Hlater, Hdata, app_assoc.
Qed.

(** C23: a half-close travels through a tunnel whose client relay shuts its
    sinks down, as the SOCKS5 server's does, if no copy fails.  Once the
    application has ended its side: whatever else happens, what is left to do
    for the target never grows, and until the target has been told of the end
    there is a step that does some of it, as every step of that direction does;
    so the target is told in every run that keeps serving that direction, and
    when it is, it has been given every byte.  And if the target then sends an
    answer, any bytes, and closes, the tunnel has a bounded number of steps left
    under every schedule, can always take the next one until both relays have
    returned, and then the application has been given all that the target had
    sent before and the answer. *)
Theorem pipe_half_close may_close tcp_connect target proxy start p p' :
  proxy_channel tcp_connect target proxy = Some start →
  rtc (pipe_step true false may_close) (pipe_new start) p → d_closed (dir_at p Near ToTarget) = true →
  rtc (pipe_step true false may_close) p p' →
  pass_left p' ToTarget ≤ pass_left p ToTarget
  ∧ (d_shut (dir_at p' Far ToTarget) = false → ∃ p'', pass_step true false ToTarget p' p'')
  ∧ (∀ p'', pass_step true false ToTarget p' p'' → pass_left p'' ToTarget < pass_left p' ToTarget)
  ∧ (d_shut (dir_at p' Far ToTarget) = true →
     d_written (dir_at p' Far ToTarget) = d_sent (dir_at p Near ToTarget)
     ∧ (d_closed (dir_at p' Far ToClient) = false → ∀ answer,
        let q := put p' Far ToClient (dir_close (dir_send (dir_at p' Far ToClient) answer)) in
        ∀ n q', nsteps (pipe_step true false may_close) n q q' →
          n ≤ pipe_left q
          ∧ (¬ pipe_over q' → ∃ q'', pipe_step true false may_close q' q'')
          ∧ (pipe_over q' →
             d_written (dir_at q' Near ToClient) = d_sent (dir_at p' Far ToClient) ++ answer
             ∧ d_written (dir_at q' Far ToTarget) = d_sent (dir_at p Near ToTarget)))).
Proof.
  intros Hstart Hr Hc Hr'. pose proof (pipe_good _ _ _ _ _ _ _ Hstart Hr) as Hg.
  assert (good true p') as Hg' by (eapply pipe_good; [exact Hstart|by etrans]).
  destruct (pipe_source _ _ _ _ _ ToTarget Hr') as [_ Hsrc]. destruct (Hsrc Hc) as [Hc' Hs'].
  change (entry ToTarget) with Near in Hc', Hs'. split_and!.
  - assert (good true p' ∧ d_closed (dir_at p' Near ToTarget) = true ∧ pass_left p' ToTarget ≤ pass_left p ToTarget)
      as (_ & _ & ?); [|done].
    eapply (rtc_ind_r (λ p', good true p' ∧ d_closed (dir_at p' Near ToTarget) = true ∧
      pass_left p' ToTarget ≤ pass_left p ToTarget) p);
      [split; [done|]; split; [done|lia]| |exact Hr'].
    intros p1 p2 _ Hs (Hg1 & Hc1 & Hl). split; [by eapply good_step|split].
    + destruct (pipe_step_source _ _ _ _ _ ToTarget Hs) as [_ Hx]. exact (proj1 (Hx Hc1)).
    + etrans; [|exact Hl]. eapply pipe_step_pass_left; [exact Hs|apply Hg1|done].
  - intros Hsh. destruct Hg' as [Hok Hi]. apply pass_on; [done|done|done|by left|].
    intros Hf. destruct Hok as [Hrel _]. destruct (Hrel Far) as [Hd _]. destruct (Hd ToTarget) as (_ & _ & _ & Hfin & _).
    unfold dir_at in *. simpl in *. rewrite Hfin in Hsh; done.
  - intros p'' Hs. eapply pass_step_left; [exact Hs|apply Hg'].
  - intros Hsh. destruct (shut_finished _ _ _ _ Hg' Hsh) as [_ Hf].
    split; [rewrite <-Hs'; eapply (served true p' ToTarget); [apply Hg'|done]|].
    intros Hopen answer q n q' Hn. assert (good true q) as Hgq by (by apply answered_good).
    assert (sources_closed q) as Hcq.
    { intros []; unfold q; [by rewrite dir_at_put_other by naive_solver|by rewrite dir_at_put_same]. }
    destruct (closed_delivers _ _ _ _ _ Hgq Hcq Hn) as (Hl & Hp & Hd). split_and!; [done|done|].
    intros Ho. specialize (Hd Ho). pose proof (Hd ToClient) as H1. pose proof (Hd ToTarget) as H2.
    change (entry ToTarget) with Near in H2. change (exit_ ToTarget) with Far in H2.
    change (entry ToClient) with Far in H1. change (exit_ ToClient) with Near in H1.
    unfold q in H1, H2. rewrite dir_at_put_same in H1. rewrite dir_at_put_other in H2 by naive_solver.
    by rewrite H1, H2, Hs'.
Qed.

(** While the target's side is open and it has not been told of the end of its
    input, nothing that could tell it happens. *)
Definition untold (p : Pipe) : Prop :=
  d_closed (dir_at p Far ToClient) = false ∧ d_closed (dir_at p Far ToTarget) = false.

Lemma untold_blocks near_shuts p :
  good near_shuts p → untold p →
  d_shut (dir_at p Far ToTarget) = false ∧ rl_over (near p) = false ∧ rl_over (far p) = false.
Proof.
  intros Hg [Hc Ht]. pose proof (open_copying _ _ _ _ Hg Hc) as Hpc. pose proof (open_copying _ _ _ _ Hg Ht) as Hpt.
  split_and!.
  - destruct (d_shut _) eqn:Hs; [|done]. destruct (shut_finished _ _ _ _ Hg Hs). congruence.
  - destruct (rl_over (near p)) eqn:Ho; [|done]. pose proof (over_finished _ p Near ToClient Hg Ho) as Hf.
    destruct (d_closed (dir_at p Near ToClient)) eqn:Hn.
    + destruct Hg as [[_ He] _]. destruct (He ToClient Hn) as [_ Hf']. change (entry ToClient) with Far in Hf'. congruence.
    + pose proof (open_copying _ _ _ _ Hg Hn). congruence.
  - destruct (rl_over (far p)) eqn:Ho; [|done]. pose proof (over_finished _ p Far ToClient Hg Ho). congruence.
Qed.

Lemma untold_step may_close p p' :
  (∀ p, may_close ToClient p → d_shut (dir_at p Far ToTarget) = true) →
  pipe_step false false may_close p p' → good false p → untold p → untold p'.
Proof.
  intros Hm Hs Hg Hu. destruct (untold_blocks _ _ Hg Hu) as (Hsh & Hon & _). destruct Hu as [Hc Ht].
  unfold untold. destruct Hs as [p d bs Hcl|p d Hcl Hmc|p d p' Hs|p e Ho Hft Hcl|p Hf Ho]; [..|done].
  - destruct d; by rewrite ?dir_at_put_same, ?dir_at_put_other by naive_solver.
  - destruct d; [by rewrite !dir_at_put_other by naive_solver|]. apply Hm in Hmc. congruence.
  - destruct Hs as [p e x Ho Hs|p g c Hcl Hmv].
    + destruct (dir_step_written _ _ _ _ Hs) as (_ & Hx & _). rewrite !dir_at_put.
      repeat case_decide; naive_solver congruence.
    + destruct d; [|by rewrite !dir_at_put_other by naive_solver].
      rewrite dir_at_put_other, dir_at_put_same by naive_solver. split; [done|]. simpl.
      destruct c; [|done]. destruct (ssh_ends _ _ _ _ _ _ Hmv eq_refl) as [He _].
      apply orb_true_iff in He as [He|He]; [|simpl in He; congruence].
      by destruct (shut_finished _ p Near ToTarget Hg He).
  - destruct p as [[] []], e; done.
Qed.

(** A local forward does not pass it on: whatever the application does, a target
    that closes only after it was told of the end of its input is never told,
    and neither relay returns. *)
Theorem pipe_half_close_lost may_close tcp_connect target proxy start p :
  proxy_channel tcp_connect target proxy = Some start →
  (∀ p, may_close ToClient p → d_shut (dir_at p Far ToTarget) = true) →
  rtc (pipe_step false false may_close) (pipe_new start) p →
  d_shut (dir_at p Far ToTarget) = false ∧ rl_over (near p) = false ∧ rl_over (far p) = false.
Proof.
  intros Hstart Hm Hr. assert (good false p ∧ untold p) as [Hg Hu].
  { eapply (rtc_ind_r (λ p, good false p ∧ untold p) (pipe_new start)); [| |exact Hr].
    - split; [by eapply (pipe_good _ may_close); [|apply rtc_refl]|].
      by apply proxy_channel_starts in Hstart as (bs & _ & _ & -> & _).
    - intros p1 p2 _ Hs [Hg Hu]. split; [by eapply good_step|by eapply untold_step]. }
  by eapply untold_blocks.
Qed.

End Pipe.

(** ** Example: one byte, answered by the end of the input *)
Module PipeExample.
Import RelayExample.

(** A channel that gives any piece of what it holds, and then the end. *)
#[export] Instance fifo : SshChannel := {|
  ssh_move w e _ g g' c :=
    g `prefix_of` g' ∧ g' `prefix_of` w ∧ (c = true → e = true ∧ g' = w) ∧ (g' ≠ g ∨ c = true);
|}.
#[export] Instance fifo_laws : SshChannelLaws fifo.
Proof.
  split; simpl; [naive_solver..|]. intros w e g Hg Hsome. destruct (decide (g = w)) as [->|Hne].
  - exists w, true. destruct Hsome; naive_solver.
  - exists w, false. naive_solver.
Qed.

(** The application closes when it likes, the target when it has been told to. *)
Definition polite (d : Side) (p : Pipe) : Prop :=
  match d with ToTarget => True | ToClient => d_shut (dir_at p Far ToTarget) = true end.
Definition free (_ : Side) (_ : Pipe) : Prop := True.

Definition sent : Pipe := mkPipe (mkRelay (mkDir [x41] false [] false Copying) (dir_new []) false) (relay_new []).
Definition asking : Pipe := mkPipe asked (relay_new []).
Lemma asking_reached near_shuts faults may_close :
  (∀ p, may_close ToTarget p) → rtc (pipe_step near_shuts faults may_close) (pipe_new (relay_new [])) asking.
Proof.
  intros Hm. eapply rtc_l; [apply (pp_send _ _ _ (pipe_new (relay_new [])) ToTarget [x41]); reflexivity|].
  apply rtc_once. by apply (pp_close _ _ _ sent ToTarget).
Qed.
(** Both ends have closed. *)
Definition closing : Pipe := mkPipe asked (mkRelay (dir_new []) (mkDir [] true [] false Copying) false).
Lemma closing_reached near_shuts : rtc (pipe_step near_shuts false free) (pipe_new (relay_new [])) closing.
Proof. eapply rtc_r; [by apply asking_reached|]. by apply (pp_close _ _ _ asking ToClient). Qed.
Definition copied : Pipe :=
  mkPipe (mkRelay (mkDir [x41] true [x41] false Copying) (dir_new []) false)
    (mkRelay (dir_new []) (mkDir [] true [] false Copying) false).

Lemma pipe_in_order_witness : [] `prefix_of` [x41].
Proof.
  apply (pipe_in_order true true free listening target (mkProxyConfig Direct) (relay_new []) asking ToTarget);
    [reflexivity|by apply asking_reached].
Defined.

Lemma pipe_delivers_witness :
  1 ≤ pipe_left closing
  ∧ (¬ pipe_over copied → ∃ p'', pipe_step false false free copied p'')
  ∧ (pipe_over copied →
     d_written (dir_at copied Far ToTarget) = d_sent (dir_at closing Near ToTarget)
     ∧ ∃ stream reply later, listening (first_hop target (mkProxyConfig Direct)) = Ok stream
         ∧ handshake_reply (mkProxyConfig Direct) reply
         ∧ d_sent (dir_at closing Far ToClient) = [] ++ later
         ∧ reply ++ d_written (dir_at copied Near ToClient) = sk_data stream ++ later).
Proof.
  apply (pipe_delivers false free listening target (mkProxyConfig Direct) (relay_new []) closing 1 copied);
    [reflexivity|apply closing_reached|by intros []|].
  eapply nsteps_l; [|apply nsteps_O]. apply (pp_pass _ _ _ closing ToTarget).
  apply (ps_copy false false ToTarget closing Near (mkDir [x41] true [x41] false Copying)); [reflexivity|].
  by apply (dir_chunk _ _ [x41] true [x41] [] [] false).
Defined.

(** The request has gone through and the target has been told of its end. *)
Definition told : Pipe :=
  mkPipe (mkRelay (mkDir [x41] true [x41] true Finished) (dir_new []) false)
    (mkRelay (mkDir [x41] true [x41] true Finished) (dir_new []) false).
Lemma told_reached : rtc (pipe_step true false polite) asking told.
Proof.
  assert (∀ p e x, rl_over (relay_at p e) = false → dir_step true false (dir_at p e ToTarget) x →
            pipe_step true false polite p (put p e ToTarget x)) as Hcopy.
  { intros p e x Ho Hx. apply (pp_pass _ _ _ p ToTarget), ps_copy; [done|]. by destruct e. }
  eapply rtc_l; [apply (Hcopy _ Near (mkDir [x41] true [x41] false Copying)); [done|];
                 by apply (dir_chunk _ _ [x41] true [x41] [] [] false)|].
  eapply rtc_l; [apply (Hcopy _ Near (mkDir [x41] true [x41] false Shutting)); [done|]; apply dir_eof|].
  eapply rtc_l; [apply (Hcopy _ Near (mkDir [x41] true [x41] true Finished)); [done|]; apply dir_shutdown|].
  eapply rtc_l.
  { eapply (pp_pass _ _ _ _ ToTarget), (ps_channel _ _ ToTarget _ [x41] true); [done|]. simpl.
    split_and!; [apply prefix_nil|done|done|by right]. }
  eapply rtc_l; [apply (Hcopy _ Far (mkDir [x41] true [x41] false Copying)); [done|];
                 by apply (dir_chunk _ _ [x41] true [x41] [] [] false)|].
  eapply rtc_l; [apply (Hcopy _ Far (mkDir [x41] true [x41] false Shutting)); [done|]; apply dir_eof|].
  eapply rtc_l; [apply (Hcopy _ Far (mkDir [x41] true [x41] true Finished)); [done|]; apply dir_shutdown|].
  apply rtc_refl.
Qed.

(** The target is told, and then answers with one byte. *)
Lemma pipe_half_close_witness :
  pass_left told ToTarget ≤ pass_left asking ToTarget
  ∧ d_written (dir_at told Far ToTarget) = [x41]
  ∧ let q := put told Far ToClient (dir_close (dir_send (dir_at told Far ToClient) [x42])) in
    ∀ n q', nsteps (pipe_step true false polite) n q q' →
      n ≤ pipe_left q ∧ (pipe_over q' → d_written (dir_at q' Near ToClient) = [x42]).
Proof.
  destruct (pipe_half_close polite listening target (mkProxyConfig Direct) (relay_new []) asking told)
    as (Hl & _ & _ & Htold); [reflexivity|by apply asking_reached|reflexivity|apply told_reached|].
  destruct (Htold eq_refl) as [Hw Hans]. split; [exact Hl|]. split; [exact Hw|]. intros q n q' Hn.
  destruct (Hans eq_refl [x42] n q' Hn) as (Hle & _ & Ho). split; [exact Hle|]. intros Hover. apply (Ho Hover).
Defined.

Lemma pipe_half_close_lost_witness :
  d_shut (dir_at asking Far ToTarget) = false ∧ rl_over (near asking) = false ∧ rl_over (far asking) = false.
Proof.
  apply (pipe_half_close_lost polite listening target (mkProxyConfig Direct) (relay_new []) asking);
    [reflexivity|done|by apply asking_reached].
Defined.
End PipeExample.
