(* ===== verification/ClientSession.v ===== *)
(** * A client session (auth/client_auth.rs, client/connect.rs, client/forward.rs)

    Establishing and authenticating a session, and [ClientSession::run]: the
    remote forwards are registered, then the SOCKS5 server, the local
    forwarders and the reconnect monitor run beside each other until a signal.
    [cs_step] interleaves them; each step is labelled with the task that makes
    it.  The handle's lock is explicit, with its queue of waiting tasks, and a
    request keeps it until the server answers or the session ends.  What the
    network and the server do is nondeterministic. *)
From S2P Require Import Prelude RustStd Net NetShow Forwarding Keys AuthPolicy DynConfig ServerHandler Client.
Open Scope Z_scope.

(** ** Client authentication (auth/client_auth.rs) *)
(** [PrivateKey::public_key]. *)
Class ClientKeys `{SshKeys} := { private_public_key : PrivateKey → PublicKey }.

Section Auth.
Context `{ClientKeys, FileSystem}.

Record ClientAuthConfig := mkClientAuth { ca_private_key : PrivateKey; ca_client_key : PublicKey }.
Definition from_key_source (source : KeySource) : result ClientAuthConfig ConfigError :=
  let? private_key := load_private_key source in
  Ok (mkClientAuth private_key (private_public_key private_key)).

Record ClientHandler := mkClientHandler {
  pub_key : PublicKey;
  check_server_key_fn : PublicKey → bool;
}.
Definition handler_from_config (config : ClientAuthConfig) : ClientHandler :=
  mkClientHandler (ca_client_key config) (λ _, true).
Definition with_server_key_check (config : ClientAuthConfig) (check_fn : PublicKey → bool) : ClientHandler :=
  mkClientHandler (ca_client_key config) check_fn.
Definition check_server_key (h : ClientHandler) (server_public_key : PublicKey) : bool :=
  check_server_key_fn h server_public_key.

(** ** Establishing a session (client/connect.rs)

    One attempt as the network and the server answer it: the transport, the
    key the server shows, the rest of the handshake, and public-key
    authentication.  russh fails the handshake when [check_server_key] says
    no. *)
Record Attempt := mkAttempt {
  at_connect : result unit string;
  at_server_key : PublicKey;
  at_handshake : result unit string;
  at_authenticate : string → PrivateKey → result bool string;
}.

Definition derive_username (user username : option string) : string :=
  match user with
  | Some u => u
  | None => match username with Some u => u | None => "alknet" end
  end.

Definition connect_stream (a : Attempt) (h : ClientHandler) : result unit string :=
  if check_server_key h (at_server_key a) then at_handshake a else Err "Unknown server key".

Definition establish_session (a : Attempt) (h : ClientHandler) (config : ClientAuthConfig) (username : string)
    : result unit ConnectError :=
  let? _ := map_err (λ _, ConnectionFailed) (at_connect a) in
  let? _ := map_err (λ _, ConnectionFailed) (connect_stream a h) in
  let? auth_ok := map_err (λ _, AuthFailed) (at_authenticate a username (ca_private_key config)) in
  if negb auth_ok then Err AuthFailed else Ok ().

Record ClientSession := mkClientSession {
  cs_opts : ConnectOptions;
  cs_auth_config : ClientAuthConfig;
  cs_username : string;
}.

Definition ClientSession_new (opts : ConnectOptions) (user username : option string) (a : Attempt)
    : result ClientSession ConnectError :=
  let? _ := map_err ConnectConfig (connect_validate opts) in
  let? config := map_err ConnectConfig (from_key_source (co_identity opts)) in
  let name := derive_username user username in
  let? _ := establish_session a (handler_from_config config) config name in
  Ok (mkClientSession opts config name).

(** ** The SOCKS5 server's task (socks5/mod.rs) *)
(** [Socks5Server::run]: each connection is handed to a task; the first error of
    [accept] ends the server, [None] when it waits. *)
Fixpoint socks5_accept_loop (events : list (result SocketAddr string)) : list SocketAddr * option (result unit string) :=
  match events with
  | [] => ([], None)
  | Ok peer :: events => let '(served, r) := socks5_accept_loop events in (peer :: served, r)
  | Err e :: _ => ([], Some (Err e))
  end.
Definition socks5_run (bind : SocketAddr → result unit string) (listen_addr : SocketAddr)
    (events : list (result SocketAddr string)) : list SocketAddr * option (result unit string) :=
  match bind listen_addr with
  | Err e => ([], Some (Err e))
  | Ok _ => socks5_accept_loop events
  end.

(** ** What [run] prepares *)
(** [Socks5Server::with_addr]: [expect] on the address. *)
Definition socks5_with_addr (addr : string) : outcome SocketAddr :=
  match socket_addr_from_str addr with Some a => Ret a | None => Panic end.

Record RunPlan := mkRunPlan {
  rp_socks5_listen : SocketAddr;
  rp_local_forwarders : list LocalForwarder;
  rp_remote_specs : list PortForwardSpec;
}.

Definition run_setup (opts : ConnectOptions) : outcome (result RunPlan ConnectError) :=
  match socket_addr_from_str (co_socks5_addr opts) with
  | None => Ret (Err (ConnectConfig (InvalidFlag ("invalid SOCKS5 address: " +:+ co_socks5_addr opts))))
  | Some socks5_addr =>
      let! socks5_listen := socks5_with_addr (show_socket_addr socks5_addr) in
      Ret (let? local_forwarders := build_local_forwarders (co_forwards opts) in
           let? remote_specs := build_remote_specs (co_remote_forwards opts) in
           Ok (mkRunPlan socks5_listen local_forwarders remote_specs))
  end.
End Auth.

(** ** [run] itself

    The session's handle.  Requests to the session's task go through a queue
    that can be full, the session ends at some point, and [disconnect] only
    asks for that. *)
Record ClientConn := mkClientConn {
  cc_closed : bool;
  cc_full : bool;                         (* the session's task takes no message *)
  cc_told : bool;                         (* [disconnect] was sent *)
  cc_registered : list PortForwardSpec;   (* forwards the server has granted *)
  cc_refused : list PortForwardSpec;      (* and those it has refused *)
}.
Definition conn_new : ClientConn := mkClientConn false false false [] [].

(** The handle is behind a [tokio::sync::Mutex], which is fair: the tasks that
    asked for it are served in the order they asked, and the first of them holds
    it.  [run] and the monitor use it, and so does whatever opens a channel: the
    connections of the SOCKS5 server and of the local forwarders.  Whoever sends
    the server a request keeps the lock until the answer is there. *)
Inductive HandleUser := UMain | UMonitor | UOpen.
#[export] Instance handle_user_eq_dec : EqDecision HandleUser.
Proof. solve_decision. Defined.

Record HandleLock := mkHandleLock {
  hl_queue : list HandleUser;
  hl_answer : option bool;                (* what the server answered the holder *)
}.
Definition lock_wait (u : HandleUser) (l : HandleLock) : HandleLock := mkHandleLock (hl_queue l ++ [u]) (hl_answer l).
Definition lock_release (l : HandleLock) : HandleLock := mkHandleLock (tail (hl_queue l)) None.
(** A task that is cancelled leaves the queue, wherever it stands. *)
Definition lock_cancel (i : nat) (l : HandleLock) : HandleLock :=
  mkHandleLock (take i (hl_queue l) ++ drop (S i) (hl_queue l)) (if (i =? 0)%nat then None else hl_answer l).

(** [run]'s own progress: registering one forward after the other, each with
    the lock asked for and then held until the server answers; in [select!]; in
    [shutdown], before and after it has asked for the lock, and after the
    disconnect; and returned. *)
Inductive MainPc :=
| MSetup (todo : list PortForwardSpec)
| MAsk (f : PortForwardSpec) (todo : list PortForwardSpec)
| MWait
| MShutdown
| MLock
| MDrain
| MEnd (r : result unit ConnectError).

(** The monitor: asleep, looking at the handle, pausing and connecting, putting
    the new handle in, and registering the forwards again. *)
Inductive MonPc :=
| MonOff
| MonSleep
| MonCheck
| MonBackoff
| MonSwap
| MonRegister (todo : list PortForwardSpec)
| MonAsk (f : PortForwardSpec) (todo : list PortForwardSpec).

Record Cl := mkCl {
  cl_specs : list PortForwardSpec;
  cl_conn : ClientConn;
  cl_lock : HandleLock;
  cl_flag : bool;                         (* the shutdown flag *)
  cl_socks5 : bool;                       (* the SOCKS5 task runs *)
  cl_abort : bool;                        (* the monitor was aborted *)
  cl_main : MainPc;
  cl_mon : MonPc;
  cl_attempts : Z;
  cl_waits : list Z;                      (* the pauses before reconnecting, in seconds *)
}.

Definition cl_new (specs : list PortForwardSpec) : Cl :=
  mkCl specs conn_new (mkHandleLock [] None) false false false (MSetup specs) MonOff 0 [].

Definition holds (u : HandleUser) (c : Cl) : Prop := head (hl_queue (cl_lock c)) = Some u.
#[export] Instance holds_dec u c : Decision (holds u c).
Proof. unfold holds. apply _. Defined.

(** The request the holder of the lock has sent, if it is one the server answers. *)
Inductive Ask := AskForward (f : PortForwardSpec) | AskOpen.
Definition asked (c : Cl) : option Ask :=
  match head (hl_queue (cl_lock c)) with
  | Some UMain => match cl_main c with MAsk f _ => Some (AskForward f) | _ => None end
  | Some UMonitor => match cl_mon c with MonAsk f _ => Some (AskForward f) | _ => None end
  | Some UOpen => Some AskOpen
  | None => None
  end.

(** What the await of a request gives: the server's answer, an error once the
    session has ended, nothing yet. *)
Definition answer_of (c : Cl) : option bool :=
  match hl_answer (cl_lock c) with
  | Some b => Some b
  | None => if cc_closed (cl_conn c) then Some false else None
  end.

Definition cl_set_main (c : Cl) (k : ClientConn) (l : HandleLock) (pc : MainPc) : Cl :=
  mkCl (cl_specs c) k l (cl_flag c) (cl_socks5 c) (cl_abort c) pc (cl_mon c) (cl_attempts c) (cl_waits c).
Definition cl_set_mon (c : Cl) (k : ClientConn) (l : HandleLock) (mon : MonPc) (attempts : Z) (waits : list Z) : Cl :=
  mkCl (cl_specs c) k l (cl_flag c) (cl_socks5 c) (cl_abort c) (cl_main c) mon attempts waits.
Definition cl_set_world (c : Cl) (k : ClientConn) (l : HandleLock) (flag socks5 : bool) : Cl :=
  mkCl (cl_specs c) k l flag socks5 (cl_abort c) (cl_main c) (cl_mon c) (cl_attempts c) (cl_waits c).
Definition grant (k : ClientConn) (f : PortForwardSpec) : ClientConn :=
  mkClientConn (cc_closed k) (cc_full k) (cc_told k) (cc_registered k ++ [f]) (cc_refused k).
Definition refuse (k : ClientConn) (f : PortForwardSpec) : ClientConn :=
  mkClientConn (cc_closed k) (cc_full k) (cc_told k) (cc_registered k) (cc_refused k ++ [f]).
Definition registered (b : bool) (k : ClientConn) (f : PortForwardSpec) : ClientConn :=
  if b then grant k f else refuse k f.

(** The tasks are spawned. *)
Definition spawn_tasks (c : Cl) : Cl :=
  mkCl (cl_specs c) (cl_conn c) (cl_lock c) (cl_flag c) true (cl_abort c) MWait MonSleep (cl_attempts c) (cl_waits c).
(** After [select!] the monitor is aborted; it stops at its next await. *)
Definition leave_select (c : Cl) : Cl :=
  mkCl (cl_specs c) (cl_conn c) (cl_lock c) (cl_flag c) (cl_socks5 c) true MShutdown (cl_mon c) (cl_attempts c) (cl_waits c).
(** [shutdown], to its wait for the lock: the flag is raised. *)
Definition session_shutdown (c : Cl) : Cl :=
  mkCl (cl_specs c) (cl_conn c) (lock_wait UMain (cl_lock c)) true (cl_socks5 c) (cl_abort c) MLock (cl_mon c)
    (cl_attempts c) (cl_waits c).
(** [shutdown] with the lock, to its pause: a session that is not closed is
    asked to disconnect, and the lock is given back. *)
Definition session_disconnect (c : Cl) : Cl :=
  let k := cl_conn c in
  let k := if negb (cc_closed k) then mkClientConn (cc_closed k) (cc_full k) true (cc_registered k) (cc_refused k)
           else k in
  cl_set_main c k (lock_release (cl_lock c)) MDrain.

(** The monitor stops: its place in the queue is given up. *)
Definition monitor_dropped (c : Cl) : Cl :=
  let l := cl_lock c in
  let l := match list_find (eq UMonitor) (hl_queue l) with Some (i, _) => lock_cancel i l | None => l end in
  cl_set_mon c (cl_conn c) l MonOff (cl_attempts c) (cl_waits c).

Inductive Who := Main | Monitor | Opener | Outside.

Section Run.
(** Which forwards the server may grant, and whether arithmetic is checked. *)
Context (grants : PortForwardSpec → Prop) (overflow_checks : bool).

Definition may_grant (r : Ask) : Prop := match r with AskForward f => grants f | AskOpen => True end.

Inductive cs_step : Who → Cl → Cl → Prop :=
(** [RemoteForwarder::new], then the lock, then [register], one after the other. *)
| cs_register c f fs :
    cl_main c = MSetup (f :: fs) → fs_kind f = SpecRemote →
    cs_step Main c (cl_set_main c (cl_conn c) (lock_wait UMain (cl_lock c)) (MAsk f fs))
| cs_not_remote c f fs :
    cl_main c = MSetup (f :: fs) → fs_kind f ≠ SpecRemote →
    cs_step Main c (cl_set_main c (refuse (cl_conn c) f) (cl_lock c) (MEnd (Err ForwardFailed)))
| cs_registered c f fs b :
    cl_main c = MAsk f fs → holds UMain c → answer_of c = Some b →
    cs_step Main c (cl_set_main c (registered b (cl_conn c) f) (lock_release (cl_lock c))
                      (if b then MSetup fs else MEnd (Err ForwardFailed)))
| cs_spawn c :
    cl_main c = MSetup [] → cs_step Main c (spawn_tasks c)
(** [select!]: the flag was raised, or the SOCKS5 server is gone. *)
| cs_select c :
    cl_main c = MWait → cl_flag c = true ∨ cl_socks5 c = false → cs_step Main c (leave_select c)
(** [shutdown]: the flag, the lock, the disconnect, the pause. *)
| cs_shutdown c :
    cl_main c = MShutdown → cs_step Main c (session_shutdown c)
| cs_disconnect c :
    cl_main c = MLock → holds UMain c → cc_closed (cl_conn c) = true ∨ cc_full (cl_conn c) = false →
    cs_step Main c (session_disconnect c)
| cs_finish c :
    cl_main c = MDrain → cs_step Main c (cl_set_main c (cl_conn c) (cl_lock c) (MEnd (Ok ())))
(** The monitor wakes once a second, and looks at the handle. *)
| cs_mon_stop c :
    cl_mon c = MonSleep → cl_flag c = true →
    cs_step Monitor c (cl_set_mon c (cl_conn c) (cl_lock c) MonOff (cl_attempts c) (cl_waits c))
| cs_mon_wake c :
    cl_mon c = MonSleep → cl_flag c = false →
    cs_step Monitor c (cl_set_mon c (cl_conn c) (lock_wait UMonitor (cl_lock c)) MonCheck (cl_attempts c) (cl_waits c))
| cs_mon_alive c :
    cl_mon c = MonCheck → holds UMonitor c → cc_closed (cl_conn c) = false →
    cs_step Monitor c (cl_set_mon c (cl_conn c) (lock_release (cl_lock c)) MonSleep (cl_attempts c) (cl_waits c))
| cs_mon_closed c :
    cl_mon c = MonCheck → holds UMonitor c → cc_closed (cl_conn c) = true →
    cs_step Monitor c (cl_set_mon c (cl_conn c) (lock_release (cl_lock c)) MonBackoff (cl_attempts c)
                         (cl_waits c ++ [backoff_duration (cl_attempts c)]))
(** The log line before the pause counts from one. *)
| cs_mon_log_overflow c :
    cl_mon c = MonCheck → holds UMonitor c → cc_closed (cl_conn c) = true →
    u32_add overflow_checks (cl_attempts c) 1 = Panic →
    cs_step Monitor c (cl_set_mon c (cl_conn c) (lock_release (cl_lock c)) MonOff (cl_attempts c) (cl_waits c))
(** The pause, and [establish_session]. *)
| cs_mon_failed c n :
    cl_mon c = MonBackoff → u32_add overflow_checks (cl_attempts c) 1 = Ret n →
    cs_step Monitor c (cl_set_mon c (cl_conn c) (cl_lock c) MonSleep n (cl_waits c))
| cs_mon_overflow c :
    cl_mon c = MonBackoff → u32_add overflow_checks (cl_attempts c) 1 = Panic →
    cs_step Monitor c (cl_set_mon c (cl_conn c) (cl_lock c) MonOff (cl_attempts c) (cl_waits c))
| cs_mon_established c :
    cl_mon c = MonBackoff →
    cs_step Monitor c (cl_set_mon c (cl_conn c) (lock_wait UMonitor (cl_lock c)) MonSwap (cl_attempts c) (cl_waits c))
| cs_mon_replaced c :
    cl_mon c = MonSwap → holds UMonitor c →
    cs_step Monitor c (cl_set_mon c conn_new (lock_release (cl_lock c)) (MonRegister (cl_specs c)) (cl_attempts c) (cl_waits c))
| cs_mon_register c f fs :
    cl_mon c = MonRegister (f :: fs) → fs_kind f = SpecRemote →
    cs_step Monitor c (cl_set_mon c (cl_conn c) (lock_wait UMonitor (cl_lock c)) (MonAsk f fs) (cl_attempts c) (cl_waits c))
| cs_mon_not_remote c f fs :
    cl_mon c = MonRegister (f :: fs) → fs_kind f ≠ SpecRemote →
    cs_step Monitor c (cl_set_mon c (refuse (cl_conn c) f) (cl_lock c) (MonRegister fs) (cl_attempts c) (cl_waits c))
| cs_mon_registered c f fs b :
    cl_mon c = MonAsk f fs → holds UMonitor c → answer_of c = Some b →
    cs_step Monitor c (cl_set_mon c (registered b (cl_conn c) f) (lock_release (cl_lock c)) (MonRegister fs)
                         (cl_attempts c) (cl_waits c))
| cs_mon_done c :
    cl_mon c = MonRegister [] → cs_step Monitor c (cl_set_mon c (cl_conn c) (cl_lock c) MonSleep 0 (cl_waits c))
| cs_mon_aborted c :
    cl_mon c ≠ MonOff → cl_abort c = true → cs_step Monitor c (monitor_dropped c)
(** A channel is opened: the answer ends the wait. *)
| cs_opened c b :
    holds UOpen c → answer_of c = Some b →
    cs_step Opener c (cl_set_world c (cl_conn c) (lock_release (cl_lock c)) (cl_flag c) (cl_socks5 c))
(** A connection wants a channel, or is cancelled while it waits. *)
| cs_open c :
    cs_step Outside c (cl_set_world c (cl_conn c) (lock_wait UOpen (cl_lock c)) (cl_flag c) (cl_socks5 c))
| cs_cancelled c i :
    hl_queue (cl_lock c) !! i = Some UOpen →
    cs_step Outside c (cl_set_world c (cl_conn c) (lock_cancel i (cl_lock c)) (cl_flag c) (cl_socks5 c))
(** The server answers the holder of the lock. *)
| cs_answered c r b :
    asked c = Some r → cc_closed (cl_conn c) = false → hl_answer (cl_lock c) = None → (b = true → may_grant r) →
    cs_step Outside c (cl_set_world c (cl_conn c) (mkHandleLock (hl_queue (cl_lock c)) (Some b)) (cl_flag c) (cl_socks5 c))
(** The session closes, its task falls behind or catches up, a signal arrives,
    the SOCKS5 server fails. *)
| cs_closed c :
    cs_step Outside c (cl_set_world c (mkClientConn true (cc_full (cl_conn c)) (cc_told (cl_conn c))
                                         (cc_registered (cl_conn c)) (cc_refused (cl_conn c)))
                         (cl_lock c) (cl_flag c) (cl_socks5 c))
| cs_congestion c full :
    cs_step Outside c (cl_set_world c (mkClientConn (cc_closed (cl_conn c)) full (cc_told (cl_conn c))
                                         (cc_registered (cl_conn c)) (cc_refused (cl_conn c)))
                         (cl_lock c) (cl_flag c) (cl_socks5 c))
| cs_signal c :
    cs_step Outside c (cl_set_world c (cl_conn c) (cl_lock c) true (cl_socks5 c))
| cs_socks5_exit c :
    cs_step Outside c (cl_set_world c (cl_conn c) (cl_lock c) (cl_flag c) false).

(** A run, with the tasks that made its steps. *)
Inductive cs_run : Cl → list Who → Cl → Prop :=
| run_nil c : cs_run c [] c
| run_snoc c ws c' w c'' : cs_run c ws c' → cs_step w c' c'' → cs_run c (ws ++ [w]) c''.
End Run.

(** ** Invariants *)
(** What is known of every forward asked for, at each point of the monitor. *)
Definition forwards_known (c : Cl) : Prop :=
  match cl_mon c with
  | MonOff | MonSwap => True
  | MonSleep | MonCheck | MonBackoff =>
      ∀ f, f ∈ cl_specs c → f ∈ cc_registered (cl_conn c) ∨ f ∈ cc_refused (cl_conn c)
  | MonRegister todo =>
      ∀ f, f ∈ cl_specs c → f ∈ cc_registered (cl_conn c) ∨ f ∈ cc_refused (cl_conn c) ∨ f ∈ todo
  | MonAsk g todo =>
      ∀ f, f ∈ cl_specs c → f ∈ cc_registered (cl_conn c) ∨ f ∈ cc_refused (cl_conn c) ∨ f ∈ g :: todo
  end.

(** The attempts counted are the last pauses made. *)
Definition pauses_known (c : Cl) : Prop :=
  match cl_mon c with
  | MonSleep | MonCheck =>
      0 ≤ cl_attempts c ≤ u32_max ∧ ∃ pre, cl_waits c = pre ++ (backoff_duration <$> seqZ 0 (cl_attempts c))
  | MonBackoff =>
      0 ≤ cl_attempts c ≤ u32_max ∧ ∃ pre, cl_waits c = pre ++ (backoff_duration <$> seqZ 0 (cl_attempts c + 1))
  | _ => True
  end.

Definition cl_ok (specs : list PortForwardSpec) (c : Cl) : Prop :=
  cl_specs c = specs ∧
  match cl_main c with
  | MSetup todo => cl_mon c = MonOff ∧ cl_attempts c = 0 ∧ specs = cc_registered (cl_conn c) ++ todo
  | MAsk f todo => cl_mon c = MonOff ∧ cl_attempts c = 0 ∧ specs = cc_registered (cl_conn c) ++ f :: todo
  | MWait => forwards_known c ∧ pauses_known c
  | MShutdown | MLock | MDrain | MEnd _ => cl_mon c = MonOff ∨ cl_abort c = true
  end.

(** Who waits for the handle or holds it, and how often each is in the queue. *)
Definition main_asks (pc : MainPc) : bool := match pc with MAsk _ _ | MLock => true | _ => false end.
Definition mon_asks (pc : MonPc) : bool := match pc with MonCheck | MonSwap | MonAsk _ _ => true | _ => false end.
Definition places (u : HandleUser) (q : list HandleUser) : nat := length (filter (λ v, v = u) q).

Definition lock_ok (may : Ask → Prop) (c : Cl) : Prop :=
  let l := cl_lock c in
  places UMain (hl_queue l) = (if main_asks (cl_main c) then 1 else 0)%nat
  ∧ places UMonitor (hl_queue l) = (if mon_asks (cl_mon c) then 1 else 0)%nat
  ∧ ∀ b, hl_answer l = Some b → ∃ r, asked c = Some r ∧ (b = true → may r).

Lemma seqZ_snoc k : 0 ≤ k → seqZ 0 (k + 1) = seqZ 0 k ++ [k].
Proof. intros Hk. rewrite seqZ_app by lia. by rewrite (seqZ_cons (0 + k) 1), (seqZ_nil _ (Z.pred 1)) by lia. Qed.

(** *** The queue *)
Lemma places_app u q q' : places u (q ++ q') = (places u q + places u q')%nat.
Proof. unfold places. by rewrite filter_app, length_app. Qed.
Lemma places_cons u v q : places u (v :: q) = ((if decide (v = u) then 1 else 0) + places u q)%nat.
Proof. unfold places. rewrite filter_cons. by destruct (decide (v = u)). Qed.
Lemma places_wait u v l :
  places u (hl_queue (lock_wait v l)) = (places u (hl_queue l) + if decide (v = u) then 1 else 0)%nat.
Proof. simpl. rewrite places_app, places_cons. unfold places at 2. simpl. by rewrite Nat.add_0_r. Qed.
Lemma places_release u v l :
  head (hl_queue l) = Some v →
  places u (hl_queue l) = ((if decide (v = u) then 1 else 0) + places u (hl_queue (lock_release l)))%nat.
Proof. destruct l as [[|w q] a]; [done|]. simpl. intros [= ->]. apply places_cons. Qed.
Lemma places_cancel u v i l :
  hl_queue l !! i = Some v →
  places u (hl_queue l) = ((if decide (v = u) then 1 else 0) + places u (hl_queue (lock_cancel i l)))%nat.
Proof.
  intros Hi. rewrite <-(take_drop_middle _ _ _ Hi) at 1. simpl. rewrite !places_app, places_cons. lia.
Qed.
Lemma places_holds u q : head q = Some u → places u q ≠ 0%nat.
Proof. destruct q as [|v q]; [done|]. simpl. intros [= ->]. rewrite places_cons, decide_True by done. lia. Qed.
Lemma places_find u q : places u q ≠ 0%nat → ∃ i, list_find (eq u) q = Some (i, u).
Proof.
  intros Hp. destruct (list_find (eq u) q) as [[i v]|] eqn:Hf.
  - exists i. apply list_find_Some in Hf as (_ & -> & _). done.
  - apply list_find_None in Hf. destruct Hp. unfold places.
    induction Hf as [|v q Hv _ IH]; [done|]. rewrite filter_cons_False; [done|congruence].
Qed.
Lemma monitor_dropped_none c :
  places UMonitor (hl_queue (cl_lock c)) = 0%nat → cl_lock (monitor_dropped c) = cl_lock c.
Proof.
  intros Hp. unfold monitor_dropped. simpl. destruct (list_find _ _) as [[i v]|] eqn:Hf; [|done].
  apply list_find_Some in Hf as (Hi & <- & _). by rewrite (places_cancel _ _ _ _ Hi), decide_True in Hp by done.
Qed.
Lemma monitor_dropped_some c :
  places UMonitor (hl_queue (cl_lock c)) ≠ 0%nat →
  ∃ i, hl_queue (cl_lock c) !! i = Some UMonitor ∧ cl_lock (monitor_dropped c) = lock_cancel i (cl_lock c).
Proof.
  intros Hp. destruct (places_find _ _ Hp) as [i Hf]. exists i. unfold monitor_dropped. simpl. rewrite Hf.
  by apply list_find_Some in Hf as (Hi & _ & _).
Qed.

(** *** The answer is to the request that is outstanding *)
Lemma asked_frame c c' :
  (∀ u, holds u c → holds u c') → (holds UMain c → cl_main c' = cl_main c) →
  (holds UMonitor c → cl_mon c' = cl_mon c) → ∀ r, asked c = Some r → asked c' = Some r.
Proof.
  unfold holds, asked. intros Hh Hm Hn r. destruct (head (hl_queue (cl_lock c))) as [[]|]; [..|done];
    rewrite (Hh _ eq_refl); [by rewrite Hm|by rewrite Hn|done].
Qed.

Section Invariants.
Context (grants : PortForwardSpec → Prop) (overflow_checks : bool).
Notation step := (cs_step grants overflow_checks).
Notation ok := (lock_ok (may_grant grants)).

Lemma main_step_ok specs c c' : step Main c c' → cl_ok specs c → cl_ok specs c'.
Proof.
  intros Hs [Hsp Hm]. remember Main as w eqn:Hw.
  destruct Hs as [c f fs Hp| |c f fs b Hp|c Hp| | | | | | | | | | | | | | | | | | | | | | | | | |]; try done;
    (split; [done|]); simpl; rewrite ?Hp in Hm; try done;
    try (match goal with He : cl_main _ = _ |- _ => rewrite He in Hm end); try naive_solver.
  - destruct Hm as (? & ? & Hr). destruct b; [|by left]. split_and!; [done..|]. simpl. by rewrite <-app_assoc.
  - destruct Hm as (_ & Ha & Hr). rewrite app_nil_r in Hr. unfold forwards_known, pauses_known. simpl.
    rewrite Ha. split; [rewrite Hsp, Hr; by left|]. split; [unfold u32_max; lia|]. exists (cl_waits c). by rewrite app_nil_r.
Qed.

(** What the monitor does is done while [run] is in [select!] or later. *)
Lemma mon_step_main w c c' : step w c c' → w = Monitor → cl_main c' = cl_main c ∧ cl_specs c' = cl_specs c ∧ cl_mon c ≠ MonOff.
Proof.
  intros Hs Hw. destruct Hs; try done; simpl; (split_and!; [done..|]); congruence.
Qed.

Lemma mon_step_abort w c c' : step w c c' → w = Monitor → cl_abort c' = cl_abort c.
Proof. intros Hs Hw. by destruct Hs. Qed.

Lemma mon_step_ok specs c c' : step Monitor c c' → cl_ok specs c → cl_ok specs c'.
Proof.
  intros Hs [Hsp Hm]. destruct (mon_step_main _ _ _ Hs eq_refl) as (Hmn & Hsp' & Hoff).
  split; [congruence|]. rewrite Hmn. destruct (cl_main c) eqn:Hw; [naive_solver..| | | | |].
  2-5: right; rewrite (mon_step_abort _ _ _ Hs eq_refl); naive_solver.
  destruct Hm as [Hf Hpz]. clear Hoff Hsp Hmn. remember Monitor as w eqn:Heqw.
  destruct Hs; try done; unfold forwards_known, pauses_known in *; simpl in *;
    repeat match goal with Hp : cl_mon _ = _ |- _ => rewrite Hp in *; clear Hp end; try by split.
  - split; [done|]. destruct Hpz as (Ha & pre & ->). split; [done|]. exists pre.
    by rewrite seqZ_snoc, fmap_app, <-app_assoc by lia.
  - split; [done|]. destruct Hpz as (Ha & pre & Hwt).
    match goal with Hn : u32_add _ _ _ = Ret _ |- _ => unfold u32_add in Hn; rename Hn into Hadd end.
    destruct (Z.ltb_spec u32_max (cl_attempts c + 1)) as [Hlt|Hge]; [destruct overflow_checks; [done|]|];
      injection Hadd as <-.
    + assert (cl_attempts c = u32_max) as -> by lia. change (as_u32 (u32_max + 1)) with 0.
      split; [unfold u32_max; lia|]. exists (cl_waits c). by rewrite app_nil_r.
    + split; [lia|]. by exists pre.
  - split; [|done]. intros g Hin. by right; right.
  - split; [|done]. intros g Hin. specialize (Hf g Hin). set_solver.
  - split; [|done]. intros g Hin. specialize (Hf g Hin). destruct b; simpl; set_solver.
  - split; [intros g Hin; specialize (Hf g Hin); set_solver|]. split; [unfold u32_max; lia|].
    exists (cl_waits c). by rewrite app_nil_r.
Qed.

Lemma world_step_ok specs w c c' : step w c c' → w = Opener ∨ w = Outside → cl_ok specs c → cl_ok specs c'.
Proof. intros Hs Hw Hok. by destruct Hs; try (by destruct Hw). Qed.

Lemma cs_step_ok specs w c c' : step w c c' → cl_ok specs c → cl_ok specs c'.
Proof.
  intros Hs. destruct w; [by apply main_step_ok|by apply mon_step_ok|eapply world_step_ok; eauto..].
Qed.

(** *** The lock, by what a step does to it *)
Definition asks (b : bool) : nat := if b then 1 else 0.

Lemma lock_ok_asks c :
  ok c → (holds UMain c → main_asks (cl_main c) = true) ∧ (holds UMonitor c → mon_asks (cl_mon c) = true).
Proof.
  intros (Hm & Hn & _). split; intros Hh; apply places_holds in Hh.
  - rewrite Hm in Hh. by destruct (main_asks _).
  - rewrite Hn in Hh. by destruct (mon_asks _).
Qed.

(** The tasks in the queue have not moved on. *)
Definition frame (c c' : Cl) : Prop :=
  (main_asks (cl_main c) = true → cl_main c' = cl_main c) ∧ (mon_asks (cl_mon c) = true → cl_mon c' = cl_mon c).

Lemma lock_ok_answer c c' :
  ok c → frame c c' → (∀ u, holds u c → holds u c') → ∀ b, hl_answer (cl_lock c) = Some b →
  ∃ r, asked c' = Some r ∧ (b = true → may_grant grants r).
Proof.
  intros Hok [Fm Fn] Hh b Hb. destruct (lock_ok_asks _ Hok) as [Am An]. destruct Hok as (_ & _ & Ha).
  destruct (Ha _ Hb) as (r & Hr & Hg). exists r. split; [|done]. by eapply asked_frame; eauto.
Qed.

Lemma lock_ok_wait u c c' :
  ok c → frame c c' → cl_lock c' = lock_wait u (cl_lock c) →
  asks (main_asks (cl_main c')) = (asks (main_asks (cl_main c)) + if decide (u = UMain) then 1 else 0)%nat →
  asks (mon_asks (cl_mon c')) = (asks (mon_asks (cl_mon c)) + if decide (u = UMonitor) then 1 else 0)%nat → ok c'.
Proof.
  intros Hok Hf Hl Em En. pose proof Hok as (Hm & Hn & _). unfold asks in *.
  split_and!; [by rewrite Hl, places_wait, Hm, Em|by rewrite Hl, places_wait, Hn, En|].
  intros b Hb. rewrite Hl in Hb. apply (lock_ok_answer c); [done..| |done].
  intros v Hv. unfold holds in *. rewrite Hl. simpl. by destruct (hl_queue (cl_lock c)).
Qed.

Lemma lock_ok_release u c c' :
  ok c → holds u c → cl_lock c' = lock_release (cl_lock c) →
  asks (main_asks (cl_main c)) = ((if decide (u = UMain) then 1 else 0) + asks (main_asks (cl_main c')))%nat →
  asks (mon_asks (cl_mon c)) = ((if decide (u = UMonitor) then 1 else 0) + asks (mon_asks (cl_mon c')))%nat → ok c'.
Proof.
  intros (Hm & Hn & _) Hh Hl Em En. unfold asks in *. split_and!; [..|by rewrite Hl].
  - rewrite (places_release UMain u) in Hm by done. rewrite Hl. lia.
  - rewrite (places_release UMonitor u) in Hn by done. rewrite Hl. lia.
Qed.

Lemma lock_ok_keep c c' :
  ok c → frame c c' → cl_lock c' = cl_lock c → main_asks (cl_main c') = main_asks (cl_main c) →
  mon_asks (cl_mon c') = mon_asks (cl_mon c) → ok c'.
Proof.
  intros Hok Hf Hl Em En. pose proof Hok as (Hm & Hn & _). unfold lock_ok. rewrite Hl, Em, En.
  split_and!; [done..|]. intros b Hb. apply (lock_ok_answer c); [done..| |done]. intros u. unfold holds. by rewrite Hl.
Qed.

Lemma lock_ok_cancel i u c c' :
  ok c → (u = UMonitor ∨ frame c c') → cl_main c' = cl_main c → hl_queue (cl_lock c) !! i = Some u →
  cl_lock c' = lock_cancel i (cl_lock c) → u ≠ UMain →
  asks (mon_asks (cl_mon c)) = ((if decide (u = UMonitor) then 1 else 0) + asks (mon_asks (cl_mon c')))%nat → ok c'.
Proof.
  intros Hok Hf Em Hi Hl Hu En. pose proof Hok as (Hm & Hn & _). unfold asks in *. split_and!.
  - rewrite (places_cancel UMain u i) in Hm by done. rewrite Hl, Em. by rewrite decide_False in Hm.
  - rewrite (places_cancel UMonitor u i) in Hn by done. rewrite Hl. lia.
  - rewrite Hl. simpl. destruct (Nat.eqb_spec i 0) as [->|Hi0]; [done|]. intros b Hb.
    destruct (lock_ok_asks _ Hok) as [Am An]. destruct Hok as (_ & _ & Ha).
    destruct (Ha _ Hb) as (r & Hr & Hg). exists r. split; [|done].
    assert (∀ v, holds v c → holds v c') as Hh.
    { intros v. unfold holds. rewrite Hl. simpl. destruct i as [|i]; [done|].
      by destruct (hl_queue (cl_lock c)). }
    apply (asked_frame c); [done|done| |done]. intros Hmon.
    destruct Hf as [->|[_ Hf]]; [|by apply Hf, An].
    (* the holder and the cancelled are two *)
    exfalso. specialize (An Hmon). unfold holds in Hmon. destruct (hl_queue (cl_lock c)) as [|v q] eqn:Hq; [done|].
    injection Hmon as ->. rewrite places_cons, decide_True in Hn by done. destruct i as [|i]; [done|]. simpl in Hi.
    pose proof (places_cancel UMonitor UMonitor i (mkHandleLock q None) Hi) as Hc.
    rewrite decide_True in Hc by done. simpl in Hc. rewrite An in Hn. lia.
Qed.

Lemma dropped_ok c : ok c → cl_mon c ≠ MonOff → ok (monitor_dropped c).
Proof.
  intros Hok _. pose proof Hok as (_ & Hn & _). destruct (mon_asks (cl_mon c)) eqn:Hasks.
  - destruct (monitor_dropped_some c) as (i & Hi & Hl); [by rewrite Hn|].
    eapply (lock_ok_cancel i UMonitor c); [done|by left|done..|]. by rewrite Hasks.
  - apply (lock_ok_keep c); [done|by split; [|rewrite Hasks]| |done|by rewrite Hasks].
    by apply monitor_dropped_none.
Qed.

Ltac pcs :=
  simpl; repeat match goal with Hp : cl_main _ = _ |- _ => rewrite Hp | Hp : cl_mon _ = _ |- _ => rewrite Hp end.
Ltac lock_case := pcs; first [done | by split; pcs | by destruct (main_asks _) | by destruct (mon_asks _)].

Lemma lock_ok_step specs w c c' : step w c c' → cl_ok specs c → ok c → ok c'.
Proof.
  intros Hs [_ Hcl] Hok. destruct Hs; try (rewrite H in Hcl; destruct Hcl as [Hcl _]).
  all: try (match goal with
    | |- lock_ok _ (session_shutdown _) => apply (lock_ok_wait UMain c)
    | |- context [lock_wait ?u _] => apply (lock_ok_wait u c)
    | |- context [lock_cancel ?i _] => apply (lock_ok_cancel i UOpen c)
    | |- context [registered ?b] => destruct b
    | |- lock_ok _ (monitor_dropped _) => by apply dropped_ok
    | |- context [Some _] => idtac
    | _ : holds ?u _ |- _ => apply (lock_ok_release u c)
    | |- _ => apply (lock_ok_keep c)
    end; try by lock_case).
  all: try (match goal with Hh : holds ?u _ |- _ => apply (lock_ok_release u c); by lock_case end).
  - by right.
  - destruct Hok as (Hm & Hn & _). split_and!; [done..|]. intros b' [= <-]. by exists r.
Qed.

Lemma cs_run_ok specs ws c : cs_run grants overflow_checks (cl_new specs) ws c → cl_ok specs c ∧ ok c.
Proof.
  remember (cl_new specs) as c0 eqn:Hc0. induction 1 as [|c ws c1 w c2 _ IH Hs]; subst.
  - by split; [split_and!|].
  - destruct (IH eq_refl) as [Hcl Hok]. split; [by eapply cs_step_ok|by eapply lock_ok_step].
Qed.

(** ** How far [run] still has to go *)
Definition main_rank (pc : MainPc) : nat :=
  match pc with
  | MSetup todo => 2 * length todo + 5
  | MAsk _ todo => 2 * length todo + 6
  | MWait => 4
  | MShutdown => 3
  | MLock => 2
  | MDrain => 1
  | MEnd _ => 0
  end.

Definition is_main (w : Who) : bool := match w with Main => true | _ => false end.

Lemma cs_step_rank w c c' :
  step w c c' →
  if is_main w then (main_rank (cl_main c') < main_rank (cl_main c))%nat else cl_main c' = cl_main c.
Proof.
  intros Hs. destruct Hs; simpl; try done;
    repeat match goal with Hp : cl_main _ = _ |- _ => rewrite Hp; clear Hp end; simpl; try lia.
  destruct b; simpl; lia.
Qed.










(** ** Running to the end *)
Lemma cs_run_cons c w c1 ws c2 :
  step w c c1 → cs_run grants overflow_checks c1 ws c2 → cs_run grants overflow_checks c (w :: ws) c2.
Proof.
  intros Hs. induction 1 as [c1|c1 ws c2 v c3 _ IH Hv].
  - eapply (run_snoc _ _ c [] c); [apply run_nil|done].
  - eapply (run_snoc _ _ c (w :: ws) c2); [by apply IH|done].
Qed.



End Invariants.

(** ** Theorems *)
Section Theorems.
Context `{ClientKeys, FileSystem}.

Lemma client_session_made opts user username a :
  (∃ s, ClientSession_new opts user username a = Ok s) ↔
    connect_validate opts = Ok () ∧ at_connect a = Ok () ∧ at_handshake a = Ok () ∧
    ∃ key, load_private_key (co_identity opts) = Ok key
      ∧ at_authenticate a (derive_username user username) key = Ok true.
Proof.
  unfold ClientSession_new, establish_session, connect_stream, check_server_key. simpl.
  destruct (connect_validate opts) as [[]|e]; simpl; [|naive_solver].
  unfold from_key_source. destruct (load_private_key _) as [key|e]; simpl; [|naive_solver].
  destruct (at_connect a) as [[]|e]; simpl; [|naive_solver].
  destruct (at_handshake a) as [[]|e]; simpl; [|naive_solver].
  split.
  - destruct (at_authenticate a _ _) as [[]|e] eqn:He; intros [s Hs]; [|done..]. by split_and!; [..|exists key].
  - intros (_ & _ & _ & ? & [= <-] & ->). by eexists.
Qed.

Lemma run_setup_ret opts :
  run_setup opts =
    match socket_addr_from_str (co_socks5_addr opts) with
    | Some a =>
        Ret (let? local_forwarders := build_local_forwarders (co_forwards opts) in
             let? remote_specs := build_remote_specs (co_remote_forwards opts) in
             Ok (mkRunPlan a local_forwarders remote_specs))
    | None => Ret (Err (ConnectConfig (InvalidFlag ("invalid SOCKS5 address: " +:+ co_socks5_addr opts))))
    end.
Proof.
  unfold run_setup, socks5_with_addr. destruct (socket_addr_from_str (co_socks5_addr opts)) as [a|] eqn:Ha; [|done].
  by rewrite (socket_addr_round_trip a) by (by eapply socket_addr_from_str_ok).
Qed.

Lemma run_setup_plan opts plan :
  run_setup opts = Ret (Ok plan) →
  socket_addr_from_str (co_socks5_addr opts) = Some (rp_socks5_listen plan)
  ∧ build_local_forwarders (co_forwards opts) = Ok (rp_local_forwarders plan)
  ∧ build_remote_specs (co_remote_forwards opts) = Ok (rp_remote_specs plan).
Proof.
  rewrite run_setup_ret. destruct (socket_addr_from_str _) as [a|]; [|done].
  destruct (build_local_forwarders _) as [ls|]; [|done]. destruct (build_remote_specs _) as [rs|]; [|done].
  simpl. by intros [= <-].
Qed.

(** A session is made exactly when the options are valid, the key loads,
    the transport connects, the handshake completes and the server accepts the
    key under the user's name.  The key the server shows plays no part: the
    handler made from the configuration accepts every server. *)
Theorem session_made_iff opts user username a :
  (∀ key, ClientSession_new opts user username a =
            ClientSession_new opts user username
              (mkAttempt (at_connect a) key (at_handshake a) (at_authenticate a)))
  ∧ ((∃ s, ClientSession_new opts user username a = Ok s) ↔
     connect_validate opts = Ok () ∧ at_connect a = Ok () ∧ at_handshake a = Ok () ∧
     ∃ key, load_private_key (co_identity opts) = Ok key
       ∧ at_authenticate a (derive_username user username) key = Ok true).
Proof. split; [done|apply client_session_made]. Qed.

(** [run] never panics on its SOCKS5 address, although
    [Socks5Server::with_addr] parses it a second time from its printed form
    with [expect]: whatever the option parses to, IPv4 or IPv6, is the address
    listened on, and an option that does not parse is the error reported. *)
Theorem run_setup_listens opts :
  ∃ r, run_setup opts = Ret r ∧
    match socket_addr_from_str (co_socks5_addr opts) with
    | Some a => ∀ plan, r = Ok plan →
        rp_socks5_listen plan = a
        ∧ build_local_forwarders (co_forwards opts) = Ok (rp_local_forwarders plan)
        ∧ build_remote_specs (co_remote_forwards opts) = Ok (rp_remote_specs plan)
    | None => r = Err (ConnectConfig (InvalidFlag ("invalid SOCKS5 address: " +:+ co_socks5_addr opts)))
    end.
Proof.
  pose proof (run_setup_plan opts) as Hp. rewrite run_setup_ret in *.
  destruct (socket_addr_from_str _) as [a|] eqn:Ha; (eexists; split; [done|]); [|done].
  intros plan Hr. destruct (Hp plan) as (Hl & Hf & Hs); [by rewrite Hr|]. by injection Hl as ->.
Qed.


Lemma open_keeps_lock grants overflow_checks w c c' :
  cs_step grants overflow_checks w c c' → w ≠ Outside →
  cl_main c = MLock ∧ holds UOpen c ∧ answer_of c = None → lock_ok (may_grant grants) c →
  cl_main c' = MLock ∧ holds UOpen c' ∧ answer_of c' = None.
Proof.
  intros Hs Hw (Hm & Hh & Ha) (_ & Hn & _).
  destruct Hs; try done; try congruence;
    try (match goal with H1 : holds ?u ?c, H2 : holds ?v ?c |- _ => unfold holds in *; congruence end);
    try (simpl; split_and!; [done| |done]; unfold holds in *; simpl in *; by destruct (hl_queue (cl_lock c))).
  destruct (decide (places UMonitor (hl_queue (cl_lock c)) = 0%nat)) as [Hp|Hp].
  - unfold holds, answer_of. by rewrite monitor_dropped_none.
  - destruct (monitor_dropped_some _ Hp) as ([|i] & Hi & Hl); unfold holds, answer_of in *; rewrite Hl; simpl.
    + destruct (hl_queue (cl_lock c)); naive_solver.
    + by destruct (hl_queue (cl_lock c)).
Qed.

(** [shutdown] has no limit on its wait for the lock: while a connection that
    is opening a channel holds it and the server does not answer, no step of the
    tasks lets [run] go on, although a signal has arrived. *)
Theorem shutdown_waits_for_open grants overflow_checks specs ws c ws' c' :
  cs_run grants overflow_checks (cl_new specs) ws c →
  cl_main c = MLock ∧ holds UOpen c ∧ answer_of c = None →
  cs_run grants overflow_checks c ws' c' → Outside ∉ ws' → cl_main c' = MLock.
Proof.
  intros Hr Hst Hr' Ho. destruct (cs_run_ok _ _ _ _ _ Hr) as [Hcl Hok]. clear Hr.
  cut (cl_ok specs c' ∧ lock_ok (may_grant grants) c' ∧ cl_main c' = MLock ∧ holds UOpen c' ∧ answer_of c' = None);
    [naive_solver|].
  induction Hr' as [c|c ws' c1 w c2 _ IH Hs]; [done|].
  destruct IH as (Hcl1 & Hok1 & Hst1); [first [done|set_solver]..|].
  split_and!; [by eapply cs_step_ok|by eapply lock_ok_step|..]; eapply open_keeps_lock; eauto; set_solver.
Qed.

(** Between two attempts, each remote forward asked for has been granted
    or refused on the session in use, also after any number of reconnections;
    and the pauses made since the last session was established are 1, 2, 4, 8,
    16, then 30 seconds. *)
Theorem client_forwards_known grants overflow_checks specs ws c :
  cs_run grants overflow_checks (cl_new specs) ws c → cl_main c = MWait → cl_mon c = MonSleep →
  (∀ f, f ∈ specs → f ∈ cc_registered (cl_conn c) ∨ f ∈ cc_refused (cl_conn c))
  ∧ ∃ pre, cl_waits c = pre ++ ((λ n, Z.min (2 ^ n) 30) <$> seqZ 0 (cl_attempts c)).
Proof.
  intros Hr Hm Hmon. apply cs_run_ok in Hr as [[Hsp Hok] _].
  rewrite Hm in Hok. destruct Hok as [Hf Hp]. unfold forwards_known, pauses_known in *. rewrite Hmon in Hf, Hp.
  split; [by rewrite <-Hsp|]. destruct Hp as (_ & pre & ->). exists pre. f_equal.
  apply list_fmap_ext. intros i n Hn. apply backoff_duration_spec.
  apply lookup_seqZ in Hn. lia.
Qed.

(** Which forwards alknet's own server grants. *)
Definition server_grants (f : PortForwardSpec) : Prop :=
  reply_of (TcpipForward (fs_bind_addr f) (fs_bind_port f)) = Answer true.

(** [run] has not got past its first forward. *)
Definition at_first (f : PortForwardSpec) (fs : list PortForwardSpec) (c : Cl) : Prop :=
  cl_main c = MSetup (f :: fs) ∨ cl_main c = MAsk f fs ∨ cl_main c = MEnd (Err ForwardFailed).

Lemma granted_by c f fs :
  lock_ok (may_grant server_grants) c → cl_main c = MAsk f fs → holds UMain c → answer_of c ≠ Some true.
Proof.
  intros (_ & _ & Ha) Hm Hh Hb. unfold answer_of in Hb.
  destruct (hl_answer (cl_lock c)) as [b|] eqn:Hans; [|by destruct (cc_closed _)]. injection Hb as ->.
  destruct (Ha _ eq_refl) as (r & Hr & Hg). unfold asked in Hr. unfold holds in Hh. rewrite Hh, Hm in Hr.
  injection Hr as <-. by specialize (Hg eq_refl).
Qed.

Lemma never_granted_step overflow_checks f fs w c c' :
  cs_step server_grants overflow_checks w c c' → lock_ok (may_grant server_grants) c → at_first f fs c → at_first f fs c'.
Proof.
  intros Hs Hok Hm. destruct (is_main w) eqn:Hw.
  - destruct w; [|done..]. destruct Hm as [Hm|[Hm|Hm]]; remember Main as w eqn:Heq;
      destruct Hs as [c g gs Hp|c g gs Hp|c g gs b Hp Hh Hb| | | | | | | | | | | | | | | | | | | | | | | | | | |];
      try done; try congruence; rewrite Hm in Hp; injection Hp as -> ->; unfold at_first; simpl; auto.
    destruct b; [by destruct (granted_by _ _ _ Hok Hm Hh)|auto].
  - pose proof (cs_step_rank _ _ _ _ _ Hs) as Hk. rewrite Hw in Hk. unfold at_first. by rewrite Hk.
Qed.

(** The client and the server composed.  alknet's server answers every
    request for a remote forward with no, so a client with a remote forward
    never starts its SOCKS5 server, its local forwards or its monitor: [run] is
    still registering the first one, or has returned [ForwardFailed]. *)
Theorem remote_forward_never_runs overflow_checks f fs ws c :
  cs_run server_grants overflow_checks (cl_new (f :: fs)) ws c → at_first f fs c.
Proof.
  remember (cl_new (f :: fs)) as c0 eqn:Hc0. intros Hr.
  induction Hr as [|c ws c1 w c2 Hr IH Hs]; subst; [by left|].
  destruct (cs_run_ok _ _ _ _ _ Hr) as [_ Hok]. eapply never_granted_step; eauto.
Qed.
End Theorems.

(** ** Example *)
Module SessionExample.

Definition web : PortForwardSpec := mkForwardSpec SpecRemote "0.0.0.0" 8080 "localhost" 80.
Definition any (_ : PortForwardSpec) : Prop := True.

Definition lock0 : HandleLock := mkHandleLock [] None.
Definition granted : ClientConn := mkClientConn false false false [web] [].

(** One forward granted, the session lost, one attempt failed. *)
Definition lost : Cl :=
  mkCl [web] (mkClientConn true false false [web] []) lock0 false true false MWait MonSleep 1 [1].

(** The forward registered, the tasks running. *)
Definition running : Cl := mkCl [web] granted lock0 false true false MWait MonSleep 0 [].

Lemma running_to ws c :
  cs_run any true running ws c → cs_run any true (cl_new [web]) (Main :: Outside :: Main :: Main :: ws) c.
Proof.
  intros Hr. eapply cs_run_cons; [by eapply (cs_register _ _ (cl_new [web]))|].
  eapply cs_run_cons; [by eapply (cs_answered _ _ _ (AskForward web) true)|].
  eapply cs_run_cons; [by eapply (cs_registered _ _ _ web [] true)|].
  eapply cs_run_cons; [by eapply cs_spawn|]. exact Hr.
Qed.

Definition lost_run : list Who := [Main; Outside; Main; Main; Outside; Monitor; Monitor; Monitor].
Lemma lost_reached : cs_run any true (cl_new [web]) lost_run lost.
Proof.
  apply running_to. eapply cs_run_cons; [apply cs_closed|]. eapply cs_run_cons; [by apply cs_mon_wake|].
  eapply cs_run_cons; [by apply cs_mon_closed|]. eapply cs_run_cons; [by apply (cs_mon_failed _ _ _ 1)|].
  apply run_nil.
Qed.

Lemma client_forwards_known_witness :
  (∀ f, f ∈ [web] → f ∈ cc_registered (cl_conn lost) ∨ f ∈ cc_refused (cl_conn lost))
  ∧ ∃ pre, cl_waits lost = pre ++ ((λ n, Z.min (2 ^ n) 30) <$> seqZ 0 (cl_attempts lost)).
Proof. apply (client_forwards_known any true [web] _ lost lost_reached); reflexivity. Defined.

(** A connection opens a channel, then a signal arrives: [shutdown] waits behind
    the connection. *)
Definition behind (closed : bool) : Cl :=
  mkCl [web] (mkClientConn closed false false [web] []) (mkHandleLock [UOpen; UMain] None) true true true MLock MonSleep 0 [].

Definition behind_run : list Who := [Main; Outside; Main; Main; Outside; Outside; Main; Main].
Lemma behind_reached : cs_run any true (cl_new [web]) behind_run (behind false).
Proof.
  apply running_to. eapply cs_run_cons; [apply cs_open|]. eapply cs_run_cons; [apply cs_signal|].
  eapply cs_run_cons; [by apply cs_select; [|left]|]. eapply cs_run_cons; [by apply cs_shutdown|]. apply run_nil.
Qed.

Lemma shutdown_waits_for_open_witness : cl_main (behind false) = MLock.
Proof.
  apply (shutdown_waits_for_open any true [web] behind_run (behind false) [] (behind false));
    [apply behind_reached|done|apply run_nil|set_solver].
Defined.


Definition rejected : Cl :=
  mkCl [web] (mkClientConn false false false [] [web]) lock0 false false false (MEnd (Err ForwardFailed)) MonOff 0 [].

Lemma remote_forward_never_runs_witness : at_first web [] rejected.
Proof.
  apply (remote_forward_never_runs true web [] [Main; Outside; Main] rejected).
  eapply cs_run_cons; [by eapply (cs_register _ _ (cl_new [web]))|].
  eapply cs_run_cons; [by eapply (cs_answered _ _ _ (AskForward web) false)|].
  eapply cs_run_cons; [by eapply (cs_registered _ _ _ web [] false)|]. apply run_nil.
Defined.
End SessionExample.
