(* ===== verification/ChannelManager.v ===== *)
(** * The channel manager (client/channel_manager.rs)

    Any number of callers and the task that monitors the session share two
    locks, [handle] and [forwards].  [cm_step] interleaves them at the
    granularity of lock acquisitions, with the task that stores the monitor's
    handle and with the manager's [Drop]; what the network and the SSH server
    answer is nondeterministic. *)
From S2P Require Import Prelude RustStd Net Keys Client ClientSession.
Open Scope Z_scope.

Notation ForwardRequest := (string * Z)%type.

(** Where a caller is, and so which locks it holds.  [request_tcpip_forward]
    holds [handle] for writing, [cancel_tcpip_forward] and [open_direct_tcpip]
    for reading, from their first step to their last; after the server's answer
    the first two wait for [forwards]. *)
Inductive CallerPc :=
| ReqLocked (r : ForwardRequest)
| ReqGranted (r : ForwardRequest)
| CanLocked (r : ForwardRequest)
| CanGranted (r : ForwardRequest)
| Opening (host : string) (port : Z).

Definition caller_writes (c : CallerPc) : bool :=
  match c with ReqLocked _ | ReqGranted _ => true | _ => false end.
(** The server has answered, and the caller waits for [forwards]. *)
Definition wants_forwards (c : CallerPc) : bool :=
  match c with ReqGranted _ | CanGranted _ => true | _ => false end.

(** The monitor: watching, making a new session, having put it in place; then
    holding [forwards] for reading and waiting for [handle]; then registering
    with both locks held.  It is gone when it was aborted or has panicked. *)
Inductive MonitorPc :=
| Watching
| Establishing
| Replaced
| WantsHandle (fs : list ForwardRequest)
| Registering (todo : list ForwardRequest)
| Gone.

Definition holds_forwards (p : MonitorPc) : bool :=
  match p with WantsHandle _ | Registering _ => true | _ => false end.
Definition holds_handle (p : MonitorPc) : bool := match p with Registering _ => true | _ => false end.

Section ChannelManager.
Context `{ClientKeys, FileSystem}.

(** ** Sessions *)
Definition manager_establish_session (a : Attempt) (h : ClientHandler) (config : ClientAuthConfig) (username : string)
    : result unit string :=
  let? _ := map_err (λ _, "SendError") (at_connect a) in
  let? _ := connect_stream a h in
  let? auth_ok := at_authenticate a username (ca_private_key config) in
  if negb auth_ok then Err "SendError" else Ok ().

(** A session: the attempt it came from, and the forwards its server has
    registered. *)
Record Session := mkSession {
  made_by : Attempt;
  closed : bool;
  registered : gset ForwardRequest;
}.

(** ** The manager *)
Record Shared := mkShared {
  cm_session : Session;
  cm_forwards : gset ForwardRequest;
  cm_denied : gset ForwardRequest;    (* re-registrations refused on this session *)
}.
Record Monitor := mkMonitor {
  mn_pc : MonitorPc;
  mn_attempts : Z;                    (* a [u32] *)
  mn_waited : list Z;                 (* the pauses made so far, in seconds *)
}.
(** Whether the monitor's handle has been stored, the manager dropped, and the
    monitor told to stop. *)
Record Life := mkLife { lf_stored : bool; lf_dropped : bool; lf_aborted : bool }.

Record Manager := mkManager {
  cm_shared : Shared;
  cm_callers : gmap nat CallerPc;     (* the calls under way *)
  cm_monitor : Monitor;
  cm_life : Life;
}.

Definition manager_new (a : Attempt) : Manager :=
  mkManager (mkShared (mkSession a false ∅) ∅ ∅) ∅ (mkMonitor Watching 0 []) (mkLife false false false).

Definition ChannelManager_new (a : Attempt) (config : ClientAuthConfig) (username : string)
    : result Manager ChannelError :=
  let? _ := map_err (λ _, TargetUnreachable)
              (manager_establish_session a (handler_from_config config) config username) in
  Ok (manager_new a).

Definition open_direct_tcpip {Channel} (direct_tcpip : string → Z → result Channel string) (host : string) (port : Z)
    : result Channel ChannelError :=
  map_err (λ _, ChannelClosed) (direct_tcpip host port).

Definition is_connected (s : Session) : bool := negb (closed s).

(** [handle] can be taken for writing, for reading. *)
Definition handle_free (cs : gmap nat CallerPc) (mn : Monitor) : Prop :=
  cs = ∅ ∧ holds_handle (mn_pc mn) = false.
Definition handle_readable (cs : gmap nat CallerPc) (mn : Monitor) : Prop :=
  map_Forall (λ _ c, caller_writes c = false) cs ∧ holds_handle (mn_pc mn) = false.

Definition set_session (sh : Shared) (s : Session) : Shared := mkShared s (cm_forwards sh) (cm_denied sh).
Definition set_registered (sh : Shared) (rs : gset ForwardRequest) : Shared :=
  set_session sh (mkSession (made_by (cm_session sh)) (closed (cm_session sh)) rs).
Definition set_forwards (sh : Shared) (fs : gset ForwardRequest) : Shared :=
  mkShared (cm_session sh) fs (cm_denied sh).
Definition set_pc (mn : Monitor) (p : MonitorPc) : Monitor := mkMonitor p (mn_attempts mn) (mn_waited mn).

(** *** Steps of caller [i] *)
Inductive caller_step (i : nat) : Manager → Manager → Prop :=
| cl_request sh cs mn lf r :
    lf_dropped lf = false → handle_free cs mn →
    caller_step i (mkManager sh cs mn lf) (mkManager sh (<[i := ReqLocked r]> cs) mn lf)
| cl_request_granted sh cs mn lf r :
    cs !! i = Some (ReqLocked r) → closed (cm_session sh) = false →
    caller_step i (mkManager sh cs mn lf)
      (mkManager (set_registered sh ({[r]} ∪ registered (cm_session sh))) (<[i := ReqGranted r]> cs) mn lf)
| cl_request_denied sh cs mn lf r :
    cs !! i = Some (ReqLocked r) →
    caller_step i (mkManager sh cs mn lf) (mkManager sh (delete i cs) mn lf)
| cl_request_insert sh cs mn lf r :
    cs !! i = Some (ReqGranted r) → holds_forwards (mn_pc mn) = false →
    caller_step i (mkManager sh cs mn lf)
      (mkManager (set_forwards sh ({[r]} ∪ cm_forwards sh)) (delete i cs) mn lf)
| cl_cancel sh cs mn lf r :
    lf_dropped lf = false → cs !! i = None → handle_readable cs mn →
    caller_step i (mkManager sh cs mn lf) (mkManager sh (<[i := CanLocked r]> cs) mn lf)
| cl_cancel_granted sh cs mn lf r :
    cs !! i = Some (CanLocked r) → closed (cm_session sh) = false →
    caller_step i (mkManager sh cs mn lf)
      (mkManager (set_registered sh (registered (cm_session sh) ∖ {[r]})) (<[i := CanGranted r]> cs) mn lf)
| cl_cancel_denied sh cs mn lf r :
    cs !! i = Some (CanLocked r) →
    caller_step i (mkManager sh cs mn lf) (mkManager sh (delete i cs) mn lf)
| cl_cancel_remove sh cs mn lf r :
    cs !! i = Some (CanGranted r) → holds_forwards (mn_pc mn) = false →
    caller_step i (mkManager sh cs mn lf)
      (mkManager (set_forwards sh (cm_forwards sh ∖ {[r]})) (delete i cs) mn lf)
| cl_open sh cs mn lf host port :
    lf_dropped lf = false → cs !! i = None → handle_readable cs mn →
    caller_step i (mkManager sh cs mn lf) (mkManager sh (<[i := Opening host port]> cs) mn lf)
| cl_opened sh cs mn lf host port :
    cs !! i = Some (Opening host port) →
    caller_step i (mkManager sh cs mn lf) (mkManager sh (delete i cs) mn lf).

Section Monitor.
Context (overflow_checks : bool) (config : ClientAuthConfig) (username : string).

(** [establish_session] as the monitor calls it. *)
Definition establishes (a : Attempt) : result unit string :=
  manager_establish_session a (handler_from_config config) config username.

(** *** Steps of the monitor: [start_reconnect_monitor], [reconnect] and
    [re_register_forwards] *)
Inductive monitor_step : Manager → Manager → Prop :=
(** A closed session is seen: count the attempt and pause. *)
| mo_closed sh cs mn lf n :
    mn_pc mn = Watching → closed (cm_session sh) = true → handle_readable cs mn →
    u32_add overflow_checks (mn_attempts mn) 1 = Ret n →
    monitor_step (mkManager sh cs mn lf)
      (mkManager sh cs (mkMonitor Establishing n (mn_waited mn ++ [backoff_duration (mn_attempts mn)])) lf)
| mo_overflow sh cs mn lf :
    mn_pc mn = Watching → closed (cm_session sh) = true → handle_readable cs mn →
    u32_add overflow_checks (mn_attempts mn) 1 = Panic →
    monitor_step (mkManager sh cs mn lf) (mkManager sh cs (set_pc mn Gone) lf)
| mo_failed sh cs mn lf a e :
    mn_pc mn = Establishing → establishes a = Err e →
    monitor_step (mkManager sh cs mn lf) (mkManager sh cs (set_pc mn Watching) lf)
(** A new session is made: replace the handle, reset the attempts. *)
| mo_replaced sh cs mn lf a :
    mn_pc mn = Establishing → establishes a = Ok () → handle_free cs mn →
    monitor_step (mkManager sh cs mn lf)
      (mkManager (mkShared (mkSession a false ∅) (cm_forwards sh) ∅) cs (mkMonitor Replaced 0 (mn_waited mn)) lf)
| mo_no_forwards sh cs mn lf :
    mn_pc mn = Replaced → cm_forwards sh = ∅ →
    monitor_step (mkManager sh cs mn lf) (mkManager sh cs (set_pc mn Watching) lf)
| mo_read_forwards sh cs mn lf fs :
    mn_pc mn = Replaced → cm_forwards sh ≠ ∅ → list_to_set fs = cm_forwards sh →
    monitor_step (mkManager sh cs mn lf) (mkManager sh cs (set_pc mn (WantsHandle fs)) lf)
| mo_lock_handle sh cs mn lf fs :
    mn_pc mn = WantsHandle fs → handle_free cs mn →
    monitor_step (mkManager sh cs mn lf) (mkManager sh cs (set_pc mn (Registering fs)) lf)
| mo_registered sh cs mn lf f fs :
    mn_pc mn = Registering (f :: fs) → closed (cm_session sh) = false →
    monitor_step (mkManager sh cs mn lf)
      (mkManager (set_registered sh ({[f]} ∪ registered (cm_session sh))) cs (set_pc mn (Registering fs)) lf)
| mo_denied sh cs mn lf f fs :
    mn_pc mn = Registering (f :: fs) →
    monitor_step (mkManager sh cs mn lf)
      (mkManager (mkShared (cm_session sh) (cm_forwards sh) ({[f]} ∪ cm_denied sh)) cs
         (set_pc mn (Registering fs)) lf)
| mo_done sh cs mn lf :
    mn_pc mn = Registering [] →
    monitor_step (mkManager sh cs mn lf) (mkManager sh cs (set_pc mn Watching) lf)
| mo_aborted sh cs mn lf :
    lf_aborted lf = true →
    monitor_step (mkManager sh cs mn lf) (mkManager sh cs (set_pc mn Gone) lf).

(** The task [start_reconnect_monitor] spawns to store the monitor's handle, and
    [Drop], which needs the manager to itself: the monitor is told to stop if
    its handle is found. *)
Inductive life_step : Manager → Manager → Prop :=
| lf_store sh cs mn lf :
    life_step (mkManager sh cs mn lf) (mkManager sh cs mn (mkLife true (lf_dropped lf) (lf_aborted lf)))
| lf_drop sh mn lf :
    lf_dropped lf = false →
    life_step (mkManager sh ∅ mn lf) (mkManager sh ∅ mn (mkLife (lf_stored lf) true (lf_stored lf))).

(** The session may close at any time. *)
Inductive cm_step : Manager → Manager → Prop :=
| cm_caller_step i m m' : caller_step i m m' → cm_step m m'
| cm_monitor_step m m' : monitor_step m m' → cm_step m m'
| cm_life_step m m' : life_step m m' → cm_step m m'
| cm_close sh cs mn lf :
    cm_step (mkManager sh cs mn lf)
      (mkManager (set_session sh (mkSession (made_by (cm_session sh)) true (registered (cm_session sh)))) cs mn lf).

(** ** Invariant *)
(** A writer is alone. *)
Definition writer_alone (cs : gmap nat CallerPc) : Prop :=
  ∀ i c, cs !! i = Some c → caller_writes c = true → cs = {[i := c]}.

(** [r] is registered or was refused on this session, or its cancellation only
    waits for [forwards]. *)
Definition accounted (m : Manager) (r : ForwardRequest) : Prop :=
  (∃ i, cm_callers m !! i = Some (CanGranted r))
  ∨ r ∈ registered (cm_session (cm_shared m)) ∪ cm_denied (cm_shared m).

(** Every forward kept is accounted for, or about to be registered. *)
Definition forwards_tracked (m : Manager) : Prop :=
  match mn_pc (cm_monitor m) with
  | Watching | Establishing => ∀ r, r ∈ cm_forwards (cm_shared m) → accounted m r
  | Replaced | Gone => True
  | WantsHandle fs => list_to_set fs = cm_forwards (cm_shared m)
  | Registering todo => cm_callers m = ∅ ∧ ∀ r, r ∈ cm_forwards (cm_shared m) → accounted m r ∨ r ∈ todo
  end.

Record cm_ok (m : Manager) : Prop := {
  ok_tracked : forwards_tracked m;
  ok_writer : writer_alone (cm_callers m);
  ok_granted : ∀ i r, cm_callers m !! i = Some (ReqGranted r) → r ∈ registered (cm_session (cm_shared m));
  ok_session : establishes (made_by (cm_session (cm_shared m))) = Ok ();
  ok_aborted : lf_aborted (cm_life m) = true → lf_dropped (cm_life m) = true;
}.

Lemma writer_alone_insert i c cs :
  map_Forall (λ _ c, caller_writes c = false) cs → caller_writes c = false → writer_alone (<[i := c]> cs).
Proof.
  intros Hr Hc j d Hj Hd. apply lookup_insert_Some in Hj as [[_ <-]|[_ Hj]]; [congruence|].
  rewrite (Hr _ _ Hj) in Hd. done.
Qed.
Lemma writer_alone_update i c c' cs :
  writer_alone cs → cs !! i = Some c → caller_writes c' = caller_writes c → writer_alone (<[i := c']> cs).
Proof.
  intros Hw Hi Hc j d Hj Hd. apply lookup_insert_Some in Hj as [[<- <-]|[Hne Hj]].
  - rewrite (Hw i c Hi) by congruence. by rewrite insert_singleton_eq.
  - pose proof (Hw j d Hj Hd) as ->. by apply lookup_singleton_Some in Hi as [-> _].
Qed.
Lemma writer_alone_delete i cs : writer_alone cs → writer_alone (delete i cs).
Proof.
  intros Hw j d Hj Hd. apply lookup_delete_Some in Hj as [Hne Hj]. rewrite (Hw j d Hj Hd).
  by rewrite delete_singleton_ne.
Qed.
Lemma writer_alone_empty i c : writer_alone (<[i := c]> ∅).
Proof. intros j d Hj _. rewrite insert_empty in *. by apply lookup_singleton_Some in Hj as [<- <-]. Qed.

Lemma accounted_mono m m' r :
  registered (cm_session (cm_shared m)) ∪ cm_denied (cm_shared m)
    ⊆ registered (cm_session (cm_shared m')) ∪ cm_denied (cm_shared m') →
  (∀ i, cm_callers m !! i = Some (CanGranted r) → cm_callers m' !! i = Some (CanGranted r)) →
  accounted m r → accounted m' r.
Proof. unfold accounted. intros Hs Hc [[i Hi]|Hr]; [left; eauto|right; set_solver]. Qed.

Lemma can_granted_insert (cs : gmap nat CallerPc) i c c' j r :
  cs !! i = c → c ≠ Some (CanGranted r) → cs !! j = Some (CanGranted r) → <[i := c']> cs !! j = Some (CanGranted r).
Proof. intros Hi Hc Hj. rewrite lookup_insert_ne; [done|]. by intros ->; congruence. Qed.
Lemma can_granted_delete (cs : gmap nat CallerPc) i c j r :
  cs !! i = Some c → c ≠ CanGranted r → cs !! j = Some (CanGranted r) → delete i cs !! j = Some (CanGranted r).
Proof. intros Hi Hc Hj. rewrite lookup_delete_ne; [done|]. by intros ->; congruence. Qed.


(** A caller's step, while the monitor does not hold [handle]. *)
Lemma tracked_caller sh cs mn lf sh' cs' :
  holds_handle (mn_pc mn) = false ∨ cs ≠ ∅ →
  (holds_forwards (mn_pc mn) = true → cm_forwards sh' = cm_forwards sh) →
  (∀ r, r ∈ cm_forwards sh' →
     accounted (mkManager sh' cs' mn lf) r
     ∨ r ∈ cm_forwards sh ∧ (accounted (mkManager sh cs mn lf) r → accounted (mkManager sh' cs' mn lf) r)) →
  forwards_tracked (mkManager sh cs mn lf) → forwards_tracked (mkManager sh' cs' mn lf).
Proof.
  unfold forwards_tracked. simpl. intros Hh Hf Ha Ht.
  destruct (mn_pc mn); simpl in *; try done; try naive_solver. by rewrite Ht, Hf.
Qed.

Lemma caller_step_tracked i m m' :
  caller_step i m m' →
  (∀ i r, cm_callers m !! i = Some (ReqGranted r) → r ∈ registered (cm_session (cm_shared m))) →
  forwards_tracked m → forwards_tracked m'.
Proof.
  intros Hs Hg. destruct Hs as
    [sh cs mn lf r Hd [-> Hh]|sh cs mn lf r Hi Ho|sh cs mn lf r Hi|sh cs mn lf r Hi Hf|sh cs mn lf r Hd Hi [Hr Hh]
    |sh cs mn lf r Hi Ho|sh cs mn lf r Hi|sh cs mn lf r Hi Hf|sh cs mn lf ho po Hd Hi [Hr Hh]|sh cs mn lf ho po Hi];
    (apply tracked_caller; [try (by left); right; by intros ->|simpl; congruence|]);
    intros f Hfin; simpl in Hfin.
  1-3, 5, 7, 9-10: right; split; [done|]; apply accounted_mono; simpl; [set_solver|intros j];
    first [by eapply can_granted_insert|by eapply can_granted_delete|by rewrite lookup_empty].
  - apply elem_of_union in Hfin as [->%elem_of_singleton|Hfin].
    + left. right. simpl. apply elem_of_union_l. by eapply (Hg i).
    + right. split; [done|]. apply accounted_mono; simpl; [done|]. intros j. by eapply can_granted_delete.
  - destruct (decide (f = r)) as [->|Hne].
    + left. left. exists i. apply lookup_insert_eq.
    + right. split; [done|]. intros [[j Hj]|Hr]; [left|right; set_solver].
      exists j. by eapply can_granted_insert.
  - right. split; [set_solver|]. apply accounted_mono; simpl; [done|]. intros j. eapply can_granted_delete; [done|set_solver].
Qed.

Lemma caller_step_writer i m m' :
  caller_step i m m' → writer_alone (cm_callers m) → writer_alone (cm_callers m').
Proof.
  intros Hs Hw. destruct Hs as
    [sh cs mn lf r Hd [-> Hh]|sh cs mn lf r Hi Ho|sh cs mn lf r Hi|sh cs mn lf r Hi Hf|sh cs mn lf r Hd Hi [Hr Hh]
    |sh cs mn lf r Hi Ho|sh cs mn lf r Hi|sh cs mn lf r Hi Hf|sh cs mn lf ho po Hd Hi [Hr Hh]|sh cs mn lf ho po Hi];
    simpl in *; first [apply writer_alone_empty|by apply writer_alone_delete|by apply writer_alone_insert
                      |by eapply writer_alone_update].
Qed.

Lemma caller_step_granted i m m' :
  caller_step i m m' → writer_alone (cm_callers m) →
  (∀ i r, cm_callers m !! i = Some (ReqGranted r) → r ∈ registered (cm_session (cm_shared m))) →
  ∀ i r, cm_callers m' !! i = Some (ReqGranted r) → r ∈ registered (cm_session (cm_shared m')).
Proof.
  intros Hs Hw Hg j f Hj. destruct Hs as
    [sh cs mn lf r Hd [-> Hh]|sh cs mn lf r Hi Ho|sh cs mn lf r Hi|sh cs mn lf r Hi Hf|sh cs mn lf r Hd Hi [Hr Hh]
    |sh cs mn lf r Hi Ho|sh cs mn lf r Hi|sh cs mn lf r Hi Hf|sh cs mn lf ho po Hd Hi [Hr Hh]|sh cs mn lf ho po Hi];
    simpl in *; first [apply lookup_insert_Some in Hj as [[<- Hj]|[Hne Hj]]|apply lookup_delete_Some in Hj as [_ Hj]];
    simplify_eq; try set_solver.
  pose proof (Hw j _ Hj eq_refl) as ->. by apply lookup_singleton_Some in Hi as [-> _].
Qed.

Lemma caller_step_ok i m m' : caller_step i m m' → cm_ok m → cm_ok m'.
Proof.
  intros Hs [Ht Hw Hg Hse Hab]. split; [by eapply caller_step_tracked|by eapply caller_step_writer
    |by eapply caller_step_granted|by destruct Hs|by destruct Hs].
Qed.

Lemma monitor_step_ok m m' : monitor_step m m' → cm_ok m → cm_ok m'.
Proof.
  intros Hs [Ht Hw Hg Hse Hab]. destruct Hs as
    [sh cs mn lf n Hm Hc Hr Hn|sh cs mn lf Hm Hc Hr Hn|sh cs mn lf a e Hm Ha|sh cs mn lf a Hm Ha [-> Hh]|sh cs mn lf Hm He
    |sh cs mn lf fs Hm Hne Hfs|sh cs mn lf fs Hm [-> Hh]|sh cs mn lf f fs Hm Ho|sh cs mn lf f fs Hm|sh cs mn lf Hm
    |sh cs mn lf Hl]; split; simpl in *; try done; unfold forwards_tracked in *; simpl in *; try rewrite Hm in Ht;
    unfold accounted in *; simpl in *; try done.
  - by rewrite He.
  - split; [done|]. intros r Hr. right. rewrite <-Ht in Hr. by apply elem_of_list_to_set in Hr.
  - destruct Ht as [-> Ht]. split; [done|]. intros r [[?|?]|?%elem_of_cons]%Ht; naive_solver set_solver.
  - set_solver.
  - destruct Ht as [-> Ht]. split; [done|]. intros r [[?|?]|?%elem_of_cons]%Ht; naive_solver set_solver.
  - destruct Ht as [_ Ht]. intros r [?|?%elem_of_nil]%Ht; naive_solver.
Qed.

Lemma cm_step_ok m m' : cm_step m m' → cm_ok m → cm_ok m'.
Proof.
  intros [i m1 m2 Hs|m1 m2 Hs|m1 m2 Hs|sh cs mn lf]; [by eapply caller_step_ok|by apply monitor_step_ok| |].
  - intros [Ht Hw Hg Hse Hab]. destruct Hs; split; simpl in *; done.
  - intros [Ht Hw Hg Hse Hab]. split; simpl in *; done.
Qed.

Lemma cm_reachable_ok a m0 m :
  ChannelManager_new a config username = Ok m0 → rtc cm_step m0 m → cm_ok m.
Proof.
  intros Hnew Hr. eapply (rtc_ind_r cm_ok m0); [|intros m1 m2 _; apply cm_step_ok|exact Hr].
  unfold ChannelManager_new in Hnew. destruct (manager_establish_session _ _ _ _) as [[]|] eqn:He; [|done].
  injection Hnew as <-. split; simpl; try done; unfold writer_alone; set_solver.
Qed.

Lemma establishes_authenticated a :
  establishes a = Ok () → at_authenticate a username (ca_private_key config) = Ok true.
Proof.
  unfold establishes, manager_establish_session. destruct (at_connect a) as [[]|]; [|done]. simpl.
  destruct (connect_stream _ _) as [[]|]; [|done]. simpl. by destruct (at_authenticate _ _ _) as [[]|].
Qed.

(** ** Deadlock *)
(** A caller that holds [handle] waits for [forwards], and the monitor, which
    holds [forwards], for [handle]. *)
Definition deadlocked (i : nat) (m : Manager) : Prop :=
  (∃ c, cm_callers m !! i = Some c ∧ wants_forwards c = true)
  ∧ (∃ fs, mn_pc (cm_monitor m) = WantsHandle fs) ∧ lf_dropped (cm_life m) = false ∧ lf_aborted (cm_life m) = false.

Lemma deadlocked_caller i m m' : deadlocked i m → ¬ caller_step i m m'.
Proof.
  intros ((c & Hc & Hw) & (fs & Hm) & _) Hs. destruct Hs; simpl in *; simplify_eq/=; try by rewrite Hm in *.
  match goal with Hf : handle_free _ _ |- _ => by destruct Hf as [-> _] end.
Qed.
Lemma deadlocked_monitor i m m' : deadlocked i m → ¬ monitor_step m m'.
Proof.
  intros ((c & Hc & _) & (fs & Hm) & _ & Ha) Hs. destruct Hs; simpl in *; try congruence.
  match goal with Hf : handle_free _ _ |- _ => by destruct Hf as [-> _] end.
Qed.

Lemma caller_step_other i j m m' : caller_step j m m' → i ≠ j →
  cm_callers m' !! i = cm_callers m !! i ∧ cm_monitor m' = cm_monitor m ∧ cm_life m' = cm_life m.
Proof. intros Hs Hne. destruct Hs; simpl; split_and!; try done; by rewrite ?lookup_insert_ne, ?lookup_delete_ne. Qed.

Lemma deadlocked_step i m m' : cm_step m m' → deadlocked i m → deadlocked i m'.
Proof.
  intros Hs Hd. destruct Hs as [j m m' Hs|m m' Hs|m m' Hs|sh cs mn lf].
  - destruct (decide (i = j)) as [->|Hne]; [by destruct (deadlocked_caller _ _ _ Hd Hs)|].
    destruct (caller_step_other i j m m' Hs Hne) as (Hc & Hm & Hl). unfold deadlocked. by rewrite Hc, Hm, Hl.
  - by destruct (deadlocked_monitor _ _ _ Hd Hs).
  - destruct Hd as ((c & Hc & Hw) & Hm & Hdr & Hab). destruct Hs; simpl in *; [|done].
    split_and!; simpl; eauto.
  - done.
Qed.
Lemma deadlocked_forever i m m' : rtc cm_step m m' → deadlocked i m → deadlocked i m'.
Proof. induction 1; eauto using deadlocked_step. Qed.

(** One forward is kept; the session closes and is replaced; a second forward is
    requested and granted while the monitor takes the list of forwards. *)
Definition first_forward : ForwardRequest := ("a", 1).
Definition second_forward : ForwardRequest := ("b", 2).

Lemma request_run sh mn lf r :
  closed (cm_session sh) = false → holds_handle (mn_pc mn) = false → lf_dropped lf = false →
  rtc cm_step (mkManager sh ∅ mn lf)
    (mkManager (set_registered sh ({[r]} ∪ registered (cm_session sh))) {[0%nat := ReqGranted r]} mn lf).
Proof.
  intros Ho Hh Hl. eapply rtc_l; [by apply (cm_caller_step 0), (cl_request _ _ _ _ _ r)|]. apply rtc_once.
  rewrite insert_empty, <-(insert_singleton_eq 0%nat (ReqGranted r) (ReqLocked r)).
  by apply (cm_caller_step 0), cl_request_granted; [apply lookup_singleton_eq|].
Qed.

Lemma deadlock_reachable a :
  establishes a = Ok () → ∃ m, rtc cm_step (manager_new a) m ∧ deadlocked 0 m.
Proof.
  intros He. eexists. split.
  - etrans; [by apply (request_run _ _ _ first_forward)|].
    eapply rtc_l; [by apply (cm_caller_step 0), (cl_request_insert _ _ _ _ _ first_forward); [apply lookup_singleton_eq|]|].
    rewrite delete_singleton_eq. eapply rtc_l; [apply cm_close|].
    eapply rtc_l; [by apply cm_monitor_step, (mo_closed _ _ _ _ 1)|].
    eapply rtc_l; [by apply cm_monitor_step, (mo_replaced _ _ _ _ a)|].
    etrans; [by apply (request_run _ _ _ second_forward)|]. apply rtc_once, cm_monitor_step.
    apply (mo_read_forwards _ _ _ _ [first_forward]); [done|set_solver|set_solver].
  - split_and!; [|by exists [first_forward]|done|done]. exists (ReqGranted second_forward).
    split; [apply lookup_singleton_eq|done].
Qed.

(** Once the manager has been dropped without the monitor having been told, the
    monitor only ends by overflowing its counter. *)
Definition orphaned (m : Manager) : Prop :=
  lf_dropped (cm_life m) = true ∧ lf_aborted (cm_life m) = false
  ∧ (mn_pc (cm_monitor m) = Gone → overflow_checks = true).

Lemma orphaned_step m m' : cm_step m m' → orphaned m → orphaned m'.
Proof.
  intros Hs (Hd & Ha & Hg). destruct Hs as [i m m' Hs|m m' Hs|m m' Hs|sh cs mn lf]; [by destruct Hs| | |done].
  - destruct Hs; simpl in *; split_and!; simpl; try done; try congruence. intros _.
    match goal with Hp : u32_add _ _ _ = Panic |- _ => unfold u32_add in Hp end. by destruct (_ <? _), overflow_checks.
  - destruct Hs; simpl in *; [done|congruence].
Qed.

(** ** Theorems *)

(** C37: forwards survive reconnection.  However any number of calls, closings
    and reconnections interleave, whenever no call is under way and the monitor
    is back to watching, every forward the manager keeps is registered with the
    server of the current session, save those whose re-registration that server
    refused; and the current session was authenticated with the manager's key
    under its user name. *)
Theorem forwards_survive_reconnect a m0 m :
  ChannelManager_new a config username = Ok m0 → rtc cm_step m0 m →
  (cm_callers m = ∅ → mn_pc (cm_monitor m) = Watching →
   cm_forwards (cm_shared m) ⊆ registered (cm_session (cm_shared m)) ∪ cm_denied (cm_shared m))
  ∧ at_authenticate (made_by (cm_session (cm_shared m))) username (ca_private_key config) = Ok true.
Proof.
  intros Hnew Hr. destruct (cm_reachable_ok a m0 m Hnew Hr) as [Ht _ _ Hse _].
  split; [|by apply establishes_authenticated]. intros Hc Hm r Hin. unfold forwards_tracked in Ht. rewrite Hm in Ht.
  destruct (Ht r Hin) as [[i Hi]|]; [|done]. by rewrite Hc in Hi.
Qed.

(** C38: a request for a forward that overlaps a reconnection can deadlock the
    manager.  [request_tcpip_forward] holds the session handle and waits for
    the set of forwards, [re_register_forwards] holds the set and waits for
    the handle: from every new manager a state is reachable from which neither
    ever takes another step, whatever other callers and the session do. *)
Theorem reconnect_deadlock a m0 :
  ChannelManager_new a config username = Ok m0 →
  ∃ i m, rtc cm_step m0 m ∧ is_Some (cm_callers m !! i) ∧
    ∀ m', rtc cm_step m m' → ∀ m'', ¬ caller_step i m' m'' ∧ ¬ monitor_step m' m''.
Proof.
  intros Hnew. destruct (deadlock_reachable a) as (m & Hr & Hd).
  { unfold ChannelManager_new in Hnew. by destruct (manager_establish_session _ _ _ _) as [[]|] eqn:He. }
  exists 0%nat, m. split; [|split].
  - unfold ChannelManager_new in Hnew. by destruct (manager_establish_session _ _ _ _) as [[]|]; simplify_eq/=.
  - destruct Hd as [(c & Hc & _) _]. by exists c.
  - intros m' Hm m''. pose proof (deadlocked_forever _ _ _ Hm Hd) as Hd'.
    split; [by apply deadlocked_caller|by eapply deadlocked_monitor].
Qed.

(** A manager that is dropped at once leaves its monitor behind: the task that
    stores the monitor's handle has not run, so [Drop] finds nothing to abort.
    From then on the monitor is never told to stop, and a build without
    overflow checks never ends it. *)
Theorem drop_leaks_monitor a m0 :
  ChannelManager_new a config username = Ok m0 →
  ∃ m, cm_step m0 m ∧ lf_dropped (cm_life m) = true ∧
    ∀ m', rtc cm_step m m' → lf_aborted (cm_life m') = false ∧ (overflow_checks = false → mn_pc (cm_monitor m') ≠ Gone).
Proof.
  intros Hnew. unfold ChannelManager_new in Hnew.
  destruct (manager_establish_session _ _ _ _) as [[]|]; simplify_eq/=. eexists. split; [|split].
  - by apply cm_life_step, lf_drop.
  - done.
  - intros m' Hr. assert (orphaned m') as (_ & Ha & Hg).
    { eapply (rtc_ind_r orphaned); [|intros ??? Hs; by apply orphaned_step|exact Hr]. done. }
    split; [done|]. intros Hoc Hgone. specialize (Hg Hgone). congruence.
Qed.
End Monitor.
End ChannelManager.

(** ** Examples *)
Module ManagerExample.
Import KeysExample.

#[export] Instance manager_keys : ClientKeys := {| private_public_key k := k |}.
Definition config : ClientAuthConfig := mkClientAuth ("key" : PrivateKey) ("key" : PublicKey).
Definition welcoming : Attempt :=
  mkAttempt (Ok ()) ("AAAA9" : PublicKey) (Ok ()) (λ name key, Ok (String.eqb name "me" && String.eqb key "key")).

(** After one granted request. *)
Definition kept : Manager :=
  mkManager (mkShared (mkSession welcoming false {[first_forward]}) {[first_forward]} ∅) ∅
    (mkMonitor Watching 0 []) (mkLife false false false).

Lemma kept_reached : rtc (cm_step true config "me") (manager_new welcoming) kept.
Proof.
  etrans; [by apply (request_run _ _ _ _ _ _ first_forward)|].
  eapply rtc_l; [eapply (cm_caller_step _ _ _ 0), (cl_request_insert _ _ _ _ _ first_forward); [apply lookup_singleton_eq|done]|].
  apply reflexive_eq. vm_compute. reflexivity.
Qed.

Lemma forwards_survive_reconnect_witness :
  (cm_callers kept = ∅ → Watching = Watching →
   {[first_forward]} ⊆ registered (cm_session (cm_shared kept)) ∪ cm_denied (cm_shared kept))
  ∧ at_authenticate welcoming "me" "key" = Ok true.
Proof.
  apply (forwards_survive_reconnect true config "me" welcoming (manager_new welcoming) kept);
    [reflexivity|apply kept_reached].
Defined.

Lemma reconnect_deadlock_witness :
  ∃ i m, rtc (cm_step true config "me") (manager_new welcoming) m ∧ is_Some (cm_callers m !! i) ∧
    ∀ m', rtc (cm_step true config "me") m m' → ∀ m'', ¬ caller_step i m' m'' ∧ ¬ monitor_step true config "me" m' m''.
Proof. apply (reconnect_deadlock true config "me" welcoming (manager_new welcoming)). reflexivity. Defined.
End ManagerExample.
