(* ===== verification/Interfaces.v ===== *)
(** * Interfaces (interface/, server/control_channel.rs)

    The configurations of the interfaces, what the two stream interfaces make of
    a connection, the control channel router and the message interfaces. *)
From S2P Require Import Prelude RustStd Json Frame Net NetShow Forwarding Keys AuthPolicy DynConfig RateLimit.
From S2P Require Import Socket ServerHandler RawFraming SshInterface Pending ServeConfig Server.
From Stdlib Require Import Strings.Byte.
Open Scope Z_scope.

(** ** Configurations (interface/config.rs) *)
Section Config.
Context `{SshKeys, IpNetworkLib}.

Record SshInterfaceConfig := mkSshInterfaceConfig {
  sc_auth : IdentityProvider;
  sc_forwarding : DynamicConfig;
  sc_host_key : PrivateKey;
}.
Record RawFramingConfig := mkRawFramingConfig { rc_auth : IdentityProvider }.

Inductive StreamInterfaceConfig := StreamSsh (c : SshInterfaceConfig) | StreamRawFraming (c : RawFramingConfig).
Definition stream_config_kind (c : StreamInterfaceConfig) : StreamInterfaceKind :=
  match c with StreamSsh _ => KindSsh | StreamRawFraming _ => KindRawFraming end.
Definition show_stream_config (c : StreamInterfaceConfig) : string :=
  match c with StreamSsh _ => "ssh" | StreamRawFraming _ => "raw-framing" end.

Inductive InterfaceConfig := InterfaceSsh (c : SshInterfaceConfig) | InterfaceRawFraming (c : RawFramingConfig).
Definition interface_config_kind (c : InterfaceConfig) : StreamInterfaceKind :=
  match c with InterfaceSsh _ => KindSsh | InterfaceRawFraming _ => KindRawFraming end.

Record HttpInterfaceConfig := mkHttpInterfaceConfig { hc_bind_addr : SocketAddr; hc_tls : bool; hc_stealth : bool }.
Definition show_http_config (c : HttpInterfaceConfig) : string := "http " +:+ show_socket_addr (hc_bind_addr c).
Record DnsInterfaceConfig := mkDnsInterfaceConfig { dc_bind_addr : SocketAddr; dc_tls : bool }.
Definition show_dns_config (c : DnsInterfaceConfig) : string := "dns " +:+ show_socket_addr (dc_bind_addr c).

Inductive MessageInterfaceConfig := MessageHttp (c : HttpInterfaceConfig) | MessageDns (c : DnsInterfaceConfig).
Definition message_config_kind (c : MessageInterfaceConfig) : MessageInterfaceKind :=
  match c with MessageHttp _ => KindHttp | MessageDns _ => KindDns end.
Definition show_message_config (c : MessageInterfaceConfig) : string :=
  match c with MessageHttp _ => "http" | MessageDns _ => "dns" end.

(** ** Accepting a stream (interface/ssh.rs, interface/raw_framing.rs) *)
Record SshInterface := mkSshInterface {
  si_dynamic : DynamicConfig;
  si_outbound_proxy : option ProxyConfig;
  si_max_auth_attempts : nat;
}.
Definition SshInterface_new (dynamic : DynamicConfig) : SshInterface := mkSshInterface dynamic None 10.
Definition with_outbound_proxy (i : SshInterface) (proxy : option ProxyConfig) : SshInterface :=
  mkSshInterface (si_dynamic i) proxy (si_max_auth_attempts i).
Definition with_max_auth_attempts (i : SshInterface) (max : nat) : SshInterface :=
  mkSshInterface (si_dynamic i) (si_outbound_proxy i) max.

(** What a connection is then decided by. *)
Record SshAccepted := mkSshAccepted {
  sa_handler : SshHandler;
  sa_cell : DynamicConfig;
  sa_provider : IdentityProvider;
}.

Definition ssh_accept_inner (i : SshInterface) (limiter : ConnectionRateLimiter) (c : SshInterfaceConfig)
    (remote : option SocketAddr) (transport : TransportKind) : SshAccepted * ConnectionRateLimiter :=
  let '(h, l) := ssh_new (si_outbound_proxy i) remote transport limiter (si_max_auth_attempts i) in
  (mkSshAccepted (with_bridge_channels h) (si_dynamic i) (sc_auth c), l).

Definition ssh_accept (i : SshInterface) (limiter : ConnectionRateLimiter) (c : StreamInterfaceConfig)
    : result (SshAccepted * ConnectionRateLimiter) string :=
  match c with
  | StreamSsh c => Ok (ssh_accept_inner i limiter c None Tcp)
  | StreamRawFraming _ => Err "SshInterface received RawFramingConfig"
  end.

Definition raw_accept `{C : EnvelopeCodec} {IoError : Type} (stream : list (result (list byte) IoError))
    (c : StreamInterfaceConfig) : result (RawFramingSession (IoError := IoError) * IdentityProvider) string :=
  match c with
  | StreamRawFraming c => Ok (RawFramingSession_new stream, rc_auth c)
  | StreamSsh _ => Err "RawFramingInterface received SshInterfaceConfig"
  end.
End Config.

(** ** The control channel router (server/control_channel.rs) *)
Section Router.
Context {Handler Stream : Type} (handle_channel : Handler → Stream → Stream).

Definition ControlChannelRouter : Type := option Handler.
Definition router_new (handler : option Handler) : ControlChannelRouter := handler.
Definition has_handler (r : ControlChannelRouter) : bool := match r with Some _ => true | None => false end.
Definition router_route (r : ControlChannelRouter) (stream : Stream) : result Stream IoErr :=
  match r with
  | Some handler => Ok (handle_channel handler stream)
  | None => Err (mkIoErr KConnectionRefused "no control channel handler configured")
  end.
Definition take_handler (r : ControlChannelRouter) : ControlChannelRouter * option Handler := (None, r).
End Router.

(** [ControlChannelBridge::handle_channel]: the other ends of both queues are
    dropped when it returns. *)
Definition control_bridge `{C : EnvelopeCodec} {IoError : Type} (stream : list (result (list byte) IoError))
    : Bridge (IoError := IoError) :=
  mkBridge (FrameFramedReader_new stream) (mkWriter []) [] [] [] false false.

(** ** Message interfaces (interface/mod.rs, http.rs, dns.rs) *)
Section Messages.
Context `{Json}.

Record InterfaceRequest := mkInterfaceRequest {
  ir_operation_path : string;
  ir_input : Value;
  ir_auth_token : option (list byte);
  ir_metadata : gmap string string;
}.
Record InterfaceResponse := mkInterfaceResponse {
  io_result : result Value CallError;
  io_status : Z;
  io_headers : gmap string string;
}.

Definition not_implemented (name : string) : InterfaceResponse :=
  mkInterfaceResponse (Err (mkCallError "NOT_IMPLEMENTED" (name +:+ " is not yet implemented") false)) 501 ∅.
Definition http_handle_request (request : InterfaceRequest) : result InterfaceResponse string :=
  Ok (not_implemented "HttpInterface").
Definition dns_handle_request (request : InterfaceRequest) : result InterfaceResponse string :=
  Ok (not_implemented "DnsInterface").
End Messages.

(** ** Properties *)
Section Properties.
Context `{SshKeys, IpNetworkLib, Sha256}.

(** A connection accepted by the SSH interface is decided by the interface's own
    configuration, not by the one it is given; and it is never refused nor
    counted by the connection limiter. *)
Theorem ssh_accept_ignores_config i limiter c a l :
  ssh_accept i limiter c = Ok (a, l) →
  sa_cell a = si_dynamic i ∧ l = limiter ∧ sh_connection_allowed (sa_handler a) = true
  ∧ sh_transport (sa_handler a) = Tcp ∧ ∀ limiter', ssh_drop (sa_handler a) limiter' = limiter'.
Proof. destruct c as [c|c]; [|done]. by intros [= <- <-]. Qed.
End Properties.

(** The bridge of a [ControlChannelBridge] delivers and writes nothing. *)
Theorem control_bridge_silent `{C : EnvelopeCodec} {IoError : Type} (identity : option Identity)
    (stream : list (result (list byte) IoError)) (b : Bridge (IoError := IoError)) :
  rtc (bridge_step identity) (control_bridge stream) b → bg_events b = [] ∧ wr_sink (bg_writer b) = [].
Proof.
  intros Hr. assert (bg_events b = [] ∧ wr_sink (bg_writer b) = [] ∧ bg_inbox b = [] ∧ bg_session b = false) as (? & ? & _);
    [|done].
  eapply rtc_ind_r with (P := λ b, bg_events b = [] ∧ wr_sink (bg_writer b) = [] ∧ bg_inbox b = [] ∧ bg_session b = false);
    [|  |exact Hr]; [done|].
  intros b1 b2 _ Hs (He & Hw & Hi & Hl). destruct Hs; simpl; try congruence; by rewrite ?He, ?Hw, ?Hi, ?Hl.
Qed.
