(* ===== verification/KeyCache.v ===== *)
(** * The derived-key cache (alknet-secret/src/cache.rs)

    A map from derivation paths to keys with a list of the paths in access
    order.  An [Instant] is a [Z] (nanoseconds); each operation takes the
    instant at which it runs, every [Instant::now()] inside one call being that
    instant.  [Lru] specifies the cache as one list of pairs, least recently
    used first, and the refinement theorem relates the two. *)
From S2P Require Import Prelude RustStd.
From stdpp Require Import sorting.
From Stdlib Require Import Strings.Byte.
Open Scope Z_scope.

(** ** Data *)
Inductive KeyType := Ed25519 | Aes256Gcm | Secp256k1.
#[export] Instance KeyType_eq_dec : EqDecision KeyType.
Proof. solve_decision. Defined.

Record CachedKey := mkCachedKey {
  derived_at : Z;
  ck_key_type : KeyType;
  ck_private_key : list byte;
  ck_public_key : list byte;
  last_accessed : Z;
}.

Definition CachedKey_new (now : Z) (kt : KeyType) (priv pub : list byte) : CachedKey :=
  mkCachedKey now kt priv pub now.

(** [Instant::duration_since] saturates at zero. *)
Definition is_expired (now : Z) (k : CachedKey) (ttl : Z) : bool :=
  ttl <? Z.max 0 (now - derived_at k).

Definition touch (now : Z) (k : CachedKey) : CachedKey :=
  mkCachedKey (derived_at k) (ck_key_type k) (ck_private_key k) (ck_public_key k) now.

Record CacheConfig := mkCacheConfig { ttl : Z; max_entries : nat }.

Definition DEFAULT_TTL : Z := 3600 * 1000000000.
Definition DEFAULT_MAX_ENTRIES : nat := 64.
Definition CacheConfig_default : CacheConfig := mkCacheConfig DEFAULT_TTL DEFAULT_MAX_ENTRIES.

Record KeyCache := mkKeyCache {
  entries : gmap string CachedKey;
  order : list string;
  config : CacheConfig;
}.

(** ** Operations *)
Definition KeyCache_new (cfg : CacheConfig) : KeyCache := mkKeyCache ∅ [] cfg.
Definition KeyCache_with_defaults : KeyCache := KeyCache_new CacheConfig_default.

(** [Vec::retain(|p| p != path)]. *)
Definition retain_ne (path : string) (l : list string) : list string :=
  filter (λ p, p ≠ path) l.

Definition remove_entry (c : KeyCache) (path : string) : KeyCache :=
  mkKeyCache (delete path (entries c)) (retain_ne path (order c)) (config c).

Definition evict_lru (c : KeyCache) : KeyCache :=
  match order c with
  | lru_path :: _ => remove_entry c lru_path
  | [] => c
  end.

Definition move_to_back (c : KeyCache) (path : string) : KeyCache :=
  mkKeyCache (entries c) (retain_ne path (order c) ++ [path]) (config c).

Definition cache_get (now : Z) (c : KeyCache) (path : string) : KeyCache * option CachedKey :=
  match entries c !! path with
  | Some entry =>
      if is_expired now entry (ttl (config c)) then (remove_entry c path, None)
      else
        let c := mkKeyCache (<[path := touch now entry]> (entries c)) (order c) (config c) in
        let c := move_to_back c path in
        (c, entries c !! path)
  | None => (c, None)
  end.

Definition cache_insert (c : KeyCache) (path : string) (key : CachedKey) : KeyCache :=
  let c :=
    if decide (is_Some (entries c !! path)) then remove_entry c path
    else if (max_entries (config c) <=? size (entries c))%nat then evict_lru c
    else c in
  mkKeyCache (<[path := key]> (entries c)) (order c ++ [path]) (config c).

Definition evict_expired (now : Z) (c : KeyCache) : KeyCache :=
  let expired :=
    (filter (λ kv, is_expired now kv.2 (ttl (config c)) = true) (map_to_list (entries c))).*1 in
  foldl remove_entry c expired.

Definition cache_clear (c : KeyCache) : KeyCache := mkKeyCache ∅ [] (config c).

Definition cache_len (c : KeyCache) : nat := size (entries c).
Definition cache_is_empty (c : KeyCache) : bool := (cache_len c =? 0)%nat.

(** Calls on a cache, with the instant each one runs at. *)
Inductive cache_op :=
| OpGet (now : Z) (path : string)
| OpInsert (path : string) (key : CachedKey)
| OpEvictExpired (now : Z)
| OpClear.

Definition cache_step (c : KeyCache) (op : cache_op) : KeyCache * option CachedKey :=
  match op with
  | OpGet now path => cache_get now c path
  | OpInsert path key => (cache_insert c path key, None)
  | OpEvictExpired now => (evict_expired now c, None)
  | OpClear => (cache_clear c, None)
  end.

(** ** The specification: one list, least recently used first *)
Module Lru.
Notation lru := (list (string * CachedKey)).

Fixpoint find (p : string) (l : lru) : option CachedKey :=
  match l with
  | [] => None
  | (q, k) :: l' => if decide (q = p) then Some k else find p l'
  end.

Definition without (p : string) (l : lru) : lru := filter (λ kv, kv.1 ≠ p) l.

Definition step (cfg : CacheConfig) (l : lru) (op : cache_op) : lru * option CachedKey :=
  match op with
  | OpGet now p =>
      match find p l with
      | None => (l, None)
      | Some k =>
          if is_expired now k (ttl cfg) then (without p l, None)
          else (without p l ++ [(p, touch now k)], Some (touch now k))
      end
  | OpInsert p k =>
      match find p l with
      | Some _ => (without p l ++ [(p, k)], None)
      | None => ((if (max_entries cfg <=? length l)%nat then tail l else l) ++ [(p, k)], None)
      end
  | OpEvictExpired now => (filter (λ kv, is_expired now kv.2 (ttl cfg) = false) l, None)
  | OpClear => ([], None)
  end.
End Lru.

(** The abstraction: the entries in access order. *)
Fixpoint entries_in (m : gmap string CachedKey) (o : list string) : Lru.lru :=
  match o with
  | [] => []
  | p :: o' =>
      match m !! p with
      | Some k => (p, k) :: entries_in m o'
      | None => entries_in m o'
      end
  end.
Definition cache_abs (c : KeyCache) : Lru.lru := entries_in (entries c) (order c).

(** The representation invariant: the order lists each cached path once, and
    the cache is no larger than configured (a configured bound of zero still
    lets one entry in, as [insert] evicts before it adds). *)
Record cache_wf (c : KeyCache) : Prop := {
  wf_nodup : NoDup (order c);
  wf_order : ∀ p, p ∈ order c ↔ is_Some (entries c !! p);
  wf_size : (size (entries c) ≤ Nat.max 1 (max_entries (config c)))%nat;
}.

(** ** Lemmas on the representation *)
Lemma entries_in_ext m1 m2 o :
  (∀ p, p ∈ o → m1 !! p = m2 !! p) → entries_in m1 o = entries_in m2 o.
Proof.
  induction o as [|p o IH]; intros Heq; simpl; [done|].
  rewrite (Heq p) by set_solver. by rewrite IH by set_solver.
Qed.

Lemma entries_in_delete m p o :
  entries_in (delete p m) (retain_ne p o) = Lru.without p (entries_in m o).
Proof.
  unfold retain_ne, Lru.without.
  induction o as [|q o IH]; [done|].
  destruct (decide (q = p)) as [->|Hne].
  - rewrite filter_cons_False by naive_solver. rewrite IH. simpl.
    destruct (m !! p); [|done]. by rewrite filter_cons_False by naive_solver.
  - rewrite filter_cons_True by done. simpl. rewrite lookup_delete_ne by done. rewrite IH.
    destruct (m !! q); [|done]. by rewrite filter_cons_True.
Qed.

Lemma entries_in_app m o1 o2 :
  entries_in m (o1 ++ o2) = entries_in m o1 ++ entries_in m o2.
Proof. induction o1 as [|p o1 IH]; simpl; [done|]. rewrite IH. by destruct (m !! p). Qed.

Lemma retain_ne_notin p o : p ∉ retain_ne p o.
Proof. unfold retain_ne. rewrite list_elem_of_filter. naive_solver. Qed.

Lemma retain_ne_id p o : p ∉ o → retain_ne p o = o.
Proof.
  unfold retain_ne. induction o as [|q o IH]; intros Hni; [done|].
  rewrite filter_cons_True by set_solver. by rewrite IH by set_solver.
Qed.

Lemma retain_ne_insert m p k o :
  p ∉ o → entries_in (<[p:=k]> m) o = entries_in m o.
Proof. intros Hni. apply entries_in_ext. intros q Hq. by rewrite lookup_insert_ne by set_solver. Qed.

Lemma entries_in_find c p :
  cache_wf c → Lru.find p (cache_abs c) = entries c !! p.
Proof.
  intros [_ Hord _]. unfold cache_abs.
  assert (p ∈ order c ∨ entries c !! p = None) as Hp.
  { destruct (entries c !! p) eqn:He; [left; apply Hord; eauto|by right]. }
  clear Hord. revert Hp. generalize (order c) as o, (entries c) as m.
  induction o as [|q o IH]; intros m Hp; simpl.
  { destruct Hp as [Hp| ->]; [set_solver|done]. }
  destruct (decide (q = p)) as [->|Hne].
  - destruct (m !! p) as [k|] eqn:He; simpl.
    + by rewrite decide_True.
    + rewrite IH by (by right). done.
  - destruct (m !! q) as [k|]; simpl; [rewrite decide_False by done|];
      apply IH; set_solver.
Qed.

Lemma cache_abs_length c : cache_wf c → length (cache_abs c) = size (entries c).
Proof.
  intros [Hnd Hord _].
  assert (dom (entries c) = list_to_set (order c)) as Hdom.
  { apply set_eq. intros p. rewrite elem_of_dom, elem_of_list_to_set. by rewrite Hord. }
  rewrite <-size_dom, Hdom, size_list_to_set by done.
  unfold cache_abs. assert (∀ p, p ∈ order c → is_Some (entries c !! p)) as Hin by (by intros; apply Hord).
  clear Hnd Hord Hdom. revert Hin. generalize (order c) as o.
  induction o as [|p o IH]; intros Hin; simpl; [done|].
  destruct (Hin p) as [k ->]; [set_solver|]. simpl. by rewrite IH by set_solver.
Qed.

(** ** The operations preserve the invariant *)
Lemma new_wf cfg : cache_wf (KeyCache_new cfg).
Proof.
  split; simpl; [constructor| |rewrite map_size_empty; lia].
  intros p. rewrite lookup_empty, is_Some_alt. set_solver.
Qed.

Lemma size_delete_le (m : gmap string CachedKey) p : (size (delete p m) ≤ size m)%nat.
Proof. rewrite map_size_delete. destruct (m !! p); unfold id; lia. Qed.

Lemma remove_entry_wf c p : cache_wf c → cache_wf (remove_entry c p).
Proof.
  intros [Hnd Hord Hsz]. split; simpl.
  - by apply NoDup_filter.
  - intros q. unfold retain_ne. rewrite list_elem_of_filter, Hord, lookup_delete_is_Some.
    naive_solver.
  - pose proof (size_delete_le (entries c) p). lia.
Qed.

(** Adding a path that is absent, with room left. *)
Lemma push_wf c p k :
  cache_wf c → entries c !! p = None →
  (size (entries c) < Nat.max 1 (max_entries (config c)))%nat →
  cache_wf (mkKeyCache (<[p:=k]> (entries c)) (order c ++ [p]) (config c)).
Proof.
  intros [Hnd Hord Hsz] Hp Hroom. split; simpl.
  - apply NoDup_app. split_and!; [done| |apply NoDup_singleton].
    intros q Hq ->%list_elem_of_singleton. apply Hord in Hq as [? ?]. congruence.
  - intros q. rewrite elem_of_app, list_elem_of_singleton, Hord, lookup_insert_is_Some'. naive_solver.
  - rewrite map_size_insert_None by done. lia.
Qed.

Lemma evict_lru_spec c :
  cache_wf c →
  cache_wf (evict_lru c) ∧ cache_abs (evict_lru c) = tail (cache_abs c)
  ∧ config (evict_lru c) = config c
  ∧ (entries c = ∅ ∨ S (size (entries (evict_lru c))) = size (entries c))
  ∧ ∀ p, entries c !! p = None → entries (evict_lru c) !! p = None.
Proof.
  intros Hwf. pose proof Hwf as [Hnd Hord Hsz]. unfold evict_lru.
  destruct (order c) as [|p o] eqn:Ho.
  - split_and!; try done.
    + unfold cache_abs. by rewrite Ho.
    + left. apply map_empty. intros q. apply eq_None_not_Some. rewrite <-Hord. set_solver.
  - apply NoDup_cons in Hnd as [Hp Hnd].
    destruct (proj1 (Hord p)) as [k Hk]; [set_solver|].
    split_and!; [by apply remove_entry_wf| |done| |].
    + unfold cache_abs, remove_entry. simpl. rewrite Ho. simpl.
      rewrite Hk. simpl. unfold retain_ne. rewrite filter_cons_False by naive_solver.
      fold (retain_ne p o). rewrite retain_ne_id by done.
      apply entries_in_ext. intros q Hq. by rewrite lookup_delete_ne by set_solver.
    + right. simpl. rewrite map_size_delete_Some by eauto.
      assert (size (entries c) ≠ 0%nat) by (apply (map_size_ne_0_lookup_2 _ p); eauto). lia.
    + intros q Hq. simpl. apply lookup_delete_None. by right.
Qed.

Lemma push_abs c p k :
  p ∉ order c →
  cache_abs (mkKeyCache (<[p:=k]> (entries c)) (order c ++ [p]) (config c))
  = cache_abs c ++ [(p, k)].
Proof.
  intros Hp. unfold cache_abs. simpl. rewrite entries_in_app, retain_ne_insert by done.
  simpl. by rewrite lookup_insert_eq.
Qed.

Lemma absent_order c p : cache_wf c → entries c !! p = None → p ∉ order c.
Proof. intros Hwf Hp. rewrite (wf_order c Hwf). by apply eq_None_not_Some. Qed.

Lemma remove_entry_abs c p : cache_abs (remove_entry c p) = Lru.without p (cache_abs c).
Proof. apply entries_in_delete. Qed.

(** Removing a cached path and pushing it again at the back. *)
Lemma renew_spec c p k k' :
  cache_wf c → entries c !! p = Some k →
  let c' := mkKeyCache (<[p:=k']> (entries c)) (retain_ne p (order c) ++ [p]) (config c) in
  cache_wf c' ∧ cache_abs c' = Lru.without p (cache_abs c) ++ [(p, k')].
Proof.
  intros Hwf Hk c'.
  assert (c' = mkKeyCache (<[p:=k']> (entries (remove_entry c p)))
                 (order (remove_entry c p) ++ [p]) (config (remove_entry c p))) as ->.
  { unfold c'. simpl. by rewrite insert_delete_eq. }
  rewrite push_abs by apply retain_ne_notin. rewrite remove_entry_abs. split; [|done].
  apply push_wf; [by apply remove_entry_wf|apply lookup_delete_eq|].
  simpl. rewrite map_size_delete_Some by eauto. pose proof (wf_size c Hwf).
  assert (size (entries c) ≠ 0%nat) by (apply (map_size_ne_0_lookup_2 _ p); eauto). lia.
Qed.

Lemma elem_of_cache_abs c p k :
  (p, k) ∈ cache_abs c → entries c !! p = Some k.
Proof.
  unfold cache_abs. generalize (order c) as o.
  induction o as [|q o IH]; simpl; [set_solver|].
  destruct (entries c !! q) eqn:Hq; [|done]. rewrite elem_of_cons. naive_solver.
Qed.

Lemma remove_entries_spec ps c :
  cache_wf c →
  cache_wf (foldl remove_entry c ps)
  ∧ config (foldl remove_entry c ps) = config c
  ∧ cache_abs (foldl remove_entry c ps) = filter (λ kv, kv.1 ∉ ps) (cache_abs c).
Proof.
  revert c. induction ps as [|p ps IH]; intros c Hwf; simpl.
  - split_and!; [done..|]. rewrite filter_all; [done|]. intros. set_solver.
  - destruct (IH (remove_entry c p)) as (Hw & Hc & Ha); [by apply remove_entry_wf|].
    split_and!; [done|done|]. rewrite Ha, remove_entry_abs. unfold Lru.without.
    rewrite list_filter_filter. apply list_filter_iff. intros kv. set_solver.
Qed.

(** ** One step of the cache is one step of the specification *)
Lemma cache_step_refines c op :
  cache_wf c →
  cache_wf (cache_step c op).1
  ∧ config (cache_step c op).1 = config c
  ∧ Lru.step (config c) (cache_abs c) op = (cache_abs (cache_step c op).1, (cache_step c op).2).
Proof.
  intros Hwf. destruct op as [now p|p k|now|]; simpl.
  - unfold cache_get. rewrite entries_in_find by done.
    destruct (entries c !! p) as [k|] eqn:Hk; [|done].
    destruct (is_expired now k (ttl (config c))); simpl.
    + split_and!; [by apply remove_entry_wf|done|by rewrite remove_entry_abs].
    + rewrite lookup_insert_eq.
      destruct (renew_spec c p k (touch now k)) as [Hw Ha]; [done..|].
      split_and!; [done|done|]. by rewrite <-Ha.
  - unfold cache_insert. rewrite entries_in_find by done.
    destruct (entries c !! p) as [k'|] eqn:Hk.
    + rewrite decide_True by eauto.
      destruct (renew_spec c p k' k) as [Hw Ha]; [done..|].
      simpl. rewrite insert_delete_eq. split_and!; [done|done|]. by rewrite <-Ha.
    + rewrite decide_False by (by apply eq_None_not_Some).
      rewrite cache_abs_length by done.
      destruct (Nat.leb_spec (max_entries (config c)) (size (entries c))).
      * destruct (evict_lru_spec c Hwf) as (Hw & Ha & Hcfg & Hsz & Hno).
        specialize (Hno p Hk). rewrite Hcfg.
        rewrite <-Hcfg, push_abs, Ha by (by apply absent_order).
        split_and!; [|done|done]. apply push_wf; [done|done|].
        destruct Hsz as [He|Hsz]; [|pose proof (wf_size c Hwf); rewrite Hcfg; lia].
        assert (entries (evict_lru c) = ∅) as ->; [|rewrite map_size_empty; lia].
        unfold evict_lru. destruct (order c); simpl; rewrite He; [done|apply delete_empty].
      * rewrite push_abs by (by apply absent_order).
        split_and!; [|done|done]. apply push_wf; [done|done|lia].
  - unfold evict_expired. set (ps := _.*1).
    destruct (remove_entries_spec ps c) as (Hw & Hc & ->); [done|].
    split_and!; [done..|]. f_equal. apply filter_agree.
    intros [p k] Hin%elem_of_cache_abs. unfold ps. simpl.
    rewrite list_elem_of_fmap. setoid_rewrite list_elem_of_filter.
    setoid_rewrite elem_of_map_to_list'. simpl.
    rewrite <-not_true_iff_false. apply not_iff_compat. split.
    + intros He. by exists (p, k).
    + intros ([q k'] & -> & He & Hq). simpl in *. by simplify_eq.
  - split_and!; [|done|done]. apply (new_wf (config c)).
Qed.

(** What a call leaves in the map. *)
Lemma cache_get_entries t c p q k :
  entries (cache_get t c p).1 !! q = Some k →
  ∃ k0, entries c !! q = Some k0 ∧ (k = k0 ∨ k = touch t k0).
Proof.
  unfold cache_get. destruct (entries c !! p) as [kp|] eqn:Hp; [|simpl; eauto].
  destruct (is_expired t kp (ttl (config c))); simpl.
  - intros [_ Hq]%lookup_delete_Some. eauto.
  - destruct (decide (p = q)) as [<-|Hne].
    + rewrite lookup_insert_eq. intros [= <-]. eauto.
    + rewrite lookup_insert_ne by done. eauto.
Qed.

Lemma cache_get_hit t c p k :
  (cache_get t c p).2 = Some k →
  ∃ k0, entries c !! p = Some k0 ∧ is_expired t k0 (ttl (config c)) = false ∧ k = touch t k0.
Proof.
  unfold cache_get. destruct (entries c !! p) as [kp|] eqn:Hp; [|done].
  destruct (is_expired t kp (ttl (config c))) eqn:He; simpl; [done|].
  rewrite lookup_insert_eq. intros [= <-]. eauto.
Qed.

Lemma cache_insert_entries c p k q k' :
  entries (cache_insert c p k) !! q = Some k' →
  (q = p ∧ k' = k) ∨ entries c !! q = Some k'.
Proof.
  unfold cache_insert, evict_lru. simpl.
  intros [[-> ->]|[Hne Hq]]%lookup_insert_Some; [by left|right].
  repeat case_match; simpl in *; try (by apply lookup_delete_Some in Hq as [_ Hq]); done.
Qed.

Lemma cache_get_wf t c p : cache_wf c → cache_wf (cache_get t c p).1.
Proof. intros Hwf. apply (cache_step_refines c (OpGet t p) Hwf). Qed.

Lemma cache_insert_wf c p k : cache_wf c → cache_wf (cache_insert c p k).
Proof. intros Hwf. apply (cache_step_refines c (OpInsert p k) Hwf). Qed.

Lemma cache_clear_wf c : cache_wf (cache_clear c).
Proof. apply (new_wf (config c)). Qed.

#[export] Hint Resolve new_wf cache_get_wf cache_insert_wf cache_clear_wf : alk.

Lemma cache_run_refines ops c :
  cache_wf c →
  let '(c', outs) := run_steps cache_step c ops in
  cache_wf c' ∧ config c' = config c
  ∧ run_steps (Lru.step (config c)) (cache_abs c) ops = (cache_abs c', outs).
Proof.
  revert c. induction ops as [|op ops IH]; intros c Hwf; simpl; [done|].
  destruct (cache_step_refines c op Hwf) as (Hw & Hc & Hs).
  destruct (cache_step c op) as [c1 o]; simpl in *. rewrite Hs.
  specialize (IH c1 Hw). rewrite Hc in IH.
  destruct (run_steps cache_step c1 ops) as [c2 outs].
  destruct IH as (Hw2 & Hc2 & ->). done.
Qed.

(** ** Access order: with a clock that never runs backwards, the list is sorted
    by last access *)
Definition op_time (op : cache_op) : option Z :=
  match op with
  | OpGet now _ | OpEvictExpired now => Some now
  | OpInsert _ k => Some (last_accessed k)
  | OpClear => None
  end.

(** The operations run at non-decreasing instants from [t] on. *)
Fixpoint timed (t : Z) (ops : list cache_op) : Prop :=
  match ops with
  | [] => True
  | op :: ops' => t ≤ default t (op_time op) ∧ timed (default t (op_time op)) ops'
  end.

Definition older (kv1 kv2 : string * CachedKey) : Prop :=
  last_accessed kv1.2 ≤ last_accessed kv2.2.

Definition lru_sorted (t : Z) (l : Lru.lru) : Prop :=
  StronglySorted older l ∧ Forall (λ kv, last_accessed kv.2 ≤ t) l.

Lemma lru_sorted_mono t t' l : t ≤ t' → lru_sorted t l → lru_sorted t' l.
Proof. intros Ht [Hs Hf]. split; [done|]. eapply Forall_impl; [done|]. simpl. lia. Qed.

Lemma lru_sorted_filter P `{∀ kv, Decision (P kv)} t (l : Lru.lru) :
  lru_sorted t l → lru_sorted t (filter P l).
Proof.
  intros [Hs Hf]. split.
  - induction Hs as [|kv l Hs IH Hall]; [constructor|]. apply Forall_cons in Hf as [_ Hf].
    rewrite filter_cons. case_decide; [|auto]. constructor; [auto|].
    apply Forall_forall. intros x [_ Hx]%list_elem_of_filter.
    rewrite Forall_forall in Hall. auto.
  - apply Forall_forall. intros x [_ Hx]%list_elem_of_filter.
    rewrite Forall_forall in Hf. auto.
Qed.

Lemma lru_sorted_tail t (l : Lru.lru) : lru_sorted t l → lru_sorted t (tail l).
Proof.
  intros [Hs Hf]. destruct l as [|kv l]; [by split|].
  apply StronglySorted_inv in Hs as [Hs _]. apply Forall_cons in Hf as [_ Hf]. by split.
Qed.

Lemma lru_sorted_push t t' (l : Lru.lru) p k :
  t ≤ t' → last_accessed k = t' → lru_sorted t l → lru_sorted t' (l ++ [(p, k)]).
Proof.
  intros Ht Hk [Hs Hf]. rewrite Forall_forall in Hf. split.
  - apply StronglySorted_app_2; [|done|repeat constructor].
    intros kv1 kv2 Hin ->%list_elem_of_singleton. unfold older. simpl.
    specialize (Hf _ Hin). lia.
  - apply Forall_app. split; [|repeat constructor; simpl; lia].
    apply Forall_forall. intros kv Hin. specialize (Hf _ Hin). lia.
Qed.

Lemma lru_step_sorted cfg t l op :
  t ≤ default t (op_time op) → lru_sorted t l →
  lru_sorted (default t (op_time op)) (Lru.step cfg l op).1.
Proof.
  intros Ht Hs. destruct op as [now p|p k|now|]; simpl in *.
  - destruct (Lru.find p l) as [k|]; simpl; [|by eapply lru_sorted_mono].
    case_match; simpl.
    + apply lru_sorted_filter. by eapply lru_sorted_mono.
    + eapply lru_sorted_push; [exact Ht|done|by apply lru_sorted_filter].
  - destruct (Lru.find p l) as [k'|]; simpl.
    + eapply lru_sorted_push; [exact Ht|done|by apply lru_sorted_filter].
    + eapply lru_sorted_push; [exact Ht|done|]. case_match; [by apply lru_sorted_tail|done].
  - apply lru_sorted_filter. by eapply lru_sorted_mono.
  - split; constructor.
Qed.

Lemma lru_run_sorted cfg ops t l :
  timed t ops → lru_sorted t l → ∃ t', lru_sorted t' (run_steps (Lru.step cfg) l ops).1.
Proof.
  revert t l. induction ops as [|op ops IH]; intros t l Htm Hs; simpl; [by exists t|].
  destruct Htm as [Ht Htm]. pose proof (lru_step_sorted cfg t l op Ht Hs) as Hs1.
  destruct (Lru.step cfg l op) as [l1 o]; simpl in *.
  destruct (IH _ _ Htm Hs1) as [t' Hs']. destruct (run_steps (Lru.step cfg) l1 ops). eauto.
Qed.

Lemma find_app_None p (l1 l2 : Lru.lru) :
  Lru.find p (l1 ++ l2) = None → Lru.find p l1 = None.
Proof. induction l1 as [|[q k] l1 IH]; simpl; [done|]. case_decide; auto. Qed.

Lemma find_Some_elem p k (l : Lru.lru) : Lru.find p l = Some k → (p, k) ∈ l.
Proof. induction l as [|[q k'] l IH]; simpl; [done|]. case_decide; set_solver. Qed.

(** The path that an eviction drops is the head, which is the oldest. *)
Lemma find_head_oldest q0 k0 l (b : bool) p k q kq r kr :
  StronglySorted older ((q0, k0) :: l) →
  Lru.find q ((q0, k0) :: l) = Some kq →
  Lru.find q ((if b then tail ((q0, k0) :: l) else (q0, k0) :: l) ++ [(p, k)]) = None →
  Lru.find r ((q0, k0) :: l) = Some kr → last_accessed kq ≤ last_accessed kr.
Proof.
  intros [Hs Hall]%StronglySorted_inv Hq Hgone%find_app_None Hr.
  destruct b; [|congruence]. simpl in *.
  destruct (decide (q0 = q)); [simplify_eq|congruence].
  destruct (decide (q = r)); [by simplify_eq|].
  apply find_Some_elem in Hr. rewrite Forall_forall in Hall. exact (Hall _ Hr).
Qed.

(** ** Properties *)

(** C17: A run of any calls on a fresh cache answers exactly as the one-list LRU
    specification does, its entries in access order are the specification's
    list, and it never holds more than [max 1 max_entries] entries. *)
Theorem key_cache_refines cfg ops :
  let '(c, outs) := run_steps cache_step (KeyCache_new cfg) ops in
  run_steps (Lru.step cfg) [] ops = (cache_abs c, outs)
  ∧ (cache_len c ≤ Nat.max 1 (max_entries cfg))%nat.
Proof.
  pose proof (cache_run_refines ops (KeyCache_new cfg) (new_wf cfg)) as Hr.
  destruct (run_steps cache_step (KeyCache_new cfg) ops) as [c outs].
  destruct Hr as (Hw & Hc & Hr). split; [done|].
  unfold cache_len. pose proof (wf_size c Hw) as Hsz. by rewrite Hc in Hsz.
Qed.

(** When inserting a new path makes another path disappear, that path was
    the least recently used one: no cached key was last accessed before it. *)
Theorem insert_evicts_lru cfg t ops p k q kq r kr :
  let c := (run_steps cache_step (KeyCache_new cfg) ops).1 in
  timed t ops →
  entries c !! p = None → q ≠ p → entries c !! q = Some kq →
  entries (cache_insert c p k) !! q = None →
  entries c !! r = Some kr → last_accessed kq ≤ last_accessed kr.
Proof.
  intros c Htm Hp Hqp Hq Hgone Hr. unfold c in *.
  pose proof (cache_run_refines ops (KeyCache_new cfg) (new_wf cfg)) as Href.
  destruct (lru_run_sorted cfg ops t [] Htm) as [t' Hs]; [split; constructor|].
  destruct (run_steps cache_step (KeyCache_new cfg) ops) as [c' outs].
  destruct Href as (Hw & Hc & Href). change (cache_abs (KeyCache_new cfg)) with (@nil (string * CachedKey)) in Href.
  cbn [fst config KeyCache_new] in *. rewrite Href in Hs. cbn [fst] in Hs.
  destruct (cache_step_refines c' (OpInsert p k) Hw) as (Hw' & _ & Hstep).
  cbn [cache_step fst snd] in Hw', Hstep.
  rewrite <-(entries_in_find c' r) in Hr by done.
  rewrite <-(entries_in_find c' q) in Hq by done.
  rewrite <-(entries_in_find c' p) in Hp by done.
  rewrite <-(entries_in_find _ q) in Hgone by done.
  cbn [Lru.step] in Hstep. rewrite Hp in Hstep. apply (inj2 pair) in Hstep as [Hstep _]. rewrite <-Hstep in Hgone.
  destruct (cache_abs c') as [|[q0 k0] l]; [done|]. destruct Hs as [Hs _].
  by eapply find_head_oldest.
Qed.

(** ** Examples *)
Module KeyCacheExample.
Definition key (t : Z) : CachedKey := CachedKey_new t Ed25519 [x01] [x02].

(** Two entries of capacity, the first one read again, then a third path. *)
Definition ops : list cache_op :=
  [OpInsert "a" (key 1); OpInsert "b" (key 2); OpGet 3 "a"].

Lemma insert_evicts_lru_witness :
  last_accessed (key 2) ≤ last_accessed (touch 3 (key 1)).
Proof.
  apply (insert_evicts_lru (mkCacheConfig 10 2) 0 ops "c" (key 4)
           "b" (key 2) "a" (touch 3 (key 1))).
  - simpl. lia.
  - vm_compute. reflexivity.
  - discriminate.
  - vm_compute. reflexivity.
  - vm_compute. reflexivity.
  - vm_compute. reflexivity.
Defined.
End KeyCacheExample.
