(* ===== verification/Derivation.v ===== *)
(** * HD key derivation (alknet-secret/src/derivation.rs and ethereum.rs)

    The path parser is modelled in full, with the [u32] addition of the
    hardened offset at its width.  HMAC-SHA512, [ed25519_bip32] and [secp256k1]
    are interfaces: [HmacSha512], [Ed25519Bip32] and [Secp256k1Lib]. *)
From S2P Require Import Prelude RustStd.
From Stdlib Require Import Ascii Strings.Byte.
Open Scope Z_scope.

(** ** Paths *)
Module PATHS.
Definition IDENTITY : string := "m/74'/0'/0'/0'".
Definition DEVICE_PREFIX : string := "m/74'/0'/0'".
Definition SSH_HOST : string := "m/74'/0'/1'/0'".
Definition ENCRYPTION : string := "m/74'/2'/0'/0'".
Definition ETHEREUM : string := "m/44'/60'/0'/0/0".
End PATHS.

Definition device_path (index : Z) : string := "m/74'/0'/0'/" +:+ show_uint index +:+ "'".
Definition site_password_path (site_hash : string) : string :=
  "m/74'/1'/0'/" +:+ site_hash +:+ "'".

Inductive DerivationError :=
| InvalidPath (msg : string)
| HmacError (msg : string)
| KeyDerivation (msg : string)
| Locked
| Secp256k1Error (msg : string)
| UnsupportedKeyType.

Definition HARDENED_OFFSET : Z := 2 ^ 31.

(** The body of the [for part in parts] loop. *)
Definition parse_part (overflow_checks : bool) (part : string)
    : outcome (result Z DerivationError) :=
  let hardened := ends_with "'" part || ends_with "h" part in
  let index_str := trim_end_matches "h" (trim_end_matches "'" part) in
  match parse_uint u32_max index_str with
  | None => Ret (Err (InvalidPath ("invalid index: " +:+ part)))
  | Some index =>
      if hardened then
        let! i := u32_add overflow_checks index HARDENED_OFFSET in Ret (Ok i)
      else Ret (Ok index)
  end.

Fixpoint parse_parts (overflow_checks : bool) (parts : list string)
    : outcome (result (list Z) DerivationError) :=
  match parts with
  | [] => Ret (Ok [])
  | part :: parts' =>
      let! r := parse_part overflow_checks part in
      match r with
      | Err e => Ret (Err e)
      | Ok i =>
          let! rs := parse_parts overflow_checks parts' in
          Ret (match rs with Ok is_ => Ok (i :: is_) | Err e => Err e end)
      end
  end.

Definition parse_derivation_path (overflow_checks : bool) (path : string)
    : outcome (result (list Z) DerivationError) :=
  if negb (starts_with "m" path) then Ret (Err (InvalidPath "path must start with 'm'"))
  else
    let parts := drop 1 (split_char "/" path) in
    parse_parts overflow_checks parts.

(** ** SLIP-0010 Ed25519 *)
Class HmacSha512 := {
  (** [HmacSha512::new_from_slice(key)?.update(msg).finalize()]. *)
  hmac_sha512 : list byte → list byte → result (list byte) string;
}.

Class Ed25519Bip32 := {
  XPrv : Type;
  from_nonextended_force : list byte → list byte → XPrv;
  xprv_derive : XPrv → Z → XPrv;
  extended_secret_key_bytes : XPrv → list byte;
  xprv_public : XPrv → list byte;
  xprv_chain_code : XPrv → list byte;
}.

(** [extended_secret_key_bytes] returns a [[u8; 64]]. *)
Class Ed25519Bip32Laws (E : Ed25519Bip32) : Prop := {
  extended_secret_key_length : ∀ x, length (extended_secret_key_bytes x) = 64%nat;
}.

Record ExtendedPrivKey := mkExtendedPrivKey {
  xk_private_key : list byte;
  xk_public_key : list byte;
  xk_chain_code : list byte;
  xk_path : string;
}.

Section Slip10.
Context `{HmacSha512, Ed25519Bip32}.

Definition derive_master_key (seed : list byte) : result XPrv DerivationError :=
  let? result := map_err HmacError (hmac_sha512 (bytes_of "ed25519 seed") seed) in
  let private_key_bytes := take 32 result in
  let chain_code_bytes := drop 32 result in
  Ok (from_nonextended_force private_key_bytes chain_code_bytes).

Definition derive_path_from_seed (overflow_checks : bool) (seed : list byte) (path : string)
    : outcome (result ExtendedPrivKey DerivationError) :=
  let! indices := parse_derivation_path overflow_checks path in
  Ret (
    let? indices := indices in
    let? xprv := derive_master_key seed in
    let current := foldl xprv_derive xprv indices in
    Ok (mkExtendedPrivKey (take 32 (extended_secret_key_bytes current))
          (take 32 (xprv_public current)) (xprv_chain_code current) path)).
End Slip10.

(** ** BIP-0032 secp256k1 (ethereum.rs) *)
Class Secp256k1Lib := {
  SecretKey : Type;
  secret_from_slice : list byte → result SecretKey string;
  secret_bytes : SecretKey → list byte;
  (** [PublicKey::from_secret_key(..).serialize()]. *)
  public_serialize : SecretKey → list byte;
  add_tweak : SecretKey → SecretKey → result SecretKey string;
}.

Record Secp256k1ExtendedPrivKey := mkSecp256k1Key {
  sk_private_key : list byte;
  sk_public_key : list byte;
  sk_chain_code : list byte;
}.

Section Bip32.
Context `{HmacSha512, Secp256k1Lib}.

Definition derive_secp256k1_master_key (seed : list byte)
    : result Secp256k1ExtendedPrivKey DerivationError :=
  let? result := map_err HmacError (hmac_sha512 (bytes_of "Bitcoin seed") seed) in
  let private_key_bytes := take 32 result in
  let chain_code_bytes := drop 32 result in
  let? secret_key := map_err Secp256k1Error (secret_from_slice private_key_bytes) in
  Ok (mkSecp256k1Key (secret_bytes secret_key) (public_serialize secret_key) chain_code_bytes).

Definition derive_child (parent : Secp256k1ExtendedPrivKey) (index : Z)
    : result Secp256k1ExtendedPrivKey DerivationError :=
  let data :=
    (if HARDENED_OFFSET <=? index then x00 :: sk_private_key parent else sk_public_key parent)
    ++ u32_to_be_bytes index in
  let? result := map_err HmacError (hmac_sha512 (sk_chain_code parent) data) in
  let child_key_bytes := take 32 result in
  let child_chain_code := drop 32 result in
  let? parent_secret := map_err Secp256k1Error (secret_from_slice (sk_private_key parent)) in
  let? child_key_raw := map_err Secp256k1Error (secret_from_slice child_key_bytes) in
  let? child_secret := map_err Secp256k1Error (add_tweak parent_secret child_key_raw) in
  Ok (mkSecp256k1Key (secret_bytes child_secret) (public_serialize child_secret) child_chain_code).

Fixpoint derive_children (current : Secp256k1ExtendedPrivKey) (indices : list Z)
    : result Secp256k1ExtendedPrivKey DerivationError :=
  match indices with
  | [] => Ok current
  | index :: rest => let? child := derive_child current index in derive_children child rest
  end.

Definition derive_secp256k1_path (overflow_checks : bool) (seed : list byte) (path : string)
    : outcome (result Secp256k1ExtendedPrivKey DerivationError) :=
  let! indices := parse_derivation_path overflow_checks path in
  Ret (
    let? indices := indices in
    let? master := derive_secp256k1_master_key seed in
    derive_children master indices).
End Bip32.

(** ** Printing paths, for the round trip

    A segment is an index below 2^31 and whether it is hardened; [to_index] is
    the child number the parser should return for it. *)
Definition show_segment (seg : Z * bool) : string :=
  show_uint seg.1 +:+ (if seg.2 then "'" else EmptyString).

Fixpoint show_segments (segs : list (Z * bool)) : string :=
  match segs with
  | [] => EmptyString
  | seg :: segs' => "/" +:+ show_segment seg +:+ show_segments segs'
  end.

Definition show_path (segs : list (Z * bool)) : string := "m" +:+ show_segments segs.

Definition segment_index (seg : Z * bool) : Z :=
  if seg.2 then seg.1 + HARDENED_OFFSET else seg.1.

Definition segment_ok (seg : Z * bool) : Prop :=
  0 ≤ seg.1 ∧ seg.1 < if seg.2 then 2 ^ 31 else 2 ^ 32.

(** ** Lemmas *)
Lemma trim_end_matches_id c s : contains_char c s = false → trim_end_matches c s = s.
Proof.
  induction s as [|a s IH]; [done|]. rewrite contains_char_cons, orb_false_iff.
  intros [Ha Hs]. simpl. rewrite IH, Ha by done. by destruct s.
Qed.

Lemma trim_end_matches_snoc c s :
  contains_char c s = false → trim_end_matches c (s +:+ String c EmptyString) = s.
Proof.
  induction s as [|a s IH].
  - intros _. simpl. by rewrite Ascii.eqb_refl.
  - rewrite contains_char_cons, orb_false_iff. intros [Ha Hs].
    change (String a s +:+ String c EmptyString) with (String a (s +:+ String c EmptyString)).
    simpl. rewrite IH, Ha by done. by destruct s.
Qed.

Lemma ends_with_not_in c s :
  contains_char c s = false → ends_with (String c EmptyString) s = false.
Proof.
  intros Hs. apply not_true_iff_false. intros [r ->]%ends_with_spec.
  rewrite contains_char_app, contains_char_cons, Ascii.eqb_refl, orb_true_r in Hs. done.
Qed.

Lemma parse_segment oc seg :
  0 ≤ seg.1 < 2 ^ 32 →
  parse_part oc (show_segment seg) =
  if seg.2 then let! i := u32_add oc seg.1 HARDENED_OFFSET in Ret (Ok i)
  else Ret (Ok seg.1).
Proof.
  destruct seg as [n h]. simpl. intros Hn. unfold parse_part, show_segment. simpl.
  assert (contains_char "'" (show_uint n) = false) as Hq
    by (apply show_uint_contains; [lia|done]).
  assert (contains_char "h" (show_uint n) = false) as Hh
    by (apply show_uint_contains; [lia|done]).
  destruct h.
  - assert (ends_with "'" (show_uint n +:+ "'") = true) as ->
      by (apply ends_with_spec; eauto).
    rewrite trim_end_matches_snoc, trim_end_matches_id by done.
    by rewrite parse_show_uint by (unfold u32_max; lia).
  - rewrite str_app_nil_r, !ends_with_not_in by done.
    rewrite (trim_end_matches_id "'"), (trim_end_matches_id "h") by done.
    by rewrite parse_show_uint by (unfold u32_max; lia).
Qed.

Lemma show_segment_no_slash seg : 0 ≤ seg.1 → contains_char "/" (show_segment seg) = false.
Proof.
  intros Hn. unfold show_segment. rewrite contains_char_app, show_uint_contains by done.
  by destruct seg.2.
Qed.

Lemma split_show_segments s segs :
  contains_char "/" s = false → Forall (λ seg, 0 ≤ seg.1) segs →
  split_char "/" (s +:+ show_segments segs) = s :: (show_segment <$> segs).
Proof.
  revert s. induction segs as [|seg segs IH]; intros s Hs Hok; simpl.
  - rewrite str_app_nil_r. by apply split_char_not_in.
  - apply Forall_cons in Hok as [Hn Hok].
    change ("/" +:+ show_segment seg +:+ show_segments segs)
      with (String "/" (show_segment seg +:+ show_segments segs)).
    rewrite split_char_app by done. f_equal. apply IH; [|done]. by apply show_segment_no_slash.
Qed.

Lemma parse_segments oc segs :
  Forall segment_ok segs →
  parse_parts oc (show_segment <$> segs) = Ret (Ok (segment_index <$> segs)).
Proof.
  induction 1 as [|seg segs [Hn Hlt] Hok IH]; [done|]. csimpl.
  rewrite parse_segment by (destruct seg.2; lia). unfold segment_index, u32_add, u32_max.
  destruct seg as [n h]; csimpl in *. rewrite IH. destruct h; [|done].
  destruct (Z.ltb_spec (2 ^ 32 - 1) (n + HARDENED_OFFSET)); [unfold HARDENED_OFFSET in *; lia|].
  done.
Qed.

Lemma parse_show_path oc segs :
  Forall segment_ok segs →
  parse_derivation_path oc (show_path segs) = Ret (Ok (segment_index <$> segs)).
Proof.
  intros Hok. unfold parse_derivation_path, show_path. rewrite starts_with_app.
  simpl negb. cbv iota.
  rewrite split_show_segments; [by apply parse_segments|done|].
  eapply Forall_impl; [done|]. by intros seg [? _].
Qed.

Lemma parse_parts_app oc parts1 parts2 is_ :
  parse_parts oc parts1 = Ret (Ok is_) →
  parse_parts oc (parts1 ++ parts2)
  = let! rs := parse_parts oc parts2 in
    Ret (match rs with Ok js => Ok (is_ ++ js) | Err e => Err e end).
Proof.
  revert is_. induction parts1 as [|part parts1 IH]; intros is_; simpl.
  - intros [= <-]. by destruct (parse_parts oc parts2) as [[]|].
  - destruct (parse_part oc part) as [[i|e]|]; simpl; [|done..].
    destruct (parse_parts oc parts1) as [[js|e]|]; simpl; [|done..].
    intros [= <-]. rewrite (IH js) by done. by destruct (parse_parts oc parts2) as [[]|].
Qed.

Lemma trim_end_matches_cons c a s :
  Ascii.eqb a c = false → ∃ t, trim_end_matches c (String a s) = String a t.
Proof. intros Ha. simpl. destruct (trim_end_matches c s); rewrite ?Ha; eauto. Qed.

(** A part that begins with a character no number begins with is refused. *)
Lemma parse_part_letter oc a s :
  digit_val a = None → a ≠ "+"%char → a ≠ "'"%char → a ≠ "h"%char →
  parse_part oc (String a s) = Ret (Err (InvalidPath ("invalid index: " +:+ String a s))).
Proof.
  intros Hd Hplus Hq Hh. unfold parse_part.
  destruct (trim_end_matches_cons "'" a s) as [t ->]; [by apply Ascii.eqb_neq|].
  destruct (trim_end_matches_cons "h" a t) as [u ->]; [by apply Ascii.eqb_neq|].
  unfold parse_uint. apply Ascii.eqb_neq in Hplus. rewrite Hplus. simpl. by rewrite Hd.
Qed.

Lemma device_path_show n :
  device_path n = show_path [(74, true); (0, true); (0, true); (n, true)].
Proof.
  unfold device_path, show_path, show_segments, show_segment. simpl.
  rewrite str_app_nil_r. reflexivity.
Qed.

(** ** Properties *)

(** Parsing a printed derivation path gives back its child indices, with
    2^31 added to the hardened ones and no overflow, in every build; in
    particular [device_path n] parses to the four hardened indices of the
    device key. *)
Theorem derivation_path_round_trip oc segs n :
  Forall segment_ok segs → 0 ≤ n < 2 ^ 31 →
  parse_derivation_path oc (show_path segs) = Ret (Ok (segment_index <$> segs))
  ∧ parse_derivation_path oc (device_path n)
    = Ret (Ok [74 + 2 ^ 31; 2 ^ 31; 2 ^ 31; n + 2 ^ 31]).
Proof.
  intros Hok Hn. split; [by apply parse_show_path|].
  rewrite device_path_show. apply parse_show_path. repeat constructor; simpl; lia.
Qed.

(** For a device index of 2^31 or more the [u32] addition of the hardened
    offset overflows: a build with overflow checks panics, and one without
    silently returns the unhardened index [n - 2^31]. *)
Theorem device_path_overflow n :
  2 ^ 31 ≤ n < 2 ^ 32 →
  parse_derivation_path true (device_path n) = Panic
  ∧ parse_derivation_path false (device_path n)
    = Ret (Ok [74 + 2 ^ 31; 2 ^ 31; 2 ^ 31; n - 2 ^ 31]).
Proof.
  intros Hn. rewrite device_path_show. unfold parse_derivation_path, show_path.
  rewrite starts_with_app. simpl negb. cbv iota.
  rewrite split_show_segments by (try done; repeat constructor; simpl; lia).
  assert (∀ oc, parse_parts oc (show_segment <$> [(74, true); (0, true); (0, true)])
                = Ret (Ok [74 + 2 ^ 31; 2 ^ 31; 2 ^ 31])) as Hpre.
  { intros oc. apply (parse_segments oc [(74, true); (0, true); (0, true)]).
    repeat constructor; simpl; lia. }
  change (drop 1 ("m" :: (show_segment <$> [(74, true); (0, true); (0, true); (n, true)])))
    with ((show_segment <$> [(74, true); (0, true); (0, true)]) ++ [show_segment (n, true)]).
  rewrite !(parse_parts_app _ _ _ _ (Hpre _)). cbn [parse_parts].
  rewrite !parse_segment by (simpl; lia). cbn [fst snd]. unfold u32_add.
  destruct (Z.ltb_spec u32_max (n + HARDENED_OFFSET)) as [_|];
    [|unfold u32_max, HARDENED_OFFSET in *; lia].
  split; [done|]. simpl. do 6 f_equal. unfold as_u32, HARDENED_OFFSET.
  symmetry. apply (Z.mod_unique_pos _ _ 1); lia.
Qed.

(** A site hash that begins with a letter other than [h] is refused as a
    path index, so no password can be derived at its [site_password_path]. *)
Theorem site_password_path_refused oc a s :
  digit_val a = None → a ≠ "+"%char → a ≠ "'"%char → a ≠ "h"%char → a ≠ "/"%char →
  contains_char "/" s = false →
  parse_derivation_path oc (site_password_path (String a s))
  = Ret (Err (InvalidPath ("invalid index: " +:+ String a s +:+ "'"))).
Proof.
  intros Hd Hp Hq Hh Hs Hns.
  assert (contains_char "/" (String a s +:+ "'") = false) as Hno.
  { rewrite contains_char_app, contains_char_cons, Hns.
    apply Ascii.eqb_neq in Hs. by rewrite Hs. }
  assert (drop 1 (split_char "/" (site_password_path (String a s)))
          = (show_segment <$> [(74, true); (1, true); (0, true)])
            ++ [String a s +:+ "'"]) as Hsplit.
  { unfold site_password_path.
    change ("m/74'/1'/0'/" +:+ String a s +:+ "'")
      with ("m" +:+ String "/" ("74'" +:+ String "/" ("1'" +:+ String "/" ("0'" +:+
              String "/" (String a s +:+ "'"))))).
    rewrite !split_char_app by done. by rewrite split_char_not_in by done. }
  unfold parse_derivation_path.
  assert (starts_with "m" (site_password_path (String a s)) = true) as ->
    by (by apply starts_with_spec; eexists).
  simpl negb. cbv iota. rewrite Hsplit.
  rewrite (parse_parts_app _ _ _ [74 + 2 ^ 31; 1 + 2 ^ 31; 2 ^ 31]).
  - change (String a s +:+ "'") with (String a (s +:+ "'")). cbn [parse_parts].
    by rewrite parse_part_letter.
  - apply (parse_segments oc [(74, true); (1, true); (0, true)]).
    repeat constructor; simpl; lia.
Qed.

(** ** Examples *)
Module DerivationExample.
Lemma derivation_path_round_trip_witness :
  parse_derivation_path true "m/44'/60'/0'/0/0"
    = Ret (Ok [44 + 2 ^ 31; 60 + 2 ^ 31; 2 ^ 31; 0; 0])
  ∧ parse_derivation_path true (device_path 7)
    = Ret (Ok [74 + 2 ^ 31; 2 ^ 31; 2 ^ 31; 7 + 2 ^ 31]).
Proof.
  apply (derivation_path_round_trip true
           [(44, true); (60, true); (0, true); (0, false); (0, false)] 7);
    [repeat constructor; simpl; lia|lia].
Defined.

Lemma device_path_overflow_witness :
  parse_derivation_path true (device_path (2 ^ 31)) = Panic
  ∧ parse_derivation_path false (device_path (2 ^ 31))
    = Ret (Ok [74 + 2 ^ 31; 2 ^ 31; 2 ^ 31; 2 ^ 31 - 2 ^ 31]).
Proof. apply (device_path_overflow (2 ^ 31)). lia. Defined.

(** The hash of the crate's own test. *)
Lemma site_password_path_refused_witness :
  parse_derivation_path true (site_password_path "abc123")
  = Ret (Err (InvalidPath "invalid index: abc123'")).
Proof.
  apply (site_password_path_refused true "a" "bc123"); first [reflexivity | discriminate].
Defined.
End DerivationExample.
