(* ===== verification/SecretService.v ===== *)
(** * The secret service (alknet-secret/src/service.rs and protocol.rs)

    The handle's [Arc<RwLock<SecretServiceInner>>] is the inner state and the
    lock's poison flag: a panic while the write guard is held poisons the lock,
    and every later [read().unwrap()] or [write().unwrap()] panics.  [Draws]
    holds what a call takes from its surroundings: the clock and the random
    bytes. *)
From S2P Require Import Prelude RustStd KeyCache Derivation Encryption.
From Stdlib Require Import Strings.Byte.
Open Scope Z_scope.

Inductive SecretServiceError :=
| ServiceLocked
| AlreadyUnlocked
| MnemonicFailure (msg : string)
| DerivationFailure (msg : string)
| EncryptionFailure (msg : string)
| InvalidPathFailure (msg : string)
| UnsupportedKeyTypeFailure.

(** [Display] of the errors the service wraps. *)
Definition display_mnemonic (e : MnemonicError) : string :=
  match e with
  | Generation m => "failed to generate mnemonic: " +:+ m
  | InvalidPhrase m => "invalid mnemonic phrase: " +:+ m
  end.

Definition display_derivation (e : DerivationError) : string :=
  match e with
  | InvalidPath m => "invalid derivation path: " +:+ m
  | HmacError m => "HMAC error: " +:+ m
  | KeyDerivation m => "key derivation error: " +:+ m
  | Locked => "seed is not unlocked"
  | Secp256k1Error m => "secp256k1 error: " +:+ m
  | UnsupportedKeyType => "unsupported key type"
  end.

Definition display_encryption (e : EncryptionError) : string :=
  match e with
  | EncEncryption m => "encryption error: " +:+ m
  | EncDecryption m => "decryption error: " +:+ m
  | EncDecoding m => "base64 decoding error: " +:+ m
  | KeyVersionMismatch ex ac =>
      "key version mismatch: expected " +:+ show_uint ex +:+ ", got " +:+ show_uint ac
  end.

Definition from_mnemonic_error (e : MnemonicError) : SecretServiceError :=
  MnemonicFailure (display_mnemonic e).
Definition from_derivation_error (e : DerivationError) : SecretServiceError :=
  DerivationFailure (display_derivation e).
Definition from_encryption_error (e : EncryptionError) : SecretServiceError :=
  EncryptionFailure (display_encryption e).

Record DerivedKey := mkDerivedKey {
  dk_key_type : KeyType;
  dk_private_key : list byte;
  dk_public_key : list byte;
}.

(** *** Serialising a derived key
    What a serializer is handed for a field, in serde's data model, and the
    implementations of [Serialize] (which asks the format whether it is human
    readable) and of [Deserialize] (derived, field by field). *)
Inductive SerdeValue := SVariant (name : string) | SStr (s : string) | SSeq (bytes : list byte).

Definition key_type_name (t : KeyType) : string :=
  match t with Ed25519 => "Ed25519" | Aes256Gcm => "Aes256Gcm" | Secp256k1 => "Secp256k1" end.
Definition key_type_of_name (name : string) : option KeyType :=
  list_find (λ t, key_type_name t = name) [Ed25519; Aes256Gcm; Secp256k1] ≫= λ it, Some it.2.

Definition derived_key_serialize (is_human_readable : bool) (k : DerivedKey) : list (string * SerdeValue) :=
  [("key_type", SVariant (key_type_name (dk_key_type k)));
   ("private_key", if is_human_readable then SStr "[REDACTED]" else SSeq (dk_private_key k));
   ("public_key", SSeq (dk_public_key k))].

(** [Vec::<u8>::deserialize] takes a sequence of bytes and nothing else. *)
Definition deserialize_private_key (v : SerdeValue) : option (list byte) :=
  match v with SSeq bytes => Some bytes | _ => None end.
Definition derived_key_deserialize (fields : list (string * SerdeValue)) : option DerivedKey :=
  match fields with
  | [("key_type", SVariant name); ("private_key", v); ("public_key", SSeq public_key)] =>
      key_type ← key_type_of_name name;
      private_key ← deserialize_private_key v;
      Some (mkDerivedKey key_type private_key public_key)
  | _ => None
  end.

Record SecretServiceInner := mkInner {
  mnemonic : option Mnemonic;
  seed : option Seed;
  unlocked : bool;
  cache : KeyCache;
}.

Record SecretServiceHandle := mkHandle {
  inner : SecretServiceInner;
  poisoned : bool;
}.

Record Draws := mkDraws {
  now : Z;
  draw_iv : list byte;
  draw_salt : list byte;
  draw_entropy : list byte;
}.

Definition set_cache (i : SecretServiceInner) (c : KeyCache) : SecretServiceInner :=
  mkInner (mnemonic i) (seed i) (unlocked i) c.

(** [self.inner.write().unwrap()] around a body; a panic in it poisons. *)
Definition with_write {R} (h : SecretServiceHandle)
    (body : SecretServiceInner → SecretServiceInner * outcome R)
    : SecretServiceHandle * outcome R :=
  if poisoned h then (h, Panic)
  else
    let '(i, o) := body (inner h) in
    (mkHandle i (match o with Panic => true | Ret _ => false end), o).

(** [self.inner.read().unwrap()]: a panic under a read guard does not poison. *)
Definition with_read {R} (h : SecretServiceHandle) (body : SecretServiceInner → outcome R)
    : outcome R :=
  if poisoned h then Panic else body (inner h).

Definition with_cache_config (config : CacheConfig) : SecretServiceHandle :=
  mkHandle (mkInner None None false (KeyCache_new config)) false.
Definition SecretServiceHandle_new : SecretServiceHandle :=
  with_cache_config CacheConfig_default.

Section Service.
Context `{HmacSha512, Ed25519Bip32, Secp256k1Lib, Bip39, AesGcm, Base64}.
(** Build settings: arithmetic overflow checks and the [secp256k1] feature. *)
Context (oc secp256k1_feature : bool).

Definition unlock (h : SecretServiceHandle) (phrase : string) (passphrase : option string)
    : SecretServiceHandle * outcome (result unit SecretServiceError) :=
  with_write h (λ i,
    if unlocked i then (i, Ret (Err AlreadyUnlocked))
    else
      match from_phrase phrase with
      | Err e => (i, Ret (Err (from_mnemonic_error e)))
      | Ok m =>
          match to_seed m passphrase with
          | Panic => (i, Panic)
          | Ret s => (mkInner (Some m) (Some s) true (cache i), Ret (Ok tt))
          end
      end).

Definition unlock_new (d : Draws) (h : SecretServiceHandle) (word_count : Z)
    : SecretServiceHandle * outcome (result string SecretServiceError) :=
  with_write h (λ i,
    if unlocked i then (i, Ret (Err AlreadyUnlocked))
    else
      match Mnemonic_generate (draw_entropy d) word_count with
      | Err e => (i, Ret (Err (from_mnemonic_error e)))
      | Ok m =>
          match to_seed m None with
          | Panic => (i, Panic)
          | Ret s => (mkInner (Some m) (Some s) true (cache i), Ret (Ok (phrase m)))
          end
      end).

Definition lock (h : SecretServiceHandle) : SecretServiceHandle * outcome unit :=
  with_write h (λ i, (mkInner None None false (cache_clear (cache i)), Ret tt)).

Definition is_unlocked (h : SecretServiceHandle) : outcome bool :=
  with_read h (λ i, Ret (unlocked i)).

(** The body [derive_ed25519], [derive_encryption_key] and
    [derive_ethereum_key] share: consult the cache, else derive and cache under
    the path. *)
Definition derive_cached (t : Z) (key_type : KeyType)
    (derive : list byte → outcome (result (list byte * list byte) DerivationError))
    (path : string) (i : SecretServiceInner)
    : SecretServiceInner * outcome (result DerivedKey SecretServiceError) :=
  if negb (unlocked i) then (i, Ret (Err ServiceLocked))
  else
    let '(c, hit) := cache_get t (cache i) path in
    let i := set_cache i c in
    match hit with
    | Some cached =>
        (i, Ret (Ok (mkDerivedKey (ck_key_type cached) (ck_private_key cached)
                       (ck_public_key cached))))
    | None =>
        match seed i with
        | None => (i, Ret (Err ServiceLocked))
        | Some s =>
            match derive (seed_bytes s) with
            | Panic => (i, Panic)
            | Ret (Err e) => (i, Ret (Err (from_derivation_error e)))
            | Ret (Ok (private_key, public_key)) =>
                let cached := CachedKey_new t key_type private_key public_key in
                (set_cache i (cache_insert (cache i) path cached),
                 Ret (Ok (mkDerivedKey key_type private_key public_key)))
            end
        end
    end.

(** The key material of the two derivations, as pairs. *)
Definition ed25519_pair (path : string) (s : list byte)
    : outcome (result (list byte * list byte) DerivationError) :=
  let! r := derive_path_from_seed oc s path in
  Ret (let? k := r in Ok (xk_private_key k, xk_public_key k)).

#[local] Arguments ed25519_pair : simpl never.

Definition secp256k1_pair (path : string) (s : list byte)
    : outcome (result (list byte * list byte) DerivationError) :=
  let! r := derive_secp256k1_path oc s path in
  Ret (let? k := r in Ok (sk_private_key k, sk_public_key k)).

Definition derive_ed25519 (d : Draws) (h : SecretServiceHandle) (path : string)
    : SecretServiceHandle * outcome (result DerivedKey SecretServiceError) :=
  with_write h (derive_cached (now d) Ed25519 (ed25519_pair path) path).

Definition derive_encryption_key (d : Draws) (h : SecretServiceHandle) (path : string)
    : SecretServiceHandle * outcome (result DerivedKey SecretServiceError) :=
  with_write h (derive_cached (now d) Aes256Gcm (ed25519_pair path) path).

Definition derive_ethereum_key (d : Draws) (h : SecretServiceHandle) (path : string)
    : SecretServiceHandle * outcome (result DerivedKey SecretServiceError) :=
  if secp256k1_feature then
    with_write h (derive_cached (now d) Secp256k1 (secp256k1_pair path) path)
  else (h, Ret (Err UnsupportedKeyTypeFailure)).

Definition derive_password (h : SecretServiceHandle) (path : string) (len : nat)
    : outcome (result (list byte) SecretServiceError) :=
  with_read h (λ i,
    if negb (unlocked i) then Ret (Err ServiceLocked)
    else
      match seed i with
      | None => Ret (Err ServiceLocked)
      | Some s =>
          let! r := derive_path_from_seed oc (seed_bytes s) path in
          Ret (
            let? key := map_err from_derivation_error r in
            let private_key := xk_private_key key in
            let truncated_len := Nat.min len (length private_key) in
            Ok (take truncated_len private_key))
      end).

Definition derive_password_string (h : SecretServiceHandle) (path : string) (len : nat)
    : outcome (result string SecretServiceError) :=
  let! r := derive_password h path len in
  Ret (let? bytes := r in Ok (b64_url_encode bytes)).

(** The private key at [PATHS::ENCRYPTION], cached or derived, as [encrypt] and
    [decrypt] both obtain it. *)
Definition encryption_private_key (t : Z) (i : SecretServiceInner)
    : SecretServiceInner * outcome (result (list byte) SecretServiceError) :=
  let '(i, o) := derive_cached t Aes256Gcm (ed25519_pair PATHS.ENCRYPTION) PATHS.ENCRYPTION i in
  (i, let! r := o in Ret (let? k := r in Ok (dk_private_key k))).

Definition service_encrypt (d : Draws) (h : SecretServiceHandle) (plaintext : string)
    (key_version : Z) : SecretServiceHandle * outcome (result EncryptedData SecretServiceError) :=
  with_write h (λ i,
    let '(i, o) := encryption_private_key (now d) i in
    match o with
    | Panic => (i, Panic)
    | Ret (Err e) => (i, Ret (Err e))
    | Ret (Ok private_key) =>
        (i, let! enc_key := from_derived_bytes private_key key_version in
            let! r := encrypt (draw_iv d) (draw_salt d) plaintext enc_key in
            Ret (map_err from_encryption_error r))
    end).

Definition service_decrypt (d : Draws) (h : SecretServiceHandle) (encrypted : EncryptedData)
    : SecretServiceHandle * outcome (result string SecretServiceError) :=
  with_write h (λ i,
    let '(i, o) := encryption_private_key (now d) i in
    match o with
    | Panic => (i, Panic)
    | Ret (Err e) => (i, Ret (Err e))
    | Ret (Ok private_key) =>
        (i, let! enc_key := from_derived_bytes private_key (ed_key_version encrypted) in
            let! r := decrypt encrypted enc_key in
            Ret (map_err from_encryption_error r))
    end).

(** ** The protocol and the actor *)
Inductive SecretMessage :=
| MDeriveEd25519 (path : string)
| MDeriveEncryptionKey (path : string)
| MDeriveEthereumKey (path : string)
| MDerivePassword (path : string) (len : nat)
| MEncrypt (plaintext : string) (key_version : Z)
| MDecrypt (encrypted : EncryptedData)
| MLock
| MUnlock (mnemonic : string) (passphrase : option string).

Inductive SecretResponse :=
| RKey (r : result DerivedKey SecretServiceError)
| RBytes (r : result (list byte) SecretServiceError)
| REncrypted (r : result EncryptedData SecretServiceError)
| RString (r : result string SecretServiceError)
| RUnit (r : result unit SecretServiceError).

Definition omap {A B} (f : A → B) (o : outcome A) : outcome B :=
  match o with Ret a => Ret (f a) | Panic => Panic end.

(** [handle_message]: what it sends back on the message's channel. *)
Definition handle_message (d : Draws) (h : SecretServiceHandle) (msg : SecretMessage)
    : SecretServiceHandle * outcome SecretResponse :=
  match msg with
  | MDeriveEd25519 path => let '(h, o) := derive_ed25519 d h path in (h, omap RKey o)
  | MDeriveEncryptionKey path => let '(h, o) := derive_encryption_key d h path in (h, omap RKey o)
  | MDeriveEthereumKey path => let '(h, o) := derive_ethereum_key d h path in (h, omap RKey o)
  | MDerivePassword path len => (h, omap RBytes (derive_password h path len))
  | MEncrypt plaintext key_version =>
      let '(h, o) := service_encrypt d h plaintext key_version in (h, omap REncrypted o)
  | MDecrypt encrypted => let '(h, o) := service_decrypt d h encrypted in (h, omap RString o)
  | MLock => let '(h, o) := lock h in (h, omap (λ _, RUnit (Ok tt)) o)
  | MUnlock m passphrase => let '(h, o) := unlock h m passphrase in (h, omap RUnit o)
  end.

(** [run]: the task ends at the first panic, the messages left in the channel
    unanswered. *)
Fixpoint actor_run (h : SecretServiceHandle) (msgs : list (Draws * SecretMessage))
    : SecretServiceHandle * list SecretResponse :=
  match msgs with
  | [] => (h, [])
  | (d, msg) :: msgs' =>
      let '(h, o) := handle_message d h msg in
      match o with
      | Panic => (h, [])
      | Ret r => let '(h, rs) := actor_run h msgs' in (h, r :: rs)
      end
  end.

(** Every call on the handle: those of the protocol and [unlock_new]. *)
Inductive ServiceCall :=
| CallMessage (msg : SecretMessage)
| CallUnlockNew (word_count : Z).

Definition service_step (h : SecretServiceHandle) (call : Draws * ServiceCall)
    : SecretServiceHandle * outcome SecretResponse :=
  match call with
  | (d, CallMessage msg) => handle_message d h msg
  | (d, CallUnlockNew n) => let '(h, o) := unlock_new d h n in (h, omap RString o)
  end.

Definition reachable (h : SecretServiceHandle) : Prop :=
  ∃ config calls, h = (run_steps service_step (with_cache_config config) calls).1.

(** ** The invariant

    Unlocked, the service holds a mnemonic, a seed, and only keys derived from
    that seed at the path they are cached under; locked, it holds nothing. *)
Definition from_seed (s : list byte) (path : string) (k : CachedKey) : Prop :=
  match ck_key_type k with
  | Ed25519 | Aes256Gcm => ed25519_pair path s = Ret (Ok (ck_private_key k, ck_public_key k))
  | Secp256k1 =>
      secp256k1_feature = true
      ∧ secp256k1_pair path s = Ret (Ok (ck_private_key k, ck_public_key k))
  end.

Definition holds_nothing (i : SecretServiceInner) : Prop :=
  mnemonic i = None ∧ seed i = None ∧ entries (cache i) = ∅.

Record inner_ok (i : SecretServiceInner) : Prop := {
  ok_cache : cache_wf (cache i);
  ok_unlocked : unlocked i = true →
    ∃ m s, mnemonic i = Some m ∧ seed i = Some s
      ∧ ∀ p k, entries (cache i) !! p = Some k → from_seed (seed_bytes s) p k;
  ok_locked : unlocked i = false → holds_nothing i;
}.

(** Two inner states with the same secrets. *)
Definition same_secrets (i j : SecretServiceInner) : Prop :=
  mnemonic i = mnemonic j ∧ seed i = seed j ∧ unlocked i = unlocked j.

Lemma from_seed_touch s p t k : from_seed s p (touch t k) ↔ from_seed s p k.
Proof. done. Qed.

Lemma derive_cached_ok t kt derive path i :
  inner_ok i →
  (∀ s a b, derive s = Ret (Ok (a, b)) → from_seed s path (CachedKey_new t kt a b)) →
  inner_ok (derive_cached t kt derive path i).1
  ∧ same_secrets (derive_cached t kt derive path i).1 i.
Proof.
  intros Hok Hderive. unfold derive_cached.
  destruct (unlocked i) eqn:Hu; simpl; [|done].
  destruct (ok_unlocked i Hok Hu) as (m & s & Hm & Hs & Hkeys).
  pose proof (cache_get_entries t (cache i) path) as Hge.
  pose proof (cache_get_wf t (cache i) path (ok_cache i Hok)) as Hwf.
  destruct (cache_get t (cache i) path) as [c hit]. simpl in *.
  assert (∀ p k, entries c !! p = Some k → from_seed (seed_bytes s) p k) as Hkeys'.
  { intros p k Hk. apply Hge in Hk as (k0 & Hk0 & [->| ->]); [|rewrite from_seed_touch]; eauto. }
  assert (inner_ok (set_cache i c)) as Hok'.
  { split; simpl; [done|intros _; by exists m, s|by rewrite Hu]. }
  destruct hit as [k|]; [done|]. rewrite Hs.
  destruct (derive (seed_bytes s)) as [[[a b]|e]|] eqn:Hd; simpl; [|done..].
  split; [|done]. split; simpl; [by apply cache_insert_wf| |by rewrite Hu].
  intros _. exists m, s. split_and!; [done..|].
  intros p k [[-> ->]|Hk]%cache_insert_entries; eauto.
Qed.

Lemma ed25519_pair_from_seed t kt path s a b :
  kt ≠ Secp256k1 → ed25519_pair path s = Ret (Ok (a, b)) →
  from_seed s path (CachedKey_new t kt a b).
Proof. intros Hkt Hp. unfold from_seed. simpl. by destruct kt. Qed.

Lemma encryption_private_key_ok t i :
  inner_ok i →
  inner_ok (encryption_private_key t i).1 ∧ same_secrets (encryption_private_key t i).1 i.
Proof.
  intros Hok. unfold encryption_private_key.
  pose proof (derive_cached_ok t Aes256Gcm (ed25519_pair PATHS.ENCRYPTION) PATHS.ENCRYPTION i Hok)
    as Hd.
  destruct (derive_cached _ _ _ _ i) as [i' o]. apply Hd.
  intros s a b. by apply ed25519_pair_from_seed.
Qed.

Lemma with_write_ok {R} h (body : _ → _ * outcome R) :
  inner_ok (inner h) → (∀ i, inner_ok i → inner_ok (body i).1) →
  inner_ok (inner (with_write h body).1).
Proof.
  intros Hok Hbody. unfold with_write. destruct (poisoned h); [done|].
  specialize (Hbody _ Hok). by destruct (body (inner h)).
Qed.

Lemma unlock_ok m s c i :
  inner_ok i → unlocked i = false → c = cache i →
  inner_ok (mkInner (Some m) (Some s) true c).
Proof.
  intros Hok Hu ->. destruct (ok_locked i Hok Hu) as (_ & _ & He).
  split; simpl; [apply Hok| |done]. intros _. exists m, s. split_and!; [done..|].
  intros p k Hk. by rewrite He, lookup_empty in Hk.
Qed.

Lemma snd_omap_step {R} (f : R → SecretResponse) (x : SecretServiceHandle * outcome R) :
  inner_ok (inner x.1) → inner_ok (inner (let '(h, o) := x in (h, omap f o)).1).
Proof. by destruct x. Qed.

Lemma service_step_ok h call :
  inner_ok (inner h) → inner_ok (inner (service_step h call).1).
Proof.
  intros Hok. destruct call as [d [msg|n]]; [destruct msg|]; cbn [service_step handle_message];
    try (apply snd_omap_step); try done.
  - apply with_write_ok; [done|]. intros i Hi.
    apply derive_cached_ok; [done|]. intros s a b. by apply ed25519_pair_from_seed.
  - apply with_write_ok; [done|]. intros i Hi.
    apply derive_cached_ok; [done|]. intros s a b. by apply ed25519_pair_from_seed.
  - unfold derive_ethereum_key. destruct secp256k1_feature eqn:Hf; [|done].
    apply with_write_ok; [done|]. intros i Hi. apply derive_cached_ok; [done|].
    intros s a b Hp. unfold from_seed. by rewrite Hf.
  - apply with_write_ok; [done|]. intros i Hi.
    pose proof (encryption_private_key_ok (now d) i Hi) as [Hi' _].
    destruct (encryption_private_key (now d) i) as [i' [[]|]]; done.
  - apply with_write_ok; [done|]. intros i Hi.
    pose proof (encryption_private_key_ok (now d) i Hi) as [Hi' _].
    destruct (encryption_private_key (now d) i) as [i' [[]|]]; done.
  - apply with_write_ok; [done|]. intros i Hi. split; simpl; auto with alk; done.
  - apply with_write_ok; [done|]. intros i Hi. destruct (unlocked i) eqn:Hu; [done|].
    destruct (from_phrase mnemonic0); [|done].
    destruct (to_seed a passphrase); [|done]. by eapply unlock_ok.
  - apply with_write_ok; [done|]. intros i Hi. destruct (unlocked i) eqn:Hu; [done|].
    destruct (Mnemonic_generate (draw_entropy d) n); [|done].
    destruct (to_seed a None); [|done]. by eapply unlock_ok.
Qed.

Lemma with_cache_config_ok config : inner_ok (inner (with_cache_config config)).
Proof. split; simpl; [apply new_wf|done|done]. Qed.

Lemma run_ok calls h :
  inner_ok (inner h) → inner_ok (inner (run_steps service_step h calls).1).
Proof.
  revert h. induction calls as [|call calls IH]; intros h Hok; simpl; [done|].
  pose proof (service_step_ok h call Hok) as Hok'.
  destruct (service_step h call) as [h1 o]. specialize (IH h1 Hok').
  by destruct (run_steps service_step h1 calls).
Qed.

Lemma reachable_ok h : reachable h → inner_ok (inner h).
Proof. intros (config & calls & ->). apply run_ok, with_cache_config_ok. Qed.

(** ** Which curve a path is cached for

    The cache is keyed by the path alone.  A call puts a key of one curve or of
    the other under a path. *)
Definition caches_ed25519 (path : string) (call : Draws * ServiceCall) : bool :=
  match call.2 with
  | CallMessage (MDeriveEd25519 p) | CallMessage (MDeriveEncryptionKey p) => bool_decide (p = path)
  | CallMessage (MEncrypt _ _) | CallMessage (MDecrypt _) => bool_decide (PATHS.ENCRYPTION = path)
  | _ => false
  end.
Definition caches_secp256k1 (path : string) (call : Draws * ServiceCall) : bool :=
  match call.2 with
  | CallMessage (MDeriveEthereumKey p) => secp256k1_feature && bool_decide (p = path)
  | _ => false
  end.

(** A state reached by calls none of which caches a key of the curve under the
    path. *)
Definition reachable_avoiding (caches : Draws * ServiceCall → bool) (h : SecretServiceHandle) : Prop :=
  ∃ config calls, h = (run_steps service_step (with_cache_config config) calls).1
    ∧ Forall (λ call, caches call = false) calls.

Lemma reachable_avoiding_reachable caches h : reachable_avoiding caches h → reachable h.
Proof. intros (config & calls & -> & _). by exists config, calls. Qed.

(** The keys cached under a path satisfy [P]. *)
Definition cached_at (path : string) (P : KeyType → Prop) (i : SecretServiceInner) : Prop :=
  ∀ k, entries (cache i) !! path = Some k → P (ck_key_type k).

Lemma derive_cached_at t kt derive p path (P : KeyType → Prop) i :
  cached_at path P i → (p = path → P kt) → cached_at path P (derive_cached t kt derive p i).1.
Proof.
  intros Hat Hkt. unfold derive_cached. destruct (unlocked i); simpl; [|done].
  pose proof (cache_get_entries t (cache i) p) as Hge.
  destruct (cache_get t (cache i) p) as [c hit]. simpl in *.
  assert (cached_at path P (set_cache i c)) as Hat'.
  { intros k Hk. apply Hge in Hk as (k0 & Hk0 & [->| ->]); by apply (Hat k0). }
  destruct hit; [done|]. destruct (seed i) as [s|]; [|done].
  destruct (derive (seed_bytes s)) as [[[a b]|]|]; [|done..]. simpl.
  intros k [[-> ->]|Hk]%cache_insert_entries; [by apply Hkt|by apply Hat'].
Qed.

Lemma with_write_at {R} h (body : _ → _ * outcome R) path P :
  cached_at path P (inner h) → (∀ i, cached_at path P i → cached_at path P (body i).1) →
  cached_at path P (inner (with_write h body).1).
Proof.
  intros Hat Hbody. unfold with_write. destruct (poisoned h); [done|].
  specialize (Hbody _ Hat). by destruct (body (inner h)).
Qed.

Lemma omap_step_at {R} (f : R → SecretResponse) (x : SecretServiceHandle * outcome R) path P :
  cached_at path P (inner x.1) → cached_at path P (inner (let '(h, o) := x in (h, omap f o)).1).
Proof. by destruct x. Qed.

Lemma encryption_private_key_at t i path (P : KeyType → Prop) :
  cached_at path P i → (PATHS.ENCRYPTION = path → P Aes256Gcm) →
  cached_at path P (encryption_private_key t i).1.
Proof.
  intros Hat Hp. unfold encryption_private_key.
  pose proof (derive_cached_at t Aes256Gcm (ed25519_pair PATHS.ENCRYPTION) PATHS.ENCRYPTION path P i Hat Hp).
  by destruct (derive_cached _ _ _ _ i).
Qed.

(** One call, when the keys it caches satisfy [P]. *)
Lemma service_step_at h call path (P : KeyType → Prop) :
  cached_at path P (inner h) →
  (caches_ed25519 path call = true → P Ed25519 ∧ P Aes256Gcm) →
  (caches_secp256k1 path call = true → P Secp256k1) →
  cached_at path P (inner (service_step h call).1).
Proof.
  intros Hat He Hs. destruct call as [d [msg|n]]; [destruct msg|];
    cbn [service_step handle_message caches_ed25519 caches_secp256k1 snd] in *;
    try (apply omap_step_at); try done.
  - apply with_write_at; [done|]. intros i Hi. apply derive_cached_at; [done|]. intros ->.
    by apply He, bool_decide_eq_true.
  - apply with_write_at; [done|]. intros i Hi. apply derive_cached_at; [done|]. intros ->.
    by apply He, bool_decide_eq_true.
  - unfold derive_ethereum_key. destruct secp256k1_feature; [|done].
    apply with_write_at; [done|]. intros i Hi. apply derive_cached_at; [done|]. intros ->.
    by apply Hs, bool_decide_eq_true.
  - apply with_write_at; [done|]. intros i Hi.
    pose proof (encryption_private_key_at (now d) i path P Hi) as Hi'.
    rewrite bool_decide_eq_true in He.
    destruct (encryption_private_key (now d) i) as [i' [[]|]]; apply Hi'; naive_solver.
  - apply with_write_at; [done|]. intros i Hi.
    pose proof (encryption_private_key_at (now d) i path P Hi) as Hi'.
    rewrite bool_decide_eq_true in He.
    destruct (encryption_private_key (now d) i) as [i' [[]|]]; apply Hi'; naive_solver.
  - apply with_write_at; [done|]. by intros i _ k.
  - apply with_write_at; [done|]. intros i Hi. destruct (unlocked i); [done|].
    destruct (from_phrase _) as [m|]; [|done]. by destruct (to_seed m _).
  - apply with_write_at; [done|]. intros i Hi. destruct (unlocked i); [done|].
    destruct (Mnemonic_generate _ _) as [m|]; [|done]. by destruct (to_seed m _).
Qed.

Lemma run_at calls h path (P : KeyType → Prop) :
  cached_at path P (inner h) →
  Forall (λ call, (caches_ed25519 path call = true → P Ed25519 ∧ P Aes256Gcm) ∧
                  (caches_secp256k1 path call = true → P Secp256k1)) calls →
  cached_at path P (inner (run_steps service_step h calls).1).
Proof.
  revert h. induction calls as [|call calls IH]; intros h Hat Hall; simpl; [done|].
  apply Forall_cons in Hall as [[He Hs] Hall].
  pose proof (service_step_at h call path P Hat He Hs) as Hat'.
  destruct (service_step h call) as [h1 o]. specialize (IH h1 Hat' Hall).
  by destruct (run_steps service_step h1 calls).
Qed.

Lemma avoiding_secp256k1 path h :
  reachable_avoiding (caches_secp256k1 path) h → cached_at path (λ kt, kt ≠ Secp256k1) (inner h).
Proof.
  intros (config & calls & -> & Hall). apply run_at; [by intros k|].
  eapply Forall_impl; [exact Hall|]. simpl. intros call ->. done.
Qed.


(** ** What the operations return *)

(** The answer of a derivation that consults no cache. *)
Definition pair_answer (kt : KeyType)
    (r : outcome (result (list byte * list byte) DerivationError))
    : outcome (result DerivedKey SecretServiceError) :=
  match r with
  | Panic => Panic
  | Ret (Err e) => Ret (Err (from_derivation_error e))
  | Ret (Ok (a, b)) => Ret (Ok (mkDerivedKey kt a b))
  end.
Definition derive_answer (kt : KeyType) (path : string) (s : list byte) := pair_answer kt (ed25519_pair path s).

Lemma derive_cached_answer t kt path i s :
  cached_at path (λ kt, kt ≠ Secp256k1) i → inner_ok i → unlocked i = true → seed i = Some s →
  kt ≠ Secp256k1 →
  ∃ kt', kt' ≠ Secp256k1 ∧
    (derive_cached t kt (ed25519_pair path) path i).2 = derive_answer kt' path (seed_bytes s).
Proof.
  intros Hat Hok Hu Hs Hkt. unfold derive_cached. rewrite Hu. simpl.
  destruct (ok_unlocked i Hok Hu) as (m & s' & _ & Hs' & Hkeys). simplify_eq.
  pose proof (cache_get_hit t (cache i) path) as Hhit.
  destruct (cache_get t (cache i) path) as [c [k|]]; simpl in *.
  - destruct (Hhit k eq_refl) as (k0 & Hk0 & _ & ->). exists (ck_key_type k0).
    specialize (Hkeys _ _ Hk0). specialize (Hat _ Hk0).
    unfold from_seed, derive_answer, pair_answer in *.
    destruct (ck_key_type k0) eqn:Ht; [..|done]; rewrite Hkeys; by simpl; rewrite Ht.
  - exists kt. rewrite Hs. unfold derive_answer, pair_answer.
    by destruct (ed25519_pair path (seed_bytes s)) as [[[]|]|].
Qed.


Lemma encryption_private_key_answer t i s :
  cached_at PATHS.ENCRYPTION (λ kt, kt ≠ Secp256k1) i → inner_ok i → unlocked i = true →
  seed i = Some s →
  (encryption_private_key t i).2 =
  match ed25519_pair PATHS.ENCRYPTION (seed_bytes s) with
  | Panic => Panic
  | Ret (Err e) => Ret (Err (from_derivation_error e))
  | Ret (Ok (a, _)) => Ret (Ok a)
  end.
Proof.
  unfold encryption_private_key. generalize PATHS.ENCRYPTION as path. intros path Hf Hok Hu Hs.
  destruct (derive_cached_answer t Aes256Gcm path i s) as (kt & _ & Ha); [done..|].
  destruct (derive_cached _ _ _ _ i) as [i' o]. simpl in *. rewrite Ha. unfold derive_answer, pair_answer.
  by destruct (ed25519_pair _ _) as [[[]|]|].
Qed.

Lemma derived_private_length `{!Ed25519Bip32Laws _} path s a b :
  ed25519_pair path s = Ret (Ok (a, b)) → length a = 32%nat.
Proof.
  unfold ed25519_pair, derive_path_from_seed.
  destruct (parse_derivation_path oc path) as [[is_|]|]; simpl; [|done..].
  destruct (derive_master_key s) as [x|]; simpl; [|done].
  intros [= <- _]. rewrite length_take, extended_secret_key_length. done.
Qed.


Lemma service_decrypt_answer d h e s a b :
  cached_at PATHS.ENCRYPTION (λ kt, kt ≠ Secp256k1) (inner h) → inner_ok (inner h) → poisoned h = false →
  unlocked (inner h) = true → seed (inner h) = Some s →
  ed25519_pair PATHS.ENCRYPTION (seed_bytes s) = Ret (Ok (a, b)) →
  (service_decrypt d h e).2 =
    (let! enc_key := from_derived_bytes a (ed_key_version e) in
     let! r := decrypt e enc_key in
     Ret (map_err from_encryption_error r)).
Proof.
  intros Hf Hok Hp Hu Hs Hk. unfold service_decrypt, with_write. rewrite Hp.
  pose proof (encryption_private_key_answer (now d) _ s Hf Hok Hu Hs) as Ha. rewrite Hk in Ha.
  destruct (encryption_private_key (now d) (inner h)) as [i o]. simpl in Ha. by rewrite Ha.
Qed.


(** The refusal each message gets while the service is locked. *)
Definition locked_response (msg : SecretMessage) : option SecretResponse :=
  match msg with
  | MDeriveEd25519 _ | MDeriveEncryptionKey _ => Some (RKey (Err ServiceLocked))
  | MDeriveEthereumKey _ =>
      Some (RKey (Err (if secp256k1_feature then ServiceLocked else UnsupportedKeyTypeFailure)))
  | MDerivePassword _ _ => Some (RBytes (Err ServiceLocked))
  | MEncrypt _ _ => Some (REncrypted (Err ServiceLocked))
  | MDecrypt _ => Some (RString (Err ServiceLocked))
  | MLock | MUnlock _ _ => None
  end.

(** A poisoned lock: every message but the featureless Ethereum one panics. *)
Lemma poisoned_panics d h msg :
  poisoned h = true → secp256k1_feature = true ∨ (∀ p, msg ≠ MDeriveEthereumKey p) →
  handle_message d h msg = (h, Panic).
Proof.
  intros Hp Hmsg. destruct msg; cbn [handle_message];
    unfold derive_ed25519, derive_encryption_key, derive_ethereum_key, derive_password,
      service_encrypt, service_decrypt, lock, unlock, with_write, with_read;
    rewrite ?Hp; try done.
  destruct Hmsg as [->|Hmsg]; [by rewrite ?Hp|by destruct (Hmsg path)].
Qed.

(** ** Properties *)

(** C4: Locked means locked.  In every state the service can reach, if it is
    locked it holds no mnemonic, no seed and no cached key, and every message
    but [Lock] and [Unlock] is refused and changes nothing; and [lock] brings
    any unpoisoned service to that state. *)
Theorem locked_service_refuses h :
  reachable h → poisoned h = false →
  (unlocked (inner h) = false →
     holds_nothing (inner h)
     ∧ ∀ d msg r, locked_response msg = Some r → handle_message d h msg = (h, Ret r))
  ∧ (unlocked (inner (lock h).1) = false ∧ holds_nothing (inner (lock h).1)).
Proof.
  intros Hr Hp. pose proof (reachable_ok h Hr) as Hok. destruct h as [i p]; simpl in *. subst p.
  split; [|by unfold lock, with_write, holds_nothing]. intros Hu.
  split; [by apply ok_locked|]. intros d msg r.
  destruct msg; simpl; intros [= <-];
    unfold derive_ed25519, derive_encryption_key, derive_ethereum_key, derive_password,
      service_encrypt, service_decrypt, encryption_private_key, with_write, with_read,
      derive_cached; simpl; rewrite ?Hu; try done.
  destruct secp256k1_feature; simpl; by rewrite ?Hu.
Qed.



(** A stored blob whose IV is not twelve bytes makes [decrypt] panic while
    it holds the write lock; from then on the service answers nothing and
    cannot be locked: the seed and the keys stay in memory, and the actor's
    task is gone. *)
Theorem decrypt_bad_iv_poisons `{!AesGcmLaws _, !Ed25519Bip32Laws _} d h e iv s a b msgs :
  reachable_avoiding (caches_secp256k1 PATHS.ENCRYPTION) h → poisoned h = false →
  unlocked (inner h) = true → seed (inner h) = Some s →
  ed25519_pair PATHS.ENCRYPTION (seed_bytes s) = Ret (Ok (a, b)) →
  b64_decode (ed_iv e) = Ok iv → length iv ≠ 12%nat →
  let h' := (service_decrypt d h e).1 in
  (service_decrypt d h e).2 = Panic
  ∧ actor_run h ((d, MDecrypt e) :: msgs) = (h', [])
  ∧ seed (inner h') = Some s
  ∧ lock h' = (h', Panic)
  ∧ ∀ d' msg, (∀ p, msg ≠ MDeriveEthereumKey p) → handle_message d' h' msg = (h', Panic).
Proof.
  intros Hr Hp Hu Hs Hk Hiv Hlen h'. pose proof (avoiding_secp256k1 _ h Hr) as Hat.
  apply reachable_avoiding_reachable, reachable_ok in Hr.
  assert ((service_decrypt d h e).2 = Panic) as Hpanic.
  { rewrite (service_decrypt_answer d h e s a b) by done.
    pose proof (derived_private_length _ _ _ _ Hk) as Ha.
    unfold from_derived_bytes. rewrite Ha. simpl.
    rewrite (decrypt_bad_iv _ _ iv); [done| |done..].
    simpl. by rewrite length_take, Ha. }
  assert (poisoned h' = true ∧ seed (inner h') = Some s) as [Hp' Hs'].
  { unfold h'. clear h'. revert Hpanic. unfold service_decrypt, with_write. rewrite Hp.
    destruct (encryption_private_key_ok (now d) _ Hr) as [_ (_ & Hsame & _)].
    destruct (encryption_private_key (now d) (inner h)) as [i o]; simpl in *.
    destruct o as [[k|]|]; [|done|simpl; intros _; split; [done|congruence]].
    destruct (obind _ _); [done|]. simpl. intros _. split; [done|congruence]. }
  split_and!; [done| |done| |].
  - cbn [actor_run handle_message]. destruct (service_decrypt d h e) as [h1 o].
    simpl in *. by rewrite Hpanic.
  - unfold lock, with_write. by rewrite Hp'.
  - intros d' msg Hmsg. apply poisoned_panics; auto.
Qed.

(** A key that was derived is what any derivation at the same path returns until
    it expires. *)
Lemma derive_cached_sticks t t' kt kt' f g path i i1 k :
  entries (cache i) !! path = None →
  derive_cached t kt f path i = (i1, Ret (Ok k)) →
  t' - t ≤ ttl (config (cache i)) → 0 ≤ ttl (config (cache i)) →
  (derive_cached t' kt' g path i1).2 = Ret (Ok k) ∧ dk_key_type k = kt.
Proof.
  intros Hnone Hd Ht Hpos. revert Hd. unfold derive_cached at 1, cache_get. rewrite Hnone.
  destruct (unlocked i) eqn:Hu; simpl; [|done].
  destruct (seed i) as [s|] eqn:Hs; [|done].
  destruct (f (seed_bytes s)) as [[[a b]|]|]; [|done..].
  intros [= <- <-]. split; [|done]. simpl. unfold derive_cached. simpl. rewrite Hu. simpl.
  unfold cache_get. simpl. rewrite lookup_insert_eq.
  assert (is_expired t' (CachedKey_new t kt a b) (ttl (config (cache i))) = false) as He.
  { unfold is_expired. simpl. lia. }
  assert (config (if decide (is_Some (entries (cache i) !! path)) then remove_entry (cache i) path
                  else if (max_entries (config (cache i)) <=? size (entries (cache i)))%nat
                       then evict_lru (cache i) else cache i)
          = config (cache i)) as Hcfg.
  { unfold evict_lru. by repeat case_match. }
  rewrite Hcfg, He. simpl. by rewrite lookup_insert_eq.
Qed.

(** A key cached by [derive_ed25519] is what [derive_encryption_key] at the
    same path returns until it expires, tagged [Ed25519] and not
    [Aes256Gcm]. *)
Theorem derive_key_type_sticks d d' h path h1 k :
  entries (cache (inner h)) !! path = None →
  derive_ed25519 d h path = (h1, Ret (Ok k)) →
  now d' - now d ≤ ttl (config (cache (inner h))) → 0 ≤ ttl (config (cache (inner h))) →
  (derive_encryption_key d' h1 path).2 = Ret (Ok k) ∧ dk_key_type k = Ed25519.
Proof.
  intros Hnone Hd Ht Hpos. unfold derive_ed25519, derive_encryption_key, with_write in *.
  destruct (poisoned h); [by simplify_eq|].
  destruct (derive_cached (now d) _ _ path (inner h)) as [i1 o] eqn:Hc. simplify_eq/=.
  destruct (derive_cached_sticks _ (now d') _ Aes256Gcm _ (ed25519_pair path) _ _ _ _ Hnone Hc Ht Hpos)
    as [Ha Hk]. by destruct (derive_cached (now d') _ _ path i1).
Qed.

(** With the [secp256k1] feature the curves get mixed up: until it expires, a
    key cached by [derive_ethereum_key] is also what [derive_ed25519] at the
    same path returns. *)
Theorem derive_curve_sticks d d' h path h1 k :
  entries (cache (inner h)) !! path = None →
  derive_ethereum_key d h path = (h1, Ret (Ok k)) →
  now d' - now d ≤ ttl (config (cache (inner h))) → 0 ≤ ttl (config (cache (inner h))) →
  (derive_ed25519 d' h1 path).2 = Ret (Ok k) ∧ dk_key_type k = Secp256k1.
Proof.
  intros Hnone Hd Ht Hpos. unfold derive_ed25519, derive_ethereum_key, with_write in *.
  destruct secp256k1_feature; [|done]. destruct (poisoned h); [by simplify_eq|].
  destruct (derive_cached (now d) _ _ path (inner h)) as [i1 o] eqn:Hc. simplify_eq/=.
  destruct (derive_cached_sticks _ (now d') _ Ed25519 _ (ed25519_pair path) _ _ _ _ Hnone Hc Ht Hpos)
    as [Ha Hk]. by destruct (derive_cached (now d') _ _ path i1).
Qed.

(** A derived key survives a binary format.  A human-readable one shows the
    same thing for all keys with one type and public key, and cannot be read
    back. *)
Theorem derived_key_redaction k k' :
  derived_key_deserialize (derived_key_serialize false k) = Some k ∧
  derived_key_deserialize (derived_key_serialize true k) = None ∧
  (derived_key_serialize true k = derived_key_serialize true k' ↔
   dk_key_type k = dk_key_type k' ∧ dk_public_key k = dk_public_key k').
Proof.
  split; [by destruct k as [[] ??]|]. split; [by destruct k as [[] ??]|].
  unfold derived_key_serialize. split; [|by intros [-> ->]].
  intros Hs. injection Hs as Hn Hp. by destruct (dk_key_type k), (dk_key_type k').
Qed.

End Service.

(** ** Examples

    Concrete stand-ins for the libraries, small enough to evaluate: an extended
    key is a number and a cipher text is the plaintext after the key's first
    byte. *)
Module SecretExample.
#[export] Instance toy_hmac : HmacSha512 := {| hmac_sha512 _ m := Ok (m ++ m) |}.
#[export] Instance toy_ed25519 : Ed25519Bip32 := {|
  XPrv := Z;
  from_nonextended_force p _ := byte_val (default x00 (head p));
  xprv_derive x i := x + i;
  extended_secret_key_bytes x := replicate 64 (byte_of x);
  xprv_public x := replicate 64 (byte_of (x + 1));
  xprv_chain_code x := [];
|}.
#[export] Instance toy_ed25519_laws : Ed25519Bip32Laws toy_ed25519.
Proof. split. intros x. apply length_replicate. Qed.
#[export] Instance toy_secp256k1 : Secp256k1Lib := {|
  SecretKey := list byte;
  secret_from_slice := Ok;
  secret_bytes k := k;
  public_serialize k := x02 :: k;
  add_tweak a b := Ok (a ++ b);
|}.
#[export] Instance toy_bip39 : Bip39 := {|
  Bip39Mnemonic := string;
  bip39_generate _ _ := Ok "generated";
  parse_normalized := Ok;
  bip39_to_string m := m;
  to_seed_normalized m p := bytes_of (m +:+ p);
|}.
#[export] Instance toy_aes : AesGcm := {|
  Cipher := byte;
  aes_new_from_slice k :=
    if (length k =? 32)%nat then Ok (default x00 (head k)) else Err "length";
  aes_encrypt c _ p := Ok (c :: p);
  aes_decrypt c _ e :=
    match e with b :: p => if decide (b = c) then Ok p else Err "tag" | [] => Err "short" end;
|}.
#[export] Instance toy_aes_laws : AesGcmLaws toy_aes.
Proof.
  split; simpl.
  - intros k ->. simpl. eauto.
  - intros c n p e [= <-]. by rewrite decide_True.
Qed.
#[export] Instance toy_base64 : Base64 := {|
  b64_encode := str_of;
  b64_decode s := Ok (bytes_of s);
  b64_url_encode := str_of;
|}.
#[export] Instance toy_base64_laws : Base64Laws toy_base64.
Proof. split. intros bs. simpl. by rewrite bytes_str. Qed.

Definition draws (t : Z) : Draws := mkDraws t (replicate 12 x00) (replicate 32 x00) [].
Definition call (t : Z) (msg : SecretMessage) : Draws * ServiceCall := (draws t, CallMessage msg).
Definition run (calls : list (Draws * ServiceCall)) : SecretServiceHandle :=
  (run_steps (service_step true false) (with_cache_config CacheConfig_default) calls).1.

Lemma run_reachable calls : reachable true false (run calls).
Proof. by exists CacheConfig_default, calls. Qed.
Lemma run_avoiding calls path : reachable_avoiding true false (caches_secp256k1 false path) (run calls).
Proof.
  exists CacheConfig_default, calls. split; [done|]. apply Forall_forall. intros [d [[]|]] _; done.
Qed.

Definition fresh : SecretServiceHandle := run [].
Definition opened : SecretServiceHandle := run [call 1 (MUnlock "alpha" None)].
Definition the_seed : Seed := mkSeed (bytes_of "alpha").

Lemma locked_service_refuses_witness :
  (unlocked (inner fresh) = false →
     holds_nothing (inner fresh)
     ∧ ∀ d msg r, locked_response false msg = Some r → handle_message true false d fresh msg = (fresh, Ret r))
  ∧ (unlocked (inner (lock fresh).1) = false ∧ holds_nothing (inner (lock fresh).1)).
Proof. apply (locked_service_refuses true false fresh); [apply run_reachable|reflexivity]. Defined.

(** With the feature: an Ethereum key and an identity key, each at its path. *)
Definition eth_path : string := "m/44'/60'/0'/0/0".


Lemma derive_curve_sticks_witness :
  let '(h1, o) := derive_ethereum_key true true (draws 2) opened eth_path in
  match o with
  | Ret (Ok k) => (derive_ed25519 true (draws 3) h1 eth_path).2 = Ret (Ok k) ∧ dk_key_type k = Secp256k1
  | _ => False
  end.
Proof.
  destruct (derive_ethereum_key true true (draws 2) opened eth_path) as [h1 o] eqn:Hd.
  destruct o as [[k|]|].
  - apply (derive_curve_sticks true true (draws 2) (draws 3) opened eth_path h1 k);
      [vm_compute; reflexivity|exact Hd|vm_compute; discriminate..].
  - vm_compute in Hd. discriminate Hd.
  - vm_compute in Hd. discriminate Hd.
Defined.



Definition bad_iv : EncryptedData := mkEncryptedData 1 EmptyString "short" "data".

Lemma decrypt_bad_iv_poisons_witness :
  let h' := (service_decrypt true (draws 2) opened bad_iv).1 in
  (service_decrypt true (draws 2) opened bad_iv).2 = Panic
  ∧ actor_run true false opened [(draws 2, MDecrypt bad_iv); (draws 3, MLock)] = (h', [])
  ∧ seed (inner h') = Some the_seed
  ∧ lock h' = (h', Panic)
  ∧ ∀ d' msg, (∀ p, msg ≠ MDeriveEthereumKey p) → handle_message true false d' h' msg = (h', Panic).
Proof.
  eapply (decrypt_bad_iv_poisons true false (draws 2) opened bad_iv (bytes_of "short") the_seed);
    first [apply run_avoiding | discriminate | vm_compute; reflexivity].
Defined.

Lemma derive_key_type_sticks_witness :
  let '(h1, o) := derive_ed25519 true (draws 2) opened PATHS.ENCRYPTION in
  match o with
  | Ret (Ok k) =>
      (derive_encryption_key true (draws 3) h1 PATHS.ENCRYPTION).2 = Ret (Ok k)
      ∧ dk_key_type k = Ed25519
  | _ => False
  end.
Proof.
  destruct (derive_ed25519 true (draws 2) opened PATHS.ENCRYPTION) as [h1 o] eqn:Hd.
  destruct o as [[k|]|].
  - apply (derive_key_type_sticks true (draws 2) (draws 3) opened PATHS.ENCRYPTION h1 k);
      [vm_compute; reflexivity|exact Hd|vm_compute; discriminate..].
  - vm_compute in Hd. discriminate Hd.
  - vm_compute in Hd. discriminate Hd.
Defined.
End SecretExample.
