(* ===== verification/SecretActor.v ===== *)
(** * The secret service shared by its clients (alknet-secret/src/service.rs)

    [SecretServiceActor::spawn] puts a task behind a bounded channel; clients
    send it messages and wait on a one-shot channel each, while other threads
    may use clones of the handle directly.  [actor_step] interleaves them: the
    service's lock makes every call one step, the task answers from a task of
    its own per message, and a panic ends it with everything still queued. *)
From S2P Require Import Prelude RustStd KeyCache Derivation Encryption SecretService.
Open Scope Z_scope.

(** [tokio::sync::mpsc::channel(64)]. *)
Definition CHANNEL_CAPACITY : nat := 64.

Section Actor.
Context `{HmacSha512, Ed25519Bip32, Secp256k1Lib, Bip39, AesGcm, Base64}.
Context (oc secp256k1_feature : bool).
#[local] Notation service_step := (service_step oc secp256k1_feature).
#[local] Notation handle_message := (handle_message oc secp256k1_feature).

(** A call as it took effect: the request it answers, unless it was made on the
    handle directly, and its outcome. *)
Record Effect := mkEffect {
  ef_request : option nat;
  ef_call : Draws * ServiceCall;
  ef_outcome : outcome SecretResponse;
}.

Record Actor := mkActor {
  ac_handle : SecretServiceHandle;
  ac_running : bool;
  ac_queue : list (nat * SecretMessage);          (* the channel *)
  ac_sending : gmap nat SecretResponse;           (* the tasks that answer *)
  ac_answers : gmap nat (option SecretResponse);  (* what requests got; [None] when the sender was dropped *)
  ac_sent : list (nat * SecretMessage);           (* every request made, in order *)
  ac_log : list Effect;
}.

Definition actor_spawn (h : SecretServiceHandle) : Actor := mkActor h true [] ∅ ∅ [] [].

(** The requests whose senders a dead task drops. *)
Definition drop_all (q : list (nat * SecretMessage)) (answers : gmap nat (option SecretResponse))
    : gmap nat (option SecretResponse) :=
  foldr (λ m, <[m.1 := None]>) answers q.

Inductive actor_step : Actor → Actor → Prop :=
| as_send h q sd an st lg msg :
    (length q < CHANNEL_CAPACITY)%nat →
    actor_step (mkActor h true q sd an st lg)
      (mkActor h true (q ++ [(length st, msg)]) sd an (st ++ [(length st, msg)]) lg)
| as_handle h q sd an st lg d id msg h' r :
    handle_message d h msg = (h', Ret r) →
    actor_step (mkActor h true ((id, msg) :: q) sd an st lg)
      (mkActor h' true q (<[id := r]> sd) an st (lg ++ [mkEffect (Some id) (d, CallMessage msg) (Ret r)]))
| as_panic h q sd an st lg d id msg h' :
    handle_message d h msg = (h', Panic) →
    actor_step (mkActor h true ((id, msg) :: q) sd an st lg)
      (mkActor h' false [] sd (drop_all ((id, msg) :: q) an) st
         (lg ++ [mkEffect (Some id) (d, CallMessage msg) Panic]))
| as_answer h run q sd an st lg id r :
    sd !! id = Some r →
    actor_step (mkActor h run q sd an st lg) (mkActor h run q (delete id sd) (<[id := Some r]> an) st lg)
| as_direct h run q sd an st lg call h' o :
    service_step h call = (h', o) →
    actor_step (mkActor h run q sd an st lg) (mkActor h' run q sd an st (lg ++ [mkEffect None call o]))
(** The last client is gone. *)
| as_closed h sd an st lg :
    actor_step (mkActor h true [] sd an st lg) (mkActor h false [] sd an st lg).

(** ** Invariant *)
(** The request an effect answers. *)
Definition answered (e : Effect) : option (nat * SecretMessage) :=
  match ef_request e, ef_call e with Some id, (_, CallMessage msg) => Some (id, msg) | _, _ => None end.

Definition requests_of (lg : list Effect) : list (nat * SecretMessage) := base.omap answered lg.

(** The calls took effect one after the other; requests take effect in the order
    in which they were sent; the answer of each is on its way or has arrived. *)
Record actor_ok (h0 : SecretServiceHandle) (s : Actor) : Prop := {
  ao_log : run_steps service_step h0 (ef_call <$> ac_log s) = (ac_handle s, ef_outcome <$> ac_log s);
  ao_order : ∃ lost, ac_sent s = requests_of (ac_log s) ++ ac_queue s ++ lost ∧ (ac_running s = true → lost = [])
    ∧ ∀ m, m ∈ lost → ac_answers s !! m.1 = Some None;
  ao_ids : (ac_sent s).*1 = seq 0 (length (ac_sent s));
  ao_request : ∀ e id, e ∈ ac_log s → ef_request e = Some id → ∃ msg, answered e = Some (id, msg);
  ao_effect : ∀ e id, e ∈ ac_log s → ef_request e = Some id →
    match ef_outcome e with
    | Ret r => ac_sending s !! id = Some r ∨ ac_answers s !! id = Some (Some r)
    | Panic => ac_answers s !! id = Some None
    end;
  ao_answer : ∀ id r, ac_sending s !! id = Some r ∨ ac_answers s !! id = Some (Some r) →
    ∃ e, e ∈ ac_log s ∧ ef_request e = Some id ∧ ef_outcome e = Ret r;
  ao_once : ∀ id r, ac_sending s !! id = Some r → ac_answers s !! id = None;
  ao_alive : ac_running s = true → ∀ id, ac_answers s !! id ≠ Some None;
}.

Lemma requests_of_app l1 l2 : requests_of (l1 ++ l2) = requests_of l1 ++ requests_of l2.
Proof. apply omap_app. Qed.

Lemma drop_all_lookup q an id :
  drop_all q an !! id = if decide (id ∈ q.*1) then Some None else an !! id.
Proof.
  induction q as [|[j msg] q IH]; simpl; [done|].
  destruct (decide (j = id)) as [->|Hne].
  - rewrite lookup_insert_eq, decide_True by set_solver. done.
  - rewrite lookup_insert_ne, IH by done. do 2 case_decide; set_solver.
Qed.

(** A request still queued has not taken effect. *)
Lemma queued_fresh h0 s id msg e :
  actor_ok h0 s → (id, msg) ∈ ac_queue s → e ∈ ac_log s → ef_request e ≠ Some id.
Proof.
  intros Hok Hq He Hid. destruct (ao_request _ _ Hok e id He Hid) as [msg' Ha].
  destruct (ao_order _ _ Hok) as (lost & Hs & _). pose proof (NoDup_seq 0 (length (ac_sent s))) as Hnd.
  rewrite <-(ao_ids _ _ Hok), Hs, fmap_app in Hnd. apply NoDup_app in Hnd as (_ & Hnd & _). apply (Hnd id).
  - apply list_elem_of_fmap. exists (id, msg'). split; [done|]. apply list_elem_of_omap. by exists e.
  - apply list_elem_of_fmap. exists (id, msg). split; [done|]. set_solver.
Qed.
Lemma queued_unanswered h0 s id msg :
  actor_ok h0 s → (id, msg) ∈ ac_queue s → ac_sending s !! id = None ∧ (∀ r, ac_answers s !! id ≠ Some (Some r)).
Proof.
  intros Hok Hq. split.
  - destruct (ac_sending s !! id) as [r|] eqn:Hs; [|done].
    destruct (ao_answer _ _ Hok id r (or_introl Hs)) as (e & He & Hid & _). by destruct (queued_fresh h0 s id msg e).
  - intros r Hr. destruct (ao_answer _ _ Hok id r (or_intror Hr)) as (e & He & Hid & _).
    by destruct (queued_fresh h0 s id msg e).
Qed.

Lemma run_steps_log h0 lg h call h' o :
  run_steps service_step h0 (ef_call <$> lg) = (h, ef_outcome <$> lg) → service_step h call = (h', o) →
  ∀ rq, run_steps service_step h0 (ef_call <$> lg ++ [mkEffect rq call o]) = (h', ef_outcome <$> lg ++ [mkEffect rq call o]).
Proof.
  intros Hr Hs rq. rewrite !fmap_app. by apply (run_steps_last _ _ _ _ _ _ _ _ Hr).
Qed.

(** Fields of the log that a new effect adds to. *)
Ltac log_cases :=
  repeat match goal with
  | Hin : _ ∈ _ ++ [_] |- _ => apply elem_of_app in Hin as [Hin|Hin%list_elem_of_singleton]
  end; simplify_eq/=.

Lemma handle_ok h0 s d id msg q h' r :
  actor_ok h0 s → ac_running s = true → ac_queue s = (id, msg) :: q →
  handle_message d (ac_handle s) msg = (h', Ret r) →
  actor_ok h0 (mkActor h' true q (<[id := r]> (ac_sending s)) (ac_answers s) (ac_sent s)
                 (ac_log s ++ [mkEffect (Some id) (d, CallMessage msg) (Ret r)])).
Proof.
  intros Hok Hrun Hq Hm. assert ((id, msg) ∈ ac_queue s) as Hin by (rewrite Hq; set_solver).
  destruct (queued_unanswered _ _ _ _ Hok Hin) as [Hsd Han].
  pose proof (λ e, queued_fresh h0 s id msg e Hok Hin) as Hfr. pose proof (ao_alive _ _ Hok Hrun) as Hal.
  destruct Hok as [Hl (lost & Ho & Hlost & Hln) Hi Hr He Ha Hon _]. split; simpl.
  - by eapply run_steps_log.
  - exists lost. rewrite requests_of_app, Ho, Hq. simpl. rewrite <-!app_assoc. split_and!; [done|auto|done].
  - done.
  - intros e j Hj Hid. log_cases; [by eapply Hr|by exists msg].
  - intros e j Hj Hid. log_cases; [|left; apply lookup_insert_eq].
    rewrite lookup_insert_ne by (intros <-; by eapply Hfr). by apply He.
  - intros j r' Hj. destruct (decide (j = id)) as [->|Hne].
    + rewrite lookup_insert_eq in Hj. destruct Hj as [[= <-]|Hj]; [|by destruct (Han r')].
      eexists. split; [apply elem_of_app; right; by apply list_elem_of_singleton|done].
    + rewrite lookup_insert_ne in Hj by done. destruct (Ha j r' Hj) as (e & ? & ? & ?). exists e. set_solver.
  - intros j r'. destruct (decide (j = id)) as [->|Hne]; [|rewrite lookup_insert_ne by done; apply Hon].
    intros _. destruct (ac_answers s !! id) as [[r0|]|] eqn:Hx; [by destruct (Han r0)|by destruct (Hal id)|done].
  - done.
Qed.

Lemma panic_ok h0 s d id msg q h' :
  actor_ok h0 s → ac_running s = true → ac_queue s = (id, msg) :: q →
  handle_message d (ac_handle s) msg = (h', Panic) →
  actor_ok h0 (mkActor h' false [] (ac_sending s) (drop_all ((id, msg) :: q) (ac_answers s)) (ac_sent s)
                 (ac_log s ++ [mkEffect (Some id) (d, CallMessage msg) Panic])).
Proof.
  intros Hok Hrun Hq Hm. pose proof Hok as [Hl (lost & Ho & Hlost & Hln) Hi Hr He Ha Hon _].
  assert (∀ e j, e ∈ ac_log s → ef_request e = Some j → j ∉ ((id, msg) :: q).*1) as Hfr.
  { intros e j Hin Hj (m & -> & Hm')%list_elem_of_fmap. destruct m as [j' msg'].
    apply (queued_fresh h0 s j' msg' e Hok); [by rewrite Hq|done|done]. }
  assert (∀ j, j ∈ ((id, msg) :: q).*1 → ac_sending s !! j = None) as Hns.
  { intros j (m & -> & Hm')%list_elem_of_fmap. destruct m as [j' msg'].
    apply (queued_unanswered h0 s j' msg' Hok). by rewrite Hq. }
  split; cbn [ac_handle ac_running ac_queue ac_sending ac_answers ac_sent ac_log].
  - by eapply run_steps_log.
  - exists q. rewrite (Hlost Hrun), app_nil_r in Ho. rewrite requests_of_app, Ho, Hq. simpl.
    split; [by rewrite <-app_assoc|split; [done|]]. intros m Hin.
    change (<[id := None]> (drop_all q (ac_answers s))) with (drop_all ((id, msg) :: q) (ac_answers s)).
    rewrite drop_all_lookup, decide_True; [done|]. simpl. right. by apply list_elem_of_fmap_2.
  - done.
  - intros e j Hj Hid. log_cases; [by eapply Hr|by exists msg].
  - intros e j Hj Hid. rewrite drop_all_lookup. log_cases; [|rewrite decide_True by set_solver; done].
    rewrite decide_False by (by eapply Hfr). by apply He.
  - intros j r'. rewrite drop_all_lookup. case_decide as Hd.
    + rewrite (Hns j Hd). by intros [|].
    + intros Hj. destruct (Ha j r' Hj) as (e & ? & ? & ?). exists e. set_solver.
  - intros j r' Hj. rewrite drop_all_lookup. case_decide as Hd; [|by eapply Hon]. by rewrite (Hns j Hd) in Hj.
  - done.
Qed.

Lemma answer_ok h0 s id r :
  actor_ok h0 s → ac_sending s !! id = Some r →
  actor_ok h0 (mkActor (ac_handle s) (ac_running s) (ac_queue s) (delete id (ac_sending s))
                 (<[id := Some r]> (ac_answers s)) (ac_sent s) (ac_log s)).
Proof.
  intros [Hl (lost & Ho & Hlost & Hln) Hi Hr He Ha Hon Hal] Hs. split; simpl; try done.
  - exists lost. split_and!; [done..|]. intros m Hm. rewrite lookup_insert_ne; [by apply Hln|].
    intros ->. specialize (Hon _ _ Hs). rewrite (Hln m Hm) in Hon. done.
  - intros e j Hj Hid. specialize (He e j Hj Hid). destruct (decide (id = j)) as [->|Hne].
    + rewrite lookup_insert_eq. specialize (Hon _ _ Hs). destruct (ef_outcome e); [|congruence]. right.
      destruct He; congruence.
    + by rewrite lookup_delete_ne, lookup_insert_ne.
  - intros j r'. destruct (decide (id = j)) as [->|Hne].
    + rewrite lookup_delete_eq, lookup_insert_eq. intros [?|[= <-]]; [done|]. apply Ha. by left.
    + rewrite lookup_delete_ne, lookup_insert_ne by done. apply Ha.
  - intros j r'. destruct (decide (id = j)) as [->|Hne]; [by rewrite lookup_delete_eq|].
    rewrite lookup_delete_ne, lookup_insert_ne by done. apply Hon.
  - intros Hrun j. destruct (decide (id = j)) as [->|Hne]; [by rewrite lookup_insert_eq|].
    rewrite lookup_insert_ne by done. by apply Hal.
Qed.

Lemma direct_ok h0 s call h' o :
  actor_ok h0 s → service_step (ac_handle s) call = (h', o) →
  actor_ok h0 (mkActor h' (ac_running s) (ac_queue s) (ac_sending s) (ac_answers s) (ac_sent s)
                 (ac_log s ++ [mkEffect None call o])).
Proof.
  intros [Hl (lost & Ho & Hlost & Hln) Hi Hr He Ha Hon Hal] Hs. split; simpl; try done.
  - by eapply run_steps_log.
  - exists lost. rewrite requests_of_app. simpl. by rewrite app_nil_r.
  - intros e j Hj Hid. log_cases. by eapply Hr.
  - intros e j Hj Hid. log_cases. by apply He.
  - intros j r' Hj. destruct (Ha j r' Hj) as (e & ? & ? & ?). exists e. set_solver.
Qed.

Lemma send_ok h0 s msg :
  actor_ok h0 s → ac_running s = true →
  let m := (length (ac_sent s), msg) in
  actor_ok h0 (mkActor (ac_handle s) true (ac_queue s ++ [m]) (ac_sending s) (ac_answers s) (ac_sent s ++ [m]) (ac_log s)).
Proof.
  intros [Hl (lost & Ho & Hlost & Hln) Hi Hr He Ha Hon Hal] Hrun m. split; simpl; try done; [| |by auto].
  - exists []. rewrite (Hlost Hrun), app_nil_r in Ho. rewrite app_nil_r, Ho, app_assoc at 1. split_and!; [done..|]. set_solver.
  - rewrite fmap_app, Hi, length_app. simpl. by rewrite seq_app.
Qed.

Lemma actor_step_ok h0 s s' : actor_step s s' → actor_ok h0 s → actor_ok h0 s'.
Proof.
  intros Hs Hok. destruct Hs as [h q sd an st lg msg Hc|h q sd an st lg d id msg h' r Hm|h q sd an st lg d id msg h' Hm
                                |h run q sd an st lg id r Hsd|h run q sd an st lg call h' o Hc|h sd an st lg].
  - by apply (send_ok h0 _ msg Hok).
  - by apply (handle_ok h0 _ d id msg q h' r Hok).
  - by apply (panic_ok h0 _ d id msg q h' Hok).
  - by apply (answer_ok h0 _ id r Hok).
  - by apply (direct_ok h0 _ call h' o Hok).
  - destruct Hok as [Hl (lost & Ho & Hlost & Hln) Hi Hr He Ha Hon Hal]. split; simpl in *; try done. by exists lost.
Qed.

Lemma actor_reachable_ok h0 s : rtc actor_step (actor_spawn h0) s → actor_ok h0 s.
Proof.
  intros Hr. eapply (rtc_ind_r (actor_ok h0) (actor_spawn h0)); [|intros ? ? _ Hs; by eapply actor_step_ok|exact Hr].
  split; simpl; try done; try set_solver. exists []. split_and!; [done..|set_solver].
Qed.

(** ** When secrets are given out *)
(** A call that has unlocked the service, and one that has locked it. *)
Definition unlocks (c : Draws * ServiceCall) (o : outcome SecretResponse) : bool :=
  match c.2, o with
  | CallMessage (MUnlock _ _), Ret (RUnit (Ok _)) | CallUnlockNew _, Ret (RString (Ok _)) => true
  | _, _ => false
  end.
Definition locks (c : Draws * ServiceCall) (o : outcome SecretResponse) : bool :=
  match c.2, o with CallMessage MLock, Ret _ => true | _, _ => false end.
(** A key, a password, a cipher text or a plain text is the answer. *)
Definition gives_secret (c : Draws * ServiceCall) (o : outcome SecretResponse) : bool :=
  match c.2, o with
  | CallMessage _, Ret (RKey (Ok _) | RBytes (Ok _) | REncrypted (Ok _) | RString (Ok _)) => true
  | _, _ => false
  end.

(** The last of [lg] that locked or unlocked the service has unlocked it. *)
Definition unlocked_since (lg : list Effect) : Prop :=
  ∃ l1 u l2, lg = l1 ++ u :: l2 ∧ unlocks (ef_call u) (ef_outcome u) = true
    ∧ Forall (λ e, locks (ef_call e) (ef_outcome e) = false) l2.

Lemma derive_cached_unlocked t kt derive path i :
  unlocked (derive_cached t kt derive path i).1 = unlocked i.
Proof.
  unfold derive_cached. destruct (unlocked i) eqn:Hu; simpl; [|done]. destruct (cache_get _ _ _) as [c [k|]]; simpl; [done|].
  destruct (seed i); [|done]. by destruct (derive _) as [[[]|]|].
Qed.
Lemma derive_cached_locked t kt derive path i :
  unlocked i = false → derive_cached t kt derive path i = (i, Ret (Err ServiceLocked)).
Proof. intros Hu. unfold derive_cached. by rewrite Hu. Qed.

Lemma with_write_unlocked {R} h (body : _ → _ * outcome R) :
  (∀ i, unlocked (body i).1 = unlocked i) → unlocked (inner (with_write h body).1) = unlocked (inner h).
Proof.
  intros Hb. unfold with_write. destruct (poisoned h); [done|]. specialize (Hb (inner h)). by destruct (body (inner h)).
Qed.

Lemma encryption_key_unlocked t i : unlocked (encryption_private_key oc t i).1 = unlocked i.
Proof.
  unfold encryption_private_key. pose proof (derive_cached_unlocked t Aes256Gcm
    (ed25519_pair oc PATHS.ENCRYPTION) PATHS.ENCRYPTION i) as Hd. by destruct (derive_cached _ _ _ _ _).
Qed.

Lemma fst_omap {R} (f : R → SecretResponse) (x : SecretServiceHandle * outcome R) :
  (let '(h, o) := x in (h, omap f o)).1 = x.1.
Proof. by destruct x. Qed.

Lemma handle_message_unlocked d h msg :
  msg ≠ MLock → (∀ m p, msg ≠ MUnlock m p) →
  unlocked (inner (handle_message d h msg).1) = unlocked (inner h).
Proof.
  intros Hl Hu. destruct msg; cbn [SecretService.handle_message]; rewrite ?fst_omap; try done;
    try (by apply with_write_unlocked; intros i; apply derive_cached_unlocked).
  - unfold derive_ethereum_key. destruct secp256k1_feature; [|done].
    apply with_write_unlocked. intros i. apply derive_cached_unlocked.
  - apply with_write_unlocked. intros i. pose proof (encryption_key_unlocked (now d) i) as Hk.
    by destruct (encryption_private_key _ _ _) as [i' [[]|]].
  - apply with_write_unlocked. intros i. pose proof (encryption_key_unlocked (now d) i) as Hk.
    by destruct (encryption_private_key _ _ _) as [i' [[]|]].
  - by destruct (Hu mnemonic passphrase).
Qed.

Lemma unlocked_step h c h' o :
  service_step h c = (h', o) → unlocked (inner h') = true →
  unlocks c o = true ∨ unlocked (inner h) = true ∧ locks c o = false.
Proof.
  intros Hs Hu. destruct c as [d [msg|n]].
  - assert (msg ≠ MLock → (∀ m p, msg ≠ MUnlock m p) → unlocked (inner h) = true) as Hother.
    { intros Hl Hm. pose proof (handle_message_unlocked d h msg Hl Hm) as He. simpl in Hs. rewrite Hs in He. simpl in He. congruence. }
    destruct msg; try (right; split; [by apply Hother|done]); simpl in Hs.
    + unfold lock, with_write in Hs. destruct (poisoned h); simplify_eq/=; by right.
    + unfold unlock, with_write in Hs. destruct (poisoned h); simplify_eq/=; [by right|].
      destruct (unlocked (inner h)) eqn:Hi; simplify_eq/=; [by right|].
      destruct (from_phrase _); simplify_eq/=; [|congruence]. destruct (to_seed _ _); simplify_eq/=; [by left|congruence].
  - simpl in Hs. unfold unlock_new, with_write in Hs. destruct (poisoned h); simplify_eq/=; [by right|].
    destruct (unlocked (inner h)) eqn:Hi; simplify_eq/=; [by right|].
    destruct (Mnemonic_generate _ _); simplify_eq/=; [|congruence]. destruct (to_seed _ _); simplify_eq/=; [by left|congruence].
Qed.

Lemma secret_needs_unlocked h c h' o :
  service_step h c = (h', o) → gives_secret c o = true → unlocked (inner h) = true.
Proof.
  intros Hs Hg. destruct (unlocked (inner h)) eqn:Hu; [done|]. destruct c as [d [msg|n]]; [|done].
  destruct msg; cbn [SecretService.service_step SecretService.handle_message] in Hs;
    unfold derive_ed25519, derive_encryption_key, derive_ethereum_key, derive_password,
      service_encrypt, service_decrypt, encryption_private_key, lock, unlock, with_write, with_read in Hs;
    destruct (poisoned h); try (destruct secp256k1_feature); rewrite ?derive_cached_locked, ?Hu in Hs by done;
    simplify_eq/=; try done; repeat case_match; by simplify_eq/=.
Qed.

Lemma log_step s s' :
  actor_step s s' →
  ac_log s' = ac_log s ∧ ac_handle s' = ac_handle s
  ∨ ∃ e, ac_log s' = ac_log s ++ [e] ∧ service_step (ac_handle s) (ef_call e) = (ac_handle s', ef_outcome e).
Proof. destruct 1; simpl; eauto. Qed.

Lemma unlocked_since_snoc lg e :
  unlocked_since lg → locks (ef_call e) (ef_outcome e) = false → unlocked_since (lg ++ [e]).
Proof.
  intros (l1 & u & l2 & -> & Hu & Hl) He. exists l1, u, (l2 ++ [e]). split_and!; [by rewrite <-app_assoc|done|].
  apply Forall_app. by rewrite Forall_singleton.
Qed.

Definition trace_ok (s : Actor) : Prop :=
  (unlocked (inner (ac_handle s)) = true → unlocked_since (ac_log s))
  ∧ ∀ l1 e l2, ac_log s = l1 ++ e :: l2 → gives_secret (ef_call e) (ef_outcome e) = true → unlocked_since l1.

Lemma trace_step_ok s s' : actor_step s s' → trace_ok s → trace_ok s'.
Proof.
  intros [[Hl Hh]|(e' & Hl & Hs)]%log_step [Hu Hg]; unfold trace_ok; rewrite Hl; [by rewrite Hh|]. split.
  - intros Hn. destruct (unlocked_step _ _ _ _ Hs Hn) as [Hk|[Ho Hk]]; [|by apply unlocked_since_snoc; auto].
    exists (ac_log s), e', []. by split_and!.
  - intros l1 e l2 Heq Hsec. destruct l2 as [|e2 l2 _] using rev_ind.
    + apply app_inj_tail in Heq as [<- <-]. by apply Hu, (secret_needs_unlocked _ _ _ _ Hs).
    + rewrite app_comm_cons, app_assoc in Heq. apply app_inj_tail in Heq as [Heq _]. by eapply Hg.
Qed.

(** ** Theorems *)

(** C8: the shared service is linearizable.  However the clients of the actor and
    the users of the handle interleave, the calls took effect one after the
    other, each with the outcome the service gives in the state the earlier
    ones left; requests took effect in the order in which they were sent; every
    answer delivered is the outcome of its own request; and every request has
    taken effect, is still queued, or was told that the task is gone, which a
    running task tells nobody. *)
Theorem actor_linearizable config s :
  let h0 := with_cache_config config in
  rtc actor_step (actor_spawn h0) s →
  run_steps service_step h0 (ef_call <$> ac_log s) = (ac_handle s, ef_outcome <$> ac_log s)
  ∧ requests_of (ac_log s) `prefix_of` ac_sent s
  ∧ (∀ id r, ac_answers s !! id = Some (Some r) →
       ∃ e, e ∈ ac_log s ∧ ef_request e = Some id ∧ ef_outcome e = Ret r)
  ∧ (∀ id msg, (id, msg) ∈ ac_sent s →
       (id, msg) ∈ requests_of (ac_log s) ∨ (id, msg) ∈ ac_queue s
       ∨ ac_running s = false ∧ ac_answers s !! id = Some None).
Proof.
  intros h0 Hr%actor_reachable_ok. pose proof Hr as [Hl (lost & Ho & Hlost & Hln) _ _ _ Ha _ _]. split_and!.
  - done.
  - rewrite Ho. by apply prefix_app_r.
  - intros id r Hid. apply Ha. by right.
  - intros id msg Hin. rewrite Ho, !elem_of_app in Hin. destruct Hin as [?|[?|Hin]]; [by left|by right; left|].
    right; right. split; [|by apply (Hln _ Hin)]. destruct (ac_running s); [|done].
    rewrite Hlost in Hin by done. set_solver.
Qed.

(** C9: nothing secret is given out before an unlock.  Whatever the clients of
    the actor and the users of the handle do, a client that gets a key, a
    password, a cipher text or a plain text gets the outcome of a call before
    which the service had been unlocked and had not been locked since. *)
Theorem secrets_need_unlock config s id r :
  rtc actor_step (actor_spawn (with_cache_config config)) s →
  ac_answers s !! id = Some (Some r) →
  ∃ l1 e l2, ac_log s = l1 ++ e :: l2 ∧ ef_request e = Some id ∧ ef_outcome e = Ret r
    ∧ (gives_secret (ef_call e) (Ret r) = true → unlocked_since l1).
Proof.
  intros Hr Hid. pose proof (actor_reachable_ok _ _ Hr) as Hok.
  destruct (ao_answer _ _ Hok id r (or_intror Hid)) as (e & He & Hrq & Ho).
  apply list_elem_of_split in He as (l1 & l2 & Hl). exists l1, e, l2. split_and!; try done.
  assert (trace_ok s) as [_ Hg].
  { eapply (rtc_ind_r trace_ok (actor_spawn (with_cache_config config)));
      [|intros ? ? _ Hs; by apply trace_step_ok|exact Hr].
    split; [done|]. intros [] ? ? Heq; done. }
  intros Hs. eapply Hg; [done|]. by rewrite Ho.
Qed.
End Actor.

(** ** Examples *)
Module ActorExample.
Import SecretExample.

Definition config0 : CacheConfig := CacheConfig_default.
Definition fresh : SecretServiceHandle := with_cache_config config0.
(** A client unlocks the service and asks for a key. *)
Definition unlocking : SecretMessage := MUnlock "phrase" None.
Definition asking : SecretMessage := MDeriveEd25519 "m/0'".
Definition open_handle : SecretServiceHandle := (handle_message true false (draws 0) fresh unlocking).1.
Definition key_answer : SecretResponse :=
  match (handle_message true false (draws 1) open_handle asking).2 with Ret r => r | Panic => RUnit (Ok tt) end.

Definition log0 : list Effect :=
  [mkEffect (Some 0%nat) (draws 0, CallMessage unlocking) (Ret (RUnit (Ok tt)));
   mkEffect (Some 1%nat) (draws 1, CallMessage asking) (Ret key_answer)].
Definition served : Actor :=
  mkActor (handle_message true false (draws 1) open_handle asking).1 true [] {[0%nat := RUnit (Ok tt)]}
    {[1%nat := Some key_answer]} [(0%nat, unlocking); (1%nat, asking)] log0.

Lemma served_reached : rtc (actor_step true false) (actor_spawn fresh) served.
Proof.
  eapply rtc_l; [apply (as_send _ _ _ [] _ _ _ _ unlocking); unfold CHANNEL_CAPACITY; simpl; lia|].
  eapply rtc_l; [apply (as_send _ _ _ [_] _ _ _ _ asking); unfold CHANNEL_CAPACITY; simpl; lia|].
  eapply rtc_l; [by eapply (as_handle _ _ _ _ _ _ _ _ (draws 0))|].
  eapply rtc_l; [by eapply (as_handle _ _ _ _ _ _ _ _ (draws 1))|].
  eapply rtc_l; [by eapply (as_answer _ _ _ _ _ _ _ _ _ 1%nat)|].
  apply reflexive_eq. vm_compute. reflexivity.
Qed.

Lemma actor_linearizable_witness :
  run_steps (service_step true false) fresh (ef_call <$> log0) = (ac_handle served, ef_outcome <$> log0)
  ∧ requests_of log0 `prefix_of` ac_sent served
  ∧ (∀ id r, ac_answers served !! id = Some (Some r) →
       ∃ e, e ∈ log0 ∧ ef_request e = Some id ∧ ef_outcome e = Ret r)
  ∧ (∀ id msg, (id, msg) ∈ ac_sent served →
       (id, msg) ∈ requests_of log0 ∨ (id, msg) ∈ ac_queue served
       ∨ ac_running served = false ∧ ac_answers served !! id = Some None).
Proof. apply (actor_linearizable true false config0 served served_reached). Defined.

Lemma secrets_need_unlock_witness :
  ∃ l1 e l2, log0 = l1 ++ e :: l2 ∧ ef_request e = Some 1%nat ∧ ef_outcome e = Ret key_answer
    ∧ (gives_secret (ef_call e) (Ret key_answer) = true → unlocked_since l1).
Proof. apply (secrets_need_unlock true false config0 served 1 key_answer served_reached). reflexivity. Defined.
End ActorExample.
