(* ===== verification/Redaction.v ===== *)
(** * What [Debug] shows (server/serve.rs, client/connect.rs, config/static_config.rs,
    config/dynamic_config.rs, credentials/mod.rs, alknet-secret's
    protocol.rs and mnemonic.rs)

    Several types that hold keys implement [Debug] by hand, so that printing
    them does not print the keys; others derive it.  [Debug] is the trait, and a
    [DebugValue] what an implementation hands to the formatter: the names and
    values of [debug_struct], from which the text is made.  The entries of a
    [HashMap] come in an order that is not specified; here it is that of
    [map_to_list]. *)
From S2P Require Import Prelude RustStd Net NetShow Forwarding Transports Keys AuthPolicy DynConfig RateLimit Socket.
From S2P Require Import ServerHandler RawFraming ServeConfig Client KeyCache Derivation Encryption SecretService.
From Stdlib Require Import Strings.Byte.
Open Scope Z_scope.

(** ** Values *)
(** [DText] is text that is printed as it is, [DStr] a quoted string. *)
Inductive DebugValue :=
| DText (s : string)
| DStr (s : string)
| DTuple (name : string) (fields : list DebugValue)
| DStruct (name : string) (fields : list (string * DebugValue))
| DList (l : list DebugValue)
| DMap (l : list (DebugValue * DebugValue)).

(** The strings that occur in a value. *)
Fixpoint shown (v : DebugValue) : list string :=
  match v with
  | DText _ => []
  | DStr s => [s]
  | DTuple _ l | DList l => flat_map shown l
  | DStruct _ l => flat_map (λ f, shown f.2) l
  | DMap l => flat_map (λ e, shown e.1 ++ shown e.2) l
  end.

Class Debug (A : Type) := debug : A → DebugValue.
#[export] Hint Mode Debug ! : typeclass_instances.

(** ** The standard library's implementations *)
#[export] Instance debug_string : Debug string := DStr.
#[export] Instance debug_Z : Debug Z := λ n, DText (show_uint n).
#[export] Instance debug_nat : Debug nat := λ n, DText (show_uint (Z.of_nat n)).
#[export] Instance debug_bool : Debug bool := λ b, DText (if b then "true" else "false").
#[export] Instance debug_option `{Debug A} : Debug (option A) := λ o,
  match o with Some a => DTuple "Some" [debug a] | None => DText "None" end.
#[export] Instance debug_list `{Debug A} : Debug (list A) := λ l, DList (debug <$> l).
#[export] Instance debug_byte : Debug byte := λ b, debug (byte_val b).
#[export] Instance debug_map `{Debug A} : Debug (gmap string A) := λ m,
  DMap ((λ e : string * A, (debug e.1, debug e.2)) <$> map_to_list m).
#[export] Instance debug_socket_addr : Debug SocketAddr := λ a, DText (show_socket_addr a).

(** ** Derived implementations *)
#[export] Instance debug_transport_kind : Debug TransportKind := λ k,
  match k with
  | Tcp => DText "Tcp"
  | Tls server_name => DStruct "Tls" [("server_name", debug server_name)]
  | Iroh endpoint_id => DStruct "Iroh" [("endpoint_id", debug endpoint_id)]
  | WebTransport server_name => DStruct "WebTransport" [("server_name", debug server_name)]
  end.
#[export] Instance debug_interface_kind : Debug StreamInterfaceKind := λ k,
  match k with KindSsh => DText "Ssh" | KindRawFraming => DText "RawFraming" end.
#[export] Instance debug_serve_mode : Debug ServeTransportMode := λ m,
  match m with ModeTcp => DText "Tcp" | ModeTls => DText "Tls" | ModeIroh => DText "Iroh" end.
#[export] Instance debug_client_mode : Debug TransportMode := λ m,
  match m with CTcp => DText "Tcp" | CTls => DText "Tls" | CIroh => DText "Iroh" end.
#[export] Instance debug_proxy_mode : Debug ProxyMode := λ m,
  match m with
  | Direct => DText "Direct"
  | Socks5Proxy addr => DTuple "Socks5" [debug addr]
  | HttpConnect addr => DTuple "HttpConnect" [debug addr]
  end.
#[export] Instance debug_proxy_config : Debug ProxyConfig := λ c, DStruct "ProxyConfig" [("mode", debug (mode c))].
#[export] Instance debug_stream_listener : Debug StreamListenerConfig := λ c,
  DStruct "StreamListenerConfig"
    [("transport_kind", debug (sl_transport_kind c)); ("interface", debug (sl_interface c));
     ("listen_addr", debug (sl_listen_addr c)); ("tls_cert", debug (sl_tls_cert c)); ("tls_key", debug (sl_tls_key c));
     ("acme_domain", debug (sl_acme_domain c)); ("stealth", debug (sl_stealth c)); ("iroh_relay", debug (sl_iroh_relay c))].
#[export] Instance debug_listener : Debug ListenerConfig := λ l,
  match l with
  | StreamListener c => DStruct "Stream" [("config", debug c)]
  | HttpListener c =>
      DStruct "Http" [("config", DStruct "HttpListenerConfig"
        [("bind_addr", debug (hl_bind_addr c)); ("tls", debug (hl_tls c)); ("stealth", debug (hl_stealth c))])]
  | DnsListener c =>
      DStruct "Dns" [("config", DStruct "DnsListenerConfig" [("bind_addr", debug (dl_bind_addr c)); ("tls", debug (dl_tls c))])]
  end.
#[export] Instance debug_rate_limits : Debug RateLimitConfig := λ r,
  DStruct "RateLimitConfig"
    [("max_connections_per_ip", debug (max_connections_per_ip r)); ("max_auth_attempts", debug (max_auth_attempts r))].
#[export] Instance debug_credentials : Debug CredentialSet := λ c,
  match c with
  | ApiKey header_name token => DStruct "ApiKey" [("header_name", debug header_name); ("token", debug token)]
  | Basic username password => DStruct "Basic" [("username", debug username); ("password", debug password)]
  | Bearer token => DStruct "Bearer" [("token", debug token)]
  | S3AccessKey access_key secret_key session_token =>
      DStruct "S3AccessKey"
        [("access_key", debug access_key); ("secret_key", debug secret_key); ("session_token", debug session_token)]
  | OidcToken access_token refresh_token expires_at =>
      DStruct "OidcToken"
        [("access_token", debug access_token); ("refresh_token", debug refresh_token); ("expires_at", debug expires_at)]
  | CustomScheme scheme params => DStruct "Custom" [("scheme", debug scheme); ("params", debug params)]
  end.
#[export] Instance debug_mnemonic : Debug Mnemonic := λ m, DStruct "Mnemonic" [("phrase", debug (phrase m))].

(** ** Implementations by hand *)
#[export] Instance debug_serve_options : Debug ServeOptions := λ o,
  DStruct "ServeOptions"
    [("key", DStr "<KeySource>"); ("authorized_keys", DStr "<KeySource>"); ("cert_authority", DStr "<KeySource>");
     ("transport_mode", debug (so_transport_mode o)); ("listen_addr", debug (so_listen_addr o));
     ("stealth", debug (so_stealth o)); ("max_connections_per_ip", debug (so_max_connections_per_ip o));
     ("max_auth_attempts", debug (so_max_auth_attempts o)); ("listeners", debug (so_listeners o))].
#[export] Instance debug_connect_options : Debug ConnectOptions := λ o,
  DStruct "ConnectOptions"
    [("server", debug (co_server o)); ("peer", debug (co_peer o)); ("transport_mode", debug (co_transport_mode o));
     ("identity", DStr "<KeySource>"); ("socks5_addr", debug (co_socks5_addr o)); ("forwards", debug (co_forwards o));
     ("remote_forwards", debug (co_remote_forwards o)); ("proxy", debug (co_proxy o));
     ("iroh_relay", debug (co_iroh_relay o)); ("tls_server_name", debug (co_tls_server_name o));
     ("insecure", debug (co_insecure o))].
#[export] Instance debug_derived_key : Debug DerivedKey := λ k,
  DStruct "DerivedKey"
    [("key_type", DText (key_type_name (dk_key_type k))); ("private_key", DStr "[REDACTED]");
     ("public_key", debug (dk_public_key k))].

Section Configuration.
Context `{SshKeys, IpNetworkLib, Debug IpNetwork}.
Context {Algorithm : Type} `{Debug Algorithm}.

#[export] Instance debug_static_config : Debug (StaticConfig (Algorithm := Algorithm)) := λ c,
  DStruct "StaticConfig"
    [("transport_mode", debug (st_transport_mode c)); ("listen_addr", debug (st_listen_addr c));
     ("tls_cert", debug ((λ _, "<redacted>") <$> st_tls_cert c));
     ("tls_key", debug ((λ _, "<redacted>") <$> st_tls_key c));
     ("acme_domain", debug (st_acme_domain c)); ("stealth", debug (st_stealth c));
     ("host_key_algorithm", debug (st_host_key_algorithm c)); ("max_auth_attempts", debug (st_max_auth_attempts c));
     ("max_connections_per_ip", debug (st_max_connections_per_ip c)); ("proxy_config", debug (st_proxy_config c));
     ("iroh_relay", debug (st_iroh_relay c)); ("listeners", debug (st_listeners c))].

#[export] Instance debug_auth_policy : Debug AuthPolicy := λ p,
  DStruct "AuthPolicy"
    [("authorized_keys_count", debug (length (authorized_keys p)));
     ("cert_authorities_count", debug (length (cert_authorities p)));
     ("api_keys_count", debug (length (api_keys p)))].

(** The forwarding policy and the configuration derive theirs. *)
#[export] Instance debug_action : Debug ForwardingAction := λ a,
  match a with Allow => DText "Allow" | Deny => DText "Deny" end.
#[export] Instance debug_target : Debug TargetPattern := λ t,
  match t with
  | AnyTarget => DText "Any"
  | Host pattern => DTuple "Host" [debug pattern]
  | Cidr network => DTuple "Cidr" [debug network]
  | PortRange pattern start end_ =>
      DTuple "PortRange" [debug pattern; DText (show_uint start +:+ ".." +:+ show_uint end_)]
  | AlknetPrefix => DText "AlknetPrefix"
  end.
#[export] Instance debug_rule : Debug ForwardingRule := λ r,
  DStruct "ForwardingRule"
    [("target", debug (rule_target r)); ("action", debug (rule_action r));
     ("principals", debug (rule_principals r)); ("transports", debug (rule_transports r))].
#[export] Instance debug_policy : Debug ForwardingPolicy := λ p,
  DStruct "ForwardingPolicy" [("default", debug (policy_default p)); ("rules", debug (policy_rules p))].
#[export] Instance debug_dynamic_config : Debug DynamicConfig := λ c,
  DStruct "DynamicConfig"
    [("auth", debug (auth c)); ("forwarding", debug (forwarding c)); ("rate_limits", debug (rate_limits c));
     ("credentials", debug (credentials c))].

(** ** Properties *)
Lemma shown_field v name fields f s : (f, v) ∈ fields → s ∈ shown v → s ∈ shown (DStruct name fields).
Proof. intros Hf Hs. cbn [shown]. apply list_elem_of_In, in_flat_map. exists (f, v). by rewrite <-!list_elem_of_In. Qed.
Lemma shown_element v l s : v ∈ l → s ∈ shown v → s ∈ shown (DList l).
Proof. intros Hv Hs. cbn [shown]. apply list_elem_of_In, in_flat_map. exists v. by rewrite <-!list_elem_of_In. Qed.
Lemma shown_entry {A} `{Debug A} (m : gmap string A) k a s : m !! k = Some a → s ∈ shown (debug a) → s ∈ shown (debug m).
Proof.
  intros Hm Hs. unfold debug at 1, debug_map. cbn [shown]. apply list_elem_of_In, in_flat_map.
  exists (debug k, debug a). split; apply list_elem_of_In; [|simpl; set_solver].
  apply list_elem_of_fmap. exists (k, a). split; [done|]. by apply elem_of_map_to_list.
Qed.

(** What is hidden.  Options print the same whatever their key sources are, a
    derived key whatever its private half is, and an authentication policy shows
    how many keys it has. *)
Theorem debug_hides_keys :
  (∀ o key authorized_keys cert_authority tls_cert tls_key acme_domain proxy iroh_relay,
     debug (mkServeOptions key authorized_keys cert_authority (so_transport_mode o) (so_listen_addr o) tls_cert tls_key
              acme_domain (so_stealth o) proxy iroh_relay (so_max_connections_per_ip o) (so_max_auth_attempts o)
              (so_listeners o)) = debug o)
  ∧ (∀ o identity,
       debug (mkConnectOptions (co_server o) (co_peer o) (co_transport_mode o) identity (co_socks5_addr o) (co_forwards o)
                (co_remote_forwards o) (co_proxy o) (co_iroh_relay o) (co_tls_server_name o) (co_insecure o)) = debug o)
  ∧ (∀ k private_key, debug (mkDerivedKey (dk_key_type k) private_key (dk_public_key k)) = debug k)
  ∧ (∀ p p' : AuthPolicy,
       length (authorized_keys p) = length (authorized_keys p') → length (cert_authorities p) = length (cert_authorities p') →
       length (api_keys p) = length (api_keys p') → debug p = debug p').
Proof. split_and!; try done. intros p p' Hk Hc Ha. unfold debug, debug_auth_policy. by rewrite Hk, Hc, Ha. Qed.

(** What is not.  The static configuration replaces the paths of the TLS files,
    but shows its listeners; when these were made from the options, the paths
    are printed with them. *)
Theorem static_redaction_undone `{FileSystem} (algorithm : PrivateKey → Algorithm) o static dynamic path :
  from_serve_options algorithm o = Ret (Ok (static, dynamic)) → so_listeners o = None →
  so_tls_key o = Some path ∨ so_tls_cert o = Some path →
  path ∈ shown (debug static).
Proof.
  intros Hs Hl Hp. assert (st_listeners static = options_listeners o) as Hls.
  { unfold from_serve_options in Hs. destruct (options_validate o); [|done]. destruct (load_private_key _); [|done].
    destruct (ServerAuth.from_keys_and_ca _ _) as [[c|]|]; [|done..]. simpl in Hs.
    destruct (parse_proxy_config _); [|done]. simpl in Hs. by simplify_eq. }
  unfold options_listeners in Hls. rewrite Hl in Hls.
  apply (shown_field (debug (st_listeners static)) _ _ "listeners"); [rewrite !elem_of_cons; naive_solver|].
  rewrite Hls. eapply shown_element; [left|]. eapply (shown_field _ _ _ "config"); [left|].
  destruct Hp as [Hp|Hp].
  - apply (shown_field (debug (Some path)) _ _ "tls_key"); [rewrite <-Hp, !elem_of_cons; naive_solver|]. by left.
  - apply (shown_field (debug (Some path)) _ _ "tls_cert"); [rewrite <-Hp, !elem_of_cons; naive_solver|]. by left.
Qed.

(** The secret parts of a credential. *)
Definition secrets_of (c : CredentialSet) : list string :=
  match c with
  | ApiKey _ token | Bearer token => [token]
  | Basic _ password => [password]
  | S3AccessKey _ secret_key session_token => secret_key :: option_list session_token
  | OidcToken access_token refresh_token _ => access_token :: option_list refresh_token
  | CustomScheme _ params => (map_to_list params).*2
  end.

(** Printing a configuration prints the secrets of its credentials. *)
Theorem debug_shows_credentials (c : DynamicConfig) service cr secret :
  credentials c !! service = Some cr → secret ∈ secrets_of cr → secret ∈ shown (debug c).
Proof.
  intros Hc Hs. apply (shown_field (debug (credentials c)) _ _ "credentials"); [rewrite !elem_of_cons; naive_solver|].
  apply (shown_entry _ service cr); [done|]. destruct cr as [h t|u w|t|a k [t|]|a [r|] e|sch ps]; simpl in *; try set_solver.
  apply list_elem_of_fmap in Hs as ([k v] & -> & Hkv%elem_of_map_to_list). right.
  rewrite app_nil_r. apply (shown_entry ps k v); [done|by left].
Qed.
End Configuration.

(** ** Examples *)
Module RedactionExample.
Import KeysExample AuthExample ServeConfigExample.

#[export] Instance debug_toy_network : Debug IpNetwork := λ _, DText "network".
#[export] Instance debug_toy_algorithm : Debug unit := λ _, DText "Ed25519".

(** A server of TLS options; the path of its key file is printed. *)
Definition tls_server_options : ServeOptions :=
  mkServeOptions host_key None None ModeTls "0.0.0.0:443" (Some "cert.pem") (Some "key.pem") None false None None 0 10 None.

Lemma tls_server_made :
  match from_serve_options (λ _, ()) tls_server_options with Ret (Ok _) => true | _ => false end = true.
Proof. vm_compute. reflexivity. Qed.

Lemma static_redaction_undone_witness :
  ∃ static dynamic, from_serve_options (λ _, ()) tls_server_options = Ret (Ok (static, dynamic))
    ∧ "key.pem" ∈ shown (debug static).
Proof.
  pose proof tls_server_made as Hm.
  destruct (from_serve_options (λ _, ()) tls_server_options) as [[[static dynamic]|e]|] eqn:Hs; [|discriminate Hm..].
  exists static, dynamic. split; [reflexivity|].
  apply (static_redaction_undone (λ _, ()) tls_server_options static dynamic); [exact Hs|reflexivity|left; reflexivity].
Defined.

Definition with_token : DynamicConfig :=
  with_credentials DynamicConfig_default {["search" := Bearer "s3cr3t"]}.
Lemma debug_shows_credentials_witness : "s3cr3t" ∈ shown (debug with_token).
Proof. apply (debug_shows_credentials with_token "search" (Bearer "s3cr3t")); [reflexivity|by left]. Defined.
End RedactionExample.
